(* ===== verification/_CoqProject ===== *)
-Q . S2P
Prelude.v
Timer.v
Types.v
Lanes.v
CancelIndex.v
Ring.v
RingConc.v
Deque.v
DequeConc.v
NodePool.v
Future.v
Metrics.v
Dag.v
DagEngine.v
DagWait.v
Pool.v
PoolProgress.v
PoolContract.v
PoolImpl.v
PoolRefine.v
TaskGroup.v
ResultTask.v
GroupFuture.v
Pipeline.v
Numa.v
Coroutine.v
TimerThread.v
ByteMem.v
Asm.v
CtxSwitch.v
CtxX86.v
CtxArm.v
CoroBoot.v
Viewer.v
CoroEnv.v
CoroExec.v
CoroSched.v
PoolLife.v
Recovery.v
Monitor.v
Runtime.v
Facade.v
