(* ===== verification/Prelude.v ===== *)
(** * Loomworks: a verification library for the C11 concurrency runtime

    Loomworks (src/) is a C library: a thread pool whose tasks travel through
    a lock-free ring, per-worker work-stealing deques and priority lanes;
    futures; task groups, pipelines and dependency graphs built on the pool;
    stackful coroutines run by the pool's workers and woken by a timer thread;
    metrics, NUMA placement, crash recovery and a runtime façade.  The library
    models these parts as executable definitions, one file per component, and
    proves the properties that make each of them correct.

    ** Conventions

    A w-bit unsigned integer is a [Z] with its wrap-around written out ([u8],
    [u32], [u64], [+32], [-64] below); pointers are numbers with 0 for NULL, or
    names of objects where only identity matters.  A function of the source is
    a definition of the same name.  What the source reads from outside (the
    clock, the answer of malloc, calloc, realloc, mmap, pthread_create, a
    directory listing, the bodies of tasks) is an argument.  Concurrent code
    is a step function or step relation on one shared state: a step is one
    critical section, or one atomic access where the code is lock-free, and a
    theorem about "every run" quantifies over all sequences of steps, so over
    all interleavings.  Memory orders weaker than sequential consistency are
    not modelled.  Loops that are not structural take fuel computed from the
    data (the length of the input, of the array or of the probe sequence), and
    the theorems show that it suffices.

    ** Files, and the source they follow

    Containers of the pool (src/thread_pool.c, src/timer.c):
    - Timer.v: the binary heap of sleeping coroutines (all of timer.c).
    - Types.v: enumerations, constants and struct loom_task.
    - Lanes.v: the 256 priority buckets as linked lists in a node store, with
      the non-empty bitmap (loom_enqueue_unlocked, loom_dequeue_unlocked,
      dequeue_lowest_priority_unlocked, lane_has_priority, the cancel walk).
    - CancelIndex.v: the open-addressing table from task ids to nodes
      (the cancel_index functions).
    - Ring.v, RingConc.v: the bounded MPMC ring (ring_try_enqueue,
      ring_bulk_try_dequeue), used by one thread and by any number.
    - Deque.v, DequeConc.v: the Chase-Lev deque (deque_push, deque_pop,
      deque_steal), used by one thread and by one owner with thieves.
    - NodePool.v: task nodes, the Treiber free list, the per-thread caches and
      the pool registry (task_create, task_destroy, the tls and pool_reg functions).

    The pool (src/thread_pool.c):
    - Pool.v: submission, the worker's locked pass, cancellation, shutdown and
      resize over the queues; PoolProgress.v: wake-ups, draining, capacity.
    - PoolContract.v: the interface ([TaskPool], [TaskPoolLaws]) the pool offers
      to its clients, with the pool model as its instance.
    - PoolImpl.v, PoolRefine.v: the submit funnel, the worker's pass,
      loom_pool_cancel and loom_pool_cancel_by_id on the lanes, ring, deques and index above, put
      together in one state, and their simulation by the queues of Pool.v.
    - PoolLife.v: pool_init, pool_destroy_internal, loom_pool_create,
      loom_pool_destroy and the allocation ladder of loom_pool_resize, as
      acquisitions and releases of resources.
    - Recovery.v: reclaim slots, check_and_recover_workers, shutdown joins.
    - TimerThread.v: timer_thread_fn with its clock, ensure_timer_thread and
      the arming of a sleep.
    - Monitor.v: backpressure callbacks, loom_pool_broadcast, health samples.
    - Future.v: struct loom_future, its resolutions and its waiters.
    - Metrics.v: src/metrics.c, src/metrics_shm.c and metrics_fire.

    Clients of the pool:
    - Dag.v, DagEngine.v: src/dag.c, first construction and the cycle check,
      then the release and execution of nodes; DagWait.v: the threads that
      wait for a graph or destroy it.
    - TaskGroup.v: src/task_group.c against the interface of PoolContract.v;
      ResultTask.v: the tasks of loom_pool_submit_future against the same
      interface, which they offer again, so that GroupFuture.v has the groups
      of loom_task_group_submit_future by putting one on the other.
    - Pipeline.v: src/pipeline.c.
    - Coroutine.v, CoroExec.v: src/coroutine.c, the mapped stacks and the state
      machine of a thread's coroutines; CoroSched.v: the part of
      src/thread_pool.c that starts, parks, wakes and tears down coroutine
      tasks; CoroEnv.v: the scheduler stacks of all threads, the guard
      handler and the end of the process.
    - ByteMem.v, Asm.v: byte-addressed memory and runs of assembly;
      CtxSwitch.v: the surface of src/coro_ctx.h as a class ([Backend]) and the
      machine of suspended contexts over it; CtxX86.v, CtxArm.v: its instances,
      src/ctx_x86_64.S and src/ctx_aarch64.S instruction by instruction with the
      C functions of the header; CoroBoot.v: the first resume of a coroutine on
      the x86-64 one.
    - Numa.v: src/numa.c.  Runtime.v: the life cycle of src/runtime.c.
    - Viewer.v: examples/loom_metrics.c, the tool that reads the shared-memory
      region, with the region as bytes.
    - Facade.v: the public entry points of the pool and of the runtime, the
      queries and the collector's getters.

    This file holds machine integers, the lemmas on arrays, sums and multisets
    the components share, and their tactics.

    ** What the theorems show

    - Containers: each refines its abstract type (bounded FIFO, double-ended
      queue, priority queue, finite map, one FIFO per priority), in Ring, Deque,
      Timer, CancelIndex and Lanes; the ring stays a FIFO for any number of
      concurrent threads (RingConc) and the deque returns no task twice in the
      interleavings its fast path tolerates (DequeConc); every task node is in
      exactly one place (NodePool).
    - Pool: every accepted task has exactly one fate and starts at most once
      ([pool_task_fate]); queue_len is exact and bounded; no wake-up is lost;
      a shutdown leaves nothing behind (Pool, PoolProgress).  A pool on the
      real structures refines this one (PoolRefine).  Over its whole
      life a pool releases each resource exactly once and its arrays cover its
      workers (PoolLife); a crashed worker's task is accounted for once
      (Recovery); callbacks are throttled (Monitor).  A user of the runtime
      sees the same fates through its calls (Facade).
    - Futures and metrics: waiters return the outcome of a resolution that
      happened; every event is counted and reported once.
    - Graphs: exactly the acyclic graphs are accepted, every predecessor has
      returned when a node starts, the engine always drains, and a thread that
      waits for it returns (Dag, DagEngine, DagWait).
    - Groups, result tasks and pipelines: no context is freed twice or used
      after its group, waiting is exact (TaskGroup); a result task resolves its
      future once and touches nothing freed (ResultTask), and delivers a value
      only after its group counted it (GroupFuture); a pipeline is a bounded
      FIFO that loses no wake-up and delivers everything before it reports a
      shutdown (Pipeline).
    - Coroutines: stacks are disjoint; final states are final and a resume runs
      from one yield to the next; a coroutine task is always in one place and a
      shutdown leaves none (Coroutine, CoroExec, CoroSched).  A sleeping one is
      woken no earlier than its deadline and at most a tick and the thread's own
      delays after it (TimerThread); scheduler stacks are freed once (CoroEnv).
    - Context switch: in every run in which waiting contexts are left alone,
      every switch delivers control where its target was left, on both
      architectures, by a proof against the interface (CtxSwitch, CtxX86,
      CtxArm); a first resume enters the coroutine on its own stack and the
      switch back is the return of the swap (CoroBoot).
    - NUMA: parsing reads back what the kernel prints, the placement stays in
      its arrays and spreads the workers; the runtime gives back what it took.
    - Viewer: the numbers read back from its report are the counts of the
      events written to the region.

    Some theorems state how the code departs from what its comments promise
    (for example [deque_pop_fast_path_duplicates], [weak_cas_loses_wakeup],
    [submit_racing_shutdown_is_lost], [task_group_cancel_strands_waiter],
    [coro_completion_never_resolved], [recovery_races_shutdown],
    [cancel_zero_hits_tombstone], [arm_swap_loses_vector_registers]); where a
    positive theorem carries a condition on the run, such a theorem shows that
    the condition is needed.

    ** Not modelled

    The ucontext fallback of src/coro_ctx.h (functions of the C library); the
    longjmp out of the guard handler; sanitizer and valgrind hooks; the clock
    of the timed waits on futures, groups and graphs, whose timeout is a step
    that may come at any time; floating-point ratios; accessors that return a stored pointer; the benchmark and the
    programs under tests/. *)
From stdpp Require Export base numbers list gmap sorting.
From Stdlib Require Export ZArith Lia.

#[export] Set Default Goal Selector "!".
#[export] Set Warnings "-clear-no-such-hyp".

Declare Scope loom_scope.
Delimit Scope loom_scope with loom.
#[global] Open Scope Z_scope.

(** ** Machine integers: the C widths, as wrap-around on [Z]. *)

Definition UINT32_MAX : Z := 2 ^ 32 - 1.
Definition u8 (x : Z) : Z := x mod 2 ^ 8.
Definition u32 (x : Z) : Z := x mod 2 ^ 32.
Definition u64 (x : Z) : Z := x mod 2 ^ 64.

Notation "a +32 b" := (u32 (a + b)) (at level 50, left associativity) : loom_scope.
Notation "a -32 b" := (u32 (a - b)) (at level 50, left associativity) : loom_scope.
Notation "a +64 b" := (u64 (a + b)) (at level 50, left associativity) : loom_scope.
Notation "a -64 b" := (u64 (a - b)) (at level 50, left associativity) : loom_scope.
#[global] Open Scope loom_scope.

Lemma u32_range x : 0 <= u32 x < 2 ^ 32.
Proof. apply Z.mod_pos_bound. lia. Qed.

Lemma u64_range x : 0 <= u64 x < 2 ^ 64.
Proof. apply Z.mod_pos_bound. lia. Qed.

Lemma u32_small x : 0 <= x < 2 ^ 32 -> u32 x = x.
Proof. apply Z.mod_small. Qed.

Lemma u64_small x : 0 <= x < 2 ^ 64 -> u64 x = x.
Proof. apply Z.mod_small. Qed.

(** Facts about machine integers for [auto with loom]. *)
Create HintDb loom discriminated.
#[export] Hint Resolve u32_range u64_range : loom.

(** ** Tactics *)

(** Turn the boolean comparisons of the translated code into propositions. *)
Ltac zbool :=
  repeat match goal with
  | H : (_ <? _) = true |- _ => apply Z.ltb_lt in H
  | H : (_ <? _) = false |- _ => apply Z.ltb_ge in H
  | H : (_ <=? _) = true |- _ => apply Z.leb_le in H
  | H : (_ <=? _) = false |- _ => apply Z.leb_gt in H
  | H : (_ =? _) = true |- _ => apply Z.eqb_eq in H
  | H : (_ =? _) = false |- _ => apply Z.eqb_neq in H
  | H : _ && _ = true |- _ => apply andb_prop in H as [? ?]
  | H : _ || _ = false |- _ => apply orb_false_elim in H as [? ?]
  | H : negb _ = true |- _ => apply negb_true_iff in H
  | H : negb _ = false |- _ => apply negb_false_iff in H
  end.

(** Case analysis on the condition of the first [if] or [match] of the goal. *)
Ltac case_if :=
  match goal with
  | |- context [if ?b then _ else _] => destruct b eqn:?
  end.

(** ** Arrays: lists indexed by [nat], read with [!!!] *)

Section Arrays.
Context {A : Type} `{Inhabited A}.
Implicit Types (l : list A) (i j n : nat).

Lemma array_read_insert_eq l i x :
  (i < length l)%nat -> <[i:=x]> l !!! i = x.
Proof. intros. rewrite list_lookup_total_alt, list_lookup_insert_eq by done. done. Qed.

Lemma array_read_insert_ne l i j x :
  i <> j -> <[i:=x]> l !!! j = l !!! j.
Proof. intros. rewrite !list_lookup_total_alt, list_lookup_insert_ne by done. done. Qed.

(** [t = a[i]; a[i] = a[j]; a[j] = t]. *)
Definition swap l i j : list A := <[j := l !!! i]> (<[i := l !!! j]> l).

Lemma length_swap l i j : length (swap l i j) = length l.
Proof. unfold swap. by rewrite !length_insert. Qed.

Lemma swap_read l i j k :
  (i < length l)%nat -> (j < length l)%nat ->
  swap l i j !!! k =
    if decide (k = j) then l !!! i else if decide (k = i) then l !!! j else l !!! k.
Proof.
  intros Hi Hj. unfold swap. case_decide as E1; [subst|].
  - apply array_read_insert_eq. by rewrite length_insert.
  - rewrite array_read_insert_ne by done. case_decide; [subst|].
    + by apply array_read_insert_eq.
    + by apply array_read_insert_ne.
Qed.

Lemma swap_perm l i j :
  (i < length l)%nat -> (j < length l)%nat -> swap l i j ≡ₚ l.
Proof.
  intros Hi Hj. unfold swap.
  destruct (lookup_lt_is_Some_2 l i Hi) as [x Hx].
  destruct (lookup_lt_is_Some_2 l j Hj) as [y Hy].
  rewrite !list_lookup_total_alt, Hx, Hy. simpl.
  destruct (decide (i = j)) as [->|Hne].
  { simplify_eq. rewrite list_insert_insert_eq, list_insert_id by done. done. }
  apply Permutation_inj. rewrite !length_insert. split; [done|].
  exists (fun k => if decide (k = i) then j else if decide (k = j) then i else k).
  split.
  - intros a b. repeat case_decide; congruence.
  - intros k. repeat case_decide; subst.
    + rewrite list_lookup_insert_ne by congruence.
      by rewrite list_lookup_insert_eq.
    + rewrite list_lookup_insert_eq; [done|]. by rewrite length_insert.
    + by rewrite !list_lookup_insert_ne by congruence.
Qed.

Lemma swap_take n l i j :
  (i < n)%nat -> (j < n)%nat -> (n <= length l)%nat ->
  take n (swap l i j) = swap (take n l) i j.
Proof.
  intros Hi Hj Hn. unfold swap.
  rewrite !take_insert_lt by lia.
  by rewrite !list_lookup_total_alt, !lookup_take_lt by lia.
Qed.

Lemma swap_drop n l i j :
  (i < n)%nat -> (j < n)%nat -> drop n (swap l i j) = drop n l.
Proof. intros Hi Hj. unfold swap. by rewrite !drop_insert_lt by lia. Qed.
End Arrays.

(** Overwriting a cell trades its old value for the new one. *)
Lemma perm_insert_cell {A} (l : list A) i x y :
  l !! i = Some y -> y :: <[i:=x]> l ≡ₚ x :: l.
Proof.
  intros Hi. rewrite insert_take_drop by eauto using lookup_lt_Some.
  rewrite <- (take_drop_middle l i y Hi) at 3. rewrite <- !Permutation_middle.
  apply perm_swap.
Qed.

(** Moving the last live cell into cell [i] removes cell [i]'s value. *)
Lemma perm_remove_cell {A} `{Inhabited A} (l : list A) i n :
  (i <= n)%nat -> (n < length l)%nat ->
  (l !!! i) :: take n (<[i := l !!! n]> l) ≡ₚ take (S n) l.
Proof.
  intros Hi Hn.
  destruct (lookup_lt_is_Some_2 l n Hn) as [z Hz].
  destruct (lookup_lt_is_Some_2 l i ltac:(lia)) as [y Hy].
  rewrite (take_S_r l n z Hz), !list_lookup_total_alt, Hz, Hy. simpl.
  destruct (decide (i = n)) as [->|].
  - simplify_eq. rewrite take_insert_ge by lia. by rewrite Permutation_app_comm.
  - rewrite take_insert_lt by lia. rewrite (Permutation_app_comm (take n l)). simpl.
    apply perm_insert_cell. rewrite lookup_take_lt by lia. done.
Qed.

Lemma lookup_total_take {A} `{Inhabited A} (l : list A) i n :
  (i < n)%nat -> take n l !!! i = l !!! i.
Proof. intros. by rewrite !list_lookup_total_alt, lookup_take_lt. Qed.

Lemma filter_all {A} (P : A -> Prop) `{!forall x, Decision (P x)} (l : list A) :
  Forall P l -> filter P l = l.
Proof. induction 1; [done|]. rewrite filter_cons_True by done. congruence. Qed.

Lemma filter_none {A} (P : A -> Prop) `{!forall x, Decision (P x)} (l : list A) :
  Forall (fun x => ~ P x) l -> filter P l = [].
Proof. induction 1; [done|]. by rewrite filter_cons_False. Qed.

(** ** Modular counters *)

Lemma land_pow2 x n : 0 <= n -> Z.land x (2 ^ n - 1) = x mod 2 ^ n.
Proof. intros. rewrite <- Z.land_ones by done. by rewrite Z.ones_equiv, Z.sub_1_r. Qed.

Lemma u64_add_l a b : u64 (u64 a + b) = u64 (a + b).
Proof. apply Zplus_mod_idemp_l. Qed.

Lemma u64_add_r a b : u64 (a + u64 b) = u64 (a + b).
Proof. apply Zplus_mod_idemp_r. Qed.

Lemma u64_sub_l a b : u64 (u64 a - b) = u64 (a - b).
Proof. apply Zminus_mod_idemp_l. Qed.

Lemma u32_add_l a b : u32 (u32 a + b) = u32 (a + b).
Proof. apply Zplus_mod_idemp_l. Qed.

Lemma u32_sub_l a b : u32 (u32 a - b) = u32 (a - b).
Proof. apply Zminus_mod_idemp_l. Qed.

(** Two counters less than a full turn apart are distinct. *)
Lemma mod_ne m a b : 0 < b - a < m -> a mod m <> b mod m.
Proof.
  intros Hd He. assert (Hz : (b - a) mod m = 0).
  { rewrite Zminus_mod, He, Z.sub_diag. apply Z.mod_0_l. lia. }
  rewrite Z.mod_small in Hz by lia. lia.
Qed.

Lemma u64_ne a b : 0 < b - a < 2 ^ 64 -> u64 a <> u64 b.
Proof. apply mod_ne. Qed.

(** The slot of a 64-bit counter in a power-of-two array. *)
Lemma u64_mod_pow2 x k : 0 <= k <= 64 -> u64 x mod 2 ^ k = x mod 2 ^ k.
Proof.
  intros Hk. unfold u64. replace (2 ^ 64) with (2 ^ k * 2 ^ (64 - k)) by (rewrite <- Z.pow_add_r; f_equal; lia).
  rewrite Z.rem_mul_r by (apply Z.pow_nonzero || apply Z.pow_pos_nonneg; lia).
  rewrite Z.mul_comm, Z.mod_add by (apply Z.pow_nonzero; lia).
  apply Z.mod_mod, Z.pow_nonzero; lia.
Qed.

Lemma list_filter_iff' {A} (P P' : A -> Prop) `{!forall x, Decision (P x), !forall x, Decision (P' x)} (l : list A) :
  (forall x, x ∈ l -> P x <-> P' x) -> filter P l = filter P' l.
Proof.
  induction l as [|x l IH]; intros Hiff; [done|]. rewrite !filter_cons.
  rewrite IH by (intros; apply Hiff; by constructor).
  destruct (decide (P x)) as [Hp|Hp].
  - rewrite decide_True; [done|]. apply Hiff; [by constructor|done].
  - rewrite decide_False; [done|]. intros Hp'. apply Hp, Hiff; [by constructor|done].
Qed.

(** Counting: one more element satisfies the predicate. *)
Lemma length_filter_add {A} (P P' : A -> Prop) `{!forall x, Decision (P x), !forall x, Decision (P' x)} (l : list A) a :
  NoDup l -> a ∈ l -> ~ P a -> (forall x, P' x <-> P x \/ x = a) ->
  length (filter P' l) = S (length (filter P l)).
Proof.
  intros Hnd Hin Ha Hiff. induction Hnd as [|x l Hx Hnd IH]; [by apply not_elem_of_nil in Hin|].
  rewrite !filter_cons. apply elem_of_cons in Hin as [->|Hin].
  - rewrite decide_True by (apply Hiff; by right). rewrite decide_False by done. simpl. f_equal.
    f_equal. apply list_filter_iff'. intros y Hy. rewrite Hiff. split; [|by left].
    intros [?| ->]; [done|by destruct Hx].
  - assert (Hxa : x <> a) by (intros ->; done).
    destruct (decide (P x)) as [Hp|Hp].
    + rewrite decide_True by (apply Hiff; by left). simpl. f_equal. by apply IH.
    + rewrite decide_False by (rewrite Hiff; naive_solver). by apply IH.
Qed.

(** Replacing one summand of a sum over a list. *)
Lemma sum_insert {A} (f : A -> nat) (l : list A) k x y :
  l !! k = Some y -> (f y + sum_list_with f (<[k := x]> l) = f x + sum_list_with f l)%nat.
Proof.
  intros Hk. rewrite insert_take_drop by eauto using lookup_lt_Some.
  rewrite <- (take_drop_middle l k y Hk) at 3. rewrite !sum_list_with_app. simpl. lia.
Qed.

Lemma sum_fmap {A B} (f : B -> nat) (g : A -> B) (l : list A) : sum_list_with f (g <$> l) = sum_list_with (fun x => f (g x)) l.
Proof. induction l as [|x l IH]; [done|]. csimpl. by rewrite IH. Qed.

(** A predicate on all cells of an array survives a write of a good value. *)
Lemma Forall_write {A} (P : A -> Prop) (l : list A) k x : Forall P l -> P x -> Forall P (<[k := x]> l).
Proof. intros Hl Hx. by apply Forall_insert. Qed.

Lemma alter_as_insert {K} `{Countable K} {A} (f : A -> A) (m : gmap K A) k x :
  m !! k = Some x -> alter f k m = <[k := f x]> m.
Proof.
  intros Hk. apply map_eq. intros j. destruct (decide (k = j)) as [<- |Hne].
  - by rewrite lookup_alter_eq, lookup_insert_eq, Hk.
  - by rewrite lookup_alter_ne, lookup_insert_ne.
Qed.

(** ** Multisets of identifiers *)

Definition occ (x : nat) (l : list nat) : nat := count_occ Nat.eq_dec l x.

Lemma occ_perm l l' : l ≡ₚ l' <-> forall x, occ x l = occ x l'.
Proof. apply (Permutation_count_occ Nat.eq_dec). Qed.

Lemma occ_app x l l' : occ x (l ++ l') = (occ x l + occ x l')%nat.
Proof. apply count_occ_app. Qed.

Lemma occ_nil x : occ x [] = 0%nat.
Proof. done. Qed.

(** Permutations of concatenations, by counting. *)
Ltac pcount :=
  apply occ_perm; let x := fresh "x" in intros x;
  repeat match goal with H : _ ≡ₚ _ |- _ => pose proof (proj1 (occ_perm _ _) H x); clear H end;
  repeat match goal with H : ?l = ?r :> list nat |- _ => pose proof (f_equal (occ x) H); clear H end;
  rewrite ?occ_app, ?occ_nil in *;
  repeat match goal with
  | |- context [occ x (?t :: ?l)] =>
      lazymatch l with [] => fail | _ => change (t :: l) with ([t] ++ l); rewrite ?occ_app, ?occ_nil end
  | H : context [occ x (?t :: ?l)] |- _ =>
      lazymatch l with [] => fail | _ => change (t :: l) with ([t] ++ l) in H; rewrite ?occ_app, ?occ_nil in H end
  end; lia.

(** Replacing one list in a list of lists. *)
Lemma concat_insert {A} (L : list (list A)) b l l' :
  L !! b = Some l -> l ++ concat (<[b := l']> L) ≡ₚ l' ++ concat L.
Proof.
  intros Hb. rewrite insert_take_drop by eauto using lookup_lt_Some.
  rewrite <- (take_drop_middle L b l Hb) at 3. rewrite !concat_app. cbn [concat].
  generalize (concat (take b L)) as T, (concat (drop (S b) L)) as D. intros T D.
  rewrite (Permutation_app_swap_app l T), (Permutation_app_swap_app l' T). apply Permutation_app_head, Permutation_app_swap_app.
Qed.
