(* ===== verification/Timer.v ===== *)
(** * The coroutine timer heap (src/timer.c).

    An array-backed binary min-heap on [deadline_ns], embedded in the pool as
    [timer_heap]/[timer_len]/[timer_cap].  The array is modelled with its
    allocated length: the cells at and beyond [timer_len] hold whatever was
    left there, exactly as in the C array. *)
From S2P Require Import Prelude.

(** [loom_timer_entry_t]; addresses are numbers, 0 is NULL. *)
Record loom_timer_entry_t := mk_timer_entry {
  deadline_ns : Z;   (* CLOCK_MONOTONIC absolute deadline *)
  te_task_id : Z;
  te_worker_idx : Z;
  te_coro_ctx : Z;
  te_task : Z;
}.

#[export] Instance loom_timer_entry_eq_dec : EqDecision loom_timer_entry_t.
Proof. solve_decision. Defined.

#[export] Instance loom_timer_entry_inhabited : Inhabited loom_timer_entry_t :=
  populate (mk_timer_entry 0 0 0 0 0).

(** The three fields of [struct loom_thread_pool] the heap owns. *)
Record timer_state := mk_timer {
  timer_heap : list loom_timer_entry_t;   (* length = [timer_cap] *)
  timer_len : nat;
  timer_cap : nat;
}.

Definition timer_init : timer_state := mk_timer [] 0 0.

(** [h[i].deadline_ns]. *)
Definition dl (h : list loom_timer_entry_t) (i : nat) : Z := deadline_ns (h !!! i).

(** [(i - 1) / 2]. *)
Definition parent (i : nat) : nat := ((i - 1) / 2)%nat.

(** ** Operations *)

(** The loop of [sift_up]; [i] strictly decreases, so [i] rounds suffice. *)
Fixpoint sift_up_loop (fuel : nat) (h : list loom_timer_entry_t) (i : nat)
  : list loom_timer_entry_t :=
  match fuel with
  | O => h
  | S f =>
      if (0 <? i)%nat then
        if dl h (parent i) <=? dl h i then h
        else sift_up_loop f (swap h (parent i) i) (parent i)
      else h
  end.

Definition sift_up (h : list loom_timer_entry_t) (i : nat) : list loom_timer_entry_t :=
  sift_up_loop i h i.

(** The index [m] the body of [sift_down] selects. *)
Definition smallest (h : list loom_timer_entry_t) (n i : nat) : nat :=
  let l := (2 * i + 1)%nat in
  let r := (2 * i + 2)%nat in
  let m := if (l <? n)%nat && (dl h l <? dl h i) then l else i in
  if (r <? n)%nat && (dl h r <? dl h m) then r else m.

(** The loop of [sift_down]; [n - i] strictly decreases while it swaps. *)
Fixpoint sift_down_loop (fuel : nat) (h : list loom_timer_entry_t) (n i : nat)
  : list loom_timer_entry_t :=
  match fuel with
  | O => h
  | S f =>
      let m := smallest h n i in
      if (m =? i)%nat then h
      else sift_down_loop f (swap h i m) n m
  end.

Definition sift_down (h : list loom_timer_entry_t) (n i : nat) : list loom_timer_entry_t :=
  sift_down_loop (S n) h n i.

(** The growth step of [loom_timer_push]: [realloc_ok] is the outcome of its
    [realloc] (consulted only when the heap is full).  The cells [realloc] adds
    hold unspecified values; the model fills them with zeroes. *)
Definition timer_grow (realloc_ok : bool) (t : timer_state)
  : option (list loom_timer_entry_t * nat) :=
  if (timer_len t =? timer_cap t)%nat then
    let new_cap := if (timer_cap t =? 0)%nat then 64%nat else (timer_cap t * 2)%nat in
    if realloc_ok then
      Some (timer_heap t ++ replicate (new_cap - timer_cap t) inhabitant, new_cap)
    else None
  else Some (timer_heap t, timer_cap t).

Definition loom_timer_push (realloc_ok : bool) (t : timer_state) (e : loom_timer_entry_t)
  : bool * timer_state :=
  match timer_grow realloc_ok t with
  | None => (false, t)
  | Some (h, cap) =>
      let h := <[timer_len t := e]> h in
      (true, mk_timer (sift_up h (timer_len t)) (S (timer_len t)) cap)
  end.

Definition loom_timer_peek (t : timer_state) : option Z :=
  if (timer_len t =? 0)%nat then None else Some (deadline_ns (timer_heap t !!! 0%nat)).

Definition loom_timer_pop_due (t : timer_state) : option (loom_timer_entry_t * timer_state) :=
  if (timer_len t =? 0)%nat then None
  else
    let out := timer_heap t !!! 0%nat in
    let h := <[0%nat := timer_heap t !!! (timer_len t - 1)%nat]> (timer_heap t) in
    let n := (timer_len t - 1)%nat in
    let h := if (0 <? n)%nat then sift_down h n 0 else h in
    Some (out, mk_timer h n (timer_cap t)).

(** The scan of [loom_timer_remove_by_task]: first index below [n] whose entry
    carries [task_id], from [i] on. *)
Fixpoint find_task (fuel : nat) (h : list loom_timer_entry_t) (n : nat) (task_id : Z) (i : nat)
  : option nat :=
  match fuel with
  | O => None
  | S f =>
      if (i <? n)%nat then
        if te_task_id (h !!! i) =? task_id then Some i else find_task f h n task_id (S i)
      else None
  end.

Definition loom_timer_remove_by_task (t : timer_state) (task_id : Z)
  : option (loom_timer_entry_t * timer_state) :=
  match find_task (timer_len t) (timer_heap t) (timer_len t) task_id 0 with
  | None => None
  | Some i =>
      let e := timer_heap t !!! i in
      let h := <[i := timer_heap t !!! (timer_len t - 1)%nat]> (timer_heap t) in
      let n := (timer_len t - 1)%nat in
      let h := if (0 <? n)%nat then sift_up (sift_down h n i) i else h in
      Some (e, mk_timer h n (timer_cap t))
  end.

(** ** Invariant and abstraction *)

(** Every parent among the first [n] cells is due no later than its children. *)
Definition heap_ok (h : list loom_timer_entry_t) (n : nat) : Prop :=
  forall i, (0 < i < n)%nat -> dl h (parent i) <= dl h i.

Record timer_wf (t : timer_state) : Prop := {
  twf_cap : length (timer_heap t) = timer_cap t;
  twf_len : (timer_len t <= timer_cap t)%nat;
  twf_heap : heap_ok (timer_heap t) (timer_len t);
}.

(** The multiset of sleeping coroutines the heap stands for. *)
Definition timer_contents (t : timer_state) : list loom_timer_entry_t :=
  take (timer_len t) (timer_heap t).

(** ** Index arithmetic *)

Lemma parent_lt i : (0 < i)%nat -> (parent i < i)%nat.
Proof. intros. unfold parent. apply Nat.Div0.div_lt_upper_bound. lia. Qed.

Lemma parent_spec i : (0 < i)%nat -> (i = 2 * parent i + 1 \/ i = 2 * parent i + 2)%nat.
Proof.
  intros. unfold parent.
  pose proof (Nat.div_mod_eq (i - 1) 2). pose proof (Nat.mod_upper_bound (i - 1) 2). lia.
Qed.

Lemma parent_child i j :
  (0 < j)%nat -> parent j = i <-> (j = 2 * i + 1 \/ j = 2 * i + 2)%nat.
Proof. intros Hj. pose proof (parent_spec j Hj). lia. Qed.

Lemma smallest_spec h n i :
  let m := smallest h n i in
  dl h m <= dl h i /\
  (forall j, (0 < j < n)%nat -> parent j = i -> dl h m <= dl h j) /\
  (m = i \/ (m < n)%nat /\ (0 < m)%nat /\ parent m = i /\ dl h m < dl h i).
Proof.
  cbv zeta. unfold smallest.
  set (l := (2 * i + 1)%nat). set (r := (2 * i + 2)%nat).
  assert (Hch : forall j, (0 < j < n)%nat -> parent j = i -> j = l \/ j = r).
  { intros j Hj Hp. apply parent_child in Hp; lia. }
  assert (Hl : parent l = i) by (apply parent_child; lia).
  assert (Hr : parent r = i) by (apply parent_child; lia).
  destruct (Nat.ltb_spec l n); destruct (Z.ltb_spec (dl h l) (dl h i)); cbn [andb];
  match goal with |- context [dl h r <? ?x] => destruct (Z.ltb_spec (dl h r) x) end;
  destruct (Nat.ltb_spec r n); cbn [andb];
  (split; [lia|split; [|lia]]);
  intros j Hj Hp; destruct (Hch j Hj Hp) as [->| ->]; lia.
Qed.

(** ** Restoring the invariant *)

(** The state [sift_up] repairs: only the edge from [i] to its parent may be
    broken, and [i]'s children already dominate [i]'s parent. *)
Definition up_gap (h : list loom_timer_entry_t) (n i : nat) : Prop :=
  (forall j, (0 < j < n)%nat -> j <> i -> dl h (parent j) <= dl h j) /\
  (forall j, (0 < j < n)%nat -> parent j = i -> (0 < i)%nat -> dl h (parent i) <= dl h j).

(** The state [sift_down] repairs: only the edges from [i] to its children may
    be broken. *)
Definition down_gap (h : list loom_timer_entry_t) (n i : nat) : Prop :=
  (forall j, (0 < j < n)%nat -> parent j <> i -> dl h (parent j) <= dl h j) /\
  (forall j, (0 < j < n)%nat -> parent j = i -> (0 < i)%nat -> dl h (parent i) <= dl h j).

(** What both repairs keep: the array length, the live entries as a multiset,
    and the dead tail. *)
Definition same_entries (n : nat) (h h' : list loom_timer_entry_t) : Prop :=
  length h' = length h /\ take n h' ≡ₚ take n h /\ drop n h' = drop n h.

Lemma same_entries_refl n h : same_entries n h h.
Proof. done. Qed.

Lemma same_entries_trans n h1 h2 h3 :
  same_entries n h1 h2 -> same_entries n h2 h3 -> same_entries n h1 h3.
Proof.
  intros (?&P1&?) (?&P2&?). split_and!; [congruence| |congruence]. by rewrite P2.
Qed.

Lemma same_entries_swap n h i j :
  (i < n)%nat -> (j < n)%nat -> (n <= length h)%nat -> same_entries n h (swap h i j).
Proof.
  intros Hi Hj Hn. split_and!.
  - apply length_swap.
  - rewrite swap_take by done. apply swap_perm; rewrite length_take; lia.
  - by apply swap_drop.
Qed.

#[export] Hint Resolve same_entries_refl same_entries_swap : loom.

Lemma dl_swap h i j k :
  (i < length h)%nat -> (j < length h)%nat ->
  dl (swap h i j) k = if decide (k = j) then dl h i else if decide (k = i) then dl h j else dl h k.
Proof. intros. unfold dl. rewrite swap_read by done. repeat case_decide; done. Qed.

Lemma up_gap_swap h n i :
  (n <= length h)%nat -> (0 < i < n)%nat -> dl h i < dl h (parent i) ->
  up_gap h n i -> up_gap (swap h (parent i) i) n (parent i).
Proof.
  intros Hn Hi Hlt [H1 H2]. pose proof (parent_lt i ltac:(lia)) as Hp.
  split.
  - intros j Hj Hne. pose proof (parent_lt j ltac:(lia)).
    rewrite !dl_swap by lia. repeat case_decide; subst; try lia.
    + apply H2; lia.
    + specialize (H1 j Hj ltac:(done)).
      replace (parent j) with (parent i) in H1 by congruence. lia.
    + by apply H1.
  - intros j Hj Hpj Hpp. pose proof (parent_lt (parent i) Hpp).
    rewrite !dl_swap by lia. repeat case_decide; subst; try lia.
    + apply H1; lia.
    + pose proof (H1 j Hj ltac:(done)) as Hx. rewrite Hpj in Hx.
      pose proof (H1 (parent i) ltac:(lia) ltac:(lia)). lia.
Qed.

Lemma sift_up_loop_spec fuel h n i :
  (i <= fuel)%nat -> (i < n)%nat -> (n <= length h)%nat -> up_gap h n i ->
  heap_ok (sift_up_loop fuel h i) n /\ same_entries n h (sift_up_loop fuel h i).
Proof.
  revert h i. induction fuel as [|f IH]; intros h i Hf Hi Hn Hgap; cbn [sift_up_loop].
  { split; [|done]. intros j Hj. apply Hgap; lia. }
  destruct (Nat.ltb_spec 0 i) as [Hpos|Hpos].
  2:{ split; [|done]. intros j Hj. apply Hgap; lia. }
  pose proof (parent_lt i Hpos).
  destruct (Z.leb_spec (dl h (parent i)) (dl h i)) as [Hle|Hgt].
  - split; [|done]. intros j Hj. destruct (decide (j = i)) as [->|]; [done|]. by apply Hgap.
  - destruct (IH (swap h (parent i) i) (parent i)) as [Hok Hse];
      [lia|lia|by rewrite length_swap|apply up_gap_swap; auto; lia|].
    split; [done|]. eapply same_entries_trans; [|exact Hse]. apply same_entries_swap; lia.
Qed.

Lemma sift_up_spec h n i :
  (i < n)%nat -> (n <= length h)%nat -> up_gap h n i ->
  heap_ok (sift_up h i) n /\ same_entries n h (sift_up h i).
Proof. intros. by apply sift_up_loop_spec. Qed.

(** On an array where the edge above [i] already holds, [sift_up] does nothing. *)
Lemma sift_up_id h i :
  (0 < i)%nat -> dl h (parent i) <= dl h i -> sift_up h i = h.
Proof.
  intros Hi Hle. unfold sift_up. destruct i as [|i]; [done|].
  cbn [sift_up_loop]. destruct (Nat.ltb_spec 0 (S i)); [|done].
  by destruct (Z.leb_spec (dl h (parent (S i))) (dl h (S i))); [|lia].
Qed.

Lemma sift_up_0 h : sift_up h 0 = h.
Proof. done. Qed.

Lemma down_gap_swap h n i m :
  (n <= length h)%nat -> (i < m < n)%nat -> parent m = i -> dl h m < dl h i ->
  (forall j, (0 < j < n)%nat -> parent j = i -> dl h m <= dl h j) ->
  down_gap h n i -> down_gap (swap h i m) n m.
Proof.
  intros Hn Hm Hpm Hlt Hmin [H1 H2].
  split.
  - intros j Hj Hne. pose proof (parent_lt j ltac:(lia)).
    rewrite !dl_swap by lia. repeat case_decide; subst; try lia.
    + by apply Hmin.
    + apply H2; lia.
    + by apply H1.
  - intros j Hj Hpj Hpos. rewrite !dl_swap by lia.
    pose proof (parent_lt j ltac:(lia)).
    repeat case_decide; subst; try lia. apply (H1 j); lia.
Qed.

Lemma sift_down_loop_spec fuel h n i :
  (n <= i + fuel)%nat -> (n <= length h)%nat -> (i < n)%nat ->
  down_gap h n i -> (0 < fuel)%nat ->
  let h' := sift_down_loop fuel h n i in
  (forall j, (0 < j < n)%nat -> j <> i -> dl h' (parent j) <= dl h' j) /\
  same_entries n h h' /\
  ((0 < i)%nat -> dl h (parent i) <= dl h i -> dl h' (parent i) <= dl h' i) /\
  (forall k, (k < i)%nat -> dl h' k = dl h k).
Proof.
  cbv zeta. revert h i. induction fuel as [|f IH]; intros h i Hf Hn Hi Hgap Hpos; [lia|].
  cbn [sift_down_loop].
  pose proof (smallest_spec h n i) as (Hm1&Hm2&Hm3). cbv zeta in Hm1, Hm2, Hm3.
  destruct (Nat.eqb_spec (smallest h n i) i) as [E|E].
  - rewrite E in *. split_and!; [|done..]. intros j Hj Hne.
    destruct (decide (parent j = i)) as [<-|Hpj]; [by apply Hm2|by apply Hgap].
  - destruct Hm3 as [?|(Hmn&Hm0&Hpm&Hlt)]; [done|].
    set (m := smallest h n i) in *. clearbody m.
    pose proof (parent_lt m Hm0) as Hpl. rewrite Hpm in Hpl.
    destruct (IH (swap h i m) m) as (A&B&C&D);
      [lia|by rewrite length_swap|lia|apply down_gap_swap; auto; lia|lia|].
    split_and!.
    + intros j Hj Hne. destruct (decide (j = m)) as [->|]; [|by apply A].
      apply C; [lia|]. rewrite Hpm, !dl_swap by lia.
      repeat case_decide; lia.
    + eapply same_entries_trans; [|exact B]. apply same_entries_swap; lia.
    + intros Hi0 Hle. pose proof (parent_lt i Hi0).
      rewrite !D, !dl_swap by lia. repeat case_decide; subst; try lia.
      apply Hgap; [lia|done|done].
    + intros k Hk. rewrite D, dl_swap by lia. repeat case_decide; lia.
Qed.

Lemma sift_down_spec h n i :
  (n <= length h)%nat -> (i < n)%nat -> down_gap h n i ->
  let h' := sift_down h n i in
  (forall j, (0 < j < n)%nat -> j <> i -> dl h' (parent j) <= dl h' j) /\
  same_entries n h h' /\
  ((0 < i)%nat -> dl h (parent i) <= dl h i -> dl h' (parent i) <= dl h' i) /\
  (forall k, (k < i)%nat -> dl h' k = dl h k).
Proof. intros. apply sift_down_loop_spec; auto; lia. Qed.

(** When no child of [i] is smaller, [sift_down] does nothing. *)
Lemma sift_down_id h n i :
  (forall j, (0 < j < n)%nat -> parent j = i -> dl h i <= dl h j) ->
  sift_down h n i = h.
Proof.
  intros Hc. unfold sift_down. cbn [sift_down_loop].
  destruct (Nat.eqb_spec (smallest h n i) i) as [|E]; [done|].
  destruct (smallest_spec h n i) as (_&_&[?|(?&?&Hp&?)]); [done|].
  specialize (Hc _ ltac:(eauto) Hp). lia.
Qed.

(** ** The operations on the invariant *)

Lemma heap_ok_root h n :
  heap_ok h n -> forall i, (i < n)%nat -> dl h 0 <= dl h i.
Proof.
  intros Hok i. induction i as [i IH] using lt_wf_ind. intros Hi.
  destruct (decide (i = 0)%nat) as [->|]; [done|].
  pose proof (parent_lt i ltac:(lia)). specialize (IH (parent i) ltac:(lia) ltac:(lia)).
  specialize (Hok i ltac:(lia)). lia.
Qed.

Lemma dl_insert h i x k :
  (i < length h)%nat -> dl (<[i:=x]> h) k = if decide (k = i) then deadline_ns x else dl h k.
Proof.
  intros. unfold dl. case_decide; subst.
  - by rewrite array_read_insert_eq.
  - by rewrite array_read_insert_ne.
Qed.

Lemma elem_contents t x :
  timer_wf t -> x ∈ timer_contents t <->
    exists i, (i < timer_len t)%nat /\ timer_heap t !!! i = x.
Proof.
  intros [Hc Hl _]. unfold timer_contents. split.
  - intros (i&Hi)%list_elem_of_lookup. apply lookup_take_Some in Hi as [Hi ?].
    exists i. split; [done|]. by apply list_lookup_total_correct.
  - intros (i&Hi&Hx). apply list_elem_of_lookup. exists i.
    rewrite lookup_take_lt by done.
    rewrite <- Hx. apply list_lookup_lookup_total_lt. lia.
Qed.

Lemma length_contents t : timer_wf t -> length (timer_contents t) = timer_len t.
Proof. intros [Hc Hl _]. unfold timer_contents. rewrite length_take. lia. Qed.

Lemma timer_init_wf : timer_wf timer_init.
Proof. split; [done|done|]. intros i. simpl. lia. Qed.

Lemma timer_grow_spec ok t :
  timer_wf t ->
  match timer_grow ok t with
  | Some (h, cap) =>
      length h = cap /\ (timer_len t < cap)%nat /\ take (timer_len t) h = timer_contents t /\
      heap_ok h (timer_len t)
  | None => ok = false /\ timer_len t = timer_cap t
  end.
Proof.
  intros [Hc Hl Hok]. unfold timer_contents, timer_grow.
  destruct (Nat.eqb_spec (timer_len t) (timer_cap t)) as [E|E]; [destruct ok; [|done]|].
  - destruct (Nat.eqb_spec (timer_cap t) 0); rewrite length_app, length_replicate;
      (split_and!; [lia|lia|by rewrite take_app_le by lia|]);
      intros i Hi; unfold dl; pose proof (parent_lt i ltac:(lia));
      rewrite !list_lookup_total_alt, !lookup_app_l by lia;
      rewrite <- !list_lookup_total_alt; by apply Hok.
  - split_and!; [done|lia|done|done].
Qed.

Lemma push_written h n e :
  heap_ok h n -> (n < length h)%nat -> up_gap (<[n:=e]> h) (S n) n.
Proof.
  intros Hok Hn. split.
  - intros j Hj Hne. pose proof (parent_lt j ltac:(lia)).
    rewrite !dl_insert by lia. repeat case_decide; try lia. apply Hok. lia.
  - intros j Hj Hp _. pose proof (parent_lt j ltac:(lia)). lia.
Qed.

Lemma push_ok ok t e :
  timer_wf t ->
  let '(inserted, t') := loom_timer_push ok t e in
  timer_wf t' /\
  (inserted = true -> timer_contents t' ≡ₚ e :: timer_contents t) /\
  (inserted = false -> t' = t /\ ok = false /\ timer_len t = timer_cap t).
Proof.
  intros Hwf. pose proof (timer_grow_spec ok t Hwf) as Hg. unfold loom_timer_push.
  destruct (timer_grow ok t) as [[h cap]|].
  2:{ destruct Hg. split_and!; [done|done|]. by intros. }
  destruct Hg as (Hlen&Hcap&Htake&Hok).
  destruct (sift_up_spec (<[timer_len t:=e]> h) (S (timer_len t)) (timer_len t))
    as [Hh (Hl'&Hp&_)];
    [lia|rewrite length_insert; lia|apply push_written; auto; lia|].
  split_and!; [split; simpl; [by rewrite Hl', length_insert|lia|done]| |done].
  intros _. unfold timer_contents at 1; simpl. rewrite Hp.
  rewrite (take_S_r _ _ e) by (apply list_lookup_insert_eq; lia).
  rewrite take_insert_ge, Htake by lia. exact (Permutation_app_comm _ [e]).
Qed.

Lemma pop_written h n x :
  (n < length h)%nat -> heap_ok h (S n) -> down_gap (<[0%nat:=x]> h) n 0.
Proof.
  intros Hn Hok. split.
  - intros j Hj Hp. pose proof (parent_lt j ltac:(lia)).
    rewrite !dl_insert by lia. repeat case_decide; try lia. apply Hok. lia.
  - lia.
Qed.

Lemma pop_ok t :
  timer_wf t ->
  match loom_timer_pop_due t with
  | None => timer_contents t = []
  | Some (e, t') =>
      timer_wf t' /\ e :: timer_contents t' ≡ₚ timer_contents t /\
      (forall x, x ∈ timer_contents t -> deadline_ns e <= deadline_ns x)
  end.
Proof.
  intros Hwf. unfold loom_timer_pop_due. pose proof Hwf as [Hc Hl Hok].
  destruct (Nat.eqb_spec (timer_len t) 0) as [E|E].
  { unfold timer_contents. by rewrite E. }
  assert (HS : timer_len t = S (timer_len t - 1)) by lia.
  assert (Hrm : (timer_heap t !!! 0%nat) :: take (timer_len t - 1)
            (<[0%nat:=timer_heap t !!! (timer_len t - 1)%nat]> (timer_heap t))
          ≡ₚ timer_contents t).
  { unfold timer_contents. rewrite HS at 3. apply perm_remove_cell; lia. }
  assert (Hmin : forall x, x ∈ timer_contents t ->
            deadline_ns (timer_heap t !!! 0%nat) <= deadline_ns x).
  { intros x (i&Hi&<-)%elem_contents; [|done]. by apply (heap_ok_root _ (timer_len t)). }
  destruct (Nat.ltb_spec 0 (timer_len t - 1)) as [Hn|Hn].
  - destruct (sift_down_spec (<[0%nat:=timer_heap t !!! (timer_len t - 1)%nat]> (timer_heap t))
                (timer_len t - 1) 0) as (A&(B1&B2&_)&_);
      [rewrite length_insert; lia|lia|apply pop_written; [lia|by rewrite <- HS]|].
    split_and!; [split; simpl|unfold timer_contents at 1; simpl; by rewrite B2|done].
    + by rewrite B1, length_insert.
    + lia.
    + intros j Hj. apply A; lia.
  - split_and!; [split; simpl|done|done].
    + by rewrite length_insert.
    + lia.
    + intros j Hj. lia.
Qed.

Lemma find_task_spec fuel h n id i :
  (n <= i + fuel)%nat ->
  match find_task fuel h n id i with
  | Some k => (i <= k < n)%nat /\ te_task_id (h !!! k) = id /\
              (forall j, (i <= j < k)%nat -> te_task_id (h !!! j) <> id)
  | None => forall j, (i <= j < n)%nat -> te_task_id (h !!! j) <> id
  end.
Proof.
  revert i. induction fuel as [|f IH]; intros i Hf; cbn [find_task]; [intros j; lia|].
  destruct (Nat.ltb_spec i n) as [Hi|Hi]; [|intros j; lia].
  destruct (Z.eqb_spec (te_task_id (h !!! i)) id) as [E|E].
  { split_and!; [lia|lia|done|lia]. }
  specialize (IH (S i) ltac:(lia)). destruct (find_task f h n id (S i)) as [k|].
  - destruct IH as (?&?&Hno). split_and!; [lia|lia|done|].
    intros j Hj. destruct (decide (j = i)) as [->|]; [done|]. apply Hno. lia.
  - intros j Hj. destruct (decide (j = i)) as [->|]; [done|]. apply IH. lia.
Qed.

(** Overwriting cell [i] of a heap leaves either only the edge above [i] or only
    the edges below it broken; [sift_down] then [sift_up] repairs both. *)
Lemma replace_repair h n i x :
  (i < n)%nat -> (n <= length h)%nat -> heap_ok h n ->
  let h' := sift_up (sift_down (<[i:=x]> h) n i) i in
  heap_ok h' n /\ same_entries n (<[i:=x]> h) h'.
Proof.
  cbv zeta. intros Hi Hn Hok.
  assert (Hch : forall j, (0 < j < n)%nat -> parent j = i -> (0 < i)%nat ->
            dl h (parent i) <= dl h j).
  { intros j Hj Hp Hi0. pose proof (Hok j Hj) as H1. rewrite Hp in H1.
    pose proof (Hok i ltac:(lia)). lia. }
  destruct (decide ((0 < i)%nat /\ deadline_ns x < dl h (parent i))) as [[Hi0 Hlt]|Hge].
  - pose proof (parent_lt i Hi0).
    assert (Hid : sift_down (<[i:=x]> h) n i = <[i:=x]> h).
    { apply sift_down_id. intros j Hj Hp. pose proof (parent_lt j ltac:(lia)).
      rewrite !dl_insert by lia. repeat case_decide; try lia.
      specialize (Hch j Hj Hp Hi0). lia. }
    rewrite Hid. apply sift_up_spec; [done|by rewrite length_insert|]. split.
    + intros j Hj Hne. pose proof (parent_lt j ltac:(lia)).
      rewrite !dl_insert by lia. repeat case_decide; try done; [|by apply Hok].
      specialize (Hch j Hj ltac:(done) Hi0). lia.
    + intros j Hj Hp _. pose proof (parent_lt j ltac:(lia)).
      rewrite !dl_insert by lia. repeat case_decide; try lia. by apply Hch.
  - destruct (sift_down_spec (<[i:=x]> h) n i) as (A&B&C&D);
      [by rewrite length_insert|done| |].
    { split.
      - intros j Hj Hp. pose proof (parent_lt j ltac:(lia)).
        rewrite !dl_insert by lia. repeat case_decide; subst; try lia. by apply Hok.
      - intros j Hj Hp Hi0. pose proof (parent_lt j ltac:(lia)). pose proof (parent_lt i Hi0).
        rewrite !dl_insert by lia. repeat case_decide; try lia. by apply Hch. }
    assert (E : sift_up (sift_down (<[i:=x]> h) n i) i = sift_down (<[i:=x]> h) n i).
    { destruct (decide (i = 0)%nat) as [->|]; [apply sift_up_0|].
      apply sift_up_id; [lia|]. apply C; [lia|]. pose proof (parent_lt i ltac:(lia)).
      rewrite !dl_insert by lia. repeat case_decide; lia. }
    rewrite E. split; [|done]. intros j Hj.
    destruct (decide (j = i)) as [->|]; [|by apply A].
    apply C; [lia|]. pose proof (parent_lt i ltac:(lia)).
    rewrite !dl_insert by lia. repeat case_decide; lia.
Qed.

Lemma remove_ok t id :
  timer_wf t ->
  match loom_timer_remove_by_task t id with
  | None => forall x, x ∈ timer_contents t -> te_task_id x <> id
  | Some (e, t') =>
      timer_wf t' /\ te_task_id e = id /\ e :: timer_contents t' ≡ₚ timer_contents t
  end.
Proof.
  intros Hwf. unfold loom_timer_remove_by_task. pose proof Hwf as [Hc Hl Hok].
  pose proof (find_task_spec (timer_len t) (timer_heap t) (timer_len t) id 0 ltac:(lia)) as Hf.
  destruct (find_task _ _ _ _ _) as [i|].
  2:{ intros x (i&Hi&<-)%elem_contents; [|done]. apply Hf. lia. }
  destruct Hf as (Hi&Hid&_).
  assert (HS : timer_len t = S (timer_len t - 1)) by lia.
  assert (Hrm : (timer_heap t !!! i) :: take (timer_len t - 1)
            (<[i:=timer_heap t !!! (timer_len t - 1)%nat]> (timer_heap t))
          ≡ₚ timer_contents t).
  { unfold timer_contents. rewrite HS at 3. apply perm_remove_cell; lia. }
  assert (Hok' : heap_ok (timer_heap t) (timer_len t - 1)) by (intros j Hj; apply Hok; lia).
  destruct (Nat.ltb_spec 0 (timer_len t - 1)) as [Hn|Hn].
  2:{ split_and!; [|done|done]. split; simpl; [by rewrite length_insert|lia|intros j; lia]. }
  destruct (decide (i = timer_len t - 1)%nat) as [Ei|Hne].
  - (* the removed entry was the last one: the repair leaves the array alone *)
    assert (E : <[i:=timer_heap t !!! (timer_len t - 1)%nat]> (timer_heap t) = timer_heap t).
    { rewrite <- Ei. apply list_insert_id, list_lookup_lookup_total_lt. lia. }
    rewrite E in *.
    rewrite (sift_down_id _ _ i), sift_up_id.
    + split_and!; [|done|done]. split; simpl; [done|lia|done].
    + lia.
    + apply Hok. lia.
    + intros j Hj Hp. pose proof (parent_lt j ltac:(lia)). lia.
  - destruct (replace_repair (timer_heap t) (timer_len t - 1) i
                (timer_heap t !!! (timer_len t - 1)%nat)) as [Hh (H1&H2&_)];
      [lia|lia|done|].
    split_and!; [|done|unfold timer_contents at 1; simpl; by rewrite H2].
    split; simpl; [by rewrite H1, length_insert|lia|done].
Qed.

(** ** Properties *)

(** One operation of the heap's users: the sleep hook and the re-arm path push,
    the timer thread pops, the cancel and resize paths remove by task id. *)
Inductive timer_op :=
  | TPush (realloc_ok : bool) (e : loom_timer_entry_t)
  | TPop
  | TRemove (task_id : Z).

Definition timer_step (t : timer_state) (op : timer_op) : timer_state :=
  match op with
  | TPush ok e => (loom_timer_push ok t e).2
  | TPop => match loom_timer_pop_due t with Some (_, t') => t' | None => t end
  | TRemove id => match loom_timer_remove_by_task t id with Some (_, t') => t' | None => t end
  end.

Lemma timer_step_wf t op : timer_wf t -> timer_wf (timer_step t op).
Proof.
  intros Hwf. destruct op as [ok e| |id]; simpl.
  - pose proof (push_ok ok t e Hwf). by destruct (loom_timer_push ok t e) as [? ?]; destruct_and?.
  - pose proof (pop_ok t Hwf). destruct (loom_timer_pop_due t) as [[? ?]|]; by destruct_and?.
  - pose proof (remove_ok t id Hwf).
    destruct (loom_timer_remove_by_task t id) as [[? ?]|]; by destruct_and?.
Qed.

#[export] Hint Resolve timer_step_wf timer_init_wf : loom.

Lemma timer_run_wf ops t : timer_wf t -> timer_wf (foldl timer_step t ops).
Proof. revert t. induction ops; simpl; auto with loom. Qed.

(** C11. From the empty heap, after any sequence of pushes (with or without
    allocation failure), pops and removals, the timer heap behaves as a
    multiset of sleeping coroutines: a push adds exactly its entry or, only when
    the array had to grow and [realloc] failed, leaves the heap untouched and
    reports it; a pop fails exactly on the empty heap and otherwise removes one
    entry of minimal deadline, the one peek announced; a removal by task id
    fails exactly when no entry carries the id and otherwise removes one that
    does. *)
Theorem timer_refines_multiset ops :
  let t := foldl timer_step timer_init ops in
  (forall ok e,
    let '(inserted, t') := loom_timer_push ok t e in
    if inserted then timer_contents t' ≡ₚ e :: timer_contents t
    else t' = t /\ ok = false /\ timer_len t = timer_cap t) /\
  match loom_timer_pop_due t with
  | None => timer_contents t = [] /\ loom_timer_peek t = None
  | Some (e, t') =>
      e :: timer_contents t' ≡ₚ timer_contents t /\
      loom_timer_peek t = Some (deadline_ns e) /\
      (forall x, x ∈ timer_contents t -> deadline_ns e <= deadline_ns x)
  end /\
  (forall id,
    match loom_timer_remove_by_task t id with
    | None => forall x, x ∈ timer_contents t -> te_task_id x <> id
    | Some (e, t') => te_task_id e = id /\ e :: timer_contents t' ≡ₚ timer_contents t
    end).
Proof.
  cbv zeta. set (t := foldl timer_step timer_init ops).
  assert (Hwf : timer_wf t) by (apply timer_run_wf; auto with loom).
  split_and!.
  - intros ok e. pose proof (push_ok ok t e Hwf) as H.
    destruct (loom_timer_push ok t e) as [[] ?]; destruct_and?; auto.
  - pose proof (pop_ok t Hwf) as H. revert H. unfold loom_timer_pop_due, loom_timer_peek.
    by destruct (Nat.eqb_spec (timer_len t) 0); [|intros (?&?&?)].
  - intros id. pose proof (remove_ok t id Hwf) as H.
    destruct (loom_timer_remove_by_task t id) as [[? ?]|]; by destruct_and?.
Qed.
