(* ===== verification/Types.v ===== *)
(** * Public enumerations, constants and the structures shared by the components
    (include/loomworks/*.h, src/thread_pool_internal.h). *)
From S2P Require Import Prelude.

(** ** Result codes and enumerations *)

Inductive loom_result_t :=
  | LOOMWORKS_OK | LOOMWORKS_ERR_ALLOC | LOOMWORKS_ERR_THREAD | LOOMWORKS_ERR_INVALID
  | LOOMWORKS_ERR_SHUTDOWN | LOOMWORKS_ERR_TIMEOUT | LOOMWORKS_ERR_CANCELLED
  | LOOMWORKS_ERR_FAILED.

#[export] Instance loom_result_eq_dec : EqDecision loom_result_t.
Proof. solve_decision. Defined.

(** The integer value of the enumerator ([(int)status] in loom_future_complete). *)
Definition result_code (r : loom_result_t) : Z :=
  match r with
  | LOOMWORKS_OK => 0 | LOOMWORKS_ERR_ALLOC => 1 | LOOMWORKS_ERR_THREAD => 2
  | LOOMWORKS_ERR_INVALID => 3 | LOOMWORKS_ERR_SHUTDOWN => 4 | LOOMWORKS_ERR_TIMEOUT => 5
  | LOOMWORKS_ERR_CANCELLED => 6 | LOOMWORKS_ERR_FAILED => 7
  end.

Inductive loom_metric_event_t :=
  | LOOMWORKS_METRIC_SUBMITTED | LOOMWORKS_METRIC_STARTED | LOOMWORKS_METRIC_COMPLETED
  | LOOMWORKS_METRIC_CANCELLED | LOOMWORKS_METRIC_FAILED.

#[export] Instance loom_metric_event_eq_dec : EqDecision loom_metric_event_t.
Proof. solve_decision. Defined.

Inductive loom_numa_mode_t := LOOM_NUMA_DISABLED | LOOM_NUMA_AUTO | LOOM_NUMA_VIRTUAL.

#[export] Instance loom_numa_mode_eq_dec : EqDecision loom_numa_mode_t.
Proof. solve_decision. Defined.

(** [loom_task_priority_t]. *)
Definition LOOMWORKS_PRIORITY_LOW : Z := 10.
Definition LOOMWORKS_PRIORITY_NORMAL : Z := 5.
Definition LOOMWORKS_PRIORITY_HIGH : Z := 1.
Definition LOOMWORKS_PRIORITY_REALTIME : Z := 0.

(** Tuning constants of thread_pool_internal.h. *)
Definition LOOMWORKS_MAX_QUEUE_CAPACITY : Z := 1024 * 1024.
Definition LOOMWORKS_NODE_POOL_CAP : Z := 4096.
Definition LOOMWORKS_NODE_FREE_END : Z := UINT32_MAX.
Definition LOOMWORKS_TLS_NODE_SLOTS : nat := 1.
Definition LOOMWORKS_POOL_REGISTRY_CAP : nat := 256.
Definition LOOMWORKS_PRIORITY_BUCKETS : nat := 256.
Definition LOOMWORKS_NONEMPTY_WORDS : nat := 4.
Definition LOOMWORKS_RING_DEFAULT_SLOTS : Z := 4096.
Definition LOOMWORKS_BULK_DEQUEUE : nat := 8.
Definition LOOMWORKS_DEQUE_CAPACITY : Z := 256.
Definition LOOMWORKS_STEAL_TRIES : nat := 3.

(** ** Addresses and the task store

    Pointers are numbers, 0 is NULL.  Task nodes live in a store shared by the
    lanes, the ring, the deques and the cancel index, which all hold node
    addresses: a cancel that marks a node through the index is seen by the
    worker that later dequeues the same address. *)
Abbreviation ptr := Z (only parsing).
Definition NULL : ptr := 0.

(** [struct loom_task].  [fn] and [coro_fn] are code addresses. *)
Record loom_task_t := mk_task {
  fn : ptr;
  user_data : ptr;
  cancelled : bool;
  task_id : Z;
  priority : Z;
  next : ptr;
  free_data : bool;
  is_future : bool;
  is_coro : bool;
  coro_fn : ptr;
  stack_size : Z;
  completion : ptr;
}.

#[export] Instance loom_task_eq_dec : EqDecision loom_task_t.
Proof. solve_decision. Defined.

#[export] Instance loom_task_inhabited : Inhabited loom_task_t :=
  populate (mk_task 0 0 false 0 0 0 false false false 0 0 0).

Definition set_next (p : ptr) (t : loom_task_t) : loom_task_t :=
  mk_task (fn t) (user_data t) (cancelled t) (task_id t) (priority t) p
    (free_data t) (is_future t) (is_coro t) (coro_fn t) (stack_size t) (completion t).

Definition set_cancelled (t : loom_task_t) : loom_task_t :=
  mk_task (fn t) (user_data t) true (task_id t) (priority t) (next t)
    (free_data t) (is_future t) (is_coro t) (coro_fn t) (stack_size t) (completion t).

Definition set_user_data (p : ptr) (t : loom_task_t) : loom_task_t :=
  mk_task (fn t) p (cancelled t) (task_id t) (priority t) (next t)
    (free_data t) (is_future t) (is_coro t) (coro_fn t) (stack_size t) (completion t).

Definition set_free_data (b : bool) (t : loom_task_t) : loom_task_t :=
  mk_task (fn t) (user_data t) (cancelled t) (task_id t) (priority t) (next t)
    b (is_future t) (is_coro t) (coro_fn t) (stack_size t) (completion t).

Definition clear_completion (t : loom_task_t) : loom_task_t :=
  mk_task (fn t) (user_data t) (cancelled t) (task_id t) (priority t) (next t)
    (free_data t) (is_future t) (is_coro t) (coro_fn t) (stack_size t) NULL.

(** The store of live task nodes, by address. *)
Abbreviation store := (gmap ptr loom_task_t) (only parsing).
