(* ===== verification/Lanes.v ===== *)
(** * Priority lanes (src/thread_pool.c: loom_enqueue_unlocked, dequeue and peek).

    256 FIFO buckets of intrusively linked task nodes, with head and tail
    arrays, a 256-bit occupancy bitmap in four 64-bit words, and the pool's
    queue length.  The operations work on the node store through [next]
    pointers, as the code does; the lemmas relate them to a list of addresses
    per bucket. *)
From S2P Require Import Prelude Types.

Record lanes := mk_lanes {
  buckets_head : list ptr;      (* 256 entries *)
  buckets_tail : list ptr;      (* 256 entries *)
  nonempty_bits : list Z;       (* 4 words *)
  queue_len : Z;                (* u32: pending tasks, ring and lanes *)
}.

Definition lanes_init : lanes :=
  mk_lanes (replicate LOOMWORKS_PRIORITY_BUCKETS NULL)
           (replicate LOOMWORKS_PRIORITY_BUCKETS NULL)
           (replicate LOOMWORKS_NONEMPTY_WORDS 0) 0.

(** [__builtin_ctzll]: the index of the lowest set bit (its argument is not 0
    at either call site). *)
Fixpoint ctz_from (n : nat) (x i : Z) : Z :=
  match n with
  | O => i
  | S n' => if Z.testbit x i then i else ctz_from n' x (i + 1)
  end.

Definition builtin_ctzll (x : Z) : Z := ctz_from 64 x 0.

(** Occupancy bit of bucket [b], set and cleared as the code does. *)
Definition set_bit (bits : list Z) (b : nat) : list Z :=
  <[(b / 64)%nat := Z.lor (bits !!! (b / 64)%nat) (Z.shiftl 1 (Z.of_nat (b mod 64)))]> bits.

Definition clear_bit (bits : list Z) (b : nat) : list Z :=
  <[(b / 64)%nat :=
      Z.land (bits !!! (b / 64)%nat)
        (u64 (Z.lnot (Z.shiftl 1 (Z.of_nat (b mod 64)))))]> bits.

(** ** Operations *)

Definition loom_enqueue_unlocked (m : store) (q : lanes) (task : ptr) : store * lanes :=
  let b := Z.to_nat (priority (m !!! task)) in
  let tl := buckets_tail q !!! b in
  let '(m, heads) :=
    if negb (tl =? NULL) then (alter (set_next task) tl m, buckets_head q)
    else (m, <[b := task]> (buckets_head q)) in
  let tails := <[b := task]> (buckets_tail q) in
  let m := alter (set_next NULL) task m in
  (m, mk_lanes heads tails (set_bit (nonempty_bits q) b) (queue_len q +32 1)).

(** The word scan shared by the peek and the dequeue: the first non-zero word
    from [w] on, with the bucket its lowest bit names. *)
Fixpoint first_bucket (fuel : nat) (bits : list Z) (w : nat) : option nat :=
  match fuel with
  | O => None
  | S f =>
      if (w <? LOOMWORKS_NONEMPTY_WORDS)%nat then
        let x := bits !!! w in
        if negb (x =? 0) then Some (w * 64 + Z.to_nat (builtin_ctzll x))%nat
        else first_bucket f bits (S w)
      else None
  end.

Definition dequeue_lowest_priority_unlocked (m : store) (q : lanes) (max_priority : nat)
  : option ptr * (store * lanes) :=
  match first_bucket LOOMWORKS_NONEMPTY_WORDS (nonempty_bits q) 0 with
  | None => (None, (m, q))
  | Some b =>
      if (max_priority <? b)%nat then (None, (m, q))
      else
        let t := buckets_head q !!! b in
        let heads := <[b := next (m !!! t)]> (buckets_head q) in
        let '(tails, bits) :=
          if heads !!! b =? NULL then
            (<[b := NULL]> (buckets_tail q), clear_bit (nonempty_bits q) b)
          else (buckets_tail q, nonempty_bits q) in
        let m := alter (set_next NULL) t m in
        (Some t, (m, mk_lanes heads tails bits (queue_len q -32 1)))
  end.

Definition lane_has_priority (q : lanes) (max_priority : nat) : bool :=
  match first_bucket LOOMWORKS_NONEMPTY_WORDS (nonempty_bits q) 0 with
  | None => false
  | Some b => (b <=? max_priority)%nat
  end.

Definition loom_dequeue_unlocked (m : store) (q : lanes) : option ptr * (store * lanes) :=
  dequeue_lowest_priority_unlocked m q 255.

(** The bucket walk of loom_pool_cancel and loom_pool_cancel_by_id: the first
    node of bucket [b], from [cur] with predecessor [prev], that satisfies the
    caller's test. *)
Fixpoint walk_bucket (fuel : nat) (m : store) (test : loom_task_t -> bool) (prev cur : ptr)
  : option (ptr * ptr) :=
  match fuel with
  | O => None
  | S f =>
      if cur =? NULL then None
      else if test (m !!! cur) then Some (prev, cur)
      else walk_bucket f m test cur (next (m !!! cur))
  end.

(** Unlinking [cur] (with predecessor [prev]) from bucket [b]. *)
Definition unlink (m : store) (q : lanes) (b : nat) (prev cur : ptr) : store * lanes :=
  let nx := next (m !!! cur) in
  let '(m, heads) :=
    if negb (prev =? NULL) then (alter (set_next nx) prev m, buckets_head q)
    else (m, <[b := nx]> (buckets_head q)) in
  let tails :=
    if cur =? buckets_tail q !!! b then <[b := prev]> (buckets_tail q) else buckets_tail q in
  let bits :=
    if heads !!! b =? NULL then clear_bit (nonempty_bits q) b else nonempty_bits q in
  (m, mk_lanes heads tails bits (queue_len q -32 1)).

(** The outer loop over the buckets, from [b] on: unlinks and returns the first
    match.  The inner walk is bounded by the number of nodes in the store. *)
Fixpoint cancel_walk (fuel : nat) (m : store) (q : lanes) (test : loom_task_t -> bool) (b : nat)
  : option (ptr * (store * lanes)) :=
  match fuel with
  | O => None
  | S f =>
      if (b <? LOOMWORKS_PRIORITY_BUCKETS)%nat then
        match walk_bucket (S (size m)) m test NULL (buckets_head q !!! b) with
        | Some (prev, cur) => Some (cur, unlink m q b prev cur)
        | None => cancel_walk f m q test (S b)
        end
      else None
  end.

(** ** Representation *)

(** [chain m p l]: from [p], the [next] links visit exactly the nodes [l]. *)
Fixpoint chain (m : store) (p : ptr) (l : list ptr) : Prop :=
  match l with
  | [] => p = NULL
  | x :: l' => p = x /\ x <> NULL /\ is_Some (m !! x) /\ chain m (next (m !!! x)) l'
  end.

Definition tail_of (l : list ptr) : ptr := default NULL (last l).

Record lanes_rep (m : store) (q : lanes) (Q : nat -> list ptr) : Prop := {
  lr_heads : length (buckets_head q) = LOOMWORKS_PRIORITY_BUCKETS;
  lr_tails : length (buckets_tail q) = LOOMWORKS_PRIORITY_BUCKETS;
  lr_words : length (nonempty_bits q) = LOOMWORKS_NONEMPTY_WORDS;
  lr_chain : forall b, (b < 256)%nat -> chain m (buckets_head q !!! b) (Q b);
  lr_tail : forall b, (b < 256)%nat -> buckets_tail q !!! b = tail_of (Q b);
  lr_bit : forall b, (b < 256)%nat ->
    Z.testbit (nonempty_bits q !!! (b / 64)%nat) (Z.of_nat (b mod 64)) = bool_decide (Q b <> []);
  lr_range : forall w, (w < 4)%nat -> 0 <= nonempty_bits q !!! w < 2 ^ 64;
  lr_nodup : forall b, (b < 256)%nat -> NoDup (Q b);
  lr_disj : forall b c x, (b < 256)%nat -> (c < 256)%nat -> x ∈ Q b -> x ∈ Q c -> b = c;
  lr_prio : forall b x, (b < 256)%nat -> x ∈ Q b -> priority (m !!! x) = Z.of_nat b;
}.

(** Point update of a bucket assignment. *)
Definition upd (Q : nat -> list ptr) (b : nat) (l : list ptr) : nat -> list ptr :=
  fun c => if decide (c = b) then l else Q c.

(** ** The bitmap *)

Lemma ctz_from_spec n x i :
  0 <= i ->
  (exists j, i <= j < i + Z.of_nat n /\ Z.testbit x j = true) ->
  let c := ctz_from n x i in
  i <= c < i + Z.of_nat n /\ Z.testbit x c = true /\
  (forall j, i <= j < c -> Z.testbit x j = false).
Proof.
  cbv zeta. revert i. induction n as [|n IH]; intros i Hi (j&Hj&Hb); [lia|].
  cbn [ctz_from]. destruct (Z.testbit x i) eqn:E.
  { split_and!; [lia|lia|done|lia]. }
  destruct (IH (i + 1) ltac:(lia)) as (A&B&C).
  { exists j. split; [|done]. destruct (decide (j = i)); [congruence|lia]. }
  split_and!; [lia|lia|done|]. intros k Hk.
  destruct (decide (k = i)) as [->|]; [done|]. apply C. lia.
Qed.

Lemma ctz_spec x :
  0 < x < 2 ^ 64 ->
  0 <= builtin_ctzll x < 64 /\ Z.testbit x (builtin_ctzll x) = true /\
  (forall j, 0 <= j < builtin_ctzll x -> Z.testbit x j = false).
Proof.
  intros Hx. apply (ctz_from_spec 64 x 0); [lia|].
  exists (Z.log2 x). rewrite Z.bit_log2 by lia. split; [|done].
  pose proof (Z.log2_nonneg x). assert (Z.log2 x < 64) by (apply Z.log2_lt_pow2; lia). lia.
Qed.

Lemma testbit_1_pos i : 0 < i -> Z.testbit 1 i = false.
Proof. intros. apply Z.bits_above_log2; [lia|]. change (Z.log2 1) with 0. lia. Qed.

Lemma bucket_word b : (b < 256)%nat -> (b / 64 < 4)%nat.
Proof. intros. apply Nat.Div0.div_lt_upper_bound. lia. Qed.

Lemma bucket_same_bit b c :
  (b / 64 = c / 64)%nat -> (b mod 64 = c mod 64)%nat -> b = c.
Proof.
  intros H1 H2. rewrite (Nat.div_mod_eq b 64), (Nat.div_mod_eq c 64). congruence.
Qed.

(** Reading bucket [c]'s bit. *)
Definition read_bit (bits : list Z) (c : nat) : bool :=
  Z.testbit (bits !!! (c / 64)%nat) (Z.of_nat (c mod 64)).

Lemma read_set_bit bits b c :
  length bits = LOOMWORKS_NONEMPTY_WORDS -> (b < 256)%nat -> (c < 256)%nat ->
  read_bit (set_bit bits b) c = if decide (c = b) then true else read_bit bits c.
Proof.
  intros Hl Hb Hc. unfold read_bit, set_bit.
  pose proof (bucket_word b Hb). change LOOMWORKS_NONEMPTY_WORDS with 4%nat in Hl.
  destruct (decide (c / 64 = b / 64)%nat) as [E|E].
  - rewrite E, array_read_insert_eq by lia. rewrite Z.lor_spec, Z.shiftl_spec by lia.
    case_decide as D; [subst; by rewrite Z.sub_diag, orb_true_r|].
    destruct (decide (c mod 64 = b mod 64)%nat) as [M|M];
      [by destruct D; apply bucket_same_bit|].
    destruct (decide (c mod 64 < b mod 64)%nat).
    + rewrite (Z.testbit_neg_r 1) by lia. by rewrite orb_false_r.
    + rewrite testbit_1_pos by lia. by rewrite orb_false_r.
  - rewrite array_read_insert_ne by done. case_decide; [by subst|done].
Qed.

Lemma read_clear_bit bits b c :
  length bits = LOOMWORKS_NONEMPTY_WORDS -> (b < 256)%nat -> (c < 256)%nat ->
  read_bit (clear_bit bits b) c = if decide (c = b) then false else read_bit bits c.
Proof.
  intros Hl Hb Hc. unfold read_bit, clear_bit.
  pose proof (bucket_word b Hb). change LOOMWORKS_NONEMPTY_WORDS with 4%nat in Hl.
  assert (Hm : (c mod 64 < 64)%nat) by (apply Nat.mod_upper_bound; lia).
  destruct (decide (c / 64 = b / 64)%nat) as [E|E].
  - rewrite E, array_read_insert_eq by lia.
    rewrite Z.land_spec. unfold u64. rewrite Z.mod_pow2_bits_low by lia.
    rewrite Z.lnot_spec, Z.shiftl_spec by lia.
    case_decide as D; [subst; by rewrite Z.sub_diag, andb_false_r|].
    destruct (decide (c mod 64 = b mod 64)%nat) as [M|M];
      [by destruct D; apply bucket_same_bit|].
    destruct (decide (c mod 64 < b mod 64)%nat).
    + rewrite (Z.testbit_neg_r 1) by lia. by rewrite andb_true_r.
    + rewrite testbit_1_pos by lia. by rewrite andb_true_r.
  - rewrite array_read_insert_ne by done. case_decide; [by subst|done].
Qed.

Definition words_in_range (bits : list Z) : Prop :=
  forall w, (w < 4)%nat -> 0 <= bits !!! w < 2 ^ 64.

Lemma lt_pow2_bits x n : 0 <= n -> 0 <= x -> (forall i, n <= i -> Z.testbit x i = false) -> x < 2 ^ n.
Proof.
  intros Hn Hx Hb. destruct (decide (x = 0)) as [->|]; [lia|].
  apply Z.log2_lt_pow2; [lia|]. apply Z.nle_gt. intros Hle.
  specialize (Hb (Z.log2 x) Hle). rewrite Z.bit_log2 in Hb by lia. done.
Qed.

Lemma bits_high x n i : 0 <= x < 2 ^ n -> n <= i -> Z.testbit x i = false.
Proof.
  intros Hx Hi. destruct (decide (x = 0)) as [->|]; [apply Z.bits_0|].
  apply Z.bits_above_log2; [lia|].
  assert (Z.log2 x < n) by (apply Z.log2_lt_pow2; lia). lia.
Qed.

Lemma set_bit_range bits b :
  length bits = LOOMWORKS_NONEMPTY_WORDS -> (b < 256)%nat ->
  words_in_range bits -> words_in_range (set_bit bits b).
Proof.
  intros Hl Hb Hr w Hw. unfold set_bit. pose proof (bucket_word b Hb).
  change LOOMWORKS_NONEMPTY_WORDS with 4%nat in Hl.
  destruct (decide (w = b / 64)%nat) as [->|]; [|by rewrite array_read_insert_ne; auto].
  rewrite array_read_insert_eq by lia. specialize (Hr _ Hw).
  assert (Hm : (b mod 64 < 64)%nat) by (apply Nat.mod_upper_bound; lia).
  split; [apply Z.lor_nonneg; split; [lia|apply Z.shiftl_nonneg; lia]|].
  apply lt_pow2_bits; [lia|apply Z.lor_nonneg; split; [lia|apply Z.shiftl_nonneg; lia]|].
  intros i Hi. rewrite Z.lor_spec, Z.shiftl_spec by lia.
  rewrite (bits_high _ 64) by done. apply testbit_1_pos. lia.
Qed.

Lemma clear_bit_range bits b :
  length bits = LOOMWORKS_NONEMPTY_WORDS -> (b < 256)%nat ->
  words_in_range bits -> words_in_range (clear_bit bits b).
Proof.
  intros Hl Hb Hr w Hw. unfold clear_bit. pose proof (bucket_word b Hb).
  change LOOMWORKS_NONEMPTY_WORDS with 4%nat in Hl.
  destruct (decide (w = b / 64)%nat) as [->|]; [|by rewrite array_read_insert_ne; auto].
  rewrite array_read_insert_eq by lia. specialize (Hr _ Hw).
  split; [apply Z.land_nonneg; lia|].
  apply lt_pow2_bits; [lia|apply Z.land_nonneg; lia|].
  intros i Hi. rewrite Z.land_spec, (bits_high _ 64) by done. done.
Qed.

Lemma first_bucket_spec bits fuel w :
  length bits = LOOMWORKS_NONEMPTY_WORDS -> words_in_range bits -> (4 <= w + fuel)%nat ->
  match first_bucket fuel bits w with
  | Some b => (w * 64 <= b < 256)%nat /\ read_bit bits b = true /\
              forall c, (w * 64 <= c < b)%nat -> read_bit bits c = false
  | None => forall c, (w * 64 <= c < 256)%nat -> read_bit bits c = false
  end.
Proof.
  intros Hl Hr. revert w. induction fuel as [|f IH]; intros w Hf; cbn [first_bucket];
    [intros c; lia|].
  change LOOMWORKS_NONEMPTY_WORDS with 4%nat.
  destruct (Nat.ltb_spec w 4) as [Hw|Hw]; [|intros c; lia].
  destruct (Z.eqb_spec (bits !!! w) 0) as [E|E]; cbn [negb].
  - assert (Hz : forall c, (w * 64 <= c < S w * 64)%nat -> read_bit bits c = false).
    { intros c Hc. unfold read_bit. replace (c / 64)%nat with w; [by rewrite E, Z.bits_0|].
      apply (Nat.div_unique _ _ _ (c - w * 64)); lia. }
    specialize (IH (S w) ltac:(lia)). destruct (first_bucket f bits (S w)) as [b|].
    + destruct IH as (?&?&H). split_and!; [lia|lia|done|]. intros c Hc.
      destruct (decide (c < S w * 64)%nat); [apply Hz|apply H]; lia.
    + intros c Hc. destruct (decide (c < S w * 64)%nat); [apply Hz|apply IH]; lia.
  - destruct (ctz_spec (bits !!! w)) as (A&B&C); [specialize (Hr w Hw); lia|].
    set (z := builtin_ctzll _) in *. clearbody z.
    assert (Hdiv : forall k, (k < 64)%nat -> read_bit bits (w * 64 + k)
              = Z.testbit (bits !!! w) (Z.of_nat k)).
    { intros k Hk. unfold read_bit. f_equal.
      - f_equal. symmetry. apply (Nat.div_unique _ _ _ k); lia.
      - f_equal. symmetry. apply (Nat.mod_unique _ _ w); lia. }
    split_and!; [lia|lia| |].
    + rewrite Hdiv by lia. by rewrite Z2Nat.id by lia.
    + intros c Hc. replace c with (w * 64 + (c - w * 64))%nat by lia.
      rewrite Hdiv by lia. apply C. lia.
Qed.

(** ** Chains *)

Lemma chain_frame m m' p l :
  (forall x, x ∈ l -> m' !! x = m !! x) -> chain m p l -> chain m' p l.
Proof.
  revert p. induction l as [|x l IH]; intros p Hf; [done|]. intros (->&Hx&Hs&Hc).
  assert (E : m' !! x = m !! x) by (apply Hf; set_solver).
  cbn. rewrite E. split_and!; [done|done|done|].
  rewrite (lookup_total_alt m'), E, <- lookup_total_alt. apply IH; [|done].
  intros y Hy. apply Hf. set_solver.
Qed.

Lemma chain_in m p l x : chain m p l -> x ∈ l -> x <> NULL /\ is_Some (m !! x).
Proof.
  revert p. induction l as [|y l IH]; intros p; [by intros _ ?%not_elem_of_nil|].
  intros (->&?&?&?) [->|Hx]%elem_of_cons; [done|]. by eapply IH.
Qed.

Lemma alter_ne_total (m : store) f x y : x <> y -> alter f x m !!! y = m !!! y.
Proof. intros. rewrite !lookup_total_alt, lookup_alter_ne by done. done. Qed.

Lemma alter_eq_total (m : store) f x : is_Some (m !! x) -> alter f x m !!! x = f (m !!! x).
Proof.
  intros [t Ht]. rewrite !lookup_total_alt, lookup_alter_eq, Ht. done.
Qed.

Lemma priority_set_next (m : store) x p y :
  priority (alter (set_next p) x m !!! y) = priority (m !!! y).
Proof.
  destruct (decide (x = y)) as [->|]; [|by rewrite alter_ne_total].
  rewrite !lookup_total_alt, lookup_alter_eq. by destruct (m !! y).
Qed.

(** Redirecting the link of [t] replaces what hangs below it. *)
Lemma chain_relink m p l t r l' x :
  chain m p (l ++ t :: r) -> NoDup (l ++ [t]) ->
  (forall y, y ∈ l' -> y ∉ l ++ [t]) ->
  chain m x l' ->
  chain (alter (set_next x) t m) p (l ++ t :: l').
Proof.
  revert p. induction l as [|y l IH]; intros p; cbn [app].
  - intros (->&?&?&?) _ Hd Hc. cbn. split_and!; [done|done| |].
    + rewrite lookup_alter_eq. by apply fmap_is_Some.
    + rewrite alter_eq_total by done. cbn. eapply chain_frame; [|exact Hc].
      intros z Hz. apply lookup_alter_ne. specialize (Hd z Hz). set_unfold. naive_solver.
  - intros (->&?&?&Hc) [Hy Hnd]%NoDup_cons Hd Hc'.
    assert (t <> y) by set_solver. cbn. split_and!; [done|done| |].
    + by rewrite lookup_alter_ne.
    + rewrite alter_ne_total by done. apply IH; [done|done| |done].
      intros z Hz. specialize (Hd z Hz). set_unfold. naive_solver.
Qed.

Lemma chain_suffix m p l l' :
  chain m p (l ++ l') -> exists p', chain m p' l' /\
    match last l with None => p' = p | Some t => p' = next (m !!! t) end.
Proof.
  revert p. induction l as [|x l IH]; intros p; cbn [app].
  - intros. exists p. done.
  - intros (->&?&?&Hc). destruct (IH _ Hc) as (p'&Hc'&Hp). exists p'. split; [done|].
    rewrite last_cons. by destruct (last l).
Qed.

Lemma NoDup_app_cons {A} (l : list A) x l' : NoDup (l ++ x :: l') -> NoDup (l ++ [x]).
Proof.
  rewrite !NoDup_app, NoDup_cons. intros (?&Hd&?&?). split_and!; [done| |apply NoDup_singleton].
  intros y Hy. specialize (Hd y Hy). set_solver.
Qed.

(** Removing the node after [t] from the chain. *)
Lemma chain_unlink m p l t c l' :
  chain m p (l ++ t :: c :: l') -> NoDup (l ++ t :: c :: l') ->
  chain (alter (set_next (next (m !!! c))) t m) p (l ++ t :: l').
Proof.
  intros Hc Hnd.
  destruct (chain_suffix m p (l ++ [t]) (c :: l')) as (p'&(->&?&?&Hc')&_).
  { by rewrite <- (assoc_L (++)). }
  eapply chain_relink; [exact Hc|by eapply NoDup_app_cons| |done].
  intros y Hy Hin. apply NoDup_app in Hnd as (?&Hd&Hn2).
  apply NoDup_cons in Hn2 as [? Hn3]. apply NoDup_cons in Hn3 as [? ?].
  apply elem_of_app in Hin as [Hin| ->%list_elem_of_singleton]; [|set_solver].
  specialize (Hd y Hin). set_solver.
Qed.

Lemma tail_of_app l x : tail_of (l ++ [x]) = x.
Proof. unfold tail_of. by rewrite last_snoc. Qed.

Lemma tail_of_cases l : (l = [] /\ tail_of l = NULL) \/ exists l0 t, l = l0 ++ [t] /\ tail_of l = t.
Proof.
  destruct l as [|t l0 _] using rev_ind; [by left|].
  right. exists l0, t. split; [done|]. apply tail_of_app.
Qed.

(** Assembling the invariant after a change confined to bucket [b]. *)
Lemma lanes_rep_update m q Q m' q' b l :
  lanes_rep m q Q -> (b < 256)%nat ->
  length (buckets_head q') = LOOMWORKS_PRIORITY_BUCKETS ->
  length (buckets_tail q') = LOOMWORKS_PRIORITY_BUCKETS ->
  length (nonempty_bits q') = LOOMWORKS_NONEMPTY_WORDS ->
  (forall c, c <> b -> buckets_head q' !!! c = buckets_head q !!! c) ->
  (forall c, c <> b -> buckets_tail q' !!! c = buckets_tail q !!! c) ->
  chain m' (buckets_head q' !!! b) l -> buckets_tail q' !!! b = tail_of l ->
  (forall c, (c < 256)%nat -> read_bit (nonempty_bits q') c =
     if decide (c = b) then bool_decide (l <> []) else read_bit (nonempty_bits q) c) ->
  words_in_range (nonempty_bits q') ->
  NoDup l -> (forall x, x ∈ l -> x ∈ Q b \/ forall c, (c < 256)%nat -> x ∉ Q c) ->
  (forall x c, (c < 256)%nat -> c <> b -> x ∈ Q c -> m' !! x = m !! x) ->
  (forall x, x ∈ l -> priority (m' !!! x) = Z.of_nat b) ->
  lanes_rep m' q' (upd Q b l).
Proof.
  intros Hr Hb Hl1 Hl2 Hl3 Hh Ht Hc Htl Hbit Hw Hnd Hsub Hm Hp.
  split; try done; unfold upd.
  - intros c Hcb. case_decide as E; [by subst|]. rewrite Hh by done.
    eapply chain_frame; [|by apply Hr]. intros x Hx. by eapply Hm.
  - intros c Hcb. case_decide as E; [by subst|]. rewrite Ht by done. by apply Hr.
  - intros c Hcb. specialize (Hbit c Hcb). unfold read_bit in Hbit. rewrite Hbit.
    case_decide; [done|]. by apply Hr.
  - intros c Hcb. case_decide; [done|]. by apply Hr.
  - intros c d x Hc0 Hd0. repeat case_decide; subst; try done.
    + intros Hx Hy. destruct (Hsub x Hx) as [Hx'|Hx']; [|by destruct (Hx' d)].
      by apply (lr_disj _ _ _ Hr b d x).
    + intros Hy Hx. destruct (Hsub x Hx) as [Hx'|Hx']; [|by destruct (Hx' c)].
      by apply (lr_disj _ _ _ Hr c b x).
    + by apply (lr_disj _ _ _ Hr).
  - intros c x Hcb. case_decide as E; [subst; apply Hp|]. intros Hx.
    rewrite lookup_total_alt, (Hm x c), <- lookup_total_alt by done. by apply Hr.
Qed.

Lemma lanes_init_rep m : lanes_rep m lanes_init (fun _ => []).
Proof.
  assert (Hw : forall w, (w < 4)%nat -> nonempty_bits lanes_init !!! w = 0)
    by (intros w Hw; by apply lookup_total_replicate_2).
  split; try done.
  - intros b Hb. by apply lookup_total_replicate_2.
  - intros b Hb. by apply lookup_total_replicate_2.
  - intros b Hb. rewrite Hw, Z.bits_0 by by apply bucket_word. done.
  - intros w Hw'. rewrite Hw by done. lia.
  - intros. apply NoDup_nil_2.
  - intros b c x _ _ H. by apply not_elem_of_nil in H.
  - intros b x _ H. by apply not_elem_of_nil in H.
Qed.

(** [relinked m m' P]: the store changed at most in the [next] fields of nodes
    that satisfy [P]. *)
Definition relinked (m m' : store) (P : ptr -> Prop) : Prop :=
  forall y, m' !! y = m !! y \/ P y /\ exists p, m' !! y = set_next p <$> m !! y.

Lemma relinked_alter m (P : ptr -> Prop) x p : P x -> relinked m (alter (set_next p) x m) P.
Proof.
  intros HS y. destruct (decide (x = y)) as [->|]; [right|left; by apply lookup_alter_ne].
  split; [done|]. exists p. apply lookup_alter_eq.
Qed.

Lemma relinked_trans m1 m2 m3 P : relinked m1 m2 P -> relinked m2 m3 P -> relinked m1 m3 P.
Proof.
  intros H1 H2 y. destruct (H1 y) as [E1|(?&p&E1)], (H2 y) as [E2|(?&p'&E2)].
  - left. congruence.
  - right. split; [done|]. exists p'. congruence.
  - right. split; [done|]. exists p. congruence.
  - right. split; [done|]. exists p'. rewrite E2, E1. by destruct (m1 !! y).
Qed.

Lemma relinked_priority m m' P y : relinked m m' P -> priority (m' !!! y) = priority (m !!! y).
Proof.
  intros H. rewrite !lookup_total_alt. destruct (H y) as [->|(_&p&->)]; [done|].
  by destruct (m !! y).
Qed.

Lemma relinked_out m m' P y : relinked m m' P -> ~ P y -> m' !! y = m !! y.
Proof. intros H HS. by destruct (H y) as [|(?&?)]. Qed.

(** Linking a fresh node behind the tail of a chain, as the enqueue does. *)
Lemma enqueue_chain m p l x :
  chain m p l -> NoDup l -> is_Some (m !! x) -> x <> NULL -> x ∉ l ->
  let m' := if negb (tail_of l =? NULL) then alter (set_next x) (tail_of l) m else m in
  let p' := if negb (tail_of l =? NULL) then p else x in
  let m' := alter (set_next NULL) x m' in
  chain m' p' (l ++ [x]) /\ relinked m m' (fun y => y ∈ l ++ [x]).
Proof.
  intros Hc Hnd Hx Hx0 Hxl. cbv zeta.
  assert (Hone : chain (alter (set_next NULL) x m) x [x]).
  { cbn. split_and!; [done|done| |by rewrite alter_eq_total].
    rewrite lookup_alter_eq. by apply fmap_is_Some. }
  destruct (tail_of_cases l) as [[-> ->]|(l0&t&->&->)].
  { change (negb (NULL =? NULL)) with false. cbv iota. split; [done|].
    apply relinked_alter. set_solver. }
  destruct (Z.eqb_spec t NULL) as [->|_].
  { destruct (chain_in _ _ _ NULL Hc); [set_solver|done]. }
  assert (t <> x) by (intros ->; set_solver). cbn [negb]. split.
  - rewrite <- (assoc_L (++)). cbn [app]. rewrite alter_alter_ne by done.
    eapply chain_relink with (r := []); [|done| |done].
    + eapply chain_frame; [|exact Hc]. intros y Hy. apply lookup_alter_ne. by intros ->.
    + by intros y ->%list_elem_of_singleton.
  - eapply relinked_trans; apply relinked_alter; set_solver.
Qed.

(** [loom_enqueue_unlocked] appends to the bucket of the node's priority. *)
Lemma lane_enqueue_refines m q Q x b :
  lanes_rep m q Q -> is_Some (m !! x) -> x <> NULL ->
  priority (m !!! x) = Z.of_nat b -> (b < 256)%nat ->
  (forall c, (c < 256)%nat -> x ∉ Q c) ->
  let '(m', q') := loom_enqueue_unlocked m q x in
  lanes_rep m' q' (upd Q b (Q b ++ [x])) /\ queue_len q' = queue_len q +32 1 /\
  relinked m m' (fun y => y ∈ Q b ++ [x]).
Proof.
  intros Hr Hx Hx0 Hp Hb Hfresh. unfold loom_enqueue_unlocked. rewrite Hp, Nat2Z.id.
  pose proof (lr_heads _ _ _ Hr) as Hl1. pose proof (lr_tails _ _ _ Hr) as Hl2.
  pose proof (enqueue_chain _ _ _ x (lr_chain _ _ _ Hr b Hb) (lr_nodup _ _ _ Hr b Hb)
    Hx Hx0 (Hfresh b Hb)) as [Hc Hrl].
  rewrite (lr_tail _ _ _ Hr b Hb).
  set (nb := negb (tail_of (Q b) =? NULL)) in *.
  set (m' := alter (set_next NULL) x _) in Hc, Hrl.
  assert (E : (let '(m0, heads) := if nb then (alter (set_next x) (tail_of (Q b)) m, buckets_head q)
                else (m, <[b:=x]> (buckets_head q)) in (m0, heads))
    = (if nb then alter (set_next x) (tail_of (Q b)) m else m,
       if nb then buckets_head q else <[b:=x]> (buckets_head q))) by by destruct nb.
  set (pr := if nb then (_, _) else _) in *. destruct pr as [m0 heads] eqn:Epr.
  injection E as -> ->. fold m'. split_and!; [|done|done].
  eapply lanes_rep_update; eauto; simpl; rewrite ?length_insert; try done.
  - destruct nb; [done|]. by rewrite length_insert.
  - unfold set_bit. rewrite length_insert. apply Hr.
  - intros c Hne. destruct nb; [done|]. by rewrite array_read_insert_ne.
  - intros. by rewrite array_read_insert_ne.
  - destruct nb; [done|]. rewrite array_read_insert_eq by (rewrite Hl1; done). done.
  - rewrite array_read_insert_eq by (rewrite Hl2; done). by rewrite tail_of_app.
  - intros c Hc0. rewrite read_set_bit by (done || apply Hr). case_decide; [|done]. by destruct (Q b).
  - apply set_bit_range; [apply Hr|done|exact (lr_range _ _ _ Hr)].
  - apply NoDup_app. split_and!; [by apply Hr| |apply NoDup_singleton].
    intros y Hy ->%list_elem_of_singleton. by apply (Hfresh b).
  - intros y [?| ->%list_elem_of_singleton]%elem_of_app; [by left|by right].
  - intros y c Hc0 Hne Hy. eapply relinked_out; [done|].
    intros [Hy'| ->%list_elem_of_singleton]%elem_of_app; [|by apply (Hfresh c)].
    by apply Hne, (lr_disj _ _ _ Hr c b y).
  - intros y Hy. erewrite relinked_priority by exact Hrl.
    apply elem_of_app in Hy as [?| ->%list_elem_of_singleton]; [by apply Hr|done].
Qed.

Lemma first_bucket_rep m q Q :
  lanes_rep m q Q ->
  match first_bucket LOOMWORKS_NONEMPTY_WORDS (nonempty_bits q) 0 with
  | Some b => (b < 256)%nat /\ Q b <> [] /\ forall c, (c < b)%nat -> Q c = []
  | None => forall c, (c < 256)%nat -> Q c = []
  end.
Proof.
  intros Hr.
  pose proof (first_bucket_spec (nonempty_bits q) LOOMWORKS_NONEMPTY_WORDS 0
    (lr_words _ _ _ Hr) (lr_range _ _ _ Hr) ltac:(done)) as H.
  assert (Hb : forall c, (c < 256)%nat -> read_bit (nonempty_bits q) c = bool_decide (Q c <> []))
    by apply Hr.
  destruct (first_bucket _ _ _) as [b|].
  - destruct H as (?&Ht&Hf). rewrite Hb in Ht by lia. apply bool_decide_eq_true in Ht.
    split_and!; [lia|done|]. intros c Hc. specialize (Hf c ltac:(lia)).
    rewrite Hb in Hf by lia. apply bool_decide_eq_false in Hf. by apply dec_stable.
  - intros c Hc. specialize (H c ltac:(lia)). rewrite Hb in H by lia.
    apply bool_decide_eq_false in H. by apply dec_stable.
Qed.

(** What the dequeue does to a lane assignment: it takes the head of the lowest
    non-empty bucket, when that bucket is within the bound. *)
Definition lane_dequeue_spec (Q : nat -> list ptr) (max_priority : nat)
  (r : option ptr) (Q' : nat -> list ptr) : Prop :=
  match r with
  | None => Q' = Q /\ forall b, (b <= max_priority)%nat -> (b < 256)%nat -> Q b = []
  | Some x => exists b l, (b < 256)%nat /\ (b <= max_priority)%nat /\ Q b = x :: l /\
      (forall c, (c < b)%nat -> Q c = []) /\ Q' = upd Q b l
  end.

Lemma chain_head_null m p l : chain m p l -> p = NULL <-> l = [].
Proof. destruct l; cbn; [done|]. intros (->&?&_). split; congruence. Qed.

Lemma tail_of_cons x l : l <> [] -> tail_of (x :: l) = tail_of l.
Proof. by destruct l. Qed.

Lemma lane_dequeue_refines m q Q mx :
  lanes_rep m q Q ->
  let '(r, (m', q')) := dequeue_lowest_priority_unlocked m q mx in
  exists Q', lane_dequeue_spec Q mx r Q' /\ lanes_rep m' q' Q' /\
    match r with
    | None => m' = m /\ q' = q
    | Some x => queue_len q' = queue_len q -32 1 /\ m' = alter (set_next NULL) x m /\
                is_Some (m !! x) /\ x <> NULL
    end.
Proof.
  intros Hr. unfold dequeue_lowest_priority_unlocked.
  pose proof (first_bucket_rep m q Q Hr) as Hf.
  destruct (first_bucket _ _ _) as [b|].
  2:{ exists Q. split_and!; [split; auto|done|done|done]. }
  destruct Hf as (Hb&Hne&Hlow). destruct (Nat.ltb_spec mx b) as [Hmx|Hmx].
  { exists Q. split_and!; [split; [done|]|done|done|done]. intros c Hc ?. apply Hlow. lia. }
  pose proof (lr_heads _ _ _ Hr) as Hl1. pose proof (lr_tails _ _ _ Hr) as Hl2.
  pose proof (lr_chain _ _ _ Hr b Hb) as Hc. pose proof (lr_nodup _ _ _ Hr b Hb) as Hnd.
  destruct (Q b) as [|x l] eqn:EQ; [done|]. destruct Hc as (Eh&Hx0&Hx&Hc).
  rewrite Eh in *. apply NoDup_cons in Hnd as [Hxl Hnd].
  rewrite array_read_insert_eq by (rewrite Hl1; done).
  set (pr := if _ =? NULL then _ else _).
  assert (Epr : pr = (if next (m !!! x) =? NULL then <[b:=NULL]> (buckets_tail q) else buckets_tail q,
    if next (m !!! x) =? NULL then clear_bit (nonempty_bits q) b else nonempty_bits q))
    by (unfold pr; by destruct (_ =? NULL)).
  rewrite Epr. clear pr Epr. exists (upd Q b l). split_and!; [|..|done|done|done|done].
  { exists b, l. split_and!; auto. }
  pose proof (chain_head_null _ _ _ Hc) as Hnull.
  eapply lanes_rep_update; eauto; simpl; rewrite ?length_insert; try done.
  - destruct (_ =? NULL); by rewrite ?length_insert.
  - destruct (_ =? NULL); [unfold clear_bit; rewrite length_insert|]; apply Hr.
  - intros c Hcb. by rewrite array_read_insert_ne.
  - intros c Hcb. destruct (_ =? NULL); [by rewrite array_read_insert_ne|done].
  - rewrite array_read_insert_eq by (rewrite Hl1; done).
    eapply chain_frame; [|exact Hc]. intros y Hy. apply lookup_alter_ne. by intros ->.
  - destruct (Z.eqb_spec (next (m !!! x)) NULL) as [E|E].
    + rewrite array_read_insert_eq by (rewrite Hl2; done). apply Hnull in E. by subst.
    + rewrite (lr_tail _ _ _ Hr b Hb), EQ. apply tail_of_cons. naive_solver.
  - intros c Hcb. destruct (Z.eqb_spec (next (m !!! x)) NULL) as [E|E].
    + rewrite read_clear_bit by (done || apply Hr). case_decide; [|done].
      apply Hnull in E. by subst.
    + case_decide; [subst|done]. rewrite bool_decide_true by naive_solver.
      unfold read_bit. rewrite (lr_bit _ _ _ Hr b Hb), EQ. done.
  - destruct (_ =? NULL); [apply clear_bit_range; [apply Hr|done|]|]; exact (lr_range _ _ _ Hr).
  - intros y Hy. left. rewrite EQ. by right.
  - intros y c Hc0 Hcb Hy. apply lookup_alter_ne. intros <-. apply Hcb.
    apply (lr_disj _ _ _ Hr c b x); try done. rewrite EQ. by left.
  - intros y Hy. rewrite priority_set_next. apply Hr; [done|]. rewrite EQ. by right.
Qed.

(** ** The cancel walk *)

Lemma chain_length m p l : chain m p l -> NoDup l -> (length l <= size m)%nat.
Proof.
  intros Hc Hnd. rewrite <- (size_dom m). rewrite <- (size_list_to_set (C := gset ptr) l Hnd).
  apply subseteq_size. intros x [_ ?]%elem_of_list_to_set%(chain_in _ _ _ _ Hc).
  by apply elem_of_dom.
Qed.

Lemma walk_bucket_spec fuel m test prev cur l :
  chain m cur l -> (length l < fuel)%nat ->
  match walk_bucket fuel m test prev cur with
  | Some (prev', c) => exists l1 l2, l = l1 ++ c :: l2 /\ test (m !!! c) = true /\
      (forall x, x ∈ l1 -> test (m !!! x) = false) /\
      prev' = (if decide (l1 = []) then prev else tail_of l1)
  | None => forall x, x ∈ l -> test (m !!! x) = false
  end.
Proof.
  revert prev cur l. induction fuel as [|f IH]; intros prev cur l Hc Hlen; [lia|].
  cbn [walk_bucket]. destruct l as [|y l].
  { cbn in Hc. subst. change (NULL =? NULL) with true. cbv iota. by intros x ?%not_elem_of_nil. }
  destruct Hc as (->&Hy0&_&Hc). destruct (Z.eqb_spec y NULL); [done|].
  destruct (test (m !!! y)) eqn:Et.
  { exists [], l. split_and!; [done|done| |done]. by intros x ?%not_elem_of_nil. }
  cbn in Hlen. specialize (IH y _ l Hc ltac:(lia)).
  destruct (walk_bucket f m test y _) as [[prev' c]|].
  - destruct IH as (l1&l2&->&?&Hno&Hprev). exists (y :: l1), l2. split_and!; [done|done| |].
    + intros x [->|Hx]%elem_of_cons; auto.
    + rewrite Hprev. case_decide as E; [by subst|]. cbn. by rewrite tail_of_cons.
  - intros x [->|Hx]%elem_of_cons; auto.
Qed.

Lemma chain_mid m p l1 c l2 : chain m p (l1 ++ c :: l2) -> chain m (next (m !!! c)) l2 /\ c <> NULL.
Proof. intros Hc. by destruct (chain_suffix _ _ _ _ Hc) as (?&(?&?&?&?)&_). Qed.

Lemma tail_of_app_cons l1 c l2 :
  c ∉ l2 -> (c = tail_of (l1 ++ c :: l2)) <-> l2 = [].
Proof.
  intros Hc. destruct (tail_of_cases l2) as [[-> _]|(l0&t&->&_)].
  - by rewrite tail_of_app.
  - replace (l1 ++ c :: l0 ++ [t]) with ((l1 ++ c :: l0) ++ [t])
      by by rewrite <- (assoc_L (++)).
    rewrite tail_of_app. split; [intros ->; set_solver|by destruct l0].
Qed.

(** The link writes of [unlink] remove the node from its chain. *)
Lemma unlink_chain m p l1 c l2 :
  chain m p (l1 ++ c :: l2) -> NoDup (l1 ++ c :: l2) ->
  let m' := if negb (tail_of l1 =? NULL) then alter (set_next (next (m !!! c))) (tail_of l1) m
            else m in
  let p' := if negb (tail_of l1 =? NULL) then p else next (m !!! c) in
  chain m' p' (l1 ++ l2) /\ relinked m m' (fun y => y ∈ l1 ++ c :: l2).
Proof.
  intros Hc Hnd. cbv zeta. destruct (tail_of_cases l1) as [[-> ->]|(l0&t&->&->)].
  { split; [by apply (chain_mid _ _ [] _ _ Hc)|intros y; by left]. }
  destruct (Z.eqb_spec t NULL) as [->|_].
  { destruct (chain_in _ _ _ NULL Hc); [set_solver|done]. }
  cbn [negb]. rewrite <- !(assoc_L (++)) in *. cbn [app] in *.
  split; [by apply chain_unlink|]. apply relinked_alter. set_solver.
Qed.

(** Taking an inner node out leaves the tail. *)
Lemma tail_of_unlinked l1 c l2 : l2 <> [] -> tail_of (l1 ++ c :: l2) = tail_of (l1 ++ l2).
Proof.
  intros Hn. destruct (tail_of_cases l2) as [[-> _]|(l0&t&->&_)]; [done|]. rewrite !(app_assoc _ _ [t]), tail_of_app.
  replace (l1 ++ c :: l0 ++ [t]) with ((l1 ++ c :: l0) ++ [t]) by by rewrite <- (assoc_L (++)). apply tail_of_app.
Qed.

Lemma unlink_refines m q Q b l1 c l2 :
  lanes_rep m q Q -> (b < 256)%nat -> Q b = l1 ++ c :: l2 ->
  let '(m', q') := unlink m q b (tail_of l1) c in
  lanes_rep m' q' (upd Q b (l1 ++ l2)) /\ queue_len q' = queue_len q -32 1 /\
  relinked m m' (fun y => y ∈ Q b).
Proof.
  intros Hr Hb EQ. unfold unlink.
  pose proof (lr_heads _ _ _ Hr) as Hl1. pose proof (lr_tails _ _ _ Hr) as Hl2.
  pose proof (lr_chain _ _ _ Hr b Hb) as Hc. pose proof (lr_nodup _ _ _ Hr b Hb) as Hnd.
  rewrite EQ in Hc, Hnd. destruct (unlink_chain _ _ _ _ _ Hc Hnd) as [Hc' Hrl].
  set (nb := negb (tail_of l1 =? NULL)) in *.
  set (m' := if nb then alter _ _ m else m) in *.
  set (pr := if nb then (_, _) else _).
  assert (Epr : pr = (m', if nb then buckets_head q else <[b:=next (m !!! c)]> (buckets_head q)))
    by (unfold pr, m'; by destruct nb).
  rewrite Epr. clear pr Epr.
  assert (Hhd : (if nb then buckets_head q else <[b:=next (m !!! c)]> (buckets_head q)) !!! b
    = if nb then buckets_head q !!! b else next (m !!! c)) by (destruct nb; [done|]; by rewrite array_read_insert_eq by (rewrite Hl1; done)).
  rewrite Hhd, (lr_tail _ _ _ Hr b Hb), EQ.
  apply chain_head_null in Hc' as Hnull.
  assert (Hcl2 : c ∉ l2) by (apply NoDup_app in Hnd as (_&_&?%NoDup_cons); tauto).
  pose proof (tail_of_app_cons l1 c l2 Hcl2) as Htl.
  set (hz := (if nb then buckets_head q !!! b else next (m !!! c)) =? NULL).
  assert (Hz : if hz then l1 ++ l2 = [] else l1 ++ l2 <> [])
    by (unfold hz; destruct (Z.eqb_spec (if nb then buckets_head q !!! b else next (m !!! c)) NULL); tauto).
  clearbody hz. split_and!; [|done|done].
  eapply lanes_rep_update; eauto; simpl.
  - destruct nb; by rewrite ?length_insert.
  - destruct (_ =? tail_of _); by rewrite ?length_insert.
  - destruct hz; [unfold clear_bit; rewrite length_insert|]; apply Hr.
  - intros d Hd. destruct nb; [done|]. by rewrite array_read_insert_ne.
  - intros d Hd. destruct (_ =? tail_of _); [by rewrite array_read_insert_ne|done].
  - by rewrite Hhd.
  - destruct (Z.eqb_spec c (tail_of (l1 ++ c :: l2))) as [E|E].
    + rewrite array_read_insert_eq by (rewrite Hl2; done).
      apply Htl in E as ->. by rewrite app_nil_r.
    + rewrite (lr_tail _ _ _ Hr b Hb), EQ.
      apply tail_of_unlinked. intros ->. by destruct E; apply Htl.
  - intros d Hd. destruct hz.
    + rewrite read_clear_bit by (done || apply Hr). case_decide; [|done].
      rewrite bool_decide_false; [done|]. by intros [].
    + case_decide; [subst|done]. rewrite bool_decide_true by done.
      unfold read_bit. rewrite (lr_bit _ _ _ Hr b Hb), EQ. by destruct l1.
  - destruct hz; [apply clear_bit_range; [apply Hr|done|]|]; exact (lr_range _ _ _ Hr).
  - eapply sublist_NoDup; [exact Hnd|]. apply sublist_app; [done|by apply sublist_cons].
  - intros y Hy. left. rewrite EQ. set_solver.
  - intros y d Hd Hne Hy. eapply relinked_out; [done|]. intros Hy'. apply Hne.
    apply (lr_disj _ _ _ Hr d b y); try done. by rewrite EQ.
  - intros y Hy. erewrite relinked_priority by exact Hrl. apply Hr; [done|]. rewrite EQ. set_solver.
Qed.

(** What a cancel through the lanes does: it removes the first match in bucket
    order, FIFO order within the bucket. *)
Definition lane_cancel_spec (m : store) (Q : nat -> list ptr) (test : loom_task_t -> bool)
  (b0 : nat) (r : option ptr) (Q' : nat -> list ptr) : Prop :=
  match r with
  | None => Q' = Q /\ forall b x, (b0 <= b < 256)%nat -> x ∈ Q b -> test (m !!! x) = false
  | Some c => exists b l1 l2, (b0 <= b < 256)%nat /\ Q b = l1 ++ c :: l2 /\ test (m !!! c) = true /\
      (forall x, x ∈ l1 -> test (m !!! x) = false) /\
      (forall d x, (b0 <= d < b)%nat -> x ∈ Q d -> test (m !!! x) = false) /\
      Q' = upd Q b (l1 ++ l2)
  end.

Lemma cancel_walk_refines fuel m q Q test b0 :
  lanes_rep m q Q -> (256 <= b0 + fuel)%nat ->
  match cancel_walk fuel m q test b0 with
  | None => lane_cancel_spec m Q test b0 None Q
  | Some (c, (m', q')) => exists Q', lane_cancel_spec m Q test b0 (Some c) Q' /\
      lanes_rep m' q' Q' /\ queue_len q' = queue_len q -32 1 /\
      relinked m m' (fun y => exists b, (b < 256)%nat /\ y ∈ Q b)
  end.
Proof.
  intros Hr. revert b0. induction fuel as [|f IH]; intros b0 Hf; cbn [cancel_walk].
  { split; [done|]. lia. }
  change LOOMWORKS_PRIORITY_BUCKETS with 256%nat.
  destruct (Nat.ltb_spec b0 256) as [Hb|Hb]; [|split; [done|lia]].
  pose proof (chain_length _ _ _ (lr_chain _ _ _ Hr b0 Hb) (lr_nodup _ _ _ Hr b0 Hb)) as Hlen.
  pose proof (walk_bucket_spec (S (size m)) m test NULL _ _ (lr_chain _ _ _ Hr b0 Hb)
    ltac:(lia)) as Hw.
  destruct (walk_bucket _ _ _ _ _) as [[prev c]|].
  - destruct Hw as (l1&l2&EQ&Ht&Hno&->).
    replace (if decide (l1 = []) then NULL else tail_of l1) with (tail_of l1)
      by (case_decide; [by subst|done]).
    pose proof (unlink_refines m q Q b0 l1 c l2 Hr Hb EQ) as Hu.
    destruct (unlink m q b0 (tail_of l1) c) as [m' q'] eqn:Eu. destruct Hu as (?&?&Hrl).
    exists (upd Q b0 (l1 ++ l2)). split_and!; [|done|done|].
    + exists b0, l1, l2. split_and!; [lia|lia|done|done|done|lia|done].
    + intros y. destruct (Hrl y) as [|[? ?]]; [by left|right]. split; [by exists b0|done].
  - specialize (IH (S b0) ltac:(lia)). destruct (cancel_walk f m q test (S b0)) as [[c [m' q']]|].
    + destruct IH as (Q'&(b&l1&l2&?&?&?&?&Hlo&?)&?&?&?). exists Q'. split_and!; [|done..].
      exists b, l1, l2. split_and!; [lia|lia|done|done|done| |done].
      intros d x Hd Hx. destruct (decide (d = b0)) as [->|]; [by apply Hw|apply (Hlo d); auto; lia].
    + destruct IH as [_ Hno]. split; [done|]. intros b x Hb' Hx.
      destruct (decide (b = b0)) as [->|]; [by apply Hw|apply (Hno b); auto; lia].
Qed.

(** ** Property *)

(** C9. On every state that represents an assignment of FIFO queues to the 256
    priorities, the pointer-level lane operations implement the abstract lanes:
    enqueue appends the node to the queue of its priority; a bounded dequeue
    returns the oldest node of the numerically smallest non-empty priority
    when that priority is within the bound (and nothing otherwise), and
    [lane_has_priority] predicts exactly when it will; a cancel walk removes
    the first matching node in priority-then-FIFO order or reports that none
    matches.  Each keeps the head, tail, link and bitmap invariant and moves
    [queue_len] by exactly one. *)
Theorem lanes_simulation m q Q :
  lanes_rep m q Q ->
  (forall x b, is_Some (m !! x) -> x <> NULL -> priority (m !!! x) = Z.of_nat b ->
     (b < 256)%nat -> (forall c, (c < 256)%nat -> x ∉ Q c) ->
     let '(m', q') := loom_enqueue_unlocked m q x in
     lanes_rep m' q' (upd Q b (Q b ++ [x])) /\ queue_len q' = queue_len q +32 1) /\
  (forall mx,
     let '(r, (m', q')) := dequeue_lowest_priority_unlocked m q mx in
     (exists Q', lane_dequeue_spec Q mx r Q' /\ lanes_rep m' q' Q' /\
        queue_len q' = match r with Some _ => queue_len q -32 1 | None => queue_len q end) /\
     lane_has_priority q mx = bool_decide (is_Some r)) /\
  (forall test,
     match cancel_walk 256 m q test 0 with
     | None => lane_cancel_spec m Q test 0 None Q
     | Some (c, (m', q')) => exists Q', lane_cancel_spec m Q test 0 (Some c) Q' /\
         lanes_rep m' q' Q' /\ queue_len q' = queue_len q -32 1
     end).
Proof.
  intros Hr. split_and!.
  - intros x b H1 H2 H3 H4 H5. pose proof (lane_enqueue_refines m q Q x b Hr H1 H2 H3 H4 H5) as H.
    destruct (loom_enqueue_unlocked m q x). tauto.
  - intros mx. pose proof (lane_dequeue_refines m q Q mx Hr) as H.
    destruct (dequeue_lowest_priority_unlocked m q mx) as [r [m' q']] eqn:Ed.
    destruct H as (Q'&Hs&Hr'&He). split.
    + exists Q'. split_and!; [done|done|]. destruct r; naive_solver.
    + unfold lane_has_priority. revert Ed. unfold dequeue_lowest_priority_unlocked.
      destruct (first_bucket _ _ _) as [b|]; [|by intros [= <- _ _]].
      destruct (Nat.ltb_spec mx b), (Nat.leb_spec b mx); try lia; [by intros [= <- _ _]|].
      destruct (if _ =? NULL then _ else _). by intros [= <- _ _].
  - intros test. pose proof (cancel_walk_refines 256 m q Q test 0 Hr ltac:(lia)) as H.
    destruct (cancel_walk 256 m q test 0) as [[c [m' q']]|]; [|done].
    destruct H as (Q'&?&?&?&?). eauto.
Qed.

(** Two tasks of priorities 5 and 1, used to exercise the lanes. *)
Definition lanes_demo_store : store :=
  {[ 80 := mk_task 1 0 false 2 5 0 false false false 0 0 0;
     160 := mk_task 1 0 false 3 1 0 false false false 0 0 0 ]}.

Lemma lanes_simulation_witness :
  lane_has_priority lanes_init 255 = false /\
  let '(m1, q1) := loom_enqueue_unlocked lanes_demo_store lanes_init 80 in
  lanes_rep m1 q1 (upd (fun _ => []) 5 [80]) /\ queue_len q1 = 1 /\
  lane_has_priority q1 4 = false /\ lane_has_priority q1 5 = true.
Proof.
  destruct (lanes_simulation lanes_demo_store lanes_init (fun _ => []) (lanes_init_rep _))
    as (He&Hd&_).
  split; [reflexivity|].
  specialize (He 80 5%nat ltac:(by eexists) ltac:(discriminate) eq_refl ltac:(lia)
    ltac:(intros; apply not_elem_of_nil)).
  destruct (loom_enqueue_unlocked lanes_demo_store lanes_init 80) as [m1 q1] eqn:E.
  vm_compute in E. injection E as <- <-. destruct He as [Hr _].
  split; [exact Hr|]. split_and!; reflexivity.
Defined.
