(* ===== verification/CancelIndex.v ===== *)
(** * The cancel index (src/thread_pool.c: cancel_index_insert, _remove, _find, _claim).

    An open-addressing table from task ids to task nodes, with linear probing
    and tombstones.  A slot's key is 0 (EMPTY), 1 (TOMBSTONE) or id + 1.  Every
    claim and removal runs under the pool lock; insertions publish with one
    store.  The lemmas relate the table to the finite map of the ring tasks
    that can still be cancelled. *)
From S2P Require Import Prelude Types.

Record cancel_slot_t := mk_cancel_slot {
  cs_task_id : Z;          (* 0 EMPTY / 1 TOMBSTONE / id + 1 *)
  cs_task : ptr;
  cs_data : ptr;
  user_data_hash : Z;
}.

#[export] Instance cancel_slot_inhabited : Inhabited cancel_slot_t :=
  populate (mk_cancel_slot 0 0 0 0).

(** [cancel_slots] is empty and [cancel_cap] 0 when the pool has no ring. *)
Record cancel_index := mk_cancel_index {
  cancel_slots : list cancel_slot_t;
  cancel_cap : Z;
}.

(** [hash_ptr] on a 64-bit [uintptr_t]. *)
Definition hash_ptr (p : ptr) : Z :=
  let x := Z.lxor p (Z.shiftr p 16) in
  let x := u64 (x * 0x85ebca6b) in
  let x := Z.lxor x (Z.shiftr x 13) in
  let x := u64 (x * 0xc2b2ae35) in
  Z.lxor x (Z.shiftr x 16).

Definition cancel_index_hash (id cap : Z) : Z := Z.land id (cap - 1).

(** The bounded probe loop the four operations share: [body] is applied to
    slot [h], then to [(h + 1) & (cap - 1)], and so on, until it answers. *)
Fixpoint probe {A} (fuel : nat) (ci : cancel_index) (body : Z -> cancel_slot_t -> option A) (h : Z)
  : option A :=
  match fuel with
  | O => None
  | S f =>
      match body h (cancel_slots ci !!! Z.to_nat h) with
      | Some r => Some r
      | None => probe f ci body (Z.land (h + 1) (cancel_cap ci - 1))
      end
  end.

Definition no_index (ci : cancel_index) : bool :=
  (cancel_cap ci =? 0) || (length (cancel_slots ci) =? 0)%nat.

Definition write_slot (ci : cancel_index) (h : Z) (s : cancel_slot_t) : cancel_index :=
  mk_cancel_index (<[Z.to_nat h := s]> (cancel_slots ci)) (cancel_cap ci).

Definition cancel_index_insert (ci : cancel_index) (task : ptr) (t : loom_task_t) : cancel_index :=
  if no_index ci then ci
  else
    let want := task_id t +64 1 in
    match probe (Z.to_nat (cancel_cap ci)) ci
            (fun h s => if (cs_task_id s =? 0) || (cs_task_id s =? 1) then Some h else None)
            (cancel_index_hash want (cancel_cap ci)) with
    | Some h =>
        write_slot ci h (mk_cancel_slot want task (user_data t) (hash_ptr (user_data t)))
    | None => ci
    end.

Definition cancel_index_remove (ci : cancel_index) (t : loom_task_t) : cancel_index :=
  if no_index ci then ci
  else
    let want := task_id t +64 1 in
    match probe (Z.to_nat (cancel_cap ci)) ci
            (fun h s => if cs_task_id s =? want then Some (Some h)
                        else if cs_task_id s =? 0 then Some None else None)
            (cancel_index_hash want (cancel_cap ci)) with
    | Some (Some h) =>
        let s := cancel_slots ci !!! Z.to_nat h in
        write_slot ci h (mk_cancel_slot 1 (cs_task s) (cs_data s) (user_data_hash s))
    | _ => ci
    end.

Definition cancel_index_find (ci : cancel_index) (id : Z) : ptr :=
  if no_index ci then NULL
  else
    let want := id +64 1 in
    match probe (Z.to_nat (cancel_cap ci)) ci
            (fun h s => if cs_task_id s =? want then Some (Some (cs_task s))
                        else if cs_task_id s =? 0 then Some None else None)
            (cancel_index_hash want (cancel_cap ci)) with
    | Some (Some p) => p
    | _ => NULL
    end.

Definition cancel_index_claim (ci : cancel_index) (t : loom_task_t) : bool * cancel_index :=
  if no_index ci then (false, ci)
  else
    let want := task_id t +64 1 in
    match probe (Z.to_nat (cancel_cap ci)) ci
            (fun h s => if cs_task_id s =? want then Some (Some h)
                        else if cs_task_id s =? 0 then Some None else None)
            (cancel_index_hash want (cancel_cap ci)) with
    | Some (Some h) =>
        let s := cancel_slots ci !!! Z.to_nat h in
        (true, write_slot ci h (mk_cancel_slot 1 NULL (cs_data s) (user_data_hash s)))
    | _ => (false, ci)
    end.

(** The capacity loop of pool_init: the smallest power of two reached from 1 by
    doubling that is at least [need]. *)
Fixpoint grow_cap (fuel : nat) (cap need : Z) : Z :=
  match fuel with
  | O => cap
  | S f => if cap <? need then grow_cap f (Z.shiftl cap 1) need else cap
  end.

Definition cancel_cap_for (need : Z) : Z := grow_cap 64 1 need.

Definition cancel_index_init (cap : Z) : cancel_index :=
  mk_cancel_index (replicate (Z.to_nat cap) (mk_cancel_slot 0 0 0 0)) cap.

(** ** Abstraction and invariant *)

Definition live (s : cancel_slot_t) : bool := 2 <=? cs_task_id s.

(** The finite map the table stands for: task id to task node. *)
Definition index_map (ci : cancel_index) : gmap Z ptr :=
  list_to_map ((fun s => (cs_task_id s - 1, cs_task s)) <$> filter live (cancel_slots ci)).

(** The [i]-th slot a probe from key [k] visits. *)
Definition pslot (cap k : Z) (i : nat) : nat := Z.to_nat ((k + Z.of_nat i) mod cap).

Definition key_at (ci : cancel_index) (j : nat) : Z := cs_task_id (cancel_slots ci !!! j).

Record index_wf (ci : cancel_index) : Prop := {
  iw_pow2 : exists n, 0 <= n /\ cancel_cap ci = 2 ^ n;
  iw_len : length (cancel_slots ci) = Z.to_nat (cancel_cap ci);
  iw_nonneg : forall j, 0 <= key_at ci j;
  (* no EMPTY hole between a live key's hash and its slot *)
  iw_reach : forall j, (j < length (cancel_slots ci))%nat -> 2 <= key_at ci j ->
    exists i, (i < length (cancel_slots ci))%nat /\ pslot (cancel_cap ci) (key_at ci j) i = j /\
      forall i', (i' < i)%nat -> key_at ci (pslot (cancel_cap ci) (key_at ci j) i') <> 0;
  (* a key occupies at most one slot *)
  iw_uniq : forall j j', (j < length (cancel_slots ci))%nat -> (j' < length (cancel_slots ci))%nat ->
    2 <= key_at ci j -> key_at ci j = key_at ci j' -> j = j';
}.

(** Slot [j] carries task id [id]. *)
Definition indexed (ci : cancel_index) (id : Z) (j : nat) : Prop :=
  (j < length (cancel_slots ci))%nat /\ key_at ci j = id + 1.

Section Probing.
Context (ci : cancel_index) (Hwf : index_wf ci).
Abbreviation cap := (cancel_cap ci).
Abbreviation slots := (cancel_slots ci).

Lemma cap_pos : 0 < cap.
Proof. destruct (iw_pow2 _ Hwf) as (n & ? & ->). apply Z.pow_pos_nonneg; lia. Qed.

Lemma no_index_false : no_index ci = false.
Proof.
  pose proof cap_pos. unfold no_index. rewrite iw_len by done.
  rewrite (proj2 (Z.eqb_neq _ _)) by lia. simpl. apply Nat.eqb_neq. lia.
Qed.

Lemma hash_mod x : Z.land x (cap - 1) = x mod cap.
Proof. destruct (iw_pow2 _ Hwf) as (n & ? & ->). by apply land_pow2. Qed.

Lemma pslot_lt k i : (pslot cap k i < length slots)%nat.
Proof.
  rewrite iw_len by done. pose proof cap_pos. unfold pslot.
  pose proof (Z.mod_pos_bound (k + Z.of_nat i) cap). lia.
Qed.

Lemma pslot_cover k j :
  (j < length slots)%nat -> exists i, (i < length slots)%nat /\ pslot cap k i = j.
Proof.
  rewrite iw_len by done. intros Hj. pose proof cap_pos as Hc.
  pose proof (Z.mod_pos_bound (Z.of_nat j - k) cap Hc).
  exists (Z.to_nat ((Z.of_nat j - k) mod cap)). split; [lia|].
  unfold pslot. rewrite Z2Nat.id by lia. rewrite Zplus_mod_idemp_r.
  replace (k + (Z.of_nat j - k)) with (Z.of_nat j) by lia.
  rewrite Z.mod_small; lia.
Qed.

(** The probe loop answers with the first slot of the probe sequence at which
    its body does. *)
Lemma probe_step {A} (body : Z -> cancel_slot_t -> option A) k fuel i :
  probe (S fuel) ci body ((k + Z.of_nat i) mod cap) =
    match body (Z.of_nat (pslot cap k i)) (slots !!! pslot cap k i) with
    | Some r => Some r
    | None => probe fuel ci body ((k + Z.of_nat (S i)) mod cap)
    end.
Proof.
  pose proof cap_pos as Hc. pose proof (Z.mod_pos_bound (k + Z.of_nat i) cap Hc).
  cbn [probe]. unfold pslot at 1. rewrite Z2Nat.id by lia. fold (pslot cap k i).
  destruct (body _ _); [done|]. f_equal. rewrite hash_mod, Zplus_mod_idemp_l.
  f_equal. lia.
Qed.

Lemma probe_first {A} (body : Z -> cancel_slot_t -> option A) k fuel i0 :
  match probe fuel ci body ((k + Z.of_nat i0) mod cap) with
  | Some r => exists i, (i0 <= i < i0 + fuel)%nat /\
      body (Z.of_nat (pslot cap k i)) (slots !!! pslot cap k i) = Some r /\
      forall i', (i0 <= i' < i)%nat ->
        body (Z.of_nat (pslot cap k i')) (slots !!! pslot cap k i') = None
  | None => forall i', (i0 <= i' < i0 + fuel)%nat ->
        body (Z.of_nat (pslot cap k i')) (slots !!! pslot cap k i') = None
  end.
Proof.
  revert i0. induction fuel as [|f IH]; intros i0; [simpl; lia|].
  rewrite probe_step.
  destruct (body (Z.of_nat (pslot cap k i0)) _) as [r|] eqn:Hb.
  { exists i0. split; [lia|]. split; [done|lia]. }
  specialize (IH (S i0)). destruct (probe f _ _ _) as [r|].
  - destruct IH as (i & ? & ? & Hbefore). exists i. split; [lia|]. split; [done|].
    intros i' ?. destruct (decide (i' = i0)) as [->|]; [done|]. apply Hbefore; lia.
  - intros i' ?. destruct (decide (i' = i0)) as [->|]; [done|]. apply IH; lia.
Qed.

Lemma probe_hash {A} (body : Z -> cancel_slot_t -> option A) k :
  match probe (Z.to_nat cap) ci body (cancel_index_hash k cap) with
  | Some r => exists i, (i < length slots)%nat /\
      body (Z.of_nat (pslot cap k i)) (slots !!! pslot cap k i) = Some r /\
      forall i', (i' < i)%nat ->
        body (Z.of_nat (pslot cap k i')) (slots !!! pslot cap k i') = None
  | None => forall i', (i' < length slots)%nat ->
        body (Z.of_nat (pslot cap k i')) (slots !!! pslot cap k i') = None
  end.
Proof.
  unfold cancel_index_hash. rewrite hash_mod, (iw_len ci Hwf).
  pose proof (probe_first body k (Z.to_nat cap) 0) as H.
  rewrite Z.add_0_r in H. destruct (probe _ _ _ _) as [r|].
  - destruct H as (i & ? & ? & Hb). exists i. split; [lia|]. split; [done|].
    intros. apply Hb. lia.
  - intros. apply H. lia.
Qed.
End Probing.

(** ** Lookup *)

Lemma elem_of_filter_live (ci : cancel_index) s :
  s ∈ filter live (cancel_slots ci) <->
  exists j, (j < length (cancel_slots ci))%nat /\ cancel_slots ci !!! j = s /\ 2 <= key_at ci j.
Proof.
  rewrite list_elem_of_filter, list_elem_of_lookup. unfold live, key_at. split.
  - intros [Hl [j Hj]]. exists j. rewrite (list_lookup_total_correct _ _ _ Hj).
    apply Is_true_true, Z.leb_le in Hl. eauto using lookup_lt_Some.
  - intros (j & Hj & <- & Hk). split; [by apply Is_true_true, Z.leb_le|].
    exists j. by apply list_lookup_lookup_total_lt.
Qed.

Lemma nodup_keys_aux (l : list cancel_slot_t) :
  (forall j j', (j < length l)%nat -> (j' < length l)%nat ->
     2 <= cs_task_id (l !!! j) -> cs_task_id (l !!! j) = cs_task_id (l !!! j') -> j = j') ->
  NoDup ((fun s => (cs_task_id s - 1, cs_task s)) <$> filter live l).*1.
Proof.
  induction l as [|s l IH]; intros Hu; [constructor|].
  assert (Hl : NoDup ((fun s => (cs_task_id s - 1, cs_task s)) <$> filter live l).*1).
  { apply IH. intros j j' ?? Hk He. specialize (Hu (S j) (S j')). simpl in Hu.
    assert (S j = S j') by (apply Hu; [lia|lia|done|done]). lia. }
  rewrite filter_cons. case_decide as Hs; [|done]. simpl. apply NoDup_cons. split; [|done].
  rewrite <- list_fmap_compose, list_elem_of_fmap. intros (s' & He & [_ Hin]%list_elem_of_filter).
  apply list_elem_of_lookup in Hin as [j Hj]. simpl in He.
  apply Is_true_true, Z.leb_le in Hs. specialize (Hu 0%nat (S j)). simpl in Hu.
  rewrite (list_lookup_total_correct _ _ _ Hj) in Hu. apply lookup_lt_Some in Hj.
  assert (0%nat = S j) by (apply Hu; [lia|lia|done|lia]). lia.
Qed.

Lemma index_map_lookup ci id p :
  index_wf ci -> 1 <= id ->
  index_map ci !! id = Some p <-> exists j, indexed ci id j /\ cs_task (cancel_slots ci !!! j) = p.
Proof.
  intros Hwf Hid. unfold index_map.
  rewrite <- elem_of_list_to_map by (apply nodup_keys_aux, (iw_uniq _ Hwf)).
  rewrite list_elem_of_fmap. setoid_rewrite elem_of_filter_live. unfold indexed. split.
  - intros (s & He & j & ? & <- & ?). simplify_eq. exists j. unfold key_at in *.
    split; [split; [done|lia]|done].
  - intros (j & [? Hk] & <-). exists (cancel_slots ci !!! j). split.
    + unfold key_at in Hk. f_equal. lia.
    + exists j. split; [done|]. split; [done|lia].
Qed.

Lemma index_map_none ci id :
  index_wf ci -> 1 <= id ->
  index_map ci !! id = None <-> forall j, (j < length (cancel_slots ci))%nat -> key_at ci j <> id + 1.
Proof.
  intros Hwf Hid. rewrite eq_None_not_Some. split.
  - intros Hn j ??. apply Hn. eexists. apply index_map_lookup; [done..|].
    exists j. split; [by split|done].
  - intros Hn [p (j & [? ?] & ?)%index_map_lookup]; [|done..]. by eapply Hn.
Qed.

Lemma index_map_key_range ci id : is_Some (index_map ci !! id) -> 1 <= id.
Proof.
  intros [p Hp]. apply elem_of_list_to_map_2, list_elem_of_fmap in Hp as (s & He & Hs).
  apply elem_of_filter_live in Hs as (j & ? & <- & ?). simplify_eq. unfold key_at in *. lia.
Qed.

Lemma not_elem_of_dom_index ci id : ~ 1 <= id -> index_map ci !! id = None.
Proof. intros H. apply eq_None_not_Some. by intros ?%index_map_key_range. Qed.

(** The body of the three searching probes. *)
Definition search_body {A} (want : Z) (f : Z -> cancel_slot_t -> A) : Z -> cancel_slot_t -> option (option A) :=
  fun h s => if cs_task_id s =? want then Some (Some (f h s))
             else if cs_task_id s =? 0 then Some None else None.

(** A search finds the key exactly when some slot carries it, wherever
    tombstones and colliding keys lie in between. *)
Lemma search_hit {A} ci id j (f : Z -> cancel_slot_t -> A) :
  index_wf ci -> 1 <= id -> indexed ci id j ->
  probe (Z.to_nat (cancel_cap ci)) ci (search_body (id + 1) f)
    (cancel_index_hash (id + 1) (cancel_cap ci)) = Some (Some (f (Z.of_nat j) (cancel_slots ci !!! j))).
Proof.
  intros Hwf Hid [Hj Hk].
  destruct (iw_reach _ Hwf j Hj ltac:(lia)) as (i & Hi & Hij & Hb). rewrite Hk in Hij, Hb.
  pose proof (probe_hash ci Hwf (search_body (id + 1) f) (id + 1)) as H.
  destruct (probe _ _ _ _) as [r|].
  - destruct H as (i2 & Hi2 & Hr & Hbefore). unfold search_body in Hr.
    destruct (cs_task_id _ =? id + 1) eqn:E1 in Hr.
    + zbool. assert (pslot (cancel_cap ci) (id + 1) i2 = j) as Hsame.
      { apply (iw_uniq _ Hwf); unfold key_at in *; [by apply pslot_lt|done|lia|lia]. }
      rewrite Hsame in Hr. congruence.
    + destruct (cs_task_id _ =? 0) eqn:E2 in Hr; [|done]. zbool.
      destruct (decide (i2 < i)%nat) as [Hlt|]; [by apply Hb in Hlt|].
      destruct (decide (i2 = i)) as [->|].
      { rewrite Hij in *. unfold key_at in *. lia. }
      specialize (Hbefore i ltac:(lia)). unfold search_body in Hbefore.
      rewrite Hij in Hbefore. unfold key_at in Hk. rewrite Hk, Z.eqb_refl in Hbefore. done.
  - specialize (H i Hi). unfold search_body in H. rewrite Hij in H. unfold key_at in Hk.
    by rewrite Hk, Z.eqb_refl in H.
Qed.

Lemma search_miss {A} ci id (f : Z -> cancel_slot_t -> A) :
  index_wf ci -> 1 <= id -> index_map ci !! id = None ->
  forall r, probe (Z.to_nat (cancel_cap ci)) ci (search_body (id + 1) f)
    (cancel_index_hash (id + 1) (cancel_cap ci)) <> Some (Some r).
Proof.
  intros Hwf Hid Hn r. rewrite index_map_none in Hn by done.
  pose proof (probe_hash ci Hwf (search_body (id + 1) f) (id + 1)) as H.
  destruct (probe _ _ _ _) as [r'|]; [|done]. intros [= ->].
  destruct H as (i & Hi & Hr & _). unfold search_body in Hr.
  destruct (cs_task_id _ =? id + 1) eqn:E.
  - zbool. by eapply (Hn (pslot (cancel_cap ci) (id + 1) i)); [apply pslot_lt|].
  - by destruct (cs_task_id _ =? 0).
Qed.

(** ** Updates *)

Lemma length_write ci h s : length (cancel_slots (write_slot ci h s)) = length (cancel_slots ci).
Proof. apply length_insert. Qed.

Lemma key_at_write ci j s j' :
  (j < length (cancel_slots ci))%nat ->
  key_at (write_slot ci (Z.of_nat j) s) j' = if decide (j' = j) then cs_task_id s else key_at ci j'.
Proof.
  intros Hj. unfold key_at, write_slot. simpl. rewrite Nat2Z.id. case_decide; [subst|].
  - by rewrite array_read_insert_eq.
  - by rewrite array_read_insert_ne.
Qed.

(** Writing a slot keeps the table well formed when the new key is a tombstone,
    or a fresh key whose probe sequence has no EMPTY before the slot. *)
Lemma write_wf ci j s :
  index_wf ci -> (j < length (cancel_slots ci))%nat -> 0 < cs_task_id s ->
  (2 <= cs_task_id s ->
     (forall j', (j' < length (cancel_slots ci))%nat -> key_at ci j' <> cs_task_id s) /\
     exists i, (i < length (cancel_slots ci))%nat /\ pslot (cancel_cap ci) (cs_task_id s) i = j /\
       forall i', (i' < i)%nat -> key_at ci (pslot (cancel_cap ci) (cs_task_id s) i') <> 0) ->
  index_wf (write_slot ci (Z.of_nat j) s).
Proof.
  intros Hwf Hj H0 Hnew.
  pose proof (length_write ci (Z.of_nat j) s) as Hlen.
  split; [by apply Hwf| |..]; rewrite ?Hlen; [apply Hwf| | |]; cbn [write_slot cancel_cap].
  - intros j'. rewrite key_at_write by done. case_decide; [lia | by apply Hwf].
  - intros j' Hj' Hk. rewrite key_at_write in * by done.
    set (k := if decide (j' = j) then cs_task_id s else key_at ci j') in *.
    assert (exists i, (i < length (cancel_slots ci))%nat /\ pslot (cancel_cap ci) k i = j' /\
      forall i', (i' < i)%nat -> key_at ci (pslot (cancel_cap ci) k i') <> 0) as (i & ? & ? & Hb).
    { subst k. case_decide; [subst j'; by apply Hnew | by apply Hwf]. }
    clearbody k. exists i. split; [done|]. split; [done|]. intros i' Hi'.
    rewrite key_at_write by done. case_decide; [lia | by apply Hb].
  - intros j1 j2 H1 H2. rewrite !key_at_write by done. intros Hk He.
    destruct (decide (j1 = j)) as [->|], (decide (j2 = j)) as [->|]; [done|..].
    + destruct (Hnew Hk) as [Ha _]. by destruct (Ha j2 H2).
    + rewrite He in Hk. destruct (Hnew Hk) as [Ha _]. by destruct (Ha j1 H1).
    + by apply (iw_uniq _ Hwf).
Qed.

Lemma map_write ci j s id :
  index_wf ci -> index_wf (write_slot ci (Z.of_nat j) s) ->
  (j < length (cancel_slots ci))%nat -> 1 <= id -> key_at ci j <> id + 1 -> cs_task_id s <> id + 1 ->
  index_map (write_slot ci (Z.of_nat j) s) !! id = index_map ci !! id.
Proof.
  intros Hwf Hwf' Hj Hid Hk Hs. apply option_eq. intros p.
  rewrite !index_map_lookup by done. unfold indexed.
  pose proof (length_write ci (Z.of_nat j) s) as Hlen.
  assert (Htask : forall j', j' <> j -> cancel_slots (write_slot ci (Z.of_nat j) s) !!! j' = cancel_slots ci !!! j').
  { intros j' ?. unfold write_slot. simpl. rewrite Nat2Z.id. by apply array_read_insert_ne. }
  split; intros (j' & [? Hk'] & <-); exists j'; rewrite ?Hlen, ?key_at_write in * by done.
  - case_decide; [done|]. by rewrite Htask.
  - destruct (decide (j' = j)) as [->|]; [done|]. by rewrite Htask.
Qed.

(** Tombstoning the slot of [id] deletes [id] and nothing else. *)
Lemma tombstone_spec ci id j s :
  index_wf ci -> 1 <= id -> indexed ci id j -> cs_task_id s = 1 ->
  index_wf (write_slot ci (Z.of_nat j) s) /\
  index_map (write_slot ci (Z.of_nat j) s) = delete id (index_map ci).
Proof.
  intros Hwf Hid [Hj Hk] Hs.
  assert (Hwf' : index_wf (write_slot ci (Z.of_nat j) s)) by (apply write_wf; [done|done|lia|lia]).
  split; [done|]. apply map_eq. intros id'.
  destruct (decide (1 <= id')) as [Hid'|Hid'].
  2:{ rewrite (not_elem_of_dom_index _ _ Hid'), lookup_delete_ne by lia.
      by rewrite (not_elem_of_dom_index _ _ Hid'). }
  destruct (decide (id' = id)) as [->|].
  - rewrite lookup_delete_eq. apply index_map_none; [done..|]. intros j'.
    rewrite length_write, key_at_write by done. intros Hj'. case_decide; [lia|].
    intros He. destruct (iw_uniq _ Hwf j j'); [done..|lia|congruence|done].
  - rewrite lookup_delete_ne by done. apply map_write; [done..|lia|lia].
Qed.

(** Writing a fresh key into a free slot its probe sequence reaches adds it. *)
Lemma fresh_spec ci id j s :
  index_wf ci -> 1 <= id -> index_map ci !! id = None ->
  (j < length (cancel_slots ci))%nat -> key_at ci j < 2 -> cs_task_id s = id + 1 ->
  (exists i, (i < length (cancel_slots ci))%nat /\ pslot (cancel_cap ci) (id + 1) i = j /\
     forall i', (i' < i)%nat -> key_at ci (pslot (cancel_cap ci) (id + 1) i') <> 0) ->
  index_wf (write_slot ci (Z.of_nat j) s) /\
  index_map (write_slot ci (Z.of_nat j) s) = <[id := cs_task s]> (index_map ci).
Proof.
  intros Hwf Hid Hn Hj Hfree Hs Hreach. rewrite index_map_none in Hn by done.
  assert (Hwf' : index_wf (write_slot ci (Z.of_nat j) s)).
  { apply write_wf; [done|done|lia|]. rewrite Hs. done. }
  split; [done|]. apply map_eq. intros id'.
  destruct (decide (1 <= id')) as [Hid'|Hid'].
  2:{ rewrite (not_elem_of_dom_index _ _ Hid'), lookup_insert_ne by lia.
      by rewrite (not_elem_of_dom_index _ _ Hid'). }
  destruct (decide (id' = id)) as [->|].
  - rewrite lookup_insert_eq. apply index_map_lookup; [done..|]. exists j. split.
    + split; [by rewrite length_write|]. rewrite key_at_write by done. by rewrite decide_True.
    + unfold write_slot. simpl. rewrite Nat2Z.id. by rewrite array_read_insert_eq.
  - rewrite lookup_insert_ne by done. apply map_write; [done..|lia|lia].
Qed.

(** While fewer ids are live than there are slots, some slot is free. *)
Lemma free_slot ci :
  index_wf ci -> Z.of_nat (size (index_map ci)) < cancel_cap ci ->
  exists j, (j < length (cancel_slots ci))%nat /\ key_at ci j < 2.
Proof.
  intros Hwf Hsz. unfold index_map in Hsz.
  rewrite map_size_list_to_map in Hsz by (apply nodup_keys_aux, (iw_uniq _ Hwf)).
  rewrite length_fmap in Hsz. pose proof (iw_len _ Hwf) as Hlen.
  destruct (decide (Forall (fun s => live s) (cancel_slots ci))) as [Hall|Hex].
  { rewrite (filter_all _ _ Hall) in Hsz. lia. }
  apply not_Forall_Exists in Hex; [|intros; apply _].
  apply Exists_exists in Hex as (s & [j Hj]%list_elem_of_lookup & Hs).
  exists j. split; [by eapply lookup_lt_Some|]. unfold key_at.
  rewrite (list_lookup_total_correct _ _ _ Hj). apply Z.nle_gt. intros Hle.
  apply Hs, Is_true_true, Z.leb_le, Hle.
Qed.

(** ** The operations implement a finite map *)

Section Operations.
Context (ci : cancel_index) (t : loom_task_t).
Context (Hwf : index_wf ci) (Hid : 1 <= task_id t < 2 ^ 64 - 1).

Lemma want_key : task_id t +64 1 = task_id t + 1.
Proof. apply u64_small. lia. Qed.

Lemma cancel_index_find_spec :
  cancel_index_find ci (task_id t) = default NULL (index_map ci !! task_id t).
Proof.
  unfold cancel_index_find. rewrite no_index_false, want_key by done.
  destruct (index_map ci !! task_id t) as [p|] eqn:E.
  - apply index_map_lookup in E as (j & Hj & <-); [|done|lia].
    pose proof (search_hit ci (task_id t) j (fun _ s => cs_task s) Hwf ltac:(lia) Hj) as Hp.
    unfold search_body in Hp. by rewrite Hp.
  - pose proof (search_miss ci (task_id t) (fun _ s => cs_task s) Hwf ltac:(lia) E) as Hp.
    unfold search_body in Hp. destruct (probe _ _ _ _) as [[p|]|]; [by destruct (Hp p)|done..].
Qed.

Lemma cancel_index_remove_spec :
  index_wf (cancel_index_remove ci t) /\
  index_map (cancel_index_remove ci t) = delete (task_id t) (index_map ci).
Proof.
  unfold cancel_index_remove. rewrite no_index_false, want_key by done.
  destruct (index_map ci !! task_id t) as [p|] eqn:E.
  - apply index_map_lookup in E as (j & Hj & _); [|done|lia].
    pose proof (search_hit ci (task_id t) j (fun h _ => h) Hwf ltac:(lia) Hj) as Hp.
    unfold search_body in Hp. rewrite Hp. by apply tombstone_spec; [|lia|..].
  - pose proof (search_miss ci (task_id t) (fun h _ => h) Hwf ltac:(lia) E) as Hp.
    unfold search_body in Hp. rewrite delete_id by done.
    destruct (probe _ _ _ _) as [[p|]|]; [by destruct (Hp p)|done..].
Qed.

Lemma cancel_index_claim_spec :
  index_wf (cancel_index_claim ci t).2 /\
  (cancel_index_claim ci t).1 = bool_decide (is_Some (index_map ci !! task_id t)) /\
  index_map (cancel_index_claim ci t).2 = delete (task_id t) (index_map ci).
Proof.
  unfold cancel_index_claim. rewrite no_index_false, want_key by done.
  destruct (index_map ci !! task_id t) as [p|] eqn:E.
  - apply index_map_lookup in E as (j & Hj & _); [|done|lia].
    pose proof (search_hit ci (task_id t) j (fun h _ => h) Hwf ltac:(lia) Hj) as Hp.
    unfold search_body in Hp. rewrite Hp. cbn [fst snd].
    destruct (tombstone_spec ci (task_id t) j
      (mk_cancel_slot 1 NULL (cs_data (cancel_slots ci !!! Z.to_nat (Z.of_nat j)))
        (user_data_hash (cancel_slots ci !!! Z.to_nat (Z.of_nat j)))) Hwf ltac:(lia) Hj eq_refl).
    split; [done|]. split; [|done]. symmetry. apply bool_decide_eq_true_2. eauto.
  - pose proof (search_miss ci (task_id t) (fun h _ => h) Hwf ltac:(lia) E) as Hp.
    unfold search_body in Hp. rewrite delete_id by done. rewrite bool_decide_eq_false_2 by (by intros [? ?]).
    destruct (probe _ _ _ _) as [[p|]|]; [by destruct (Hp p)|done..].
Qed.

Lemma cancel_index_insert_spec p :
  index_map ci !! task_id t = None -> Z.of_nat (size (index_map ci)) < cancel_cap ci ->
  index_wf (cancel_index_insert ci p t) /\
  index_map (cancel_index_insert ci p t) = <[task_id t := p]> (index_map ci).
Proof.
  intros Hn Hsz. unfold cancel_index_insert. rewrite no_index_false, want_key by done.
  match goal with |- context [probe _ _ ?b _] => pose proof (probe_hash ci Hwf b (task_id t + 1)) as Hp end.
  destruct (probe _ _ _ _) as [h|].
  - destruct Hp as (i & Hi & Hb & Hbefore).
    destruct (_ || _) eqn:Hfree in Hb; [|done]. injection Hb as <-.
    apply fresh_spec; [done|lia|done|by apply pslot_lt| |done|].
    + unfold key_at. apply orb_prop in Hfree as [?|?]; zbool; lia.
    + exists i. split; [done|]. split; [done|]. intros i' Hi' H0.
      specialize (Hbefore i' Hi'). unfold key_at in H0. by rewrite H0 in Hbefore.
  - exfalso. destruct (free_slot ci Hwf Hsz) as (j & Hj & Hfree).
    destruct (pslot_cover ci Hwf (task_id t + 1) j Hj) as (i & Hi & <-).
    specialize (Hp i Hi). unfold key_at in Hfree. destruct (_ || _) eqn:E in Hp; [done|].
    pose proof (iw_nonneg _ Hwf (pslot (cancel_cap ci) (task_id t + 1) i)).
    unfold key_at in *. zbool. lia.
Qed.
End Operations.

(** ** Capacity and initial state *)

Lemma grow_cap_spec fuel k need :
  0 <= k -> need <= 2 ^ (k + Z.of_nat fuel) ->
  exists n, 0 <= n /\ grow_cap fuel (2 ^ k) need = 2 ^ n /\ need <= 2 ^ n.
Proof.
  revert k. induction fuel as [|f IH]; intros k Hk Hn; cbn [grow_cap].
  { exists k. rewrite Z.add_0_r in Hn. done. }
  case_if; zbool; [|by exists k].
  rewrite Z.shiftl_mul_pow2, <- Z.pow_add_r by lia. apply IH; [lia|].
  by replace (k + 1 + Z.of_nat f) with (k + Z.of_nat (S f)) by lia.
Qed.

Lemma cancel_cap_for_spec need :
  need <= 2 ^ 63 -> exists n, 0 <= n /\ cancel_cap_for need = 2 ^ n /\ need <= 2 ^ n.
Proof.
  intros. apply (grow_cap_spec 64 0); [lia|]. etrans; [done|]. by apply Z.pow_le_mono_r.
Qed.

Lemma key_at_init cap j : key_at (cancel_index_init cap) j = 0.
Proof.
  unfold key_at, cancel_index_init. simpl. rewrite list_lookup_total_alt.
  destruct (replicate _ _ !! j) as [s|] eqn:E; [|done].
  by apply lookup_replicate in E as [-> _].
Qed.

Lemma cancel_index_init_wf cap :
  (exists n, 0 <= n /\ cap = 2 ^ n) -> index_wf (cancel_index_init cap).
Proof.
  intros Hc. split; [done|apply length_replicate|..]; intros *; rewrite ?key_at_init; lia.
Qed.

Lemma index_map_init cap : index_map (cancel_index_init cap) = ∅.
Proof.
  unfold index_map, cancel_index_init. simpl.
  induction (Z.to_nat cap) as [|n IH]; [done|]. simpl. rewrite filter_cons_False; [done|]. by intros [].
Qed.

(** ** Histories *)

Inductive index_op :=
  | OpInsert (task : ptr) (t : loom_task_t)
  | OpRemove (t : loom_task_t)
  | OpClaim (t : loom_task_t)
  | OpFind (t : loom_task_t).

Definition op_task (o : index_op) : loom_task_t :=
  match o with OpInsert _ t | OpRemove t | OpClaim t | OpFind t => t end.

Inductive index_answer := ADone | AClaimed (won : bool) | AFound (task : ptr).

(** One operation on the table. *)
Definition index_exec (ci : cancel_index) (o : index_op) : index_answer * cancel_index :=
  match o with
  | OpInsert p t => (ADone, cancel_index_insert ci p t)
  | OpRemove t => (ADone, cancel_index_remove ci t)
  | OpClaim t => let '(won, ci') := cancel_index_claim ci t in (AClaimed won, ci')
  | OpFind t => (AFound (cancel_index_find ci (task_id t)), ci)
  end.

(** The same operation on the finite map.  The answer is [None] when the caller
    breaks the contract: an id out of range, a second insertion of a live id,
    or more live ids than the pool sized the index for. *)
Definition index_spec (cap : Z) (m : gmap Z ptr) (o : index_op)
  : option (index_answer * gmap Z ptr) :=
  let id := task_id (op_task o) in
  if bool_decide (1 <= id < 2 ^ 64 - 1) then
    match o with
    | OpInsert p t =>
        if bool_decide (m !! id = None /\ Z.of_nat (size m) < cap) then Some (ADone, <[id := p]> m)
        else None
    | OpRemove t => Some (ADone, delete id m)
    | OpClaim t => Some (AClaimed (bool_decide (is_Some (m !! id))), delete id m)
    | OpFind t => Some (AFound (default NULL (m !! id)), m)
    end
  else None.

Fixpoint index_run (ci : cancel_index) (os : list index_op) : list index_answer :=
  match os with
  | [] => []
  | o :: os => let '(a, ci') := index_exec ci o in a :: index_run ci' os
  end.

Fixpoint index_spec_run (cap : Z) (m : gmap Z ptr) (os : list index_op) : option (list index_answer) :=
  match os with
  | [] => Some []
  | o :: os =>
      '(a, m') ← index_spec cap m o;
      answers ← index_spec_run cap m' os;
      Some (a :: answers)
  end.

Lemma index_exec_refines ci o a m' :
  index_wf ci -> index_spec (cancel_cap ci) (index_map ci) o = Some (a, m') ->
  let '(a', ci') := index_exec ci o in
  a' = a /\ index_wf ci' /\ cancel_cap ci' = cancel_cap ci /\ index_map ci' = m'.
Proof.
  intros Hwf. unfold index_spec. case_bool_decide as Hid; [|done]. destruct o as [p t|t|t|t]; simpl in *.
  - case_bool_decide as Hc; [|done]. destruct Hc. intros [= <- <-].
    destruct (cancel_index_insert_spec ci t Hwf Hid p); [done..|]. split_and!; [done..| |done].
    unfold cancel_index_insert. destruct (no_index ci); [done|]. by destruct (probe _ _ _ _).
  - intros [= <- <-]. destruct (cancel_index_remove_spec ci t Hwf Hid). split_and!; [done..| |done].
    unfold cancel_index_remove. destruct (no_index ci); [done|]. by destruct (probe _ _ _ _) as [[]|].
  - intros [= <- <-]. destruct (cancel_index_claim_spec ci t Hwf Hid) as (? & Hw & ?).
    assert (cancel_cap (cancel_index_claim ci t).2 = cancel_cap ci).
    { unfold cancel_index_claim. destruct (no_index ci); [done|]. by destruct (probe _ _ _ _) as [[]|]. }
    destruct (cancel_index_claim ci t). simpl in *. subst. done.
  - intros [= <- <-]. by rewrite (cancel_index_find_spec ci t Hwf Hid).
Qed.

Lemma index_run_refines os ci answers :
  index_wf ci -> index_spec_run (cancel_cap ci) (index_map ci) os = Some answers ->
  index_run ci os = answers.
Proof.
  revert ci answers. induction os as [|o os IH]; intros ci answers Hwf; simpl; [by intros [= <-]|].
  destruct (index_spec _ _ o) as [[a m']|] eqn:Es; [|done]. simpl.
  pose proof (index_exec_refines ci o a m' Hwf Es) as H.
  destruct (index_exec ci o) as [a' ci']. destruct H as (-> & Hwf' & Hc & <-). rewrite <- Hc.
  destruct (index_spec_run _ _ os) eqn:Er; [|done]. simpl. intros [= <-].
  f_equal. by apply IH.
Qed.

(** ** Properties *)

(** C10. The cancel index is a finite map: for the capacity pool_init computes,
    every history of insertions, removals, claims and lookups that respects
    the pool's contract (fresh 64-bit ids, at most [cap] of them live) gets
    exactly the answers of the map from task id to node.  In particular, a
    tombstone never hides a colliding entry, an id is claimed at most once,
    and no probe of a saturated table loops. *)
Theorem cancel_index_refines_map need os answers :
  need <= 2 ^ 63 ->
  index_spec_run (cancel_cap_for need) ∅ os = Some answers ->
  index_run (cancel_index_init (cancel_cap_for need)) os = answers.
Proof.
  intros Hneed Hs. destruct (cancel_cap_for_spec need Hneed) as (n & ? & Hc & _).
  apply index_run_refines; [apply cancel_index_init_wf; eauto|].
  by rewrite index_map_init.
Qed.

Definition demo_task (id : Z) : loom_task_t := mk_task 1 7 false id 5 0 false false false 0 0 0.

(** Ids 2, 6 and 10 collide in a table of four slots; the middle one is removed
    and the last one is still found, then claimed once. *)
Lemma cancel_index_refines_map_witness :
  cancel_cap_for 4 = 4 /\
  index_run (cancel_index_init (cancel_cap_for 4))
    [OpInsert 80 (demo_task 2); OpInsert 160 (demo_task 6); OpInsert 240 (demo_task 10);
     OpRemove (demo_task 6); OpFind (demo_task 10); OpClaim (demo_task 10); OpClaim (demo_task 10)] =
  [ADone; ADone; ADone; ADone; AFound 240; AClaimed true; AClaimed false].
Proof.
  split; [reflexivity|].
  apply (cancel_index_refines_map 4); [lia|]. vm_compute. reflexivity.
Defined.

(** ** Unlocked insertion

    ring_try_enqueue calls cancel_index_insert without the pool lock, and the
    slot is taken with a plain load followed by a plain store (no
    compare-and-swap).  The two halves as separate steps: *)

Definition insert_pick (ci : cancel_index) (t : loom_task_t) : option Z :=
  let want := task_id t +64 1 in
  probe (Z.to_nat (cancel_cap ci)) ci
    (fun h s => if (cs_task_id s =? 0) || (cs_task_id s =? 1) then Some h else None)
    (cancel_index_hash want (cancel_cap ci)).

Definition insert_store (ci : cancel_index) (task : ptr) (t : loom_task_t) (h : Z) : cancel_index :=
  write_slot ci h (mk_cancel_slot (task_id t +64 1) task (user_data t) (hash_ptr (user_data t))).

Lemma insert_two_steps ci p t :
  no_index ci = false ->
  cancel_index_insert ci p t =
    match insert_pick ci t with Some h => insert_store ci p t h | None => ci end.
Proof. intros Hn. unfold cancel_index_insert, insert_pick. by rewrite Hn. Qed.

(** Two producers whose probes pick the same free slot before either
    stores: whatever the order of the two stores, the table ends up as if only
    the last task had been inserted, and the first one's id is not found by any
    later cancel although its node sits in the ring. *)
Theorem unlocked_insert_loses_entry ci p1 t1 p2 t2 h :
  index_wf ci ->
  1 <= task_id t1 < 2 ^ 64 - 1 -> 1 <= task_id t2 < 2 ^ 64 - 1 -> task_id t1 <> task_id t2 ->
  index_map ci !! task_id t1 = None -> index_map ci !! task_id t2 = None ->
  Z.of_nat (size (index_map ci)) < cancel_cap ci ->
  insert_pick ci t1 = Some h -> insert_pick ci t2 = Some h ->
  let ci' := insert_store (insert_store ci p1 t1 h) p2 t2 h in
  ci' = cancel_index_insert ci p2 t2 /\ cancel_index_find ci' (task_id t1) = NULL.
Proof.
  intros Hwf Hid1 Hid2 Hne Hn1 Hn2 Hsz Hp1 Hp2 ci'.
  assert (ci' = cancel_index_insert ci p2 t2) as ->.
  { rewrite insert_two_steps by (by apply no_index_false). rewrite Hp2.
    unfold ci', insert_store, write_slot. simpl. by rewrite list_insert_insert_eq. }
  split; [done|]. destruct (cancel_index_insert_spec ci t2 Hwf Hid2 p2 Hn2 Hsz) as [Hwf' Hm].
  rewrite (cancel_index_find_spec _ t1 Hwf' Hid1), Hm, lookup_insert_ne by done.
  by rewrite Hn1.
Qed.

(** Slot 3 is held by id 2; ids 6 and 3 both settle on slot 0 of four. *)
Lemma unlocked_insert_loses_entry_witness :
  let ci := cancel_index_insert (cancel_index_init 4) 80 (demo_task 2) in
  insert_pick ci (demo_task 6) = Some 0 /\ insert_pick ci (demo_task 3) = Some 0 /\
  cancel_index_find (insert_store (insert_store ci 160 (demo_task 6) 0) 240 (demo_task 3) 0) 6 = NULL.
Proof.
  split; [reflexivity|]. split; [reflexivity|].
  assert (Hwf : index_wf (cancel_index_insert (cancel_index_init 4) 80 (demo_task 2))).
  { apply cancel_index_insert_spec; [|by split..|reflexivity|reflexivity].
    apply cancel_index_init_wf. by exists 2. }
  apply (unlocked_insert_loses_entry _ 160 (demo_task 6) 240 (demo_task 3) 0 Hwf);
    by vm_compute.
Defined.
