(* ===== verification/Ring.v ===== *)
(** * The Vyukov ring (src/thread_pool.c: ring_try_enqueue, ring_bulk_try_dequeue,
    ring_has_work, and the ring part of pool_init).

    The NORMAL-priority fast path.  Positions are 64-bit counters; a cell's
    [seq] says which position it serves and whether it is full.  This file gives
    the operations as they run when no other thread moves the counters between
    a load and its compare-and-swap, with the 64-bit wrap-around; RingConc.v
    interleaves their atomic steps. *)
From S2P Require Import Prelude Types CancelIndex.

Record ring_cell_t := mk_cell { seq : Z; cell_task : ptr }.

#[export] Instance ring_cell_inhabited : Inhabited ring_cell_t := populate (mk_cell 0 0).

Record ring_t := mk_ring {
  ring : list ring_cell_t;
  ring_size : Z;
  ring_mask : Z;
  ring_head : Z;
  ring_tail : Z;
  ring_count : Z;         (* _Atomic uint32_t *)
}.

(** next_pow2_u64 on a 32-bit argument. *)
Definition next_pow2_u64 (v : Z) : Z :=
  let n := v in
  let n := Z.lor n (Z.shiftr n 1) in
  let n := Z.lor n (Z.shiftr n 2) in
  let n := Z.lor n (Z.shiftr n 4) in
  let n := Z.lor n (Z.shiftr n 8) in
  let n := Z.lor n (Z.shiftr n 16) in
  let n := Z.lor n (Z.shiftr n 32) in
  n +64 1.

(** The capacity clamp and ring sizing of pool_init. *)
Definition clamp_capacity (queue_capacity : Z) : Z :=
  if LOOMWORKS_MAX_QUEUE_CAPACITY <? queue_capacity then LOOMWORKS_MAX_QUEUE_CAPACITY
  else queue_capacity.

Definition ring_size_for (queue_capacity : Z) : Z :=
  if queue_capacity =? 0 then LOOMWORKS_RING_DEFAULT_SLOTS else next_pow2_u64 queue_capacity.

Definition cancel_need (size worker_count : Z) : Z := size + worker_count * LOOMWORKS_DEQUE_CAPACITY.

Definition ring_init (size : Z) : ring_t :=
  mk_ring ((fun i => mk_cell (Z.of_nat i) NULL) <$> List.seq 0 (Z.to_nat size)) size (size - 1) 0 0 0.

Definition cell_at (r : ring_t) (pos : Z) : ring_cell_t := ring r !!! Z.to_nat (Z.land pos (ring_mask r)).

Definition write_cell (r : ring_t) (pos : Z) (c : ring_cell_t) : list ring_cell_t :=
  <[Z.to_nat (Z.land pos (ring_mask r)) := c]> (ring r).

(** The task is stored, then indexed, then published. *)
Definition ring_try_enqueue (r : ring_t) (ci : cancel_index) (task : ptr) (t : loom_task_t)
  : bool * (ring_t * cancel_index) :=
  let tail := ring_tail r in
  if seq (cell_at r tail) =? tail then
    let ci' := cancel_index_insert ci task t in
    (true, (mk_ring (write_cell r tail (mk_cell (tail +64 1) task)) (ring_size r) (ring_mask r)
              (ring_head r) (tail +64 1) (ring_count r +32 1), ci'))
  else (false, (r, ci)).

(** The scan of ring_bulk_try_dequeue: [out[n], out[n+1], ...]. *)
Fixpoint ring_scan (fuel : nat) (r : ring_t) (head n : Z) : list ptr :=
  match fuel with
  | O => []
  | S f =>
      let pos := head +64 n in
      if seq (cell_at r pos) =? head +64 n +64 1
      then cell_task (cell_at r pos) :: ring_scan f r head (n + 1)
      else []
  end.

(** The release loop: cell [want + k] gets seq [want + k + ring_size]. *)
Fixpoint ring_release (fuel : nat) (r : ring_t) (want k : Z) : ring_t :=
  match fuel with
  | O => r
  | S f =>
      let pos := want +64 k in
      let r' := mk_ring (write_cell r pos (mk_cell (want +64 k +64 ring_size r) (cell_task (cell_at r pos))))
                  (ring_size r) (ring_mask r) (ring_head r) (ring_tail r) (ring_count r) in
      ring_release f r' want (k + 1)
  end.

(** A won compare-and-swap on ring_head for [n] cells, and what follows it. *)
Definition ring_claim (r : ring_t) (n : nat) : ring_t :=
  let want := ring_head r in
  let r1 := mk_ring (ring r) (ring_size r) (ring_mask r) (want +64 Z.of_nat n) (ring_tail r) (ring_count r) in
  let r2 := ring_release n r1 want 0 in
  mk_ring (ring r2) (ring_size r2) (ring_mask r2) (ring_head r2) (ring_tail r2)
    (ring_count r2 -32 Z.of_nat n).

Definition ring_bulk_try_dequeue (r : ring_t) (max : nat) : list ptr * ring_t :=
  let out := ring_scan max r (ring_head r) 0 in
  let n := length out in
  if (n =? 0)%nat then ([], r) else (out, ring_claim r n).

Definition ring_has_work (r : ring_t) : bool :=
  seq (cell_at r (ring_head r)) =? ring_head r +64 1.

(** ** Sizing *)

(** The top [w] of the bits [0..L] of [n] are set, and none above [L]. *)
Definition smeared (L w n : Z) : Prop :=
  forall i, 0 <= i -> (L < i -> Z.testbit n i = false) /\ (L - w < i <= L -> Z.testbit n i = true).

Lemma smear_step L w n :
  0 < w -> smeared L w n -> smeared L (2 * w) (Z.lor n (Z.shiftr n w)).
Proof.
  intros Hw Hs i Hi. rewrite Z.lor_spec, Z.shiftr_spec by done. split.
  - intros HL. rewrite (proj1 (Hs i Hi) HL). apply (Hs (i + w)); lia.
  - intros HL. destruct (decide (L - w < i)).
    + by rewrite (proj2 (Hs i Hi)) by lia.
    + rewrite (proj2 (Hs (i + w) ltac:(lia))) by lia. apply orb_true_r.
Qed.

(** next_pow2_u64 gives the smallest power of two strictly above its argument. *)
Lemma next_pow2_u64_spec v : 1 <= v < 2 ^ 32 -> next_pow2_u64 v = 2 ^ (Z.log2 v + 1).
Proof.
  intros Hv. pose proof (Z.log2_nonneg v). assert (Z.log2 v < 32) by (apply Z.log2_lt_pow2; lia).
  assert (Hsm : smeared (Z.log2 v) 1 v).
  { intros i Hi. split; [intros; apply Z.bits_above_log2; lia|].
    intros. replace i with (Z.log2 v) by lia. apply Z.bit_log2. lia. }
  do 6 (apply smear_step in Hsm; [|lia]). simpl in Hsm.
  unfold next_pow2_u64. set (n := Z.lor _ _) in *.
  assert (Hn : n = Z.ones (Z.log2 v + 1)).
  { apply Z.bits_inj'. intros i Hi. destruct (decide (i <= Z.log2 v)).
    - rewrite (proj2 (Hsm i Hi)), Z.ones_spec_low by lia. done.
    - rewrite (proj1 (Hsm i Hi)), Z.ones_spec_high by lia. done. }
  rewrite Hn, Z.ones_equiv. rewrite u64_small; [lia|].
  assert (2 ^ (Z.log2 v + 1) <= 2 ^ 32) by (apply Z.pow_le_mono_r; lia).
  assert (0 < 2 ^ (Z.log2 v + 1)) by (apply Z.pow_pos_nonneg; lia). lia.
Qed.

(** The ring of every pool is a power of two, at least 2, and holds the queue. *)
Lemma ring_size_for_spec cap :
  0 <= cap < 2 ^ 32 ->
  exists k, 1 <= k <= 32 /\ ring_size_for (clamp_capacity cap) = 2 ^ k /\
    clamp_capacity cap < 2 ^ k <= 2 * LOOMWORKS_MAX_QUEUE_CAPACITY.
Proof.
  intros Hc. unfold ring_size_for, clamp_capacity, LOOMWORKS_MAX_QUEUE_CAPACITY.
  set (c := if _ <? _ then _ else _).
  assert (Hb : 0 <= c <= 1048576) by (subst c; case_if; zbool; lia). clearbody c.
  destruct (c =? 0) eqn:E; zbool.
  { exists 12. subst c. done. }
  exists (Z.log2 c + 1). pose proof (Z.log2_nonneg c).
  destruct (Z.log2_spec c) as [_ Hlt]; [lia|].
  assert (Z.log2 c <= 20) by (etrans; [apply Z.log2_le_mono, Hb|done]).
  split; [lia|]. split; [apply next_pow2_u64_spec; lia|]. split; [done|].
  change (2 * (1024 * 1024)) with (2 ^ 21). apply Z.pow_le_mono_r; lia.
Qed.

(** ** The ring represents a bounded FIFO *)

Definition exp_seq (head len i : Z) : Z := if i <? len then u64 (head + i + 1) else u64 (head + i).

Record ring_shape (r : ring_t) : Prop := {
  rr_pow2 : exists k, 1 <= k <= 63 /\ ring_size r = 2 ^ k;
  rr_mask : ring_mask r = ring_size r - 1;
  rr_cells : length (ring r) = Z.to_nat (ring_size r);
}.

Record ring_rep (r : ring_t) (items : list ptr) : Prop := {
  rr_shape : ring_shape r;
  rr_bound : Z.of_nat (length items) <= ring_size r;
  rr_head : 0 <= ring_head r < 2 ^ 64;
  rr_tail : ring_tail r = u64 (ring_head r + Z.of_nat (length items));
  rr_count : ring_count r = u32 (Z.of_nat (length items));
  rr_seq : forall i, 0 <= i < ring_size r ->
    seq (cell_at r (ring_head r + i)) = exp_seq (ring_head r) (Z.of_nat (length items)) i;
  rr_task : forall (i : nat) p, items !! i = Some p -> cell_task (cell_at r (ring_head r + Z.of_nat i)) = p;
}.

Section Slots.
Context (r : ring_t) (Hr : ring_shape r).

Lemma slot_mod x : Z.land x (ring_mask r) = x mod ring_size r.
Proof.
  destruct (rr_pow2 _ Hr) as (k & ? & Hk). rewrite (rr_mask _ Hr), Hk. apply land_pow2. lia.
Qed.

Lemma size_bounds : 2 <= ring_size r <= 2 ^ 63.
Proof.
  destruct (rr_pow2 _ Hr) as (k & ? & ->). split; [|apply Z.pow_le_mono_r; lia].
  change 2 with (2 ^ 1) at 1. apply Z.pow_le_mono_r; lia.
Qed.

Lemma slot_u64 x : Z.land (u64 x) (ring_mask r) = Z.land x (ring_mask r).
Proof.
  rewrite !slot_mod. destruct (rr_pow2 _ Hr) as (k & ? & ->). apply u64_mod_pow2. lia.
Qed.

Lemma cell_at_u64 x : cell_at r (u64 x) = cell_at r x.
Proof. unfold cell_at. by rewrite slot_u64. Qed.

Lemma slot_lt x : (Z.to_nat (Z.land x (ring_mask r)) < length (ring r))%nat.
Proof.
  rewrite slot_mod, (rr_cells _ Hr). pose proof size_bounds.
  pose proof (Z.mod_pos_bound x (ring_size r)). lia.
Qed.

Lemma slot_turn x : Z.land (x + ring_size r) (ring_mask r) = Z.land x (ring_mask r).
Proof.
  rewrite !slot_mod. pose proof size_bounds.
  rewrite <- (Z.mul_1_l (ring_size r)) at 1. apply Z.mod_add. lia.
Qed.

Lemma slot_ne x y :
  0 < y - x < ring_size r ->
  Z.to_nat (Z.land x (ring_mask r)) <> Z.to_nat (Z.land y (ring_mask r)).
Proof.
  intros Hd He. rewrite !slot_mod in He. pose proof size_bounds.
  pose proof (Z.mod_pos_bound x (ring_size r)). pose proof (Z.mod_pos_bound y (ring_size r)).
  apply (mod_ne (ring_size r) x y Hd). lia.
Qed.

End Slots.

Section Checks.
Context (r : ring_t) (items : list ptr) (Hr : ring_rep r items).

(** What the consumer's and the producer's checks see. *)
Lemma full_check i :
  0 <= i <= ring_size r ->
  (seq (cell_at r (ring_head r + i)) =? u64 (ring_head r + i + 1)) = (i <? Z.of_nat (length items)).
Proof.
  intros Hi. pose proof (size_bounds r (rr_shape _ _ Hr)). pose proof (rr_bound _ _ Hr).
  destruct (decide (i = ring_size r)) as [->|].
  - unfold cell_at. rewrite (slot_turn r (rr_shape _ _ Hr)). fold (cell_at r (ring_head r)).
    rewrite <- (Z.add_0_r (ring_head r)) at 1. rewrite (rr_seq _ _ Hr) by lia.
    unfold exp_seq. rewrite Z.add_0_r. case_if; zbool.
    + rewrite (proj2 (Z.ltb_ge _ _)) by lia. apply Z.eqb_neq, u64_ne. lia.
    + rewrite (proj2 (Z.ltb_ge _ _)) by lia. apply Z.eqb_neq, u64_ne. lia.
  - rewrite (rr_seq _ _ Hr) by lia. unfold exp_seq. case_if; [by rewrite Z.eqb_refl|].
    apply Z.eqb_neq, u64_ne. lia.
Qed.

Lemma empty_check :
  (seq (cell_at r (ring_tail r)) =? ring_tail r) = (Z.of_nat (length items) <? ring_size r).
Proof.
  pose proof (size_bounds r (rr_shape _ _ Hr)). pose proof (rr_bound _ _ Hr).
  rewrite (rr_tail _ _ Hr), (cell_at_u64 r (rr_shape _ _ Hr)).
  destruct (Z.ltb_spec (Z.of_nat (length items)) (ring_size r)).
  - rewrite (rr_seq _ _ Hr) by lia. unfold exp_seq. rewrite Z.ltb_irrefl. apply Z.eqb_refl.
  - replace (Z.of_nat (length items)) with (ring_size r) by lia.
    unfold cell_at. rewrite (slot_turn r (rr_shape _ _ Hr)). fold (cell_at r (ring_head r)).
    rewrite <- (Z.add_0_r (ring_head r)) at 1. rewrite (rr_seq _ _ Hr) by lia.
    unfold exp_seq. rewrite (proj2 (Z.ltb_lt _ _)) by lia. rewrite Z.add_0_r.
    apply Z.eqb_neq, u64_ne. lia.
Qed.
End Checks.

(** ** The operations refine the bounded FIFO *)

Lemma enqueue_refines r ci p t items :
  ring_rep r items ->
  let '(ok, (r', ci')) := ring_try_enqueue r ci p t in
  ok = (Z.of_nat (length items) <? ring_size r) /\
  ring_rep r' (if ok then items ++ [p] else items) /\ ring_size r' = ring_size r /\
  ci' = if ok then cancel_index_insert ci p t else ci.
Proof.
  intros Hr. unfold ring_try_enqueue. rewrite (empty_check r items Hr).
  destruct (Z.ltb_spec (Z.of_nat (length items)) (ring_size r)) as [Hlt|]; [|done].
  split_and!; [done| |done|done]. pose proof (size_bounds r (rr_shape _ _ Hr)).
  assert (Hcell : forall i, 0 <= i < ring_size r ->
    cell_at (mk_ring (write_cell r (ring_tail r) (mk_cell (ring_tail r +64 1) p)) (ring_size r)
      (ring_mask r) (ring_head r) (ring_tail r +64 1) (ring_count r +32 1)) (ring_head r + i) =
    if decide (i = Z.of_nat (length items)) then mk_cell (ring_tail r +64 1) p
    else cell_at r (ring_head r + i)).
  { intros i Hi. unfold cell_at, write_cell. cbn [ring ring_mask].
    rewrite (rr_tail _ _ Hr), (slot_u64 _ (rr_shape _ _ Hr)). case_decide as E.
    - subst i. apply array_read_insert_eq, (slot_lt _ (rr_shape _ _ Hr)).
    - apply array_read_insert_ne.
      destruct (decide (i < Z.of_nat (length items))); [apply not_eq_sym|]; apply (slot_ne r (rr_shape _ _ Hr)); lia. }
  destruct Hr as [[? ? ?] ? ? Ht Hc Hs Htk]. split; [split|..]; cbn [ring ring_size ring_mask ring_head ring_tail ring_count];
    rewrite ?length_app; cbn [length]; try done.
  - unfold write_cell. by rewrite length_insert.
  - lia.
  - rewrite Ht, u64_add_l. f_equal. lia.
  - rewrite Hc, u32_add_l. f_equal. lia.
  - intros i Hi. rewrite Hcell by done. unfold exp_seq in *. case_decide; [subst i|rewrite Hs by done].
    + rewrite (proj2 (Z.ltb_lt _ _)) by lia. cbn [seq]. by rewrite Ht, u64_add_l.
    + destruct (Z.ltb_spec i (Z.of_nat (length items))), (Z.ltb_spec i (Z.of_nat (length items + 1)));
        done || lia.
  - intros i x Hx. assert (Hi : (i < length items + 1)%nat).
    { apply lookup_lt_Some in Hx. rewrite length_app in Hx. done. }
    rewrite Hcell by lia. apply lookup_snoc_Some in Hx as [[? Hx]|[-> <-]].
    + rewrite decide_False by lia. by apply Htk.
    + by rewrite decide_True.
Qed.

Lemma scan_spec r items fuel (n : nat) :
  ring_rep r items -> (n <= length items)%nat ->
  ring_scan fuel r (ring_head r) (Z.of_nat n) = take fuel (drop n items).
Proof.
  intros Hr. revert n. induction fuel as [|f IH]; intros n Hn; [done|]. cbn [ring_scan].
  pose proof (rr_bound _ _ Hr). rewrite (cell_at_u64 _ (rr_shape _ _ Hr)), u64_add_l.
  rewrite (full_check r items Hr) by lia.
  destruct (Z.ltb_spec (Z.of_nat n) (Z.of_nat (length items))) as [Hlt|].
  - destruct (lookup_lt_is_Some_2 items n) as [p Hp]; [lia|].
    rewrite (drop_S _ _ _ Hp). simpl. rewrite (rr_task _ _ Hr n p Hp). f_equal.
    replace (Z.of_nat n + 1) with (Z.of_nat (S n)) by lia. apply IH. lia.
  - rewrite drop_ge by lia. by rewrite take_nil.
Qed.

(** The release loop rewrites exactly the cells of positions [want + k ..]. *)
Lemma release_spec n r want k :
  ring_shape r -> 0 <= k -> k + Z.of_nat n <= ring_size r ->
  let r' := ring_release n r want k in
  ring_shape r' /\ ring_size r' = ring_size r /\ ring_head r' = ring_head r /\
  ring_tail r' = ring_tail r /\ ring_count r' = ring_count r /\
  forall i, 0 <= i < ring_size r ->
    cell_at r' (want + i) =
      mk_cell (if (k <=? i) && (i <? k + Z.of_nat n) then u64 (want + i + ring_size r)
               else seq (cell_at r (want + i))) (cell_task (cell_at r (want + i))).
Proof.
  revert r k. induction n as [|n IH]; intros r k Hs Hk Hn; cbn [ring_release].
  { split_and!; [done..|]. intros i _. rewrite Z.add_0_r.
    replace ((k <=? i) && (i <? k)) with false; [by destruct (cell_at _ _)|].
    destruct (Z.leb_spec k i), (Z.ltb_spec i k); done || lia. }
  set (r1 := mk_ring _ _ _ _ _ _).
  assert (Hs1 : ring_shape r1).
  { destruct Hs. split; [done..|]. simpl. unfold write_cell. by rewrite length_insert. }
  assert (Hcell : forall i, 0 <= i < ring_size r -> cell_at r1 (want + i) =
    if decide (i = k) then mk_cell (u64 (want + k + ring_size r)) (cell_task (cell_at r (want + i)))
    else cell_at r (want + i)).
  { intros i Hi. unfold r1, cell_at at 1, write_cell. cbn [ring ring_mask].
    rewrite (slot_u64 r Hs), (cell_at_u64 r Hs), u64_add_l. case_decide as E.
    - subst i. apply array_read_insert_eq, (slot_lt r Hs).
    - apply array_read_insert_ne. destruct (decide (i < k)); [apply not_eq_sym|]; apply (slot_ne r Hs); lia. }
  destruct (IH r1 (k + 1) Hs1 ltac:(lia) ltac:(simpl; lia)) as (? & ? & ? & ? & ? & Hc).
  split_and!; [done..|]. intros i Hi. rewrite (Hc i Hi), (Hcell i Hi). cbn [ring_size r1].
  case_decide as E; [subst i|]; cbn [seq cell_task]; f_equal.
  - rewrite (proj2 (Z.leb_gt (k + 1) k)) by lia.
    by rewrite Z.leb_refl, (proj2 (Z.ltb_lt k (k + Z.of_nat (S n)))) by lia.
  - replace (k <=? i) with (k + 1 <=? i) by (destruct (Z.leb_spec (k + 1) i), (Z.leb_spec k i); done || lia).
    by replace (k + Z.of_nat (S n)) with (k + 1 + Z.of_nat n) by lia.
Qed.

Lemma claim_refines r items n :
  ring_rep r items -> (n <= length items)%nat ->
  ring_rep (ring_claim r n) (drop n items) /\ ring_size (ring_claim r n) = ring_size r.
Proof.
  intros Hr Hn. pose proof (size_bounds r (rr_shape _ _ Hr)). pose proof (rr_bound _ _ Hr).
  unfold ring_claim. set (r1 := mk_ring (ring r) _ _ _ _ _).
  assert (Hs1 : ring_shape r1) by (destruct (rr_shape _ _ Hr); by split).
  destruct (release_spec n r1 (ring_head r) 0 Hs1 ltac:(lia) ltac:(simpl; lia))
    as (Hs2 & Hsz & Hh & Ht & Hc & Hcell).
  set (r2 := ring_release _ _ _ _) in *. cbn [ring_head ring_tail ring_count ring_size r1] in *.
  pose proof (eq_sym Hsz) as Hsz2.
  set (r3 := mk_ring _ _ _ _ _ _). split; [|done].
  assert (Hcell3 : forall i, 0 <= i < ring_size r ->
    cell_at r3 (u64 (ring_head r + Z.of_nat n) + i) =
    if i <? ring_size r - Z.of_nat n then cell_at r (ring_head r + (Z.of_nat n + i))
    else mk_cell (u64 (ring_head r + Z.of_nat n + i)) (cell_task (cell_at r (ring_head r + (Z.of_nat n + i - ring_size r))))).
  { intros i Hi. change (cell_at r3) with (cell_at r2). subst r3. clear Hsz Hh Ht Hc.
    rewrite <- (cell_at_u64 r2 Hs2), u64_add_l, (cell_at_u64 r2 Hs2), <- Z.add_assoc.
    destruct (Z.ltb_spec i (ring_size r - Z.of_nat n)).
    - rewrite Hcell by lia. rewrite (proj2 (Z.ltb_ge _ _)), andb_false_r by lia.
      change (cell_at r1) with (cell_at r). by destruct (cell_at r _).
    - set (j := Z.of_nat n + i - ring_size r).
      replace (ring_head r + (Z.of_nat n + i)) with (ring_head r + j + ring_size r) by lia.
      unfold cell_at at 1. rewrite Hsz2, (slot_turn r2 Hs2). fold (cell_at r2 (ring_head r + j)).
      rewrite Hcell by lia. rewrite (proj2 (Z.leb_le _ _)), (proj2 (Z.ltb_lt _ _)) by lia.
      by rewrite Hsz2. }
  destruct Hr as [? ? ? Htl Hcn Hseq Htask].
  split; cbn [r3 ring_size ring_mask ring_head ring_tail ring_count]; rewrite ?Hh, ?Ht, ?Hc, ?Hsz, ?length_drop.
  - by destruct Hs2.
  - lia.
  - apply u64_range.
  - rewrite Htl, u64_add_l. f_equal. lia.
  - rewrite Hcn, u32_sub_l. f_equal. lia.
  - intros i Hi. rewrite Hcell3 by done. unfold exp_seq in *.
    destruct (Z.ltb_spec i (ring_size r - Z.of_nat n)).
    + rewrite Hseq by lia. 
      destruct (Z.ltb_spec (Z.of_nat n + i) (Z.of_nat (length items))), (Z.ltb_spec i (Z.of_nat (length items - n)));
        try lia; rewrite <- ?Z.add_assoc, u64_add_l; f_equal; lia.
    + rewrite (proj2 (Z.ltb_ge _ _)) by lia. cbn [seq]. by rewrite u64_add_l.
  - intros i p Hp. rewrite lookup_drop in Hp. apply lookup_lt_Some in Hp as Hlt.
    rewrite Hcell3 by lia. rewrite (proj2 (Z.ltb_lt _ _)) by lia.
    rewrite <- Nat2Z.inj_add. by apply Htask.
Qed.

Lemma dequeue_refines r items mx :
  ring_rep r items ->
  let '(out, r') := ring_bulk_try_dequeue r mx in
  out = take mx items /\ ring_rep r' (drop mx items) /\ ring_size r' = ring_size r.
Proof.
  intros Hr. unfold ring_bulk_try_dequeue.
  pose proof (scan_spec r items mx 0 Hr ltac:(lia)) as Hscan. change (Z.of_nat 0) with 0 in Hscan.
  rewrite drop_0 in Hscan. rewrite Hscan.
  destruct (Nat.eqb_spec (length (take mx items)) 0) as [E|E].
  { apply nil_length_inv in E as Hn. split_and!; [by rewrite Hn| |done].
    rewrite <- (take_drop mx items), Hn in Hr. done. }
  rewrite length_take in *. 
  replace (drop mx items) with (drop (mx `min` length items) items).
  2:{ destruct (decide (mx <= length items)%nat); [by rewrite Nat.min_l|].
      rewrite !drop_ge by lia. done. }
  split; [done|]. apply claim_refines; [done|lia].
Qed.

Lemma has_work_spec r items : ring_rep r items -> ring_has_work r = bool_decide (items <> []).
Proof.
  intros Hr. unfold ring_has_work. pose proof (size_bounds r (rr_shape _ _ Hr)).
  pose proof (full_check r items Hr 0 ltac:(lia)) as H1. rewrite Z.add_0_r in H1. rewrite H1.
  by destruct items.
Qed.

Lemma ring_init_rep k : 1 <= k <= 63 -> ring_rep (ring_init (2 ^ k)) [].
Proof.
  intros Hk. assert (Hp : 2 <= 2 ^ k) by (change 2 with (2 ^ 1) at 1; apply Z.pow_le_mono_r; lia).
  split; [split|..]; simpl; try done; try lia.
  - by exists k.
  - by rewrite length_fmap, length_seq.
  - intros i Hi. unfold cell_at, exp_seq. simpl.
    rewrite land_pow2, Z.mod_small, list_lookup_total_alt, list_lookup_fmap, lookup_seq_lt by lia.
    rewrite (proj2 (Z.ltb_ge _ _)) by lia. simpl.
    rewrite u64_small by (split; [lia|]; apply Z.lt_le_trans with (2 ^ k); [lia|]; apply Z.pow_le_mono_r; lia).
    lia.
Qed.

(** ** Histories *)

Inductive ring_op := RingPut (task : ptr) (t : loom_task_t) | RingTake (max : nat) | RingPoll.
Inductive ring_answer := RPut (accepted : bool) | RTaken (out : list ptr) | RPolled (work : bool).

Definition ring_exec (s : ring_t * cancel_index) (o : ring_op) : ring_answer * (ring_t * cancel_index) :=
  match o with
  | RingPut p t => let '(ok, s') := ring_try_enqueue s.1 s.2 p t in (RPut ok, s')
  | RingTake n => let '(out, r') := ring_bulk_try_dequeue s.1 n in (RTaken out, (r', s.2))
  | RingPoll => (RPolled (ring_has_work s.1), s)
  end.

(** The bounded FIFO of [size] places. *)
Definition fifo_exec (size : Z) (q : list ptr) (o : ring_op) : ring_answer * list ptr :=
  match o with
  | RingPut p _ => if Z.of_nat (length q) <? size then (RPut true, q ++ [p]) else (RPut false, q)
  | RingTake n => (RTaken (take n q), drop n q)
  | RingPoll => (RPolled (bool_decide (q <> [])), q)
  end.

Fixpoint ring_run (s : ring_t * cancel_index) (os : list ring_op) : list ring_answer * (ring_t * cancel_index) :=
  match os with
  | [] => ([], s)
  | o :: os => let '(a, s') := ring_exec s o in let '(l, s2) := ring_run s' os in (a :: l, s2)
  end.

Fixpoint fifo_run (size : Z) (q : list ptr) (os : list ring_op) : list ring_answer * list ptr :=
  match os with
  | [] => ([], q)
  | o :: os => let '(a, q') := fifo_exec size q o in let '(l, q2) := fifo_run size q' os in (a :: l, q2)
  end.

Lemma ring_exec_refines r ci items o :
  ring_rep r items ->
  let '(a, (r', ci')) := ring_exec (r, ci) o in
  let '(b, items') := fifo_exec (ring_size r) items o in
  a = b /\ ring_rep r' items' /\ ring_size r' = ring_size r.
Proof.
  intros Hr. destruct o as [p t|n|]; simpl.
  - pose proof (enqueue_refines r ci p t items Hr) as H.
    destruct (ring_try_enqueue r ci p t) as [ok [r' ci']]. destruct H as (-> & ? & ? & _).
    by destruct (_ <? _).
  - pose proof (dequeue_refines r items n Hr) as H.
    destruct (ring_bulk_try_dequeue r n). naive_solver.
  - by rewrite (has_work_spec r items Hr).
Qed.

Lemma ring_run_refines os r ci items :
  ring_rep r items ->
  let '(l, (r', _)) := ring_run (r, ci) os in
  let '(l2, items') := fifo_run (ring_size r) items os in
  l = l2 /\ ring_rep r' items'.
Proof.
  revert r ci items. induction os as [|o os IH]; intros r ci items Hr; [done|]. cbn [ring_run fifo_run].
  pose proof (ring_exec_refines r ci items o Hr) as H.
  destruct (ring_exec (r, ci) o) as [a [r1 ci1]]. destruct (fifo_exec _ items o) as [b items1].
  destruct H as (-> & Hr1 & Hs). specialize (IH r1 ci1 items1 Hr1). rewrite Hs in IH.
  destruct (ring_run (r1, ci1) os) as [l [r2 ci2]]. destruct (fifo_run _ items1 os) as [l2 items2].
  naive_solver.
Qed.

(** ** Property *)

(** C12. For every configured queue capacity, the ring pool_init builds is a
    bounded FIFO: any sequence of enqueues, bulk dequeues and polls answers as
    a first-in first-out queue with [ring_size] places does (an enqueue is
    refused exactly when all places are taken; a bulk dequeue of [n] returns
    the [n] oldest tasks), through any number of 64-bit wrap-arounds of head and
    tail; and those places are strictly more than the configured capacity. *)
Theorem ring_refines_bounded_fifo cap ci os :
  0 <= cap < 2 ^ 32 ->
  let size := ring_size_for (clamp_capacity cap) in
  (ring_run (ring_init size, ci) os).1 = (fifo_run size [] os).1 /\ clamp_capacity cap < size.
Proof.
  intros Hcap size. destruct (ring_size_for_spec cap Hcap) as (k & Hk & Hsz & Hc & _).
  subst size. rewrite Hsz. split; [|done].
  pose proof (ring_run_refines os (ring_init (2 ^ k)) ci [] (ring_init_rep k ltac:(lia))) as H.
  change (ring_size (ring_init (2 ^ k))) with (2 ^ k) in H.
  destruct (ring_run _ os) as [l [? ?]], (fifo_run _ _ os). by destruct H as [-> _].
Qed.

(** Capacity 1: a ring of two cells, wrapped twice. *)
Lemma ring_refines_bounded_fifo_witness :
  (ring_run (ring_init (ring_size_for (clamp_capacity 1)), cancel_index_init 2)
     [RingPut 80 (demo_task 2); RingPut 160 (demo_task 3); RingPut 240 (demo_task 4);
      RingTake 1; RingPut 240 (demo_task 4); RingTake 8; RingPoll]).1 =
  [RPut true; RPut true; RPut false; RTaken [80]; RPut true; RTaken [160; 240]; RPolled false].
Proof.
  rewrite (proj1 (ring_refines_bounded_fifo 1 (cancel_index_init 2) _ ltac:(lia))).
  vm_compute. reflexivity.
Defined.
