(* ===== verification/RingConc.v ===== *)
(** * The Vyukov ring under interleaving (src/thread_pool.c: ring_try_enqueue,
    ring_bulk_try_dequeue).

    Any number of producers and consumers run the two routines concurrently; a
    step is one atomic access of one thread (a load, a store, a
    compare-and-swap or a fetch-and-add), in any order.  Positions are the
    64-bit counters of the code before they wrap (2^64 claims).  Two ghost
    fields record the order of the winning compare-and-swaps: [claimed] the
    tasks in the order in which producers won positions, [taken] the tasks in
    the order in which consumers did. *)
From S2P Require Import Prelude Types CancelIndex Ring.

(** Where a thread stands inside the two routines. *)
Inductive pc :=
  | Idle
  | PLoaded (task : ptr) (tail : Z)               (* tail loaded *)
  | PChecked (task : ptr) (tail : Z)              (* ring[tail & mask].seq == tail *)
  | PClaimed (task : ptr) (want : Z)              (* CAS on ring_tail won *)
  | PStored (task : ptr) (want : Z)               (* task stored in the cell *)
  | PPublished                                    (* seq = want + 1 stored *)
  | CScan (head : Z) (max : nat) (out : list ptr) (* about to test position head + n *)
  | CReady (head : Z) (max : nat) (out : list ptr)(* seq == head + n + 1 seen, task load next *)
  | CTry (head : Z) (out : list ptr)              (* scan over, n > 0: CAS next *)
  | CClaimed (want : Z) (out : list ptr) (k : nat)(* CAS on ring_head won, k cells released *)
  | CReleased (n : nat).                          (* ring_count to be decremented *)

Record cfg := mk_cfg {
  cells : list ring_cell_t;
  c_head : Z;
  c_tail : Z;
  c_count : Z;
  thr : list pc;
  claimed : list ptr;
  taken : list ptr;
}.

Section Ring.
Context (N : Z).

Definition slot (p : Z) : nat := Z.to_nat (p mod N).
Definition cellp (s : cfg) (p : Z) : ring_cell_t := cells s !!! slot p.
Definition seqp (s : cfg) (p : Z) : Z := seq (cellp s p).

Definition set_thr (s : cfg) (i : nat) (c : pc) : cfg :=
  mk_cfg (cells s) (c_head s) (c_tail s) (c_count s) (<[i := c]> (thr s)) (claimed s) (taken s).
Definition set_cell (s : cfg) (p : Z) (c : ring_cell_t) : cfg :=
  mk_cfg (<[slot p := c]> (cells s)) (c_head s) (c_tail s) (c_count s) (thr s) (claimed s) (taken s).
Definition add_count (s : cfg) (d : Z) : cfg :=
  mk_cfg (cells s) (c_head s) (c_tail s) (u32 (c_count s + d)) (thr s) (claimed s) (taken s).
Definition claim_tail (s : cfg) (task : ptr) : cfg :=
  mk_cfg (cells s) (c_head s) (c_tail s + 1) (c_count s) (thr s) (claimed s ++ [task]) (taken s).
Definition claim_head (s : cfg) (out : list ptr) : cfg :=
  mk_cfg (cells s) (c_head s + Z.of_nat (length out)) (c_tail s) (c_count s) (thr s) (claimed s)
    (taken s ++ out).

(** One atomic step of thread [i], which is at program point [c]. *)
Inductive tstep (s : cfg) (i : nat) : pc -> cfg -> Prop :=
  (* ring_try_enqueue *)
  | t_enter_put task : tstep s i Idle (set_thr s i (PLoaded task (c_tail s)))
  | t_put_full task tail : seqp s tail <> tail ->
      tstep s i (PLoaded task tail) (set_thr s i Idle)
  | t_put_check task tail : seqp s tail = tail ->
      tstep s i (PLoaded task tail) (set_thr s i (PChecked task tail))
  | t_put_cas task tail : c_tail s = tail ->
      tstep s i (PChecked task tail) (set_thr (claim_tail s task) i (PClaimed task tail))
  | t_put_cas_fail task tail :           (* lost, or a spurious weak failure *)
      tstep s i (PChecked task tail) (set_thr s i (PLoaded task (c_tail s)))
  | t_put_store task want :
      tstep s i (PClaimed task want)
        (set_thr (set_cell s want (mk_cell (seqp s want) task)) i (PStored task want))
  | t_put_publish task want :
      tstep s i (PStored task want)
        (set_thr (set_cell s want (mk_cell (want + 1) (cell_task (cellp s want)))) i PPublished)
  | t_put_count : tstep s i PPublished (set_thr (add_count s 1) i Idle)
  (* ring_bulk_try_dequeue *)
  | t_enter_take max : tstep s i Idle (set_thr s i (CScan (c_head s) max []))
  | t_take_ready head max out : (length out < max)%nat ->
      seqp s (head + Z.of_nat (length out)) = head + Z.of_nat (length out) + 1 ->
      tstep s i (CScan head max out) (set_thr s i (CReady head max out))
  | t_take_load head max out :
      tstep s i (CReady head max out)
        (set_thr s i (CScan head max (out ++ [cell_task (cellp s (head + Z.of_nat (length out)))])))
  | t_take_end head max out :
      length out = max \/ seqp s (head + Z.of_nat (length out)) <> head + Z.of_nat (length out) + 1 ->
      tstep s i (CScan head max out) (set_thr s i (if decide (out = []) then Idle else CTry head out))
  | t_take_cas head out : c_head s = head ->
      tstep s i (CTry head out) (set_thr (claim_head s out) i (CClaimed head out 0))
  | t_take_cas_fail head out :           (* lost, or a spurious weak failure *)
      tstep s i (CTry head out) (set_thr s i Idle)
  | t_take_release want out k : (k < length out)%nat ->
      tstep s i (CClaimed want out k)
        (set_thr (set_cell s (want + Z.of_nat k)
                    (mk_cell (want + Z.of_nat k + N) (cell_task (cellp s (want + Z.of_nat k)))))
           i (CClaimed want out (S k)))
  | t_take_released want out :
      tstep s i (CClaimed want out (length out)) (set_thr s i (CReleased (length out)))
  | t_take_count n :
      tstep s i (CReleased n) (set_thr (add_count s (- Z.of_nat n)) i Idle).

Inductive step (s : cfg) : cfg -> Prop :=
  | step_thread i c s' : thr s !! i = Some c -> tstep s i c s' -> step s s'.

Definition start (nthreads : nat) : cfg :=
  mk_cfg (ring (ring_init N)) 0 0 0 (replicate nthreads Idle) [] [].

Inductive reachable (nthreads : nat) : cfg -> Prop :=
  | reach_start : reachable nthreads (start nthreads)
  | reach_step s s' : reachable nthreads s -> step s s' -> reachable nthreads s'.

(** ** Invariant *)

(** The position a producer has claimed and not yet published. *)
Definition in_flight (c : pc) (p : Z) : Prop :=
  match c with PClaimed _ w | PStored _ w => p = w | _ => False end.

(** The positions a consumer has claimed and not yet released. *)
Definition pending (c : pc) (p : Z) : Prop :=
  match c with
  | CClaimed w out k => w + Z.of_nat k <= p < w + Z.of_nat (length out)
  | _ => False
  end.

(** What a scanning consumer has seen is still there while head has not moved. *)
Definition seen (s : cfg) (h : Z) (out : list ptr) : Prop :=
  h <= c_head s /\ (h = c_head s -> forall j x, out !! j = Some x ->
    seqp s (h + Z.of_nat j) = h + Z.of_nat j + 1 /\ claimed s !! Z.to_nat (h + Z.of_nat j) = Some x).

Definition pc_ok (s : cfg) (c : pc) : Prop :=
  match c with
  | Idle | PPublished | CReleased _ => True
  | PLoaded _ t => t <= c_tail s
  | PChecked _ t => t <= c_tail s /\ (t = c_tail s -> seqp s t = t)
  | PClaimed task w => 0 <= w < c_tail s /\ seqp s w = w /\ claimed s !! Z.to_nat w = Some task
  | PStored task w => 0 <= w < c_tail s /\ seqp s w = w /\ claimed s !! Z.to_nat w = Some task /\
      cell_task (cellp s w) = task
  | CScan h _ out | CTry h out => seen s h out
  | CReady h _ out => seen s h out /\ (h = c_head s ->
      seqp s (h + Z.of_nat (length out)) = h + Z.of_nat (length out) + 1)
  | CClaimed w out k => w + Z.of_nat (length out) <= c_head s /\
      forall p, pending c p -> seqp s p = p + 1
  end.

Definition owned (s : cfg) (P : pc -> Prop) : Prop := exists i c, thr s !! i = Some c /\ P c.

(** The last [N] claimed positions, one per cell: claimed and not published,
    full (and, once the head has passed it, awaiting its consumer's release),
    or released for the next turn. *)
Definition window (s : cfg) (p : Z) : Prop :=
  (seqp s p = p /\ c_head s <= p /\ owned s (fun c => in_flight c p)) \/
  (seqp s p = p + 1 /\ 0 <= p /\ claimed s !! Z.to_nat p = Some (cell_task (cellp s p)) /\
     (p < c_head s -> owned s (fun c => pending c p))) \/
  (seqp s p = p + N /\ p < c_head s).

Record inv (s : cfg) : Prop := {
  i_len : length (cells s) = Z.to_nat N;
  i_claimed : Z.of_nat (length (claimed s)) = c_tail s;
  i_head : 0 <= c_head s <= c_tail s;
  i_cap : c_tail s - N <= c_head s;
  i_taken : taken s = take (Z.to_nat (c_head s)) (claimed s);
  i_window : forall p, c_tail s - N <= p < c_tail s -> window s p;
  i_pc : forall i c, thr s !! i = Some c -> pc_ok s c;
  i_disj : forall i j ci cj p, i <> j -> thr s !! i = Some ci -> thr s !! j = Some cj ->
    ~ (in_flight ci p /\ in_flight cj p) /\ ~ (pending ci p /\ pending cj p);
}.

Context (HN : 2 <= N).

Lemma slot_eq p q : slot p = slot q <-> p mod N = q mod N.
Proof.
  unfold slot. pose proof (Z.mod_pos_bound p N). pose proof (Z.mod_pos_bound q N).
  split; intros He; [apply Z2Nat.inj in He; lia|by rewrite He].
Qed.

Lemma cell_slot_lt s p : inv s -> (slot p < length (cells s))%nat.
Proof. intros Hi. rewrite (i_len _ Hi). unfold slot. pose proof (Z.mod_pos_bound p N). lia. Qed.

Lemma slot_near p q : slot p = slot q -> -N < p - q < N -> p = q.
Proof.
  intros Hs%slot_eq Hd. destruct (decide (p = q)) as [|Hne]; [done|]. exfalso.
  destruct (decide (p < q)); [apply (mod_ne N p q)|apply (mod_ne N q p)]; lia || done.
Qed.

Lemma slot_succ p q : slot p = slot q -> p <> q + 1.
Proof.
  intros Hs ->. apply slot_eq in Hs. apply (mod_ne N q (q + 1)); [lia|done].
Qed.

Lemma slot_plus_N p : slot (p + N) = slot p.
Proof. apply slot_eq. rewrite <- (Z.mul_1_l N) at 1. apply Z.mod_add. lia. Qed.

Lemma seqp_slot s p q : slot p = slot q -> seqp s p = seqp s q.
Proof. unfold seqp, cellp. by intros ->. Qed.

(** Every cell has one position in the window. *)
Lemma window_rep s q : exists p, slot p = slot q /\ c_tail s - N <= p < c_tail s.
Proof.
  exists (c_tail s - N + (q - (c_tail s - N)) mod N).
  pose proof (Z.mod_pos_bound (q - (c_tail s - N)) N). split; [|lia].
  apply slot_eq. rewrite Zplus_mod_idemp_r. f_equal. lia.
Qed.

(** A full cell is in the window. *)
Lemma full_window s q :
  inv s -> seqp s q = q + 1 ->
  c_tail s - N <= q < c_tail s /\ 0 <= q /\ claimed s !! Z.to_nat q = Some (cell_task (cellp s q)) /\
  (q < c_head s -> owned s (fun c => pending c q)).
Proof.
  intros Hi Hq. destruct (window_rep s q) as (p & Hs & Hp).
  pose proof (seqp_slot s p q Hs) as He.
  assert (p = q) as ->.
  { destruct (i_window _ Hi p Hp) as [(Hw & _)|[(Hw & _)|(Hw & _)]]; [|lia|].
    - destruct (slot_succ p q Hs). lia.
    - destruct (slot_succ (p + N) q); [by rewrite slot_plus_N|]. lia. }
  split; [done|]. destruct (i_window _ Hi q Hp) as [(Hw & _)|[(Hw & ?)|(Hw & _)]]; [lia|done|lia].
Qed.

(** A claimed cell that still shows its own position is in flight. *)
Lemma empty_window s q :
  inv s -> seqp s q = q -> q < c_tail s -> c_tail s - N <= q /\ c_head s <= q.
Proof.
  intros Hi Hq Hlt. destruct (window_rep s q) as (p & Hs & Hp).
  pose proof (seqp_slot s p q Hs) as He.
  assert (p = q) as ->.
  { destruct (i_window _ Hi p Hp) as [(Hw & _)|[(Hw & _)|(Hw & _)]]; [lia| |lia].
    destruct (slot_succ q p); [done|lia]. }
  split; [lia|]. destruct (i_window _ Hi q Hp) as [(Hw & ? & _)|[(Hw & _)|(Hw & _)]]; [done|lia|lia].
Qed.

(** ** Frame lemmas *)

Lemma thr_set s i c' j cj :
  thr (set_thr s i c') !! j = Some cj -> (j = i /\ cj = c') \/ (j <> i /\ thr s !! j = Some cj).
Proof.
  simpl. intros H. destruct (decide (j = i)) as [->|].
  - apply list_lookup_insert_Some in H as [(_ & -> & _)|[? _]]; [by left|done].
  - right. by rewrite list_lookup_insert_ne in H by done.
Qed.

Lemma owned_set s s1 i c c' P :
  thr s1 = thr s -> thr s !! i = Some c -> owned s P -> (P c -> P c') -> owned (set_thr s1 i c') P.
Proof.
  intros Ht Hi (j & cj & Hj & Hp) Himp. destruct (decide (j = i)) as [->|].
  - exists i, c'. simpl. rewrite Ht, list_lookup_insert_eq by eauto using lookup_lt_Some.
    simplify_eq. auto.
  - exists j, cj. simpl. by rewrite Ht, list_lookup_insert_ne.
Qed.

Lemma owned_new s s1 i c c' (P : pc -> Prop) :
  thr s1 = thr s -> thr s !! i = Some c -> P c' -> owned (set_thr s1 i c') P.
Proof.
  intros Ht Hi Hp. exists i, c'. simpl.
  by rewrite Ht, list_lookup_insert_eq by eauto using lookup_lt_Some.
Qed.

(** Disjointness survives when the moving thread owns no more than before. *)
Lemma disj_set s s1 i c c' :
  inv s -> thr s1 = thr s -> thr s !! i = Some c ->
  (forall p, in_flight c' p -> in_flight c p \/ c_tail s <= p) ->
  (forall p, pending c' p -> pending c p \/ c_head s <= p) ->
  forall a b ca cb p, a <> b -> thr (set_thr s1 i c') !! a = Some ca ->
    thr (set_thr s1 i c') !! b = Some cb ->
    ~ (in_flight ca p /\ in_flight cb p) /\ ~ (pending ca p /\ pending cb p).
Proof.
  intros Hi Ht Hc Hf Hp.
  assert (Hone : forall b cb p, b <> i -> thr s !! b = Some cb ->
    ~ (in_flight c' p /\ in_flight cb p) /\ ~ (pending c' p /\ pending cb p)).
  { intros b cb p Hne Hb. destruct (i_disj _ Hi i b c cb p) as [D1 D2]; [done..|].
    pose proof (i_pc _ Hi b cb Hb) as Hok. split; intros [Hx Hy].
    - destruct (Hf p Hx) as [|Hge]; [by apply D1|]. destruct cb; simpl in Hy, Hok; try done; lia.
    - destruct (Hp p Hx) as [|Hge]; [by apply D2|]. destruct cb; simpl in Hy, Hok; try done; lia. }
  intros a b ca cb p Hne Ha Hb.
  apply thr_set in Ha as [[-> ->]|[? Ha]], Hb as [[-> ->]|[? Hb]]; rewrite ?Ht in *; [done|..].
  - by apply (Hone b).
  - destruct (Hone a ca p) as [D1 D2]; [done..|]. naive_solver.
  - by apply (i_disj _ Hi a b).
Qed.

(** A step that only moves a thread's program point. *)
Lemma inv_thr s s1 i c c' :
  inv s -> s1 = s \/ (exists d, s1 = add_count s d) -> thr s !! i = Some c ->
  (forall p, in_flight c' p <-> in_flight c p) -> (forall p, pending c' p <-> pending c p) ->
  pc_ok s c' -> inv (set_thr s1 i c').
Proof.
  intros Hi Hs1 Hc Hf Hp Hok.
  assert (Ht : thr s1 = thr s) by (destruct Hs1 as [->|[d ->]]; done).
  assert (Hpc : forall x, pc_ok s x -> pc_ok (set_thr s1 i c') x)
    by (intros; destruct Hs1 as [->|[d ->]]; done).
  pose proof (disj_set s s1 i c c' Hi Ht Hc) as Hd.
  assert (Hw : forall p, window s p -> window (set_thr s1 i c') p).
  { intros p. unfold window. intros [(? & ? & Ho)|[(? & ? & ? & Ho)|?]].
    - left. split_and!; [destruct Hs1 as [->|[d ->]]; done..|].
      eapply owned_set; [done..|]. apply Hf.
    - right; left. split_and!; [destruct Hs1 as [->|[d ->]]; done..|]. intros Hlt.
      eapply owned_set; [done..| |apply Hp]. apply Ho. by destruct Hs1 as [->|[d ->]].
    - right; right. destruct Hs1 as [->|[d ->]]; done. }
  split; [by destruct Hs1 as [->|[d ->]]; apply Hi..| | |].
  - intros p Hp'. apply Hw, (i_window _ Hi). by destruct Hs1 as [->|[d ->]].
  - intros j cj [[-> ->]|[? Hj]]%thr_set; [by apply Hpc|]. rewrite Ht in Hj.
    by apply Hpc, (i_pc _ Hi j).
  - apply Hd; intros p ?; left; [by apply Hf|by apply Hp].
Qed.

Lemma cellp_set s w c p :
  inv s -> cellp (set_cell s w c) p = if decide (slot p = slot w) then c else cellp s p.
Proof.
  intros Hi. unfold cellp. simpl. case_decide as E.
  - rewrite E. by apply array_read_insert_eq, cell_slot_lt.
  - by apply array_read_insert_ne.
Qed.

Lemma cellp_set_eq s w c : inv s -> cellp (set_cell s w c) w = c.
Proof. intros Hi. by rewrite cellp_set, decide_True. Qed.

Lemma seqp_set_eq s w c : inv s -> seqp (set_cell s w c) w = seq c.
Proof. intros Hi. unfold seqp. by rewrite cellp_set_eq. Qed.

Lemma seqp_thr s i c p : seqp (set_thr s i c) p = seqp s p.
Proof. done. Qed.

Lemma cellp_thr s i c p : cellp (set_thr s i c) p = cellp s p.
Proof. done. Qed.

Lemma cellp_set_ne s w c p : slot p <> slot w -> cellp (set_cell s w c) p = cellp s p.
Proof. intros E. unfold cellp. simpl. by apply array_read_insert_ne. Qed.

Lemma seqp_set_ne s w c p : slot p <> slot w -> seqp (set_cell s w c) p = seqp s p.
Proof. intros E. unfold seqp. by rewrite cellp_set_ne. Qed.

(** A write to a cell that no free or available position uses is not noticed
    by the threads that do not own it. *)
Definition quiet (s : cfg) (w : Z) : Prop :=
  forall p, slot p = slot w ->
    ~ (seqp s p = p /\ p = c_tail s) /\ ~ (seqp s p = p + 1 /\ c_head s <= p).

Lemma seen_frame s w c h out : quiet s w -> seen s h out -> seen (set_cell s w c) h out.
Proof.
  intros Hq [Hh Hs]. split; [done|]. intros He j x Hj. destruct (Hs He j x Hj) as [Hf Hcl].
  split; [|done]. rewrite seqp_set_ne; [done|]. intros Hsl.
  destruct (Hq _ Hsl) as [_ Hn]. apply Hn. split; [done|]. simpl in He. lia.
Qed.

Lemma pc_frame s w c0 c :
  quiet s w -> (forall p, in_flight c p \/ pending c p -> slot p <> slot w) ->
  pc_ok s c -> pc_ok (set_cell s w c0) c.
Proof.
  intros Hq Hown. destruct c; simpl; try done.
  - intros [? Hs]. split; [done|]. intros He. specialize (Hs He). rewrite seqp_set_ne; [done|].
    intros Hsl. destruct (Hq _ Hsl) as [Hn _]. by apply Hn.
  - intros (? & ? & ?). rewrite seqp_set_ne by (apply Hown; by left). done.
  - intros (? & ? & ? & ?). rewrite seqp_set_ne, cellp_set_ne by (apply Hown; by left). done.
  - by apply seen_frame.
  - intros [Hs He]. split; [by apply seen_frame|]. intros Hh. specialize (He Hh).
    rewrite seqp_set_ne; [done|]. intros Hsl. destruct (Hq _ Hsl) as [_ Hn]. apply Hn.
    split; [done|]. lia.
  - by apply seen_frame.
  - intros [? Hp]. split; [done|]. intros p Hr.
    rewrite seqp_set_ne by (apply Hown; by right). by apply Hp.
Qed.

Lemma window_frame s i c c' w c0 p :
  thr s !! i = Some c -> slot p <> slot w ->
  (in_flight c p -> in_flight c' p) -> (pending c p -> pending c' p) ->
  window s p -> window (set_thr (set_cell s w c0) i c') p.
Proof.
  intros Hc Hne Hf Hp. unfold window.
  change (seqp (set_thr (set_cell s w c0) i c') p) with (seqp (set_cell s w c0) p).
  change (cellp (set_thr (set_cell s w c0) i c') p) with (cellp (set_cell s w c0) p).
  rewrite seqp_set_ne, cellp_set_ne by done.
  intros [(? & ? & Ho)|[(? & ? & ? & Ho)|?]].
  - left. split_and!; [done..|]. by eapply (owned_set s).
  - right; left. split_and!; [done..|]. intros Hlt. eapply (owned_set s); eauto.
  - by right; right.
Qed.

(** No other thread owns the cell of a position the moving thread owns. *)
Lemma sole_owner s i c w j cj p :
  inv s -> thr s !! i = Some c -> in_flight c w \/ pending c w ->
  j <> i -> thr s !! j = Some cj -> in_flight cj p \/ pending cj p -> slot p <> slot w.
Proof.
  intros Hi Hc Hw Hne Hj Hp Hsl. pose proof (seqp_slot s p w Hsl) as He.
  assert (Hin : forall k x q, thr s !! k = Some x -> in_flight x q ->
    seqp s q = q /\ c_tail s - N <= q < c_tail s).
  { intros k x q Hk Hx. pose proof (i_pc _ Hi k x Hk) as Hok.
    destruct x; simpl in Hx, Hok; try done; subst q; destruct Hok as (? & Hs & _);
      (split; [done|]); destruct (empty_window s _ Hi Hs); lia. }
  assert (Hpe : forall k x q, thr s !! k = Some x -> pending x q ->
    seqp s q = q + 1 /\ c_tail s - N <= q < c_tail s).
  { intros k x q Hk Hx. pose proof (i_pc _ Hi k x Hk) as Hok. destruct x; try done.
    destruct Hok as [_ Hs]. specialize (Hs q Hx). split; [done|]. by apply (full_window s q Hi). }
  destruct (i_disj _ Hi i j c cj w) as [D1 D2]; [done..|].
  destruct Hw as [Hw|Hw]; [destruct (Hin i c w Hc Hw)|destruct (Hpe i c w Hc Hw)];
    (destruct Hp as [Hp|Hp]; [destruct (Hin j cj p Hj Hp)|destruct (Hpe j cj p Hj Hp)]);
    assert (p = w) by (apply (slot_near p w Hsl); lia); subst p; try lia.
  - by apply D1.
  - by apply D2.
Qed.

(** A thread writes a cell it owns. *)
Lemma inv_write s i c c' w c0 :
  inv s -> thr s !! i = Some c -> c_tail s - N <= w < c_tail s -> quiet s w ->
  in_flight c w \/ pending c w ->
  (forall p, p <> w -> in_flight c p -> in_flight c' p) ->
  (forall p, p <> w -> pending c p -> pending c' p) ->
  (forall p, in_flight c' p -> in_flight c p) -> (forall p, pending c' p -> pending c p) ->
  window (set_thr (set_cell s w c0) i c') w -> pc_ok (set_cell s w c0) c' ->
  inv (set_thr (set_cell s w c0) i c').
Proof.
  intros Hi Hc Hw Hq Hown Hf Hp Hf' Hp' Hwin Hok.
  split; [|by apply Hi..| | |].
  - simpl. rewrite length_insert. apply Hi.
  - intros p Hpw. destruct (decide (p = w)) as [->|Hne]; [done|].
    apply window_frame with c; [done| |by apply Hf|by apply Hp|by apply (i_window _ Hi)].
    intros Hsl. apply Hne, (slot_near p w Hsl). simpl in Hpw. lia.
  - intros j cj [[-> ->]|[? Hj]]%thr_set; [done|]. simpl in Hj.
    apply (pc_frame s w c0 cj Hq); [|by apply (i_pc _ Hi j)].
    intros p. by apply (sole_owner s i c w j cj p).
  - apply (disj_set s (set_cell s w c0) i c c' Hi eq_refl Hc); auto.
Qed.

(** ** Preservation *)

(** The cell of an in-flight position is used by no free or available one. *)
Lemma quiet_empty s w : seqp s w = w -> w < c_tail s -> quiet s w.
Proof.
  intros He Hlt p Hsl. rewrite (seqp_slot s p w Hsl), He. split; [lia|].
  intros [Hs _]. destruct (slot_succ w p); [done|lia].
Qed.

Lemma quiet_full s w : seqp s w = w + 1 -> w < c_head s -> quiet s w.
Proof.
  intros He Hlt p Hsl. rewrite (seqp_slot s p w Hsl), He. split; [|lia].
  intros [Hs _]. destruct (slot_succ p w); [done|lia].
Qed.

Lemma inv_store s i task w :
  inv s -> thr s !! i = Some (PClaimed task w) ->
  inv (set_thr (set_cell s w (mk_cell (seqp s w) task)) i (PStored task w)).
Proof.
  intros Hi Hc. destruct (i_pc _ Hi _ _ Hc) as (? & Hs & Hcl).
  destruct (empty_window s w Hi Hs) as [? Hh]; [lia|].
  apply (inv_write s i (PClaimed task w)); [done|done|lia|..]; try done.
  - apply quiet_empty; [done|lia].
  - by left.
  - left. rewrite seqp_thr, seqp_set_eq by done. split_and!; [done..|].
    by apply (owned_new s (set_cell s w (mk_cell (seqp s w) task)) i (PClaimed task w)).
  - simpl. by rewrite seqp_set_eq, cellp_set_eq.
Qed.

Lemma inv_publish s i task w :
  inv s -> thr s !! i = Some (PStored task w) ->
  inv (set_thr (set_cell s w (mk_cell (w + 1) (cell_task (cellp s w)))) i PPublished).
Proof.
  intros Hi Hc. destruct (i_pc _ Hi _ _ Hc) as (? & Hs & Hcl & Ht).
  destruct (empty_window s w Hi Hs) as [? Hh]; [lia|].
  apply (inv_write s i (PStored task w)); [done|done|lia|..]; try done.
  - apply quiet_empty; [done|lia].
  - by left.
  - right; left. rewrite seqp_thr, cellp_thr, seqp_set_eq, cellp_set_eq by done. simpl.
    rewrite Ht. split_and!; [done|lia|done|lia].
Qed.

Lemma inv_release s i w out k :
  inv s -> thr s !! i = Some (CClaimed w out k) -> (k < length out)%nat ->
  inv (set_thr (set_cell s (w + Z.of_nat k)
         (mk_cell (w + Z.of_nat k + N) (cell_task (cellp s (w + Z.of_nat k))))) i (CClaimed w out (S k))).
Proof.
  intros Hi Hc Hk. destruct (i_pc _ Hi _ _ Hc) as (Hh & Hp).
  assert (Hs : seqp s (w + Z.of_nat k) = w + Z.of_nat k + 1) by (apply Hp; simpl; lia).
  destruct (full_window s _ Hi Hs) as (Hw & H0 & _).
  set (q := w + Z.of_nat k) in *.
  apply (inv_write s i (CClaimed w out k)); [done|done|lia|..]; try done; simpl.
  - apply quiet_full; [done|lia].
  - right. simpl. lia.
  - intros p Hne. lia.
  - intros p. lia.
  - right; right. rewrite seqp_thr, seqp_set_eq by done. split; [done|]. simpl. lia.
  - split; [done|]. intros p Hr. rewrite seqp_set_ne; [apply Hp; simpl; lia|].
    assert (Hsp : seqp s p = p + 1) by (apply Hp; simpl; lia).
    destruct (full_window s p Hi Hsp) as (Hpw & _).
    intros Hsl. assert (p = q) by (apply (slot_near p q Hsl); lia). lia.
Qed.

(** A producer wins position [tail]. *)
Lemma inv_claim_tail s i task :
  inv s -> thr s !! i = Some (PChecked task (c_tail s)) ->
  inv (set_thr (claim_tail s task) i (PClaimed task (c_tail s))).
Proof.
  intros Hi Hc. destruct (i_pc _ Hi _ _ Hc) as (_ & Hs). specialize (Hs eq_refl).
  pose proof (i_claimed _ Hi) as Hcl. pose proof (i_head _ Hi) as Hh.
  assert (Hfree : c_tail s - N < c_head s).
  { destruct (i_window _ Hi (c_tail s - N)) as [(Hw & _)|[(Hw & _)|[_ ?]]]; [lia| | |done];
      rewrite <- (seqp_slot s (c_tail s - N + N) (c_tail s - N) (slot_plus_N _)) in Hw;
      replace (c_tail s - N + N) with (c_tail s) in Hw by lia; lia. }
  assert (Hold : forall p x, claimed s !! Z.to_nat p = Some x -> (claimed s ++ [task]) !! Z.to_nat p = Some x).
  { intros p x Hx. by apply lookup_app_l_Some. }
  assert (Hseen : forall h out, seen s h out -> seen (set_thr (claim_tail s task) i (PClaimed task (c_tail s))) h out).
  { intros h out [Hle Hse]. split; [done|]. intros He j x Hj. destruct (Hse He j x Hj). split; [done|].
    by apply Hold. }
  split; simpl; try (by apply Hi); try lia.
  - rewrite length_app. simpl. lia.
  - rewrite take_app_le by lia. apply Hi.
  - intros p Hp. destruct (decide (p = c_tail s)) as [->|].
    + left. simpl. split_and!; [done|lia|]. by apply (owned_new s (claim_tail s task) i _ _ _ eq_refl Hc).
    + destruct (i_window _ Hi p) as [(? & ? & Ho)|[(? & ? & ? & Ho)|?]]; [lia|..].
      * left. split_and!; [done..|]. by apply (owned_set s (claim_tail s task) i _ _ _ eq_refl Hc Ho).
      * right; left. split_and!; [done..|by apply Hold|]. intros Hlt.
        by apply (owned_set s (claim_tail s task) i _ _ _ eq_refl Hc (Ho Hlt)).
      * by right; right.
  - intros j cj [[-> ->]|[? Hj]]%thr_set.
    + simpl. split_and!; [lia|lia|done|]. rewrite lookup_app_r by lia.
      by replace (Z.to_nat (c_tail s) - length (claimed s))%nat with 0%nat by lia.
    + pose proof (i_pc _ Hi j cj Hj) as Hok. destruct cj; simpl in Hok |- *; try done; try lia; try (by apply Hseen).
      * destruct Hok as (? & ? & ?). split_and!; [lia|lia|done|by apply Hold].
      * destruct Hok as (? & ? & ? & ?). split_and!; [lia|lia|done|by apply Hold|done].
      * destruct Hok as [? ?]. split; [by apply Hseen|done].
  - apply (disj_set s (claim_tail s task) i _ _ Hi eq_refl Hc); [intros p ->; right; lia|done].
Qed.

(** A consumer wins the positions of its scan. *)
Lemma inv_claim_head s i out :
  inv s -> thr s !! i = Some (CTry (c_head s) out) ->
  inv (set_thr (claim_head s out) i (CClaimed (c_head s) out 0)).
Proof.
  intros Hi Hc. destruct (i_pc _ Hi _ _ Hc) as (_ & Hs). specialize (Hs eq_refl).
  pose proof (i_claimed _ Hi) as Hcl. pose proof (i_head _ Hi) as Hh.
  set (h := c_head s) in *. set (n := Z.of_nat (length out)).
  assert (Hfull : forall p, h <= p < h + n -> seqp s p = p + 1).
  { intros p Hp. destruct (lookup_lt_is_Some_2 out (Z.to_nat (p - h))) as [x Hx]; [lia|].
    destruct (Hs _ x Hx) as [Hf _]. rewrite Z2Nat.id in Hf by lia.
    by replace (h + (p - h)) with p in Hf by lia. }
  assert (Hn : h + n <= c_tail s).
  { destruct (decide (n = 0)); [lia|]. destruct (full_window s (h + n - 1) Hi) as (? & _); [apply Hfull|]; lia. }
  assert (Hout : out = take (length out) (drop (Z.to_nat h) (claimed s))).
  { apply list_eq_same_length with (length out); [rewrite length_take, length_drop; lia|done|].
    intros j x y Hj Hx Hy. destruct (Hs j x Hx) as [_ Hcj]. rewrite lookup_take_lt, lookup_drop in Hy by done.
    replace (Z.to_nat h + j)%nat with (Z.to_nat (h + Z.of_nat j)) in Hy by lia. congruence. }
  assert (Hseen : forall h0 out0, seen s h0 out0 ->
    seen (set_thr (claim_head s out) i (CClaimed h out 0)) h0 out0).
  { intros h0 out0 [? Hse]. split; simpl; fold h n; [lia|]. intros He. apply Hse. lia. }
  split; simpl; try (by apply Hi); fold h n; try lia.
  - pose proof (i_cap _ Hi). lia.
  - rewrite (i_taken _ Hi). fold h. replace (Z.to_nat (h + n)) with (Z.to_nat h + length out)%nat by lia.
    rewrite <- (take_take_drop (claimed s)). by rewrite <- Hout.
  - intros p Hp. destruct (i_window _ Hi p Hp) as [(Hsp & ? & Ho)|[(Hsp & ? & ? & Ho)|[Hsp ?]]].
    + left. simpl. fold h n. split_and!; [done| |by apply (owned_set s (claim_head s out) i _ _ _ eq_refl Hc Ho)].
      destruct (decide (p < h + n)); [|lia]. assert (seqp s p = p + 1) by (apply Hfull; lia). lia.
    + right; left. split_and!; [done..|]. simpl. fold h n. intros Hlt. destruct (decide (p < h)).
      * by apply (owned_set s (claim_head s out) i _ _ _ eq_refl Hc (Ho l)).
      * apply (owned_new s (claim_head s out) i _ _ _ eq_refl Hc). simpl. lia.
    + right; right. split; [done|]. simpl. lia.
  - intros j cj [[-> ->]|[? Hj]]%thr_set.
    + simpl. fold h n. split; [lia|]. intros p Hp. apply Hfull. lia.
    + pose proof (i_pc _ Hi j cj Hj) as Hok. destruct cj; simpl in Hok |- *; try done.
      * by apply Hseen.
      * destruct Hok as [[? ?] Hx]. split; [by apply Hseen|]. intros He. fold h n in He. apply Hx. lia.
      * by apply Hseen.
      * destruct Hok as [? ?]. split; [lia|done].
  - apply (disj_set s (claim_head s out) i _ _ Hi eq_refl Hc); [done|]. intros p Hp. right. simpl in Hp. lia.
Qed.

Lemma seen_snoc s h out :
  inv s -> seen s h out ->
  (h = c_head s -> seqp s (h + Z.of_nat (length out)) = h + Z.of_nat (length out) + 1) ->
  seen s h (out ++ [cell_task (cellp s (h + Z.of_nat (length out)))]).
Proof.
  intros Hi [Hh Hs] Hf. split; [done|]. intros He j x Hj.
  apply lookup_snoc_Some in Hj as [[? Hj]|[-> <-]]; [by apply Hs|].
  specialize (Hf He). split; [done|]. by apply full_window.
Qed.

Lemma inv_step s s' : inv s -> step s s' -> inv s'.
Proof.
  intros Hi [i c s1 Hc Hst]. pose proof (i_pc _ Hi i c Hc) as Hok.
  destruct Hst; simpl in Hok.
  all: try (by apply (inv_thr s s i _ _ Hi (or_introl eq_refl) Hc); simpl; try done; lia).
  - subst tail. by apply inv_claim_tail.
  - by apply inv_store.
  - by apply (inv_publish s i task).
  - apply (inv_thr s (add_count s 1) i PPublished _ Hi); [right; by eexists|done..].
  - destruct Hok. apply (inv_thr s s i _ _ Hi (or_introl eq_refl) Hc); simpl; try done.
    by apply seen_snoc.
  - apply (inv_thr s s i _ _ Hi (or_introl eq_refl) Hc); by case_decide.
  - subst head. by apply inv_claim_head.
  - by apply inv_release.
  - apply (inv_thr s (add_count s (- Z.of_nat n)) i (CReleased n) _ Hi); [right; by eexists|done..].
Qed.

Lemma inv_start nthreads : inv (start nthreads).
Proof.
  assert (Hcells : length (cells (start nthreads)) = Z.to_nat N)
    by (simpl; by rewrite length_fmap, length_seq).
  assert (Hidle : forall i c, thr (start nthreads) !! i = Some c -> c = Idle).
  { intros i c Hc. by apply lookup_replicate in Hc as [-> _]. }
  split; try done; simpl; try lia.
  - intros p Hp. right; right. split; [|simpl; lia]. unfold seqp, cellp, slot. simpl.
    assert (Hm : p mod N = p + N).
    { rewrite <- (Z.mod_small (p + N) N) by lia. rewrite <- (Z.mul_1_l N) at 2.
      symmetry. apply Z.mod_add. lia. }
    rewrite Hm, list_lookup_total_alt, list_lookup_fmap, lookup_seq_lt by lia. simpl. lia.
  - intros i c ->%Hidle. done.
  - intros i j ci cj p _ ->%Hidle ->%Hidle. simpl. tauto.
Qed.

Lemma reachable_inv nthreads s : reachable nthreads s -> inv s.
Proof. induction 1; [apply inv_start|by eapply inv_step]. Qed.

Lemma quiescent_rep nthreads s k :
  N = 2 ^ k -> 1 <= k <= 63 -> reachable nthreads s -> c_tail s + N < 2 ^ 64 ->
  (forall i c, thr s !! i = Some c -> c = Idle) ->
  ring_rep (mk_ring (cells s) N (N - 1) (c_head s) (c_tail s)
              (u32 (c_tail s - c_head s))) (drop (Z.to_nat (c_head s)) (claimed s)).
Proof.
  intros HNk Hk Hreach Hbnd Hidle. pose proof (reachable_inv _ _ Hreach) as Hi.
  pose proof (i_head _ Hi). pose proof (i_claimed _ Hi). pose proof (i_cap _ Hi).
  assert (Hno : forall P, (~ P Idle) -> ~ owned s P).
  { intros P HP (i & c & Hc & Hp). by rewrite (Hidle i c Hc) in Hp. }
  set (r := mk_ring _ _ _ _ _ _).
  assert (Hcell : forall p, cell_at r p = cellp s p).
  { intros p. unfold cell_at, cellp, slot. cbn [r ring ring_mask]. rewrite HNk. by rewrite land_pow2 by lia. }
  assert (HN2 : N <= 2 ^ 63) by (rewrite HNk; apply Z.pow_le_mono_r; lia).
  assert (Hlen : Z.of_nat (length (drop (Z.to_nat (c_head s)) (claimed s))) = c_tail s - c_head s)
    by (rewrite length_drop; lia).
  split; cbn [r ring_size ring_head ring_tail ring_count]; rewrite ?Hlen; try lia.
  - split; cbn [r ring ring_size ring_mask]; [by exists k|done|apply Hi].
  - rewrite u64_small by lia. lia.
  - intros i Hir. rewrite Hcell. change (seq (cellp s (c_head s + i))) with (seqp s (c_head s + i)).
    unfold exp_seq. destruct (Z.ltb_spec i (c_tail s - c_head s)).
    + rewrite u64_small by lia.
      destruct (i_window _ Hi (c_head s + i)) as [(_ & _ & Ho)|[(? & _)|[_ ?]]]; [lia| |done|lia].
      destruct (Hno _ (fun H => H) Ho).
    + rewrite u64_small by lia.
      assert (Hsl : slot (c_head s + i) = slot (c_head s + i - N))
        by (rewrite <- (slot_plus_N (c_head s + i - N)); f_equal; lia).
      rewrite (seqp_slot s _ _ Hsl).
      destruct (i_window _ Hi (c_head s + i - N)) as [(_ & ? & _)|[(_ & _ & _ & Ho)|[? _]]]; [lia|lia| |lia].
      destruct (Hno _ (fun H => H) (Ho ltac:(lia))).
  - intros i p Hp. rewrite lookup_drop in Hp. apply lookup_lt_Some in Hp as Hlt. rewrite Hcell.
    destruct (i_window _ Hi (c_head s + Z.of_nat i)) as [(_ & _ & Ho)|[(? & _ & Hcl & _)|[_ ?]]]; [lia| | |lia].
    + destruct (Hno _ (fun H => H) Ho).
    + replace (Z.to_nat (c_head s + Z.of_nat i)) with (Z.to_nat (c_head s) + i)%nat in Hcl by lia. congruence.
Qed.
End Ring.

(** ** Properties *)

(** C4. Safety of the lock-free ring for any number of concurrent producers and
    consumers, any interleaving and any spurious compare-and-swap failure: in
    every reachable state the tasks handed to consumers, in the order in which
    they won their batches, are exactly the first [head] tasks that producers
    enqueued, in the order in which they won their positions.  So no task is
    lost, handed out twice, or overtaken; and at most [N] tasks are between
    head and tail. *)
Theorem ring_concurrent_fifo N nthreads s :
  2 <= N -> reachable N nthreads s ->
  taken s = take (Z.to_nat (c_head s)) (claimed s) /\
  Z.of_nat (length (claimed s)) = c_tail s /\ 0 <= c_tail s - c_head s <= N.
Proof.
  intros HN Hr. pose proof (reachable_inv N HN _ _ Hr) as Hi.
  pose proof (i_head _ _ Hi). pose proof (i_cap _ _ Hi).
  split_and!; [apply Hi|apply Hi|lia|lia].
Qed.

(** When no thread is inside the two routines, whatever interleaving led
    there, the cells represent the FIFO of the tasks enqueued and not yet
    taken: the sequence numbers are those of a sequentially used ring, so
    nothing an interrupted operation left behind can block the next ones. *)
Theorem ring_quiescent_represents_fifo k nthreads s :
  1 <= k <= 63 -> reachable (2 ^ k) nthreads s -> c_tail s + 2 ^ k < 2 ^ 64 ->
  (forall i c, thr s !! i = Some c -> c = Idle) ->
  ring_rep (mk_ring (cells s) (2 ^ k) (2 ^ k - 1) (c_head s) (c_tail s) (u32 (c_tail s - c_head s)))
    (drop (length (taken s)) (claimed s)).
Proof.
  intros Hk Hr Hb Hidle.
  assert (HN : 2 <= 2 ^ k) by (change 2 with (2 ^ 1) at 1; apply Z.pow_le_mono_r; lia).
  pose proof (reachable_inv _ HN _ _ Hr) as Hi.
  replace (length (taken s)) with (Z.to_nat (c_head s)).
  { by apply (quiescent_rep _ HN nthreads s k). }
  rewrite (i_taken _ _ Hi), length_take. pose proof (i_head _ _ Hi). pose proof (i_claimed _ _ Hi). lia.
Qed.

(** Producer 0 and consumer 1 on two cells: one task goes through. *)
Definition demo_trace : list cfg :=
  let s0 := start 2 2 in
  let s1 := set_thr s0 0 (PLoaded 80 0) in
  let s2 := set_thr s1 0 (PChecked 80 0) in
  let s3 := set_thr (claim_tail s2 80) 0 (PClaimed 80 0) in
  let s4 := set_thr s3 1 (CScan 0 1 []) in
  let s5 := set_thr (set_cell 2 s4 0 (mk_cell (seqp 2 s4 0) 80)) 0 (PStored 80 0) in
  let s6 := set_thr (set_cell 2 s5 0 (mk_cell 1 (cell_task (cellp 2 s5 0)))) 0 PPublished in
  let s7 := set_thr s6 1 (CReady 0 1 []) in
  let s8 := set_thr s7 1 (CScan 0 1 [cell_task (cellp 2 s7 0)]) in
  let s9 := set_thr s8 1 (CTry 0 [80]) in
  let s10 := set_thr (claim_head s9 [80]) 1 (CClaimed 0 [80] 0) in
  let s11 := set_thr (set_cell 2 s10 0 (mk_cell 2 (cell_task (cellp 2 s10 0)))) 1 (CClaimed 0 [80] 1) in
  let s12 := set_thr s11 1 (CReleased 1) in
  let s13 := set_thr (add_count s12 (-1)) 1 Idle in
  [s0; s1; s2; s3; s4; s5; s6; s7; s8; s9; s10; s11; s12; s13; set_thr (add_count s13 1) 0 Idle].

Definition demo_end : cfg := default (start 2 2) (last demo_trace).

Lemma demo_reachable : reachable 2 2 demo_end.
Proof.
  assert (St : forall s s' i c, reachable 2 2 s -> thr s !! i = Some c -> tstep 2 s i c s' -> reachable 2 2 s').
  { intros. eapply reach_step; [done|]. by eapply step_thread. }
  pose proof (St _ _ 0%nat _ (reach_start 2 2) eq_refl (t_enter_put 2 _ 0 80)) as H.
  pose proof (fun p0 => St _ _ 0%nat _ H eq_refl (t_put_check 2 _ 0 80 0 p0)) as H1; specialize (H1 ltac:(reflexivity)).
  pose proof (fun p0 => St _ _ 0%nat _ H1 eq_refl (t_put_cas 2 _ 0 80 0 p0)) as H2; specialize (H2 ltac:(reflexivity)).
  pose proof (St _ _ 1%nat _ H2 eq_refl (t_enter_take 2 _ 1 1)) as H3.
  pose proof (St _ _ 0%nat _ H3 eq_refl (t_put_store 2 _ 0 80 0)) as H4.
  pose proof (St _ _ 0%nat _ H4 eq_refl (t_put_publish 2 _ 0 80 0)) as H5.
  pose proof (fun p0 p1 => St _ _ 1%nat _ H5 eq_refl (t_take_ready 2 _ 1 0 1 [] p0 p1)) as H6; specialize (H6 ltac:(simpl; lia) ltac:(reflexivity)).
  pose proof (St _ _ 1%nat _ H6 eq_refl (t_take_load 2 _ 1 0 1 [])) as H7.
  pose proof (St _ _ 1%nat _ H7 eq_refl (t_take_end 2 _ 1 0 1 [80] (or_introl eq_refl))) as H8.
  pose proof (fun p0 => St _ _ 1%nat _ H8 eq_refl (t_take_cas 2 _ 1 0 [80] p0)) as H9; specialize (H9 ltac:(reflexivity)).
  pose proof (fun p0 => St _ _ 1%nat _ H9 eq_refl (t_take_release 2 _ 1 0 [80] 0 p0)) as H10; specialize (H10 ltac:(simpl; lia)).
  pose proof (St _ _ 1%nat _ H10 eq_refl (t_take_released 2 _ 1 0 [80])) as H11.
  pose proof (St _ _ 1%nat _ H11 eq_refl (t_take_count 2 _ 1 1)) as H12.
  exact (St _ _ 0%nat _ H12 eq_refl (t_put_count 2 _ 0)).
Qed.

Lemma ring_concurrent_fifo_witness : taken demo_end = [80] /\ claimed demo_end = [80].
Proof.
  split; [|reflexivity].
  rewrite (proj1 (ring_concurrent_fifo 2 2 demo_end ltac:(lia) demo_reachable)). reflexivity.
Defined.

Lemma ring_quiescent_represents_fifo_witness :
  ring_rep (mk_ring (cells demo_end) 2 1 (c_head demo_end) (c_tail demo_end) 0) [].
Proof.
  apply (ring_quiescent_represents_fifo 1 2 demo_end); [lia|exact demo_reachable|reflexivity|].
  intros [|[|i]] c [= <-]; reflexivity.
Defined.
