(* ===== verification/Deque.v ===== *)
(** * The Chase-Lev work-stealing deque (src/thread_pool.c: deque_push, deque_pop,
    deque_steal, and the deque part of pool_init).

    The three routines as they run when no other thread moves [top] or [bottom]
    in between; DequeConc.v interleaves their accesses.  [deque_total] is the
    pool's counter of tasks resident in any deque. *)
From S2P Require Import Prelude Types.

Record loom_work_deque_t := mk_deque {
  bottom : Z;
  top : Z;
  slots : list ptr;
  capacity : Z;
  mask : Z;
  len : Z;
}.

Definition deque_init : loom_work_deque_t :=
  mk_deque 0 0 (replicate (Z.to_nat LOOMWORKS_DEQUE_CAPACITY) NULL)
    LOOMWORKS_DEQUE_CAPACITY (LOOMWORKS_DEQUE_CAPACITY - 1) 0.

#[export] Instance deque_inhabited : Inhabited loom_work_deque_t := populate deque_init.

Definition slot_at (d : loom_work_deque_t) (i : Z) : ptr := slots d !!! Z.to_nat (Z.land i (mask d)).

(** A task left the deque: [len] and [deque_total] go down by one. *)
Definition taken_one (d : loom_work_deque_t) (b t total : Z) : loom_work_deque_t * Z :=
  (mk_deque b t (slots d) (capacity d) (mask d) (len d -64 1), total -64 1).

Definition deque_push (d : loom_work_deque_t) (deque_total : Z) (task : ptr)
  : bool * (loom_work_deque_t * Z) :=
  let b := bottom d in
  let t := top d in
  if capacity d <=? b -64 t then (false, (d, deque_total))
  else
    (true, (mk_deque (b +64 1) t (<[Z.to_nat (Z.land b (mask d)) := task]> (slots d))
              (capacity d) (mask d) (len d +64 1), deque_total +64 1)).

Definition deque_pop (d : loom_work_deque_t) (deque_total : Z)
  : option ptr * (loom_work_deque_t * Z) :=
  let b := bottom d in
  if b =? 0 then (None, (d, deque_total))
  else
    let t := top d in
    if t <? b - 1 then
      (Some (slot_at d (b - 1)), taken_one d (b - 1) t deque_total)
    else
      let b := b - 1 in
      if b <? t then
        (None, (mk_deque t t (slots d) (capacity d) (mask d) (len d), deque_total))
      else if t <? b then
        (Some (slot_at d b), taken_one d b t deque_total)
      else
        (Some (slot_at d b), taken_one d (t +64 1) (t +64 1) deque_total).

Definition deque_steal (d : loom_work_deque_t) (deque_total : Z)
  : option ptr * (loom_work_deque_t * Z) :=
  let t := top d in
  let b := bottom d in
  if b <=? t then (None, (d, deque_total))
  else (Some (slot_at d t), taken_one d b (t +64 1) deque_total).

(** ** The deque represents a double-ended queue, oldest task first *)

Record deque_rep (d : loom_work_deque_t) (items : list ptr) : Prop := {
  dr_pow2 : exists k, 0 <= k < 63 /\ capacity d = 2 ^ k;
  dr_mask : mask d = capacity d - 1;
  dr_slots : length (slots d) = Z.to_nat (capacity d);
  dr_top : 0 <= top d;
  dr_bottom : bottom d = top d + Z.of_nat (length items);
  dr_nowrap : bottom d < 2 ^ 64;
  dr_bound : Z.of_nat (length items) <= capacity d;
  dr_len : len d = Z.of_nat (length items);
  dr_item : forall i x, items !! i = Some x -> slot_at d (top d + Z.of_nat i) = x;
}.

Lemma deque_init_rep : deque_rep deque_init [].
Proof. split; try done. by exists 8. Qed.

Section Slots.
Context (d : loom_work_deque_t) (items : list ptr) (Hd : deque_rep d items).

Lemma dslot_mod i : Z.land i (mask d) = i mod capacity d.
Proof. destruct (dr_pow2 _ _ Hd) as (k & ? & Hk). rewrite (dr_mask _ _ Hd), Hk. apply land_pow2. lia. Qed.

Lemma dcap_bounds : 1 <= capacity d < 2 ^ 63.
Proof.
  destruct (dr_pow2 _ _ Hd) as (k & ? & ->). split.
  - change 1 with (2 ^ 0) at 1. apply Z.pow_le_mono_r; lia.
  - apply Z.pow_lt_mono_r; lia.
Qed.

Lemma dslot_lt i : (Z.to_nat (Z.land i (mask d)) < length (slots d))%nat.
Proof.
  rewrite dslot_mod, (dr_slots _ _ Hd). pose proof dcap_bounds.
  pose proof (Z.mod_pos_bound i (capacity d)). lia.
Qed.

Lemma dslot_ne i j :
  0 < j - i < capacity d -> Z.to_nat (Z.land i (mask d)) <> Z.to_nat (Z.land j (mask d)).
Proof.
  intros Hij He. rewrite !dslot_mod in He. pose proof dcap_bounds.
  pose proof (Z.mod_pos_bound i (capacity d)). pose proof (Z.mod_pos_bound j (capacity d)).
  apply (mod_ne (capacity d) i j Hij). lia.
Qed.
End Slots.

Lemma push_refines d total task items :
  deque_rep d items -> bottom d + 1 < 2 ^ 64 ->
  let '(ok, (d', total')) := deque_push d total task in
  ok = (Z.of_nat (length items) <? capacity d) /\
  deque_rep d' (if ok then items ++ [task] else items) /\ capacity d' = capacity d /\
  total' = (if ok then total +64 1 else total) /\ bottom d' <= bottom d + 1.
Proof.
  intros Hd Hw. unfold deque_push. pose proof (dr_top _ _ Hd). pose proof (dr_bottom _ _ Hd).
  pose proof (dcap_bounds d items Hd). pose proof (dr_bound _ _ Hd).
  assert (Hdiff : bottom d -64 top d = Z.of_nat (length items)) by (rewrite u64_small; lia).
  rewrite Hdiff. destruct (Z.leb_spec (capacity d) (Z.of_nat (length items))).
  { split_and!; [|done..|lia]. symmetry. apply Z.ltb_ge. lia. }
  split_and!; [symmetry; by apply Z.ltb_lt| |done|done|simpl; rewrite u64_small; lia].
  rewrite !(u64_small (_ + 1)) by (rewrite ?(dr_len _ _ Hd); lia).
  destruct Hd as [? Hm Hs ? ? ? ? Hl Hi]. split; cbn [bottom top slots capacity mask len];
    rewrite ?length_app, ?length_insert; cbn [length]; try done; try lia.
  intros i x Hx. unfold slot_at. cbn [slots mask].
  assert (Hd : deque_rep d items) by done.
  apply lookup_snoc_Some in Hx as [[Hlt Hx]|[-> <-]].
  - rewrite array_read_insert_ne; [by apply Hi|]. apply not_eq_sym, (dslot_ne d items Hd). lia.
  - replace (top d + Z.of_nat (length items)) with (bottom d) by lia.
    by apply array_read_insert_eq, (dslot_lt d items).
Qed.

(** Removing the newest task, or the oldest. *)
Lemma take_bottom d items x total :
  deque_rep d (items ++ [x]) ->
  deque_rep (taken_one d (bottom d - 1) (top d) total).1 items /\ slot_at d (bottom d - 1) = x.
Proof.
  intros [Hp Hm Hs Ht Hb Hw Hbd Hl Hi]. rewrite length_app in *. simpl in *. split.
  - split; cbn [taken_one fst bottom top slots capacity mask len]; try done; try lia.
    + rewrite Hl, u64_small; lia.
    + intros i y Hy. apply Hi. by apply lookup_app_l_Some.
  - rewrite <- (Hi (length items) x); [|by apply list_lookup_middle]. f_equal. lia.
Qed.

Lemma take_top d items x total :
  deque_rep d (x :: items) ->
  deque_rep (taken_one d (bottom d) (top d +64 1) total).1 items /\ slot_at d (top d) = x.
Proof.
  intros [Hp Hm Hs Ht Hb Hw Hbd Hl Hi]. simpl in *. rewrite (u64_small (top d + 1)) by lia. split.
  - split; cbn [taken_one fst bottom top slots capacity mask len]; try done; try lia.
    + rewrite Hl, u64_small; lia.
    + intros i y Hy. unfold slot_at. cbn [slots mask]. fold (slot_at d (top d + 1 + Z.of_nat i)).
      rewrite <- (Hi (S i) y Hy). f_equal. lia.
  - rewrite <- (Hi 0%nat x eq_refl). f_equal. lia.
Qed.

Lemma pop_refines d total items :
  deque_rep d items ->
  let '(r, (d', total')) := deque_pop d total in
  r = last items /\ deque_rep d' (take (length items - 1) items) /\ capacity d' = capacity d /\
  total' = match r with Some _ => total -64 1 | None => total end /\ bottom d' <= bottom d + 1.
Proof.
  intros Hd. unfold deque_pop. pose proof (dr_top _ _ Hd) as Ht. pose proof (dr_bottom _ _ Hd) as Hb.
  destruct items as [|x items _] using rev_ind.
  - simpl in Hb. assert (Heq : bottom d = top d) by lia.
    destruct (Z.eqb_spec (bottom d) 0); [split_and!; done || lia|].
    rewrite (proj2 (Z.ltb_ge (top d) (bottom d - 1))), (proj2 (Z.ltb_lt (bottom d - 1) (top d))) by lia.
    split_and!; [done| |done|done|simpl; lia]. destruct Hd. split; simpl; try done; lia.
  - rewrite length_app in *. simpl in *. rewrite last_snoc.
    replace (length items + 1 - 1)%nat with (length items) by lia. rewrite take_app_length.
    destruct (take_bottom d items x total Hd) as [Hd' Hx].
    rewrite (proj2 (Z.eqb_neq _ _)) by lia.
    destruct (Z.ltb_spec (top d) (bottom d - 1)) as [|Hge].
    { rewrite Hx. split_and!; done || (simpl; lia). }
    rewrite (proj2 (Z.ltb_ge (bottom d - 1) (top d))) by lia.
    assert (items = []) as -> by (destruct items; [done|simpl in *; lia]).
    destruct (take_top d [] x total Hd) as [Hd2 _]. rewrite Hx.
    replace (top d +64 1) with (bottom d) in *; [split_and!; done || (simpl; lia)|].
    rewrite u64_small; [|pose proof (dr_nowrap _ _ Hd)]; simpl in *; lia.
Qed.

Lemma steal_refines d total items :
  deque_rep d items ->
  let '(r, (d', total')) := deque_steal d total in
  r = head items /\ deque_rep d' (drop 1 items) /\ capacity d' = capacity d /\
  total' = match r with Some _ => total -64 1 | None => total end /\ bottom d' <= bottom d + 1.
Proof.
  intros Hd. unfold deque_steal. pose proof (dr_bottom _ _ Hd) as Hb.
  destruct items as [|x items]; simpl in Hb.
  - rewrite (proj2 (Z.leb_le _ _)) by lia. split_and!; done || lia.
  - rewrite (proj2 (Z.leb_gt _ _)) by lia. destruct (take_top d items x total Hd) as [Hd' ->].
    split_and!; done || (simpl; lia).
Qed.

(** ** Histories *)

Inductive deque_op := DPush (task : ptr) | DPop | DSteal.
Inductive deque_answer := DPushed (ok : bool) | DGot (task : option ptr).

Definition deque_exec (s : loom_work_deque_t * Z) (o : deque_op)
  : deque_answer * (loom_work_deque_t * Z) :=
  match o with
  | DPush x => let '(ok, s') := deque_push s.1 s.2 x in (DPushed ok, s')
  | DPop => let '(r, s') := deque_pop s.1 s.2 in (DGot r, s')
  | DSteal => let '(r, s') := deque_steal s.1 s.2 in (DGot r, s')
  end.

(** The double-ended queue of [cap] places: the owner pushes and pops at the
    end, a thief takes from the front. *)
Definition dq_exec (cap : Z) (q : list ptr) (o : deque_op) : deque_answer * list ptr :=
  match o with
  | DPush x => if Z.of_nat (length q) <? cap then (DPushed true, q ++ [x]) else (DPushed false, q)
  | DPop => (DGot (last q), take (length q - 1) q)
  | DSteal => (DGot (head q), drop 1 q)
  end.

Fixpoint deque_run (s : loom_work_deque_t * Z) (os : list deque_op)
  : list deque_answer * (loom_work_deque_t * Z) :=
  match os with
  | [] => ([], s)
  | o :: os => let '(a, s1) := deque_exec s o in let '(l, s2) := deque_run s1 os in (a :: l, s2)
  end.

Fixpoint dq_run (cap : Z) (q : list ptr) (os : list deque_op) : list deque_answer * list ptr :=
  match os with
  | [] => ([], q)
  | o :: os => let '(a, q1) := dq_exec cap q o in let '(l, q2) := dq_run cap q1 os in (a :: l, q2)
  end.

(** [d] holds [items] and [deque_total] is their number plus [other]. *)
Definition deque_acc (s : loom_work_deque_t * Z) (other : Z) (items : list ptr) : Prop :=
  deque_rep s.1 items /\ s.2 = u64 (other + Z.of_nat (length items)).

Lemma deque_exec_refines s other items o :
  deque_acc s other items -> bottom s.1 + 1 < 2 ^ 64 ->
  let '(a, s') := deque_exec s o in
  let '(b, items') := dq_exec (capacity s.1) items o in
  a = b /\ deque_acc s' other items' /\ capacity s'.1 = capacity s.1 /\ bottom s'.1 <= bottom s.1 + 1.
Proof.
  destruct s as [d total]. unfold deque_acc. simpl. intros [Hd ->] Hw. destruct o as [x| |]; simpl.
  - pose proof (push_refines d (u64 (other + Z.of_nat (length items))) x items Hd Hw) as H1.
    destruct (deque_push _ _ _) as [ok [d' total']]. destruct H1 as (-> & Hd' & ? & -> & ?).
    destruct (_ <? _); split_and!; try done; simpl.
    rewrite u64_add_l, length_app. f_equal. simpl. lia.
  - pose proof (pop_refines d (u64 (other + Z.of_nat (length items))) items Hd) as H1.
    destruct (deque_pop _ _) as [r [d' total']]. destruct H1 as (-> & Hd' & ? & -> & ?).
    split_and!; try done; simpl. destruct items as [|y items] using rev_ind; [done|].
    rewrite last_snoc, u64_sub_l. f_equal. rewrite length_take, length_app. simpl. lia.
  - pose proof (steal_refines d (u64 (other + Z.of_nat (length items))) items Hd) as H1.
    destruct (deque_steal _ _) as [r [d' total']]. destruct H1 as (-> & Hd' & ? & -> & ?).
    split_and!; try done; simpl. destruct items as [|y items]; simpl; [done|].
    rewrite u64_sub_l, drop_0. f_equal. lia.
Qed.

Lemma deque_run_refines os s other items :
  deque_acc s other items -> bottom s.1 + Z.of_nat (length os) < 2 ^ 64 ->
  let '(l, s') := deque_run s os in
  let '(l2, items') := dq_run (capacity s.1) items os in
  l = l2 /\ deque_acc s' other items'.
Proof.
  revert s items. induction os as [|o os IH]; intros s items Ha Hw; [done|]. cbn [deque_run dq_run].
  pose proof (deque_exec_refines s other items o Ha ltac:(simpl in *; lia)) as H.
  destruct (deque_exec s o) as [a s1]. destruct (dq_exec _ items o) as [b items1].
  destruct H as (-> & Ha1 & Hc & Hb). specialize (IH s1 items1 Ha1 ltac:(simpl in *; lia)).
  rewrite Hc in IH. destruct (deque_run s1 os) as [l s2]. destruct (dq_run _ items1 os). naive_solver.
Qed.

(** ** Property *)

(** A worker's deque, used by one thread at a time, is a double-ended queue
    of 256 places for any history of up to 2^64 operations: a push is refused
    exactly when 256 tasks are resident, a pop returns the newest task, a steal
    the oldest, and the pool's [deque_total] stays the number of resident tasks
    plus those of the other deques. *)
Theorem deque_refines_double_ended_queue os other :
  Z.of_nat (length os) < 2 ^ 64 ->
  let '(answers, (d, total)) := deque_run (deque_init, u64 other) os in
  let '(spec_answers, items) := dq_run LOOMWORKS_DEQUE_CAPACITY [] os in
  answers = spec_answers /\ len d = Z.of_nat (length items) /\
  total = u64 (other + Z.of_nat (length items)).
Proof.
  intros Hos.
  assert (Ha : deque_acc (deque_init, u64 other) other []).
  { split; [apply deque_init_rep|]. simpl. f_equal. lia. }
  pose proof (deque_run_refines os _ other [] Ha Hos) as H.
  destruct (deque_run _ os) as [l [d total]]. change (capacity (deque_init, u64 other).1) with LOOMWORKS_DEQUE_CAPACITY in H.
  destruct (dq_run _ _ os) as [l2 items]. destruct H as (-> & Hd & Ht).
  split_and!; [done|apply Hd|done].
Qed.

Lemma deque_refines_double_ended_queue_witness :
  (deque_run (deque_init, 5) [DPush 80; DPush 160; DPush 240; DSteal; DPop; DPop; DPop]).1 =
  [DPushed true; DPushed true; DPushed true; DGot (Some 80); DGot (Some 240); DGot (Some 160); DGot None].
Proof.
  pose proof (deque_refines_double_ended_queue
    [DPush 80; DPush 160; DPush 240; DSteal; DPop; DPop; DPop] 5 ltac:(simpl; lia)) as H.
  change (u64 5) with 5 in H. destruct (deque_run _ _) as [l [d total]]. vm_compute in H. apply H.
Defined.
