(* ===== verification/DequeConc.v ===== *)
(** * The Chase-Lev deque under interleaving (src/thread_pool.c: deque_push,
    deque_pop, deque_steal).

    One owner pushes and pops at the bottom while any number of thieves steal at
    the top; a step is one access to shared memory, in program order for each
    thread.  [pushed] and [delivered] are ghost records of the tasks published
    by deque_push and returned by deque_pop or deque_steal.  The counters [len]
    and [deque_total], which the three routines only add to, are left to
    Deque.v. *)
From S2P Require Import Prelude Types.

(** Where the owner stands. *)
Inductive opc :=
  | OIdle
  | PushB (x : ptr) (b : Z)        (* bottom loaded *)
  | PushT (x : ptr) (b : Z)        (* top loaded, b - t < capacity *)
  | PushS (x : ptr) (b : Z)        (* slot written *)
  | PopB (b : Z)                   (* bottom loaded *)
  | PopT (b t : Z)                 (* top loaded *)
  | PopFast (b : Z)                (* fast path: bottom = b stored *)
  | PopSlow (b : Z)                (* slow path: bottom = b stored, fence *)
  | PopChk (b t : Z)               (* top reloaded *)
  | PopLast (b : Z) (x : ptr)      (* b == t: slot read, CAS next *)
  | PopFix (v : Z).                (* bottom = v to be stored *)

(** Where a thief stands. *)
Inductive tpc :=
  | TIdle
  | TTop (t : Z)                   (* top loaded *)
  | TBot (t : Z)                   (* bottom loaded, t < b *)
  | TRead (t : Z) (x : ptr).       (* slot read, CAS next *)

Record dstate := mk_dstate {
  d_slots : list ptr;
  d_bottom : Z;
  d_top : Z;
  own : opc;
  thieves : list tpc;
  pushed : list ptr;
  delivered : list ptr;
}.

Section Deque.
Context (N : Z).

Definition dslot (i : Z) : nat := Z.to_nat (i mod N).
Definition rd (s : dstate) (i : Z) : ptr := d_slots s !!! dslot i.

Definition set_own (s : dstate) (c : opc) : dstate :=
  mk_dstate (d_slots s) (d_bottom s) (d_top s) c (thieves s) (pushed s) (delivered s).
Definition set_bottom (s : dstate) (b : Z) : dstate :=
  mk_dstate (d_slots s) b (d_top s) (own s) (thieves s) (pushed s) (delivered s).
Definition set_top (s : dstate) (t : Z) : dstate :=
  mk_dstate (d_slots s) (d_bottom s) t (own s) (thieves s) (pushed s) (delivered s).
Definition set_slot (s : dstate) (i : Z) (x : ptr) : dstate :=
  mk_dstate (<[dslot i := x]> (d_slots s)) (d_bottom s) (d_top s) (own s) (thieves s) (pushed s) (delivered s).
Definition push_rec (s : dstate) (x : ptr) : dstate :=
  mk_dstate (d_slots s) (d_bottom s) (d_top s) (own s) (thieves s) (pushed s ++ [x]) (delivered s).
Definition deliver (s : dstate) (x : ptr) : dstate :=
  mk_dstate (d_slots s) (d_bottom s) (d_top s) (own s) (thieves s) (pushed s) (delivered s ++ [x]).
Definition set_thief (s : dstate) (i : nat) (c : tpc) : dstate :=
  mk_dstate (d_slots s) (d_bottom s) (d_top s) (own s) (<[i := c]> (thieves s)) (pushed s) (delivered s).

Inductive ostep (s : dstate) : opc -> dstate -> Prop :=
  (* deque_push *)
  | o_push x : ostep s OIdle (set_own s (PushB x (d_bottom s)))
  | o_push_full x b : N <= b - d_top s -> ostep s (PushB x b) (set_own s OIdle)
  | o_push_room x b : b - d_top s < N -> ostep s (PushB x b) (set_own s (PushT x b))
  | o_push_store x b : ostep s (PushT x b) (set_own (set_slot s b x) (PushS x b))
  | o_push_pub x b : ostep s (PushS x b) (set_own (push_rec (set_bottom s (b + 1)) x) OIdle)
  (* deque_pop *)
  | o_pop : ostep s OIdle (set_own s (PopB (d_bottom s)))
  | o_pop_zero : ostep s (PopB 0) (set_own s OIdle)
  | o_pop_top b : b <> 0 -> ostep s (PopB b) (set_own s (PopT b (d_top s)))
  | o_pop_fast b t : t < b - 1 ->
      ostep s (PopT b t) (set_own (set_bottom s (b - 1)) (PopFast (b - 1)))
  | o_pop_take b : ostep s (PopFast b) (set_own (deliver s (rd s b)) OIdle)
  | o_pop_slow b t : b - 1 <= t ->
      ostep s (PopT b t) (set_own (set_bottom s (b - 1)) (PopSlow (b - 1)))
  | o_pop_reload b : ostep s (PopSlow b) (set_own s (PopChk b (d_top s)))
  | o_pop_lost b t : b < t -> ostep s (PopChk b t) (set_own (set_bottom s t) OIdle)
  | o_pop_more b t : t < b -> ostep s (PopChk b t) (set_own (deliver s (rd s b)) OIdle)
  | o_pop_last b t : b = t -> ostep s (PopChk b t) (set_own s (PopLast b (rd s b)))
  | o_pop_cas b x : d_top s = b ->
      ostep s (PopLast b x) (set_own (deliver (set_top s (b + 1)) x) (PopFix (b + 1)))
  | o_pop_cas_lost b x : d_top s <> b -> ostep s (PopLast b x) (set_own s (PopFix (d_top s)))
  | o_pop_fix v : ostep s (PopFix v) (set_own (set_bottom s v) OIdle).

(** deque_steal; the flag tells the step whose compare-and-swap wins. *)
Inductive thstep (s : dstate) (i : nat) : tpc -> bool -> dstate -> Prop :=
  | th_top : thstep s i TIdle false (set_thief s i (TTop (d_top s)))
  | th_empty t : d_bottom s <= t -> thstep s i (TTop t) false (set_thief s i TIdle)
  | th_bottom t : t < d_bottom s -> thstep s i (TTop t) false (set_thief s i (TBot t))
  | th_read t : thstep s i (TBot t) false (set_thief s i (TRead t (rd s t)))
  | th_cas t x : d_top s = t ->
      thstep s i (TRead t x) true (set_thief (deliver (set_top s (t + 1)) x) i TIdle)
  | th_cas_lost t x : d_top s <> t -> thstep s i (TRead t x) false (set_thief s i TIdle).

Inductive dstep (s : dstate) : bool -> dstate -> Prop :=
  | d_owner s' : ostep s (own s) s' -> dstep s false s'
  | d_thief i c won s' : thieves s !! i = Some c -> thstep s i c won s' -> dstep s won s'.

Definition dstart (n : nat) : dstate :=
  mk_dstate (replicate (Z.to_nat N) NULL) 0 0 OIdle (replicate n TIdle) [] [].

Inductive dreach (n : nat) : dstate -> Prop :=
  | dr_start : dreach n (dstart n)
  | dr_step s won s' : dreach n s -> dstep s won s' -> dreach n s'.

(** The owner has loaded [top], chosen the fast path, and not yet moved
    [bottom]. *)
Definition fast_gap (s : dstate) : bool :=
  match own s with PopT b t => t <? b - 1 | _ => false end.

(** Runs in which no steal succeeds inside that gap. *)
Inductive dreach_calm (n : nat) : dstate -> Prop :=
  | drc_start : dreach_calm n (dstart n)
  | drc_step s won s' : dreach_calm n s -> dstep s won s' -> won && fast_gap s = false ->
      dreach_calm n s'.

(** ** Invariant *)

(** [hand] holds the task the owner has removed and not yet returned. *)
Definition own_ok (s : dstate) (items hand : list ptr) : Prop :=
  let L := d_top s + Z.of_nat (length items) in
  match own s with
  | OIdle => hand = [] /\ d_bottom s = L
  | PushB x b => hand = [] /\ d_bottom s = L /\ b = L
  | PushT x b => hand = [] /\ d_bottom s = L /\ b = L /\ Z.of_nat (length items) < N
  | PushS x b => hand = [] /\ d_bottom s = L /\ b = L /\ Z.of_nat (length items) < N /\ rd s b = x
  | PopB b => hand = [] /\ d_bottom s = L /\ b = L
  | PopT b t => hand = [] /\ d_bottom s = L /\ b = L /\ t <= d_top s /\ (t < b - 1 -> t = d_top s)
  | PopFast b => d_bottom s = L /\ b = L /\ hand = [rd s b]
  | PopSlow b => hand = [] /\ d_bottom s = b /\ L = b + 1 /\ b <= d_top s
  | PopChk b t => hand = [] /\ d_bottom s = b /\ L = b + 1 /\ b <= t <= d_top s
  | PopLast b x => hand = [] /\ d_bottom s = b /\ L = b + 1 /\ b <= d_top s /\ (d_top s = b -> items = [x])
  | PopFix v => hand = [] /\ d_bottom s <= v /\ d_top s = v /\ items = []
  end.

Definition thief_ok (top : Z) (items : list ptr) (c : tpc) : Prop :=
  match c with
  | TIdle => True
  | TTop t => t <= top
  | TBot t => t <= top /\ (t = top -> items <> [])
  | TRead t x => t <= top /\ (t = top -> head items = Some x)
  end.

Record dinv (s : dstate) (items hand : list ptr) : Prop := {
  di_acc : pushed s ≡ₚ delivered s ++ hand ++ items;
  di_len : length (d_slots s) = Z.to_nat N;
  di_bound : Z.of_nat (length items) <= N;
  di_slot : forall i x, items !! i = Some x -> rd s (d_top s + Z.of_nat i) = x;
  di_own : own_ok s items hand;
  di_thieves : forall i c, thieves s !! i = Some c -> thief_ok (d_top s) items c;
}.

Context (HN : 1 <= N).

Lemma dslot_inj i j : -N < i - j < N -> dslot i = dslot j -> i = j.
Proof.
  unfold dslot. intros Hd He. pose proof (Z.mod_pos_bound i N). pose proof (Z.mod_pos_bound j N).
  apply Z2Nat.inj in He; [|lia..]. destruct (decide (i = j)) as [|Hne]; [done|]. exfalso.
  destruct (decide (i < j)); [apply (mod_ne N i j)|apply (mod_ne N j i)]; lia || done.
Qed.

Lemma conc_slot_lt s items hand i : dinv s items hand -> (dslot i < length (d_slots s))%nat.
Proof. intros Hi. rewrite (di_len _ _ _ Hi). unfold dslot. pose proof (Z.mod_pos_bound i N). lia. Qed.

Lemma bottom_le s items hand :
  dinv s items hand -> d_bottom s <= d_top s + Z.of_nat (length items).
Proof.
  intros Hi. pose proof (di_own _ _ _ Hi) as Ho. unfold own_ok in Ho.
  destruct (own s); simpl in Ho; lia.
Qed.

(** The owner moves without touching the deque's contents. *)
Lemma dinv_own s items hand c :
  dinv s items hand -> own_ok (set_own s c) items hand -> dinv (set_own s c) items hand.
Proof. intros [] Ho. by split. Qed.

Lemma dinv_bottom s items hand b c :
  dinv s items hand -> own_ok (set_own (set_bottom s b) c) items hand ->
  dinv (set_own (set_bottom s b) c) items hand.
Proof. intros [] Ho. by split. Qed.

Lemma dinv_store s items hand x b :
  dinv s items hand -> own s = PushT x b -> dinv (set_own (set_slot s b x) (PushS x b)) items hand.
Proof.
  intros Hi Hc. pose proof (di_own _ _ _ Hi) as Ho. unfold own_ok in Ho. rewrite Hc in Ho.
  destruct Ho as (-> & Hb & -> & Hlt).
  pose proof (conc_slot_lt s items [] (d_top s + Z.of_nat (length items)) Hi) as Hsl.
  destruct Hi as [Ha Hl Hbd Hs _ Ht]. split; try done.
  - simpl. by rewrite length_insert.
  - intros i y Hy. unfold rd. simpl. apply lookup_lt_Some in Hy as Hil.
    rewrite array_read_insert_ne; [by apply Hs|]. intros He. apply dslot_inj in He; lia.
  - simpl. split_and!; try done. unfold rd. simpl. by apply array_read_insert_eq.
Qed.

Lemma dinv_publish s items hand x b :
  dinv s items hand -> own s = PushS x b ->
  dinv (set_own (push_rec (set_bottom s (b + 1)) x) OIdle) (items ++ [x]) [].
Proof.
  intros Hi Hc. pose proof (di_own _ _ _ Hi) as Ho. unfold own_ok in Ho. rewrite Hc in Ho.
  destruct Ho as (-> & Hb & -> & Hlt & Hrd). destruct Hi as [Ha Hl Hbd Hs _ Ht]. split; simpl; try done.
  - rewrite Ha. simpl. by rewrite app_assoc.
  - rewrite length_app. simpl. lia.
  - intros i y Hy. apply lookup_snoc_Some in Hy as [[? Hy]|[-> <-]]; [by apply Hs|done].
  - unfold own_ok. simpl. rewrite length_app. simpl. split; [done|lia].
  - intros i c Hi. specialize (Ht i c Hi). destruct c; simpl in *; try done.
    + destruct Ht as [? Hne]. split; [done|]. intros ->. by destruct items.
    + destruct Ht as [? Hne]. split; [done|]. intros ->. specialize (Hne eq_refl). by destruct items.
Qed.

(** The fast path removes the newest of at least two tasks. *)
Lemma dinv_fast s items hand b t :
  dinv s items hand -> own s = PopT b t -> t < b - 1 ->
  exists items' x, items = items' ++ [x] /\
    dinv (set_own (set_bottom s (b - 1)) (PopFast (b - 1))) items' [x].
Proof.
  intros Hi Hc Hf. pose proof (di_own _ _ _ Hi) as Ho. unfold own_ok in Ho. rewrite Hc in Ho.
  destruct Ho as (-> & Hb & -> & _ & Htop). specialize (Htop Hf). subst t.
  destruct items as [|x items' _] using rev_ind; [simpl in Hf; lia|].
  rewrite length_app in *. simpl in *. exists items', x. split; [done|].
  destruct Hi as [Ha Hl Hbd Hs _ Ht]. rewrite length_app in Hbd. simpl in Hbd. split; simpl; try done; try lia.
  - rewrite Ha. simpl. apply Permutation_app_head. by rewrite Permutation_app_comm.
  - intros i y Hy. apply Hs. by apply lookup_app_l_Some.
  - unfold own_ok. simpl. split_and!; [lia|lia|]. f_equal.
    rewrite <- (Hs (length items') x); [|by apply list_lookup_middle].
    unfold rd. simpl. f_equal. f_equal. lia.
  - intros i c Hi. specialize (Ht i c Hi).
    assert (Hne : items' <> []) by (intros ->; simpl in Hf; lia).
    destruct c; simpl in *; try done.
    + destruct Ht as [? Hx]. split; [done|]. intros ->. done.
    + destruct Ht as [? Hx]. split; [done|]. intros ->. specialize (Hx eq_refl). by destruct items'.
Qed.

Lemma dinv_take s items hand b :
  dinv s items hand -> own s = PopFast b ->
  dinv (set_own (deliver s (rd s b)) OIdle) items [].
Proof.
  intros Hi Hc. pose proof (di_own _ _ _ Hi) as Ho. unfold own_ok in Ho. rewrite Hc in Ho.
  destruct Ho as (Hb & -> & ->). destruct Hi as [Ha Hl Hbd Hs _ Ht]. split; try done.
  simpl. rewrite Ha. by rewrite <- app_assoc.
Qed.

(** Whoever wins the compare-and-swap on [top] takes the oldest task. *)
Lemma thief_ok_moved top items items' c : thief_ok top items c -> thief_ok (top + 1) items' c.
Proof. destruct c; simpl; try lia; intros [? _]; (split; [lia|]); intros; lia. Qed.

Lemma dinv_cas s items hand b x :
  dinv s items hand -> own s = PopLast b x -> d_top s = b ->
  dinv (set_own (deliver (set_top s (b + 1)) x) (PopFix (b + 1))) [] [].
Proof.
  intros Hi Hc Htop. pose proof (di_own _ _ _ Hi) as Ho. unfold own_ok in Ho. rewrite Hc in Ho.
  destruct Ho as (-> & Hb & HL & _ & Hx). specialize (Hx Htop). subst items.
  destruct Hi as [Ha Hl Hbd Hs _ Ht]. split; try done.
  - simpl. rewrite Ha. by rewrite app_nil_r.
  - simpl. lia.
  - unfold own_ok. simpl. split_and!; [done|lia|done|done].
  - intros i c Hi. simpl. subst b. apply (thief_ok_moved _ [x]). by apply (Ht i).
Qed.

Lemma dinv_steal s items hand i t x :
  dinv s items hand -> thieves s !! i = Some (TRead t x) -> d_top s = t -> fast_gap s = false ->
  exists items', items = x :: items' /\
    dinv (set_thief (deliver (set_top s (t + 1)) x) i TIdle) items' hand.
Proof.
  intros Hi Hc <- Hgap. destruct (di_thieves _ _ _ Hi i _ Hc) as [_ Hx]. specialize (Hx eq_refl).
  destruct items as [|y items']; [done|]. simpl in Hx. injection Hx as ->.
  exists items'. split; [done|]. destruct Hi as [Ha Hl Hbd Hs Ho Ht]. simpl in Hbd. split; try done.
  - simpl. rewrite Ha, <- app_assoc. apply Permutation_app_head. simpl. by rewrite <- Permutation_middle.
  - lia.
  - intros j z Hz. specialize (Hs (S j) z Hz). simpl. unfold rd in *. simpl.
    rewrite <- Hs. f_equal. f_equal. lia.
  - unfold own_ok, fast_gap, rd in *. simpl in *. destruct (own s); simpl in *; zbool; try (naive_solver lia).
  - simpl. intros j c Hj. destruct (decide (j = i)) as [->|Hne].
    + apply list_lookup_insert_Some in Hj as [(_ & <- & _)|[? _]]; done.
    + rewrite list_lookup_insert_ne in Hj by done. apply (thief_ok_moved _ (x :: items')). by apply (Ht j).
Qed.

Lemma dinv_thief s items hand i c :
  dinv s items hand -> thief_ok (d_top s) items c -> dinv (set_thief s i c) items hand.
Proof.
  intros [Ha Hl Hbd Hs Ho Ht] Hc. split; try done. simpl. intros j cj Hj.
  destruct (decide (j = i)) as [->|Hne].
  - apply list_lookup_insert_Some in Hj as [(_ & <- & _)|[? _]]; done.
  - rewrite list_lookup_insert_ne in Hj by done. by apply (Ht j).
Qed.

Lemma dinv_ostep s items hand s' :
  dinv s items hand -> ostep s (own s) s' -> exists items' hand', dinv s' items' hand'.
Proof.
  intros Hi Hst. pose proof (di_own _ _ _ Hi) as Ho. unfold own_ok in Ho.
  remember (own s) as c eqn:Hc. symmetry in Hc.
  destruct Hst; simpl in Ho;
    try (by exists items, hand; apply dinv_own; [done|]; unfold own_ok; simpl; naive_solver lia).
  - exists items, hand. by apply dinv_store.
  - exists (items ++ [x]), []. by apply (dinv_publish s items hand).
  - destruct (dinv_fast s items hand b t) as (items' & x & _ & ?); eauto.
  - exists items, []. by apply (dinv_take s items hand).
  - exists items, hand. apply dinv_bottom; [done|]. unfold own_ok. simpl. naive_solver lia.
  - exists items, hand. apply dinv_bottom; [done|]. unfold own_ok. simpl. naive_solver lia.
  - exfalso. lia.
  - exists items, hand. apply dinv_own; [done|]. unfold own_ok. simpl. subst t.
    destruct Ho as (-> & ? & HL & ?). split_and!; try done; try lia. intros Htop.
    destruct items as [|y [|z items]]; simpl in HL; try lia. f_equal.
    rewrite <- (di_slot _ _ _ Hi 0%nat y eq_refl). f_equal. lia.
  - exists [], []. by apply (dinv_cas s items hand).
  - exists items, hand. apply dinv_own; [done|]. unfold own_ok. simpl.
    destruct Ho as (-> & ? & ? & ? & _). destruct items; simpl in *; split_and!; try done; lia.
  - exists items, hand. apply dinv_bottom; [done|]. unfold own_ok. simpl.
    destruct Ho as (-> & ? & ? & ->). simpl. split; [done|lia].
Qed.

Lemma dinv_thstep s items hand i c won s' :
  dinv s items hand -> thieves s !! i = Some c -> thstep s i c won s' -> won && fast_gap s = false ->
  exists items', dinv s' items' hand.
Proof.
  intros Hi Hc Hst Hg. pose proof (di_thieves _ _ _ Hi i c Hc) as Ht. destruct Hst; simpl in *.
  - exists items. apply dinv_thief; [done|]. simpl. lia.
  - exists items. by apply dinv_thief.
  - exists items. apply dinv_thief; [done|]. split; [done|]. intros -> ->.
    pose proof (bottom_le _ _ _ Hi). simpl in *. lia.
  - exists items. apply dinv_thief; [done|]. destruct Ht as [Ht Hne]. split; [done|]. intros ->.
    destruct items as [|y items]; [by destruct Hne|]. simpl. f_equal. symmetry.
    rewrite <- (di_slot _ _ _ Hi 0%nat y eq_refl). f_equal. lia.
  - destruct (dinv_steal s items hand i t x) as (items' & _ & ?); eauto.
  - exists items. by apply dinv_thief.
Qed.

Lemma dreach_calm_inv n s : dreach_calm n s -> exists items hand, dinv s items hand.
Proof.
  induction 1 as [|s won s' _ (items & hand & Hi) Hst Hg].
  - exists [], []. split; try done; simpl; try lia.
    + by rewrite length_replicate.
    + intros i c Hc. by apply lookup_replicate in Hc as [-> _].
  - destruct Hst as [s' Hst|i c won s' Hc Hst].
    + by apply (dinv_ostep s items hand).
    + destruct (dinv_thstep s items hand i c won s') as [items' ?]; eauto.
Qed.
End Deque.

(** ** Properties *)

(** C5. The deque is safe for one owner and any number of thieves in every
    interleaving in which no steal succeeds between the owner's load of [top]
    and its store of [bottom] on the pop fast path: the tasks returned by pops
    and steals are, with multiplicity, among the tasks pushed, so no task is
    returned twice. *)
Theorem deque_calm_no_duplicate N n s :
  1 <= N -> dreach_calm N n s ->
  exists rest, pushed s ≡ₚ delivered s ++ rest /\ Z.of_nat (length rest) <= N + 1.
Proof.
  intros HN Hr. destruct (dreach_calm_inv N HN n s Hr) as (items & hand & Hi).
  exists (hand ++ items). split; [apply Hi|]. rewrite length_app.
  pose proof (di_bound _ _ _ _ Hi). assert (length hand <= 1)%nat; [|lia].
  pose proof (di_own _ _ _ _ Hi) as Ho. unfold own_ok in Ho.
  destruct (own s); simpl in Ho; destruct_and?; subst; simpl; lia.
Qed.

(** A push followed by a steal. *)
Definition calm_demo : dstate :=
  mk_dstate (<[0%nat := 80]> (replicate 256 NULL)) 1 1 OIdle [TIdle] [80] [80].

Lemma calm_demo_reach : dreach_calm 256 1 calm_demo.
Proof.
  assert (Ow : forall s s', dreach_calm 256 1 s -> ostep 256 s (own s) s' -> dreach_calm 256 1 s').
  { intros s s' H1 H2. eapply drc_step; [done|by apply d_owner|done]. }
  assert (Th : forall s c won s', dreach_calm 256 1 s -> thieves s !! 0%nat = Some c ->
    thstep 256 s 0 c won s' -> won && fast_gap s = false -> dreach_calm 256 1 s').
  { intros s c won s' H1 H2 H3 H4. by eapply drc_step; [done|eapply d_thief|done]. }
  pose proof (Ow _ _ (drc_start 256 1) (o_push 256 _ 80)) as H1.
  pose proof (fun p => Ow _ _ H1 (o_push_room 256 _ 80 0 p)) as H2; specialize (H2 eq_refl).
  pose proof (Ow _ _ H2 (o_push_store 256 _ 80 0)) as H3.
  pose proof (Ow _ _ H3 (o_push_pub 256 _ 80 0)) as H4.
  pose proof (Th _ _ _ _ H4 eq_refl (th_top 256 _ 0) eq_refl) as H5.
  pose proof (fun p => Th _ _ _ _ H5 eq_refl (th_bottom 256 _ 0 0 p) eq_refl) as H6; specialize (H6 eq_refl).
  pose proof (Th _ _ _ _ H6 eq_refl (th_read 256 _ 0 0) eq_refl) as H7.
  pose proof (fun p => Th _ _ _ _ H7 eq_refl (th_cas 256 _ 0 0 80 p) eq_refl) as H8; specialize (H8 eq_refl).
  exact H8.
Qed.

Lemma deque_calm_no_duplicate_witness :
  exists rest, pushed calm_demo ≡ₚ delivered calm_demo ++ rest /\ Z.of_nat (length rest) <= 257.
Proof. exact (deque_calm_no_duplicate 256 1 calm_demo ltac:(lia) calm_demo_reach). Defined.

(** Without that condition the deque is not safe: with two tasks resident
    and a single thief, the owner loads [bottom] = 2 and [top] = 0 and chooses
    the fast path; the thief then steals both tasks; the owner stores
    [bottom] = 1 and returns the second task again.  Every pair of tasks can
    thus be pushed once and the second one delivered twice. *)
Theorem deque_pop_fast_path_duplicates x y :
  exists s, dreach 256 1 s /\ pushed s = [x; y] /\ delivered s = [x; y; y].
Proof.
  assert (Ow : forall s s', dreach 256 1 s -> ostep 256 s (own s) s' -> dreach 256 1 s').
  { intros s s' H1 H2. eapply dr_step; [done|by apply d_owner]. }
  assert (Th : forall s c won s', dreach 256 1 s -> thieves s !! 0%nat = Some c ->
    thstep 256 s 0 c won s' -> dreach 256 1 s').
  { intros s c won s' H1 H2 H3. by eapply dr_step; [done|eapply d_thief]. }
  assert (Push : forall s z b, dreach 256 1 s -> own s = OIdle -> d_bottom s = b -> b - d_top s < 256 ->
    dreach 256 1 (set_own (push_rec (set_bottom (set_slot 256 s b z) (b + 1)) z) OIdle)).
  { intros s z b H Ho Hb Hlt.
    pose proof (Ow s (set_own s (PushB z b)) H) as H1. rewrite Ho in H1. subst b.
    specialize (H1 (o_push 256 s z)).
    pose proof (fun p => Ow _ _ H1 (o_push_room 256 _ z _ p)) as H2; specialize (H2 Hlt).
    pose proof (Ow _ _ H2 (o_push_store 256 _ z _)) as H3.
    exact (Ow _ _ H3 (o_push_pub 256 _ z _)). }
  assert (Steal : forall s t, dreach 256 1 s -> thieves s = [TIdle] -> d_top s = t -> t < d_bottom s ->
    dreach 256 1 (deliver (set_top s (t + 1)) (rd 256 s t))).
  { intros s t H Ht Htop Hlt. destruct s as [sl b tp o th pu de]. simpl in *. subst.
    pose proof (Th _ _ _ _ H eq_refl (th_top 256 _ 0)) as H1.
    pose proof (fun p => Th _ _ _ _ H1 eq_refl (th_bottom 256 _ 0 _ p)) as H2; specialize (H2 Hlt).
    pose proof (Th _ _ _ _ H2 eq_refl (th_read 256 _ 0 _)) as H3.
    pose proof (fun p => Th _ _ _ _ H3 eq_refl (th_cas 256 _ 0 _ _ p)) as H4. exact (H4 eq_refl). }
  pose proof (Push _ x 0 (dr_start 256 1) eq_refl eq_refl eq_refl) as P1.
  pose proof (Push _ y 1 P1 eq_refl eq_refl eq_refl) as P2.
  pose proof (Ow _ _ P2 (o_pop 256 _)) as P3.
  pose proof (fun p => Ow _ _ P3 (o_pop_top 256 _ 2 p)) as P4; specialize (P4 ltac:(done)).
  pose proof (Steal _ 0 P4 eq_refl eq_refl eq_refl) as P5.
  pose proof (Steal _ 1 P5 eq_refl eq_refl eq_refl) as P6.
  pose proof (fun p => Ow _ _ P6 (o_pop_fast 256 _ 2 0 p)) as P7; specialize (P7 eq_refl).
  pose proof (Ow _ _ P7 (o_pop_take 256 _ 1)) as P8.
  eexists. split; [exact P8|]. split; reflexivity.
Qed.
