(* ===== verification/NodePool.v ===== *)
(** * Task-node allocation (src/thread_pool.c: pool registry, node_stack_batch_pop,
    node_stack_batch_push, the per-thread node cache, task_create, task_destroy).

    Each pool owns an array of task nodes whose free slots form a chain of
    indices; [node_stack] packs the head index (low 32 bits) and an ABA tag
    (high 32 bits).  Every thread caches nodes of one pool at a time, named by
    its registry id.  The state of all pools and threads is explicit, since a
    thread that switches pools returns its cached nodes to their real owner. *)
From S2P Require Import Prelude Types.

Definition SIZEOF_TASK : Z := 80.    (* sizeof(loom_task_t) *)

Record node_pool := mk_node_pool {
  np_base : ptr;                     (* pool->node_pool *)
  np_cap : Z;                        (* pool->node_pool_cap *)
  node_free_next : list Z;
  node_stack : Z;                    (* tag << 32 | head *)
  np_id : Z;                         (* pool->id *)
  next_task_id : Z;
}.

(** Seeding of the free list in pool_init: 0, 1, ..., cap - 1, END. *)
Definition node_pool_init (base id : Z) : node_pool :=
  mk_node_pool base LOOMWORKS_NODE_POOL_CAP
    ((fun i => if (S i <? Z.to_nat LOOMWORKS_NODE_POOL_CAP)%nat then Z.of_nat (S i) else LOOMWORKS_NODE_FREE_END)
       <$> seq 0 (Z.to_nat LOOMWORKS_NODE_POOL_CAP)) 0 id 1.

(** The degraded pool, when either allocation fails. *)
Definition node_pool_none (id : Z) : node_pool :=
  mk_node_pool NULL 0 [] LOOMWORKS_NODE_FREE_END id 1.

Definition node_from_pool (np : node_pool) (node : ptr) : bool :=
  if (np_base np =? NULL) || (np_cap np =? 0) then false
  else (np_base np <=? node) && (node <? np_base np + np_cap np * SIZEOF_TASK).

Definition node_at (np : node_pool) (slot : Z) : ptr := np_base np + slot * SIZEOF_TASK.
Definition slot_of (np : node_pool) (node : ptr) : Z := u32 ((node - np_base np) / SIZEOF_TASK).

Definition next_of (np : node_pool) (slot : Z) : Z := node_free_next np !!! Z.to_nat slot.

(** [(tag + 1) << 32 | slot], the tag being 32 bits wide. *)
Definition retag (head slot : Z) : Z := Z.lor (Z.shiftl (u32 (Z.shiftr head 32) +32 1) 32) slot.

Definition set_stack (np : node_pool) (nexts : list Z) (stack : Z) : node_pool :=
  mk_node_pool (np_base np) (np_cap np) nexts stack (np_id np) (next_task_id np).

(** ** Batch primitives *)

(** The [while (n < want)] walk: the last slot to detach and their number. *)
Fixpoint pop_walk (fuel : nat) (np : node_pool) (cur : Z) (n want : nat) : Z * nat :=
  match fuel with
  | O => (cur, n)
  | S f =>
      if (n <? want)%nat then
        let link := next_of np cur in
        if link =? LOOMWORKS_NODE_FREE_END then (cur, n) else pop_walk f np link (S n) want
      else (cur, n)
  end.

(** The second walk, over the detached slots. *)
Fixpoint detached (n : nat) (np : node_pool) (det : Z) : list ptr :=
  match n with
  | O => []
  | S n => node_at np det :: detached n np (next_of np det)
  end.

Definition node_stack_batch_pop (np : node_pool) (want : nat) : list ptr * node_pool :=
  if (np_base np =? NULL) || (np_cap np =? 0) || (want =? 0)%nat then ([], np)
  else
    let head := node_stack np in
    let slot := u32 head in
    if slot =? LOOMWORKS_NODE_FREE_END then ([], np)
    else
      let '(cur, n) := pop_walk want np slot 1 want in
      let successor := next_of np cur in
      (detached n np slot, set_stack np (node_free_next np) (retag head successor)).

(** Links [in[0..n-1]] into a chain. *)
Fixpoint link_chain (np : node_pool) (nexts : list Z) (nodes : list ptr) : list Z :=
  match nodes with
  | a :: (b :: _) as rest =>
      link_chain np (<[Z.to_nat (slot_of np a) := slot_of np b]> nexts) rest
  | _ => nexts
  end.

Definition node_stack_batch_push (np : node_pool) (nodes : list ptr) : bool * node_pool :=
  match nodes with
  | [] => (true, np)
  | first :: _ =>
      if (np_base np =? NULL) || (np_cap np =? 0) then (false, np)
      else if negb (forallb (fun p => negb (p =? NULL) && node_from_pool np p) nodes) then (false, np)
      else
        let nexts := link_chain np (node_free_next np) nodes in
        let head := node_stack np in
        let last_slot := slot_of np (default NULL (last nodes)) in
        (true, set_stack np (<[Z.to_nat last_slot := u32 head]> nexts)
                 (retag head (slot_of np first)))
  end.

(** ** Registry, thread caches, and the world they live in *)

Record tls_t := mk_tls {
  g_tls_nodes : list ptr;            (* NULL = empty slot *)
  g_tls_owner_id : Z;                (* 0 = never refilled *)
  g_tls_next : nat;
}.

Definition tls_init : tls_t := mk_tls (replicate LOOMWORKS_TLS_NODE_SLOTS NULL) 0 0.

#[export] Instance tls_inhabited : Inhabited tls_t := populate tls_init.
#[export] Instance node_pool_inhabited : Inhabited node_pool := populate (node_pool_none 0).

(** Pools by address, the registry entries [g_pool_reg[0..len)], the id counter
    and one cache per thread. *)
Record world := mk_world {
  w_pools : gmap ptr node_pool;
  g_pool_reg : list (Z * ptr);
  g_pool_next_id : Z;
  w_tls : list tls_t;
}.

Definition pool_reg_register (w : world) (pool : ptr) : Z * world :=
  let id := g_pool_next_id w in
  if (length (g_pool_reg w) <? LOOMWORKS_POOL_REGISTRY_CAP)%nat
  then (id, mk_world (w_pools w) (g_pool_reg w ++ [(id, pool)]) (id +64 1) (w_tls w))
  else (0, mk_world (w_pools w) (g_pool_reg w) (id +64 1) (w_tls w)).

Fixpoint reg_find (reg : list (Z * ptr)) (id : Z) : option ptr :=
  match reg with
  | [] => None
  | (i, p) :: reg => if i =? id then Some p else reg_find reg id
  end.

Definition pool_reg_lookup (w : world) (id : Z) : option ptr := reg_find (g_pool_reg w) id.

(** The entry of [pool] is overwritten by the last one. *)
Fixpoint reg_index (reg : list (Z * ptr)) (pool : ptr) (i : nat) : option nat :=
  match reg with
  | [] => None
  | (_, p) :: reg => if p =? pool then Some i else reg_index reg pool (S i)
  end.

Definition pool_reg_unregister (w : world) (pool : ptr) : world :=
  match reg_index (g_pool_reg w) pool 0 with
  | None => w
  | Some i =>
      let reg := g_pool_reg w in
      let n := (length reg - 1)%nat in
      mk_world (w_pools w) (take n (<[i := reg !!! n]> reg)) (g_pool_next_id w) (w_tls w)
  end.

Definition get_tls (w : world) (i : nat) : tls_t := w_tls w !!! i.
Definition set_tls (w : world) (i : nat) (t : tls_t) : world :=
  mk_world (w_pools w) (g_pool_reg w) (g_pool_next_id w) (<[i := t]> (w_tls w)).
Definition get_pool (w : world) (p : ptr) : node_pool := w_pools w !!! p.
Definition set_pool (w : world) (p : ptr) (np : node_pool) : world :=
  mk_world (<[p := np]> (w_pools w)) (g_pool_reg w) (g_pool_next_id w) (w_tls w).

Definition cached_nodes (t : tls_t) : list ptr := filter (fun n => n <> NULL) (g_tls_nodes t).
Definition empty_cache (t : tls_t) (owner : Z) : tls_t :=
  mk_tls (replicate (length (g_tls_nodes t)) NULL) owner (g_tls_next t).

Definition tls_resolve_owner (w : world) (i : nat) (pool : ptr) : world :=
  let t := get_tls w i in
  let old := g_tls_owner_id t in
  let id := np_id (get_pool w pool) in
  if (old =? 0) || (old =? id) then set_tls w i (mk_tls (g_tls_nodes t) id (g_tls_next t))
  else
    let w1 := match pool_reg_lookup w old with
              | Some owner => set_pool w owner (node_stack_batch_push (get_pool w owner) (cached_nodes t)).2
              | None => w
              end in
    set_tls w1 i (empty_cache t id).

Definition tls_flush_to_pool (w : world) (i : nat) (pool : ptr) : world :=
  let t := get_tls w i in
  let w1 := set_pool w pool (node_stack_batch_push (get_pool w pool) (cached_nodes t)).2 in
  set_tls w1 i (empty_cache t 0).

(** The round-robin probe for a slot satisfying [want]. *)
Definition tls_probe (t : tls_t) (want : ptr -> bool) : option nat :=
  head (filter (fun j => want (g_tls_nodes t !!! j))
          ((fun probe => (g_tls_next t + probe) mod LOOMWORKS_TLS_NODE_SLOTS)%nat
             <$> seq 0 LOOMWORKS_TLS_NODE_SLOTS)).

Definition put_slot (t : tls_t) (j : nat) (n : ptr) : tls_t :=
  mk_tls (<[j := n]> (g_tls_nodes t)) (g_tls_owner_id t) ((j + 1) mod LOOMWORKS_TLS_NODE_SLOTS)%nat.

(** Stash [nodes] in the empty slots of the cache. *)
Fixpoint stash (cache : list ptr) (nodes : list ptr) : list ptr :=
  match cache, nodes with
  | c :: cache, n :: rest => if c =? NULL then n :: stash cache rest else c :: stash cache nodes
  | _, _ => cache
  end.

(** The node: from the cache, from the pool's free list, or from malloc (whose
    outcome is the argument [malloc]). *)
Definition alloc_node (w : world) (i : nat) (pool : ptr) (malloc : option ptr) : option (ptr * world) :=
  let t := get_tls w i in
  match tls_probe t (fun n => negb (n =? NULL)) with
  | Some j => Some (g_tls_nodes t !!! j, set_tls w i (put_slot t j NULL))
  | None =>
      let room := length (filter (fun n => n = NULL) (g_tls_nodes t)) in
      if (0 <? room)%nat then
        let '(buf, np') := node_stack_batch_pop (get_pool w pool) room in
        match buf with
        | n :: rest =>
            Some (n, set_tls (set_pool w pool np') i
                       (mk_tls (stash (g_tls_nodes t) rest) (np_id np') (g_tls_next t)))
        | [] => (fun n => (n, w)) <$> malloc
        end
      else (fun n => (n, w)) <$> malloc
  end.

Definition future_task_wrapper_addr : ptr := 1.  (* the address of future_task_wrapper *)

Definition task_create (w : world) (i : nat) (pool : ptr) (f data : ptr) (prio : Z) (malloc : option ptr)
  : option (ptr * loom_task_t * world) :=
  let w0 := if g_tls_owner_id (get_tls w i) =? np_id (get_pool w pool) then w
            else tls_resolve_owner w i pool in
  match alloc_node w0 i pool malloc with
  | None => None
  | Some (n, w1) =>
      let np := get_pool w1 pool in
      let id := next_task_id np in
      let w2 := set_pool w1 pool (mk_node_pool (np_base np) (np_cap np) (node_free_next np) (node_stack np)
                                   (np_id np) (id +64 1)) in
      Some (n, mk_task f data false (id +64 1) prio NULL false (f =? future_task_wrapper_addr)
                 false NULL 0 NULL, w2)
  end.

(** The world after the call, and the node handed to free(), if any. *)
Definition task_destroy (w : world) (i : nat) (pool : ptr) (n : ptr) : option ptr * world :=
  if n =? NULL then (None, w)
  else if node_from_pool (get_pool w pool) n then
    let w0 := if g_tls_owner_id (get_tls w i) =? np_id (get_pool w pool) then w
              else tls_resolve_owner w i pool in
    let t := get_tls w0 i in
    match tls_probe t (fun c => c =? NULL) with
    | Some j => (None, set_tls w0 i (put_slot t j n))
    | None =>
        let '(ok, np') := node_stack_batch_push (get_pool w0 pool) (cached_nodes t ++ [n]) in
        let w1 := set_tls (set_pool w0 pool np') i (empty_cache t (g_tls_owner_id t)) in
        (if ok then None else Some n, w1)
    end
  else (Some n, w).

(** ** The free list is a chain of distinct slots *)

Fixpoint nchain (np : node_pool) (head : Z) (l : list Z) : Prop :=
  match l with
  | [] => head = LOOMWORKS_NODE_FREE_END
  | s :: l => head = s /\ 0 <= s < np_cap np /\ nchain np (next_of np s) l
  end.

Record np_wf (np : node_pool) (l : list Z) : Prop := {
  nw_base : 0 < np_base np;
  nw_cap : 0 < np_cap np < LOOMWORKS_NODE_FREE_END;
  nw_len : length (node_free_next np) = Z.to_nat (np_cap np);
  nw_chain : nchain np (u32 (node_stack np)) l;
  nw_nodup : NoDup l;
}.

Lemma nchain_range np h l : nchain np h l -> Forall (fun s => 0 <= s < np_cap np) l.
Proof. revert h. induction l as [|s l IH]; intros h; [done|]. simpl. intros (-> & ? & ?). eauto. Qed.

(** A chain depends only on the links of its own slots. *)
Lemma nchain_frame np np' h l :
  np_cap np' = np_cap np -> (forall s, s ∈ l -> next_of np' s = next_of np s) ->
  nchain np h l -> nchain np' h l.
Proof.
  intros Hc. revert h. induction l as [|s l IH]; intros h Hn; [done|]. simpl.
  intros (-> & ? & Hl). rewrite Hc, (Hn s) by constructor. split_and!; [done|lia|lia|]. apply IH; [|done].
  intros x Hx. apply Hn. by constructor.
Qed.

Lemma u32_retag head slot : 0 <= slot < 2 ^ 32 -> u32 (retag head slot) = slot.
Proof.
  intros Hs. unfold retag. set (x := _ +32 _). unfold u32.
  rewrite <- Z.land_ones, Z.land_lor_distr_l, !Z.land_ones by lia.
  rewrite Z.shiftl_mul_pow2, Z.mod_mul, (Z.mod_small slot) by lia. apply Z.lor_0_l.
Qed.

Lemma slot_node np s : 0 <= s < 2 ^ 32 -> slot_of np (node_at np s) = s.
Proof.
  intros Hs. unfold slot_of, node_at. replace (_ - np_base np) with (s * SIZEOF_TASK) by lia.
  rewrite Z.div_mul by done. by apply u32_small.
Qed.

Lemma node_at_inj np a b : node_at np a = node_at np b -> a = b.
Proof. unfold node_at, SIZEOF_TASK. lia. Qed.

(** *** Pop *)

Lemma pop_walk_spec np want fuel cur n l :
  np_cap np < LOOMWORKS_NODE_FREE_END ->
  nchain np cur l -> l <> [] -> (1 <= n <= want)%nat -> (want <= n + fuel)%nat ->
  let '(c, m) := pop_walk fuel np cur n want in
  exists k, m = (n + k)%nat /\ S k = ((want + 1 - n) `min` length l)%nat /\
    nchain np (next_of np c) (drop (S k) l).
Proof.
  intros Hcap. revert cur n l. induction fuel as [|f IH]; intros cur n l Hl Hne Hn Hf; cbn [pop_walk];
    (destruct l as [|s l]; [done|]); destruct Hl as (-> & Hs & Hl).
  { exists 0%nat. simpl. split_and!; [lia|lia|done]. }
  destruct (Nat.ltb_spec n want).
  2:{ exists 0%nat. simpl. split_and!; [lia|lia|done]. }
  destruct l as [|s2 l].
  { simpl in Hl. rewrite Hl, Z.eqb_refl. exists 0%nat. simpl. split_and!; [lia|lia|done]. }
  pose proof Hl as (He & Hs2 & _). rewrite He, (proj2 (Z.eqb_neq _ _)) by lia.
  specialize (IH s2 (S n) (s2 :: l) ltac:(rewrite He in Hl; exact Hl) ltac:(done) ltac:(lia) ltac:(lia)).
  destruct (pop_walk f np s2 (S n) want) as [c m]. destruct IH as (k & -> & Hk & Hc).
  exists (S k). split_and!; [lia|simpl in *; lia|done].
Qed.

Lemma detached_spec np n h l :
  nchain np h l -> (n <= length l)%nat -> detached n np h = node_at np <$> take n l.
Proof.
  revert h l. induction n as [|n IH]; intros h l Hl Hn; [done|].
  destruct l as [|s l]; [simpl in Hn; lia|]. destruct Hl as (-> & _ & Hl). simpl in *.
  f_equal. apply IH; [done|lia].
Qed.

Lemma batch_pop_spec np l want :
  np_wf np l ->
  let '(out, np') := node_stack_batch_pop np want in
  out = node_at np <$> take want l /\ np_wf np' (drop want l) /\
  np_base np' = np_base np /\ np_cap np' = np_cap np /\ np_id np' = np_id np /\
  next_task_id np' = next_task_id np.
Proof.
  intros Hw. pose proof (nw_base _ _ Hw). pose proof (nw_cap _ _ Hw) as Hcap. unfold node_stack_batch_pop.
  rewrite !(proj2 (Z.eqb_neq _ _)) by (unfold NULL; lia). simpl.
  destruct (Nat.eqb_spec want 0) as [->|Hwant]; [by rewrite drop_0|].
  pose proof (nw_chain _ _ Hw) as Hl. destruct l as [|s l].
  { simpl in Hl. rewrite Hl, Z.eqb_refl, take_nil, drop_nil. done. }
  pose proof Hl as (He & Hs & _). rewrite He, (proj2 (Z.eqb_neq _ _)) by lia.
  rewrite He in Hl.
  pose proof (pop_walk_spec np want want s 1 (s :: l) ltac:(lia) Hl ltac:(done) ltac:(lia) ltac:(lia)) as Hp.
  destruct (pop_walk _ _ _ _ _) as [c m]. destruct Hp as (k & -> & Hk & Hc).
  assert (Htk : take want (s :: l) = take (S k) (s :: l) /\ drop want (s :: l) = drop (S k) (s :: l)).
  { rewrite Hk. replace (want + 1 - 1)%nat with want by lia.
    destruct (decide (want <= length (s :: l))%nat); [by rewrite Nat.min_l|].
    rewrite Nat.min_r, !take_ge, !drop_ge by lia. done. }
  destruct Htk as [-> ->]. split_and!; [|split|done..]; try done.
  - apply detached_spec; [done|]. lia.
  - apply Hw.
  - simpl. rewrite u32_retag; [by apply (nchain_frame np)|].
    destruct (drop (S k) (s :: l)) as [|x l'] eqn:Ed; [by rewrite Hc|].
    destruct Hc as (-> & ? & _). unfold LOOMWORKS_NODE_FREE_END, UINT32_MAX in *. lia.
  - eapply sublist_NoDup; [apply (nw_nodup _ _ Hw)|]. apply sublist_drop.
Qed.

(** *** Push *)

(** [N] links the slots [s] one to the next and the last one to [h]. *)
Fixpoint linked (N : list Z) (s : list Z) (h : Z) : Prop :=
  match s with
  | [] => True
  | [x] => N !!! Z.to_nat x = h
  | x :: (y :: _) as rest => N !!! Z.to_nat x = y /\ linked N rest h
  end.

Lemma link_chain_spec np cap s nexts h :
  s <> [] -> NoDup s -> Forall (fun x => 0 <= x < cap) s -> cap <= 2 ^ 32 -> length nexts = Z.to_nat cap ->
  let N := <[Z.to_nat (default 0 (last s)) := h]> (link_chain np nexts (node_at np <$> s)) in
  length N = length nexts /\ linked N s h /\
  forall j, 0 <= j -> j ∉ s -> N !!! Z.to_nat j = nexts !!! Z.to_nat j.
Proof.
  intros Hne Hnd Hr Hcap. revert nexts. induction s as [|x s IH]; intros nexts Hlen; [done|].
  apply Forall_cons in Hr as [Hx Hr]. apply NoDup_cons in Hnd as [Hxs Hnd].
  destruct s as [|y s].
  - simpl. rewrite length_insert. split_and!; [done| |].
    + apply array_read_insert_eq. lia.
    + intros j Hj Hni. apply array_read_insert_ne. set_solver by lia.
  - change (link_chain np nexts (node_at np <$> x :: y :: s)) with
      (link_chain np (<[Z.to_nat (slot_of np (node_at np x)) := slot_of np (node_at np y)]> nexts) (node_at np <$> y :: s)).
    pose proof (proj1 (proj1 (Forall_cons _ _ _) Hr)) as Hy.
    rewrite !slot_node by lia. change (last (x :: y :: s)) with (last (y :: s)).
    destruct (IH ltac:(done) Hnd Hr (<[Z.to_nat x := y]> nexts)) as (Hl & Hlk & Hout).
    { by rewrite length_insert. }
    split_and!; [by rewrite Hl, length_insert| |].
    + split; [|done]. rewrite (Hout x) by (done || lia). apply array_read_insert_eq. lia.
    + intros j Hj Hni. rewrite (Hout j) by (done || set_solver).
      apply array_read_insert_ne. set_solver by lia.
Qed.

Lemma linked_chain np s h l :
  Forall (fun x => 0 <= x < np_cap np) s -> linked (node_free_next np) s h -> nchain np h l ->
  s <> [] -> nchain np (default 0 (head s)) (s ++ l).
Proof.
  intros Hr Hlk Hl. induction s as [|x s IH]; intros Hne; [done|].
  apply Forall_cons in Hr as [Hx Hr]. destruct s as [|y s].
  - simpl in *. split_and!; [done|lia|lia|]. unfold next_of. by rewrite Hlk.
  - destruct Hlk as [He Hlk]. specialize (IH Hr Hlk ltac:(done)). cbn [app head default] in *.
    split_and!; [done|lia|lia|]. unfold next_of at 1. by rewrite He.
Qed.

Lemma node_at_in np l s : np_wf np l -> 0 <= s < np_cap np ->
  node_from_pool np (node_at np s) = true /\ node_at np s <> NULL.
Proof.
  intros Hw Hs. pose proof (nw_base _ _ Hw). pose proof (nw_cap _ _ Hw). unfold node_from_pool, node_at, SIZEOF_TASK, NULL.
  rewrite !(proj2 (Z.eqb_neq _ _)) by lia. simpl. split; [|lia].
  apply andb_true_intro. split; [apply Z.leb_le; lia|apply Z.ltb_lt; lia].
Qed.

Lemma batch_push_spec np l s :
  np_wf np l -> NoDup (s ++ l) -> Forall (fun x => 0 <= x < np_cap np) s ->
  let '(ok, np') := node_stack_batch_push np (node_at np <$> s) in
  ok = true /\ np_wf np' (s ++ l) /\ np_base np' = np_base np /\ np_cap np' = np_cap np /\
  np_id np' = np_id np /\ next_task_id np' = next_task_id np.
Proof.
  intros Hw Hnd Hr. pose proof (nw_base _ _ Hw). pose proof (nw_cap _ _ Hw) as Hcap.
  destruct s as [|x s]; [done|]. unfold node_stack_batch_push.
  change (node_at np <$> x :: s) with (node_at np x :: (node_at np <$> s)). cbv iota beta.
  rewrite !(proj2 (Z.eqb_neq _ _)) by (unfold NULL; lia). cbn [orb].
  assert (Hall : forallb (fun p => negb (p =? NULL) && node_from_pool np p) (node_at np x :: (node_at np <$> s)) = true).
  { apply forallb_forall. intros p Hp. apply list_elem_of_In in Hp.
    change (node_at np x :: (node_at np <$> s)) with (node_at np <$> x :: s) in Hp.
    apply list_elem_of_fmap in Hp as (y & -> & Hy). eapply Forall_forall in Hr; [|done].
    destruct (node_at_in np l y Hw Hr) as [-> Hn]. rewrite (proj2 (Z.eqb_neq _ _)) by done. done. }
  rewrite Hall. cbn [negb].
  assert (Hlast : slot_of np (default NULL (last (node_at np x :: (node_at np <$> s)))) = default 0 (last (x :: s))).
  { change (node_at np x :: (node_at np <$> s)) with (node_at np <$> x :: s). rewrite fmap_last.
    destruct (last (x :: s)) as [y|] eqn:Ey; [|by apply last_None in Ey]. simpl. apply slot_node.
    apply last_Some in Ey as [l' Ey]. rewrite Ey in Hr. apply Forall_app in Hr as [_ Hr].
    apply Forall_cons in Hr as [? _]. unfold LOOMWORKS_NODE_FREE_END, UINT32_MAX in *. lia. }
  rewrite Hlast.
  assert (Hx : 0 <= x < np_cap np) by (apply Forall_cons in Hr as [? _]; done).
  assert (Hb : np_cap np <= 2 ^ 32) by (unfold LOOMWORKS_NODE_FREE_END, UINT32_MAX in *; lia).
  destruct (link_chain_spec np (np_cap np) (x :: s) (node_free_next np) (u32 (node_stack np)))
    as (Hl & Hlk & Hout); [done|by apply NoDup_app in Hnd as [? _]|done|done|apply Hw|].
  split_and!; [done|split; cbn [set_stack np_base np_cap node_free_next node_stack]|done..]; try done.
  - rewrite <- (nw_len _ _ Hw). exact Hl.
  - rewrite slot_node by lia. rewrite u32_retag by lia.
    apply (linked_chain (set_stack np _ _) (x :: s) (u32 (node_stack np)) l Hr Hlk); [|done].
    apply (nchain_frame np); [done| |apply Hw]. intros y Hy. unfold next_of. apply Hout.
    + pose proof (nchain_range _ _ _ (nw_chain _ _ Hw)) as Hf. rewrite Forall_forall in Hf. specialize (Hf y Hy). lia.
    + apply NoDup_app in Hnd as (_ & Hd & _). intros Hin. by apply (Hd y Hin).
Qed.

(** ** Ownership

    Every node of a pool is in exactly one place: the pool's free list, the
    cache of one thread, or the hands of the program ([live]). *)

Definition all_cached (w : world) : list ptr := concat (cached_nodes <$> w_tls w).

Definition inp (np : node_pool) (n : ptr) : Prop := node_from_pool np n.
#[export] Instance inp_dec np n : Decision (inp np n).
Proof. unfold inp. apply _. Defined.

Definition bag (np : node_pool) (l : list Z) (cached live : list ptr) : list ptr :=
  (node_at np <$> l) ++ filter (inp np) (cached ++ live).

Definition aligned (np : node_pool) (n : ptr) : Prop :=
  inp np n -> exists s, 0 <= s < np_cap np /\ n = node_at np s.

Definition pool_inv (w : world) (live : list ptr) (np : node_pool) : Prop :=
  exists l, np_wf np l /\ NoDup (bag np l (all_cached w) live) /\
    Forall (aligned np) (all_cached w ++ live).

Record world_inv (w : world) (live : list ptr) : Prop := {
  wi_slots : forall i t, w_tls w !! i = Some t -> length (g_tls_nodes t) = LOOMWORKS_TLS_NODE_SLOTS;
  wi_pool : forall p np, w_pools w !! p = Some np -> pool_inv w live np;
  wi_id : forall p np, w_pools w !! p = Some np -> np_id np <> 0 /\ pool_reg_lookup w (np_id np) = Some p;
  wi_reg : forall id p, pool_reg_lookup w id = Some p -> exists np, w_pools w !! p = Some np /\ np_id np = id;
  wi_disj : forall p q np nq n, p <> q -> w_pools w !! p = Some np -> w_pools w !! q = Some nq ->
    inp np n -> inp nq n -> False;
  wi_zero : forall i t, w_tls w !! i = Some t -> g_tls_owner_id t = 0 -> cached_nodes t = [];
  wi_owner : forall i t n p np, w_tls w !! i = Some t -> n ∈ cached_nodes t -> w_pools w !! p = Some np ->
    inp np n <-> g_tls_owner_id t = np_id np;
}.

(** Replacing one thread's cache. *)
Lemma all_cached_set w i t t' :
  w_tls w !! i = Some t ->
  exists C, all_cached w ≡ₚ cached_nodes t ++ C /\ all_cached (set_tls w i t') ≡ₚ cached_nodes t' ++ C.
Proof.
  intros Ht. exists (concat (cached_nodes <$> take i (w_tls w)) ++ concat (cached_nodes <$> drop (S i) (w_tls w))).
  unfold all_cached, set_tls. simpl. split.
  - rewrite <- (take_drop_middle _ _ _ Ht) at 1. rewrite fmap_app, concat_app. simpl.
    rewrite !app_assoc. apply Permutation_app_tail, Permutation_app_comm.
  - rewrite insert_take_drop by eauto using lookup_lt_Some. rewrite fmap_app, concat_app. simpl.
    rewrite !app_assoc. apply Permutation_app_tail, Permutation_app_comm.
Qed.

(** The shape of a pool that no operation changes. *)
Definition same_pool (np np' : node_pool) : Prop :=
  np_base np' = np_base np /\ np_cap np' = np_cap np /\ np_id np' = np_id np.

Lemma same_inp np np' n : same_pool np np' -> inp np' n <-> inp np n.
Proof. intros (Hb & Hc & _). unfold inp, node_from_pool. by rewrite Hb, Hc. Qed.

(** A pool's invariant is about the multiset of its nodes: it survives any move
    between its free list, the caches and the program. *)
Lemma pool_inv_move w w' live live' np np' l l' :
  same_pool np np' -> np_wf np' l' -> NoDup (bag np l (all_cached w) live) ->
  bag np' l' (all_cached w') live' ≡ₚ bag np l (all_cached w) live ->
  Forall (aligned np') (all_cached w' ++ live') -> pool_inv w' live' np'.
Proof. intros Hs Hw Hnd Hp Ha. exists l'. split_and!; [done| |done]. by rewrite Hp. Qed.

(** A cached or live node of a pool is one of its slots, and not free. *)
Lemma owned_slot w live np n :
  pool_inv w live np -> n ∈ all_cached w ++ live -> inp np n ->
  exists s l, n = node_at np s /\ 0 <= s < np_cap np /\ np_wf np l /\ (s ∉ l) /\
    NoDup (bag np l (all_cached w) live) /\ Forall (aligned np) (all_cached w ++ live).
Proof.
  intros (l & Hw & Hnd & Ha) Hn Hin. rewrite Forall_forall in Ha.
  destruct (Ha n Hn Hin) as (s & Hs & ->). exists s, l. split_and!; try done; [lia|lia| |by rewrite Forall_forall].
  intros Hsl. unfold bag in Hnd. apply NoDup_app in Hnd as (_ & Hd & _).
  apply (Hd (node_at np s)); [by apply list_elem_of_fmap_2|]. by apply list_elem_of_filter.
Qed.

Lemma single_cache t : length (g_tls_nodes t) = LOOMWORKS_TLS_NODE_SLOTS -> exists n, g_tls_nodes t = [n].
Proof. destruct (g_tls_nodes t) as [|n [|]]; try done. eauto. Qed.

Lemma cached_empty t owner : cached_nodes (empty_cache t owner) = [].
Proof.
  unfold cached_nodes, empty_cache. simpl. induction (length (g_tls_nodes t)) as [|k IH]; [done|].
  simpl. by rewrite filter_cons_False by tauto.
Qed.

#[export] Instance bag_proper np l : Proper ((≡ₚ) ==> (≡ₚ) ==> (≡ₚ)) (bag np l).
Proof. intros c c' Hc v v' Hv. unfold bag. by rewrite Hc, Hv. Qed.

Lemma bag_same np np' l c v : same_pool np np' -> bag np' l c v = bag np l c v.
Proof.
  intros Hs. unfold bag. f_equal.
  - apply list_fmap_ext. intros _ x _. destruct Hs as (Hb & _). unfold node_at. by rewrite Hb.
  - apply list_filter_iff. intros n. by apply same_inp.
Qed.

Lemma bag_split np l c x C v : c ≡ₚ x ++ C -> bag np l c v ≡ₚ filter (inp np) C ++ bag np l x v.
Proof.
  intros ->. unfold bag. rewrite !filter_app, !app_assoc. apply Permutation_app_tail.
  rewrite <- !app_assoc, (Permutation_app_comm (filter (inp np) x)), !app_assoc.
  apply Permutation_app_tail, Permutation_app_comm.
Qed.

Lemma nodup_bag_swap np l l' c c' x x' C v v' :
  c ≡ₚ x ++ C -> c' ≡ₚ x' ++ C -> bag np l' x' v' ≡ₚ bag np l x v ->
  NoDup (bag np l c v) -> NoDup (bag np l' c' v').
Proof.
  intros Hc Hc' Hb. rewrite (bag_split np l c x C v Hc), (bag_split np l' c' x' C v' Hc'). by rewrite Hb.
Qed.

(** After one thread's cache and one pool have been replaced. *)
Section Frame.
Context (w : world) (i : nat) (t' : tls_t) (p0 : ptr) (np0 np0' : node_pool).
Context (Hp0 : w_pools w !! p0 = Some np0) (Hsame : same_pool np0 np0').
Let w' := set_tls (set_pool w p0 np0') i t'.

Lemma moved_pool p np :
  w_pools w' !! p = Some np ->
  exists np1, w_pools w !! p = Some np1 /\ same_pool np1 np /\
    (p = p0 /\ np = np0' \/ p <> p0 /\ np = np1).
Proof.
  simpl. intros Hp. destruct (decide (p = p0)) as [->|].
  - rewrite lookup_insert_eq in Hp. injection Hp as <-. eauto 10.
  - rewrite lookup_insert_ne in Hp by done. exists np. split_and!; [done|done|by right].
Qed.

Lemma moved_tls j tj : w_tls w' !! j = Some tj -> (j = i /\ tj = t') \/ w_tls w !! j = Some tj.
Proof.
  simpl. intros Hj. destruct (decide (j = i)) as [->|].
  - apply list_lookup_insert_Some in Hj as [(_ & <- & _)|[? _]]; [by left|done].
  - rewrite list_lookup_insert_ne in Hj by done. by right.
Qed.

(** Nodes that were owned before, are slots of [p0], or belong to no pool. *)
Definition known (live cached : list ptr) (n : ptr) : Prop :=
  n ∈ cached ++ live \/ (exists s, 0 <= s < np_cap np0 /\ n = node_at np0 s) \/
  (forall p np, w_pools w !! p = Some np -> ~ inp np n).

Lemma moved_aligned live live' t p np np' :
  world_inv w live -> w_tls w !! i = Some t -> w_pools w !! p = Some np -> same_pool np np' ->
  (forall n, n ∈ cached_nodes t' ++ live' -> known live (cached_nodes t) n) ->
  Forall (aligned np') (all_cached w' ++ live').
Proof.
  intros Hi Ht Hp Hs Hal. destruct (wi_pool _ _ Hi p np Hp) as (l & _ & _ & Ha).
  destruct (all_cached_set w i t t' Ht) as (C & HC & HC').
  change (all_cached (set_tls w i t')) with (all_cached w') in HC'.
  rewrite Forall_forall in Ha |- *. intros n Hn Hin. apply (same_inp _ _ n Hs) in Hin as Hin1.
  assert (Hgo : (exists s, 0 <= s < np_cap np /\ n = node_at np s) ->
    exists s, 0 <= s < np_cap np' /\ n = node_at np' s).
  { destruct Hs as (Hb & Hc & _). unfold node_at. by rewrite Hb, Hc. }
  apply Hgo. rewrite HC' in Hn. destruct (decide (n ∈ cached_nodes t' ++ live')) as [Hnew|Hold].
  2:{ apply Ha; [rewrite HC; set_solver|done]. }
  destruct (Hal n Hnew) as [Hx|[(s & Hs0 & ->)|Hx]].
  - apply Ha; [rewrite HC; set_solver|done].
  - destruct (decide (p = p0)) as [->|Hne]; [simplify_eq; eauto|].
    destruct (wi_pool _ _ Hi p0 np0 Hp0) as (l0 & Hw0 & _).
    exfalso. apply (wi_disj _ _ Hi p p0 np np0 _ Hne Hp Hp0 Hin1).
    unfold inp. by rewrite (proj1 (node_at_in np0 l0 s Hw0 Hs0)).
  - exfalso. by apply (Hx p np).
Qed.
End Frame.

Section Moves.
Context (w : world) (live : list ptr) (Hi : world_inv w live).
Context (i : nat) (t : tls_t) (Ht : w_tls w !! i = Some t).
Context (p0 : ptr) (np0 : node_pool) (Hp0 : w_pools w !! p0 = Some np0).

(** One thread's cache, one pool's free list and the live nodes change
    together; the nodes of every pool are only moved. *)
Lemma world_move np0' t' live' :
  same_pool np0 np0' -> length (g_tls_nodes t') = LOOMWORKS_TLS_NODE_SLOTS ->
  (g_tls_owner_id t' = 0 -> cached_nodes t' = []) ->
  (forall n p np, n ∈ cached_nodes t' -> w_pools w !! p = Some np ->
     inp np n <-> g_tls_owner_id t' = np_id np) ->
  (forall l, np_wf np0 l -> NoDup (bag np0 l (all_cached w) live) ->
     exists l', np_wf np0' l' /\
       bag np0 l' (cached_nodes t') live' ≡ₚ bag np0 l (cached_nodes t) live) ->
  (forall q nq, q <> p0 -> w_pools w !! q = Some nq ->
     filter (inp nq) (cached_nodes t' ++ live') ≡ₚ filter (inp nq) (cached_nodes t ++ live)) ->
  (forall n, n ∈ cached_nodes t' ++ live' -> known w np0 live (cached_nodes t) n) ->
  world_inv (set_tls (set_pool w p0 np0') i t') live'.
Proof.
  intros Hsame Hlen Hzero Hown Hbag Hother Hal.
  destruct (all_cached_set w i t t' Ht) as (C & HC & HC').
  pose proof (moved_pool w i t' p0 np0 np0' Hp0 Hsame) as Hpools.
  pose proof (moved_tls w i t' p0 np0') as Htls. split.
  - intros j tj [[-> ->]|Hj]%Htls; [done|by apply (wi_slots _ _ Hi j)].
  - intros p np Hp. destruct (Hpools p np Hp) as (np1 & Hp1 & Hs & Hcase).
    pose proof (moved_aligned w i t' p0 np0 np0' Hp0 Hsame live live' t p np1 np Hi Ht Hp1 Hs Hal) as Hall.
    destruct (wi_pool _ _ Hi p np1 Hp1) as (l & Hwf & Hnd & _).
    destruct Hcase as [[-> ->]|[Hne ->]].
    + assert (np1 = np0) as -> by congruence. destruct (Hbag l Hwf Hnd) as (l' & Hwf' & Hperm).
      exists l'. split_and!; [done| |done]. rewrite (bag_same np0 np0') by done.
      by apply (nodup_bag_swap np0 l l' _ _ _ _ C live live' HC HC' Hperm).
    + exists l. split_and!; [done| |done].
      apply (nodup_bag_swap np1 l l _ _ _ _ C live live' HC HC'); [|done].
      unfold bag. by rewrite (Hother p np1 Hne Hp1).
  - intros p np Hp. destruct (Hpools p np Hp) as (np1 & Hp1 & (_ & _ & Hid) & _).
    rewrite Hid. by apply (wi_id _ _ Hi).
  - intros id p Hl. destruct (wi_reg _ _ Hi id p Hl) as (np & Hp & Hid). simpl.
    destruct (decide (p = p0)) as [->|]; [|exists np; by rewrite lookup_insert_ne].
    exists np0'. rewrite lookup_insert_eq. simplify_eq. split; [done|]. by destruct Hsame as (_ & _ & ?).
  - intros p q np nq n Hne Hp Hq Hin1 Hin2. destruct (Hpools p np Hp) as (np1 & Hp1 & Hs1 & _).
    destruct (Hpools q nq Hq) as (nq1 & Hq1 & Hs2 & _).
    apply (wi_disj _ _ Hi p q np1 nq1 n Hne Hp1 Hq1); [by apply (same_inp np1 np)|by apply (same_inp nq1 nq)].
  - intros j tj [[-> ->]|Hj]%Htls; [done|by apply (wi_zero _ _ Hi j)].
  - intros j tj n p np Hj Hn Hp. destruct (Hpools p np Hp) as (np1 & Hp1 & Hs1 & _).
    rewrite (same_inp np1 np n Hs1). destruct Hs1 as (_ & _ & ->).
    apply Htls in Hj as [[-> ->]|Hj]; [by apply (Hown n p)|by apply (wi_owner _ _ Hi j tj n p)].
Qed.
End Moves.

(** ** The operations move nodes and nothing else *)

Lemma tls_probe_one t n want :
  g_tls_nodes t = [n] -> tls_probe t want = if want n then Some 0%nat else None.
Proof.
  intros Hn. unfold tls_probe, LOOMWORKS_TLS_NODE_SLOTS. cbn [seq fmap list_fmap].
  rewrite Nat.add_0_r, Nat.mod_1_r, Hn. simpl. rewrite filter_cons. simpl.
  destruct (want n); [by rewrite decide_True|by rewrite decide_False by tauto].
Qed.

Lemma cached_one t n : g_tls_nodes t = [n] -> cached_nodes t = if n =? NULL then [] else [n].
Proof.
  intros Hn. unfold cached_nodes. rewrite Hn, filter_cons. destruct (Z.eqb_spec n NULL) as [->|].
  - by rewrite decide_False by tauto.
  - by rewrite decide_True.
Qed.

Lemma filter_drop_one (P : ptr -> Prop) `{!forall x, Decision (P x)} n (l : list ptr) :
  ~ P n -> filter P (n :: l) = filter P l.
Proof. intros. by rewrite filter_cons_False. Qed.

Lemma get_tls_eq w i t : w_tls w !! i = Some t -> get_tls w i = t.
Proof. unfold get_tls. by apply list_lookup_total_correct. Qed.

Lemma get_pool_eq w q nq : w_pools w !! q = Some nq -> get_pool w q = nq.
Proof. unfold get_pool. by apply lookup_total_correct. Qed.

Lemma set_pool_id w q nq : w_pools w !! q = Some nq -> set_pool w q nq = w.
Proof. intros Hq. unfold set_pool. rewrite insert_id by done. by destruct w. Qed.

Lemma world_same w i t p np :
  w_tls w !! i = Some t -> w_pools w !! p = Some np -> set_tls (set_pool w p np) i t = w.
Proof. intros. rewrite set_pool_id by done. unfold set_tls. rewrite list_insert_id by done. by destruct w. Qed.

Lemma cached_in w i t x : w_tls w !! i = Some t -> x ∈ cached_nodes t -> x ∈ all_cached w.
Proof. intros Ht. destruct (all_cached_set w i t t Ht) as (C & HC & _). rewrite HC. set_solver. Qed.

Section Operations.
Context (w : world) (live : list ptr) (Hi : world_inv w live).
Context (i : nat) (t : tls_t) (Ht : w_tls w !! i = Some t).
Context (p : ptr) (np : node_pool) (Hp : w_pools w !! p = Some np).

Lemma id_inj q nq : w_pools w !! q = Some nq -> np_id nq = np_id np -> q = p.
Proof.
  intros Hq He. destruct (wi_id _ _ Hi q nq Hq) as [_ H1]. destruct (wi_id _ _ Hi p np Hp) as [_ H2].
  congruence.
Qed.

(** The cached nodes, as slots of their owner. *)
Lemma cached_slots q nq :
  w_pools w !! q = Some nq -> g_tls_owner_id t = np_id nq ->
  exists ss, cached_nodes t = node_at nq <$> ss /\ Forall (fun s => 0 <= s < np_cap nq) ss /\
    Forall (inp nq) (cached_nodes t) /\
    forall l, np_wf nq l -> NoDup (bag nq l (all_cached w) live) -> NoDup (ss ++ l).
Proof.
  intros Hq Hown. destruct (single_cache t (wi_slots _ _ Hi i t Ht)) as [n Hn].
  pose proof (cached_one t n Hn) as Hcn. destruct (Z.eqb_spec n NULL) as [|Hnn].
  { exists []. rewrite Hcn. split_and!; [done..|]. intros l Hw _. apply Hw. }
  assert (Hin : n ∈ cached_nodes t) by (rewrite Hcn; by constructor).
  assert (Hinp : inp nq n) by (by apply (wi_owner _ _ Hi i t n q)).
  destruct (wi_pool _ _ Hi q nq Hq) as (l0 & _ & _ & Ha). rewrite Forall_forall in Ha.
  destruct (Ha n) as (s & Hs & ->); [apply elem_of_app; left; by apply (cached_in w i t)|done|].
  exists [s]. rewrite Hcn. split_and!; [done|by apply Forall_singleton|by apply Forall_singleton|].
  intros l Hw Hnd. apply NoDup_cons. split; [|apply Hw]. intros Hsl. unfold bag in Hnd.
  apply NoDup_app in Hnd as (_ & Hd & _). apply (Hd (node_at nq s)); [by apply list_elem_of_fmap_2|].
  apply list_elem_of_filter. split; [done|]. apply elem_of_app. left. by apply (cached_in w i t).
Qed.

Lemma not_other q nq q' nq' x :
  w_pools w !! q = Some nq -> w_pools w !! q' = Some nq' -> q' <> q -> inp nq x -> ~ inp nq' x.
Proof. intros H1 H2 Hne Hx Hx'. by apply (wi_disj _ _ Hi q' q nq' nq x). Qed.

(** A thread's cache moves to the owner's free list. *)
Lemma push_back_inv q nq owner' :
  w_pools w !! q = Some nq -> g_tls_owner_id t = np_id nq ->
  let np' := (node_stack_batch_push nq (cached_nodes t)).2 in
  world_inv (set_tls (set_pool w q np') i (empty_cache t owner')) live /\
  same_pool nq np' /\ next_task_id np' = next_task_id nq.
Proof.
  intros Hq Hown. destruct (cached_slots q nq Hq Hown) as (ss & Hss & Hr & Hinp & Hnd).
  assert (Hpush : forall l, np_wf nq l -> NoDup (bag nq l (all_cached w) live) ->
    let np' := (node_stack_batch_push nq (cached_nodes t)).2 in
    np_wf np' (ss ++ l) /\ same_pool nq np' /\ next_task_id np' = next_task_id nq).
  { intros l Hw Hb. pose proof (batch_push_spec nq l ss Hw (Hnd l Hw Hb) Hr) as H1.
    rewrite <- Hss in H1. destruct (node_stack_batch_push _ _) as [ok np'].
    destruct H1 as (_ & ? & ? & ? & ? & ?). simpl. by split_and!. }
  destruct (wi_pool _ _ Hi q nq Hq) as (l0 & Hw0 & Hnd0 & _).
  destruct (Hpush l0 Hw0 Hnd0) as (_ & Hsame & Hnx). split; [|done].
  apply (world_move w live Hi i t Ht q nq Hq); rewrite ?cached_empty; try done.
  - simpl. rewrite length_replicate. by apply (wi_slots _ _ Hi i).
  - intros n q' nq' Hx. by apply not_elem_of_nil in Hx.
  - intros l Hw Hb. exists (ss ++ l). split; [by apply Hpush|]. unfold bag.
    rewrite fmap_app, <- Hss, !filter_app, (filter_all _ _ Hinp). simpl.
    rewrite !app_assoc. apply Permutation_app_tail, Permutation_app_comm.
  - intros q' nq' Hne Hq'. rewrite !filter_app.
    replace (filter (inp nq') (cached_nodes t)) with (@nil ptr); [done|]. symmetry.
    apply filter_none. eapply Forall_impl; [exact Hinp|]. intros x Hx. by apply (not_other q nq q' nq').
  - intros n Hn. left. set_solver.
Qed.

(** The cached nodes of a dead pool are dropped. *)
Lemma discard_inv owner' :
  pool_reg_lookup w (g_tls_owner_id t) = None -> world_inv (set_tls w i (empty_cache t owner')) live.
Proof.
  intros Hdead. rewrite <- (set_pool_id w p np Hp).
  assert (Hno : forall q nq, w_pools w !! q = Some nq -> filter (inp nq) (cached_nodes t) = []).
  { intros q nq Hq. apply filter_none, Forall_forall. intros x Hx Hin.
    apply (wi_owner _ _ Hi i t x q nq Ht Hx Hq) in Hin. destruct (wi_id _ _ Hi q nq Hq) as [_ Hl]. congruence. }
  apply (world_move w live Hi i t Ht p np Hp); rewrite ?cached_empty; try done.
  - simpl. rewrite length_replicate. by apply (wi_slots _ _ Hi i).
  - intros n q' nq' Hx. by apply not_elem_of_nil in Hx.
  - intros l Hw _. exists l. split; [done|]. unfold bag. by rewrite !filter_app, (Hno p np).
  - intros q nq _ Hq. by rewrite !filter_app, (Hno q nq).
  - intros n Hn. left. set_solver.
Qed.

Lemma resolve_inv :
  world_inv (tls_resolve_owner w i p) live /\
  (exists t', w_tls (tls_resolve_owner w i p) !! i = Some t' /\ g_tls_owner_id t' = np_id np) /\
  exists np', w_pools (tls_resolve_owner w i p) !! p = Some np' /\ same_pool np np' /\
    next_task_id np' = next_task_id np.
Proof.
  unfold tls_resolve_owner. rewrite (get_tls_eq w i t Ht), (get_pool_eq w p np Hp).
  assert (Hset : forall w1 t', w_tls w1 = w_tls w -> w_tls (set_tls w1 i t') !! i = Some t').
  { intros w1 t' Hw1. simpl. rewrite Hw1. apply list_lookup_insert_eq. by eapply lookup_lt_Some. }
  destruct ((g_tls_owner_id t =? 0) || (g_tls_owner_id t =? np_id np)) eqn:E.
  - split; [|split; [eexists; split; [by apply Hset|done]|by exists np]].
    rewrite <- (set_pool_id w p np Hp).
    apply (world_move w live Hi i t Ht p np Hp); try done.
    + apply (wi_slots _ _ Hi i t Ht).
    + simpl. intros H0. destruct (wi_id _ _ Hi p np Hp). done.
    + intros n q nq Hn Hq. change (cached_nodes _) with (cached_nodes t) in Hn. simpl.
      apply orb_prop in E as [E|E]; zbool.
      { rewrite (wi_zero _ _ Hi i t Ht E) in Hn. by apply not_elem_of_nil in Hn. }
      rewrite <- E. by apply (wi_owner _ _ Hi i t n q).
    + intros l Hw _. by exists l.
    + intros n Hn. left. done.
  - zbool. destruct (pool_reg_lookup w (g_tls_owner_id t)) as [q|] eqn:El.
    + destruct (wi_reg _ _ Hi _ q El) as (nq & Hq & Hid). rewrite (get_pool_eq w q nq Hq).
      destruct (push_back_inv q nq (np_id np) Hq ltac:(done)) as (Hinv & Hs & Hx).
      split; [done|]. split; [eexists; split; [by apply Hset|done]|].
      assert (q <> p) by (intros ->; simplify_eq; lia).
      exists np. simpl. by rewrite lookup_insert_ne.
    + split; [by apply discard_inv|]. split; [eexists; split; [by apply Hset|done]|by exists np].
Qed.

(** A block from malloc overlaps no pool and no live node. *)
Definition fresh_block (n : ptr) : Prop :=
  (forall q nq, w_pools w !! q = Some nq -> ~ inp nq n) /\ (n ∉ live).

Lemma take_malloc n : fresh_block n -> world_inv w (n :: live).
Proof.
  intros [Hf Hn]. rewrite <- (world_same w i t p np Ht Hp).
  assert (Hno : forall q nq, w_pools w !! q = Some nq ->
    filter (inp nq) (cached_nodes t ++ n :: live) = filter (inp nq) (cached_nodes t ++ live)).
  { intros q nq Hq. rewrite !filter_app. f_equal. by apply filter_drop_one, (Hf q). }
  apply (world_move w live Hi i t Ht p np Hp); try done.
  - apply (wi_slots _ _ Hi i t Ht).
  - apply (wi_zero _ _ Hi i t Ht).
  - intros x q nq. apply (wi_owner _ _ Hi i t x q nq Ht).
  - intros l Hw _. exists l. split; [done|]. unfold bag. by rewrite (Hno p np).
  - intros q nq _ Hq. by rewrite (Hno q nq).
  - intros x Hx. destruct (decide (x = n)) as [->|]; [by right; right|]. left. set_solver.
Qed.

(** Live and cached nodes of one pool are distinct. *)
Lemma cached_not_live n : n ∈ cached_nodes t -> inp np n -> n ∉ live.
Proof.
  intros Hn Hin Hl. destruct (wi_pool _ _ Hi p np Hp) as (l & _ & Hnd & _). unfold bag in Hnd.
  apply NoDup_app in Hnd as (_ & _ & Hnd). rewrite filter_app in Hnd.
  apply NoDup_app in Hnd as (_ & Hd & _).
  apply (Hd n); apply list_elem_of_filter; split; try done. by apply (cached_in w i t).
Qed.

Lemma take_cached n :
  g_tls_owner_id t = np_id np -> g_tls_nodes t = [n] -> n <> NULL ->
  world_inv (set_tls w i (put_slot t 0 NULL)) (n :: live) /\ (n ∉ live) /\ inp np n.
Proof.
  intros Hown Hn Hnn. pose proof (cached_one t n Hn) as Hc. rewrite (proj2 (Z.eqb_neq _ _)) in Hc by done.
  assert (Hin : n ∈ cached_nodes t) by (rewrite Hc; by constructor).
  assert (Hinp : inp np n) by (by apply (wi_owner _ _ Hi i t n p)).
  split; [|split; [by apply cached_not_live|done]]. rewrite <- (set_pool_id w p np Hp).
  assert (Hc' : cached_nodes (put_slot t 0 NULL) = []).
  { rewrite (cached_one _ NULL); [done|]. simpl. by rewrite Hn. }
  apply (world_move w live Hi i t Ht p np Hp); rewrite ?Hc', ?Hc; try done.
  - simpl. by rewrite Hn.
  - intros x q nq Hx. by apply not_elem_of_nil in Hx.
  - intros l Hw _. by exists l.
  - intros x Hx. by left.
Qed.

Lemma take_free np' s l :
  g_tls_owner_id t = np_id np -> g_tls_nodes t = [NULL] ->
  np_wf np (s :: l) -> NoDup (bag np (s :: l) (all_cached w) live) ->
  (forall l', np_wf np l' -> np_wf np' (drop 1 l') /\ take 1 l' = [s]) -> same_pool np np' ->
  world_inv (set_tls (set_pool w p np') i (mk_tls (g_tls_nodes t) (np_id np') (g_tls_next t)))
    (node_at np s :: live) /\ (node_at np s ∉ live) /\ inp np (node_at np s).
Proof.
  intros Hown Hn Hw Hnd Hdrop Hsame.
  assert (Hs : 0 <= s < np_cap np).
  { pose proof (nchain_range _ _ _ (nw_chain _ _ Hw)) as Hr. by apply Forall_cons in Hr as [? _]. }
  destruct (node_at_in np (s :: l) s Hw Hs) as [Hin Hnn].
  assert (Hinp : inp np (node_at np s)) by (unfold inp; by rewrite Hin).
  pose proof (cached_one t NULL Hn) as Hc. simpl in Hc.
  split; [|split; [|done]].
  - apply (world_move w live Hi i t Ht p np Hp); cbn [g_tls_nodes g_tls_owner_id];
      change (cached_nodes (mk_tls (g_tls_nodes t) _ _)) with (cached_nodes t); rewrite ?Hc; try done.
    + by rewrite Hn.
    + intros x q nq Hx. by apply not_elem_of_nil in Hx.
    + intros l' Hw' _. destruct (Hdrop l' Hw') as [Hwf Htk]. exists (drop 1 l'). split; [done|].
      unfold bag. rewrite <- (take_drop 1 l') at 2. rewrite Htk. simpl.
      rewrite (filter_cons_True _ (node_at np s)) by done. by rewrite <- Permutation_middle.
    + intros q nq Hne Hq. simpl. rewrite filter_drop_one; [done|]. by apply (not_other p np q nq).
    + intros x Hx. simpl in Hx. apply elem_of_cons in Hx as [->|Hx]; [right; left; eauto|].
      by left.
  - intros Hl. unfold bag in Hnd. apply NoDup_app in Hnd as (_ & Hd & _).
    apply (Hd (node_at np s)); [by constructor|]. apply list_elem_of_filter. split; [done|]. set_solver.
Qed.

Lemma alloc_inv malloc n w' :
  g_tls_owner_id t = np_id np -> (forall m, malloc = Some m -> fresh_block m) ->
  alloc_node w i p malloc = Some (n, w') ->
  world_inv w' (n :: live) /\ (n ∉ live) /\ (inp np n \/ malloc = Some n) /\
  exists np', w_pools w' !! p = Some np' /\ same_pool np np' /\ next_task_id np' = next_task_id np.
Proof.
  intros Hown Hm. unfold alloc_node. rewrite (get_tls_eq w i t Ht), (get_pool_eq w p np Hp).
  destruct (single_cache t (wi_slots _ _ Hi i t Ht)) as [c Hc]. rewrite (tls_probe_one t c _ Hc).
  destruct (Z.eqb_spec c NULL) as [->|Hnn]; cbn [negb].
  2:{ intros [= <- <-]. rewrite Hc. destruct (take_cached c Hown Hc Hnn) as (? & ? & ?).
      split_and!; [done|done|by left|by exists np]. }
  assert (Hmal : (fun n => (n, w)) <$> malloc = Some (n, w') ->
    world_inv w' (n :: live) /\ (n ∉ live) /\ (inp np n \/ malloc = Some n) /\
    exists np', w_pools w' !! p = Some np' /\ same_pool np np' /\ next_task_id np' = next_task_id np).
  { destruct malloc as [m|]; simpl; [|done]. intros [= <- <-]. destruct (Hm m eq_refl) as [Hf Hnl].
    split_and!; [by apply take_malloc|done|by right|by exists np]. }
  replace (length (filter (fun n => n = NULL) (g_tls_nodes t))) with 1%nat by (by rewrite Hc). simpl.
  destruct (wi_pool _ _ Hi p np Hp) as (l0 & Hw0 & Hnd0 & _).
  pose proof (fun l Hl => batch_pop_spec np l 1 Hl) as Hpop.
  destruct (node_stack_batch_pop np 1) as [buf np']. pose proof (Hpop l0 Hw0) as (-> & _ & Hb & Hcp & Hid & Hnx).
  destruct l0 as [|s l]; [by simpl|]. simpl. intros [= <- <-].
  replace (stash (g_tls_nodes t) []) with (g_tls_nodes t) by (by rewrite Hc).
  destruct (take_free np' s l Hown Hc Hw0 Hnd0) as (? & ? & ?); [|by split_and!|].
  { intros l' Hl'. destruct (Hpop l' Hl') as (He & Hwf & _). split; [done|]. simpl in He.
    destruct l' as [|s' l']; [done|]. simpl in *. injection He as He. apply node_at_inj in He. by subst. }
  split_and!; [done|done|by left|]. exists np'. simpl. rewrite lookup_insert_eq. by split_and!.
Qed.
End Operations.

(** A node given back by the program. *)
Section Destroy.
Context (w : world) (live : list ptr) (n : ptr) (Hi : world_inv w (n :: live)).
Context (i : nat) (t : tls_t) (Ht : w_tls w !! i = Some t).
Context (p : ptr) (np : node_pool) (Hp : w_pools w !! p = Some np).

Lemma drop_live : (forall q nq, w_pools w !! q = Some nq -> ~ inp nq n) -> world_inv w live.
Proof.
  intros Hf. rewrite <- (world_same w i t p np Ht Hp).
  assert (Hno : forall q nq, w_pools w !! q = Some nq ->
    filter (inp nq) (cached_nodes t ++ live) = filter (inp nq) (cached_nodes t ++ n :: live)).
  { intros q nq Hq. rewrite !filter_app. f_equal. symmetry. by apply filter_drop_one, (Hf q). }
  apply (world_move w (n :: live) Hi i t Ht p np Hp); try done.
  - apply (wi_slots _ _ Hi i t Ht).
  - apply (wi_zero _ _ Hi i t Ht).
  - intros x q nq. apply (wi_owner _ _ Hi i t x q nq Ht).
  - intros l Hw _. exists l. split; [done|]. unfold bag. by rewrite (Hno p np).
  - intros q nq _ Hq. by rewrite (Hno q nq).
  - intros x Hx. left. set_solver.
Qed.

Context (Hinp : inp np n) (Hnn : n <> NULL) (Hown : g_tls_owner_id t = np_id np).

Lemma give_cached : g_tls_nodes t = [NULL] -> world_inv (set_tls w i (put_slot t 0 n)) live.
Proof.
  intros Hn. rewrite <- (set_pool_id w p np Hp).
  pose proof (cached_one t NULL Hn) as Hc. simpl in Hc.
  assert (Hc' : cached_nodes (put_slot t 0 n) = [n]).
  { rewrite (cached_one _ n); [by rewrite (proj2 (Z.eqb_neq _ _))|]. simpl. by rewrite Hn. }
  apply (world_move w (n :: live) Hi i t Ht p np Hp); rewrite ?Hc', ?Hc; try done.
  - simpl. by rewrite Hn.
  - simpl. rewrite Hown. intros H0. by destruct (wi_id _ _ Hi p np Hp).
  - intros x q nq Hx Hq. simpl. rewrite Hown. apply list_elem_of_singleton in Hx as ->. split.
    + intros Hx. destruct (decide (q = p)) as [->|Hne]; [by simplify_eq|].
      by destruct (not_other w _ Hi p np q nq n Hp Hq Hne Hinp).
    + intros He. destruct (id_inj w _ Hi p np Hp q nq Hq); [done|]. by simplify_eq.
  - intros l Hw _. by exists l.
  - intros x Hx. by left.
Qed.

Lemma give_chain c :
  g_tls_nodes t = [c] -> c <> NULL ->
  let np' := (node_stack_batch_push np (cached_nodes t ++ [n])).2 in
  (node_stack_batch_push np (cached_nodes t ++ [n])).1 = true /\
  world_inv (set_tls (set_pool w p np') i (empty_cache t (g_tls_owner_id t))) live.
Proof.
  intros Hn Hcn. pose proof (cached_one t c Hn) as Hc. rewrite (proj2 (Z.eqb_neq _ _)) in Hc by done.
  assert (Hin : c ∈ cached_nodes t) by (rewrite Hc; by constructor).
  assert (Hinc : inp np c) by (by apply (wi_owner _ _ Hi i t c p)).
  assert (Hcn' : c <> n) by (intros ->; apply (cached_not_live w _ Hi i t Ht p np Hp n Hin Hinp); by constructor).
  destruct (owned_slot w (n :: live) np n (wi_pool _ _ Hi p np Hp)) as (sn & l & En & Hsn & _ & _ & _ & _); [set_solver|done|].
  destruct (owned_slot w (n :: live) np c (wi_pool _ _ Hi p np Hp)) as (sc & l2 & Ec & Hsc & _ & _ & _ & _);
    [apply elem_of_app; left; by apply (cached_in w i t)|done|].
  assert (Hspec : forall l, np_wf np l -> NoDup (bag np l (all_cached w) (n :: live)) ->
    let '(ok, np') := node_stack_batch_push np (cached_nodes t ++ [n]) in
    ok = true /\ np_wf np' ([sc; sn] ++ l) /\ same_pool np np').
  { intros l' Hw' Hnd'.
    assert (Hfree : forall s, node_at np s ∈ all_cached w ++ n :: live -> inp np (node_at np s) -> s ∉ l').
    { intros s Hs Hins Hsl. unfold bag in Hnd'. apply NoDup_app in Hnd' as (_ & Hd & _).
      apply (Hd (node_at np s)); [by apply list_elem_of_fmap_2|]. by apply list_elem_of_filter. }
    assert (Hnd : NoDup ([sc; sn] ++ l')).
    { repeat apply NoDup_cons_2; [..|apply Hw'].
      - intros [->|Hx]%elem_of_cons; [congruence|]. revert Hx. apply Hfree; rewrite <- Ec; [|done].
        apply elem_of_app. left. by apply (cached_in w i t).
      - apply Hfree; rewrite <- En; [set_solver|done]. }
    pose proof (batch_push_spec np l' [sc; sn] Hw' Hnd ltac:(constructor; [done|constructor; [done|constructor]])) as Hb.
    change (node_at np <$> [sc; sn]) with [node_at np sc; node_at np sn] in Hb. rewrite <- En, <- Ec in Hb.
    rewrite Hc. cbn [app]. destruct (node_stack_batch_push np [c; n]) as [ok np'].
    destruct Hb as (-> & ? & ? & ? & ? & _). by split_and!. }
  destruct (wi_pool _ _ Hi p np Hp) as (l0 & Hw0 & Hnd0 & _). pose proof (Hspec l0 Hw0 Hnd0) as H0.
  destruct (node_stack_batch_push np (cached_nodes t ++ [n])) as [ok np']. destruct H0 as (-> & _ & Hsame).
  split; [done|]. simpl.
  apply (world_move w (n :: live) Hi i t Ht p np Hp); rewrite ?cached_empty, ?Hc; try done.
  - simpl. by rewrite Hn.
  - intros x q nq Hx. by apply not_elem_of_nil in Hx.
  - intros l' Hw' Hnd'. exists ([sc; sn] ++ l'). split; [by apply (Hspec l')|].
    unfold bag. simpl. rewrite <- En, <- Ec, !filter_cons_True by done. by rewrite <- !Permutation_middle.
  - intros q nq Hne Hq. simpl. rewrite !filter_drop_one; [done|by apply (not_other w _ Hi p np q nq)..].
  - intros x Hx. left. set_solver.
Qed.
End Destroy.

(** ** Creation and destruction *)

Definition owner_resolved (w : world) (i : nat) (pool : ptr) : world :=
  if g_tls_owner_id (get_tls w i) =? np_id (get_pool w pool) then w else tls_resolve_owner w i pool.

Lemma owner_resolved_spec w live i t p np :
  world_inv w live -> w_tls w !! i = Some t -> w_pools w !! p = Some np ->
  world_inv (owner_resolved w i p) live /\
  exists t' np', w_tls (owner_resolved w i p) !! i = Some t' /\ g_tls_owner_id t' = np_id np' /\
    w_pools (owner_resolved w i p) !! p = Some np' /\ same_pool np np' /\ next_task_id np' = next_task_id np.
Proof.
  intros Hi Ht Hp. unfold owner_resolved. rewrite (get_tls_eq w i t Ht), (get_pool_eq w p np Hp).
  destruct (Z.eqb_spec (g_tls_owner_id t) (np_id np)); [by split; [done|]; exists t, np|].
  destruct (resolve_inv w live Hi i t Ht p np Hp) as (Hinv & (t' & Ht' & Ho) & np' & Hp' & Hs & Hn).
  split; [done|]. exists t', np'. split_and!; try done. by destruct Hs as (_ & _ & ->).
Qed.

Lemma bump_id_inv w live p np id :
  world_inv w live -> w_pools w !! p = Some np ->
  world_inv (set_pool w p (mk_node_pool (np_base np) (np_cap np) (node_free_next np) (node_stack np) (np_id np) id)) live.
Proof.
  intros Hi Hp. set (np' := mk_node_pool _ _ _ _ _ _).
  assert (Hs : same_pool np np') by done.
  assert (Hpools : forall q nq, w_pools (set_pool w p np') !! q = Some nq ->
    exists nq1, w_pools w !! q = Some nq1 /\ same_pool nq1 nq /\ (forall l, np_wf nq1 l -> np_wf nq l)).
  { intros q nq Hq. simpl in Hq. destruct (decide (q = p)) as [->|].
    - rewrite lookup_insert_eq in Hq. injection Hq as <-. exists np. split_and!; try done. intros l []. by split; try apply (nchain_frame np).
    - rewrite lookup_insert_ne in Hq by done. by exists nq. }
  split; try (by apply Hi).
  - intros q nq Hq. destruct (Hpools q nq Hq) as (nq1 & Hq1 & Hs1 & Hwf).
    destruct (wi_pool _ _ Hi q nq1 Hq1) as (l & ? & ? & Ha). exists l. split_and!; [by apply Hwf| |].
    + by rewrite (bag_same nq1 nq).
    + eapply Forall_impl; [exact Ha|]. intros n Hn Hin. apply (same_inp nq1 nq n Hs1) in Hin.
      destruct (Hn Hin) as (s & ? & ->). destruct Hs1 as (Hb & Hc & _). exists s. unfold node_at. by rewrite Hb, Hc.
  - intros q nq Hq. destruct (Hpools q nq Hq) as (nq1 & Hq1 & (_ & _ & ->) & _). by apply (wi_id _ _ Hi).
  - intros id' q Hl. destruct (wi_reg _ _ Hi id' q Hl) as (nq & Hq & Hid). simpl.
    destruct (decide (q = p)) as [->|]; [|exists nq; by rewrite lookup_insert_ne].
    exists np'. rewrite lookup_insert_eq. by simplify_eq.
  - intros q q' nq nq' n Hne Hq Hq' H1 H2. destruct (Hpools q nq Hq) as (n1 & Hq1 & Hs1 & _).
    destruct (Hpools q' nq' Hq') as (n2 & Hq2 & Hs2 & _).
    apply (wi_disj _ _ Hi q q' n1 n2 n Hne Hq1 Hq2); [by apply (same_inp n1 nq)|by apply (same_inp n2 nq')].
  - intros j t n q nq Ht Hn Hq. destruct (Hpools q nq Hq) as (nq1 & Hq1 & Hs1 & _).
    rewrite (same_inp nq1 nq n Hs1). destruct Hs1 as (_ & _ & ->). by apply (wi_owner _ _ Hi j t n q).
Qed.

Lemma fresh_block_resolved w live i t p np m :
  world_inv w live -> w_tls w !! i = Some t -> w_pools w !! p = Some np ->
  fresh_block w live m -> fresh_block (owner_resolved w i p) live m.
Proof.
  intros Hi Ht Hp [Hf Hl]. split; [|done]. intros q nq Hq. unfold owner_resolved in Hq.
  destruct (_ =? _); [by apply (Hf q)|]. unfold tls_resolve_owner in Hq.
  destruct (_ || _); [by apply (Hf q)|]. rewrite (get_tls_eq w i t Ht) in Hq.
  destruct (pool_reg_lookup w _) as [o|] eqn:El; [|by apply (Hf q)].
  destruct (wi_reg _ _ Hi _ o El) as (no & Ho & Hid). rewrite (get_pool_eq w o no Ho) in Hq. simpl in Hq.
  destruct (decide (q = o)) as [->|]; [|rewrite lookup_insert_ne in Hq by done; by apply (Hf q)].
  rewrite lookup_insert_eq in Hq. injection Hq as <-.
  destruct (push_back_inv w live Hi i t Ht p np Hp o no (np_id np) Ho ltac:(done)) as (_ & Hs & _).
  rewrite (same_inp no _ m Hs). by apply (Hf o).
Qed.

(** ** Properties *)


(** ** Initial pools *)

Lemma next_of_init base id k :
  (k < Z.to_nat LOOMWORKS_NODE_POOL_CAP)%nat ->
  next_of (node_pool_init base id) (Z.of_nat k) =
    if (S k <? Z.to_nat LOOMWORKS_NODE_POOL_CAP)%nat then Z.of_nat (S k) else LOOMWORKS_NODE_FREE_END.
Proof.
  intros Hk. unfold next_of, node_pool_init. cbn [node_free_next].
  by rewrite Nat2Z.id, list_lookup_total_alt, list_lookup_fmap, lookup_seq_lt by done.
Qed.

Lemma seed_chain base id n k :
  (k + n = Z.to_nat LOOMWORKS_NODE_POOL_CAP)%nat ->
  nchain (node_pool_init base id)
    (if (k <? Z.to_nat LOOMWORKS_NODE_POOL_CAP)%nat then Z.of_nat k else LOOMWORKS_NODE_FREE_END)
    (Z.of_nat <$> seq k n).
Proof.
  revert k. induction n as [|n IH]; intros k Hk; cbn [seq fmap list_fmap nchain].
  - destruct (Nat.ltb_spec k (Z.to_nat LOOMWORKS_NODE_POOL_CAP)); [lia|done].
  - destruct (Nat.ltb_spec k (Z.to_nat LOOMWORKS_NODE_POOL_CAP)) as [Hlt|]; [|lia].
    split_and!; [done|lia|unfold node_pool_init; cbn [np_cap]; lia|].
    rewrite next_of_init by done. apply IH. lia.
Qed.

Lemma node_pool_init_wf base id :
  0 < base -> np_wf (node_pool_init base id) (Z.of_nat <$> seq 0 (Z.to_nat LOOMWORKS_NODE_POOL_CAP)).
Proof.
  intros Hb. split; [done|done| | |].
  - unfold node_pool_init. cbn [node_free_next]. by rewrite length_fmap, length_seq.
  - apply (seed_chain base id (Z.to_nat LOOMWORKS_NODE_POOL_CAP) 0). done.
  - apply NoDup_fmap_2; [apply _|apply NoDup_seq].
Qed.

(** One pool, registered, and [n] threads with empty caches. *)
Definition world_start (p base id : Z) (n : nat) : world :=
  mk_world {[ p := node_pool_init base id ]} [(id, p)] (id + 1) (replicate n tls_init).

Lemma all_cached_start p base id n : all_cached (world_start p base id n) = [].
Proof. unfold all_cached. simpl. induction n; [done|]. simpl. done. Qed.

Lemma world_start_inv p base id n : 0 < base -> 0 < id -> world_inv (world_start p base id n) [].
Proof.
  intros Hb Hid.
  assert (Hone : forall q nq, w_pools (world_start p base id n) !! q = Some nq -> q = p /\ nq = node_pool_init base id).
  { intros q nq Hq. unfold world_start in Hq. cbn [w_pools] in Hq. by apply lookup_singleton_Some in Hq as [-> <-]. }
  assert (Htls : forall i t, w_tls (world_start p base id n) !! i = Some t -> t = tls_init).
  { intros i t Ht. by apply lookup_replicate in Ht as [-> _]. }
  split.
  - by intros i t ->%Htls.
  - intros q nq [-> ->]%Hone. exists (Z.of_nat <$> seq 0 (Z.to_nat LOOMWORKS_NODE_POOL_CAP)).
    rewrite all_cached_start. split_and!; [by apply node_pool_init_wf| |by constructor].
    unfold bag. change (filter (inp (node_pool_init base id)) ([] ++ [])) with (@nil ptr).
    rewrite app_nil_r. apply NoDup_fmap_2; [intros x y; apply node_at_inj|].
    apply NoDup_fmap_2; [apply _|apply NoDup_seq].
  - intros q nq [-> ->]%Hone. unfold node_pool_init, pool_reg_lookup, world_start. cbn [np_id g_pool_reg reg_find].
    rewrite Z.eqb_refl. split; [lia|done].
  - intros j q. unfold pool_reg_lookup, world_start. cbn [g_pool_reg reg_find w_pools]. destruct (Z.eqb_spec id j) as [->|]; [|done]. intros [= <-].
    exists (node_pool_init base j). by rewrite lookup_singleton_eq.
  - intros q1 q2 n1 n2 x Hne [-> _]%Hone [-> _]%Hone. done.
  - by intros i t ->%Htls.
  - intros i t x q nq ->%Htls Hx. by apply not_elem_of_nil in Hx.
Qed.


(** A pool that did not fit in the registry has id 0, the value that also
    marks an unowned cache, and every such pool has it: a thread that gives back
    a node of one (its cache being empty and unowned) and then creates a task
    for another receives the first pool's node.  It belongs to a pool that may
    be destroyed before the task runs. *)
Theorem unregistered_pools_share_cache w i t p np q nq n f data prio malloc :
  w_tls w !! i = Some t -> g_tls_nodes t = [NULL] -> g_tls_owner_id t = 0 ->
  w_pools w !! p = Some np -> w_pools w !! q = Some nq -> np_id np = 0 -> np_id nq = 0 ->
  n <> NULL -> node_from_pool np n = true ->
  exists task w', task_create (task_destroy w i p n).2 i q f data prio malloc = Some (n, task, w').
Proof.
  intros Ht Hn Ho Hp Hq Hid1 Hid2 Hnn Hin.
  assert (Hd : task_destroy w i p n = (None, set_tls w i (put_slot t 0 n))).
  { unfold task_destroy. rewrite (proj2 (Z.eqb_neq _ _)), (get_pool_eq w p np Hp), Hin by done.
    rewrite (get_tls_eq w i t Ht), Ho, Hid1, Z.eqb_refl, (get_tls_eq w i t Ht).
    by rewrite (tls_probe_one t NULL _ Hn). }
  rewrite Hd. simpl. unfold task_create.
  assert (Ht' : w_tls (set_tls w i (put_slot t 0 n)) !! i = Some (put_slot t 0 n)).
  { simpl. apply list_lookup_insert_eq. by eapply lookup_lt_Some. }
  rewrite (get_tls_eq _ i _ Ht'), (get_pool_eq (set_tls w i _) q nq Hq). simpl. rewrite Ho, Hid2. simpl.
  unfold alloc_node. rewrite (get_tls_eq _ i _ Ht').
  rewrite (tls_probe_one _ n) by (simpl; by rewrite Hn).
  rewrite (proj2 (Z.eqb_neq n NULL)) by done. cbn [negb]. simpl. rewrite Hn. simpl. eauto.
Qed.

Lemma unregistered_pools_share_cache_witness :
  exists task w', task_create (task_destroy
      (mk_world {[ 16 := node_pool_init 4096 0; 32 := node_pool_init 999424 0 ]} [] 300 [tls_init]) 0 16 4096).2
    0 32 7 0 5 None = Some (4096, task, w').
Proof.
  apply (unregistered_pools_share_cache _ 0 tls_init 16 (node_pool_init 4096 0) 32 (node_pool_init 999424 0));
    try reflexivity; discriminate.
Defined.
