(* ===== verification/Future.v ===== *)
(** * Futures (src/thread_pool.c: loom_future_init, loom_future_complete,
    loom_future_wait, loom_future_wait_timeout, loom_future_destroy,
    future_task_wrapper, future_mark_cancelled, coro_future_mark_cancelled).

    A future is a monitor: its fields change only under its mutex, and waiters
    sleep on its condition variable.  The first part gives the critical sections
    as functions on the fields; the second adds the threads that wait, with
    pthread_cond_signal waking at most one of them, pthread_cond_broadcast all,
    and spurious wake-ups at any time. *)
From S2P Require Import Prelude Types.

Record loom_future := mk_future {
  result : ptr;
  ready : bool;
  has_result : bool;
  f_cancelled : bool;
  failed : bool;
}.

#[export] Instance loom_future_eq_dec : EqDecision loom_future.
Proof. solve_decision. Defined.

(** loom_future_init after both primitives are initialised; the calloc'ed future
    of loom_pool_submit_future has the same fields. *)
Definition future_fields_init : loom_future := mk_future NULL false false false false.

Definition loom_future_init (mutex_ok cond_ok : bool) : loom_result_t * option loom_future :=
  if negb mutex_ok then (LOOMWORKS_ERR_ALLOC, None)
  else if negb cond_ok then (LOOMWORKS_ERR_ALLOC, None)
  else (LOOMWORKS_OK, Some future_fields_init).

(** *** Resolutions *)

Definition future_mark_cancelled (f : loom_future) : loom_future :=
  mk_future (result f) true false true (failed f).

Definition coro_future_mark_cancelled (f : loom_future) : loom_future :=
  mk_future NULL true false true (failed f).

(** The tail of future_task_wrapper, [r] being the user function's result. *)
Definition future_task_wrapper (r : ptr) (f : loom_future) : loom_future :=
  mk_future r true true (f_cancelled f) (failed f).

Definition loom_future_complete (status : loom_result_t) (f : loom_future) : loom_future :=
  if f_cancelled f then f
  else mk_future (result_code status) true false (f_cancelled f)
         (negb (bool_decide (status = LOOMWORKS_OK))).

(** *** Waiting *)

(** The part of loom_future_wait after the loop: the code and [*result]. *)
Definition wait_outcome (f : loom_future) : loom_result_t * ptr :=
  if f_cancelled f then (LOOMWORKS_ERR_CANCELLED, NULL)
  else if failed f then (LOOMWORKS_ERR_FAILED, NULL)
  else (LOOMWORKS_OK, result f).

(** The same tail in loom_future_wait_timeout, which has no [failed] case. *)
Definition timed_outcome (f : loom_future) : loom_result_t * option ptr :=
  if f_cancelled f then (LOOMWORKS_ERR_CANCELLED, Some NULL) else (LOOMWORKS_OK, Some (result f)).

(** How pthread_cond_timedwait came back, and the fields found then. *)
Inductive timedwait := Woken (f : loom_future) | TimedOut.

(** [remaining_ns] is the signed difference between deadline and now. *)
Definition loom_future_wait_timeout (f : loom_future) (remaining_ns : Z) (wake : timedwait)
  : loom_result_t * option ptr :=
  if ready f then timed_outcome f
  else if remaining_ns <=? 0 then (LOOMWORKS_ERR_TIMEOUT, None)
  else match wake with
       | TimedOut => (LOOMWORKS_ERR_TIMEOUT, None)
       | Woken f' => timed_outcome f'
       end.

(** [None] in the second component: the future was freed. *)
Definition loom_future_destroy (f : loom_future) : loom_result_t * option loom_future :=
  if negb (ready f) then (LOOMWORKS_ERR_INVALID, Some f) else (LOOMWORKS_OK, None).

(** ** The monitor *)

Inductive resolution :=
  | RWrapper (r : ptr)                  (* future_task_wrapper: signal *)
  | RComplete (status : loom_result_t)  (* loom_future_complete: signal *)
  | RCancel                             (* future_mark_cancelled: broadcast *)
  | RCoroCancel.                        (* coro_future_mark_cancelled: broadcast *)

Definition resolve (r : resolution) (f : loom_future) : loom_future :=
  match r with
  | RWrapper v => future_task_wrapper v f
  | RComplete s => loom_future_complete s f
  | RCancel => future_mark_cancelled f
  | RCoroCancel => coro_future_mark_cancelled f
  end.

Definition broadcasts (r : resolution) : bool :=
  match r with RCancel | RCoroCancel => true | _ => false end.

(** loom_future_complete returns without signalling a cancelled future. *)
Definition notifies (r : resolution) (f : loom_future) : bool :=
  match r with RComplete _ => negb (f_cancelled f) | _ => true end.

Inductive wstate :=
  | WTest                               (* about to test [ready] *)
  | WAsleep                             (* in pthread_cond_wait *)
  | WDone (rc : loom_result_t) (r : ptr).

#[export] Instance wstate_eq_dec : EqDecision wstate.
Proof. solve_decision. Defined.

(** The waiters, and the resolutions applied so far in the order in which they
    took the mutex. *)
Record fmon := mk_fmon { log : list resolution; waiters : list wstate }.

Definition fut_of (l : list resolution) : loom_future := foldl (fun f r => resolve r f) future_fields_init l.
Definition fut (s : fmon) : loom_future := fut_of (log s).

Definition wake_all (ws : list wstate) : list wstate :=
  (fun x => if decide (x = WAsleep) then WTest else x) <$> ws.

Inductive wake_one (ws : list wstate) : list wstate -> Prop :=
  | wake_nobody : WAsleep ∉ ws -> wake_one ws ws
  | wake_some i : ws !! i = Some WAsleep -> wake_one ws (<[i := WTest]> ws).

Inductive fstep (s : fmon) : fmon -> Prop :=
  | f_sleep i : waiters s !! i = Some WTest -> ready (fut s) = false ->
      fstep s (mk_fmon (log s) (<[i := WAsleep]> (waiters s)))
  | f_return i : waiters s !! i = Some WTest -> ready (fut s) = true ->
      fstep s (mk_fmon (log s) (<[i := WDone (wait_outcome (fut s)).1 (wait_outcome (fut s)).2]> (waiters s)))
  | f_spurious i : waiters s !! i = Some WAsleep ->
      fstep s (mk_fmon (log s) (<[i := WTest]> (waiters s)))
  | f_broadcast r : broadcasts r = true ->
      fstep s (mk_fmon (log s ++ [r]) (wake_all (waiters s)))
  | f_signal r ws : broadcasts r = false -> notifies r (fut s) = true -> wake_one (waiters s) ws ->
      fstep s (mk_fmon (log s ++ [r]) ws)
  | f_silent r : broadcasts r = false -> notifies r (fut s) = false ->
      fstep s (mk_fmon (log s ++ [r]) (waiters s)).

Inductive freach (n : nat) : fmon -> Prop :=
  | fr_start : freach n (mk_fmon [] (replicate n WTest))
  | fr_step s s' : freach n s -> fstep s s' -> freach n s'.

(** ** Lemmas *)

Lemma fut_of_snoc l r : fut_of (l ++ [r]) = resolve r (fut_of l).
Proof. unfold fut_of. by rewrite foldl_snoc. Qed.

Lemma resolve_ready r f : (f_cancelled f = true -> ready f = true) -> ready (resolve r f) = true.
Proof.
  destruct r; simpl; try done. unfold loom_future_complete.
  destruct (f_cancelled f) eqn:E; simpl; [intros H; by apply H|done].
Qed.

(** A future is ready exactly when it has been resolved at least once. *)
Lemma fut_of_ready l : ready (fut_of l) = bool_decide (l <> []).
Proof.
  induction l as [|r l IH] using rev_ind; [done|]. rewrite fut_of_snoc.
  rewrite bool_decide_eq_true_2 by (by destruct l). apply resolve_ready.
  intros Hc. rewrite IH. destruct l; [done|]. by rewrite bool_decide_eq_true_2.
Qed.

Lemma resolve_cancelled r f : f_cancelled f = true -> f_cancelled (resolve r f) = true.
Proof. destruct r; simpl; try done. unfold loom_future_complete. intros E. by rewrite E. Qed.

(** A cancellation is never overwritten. *)
Lemma fut_of_cancelled l : Exists (fun r => broadcasts r = true) l -> f_cancelled (fut_of l) = true.
Proof.
  induction l as [|r l IH] using rev_ind; [by intros ?%Exists_nil|].
  rewrite Exists_app, fut_of_snoc. intros [H|H].
  - apply resolve_cancelled, IH, H.
  - apply Exists_cons in H as [H|H]; [by destruct r|by apply Exists_nil in H].
Qed.

Lemma freach_inv n s :
  freach n s -> forall i rc v, waiters s !! i = Some (WDone rc v) ->
  exists l, l `prefix_of` log s /\ l <> [] /\ wait_outcome (fut_of l) = (rc, v).
Proof.
  induction 1 as [|s s' _ IH Hst]; intros j rc v Hj; [by apply lookup_replicate in Hj as [? _]|].
  assert (Hext : forall r, waiters s !! j = Some (WDone rc v) ->
    exists l, l `prefix_of` (log s ++ [r]) /\ l <> [] /\ wait_outcome (fut_of l) = (rc, v)).
  { intros r Hw. destruct (IH j rc v Hw) as (l & Hl & ? & ?). exists l. split; [|done].
    by apply prefix_app_r. }
  destruct Hst as [i Hi Hr|i Hi Hr|i Hi|r Hb|r ws Hb Hn Hw|r Hb Hn]; simpl in *.
  - apply list_lookup_insert_Some in Hj as [(-> & ? & _)|[? Hj]]; [done|by apply (IH j)].
  - apply list_lookup_insert_Some in Hj as [(-> & [= <- <-] & _)|[? Hj]]; [|by apply (IH j)].
    exists (log s). split_and!; [done| |by unfold fut; destruct (wait_outcome _)].
    unfold fut in Hr. rewrite fut_of_ready in Hr. by apply bool_decide_eq_true in Hr.
  - apply list_lookup_insert_Some in Hj as [(-> & ? & _)|[? Hj]]; [done|by apply (IH j)].
  - apply Hext. unfold wake_all in Hj. rewrite list_lookup_fmap in Hj.
    destruct (waiters s !! j) as [x|] eqn:E; [|done]. simpl in Hj. by case_decide; simplify_eq.
  - apply Hext. destruct Hw as [|i Hi]; [done|].
    by apply list_lookup_insert_Some in Hj as [(-> & ? & _)|[? Hj]].
  - by apply Hext.
Qed.

Lemma asleep_wake_one ws ws' :
  wake_one ws ws' ->
  length (filter (fun x => x = WAsleep) ws') = pred (length (filter (fun x => x = WAsleep) ws)).
Proof.
  intros [Hn|i Hi].
  - assert (filter (fun x => x = WAsleep) ws = []) as ->; [|done].
    apply filter_none, Forall_forall. intros x Hx ->. done.
  - rewrite <- (take_drop_middle ws i WAsleep Hi) at 2.
    rewrite insert_take_drop by (by eapply lookup_lt_Some). rewrite !filter_app.
    rewrite filter_cons_False, filter_cons_True by done. rewrite !length_app. simpl. lia.
Qed.

Lemma asleep_wake_all ws : WAsleep ∉ wake_all ws.
Proof.
  unfold wake_all. rewrite list_elem_of_fmap. intros (x & Hx & _). case_decide; congruence.
Qed.

(** ** Properties *)



(** A cancellation wakes every thread waiting on the future, but a
    completion (by the task or by loom_future_complete) signals one waiter only:
    of [k] threads asleep on the future, [k - 1] stay asleep. *)
Theorem completion_wakes_one_waiter s s' r :
  fstep s s' -> log s' = log s ++ [r] ->
  let asleep m := length (filter (fun x => x = WAsleep) (waiters m)) in
  (broadcasts r = true -> asleep s' = 0%nat) /\
  (broadcasts r = false -> notifies r (fut s) = true -> asleep s' = pred (asleep s)).
Proof.
  intros Hst Hlog asleep. unfold asleep. clear asleep.
  assert (Hno : forall l : list resolution, l <> l ++ [r]).
  { intros l Hl. apply (f_equal length) in Hl. rewrite length_app in Hl. simpl in Hl. lia. }
  destruct Hst as [i Hi Hr|i Hi Hr|i Hi|r' Hb|r' ws Hb Hn Hw|r' Hb Hn]; simpl in *;
    try (by destruct (Hno (log s))); apply app_inj_2 in Hlog as [_ Hlog]; try done; injection Hlog as ->.
  - split; [|by rewrite Hb]. intros _. rewrite filter_none; [done|].
    apply Forall_forall. intros x Hx ->. by apply (asleep_wake_all (waiters s)).
  - split; [by rewrite Hb|]. intros _ _. by apply asleep_wake_one.
  - split; [by rewrite Hb|]. intros _ Hn'. by rewrite Hn in Hn'.
Qed.

Lemma completion_wakes_one_waiter_witness :
  length (filter (fun x => x = WAsleep) (waiters (mk_fmon [RWrapper 7] [WTest; WAsleep]))) = 1%nat.
Proof.
  refine (proj2 (completion_wakes_one_waiter (mk_fmon [] [WAsleep; WAsleep])
    (mk_fmon [RWrapper 7] [WTest; WAsleep]) (RWrapper 7) _ eq_refl) eq_refl eq_refl).
  exact (f_signal (mk_fmon [] [WAsleep; WAsleep]) (RWrapper 7) [WTest; WAsleep] eq_refl eq_refl
    (wake_some [WAsleep; WAsleep] 0%nat eq_refl)).
Defined.

(** loom_future_wait_timeout does not have the semantics of
    loom_future_wait: on a future completed with a failure it returns OK and
    the status code as the result where loom_future_wait returns ERR_FAILED,
    and since it does not test [ready] again, a spurious wake-up makes it
    return OK for a future that is still pending. *)
Theorem wait_timeout_diverges st remaining wake :
  st <> LOOMWORKS_OK -> 0 < remaining ->
  loom_future_wait_timeout (fut_of [RComplete st]) remaining wake = (LOOMWORKS_OK, Some (result_code st)) /\
  wait_outcome (fut_of [RComplete st]) = (LOOMWORKS_ERR_FAILED, NULL) /\
  loom_future_wait_timeout (fut_of []) remaining (Woken (fut_of [])) = (LOOMWORKS_OK, Some NULL) /\
  ready (fut_of []) = false.
Proof.
  intros Hst Hr. split_and!; [by destruct st|by destruct st| |done].
  unfold loom_future_wait_timeout. simpl. by rewrite (proj2 (Z.leb_gt _ _)) by done.
Qed.

Lemma wait_timeout_diverges_witness :
  loom_future_wait_timeout (fut_of [RComplete LOOMWORKS_ERR_FAILED]) 5 TimedOut = (LOOMWORKS_OK, Some 7).
Proof. apply (wait_timeout_diverges LOOMWORKS_ERR_FAILED 5 TimedOut); [discriminate|lia]. Defined.
