(* ===== verification/Metrics.v ===== *)
(** * Metrics (src/metrics.c, src/metrics_shm.c, and metrics_fire,
    loom_pool_set_metrics_callback, loom_pool_set_metrics,
    loom_pool_attach_metrics_shm of src/thread_pool.c).

    A pool may have a collector, a standalone callback and a shared-memory
    region; metrics_fire dispatches each event to them.  Collectors are heap
    objects, so a reference to a freed one is visible as a failed lookup
    ([None]).  The calls of user callbacks are recorded in order. *)
From stdpp Require Import strings.
From S2P Require Import Prelude Types.
#[local] Open Scope Z_scope.
#[local] Open Scope loom_scope.

Record counters := mk_counters {
  submitted : Z; started : Z; completed : Z; m_cancelled : Z; m_failed : Z;
  latency_sum_ns : Z; latency_max_ns : Z;
}.

Definition counters_zero : counters := mk_counters 0 0 0 0 0 0 0.

Record loom_metrics := mk_metrics { m_pool : ptr; cb : ptr; cb_data : ptr; counts : counters }.

(** The switch shared by loom_metrics_fire and loom_metrics_shm_write. *)
Definition bump (e : loom_metric_event_t) (c : counters) : counters :=
  let 'mk_counters s st co ca f ls lm := c in
  match e with
  | LOOMWORKS_METRIC_SUBMITTED => mk_counters (s +64 1) st co ca f ls lm
  | LOOMWORKS_METRIC_STARTED => mk_counters s (st +64 1) co ca f ls lm
  | LOOMWORKS_METRIC_COMPLETED => mk_counters s st (co +64 1) ca f ls lm
  | LOOMWORKS_METRIC_CANCELLED => mk_counters s st co (ca +64 1) f ls lm
  | LOOMWORKS_METRIC_FAILED => mk_counters s st co ca (f +64 1) ls lm
  end.

(** The metrics fields of a pool at address [mp_addr]. *)
Record metric_pool := mk_metric_pool {
  mp_addr : ptr;
  metric_cb : ptr;
  metric_user_data : ptr;
  metrics : ptr;
  shm : option counters;       (* the mapped region, with shm_update set *)
}.

Record mstate := mk_mstate {
  heap : gmap ptr loom_metrics;
  pool : metric_pool;
  calls : list (ptr * loom_metric_event_t * ptr * ptr);   (* cb, event, pool, data *)
}.

(** *** loom_metrics_fire and metrics_fire *)

Definition call_cb (s : mstate) (f : ptr) (e : loom_metric_event_t) (p data : ptr) : mstate :=
  if f =? NULL then s else mk_mstate (heap s) (pool s) (calls s ++ [(f, e, p, data)]).

Definition loom_metrics_fire (s : mstate) (m : ptr) (e : loom_metric_event_t) : option mstate :=
  if m =? NULL then Some s
  else match heap s !! m with
       | None => None
       | Some c =>
           let s1 := mk_mstate (<[m := mk_metrics (m_pool c) (cb c) (cb_data c) (bump e (counts c))]> (heap s))
                       (pool s) (calls s) in
           Some (call_cb s1 (cb c) e (m_pool c) (cb_data c))
       end.

Definition loom_metrics_shm_write (e : loom_metric_event_t) (s : mstate) : mstate :=
  let p := pool s in
  match shm p with
  | None => s
  | Some c => mk_mstate (heap s) (mk_metric_pool (mp_addr p) (metric_cb p) (metric_user_data p) (metrics p)
                                    (Some (bump e c))) (calls s)
  end.

Definition metrics_fire (s : mstate) (e : loom_metric_event_t) : option mstate :=
  let m := metrics (pool s) in
  if m =? NULL then
    Some (loom_metrics_shm_write e (call_cb s (metric_cb (pool s)) e (mp_addr (pool s)) (metric_user_data (pool s))))
  else
    s1 ← loom_metrics_fire s m e;
    Some (loom_metrics_shm_write e s1).

Fixpoint fire_all (s : mstate) (es : list loom_metric_event_t) : option mstate :=
  match es with
  | [] => Some s
  | e :: es => s1 ← metrics_fire s e; fire_all s1 es
  end.

(** *** Registration *)

Definition with_pool (s : mstate) (p : metric_pool) : mstate := mk_mstate (heap s) p (calls s).

Definition loom_pool_set_metrics_callback (s : mstate) (f data : ptr) : mstate :=
  let p := pool s in
  if f =? NULL then with_pool s (mk_metric_pool (mp_addr p) NULL NULL (metrics p) (shm p))
  else with_pool s (mk_metric_pool (mp_addr p) f data (metrics p) (shm p)).

Definition loom_pool_set_metrics (s : mstate) (m : ptr) : mstate :=
  let p := pool s in
  with_pool s (mk_metric_pool (mp_addr p) (metric_cb p) (metric_user_data p) m (shm p)).

Definition loom_pool_attach_metrics_shm (s : mstate) (r : option counters) : mstate :=
  let p := pool s in
  with_pool s (mk_metric_pool (mp_addr p) (metric_cb p) (metric_user_data p) (metrics p) r).

(** [alloc]: the address calloc returns, [mutex_ok]: whether the lock is
    initialised.  The pool is wired before the lock. *)
Definition loom_metrics_create (s : mstate) (alloc : option ptr) (mutex_ok : bool) (f data : ptr)
  : loom_result_t * ptr * mstate :=
  match alloc with
  | None => (LOOMWORKS_ERR_ALLOC, NULL, s)
  | Some m =>
      let s1 := mk_mstate (<[m := mk_metrics (mp_addr (pool s)) f data counters_zero]> (heap s)) (pool s) (calls s) in
      let s2 := loom_pool_set_metrics (loom_pool_set_metrics_callback s1 f data) m in
      if mutex_ok then (LOOMWORKS_OK, m, s2)
      else (LOOMWORKS_ERR_ALLOC, NULL, mk_mstate (delete m (heap s2)) (pool s2) (calls s2))
  end.

Definition loom_metrics_destroy (s : mstate) (m : ptr) : option mstate :=
  if m =? NULL then Some s
  else match heap s !! m with
       | None => None
       | Some c =>
           let s1 := if m_pool c =? NULL then s
                     else loom_pool_set_metrics_callback (loom_pool_set_metrics s NULL) NULL NULL in
           Some (mk_mstate (delete m (heap s1)) (pool s1) (calls s1))
       end.

(** The pool-side detach of pool_destroy_internal. *)
Definition loom_metrics_clear_pool (s : mstate) (m : ptr) : mstate :=
  match heap s !! m with
  | None => s
  | Some c => mk_mstate (<[m := mk_metrics NULL (cb c) (cb_data c) (counts c)]> (heap s)) (pool s) (calls s)
  end.

Definition pool_detach_metrics (s : mstate) : mstate :=
  let s1 := loom_metrics_clear_pool s (metrics (pool s)) in
  let p := pool s1 in
  with_pool s1 (mk_metric_pool (mp_addr p) NULL NULL NULL (shm p)).

(** *** Latency and queries *)

(** The compare-and-swap loop when no other thread intervenes. *)
Definition loom_metrics_record_latency (l : Z) (c : counters) : counters :=
  let 'mk_counters s st co ca f ls lm := c in
  mk_counters s st co ca f (ls +64 l) (if lm <? l then l else lm).

Definition loom_metrics_avg_latency_ns (c : counters) : Z :=
  if completed c =? 0 then 0 else latency_sum_ns c / completed c.

Definition loom_metrics_snapshot (c : counters) : counters := c.

(** ** Counting *)

Definition occ (e : loom_metric_event_t) (es : list loom_metric_event_t) : Z :=
  Z.of_nat (length (filter (fun x => x = e) es)).

(** [c] has seen the events [es] since [c0]. *)
Definition counted (c0 : counters) (es : list loom_metric_event_t) : counters :=
  let 'mk_counters s st co ca f ls lm := c0 in
  mk_counters (u64 (s + occ LOOMWORKS_METRIC_SUBMITTED es)) (u64 (st + occ LOOMWORKS_METRIC_STARTED es))
    (u64 (co + occ LOOMWORKS_METRIC_COMPLETED es)) (u64 (ca + occ LOOMWORKS_METRIC_CANCELLED es))
    (u64 (f + occ LOOMWORKS_METRIC_FAILED es)) ls lm.

#[global] Arguments counted : simpl never.
#[global] Arguments bump : simpl never.

Lemma occ_snoc e x es : occ e (es ++ [x]) = occ e es + if decide (x = e) then 1 else 0.
Proof.
  unfold occ. rewrite filter_app, length_app, filter_cons. case_decide; simpl; lia.
Qed.

Lemma counted_snoc c es e : bump e (counted c es) = counted c (es ++ [e]).
Proof.
  destruct c. unfold counted, bump. rewrite !occ_snoc.
  destruct e; repeat (rewrite decide_True by done || rewrite decide_False by done);
    by rewrite ?u64_add_l, ?Z.add_0_r, ?Z.add_assoc.
Qed.

(** ** Dispatch *)

(** The calls a callback sees for the events [es]. *)
Definition calls_of (f p data : ptr) (es : list loom_metric_event_t) : list (ptr * loom_metric_event_t * ptr * ptr) :=
  if f =? NULL then [] else (fun e => (f, e, p, data)) <$> es.

Lemma calls_of_cons f p data e es : calls_of f p data (e :: es) = calls_of f p data [e] ++ calls_of f p data es.
Proof. unfold calls_of. by destruct (f =? NULL). Qed.

Lemma call_cb_calls s f e p data :
  calls (call_cb s f e p data) = calls s ++ calls_of f p data [e] /\
  heap (call_cb s f e p data) = heap s /\ pool (call_cb s f e p data) = pool s.
Proof. unfold call_cb, calls_of. destruct (f =? NULL); simpl; by rewrite ?app_nil_r. Qed.

Lemma shm_write_spec e s :
  heap (loom_metrics_shm_write e s) = heap s /\ calls (loom_metrics_shm_write e s) = calls s /\
  let p := pool (loom_metrics_shm_write e s) in
  mp_addr p = mp_addr (pool s) /\ metric_cb p = metric_cb (pool s) /\
  metric_user_data p = metric_user_data (pool s) /\ metrics p = metrics (pool s) /\
  shm p = bump e <$> shm (pool s).
Proof. unfold loom_metrics_shm_write. destruct (shm (pool s)) eqn:E; simpl; by rewrite ?E. Qed.

(** Events [done] have been seen by the collector at [m] and the region. *)
Lemma fire_all_collector m p f data es : m <> NULL ->
  forall s seen,
  metrics (pool s) = m -> heap s !! m = Some (mk_metrics p f data (counted counters_zero seen)) ->
  (forall r, shm (pool s) = Some r -> r = counted counters_zero seen) ->
  exists s', fire_all s es = Some s' /\ pool s' = mk_metric_pool (mp_addr (pool s)) (metric_cb (pool s))
      (metric_user_data (pool s)) m ((fun _ => counted counters_zero (seen ++ es)) <$> shm (pool s)) /\
    heap s' !! m = Some (mk_metrics p f data (counted counters_zero (seen ++ es))) /\
    calls s' = calls s ++ calls_of f p data es.
Proof.
  intros Hm. induction es as [|e es IH]; intros s seen Hp Hh Hs; simpl.
  { exists s. rewrite !app_nil_r. split_and!; [done| |done|].
    - destruct (pool s) as [? ? ? ? r]. simpl in *. subst m. f_equal. destruct r as [r|]; [|done].
      simpl. by rewrite (Hs r).
    - unfold calls_of. destruct (f =? NULL); simpl; by rewrite app_nil_r. }
  unfold metrics_fire. rewrite Hp, (proj2 (Z.eqb_neq _ _)) by done. unfold loom_metrics_fire.
  rewrite (proj2 (Z.eqb_neq _ _)), Hh by done. simpl. rewrite counted_snoc.
  set (s1 := mk_mstate (<[m := _]> (heap s)) (pool s) (calls s)).
  destruct (call_cb_calls s1 f e p data) as (Hc & Hheap & Hpool). set (s2 := call_cb s1 f e p data) in *.
  destruct (shm_write_spec e s2) as (Hh3 & Hc3 & Ha & Hcb & Hud & Hme & Hsh). set (s3 := loom_metrics_shm_write e s2) in *.
  destruct (IH s3 (seen ++ [e])) as (s' & Hf & Hp' & Hh' & Hc').
  - by rewrite Hme, Hpool.
  - rewrite Hh3, Hheap. simpl. by rewrite lookup_insert_eq.
  - intros r Hr. rewrite Hsh, Hpool in Hr. simpl in Hr. destruct (shm (pool s)) as [r0|] eqn:E; [|done].
    simpl in Hr. injection Hr as <-. rewrite (Hs r0 eq_refl). apply counted_snoc.
  - exists s'. split; [done|]. rewrite <- app_assoc in Hp', Hh'. simpl in Hp', Hh'. split_and!; [|done|].
    + rewrite Hp', Ha, Hcb, Hud, Hsh, Hpool. simpl. by destruct (shm (pool s)).
    + rewrite Hc', Hc3, Hc. simpl. by rewrite <- app_assoc, <- calls_of_cons.
Qed.

Lemma fire_all_standalone es : forall s seen,
  metrics (pool s) = NULL -> (forall r, shm (pool s) = Some r -> r = counted counters_zero seen) ->
  exists s', fire_all s es = Some s' /\ heap s' = heap s /\
    shm (pool s') = ((fun _ => counted counters_zero (seen ++ es)) <$> shm (pool s)) /\
    calls s' = calls s ++ calls_of (metric_cb (pool s)) (mp_addr (pool s)) (metric_user_data (pool s)) es.
Proof.
  induction es as [|e es IH]; intros s seen Hp Hs; simpl.
  { exists s. rewrite !app_nil_r. split_and!; [done|done| |].
    - destruct (shm (pool s)) as [r|]; [|done]. simpl. by rewrite (Hs r).
    - unfold calls_of. destruct (_ =? NULL); simpl; by rewrite app_nil_r. }
  unfold metrics_fire. rewrite Hp, Z.eqb_refl. simpl.
  destruct (call_cb_calls s (metric_cb (pool s)) e (mp_addr (pool s)) (metric_user_data (pool s))) as (Hc & Hheap & Hpool).
  set (s2 := call_cb _ _ _ _ _) in *.
  destruct (shm_write_spec e s2) as (Hh3 & Hc3 & Ha & Hcb & Hud & Hme & Hsh). set (s3 := loom_metrics_shm_write e s2) in *.
  destruct (IH s3 (seen ++ [e])) as (s' & Hf & Hh' & Hs' & Hc').
  - by rewrite Hme, Hpool.
  - intros r Hr. rewrite Hsh, Hpool in Hr. destruct (shm (pool s)) as [r0|] eqn:E; [|done].
    simpl in Hr. injection Hr as <-. rewrite (Hs r0 eq_refl). apply counted_snoc.
  - exists s'. split; [done|]. rewrite <- app_assoc in Hs'. simpl in Hs'. split_and!.
    + by rewrite Hh', Hh3, Hheap.
    + rewrite Hs', Hsh, Hpool. by destruct (shm (pool s)).
    + rewrite Hc', Hc3, Hc, Ha, Hcb, Hud, Hpool. by rewrite <- app_assoc, <- calls_of_cons.
Qed.

(** ** Shared-memory names *)

Definition LOOMWORKS_SHM_NAME_MAX : nat := 127.
Definition LOOMWORKS_SHM_PREFIX : string := "/loomworks_".

Definition name_char (c : Ascii.ascii) : bool :=
  let n := Z.of_N (Ascii.N_of_ascii c) in
  ((97 <=? n) && (n <=? 122)) || ((65 <=? n) && (n <=? 90)) || ((48 <=? n) && (n <=? 57)) || (n =? 95).

Fixpoint all_chars (name : string) : bool :=
  match name with
  | EmptyString => true
  | String.String c s => name_char c && all_chars s
  end.

(** [true] stands for the return value 0. *)
Definition validate_name (name : string) : bool :=
  let n := String.length name in
  if (n =? 0)%nat || (LOOMWORKS_SHM_NAME_MAX <? n)%nat then false else all_chars name.

Definition build_path (bufsz : nat) (name : string) : option string :=
  let p := (LOOMWORKS_SHM_PREFIX +:+ name)%string in
  if (bufsz <=? String.length p)%nat then None else Some p.

(** The system calls answer with [shm_open_ok], [ftruncate_ok] and [mmap_ok]; on
    success the region's seven counters are zeroed. *)
Definition loom_metrics_shm_create (name : string) (shm_open_ok ftruncate_ok mmap_ok : bool)
  : option (string * counters) :=
  if negb (validate_name name) then None
  else
    path ← build_path 256 name;
    if shm_open_ok && ftruncate_ok && mmap_ok then Some (path, counters_zero) else None.

Lemma length_append s1 s2 : String.length (s1 +:+ s2) = (String.length s1 + String.length s2)%nat.
Proof. induction s1 as [|c s1 IH]; simpl; [done|]. by rewrite IH. Qed.

(** ** Concurrent high-water mark *)

(** A thread of loom_metrics_record_latency: its sample and the last value of
    [latency_max_ns] it has seen, or done. *)
Inductive lat_thread := LRun (l old : Z) | LDone (l : Z).

Definition sample (t : lat_thread) : Z := match t with LRun l _ | LDone l => l end.

Inductive lat_step : Z * list lat_thread -> Z * list lat_thread -> Prop :=
  | lat_win mx ts i l : ts !! i = Some (LRun l mx) -> mx < l ->
      lat_step (mx, ts) (l, <[i := LDone l]> ts)
  | lat_retry mx ts i l old : ts !! i = Some (LRun l old) -> old < l ->  (* lost or spurious *)
      lat_step (mx, ts) (mx, <[i := LRun l mx]> ts)
  | lat_stop mx ts i l old : ts !! i = Some (LRun l old) -> l <= old ->
      lat_step (mx, ts) (mx, <[i := LDone l]> ts).

Inductive lat_reach (m0 : Z) (ls : list Z) : Z * list lat_thread -> Prop :=
  | lat_init : lat_reach m0 ls (m0, (fun l => LRun l m0) <$> ls)
  | lat_next s s' : lat_reach m0 ls s -> lat_step s s' -> lat_reach m0 ls s'.

Lemma lat_inv m0 ls s :
  lat_reach m0 ls s ->
  sample <$> s.2 = ls /\ m0 <= s.1 /\ (s.1 = m0 \/ s.1 ∈ ls) /\
  (forall i l, s.2 !! i = Some (LDone l) -> l <= s.1) /\
  (forall i l old, s.2 !! i = Some (LRun l old) -> old <= s.1).
Proof.
  induction 1 as [|s s' _ (Hs & Hm & Hin & Hd & Hr) Hst].
  { split_and!; [|simpl; lia|by left| |]; simpl.
    - rewrite <- list_fmap_compose. apply list_fmap_id.
    - intros i l Hi. rewrite list_lookup_fmap in Hi. by destruct (ls !! i).
    - intros i l old Hi. rewrite list_lookup_fmap in Hi. destruct (ls !! i); simpl in Hi; [|done].
      injection Hi as _ <-. lia. }
  assert (Hsame : forall i t t', s.2 !! i = Some t -> sample t' = sample t -> sample <$> (<[i := t']> s.2) = ls).
  { intros i t t' Hi He. rewrite list_fmap_insert, He, <- Hs. apply list_insert_id.
    rewrite list_lookup_fmap, Hi. done. }
  destruct Hst as [mx ts i l Hi Hlt|mx ts i l old Hi Hlt|mx ts i l old Hi Hle]; simpl in *;
    (split; [by eapply Hsame|]); split_and!; try done; try lia.
  - right. rewrite <- Hs. apply list_elem_of_fmap. exists (LRun l mx). split; [done|]. by eapply list_elem_of_lookup_2.
  - intros j l' Hj. apply list_lookup_insert_Some in Hj as [(_ & [= <-] & _)|[_ Hj]]; [lia|].
    specialize (Hd j l' Hj). lia.
  - intros j l' old Hj. apply list_lookup_insert_Some in Hj as [(_ & ? & _)|[_ Hj]]; [done|].
    specialize (Hr j l' old Hj). lia.
  - intros j l' Hj. apply list_lookup_insert_Some in Hj as [(_ & ? & _)|[_ Hj]]; [done|]. by apply (Hd j).
  - intros j l' o Hj. apply list_lookup_insert_Some in Hj as [(_ & [= <- <-] & _)|[_ Hj]]; [lia|]. by apply (Hr j l').
  - intros j l' Hj. apply list_lookup_insert_Some in Hj as [(_ & [= <-] & _)|[_ Hj]]; [|by apply (Hd j)].
    specialize (Hr i l old Hi). lia.
  - intros j l' o Hj. apply list_lookup_insert_Some in Hj as [(_ & ? & _)|[_ Hj]]; [done|]. by apply (Hr j l').
Qed.

(** ** Properties *)

(** C36. Every event is counted once and reported once.  After a successful
    loom_metrics_create (and with or without a zeroed shared-memory region), any
    sequence of events leaves each collector counter and each region counter at
    the number of events of its kind (modulo 2^64) and the callback has been
    called exactly once per event, in order: the standalone path does not repeat
    the collector's.  Without a collector the standalone callback and the region
    get the same. *)
Theorem metrics_exactly_once s m f data region es :
  m <> NULL -> (forall r, region = Some r -> r = counters_zero) ->
  let s1 := (loom_metrics_create (loom_pool_attach_metrics_shm s region) (Some m) true f data).2 in
  (exists s', fire_all s1 es = Some s' /\
     heap s' !! m = Some (mk_metrics (mp_addr (pool s)) f data (counted counters_zero es)) /\
     shm (pool s') = (fun _ => counted counters_zero es) <$> region /\
     calls s' = calls s ++ calls_of f (mp_addr (pool s)) data es) /\
  (metrics (pool s) = NULL ->
     exists s', fire_all (loom_pool_attach_metrics_shm s region) es = Some s' /\
     shm (pool s') = (fun _ => counted counters_zero es) <$> region /\
     calls s' = calls s ++ calls_of (metric_cb (pool s)) (mp_addr (pool s)) (metric_user_data (pool s)) es).
Proof.
  intros Hm Hr s1. split.
  - assert (Hp : mp_addr (pool s1) = mp_addr (pool s) /\ metrics (pool s1) = m /\ shm (pool s1) = region /\ calls s1 = calls s).
    { unfold s1, loom_metrics_create, loom_pool_set_metrics_callback. simpl. by destruct (f =? NULL). }
    destruct Hp as (Ha & Hme & Hsh & Hc).
    assert (Hheap : heap s1 !! m = Some (mk_metrics (mp_addr (pool s)) f data counters_zero)).
    { unfold s1, loom_metrics_create, loom_pool_set_metrics_callback. simpl.
      destruct (f =? NULL); simpl; by rewrite lookup_insert_eq. }
    clearbody s1.
    destruct (fire_all_collector m (mp_addr (pool s)) f data es Hm s1 [] Hme Hheap) as (s' & Hf & Hps & Hh & Hcs).
    { intros r Hrr. rewrite Hsh in Hrr. by rewrite (Hr r Hrr). }
    exists s'. split_and!; [done|done| |by rewrite Hcs, Hc]. rewrite Hps. simpl. by rewrite Hsh.
  - intros Hnull. destruct (fire_all_standalone es (loom_pool_attach_metrics_shm s region) [] Hnull) as (s' & Hf & _ & Hs & Hc).
    { intros r Hrr. simpl in Hrr. by rewrite (Hr r Hrr). }
    exists s'. by split_and!.
Qed.

Definition demo_pool : metric_pool := mk_metric_pool 100 NULL NULL NULL None.

Lemma metrics_exactly_once_witness :
  exists s', fire_all (loom_metrics_create (loom_pool_attach_metrics_shm (mk_mstate ∅ demo_pool []) None)
      (Some 64) true 7 9).2 [LOOMWORKS_METRIC_SUBMITTED; LOOMWORKS_METRIC_SUBMITTED] = Some s' /\
    calls s' = [(7, LOOMWORKS_METRIC_SUBMITTED, 100, 9); (7, LOOMWORKS_METRIC_SUBMITTED, 100, 9)].
Proof.
  destruct (metrics_exactly_once (mk_mstate ∅ demo_pool []) 64 7 9 None
    [LOOMWORKS_METRIC_SUBMITTED; LOOMWORKS_METRIC_SUBMITTED] ltac:(discriminate) ltac:(discriminate)) as [(s' & Hf & _ & _ & Hc) _].
  exists s'. split; [exact Hf|exact Hc].
Defined.

(** Detaching is safe in both orders.  Destroying the collector while the
    pool is alive leaves a pool that fires no callback and no longer refers to
    any collector; when the pool detached first, destroying the collector does
    not touch the pool.  But if initialising the collector's lock fails,
    loom_metrics_create frees the collector after publishing it, and the next
    event of the pool reads freed memory. *)
Theorem metrics_detach s m f data e :
  m <> NULL -> mp_addr (pool s) <> NULL -> heap s !! m = None ->
  let s1 := (loom_metrics_create s (Some m) true f data).2 in
  (exists s', loom_metrics_destroy s1 m = Some s' /\ metrics (pool s') = NULL /\ metric_cb (pool s') = NULL /\
     heap s' = heap s /\ is_Some (metrics_fire s' e)) /\
  (exists s', loom_metrics_destroy (pool_detach_metrics s1) m = Some s' /\
     pool s' = pool (pool_detach_metrics s1) /\ heap s' = heap s) /\
  (let '(rc, out, s2) := loom_metrics_create s (Some m) false f data in
   rc = LOOMWORKS_ERR_ALLOC /\ out = NULL /\ metrics_fire s2 e = None).
Proof.
  intros Hm Ha Hfree s1.
  assert (Hs1 : s1 = mk_mstate (<[m := mk_metrics (mp_addr (pool s)) f data counters_zero]> (heap s)) (pool s1) (calls s)
    /\ metrics (pool s1) = m).
  { unfold s1, loom_metrics_create, loom_pool_set_metrics_callback. simpl. by destruct (f =? NULL). }
  destruct Hs1 as [Hs1 Hme].
  assert (Hh : heap s1 !! m = Some (mk_metrics (mp_addr (pool s)) f data counters_zero))
    by (rewrite Hs1; simpl; by rewrite lookup_insert_eq).
  assert (Hdel : delete m (heap s1) = heap s) by (rewrite Hs1; simpl; by rewrite delete_insert_id).
  split_and!.
  - unfold loom_metrics_destroy. rewrite (proj2 (Z.eqb_neq m NULL)), Hh by done. simpl.
    rewrite (proj2 (Z.eqb_neq (mp_addr (pool s)) NULL)) by done. eexists. split; [done|]. simpl.
    split_and!; [done|done|done|]. unfold metrics_fire. simpl. eauto.
  - unfold loom_metrics_destroy, pool_detach_metrics, loom_metrics_clear_pool. rewrite Hme, Hh.
    rewrite (proj2 (Z.eqb_neq m NULL)) by done. simpl. rewrite lookup_insert_eq. simpl.
    eexists. split; [done|]. simpl. split; [done|]. by rewrite delete_insert_eq.
  - unfold loom_metrics_create. cbn [fst snd]. split_and!; [done|done|]. unfold metrics_fire, loom_metrics_fire, loom_pool_set_metrics_callback.
    destruct (f =? NULL); simpl; rewrite (proj2 (Z.eqb_neq m NULL)) by done; by rewrite lookup_delete_eq.
Qed.

Lemma metrics_detach_witness :
  exists s', loom_metrics_destroy (loom_metrics_create (mk_mstate ∅ demo_pool []) (Some 64) true 7 9).2 64 = Some s' /\
    metrics (pool s') = NULL.
Proof.
  destruct (metrics_detach (mk_mstate ∅ demo_pool []) 64 7 9 LOOMWORKS_METRIC_FAILED ltac:(discriminate)
    ltac:(discriminate) eq_refl) as [(s' & Hd & Hm & _) _].
  exists s'. split; [exact Hd|exact Hm].
Defined.

(** The lock-free latency maximum: for any number of threads recording at
    once, under any interleaving and any spurious compare-and-swap failure, the
    maximum never decreases, and once all threads are done it is the largest of
    its initial value and their samples. *)
Theorem latency_high_water m0 ls mx ts :
  lat_reach m0 ls (mx, ts) ->
  m0 <= mx /\
  ((forall i t, ts !! i = Some t -> exists l, t = LDone l) ->
     (mx = m0 \/ mx ∈ ls) /\ forall l, l ∈ ls -> l <= mx).
Proof.
  intros Hr. destruct (lat_inv m0 ls (mx, ts) Hr) as (Hs & Hm & Hin & Hd & _). simpl in *.
  split; [done|]. intros Hdone. split; [done|]. intros l Hl. rewrite <- Hs in Hl.
  apply list_elem_of_fmap in Hl as (t & -> & [i Hi]%list_elem_of_lookup).
  destruct (Hdone i t Hi) as [l ->]. by apply (Hd i).
Qed.

Lemma latency_high_water_witness : 0 <= 5 /\ (5 = 0 \/ 5 ∈ [5]).
Proof.
  assert (Hr : lat_reach 0 [5] (5, [LDone 5])).
  { apply (lat_next 0 [5] (0, [LRun 5 0])); [exact (lat_init 0 [5])|].
    exact (lat_win 0 [LRun 5 0] 0 5 eq_refl ltac:(lia)). }
  destruct (latency_high_water 0 [5] 5 [LDone 5] Hr) as [H0 H1]. split; [exact H0|].
  apply H1. intros [|i] t Ht; [exists 5; injection Ht as <-; reflexivity|discriminate Ht].
Defined.

(** Shared-memory names: a segment is created exactly for a name of 1 to
    127 characters from [a-zA-Z0-9_] (when the system calls succeed), under the
    path "/loomworks_" followed by the name, with all counters zero; the 256-byte
    path buffer never truncates a valid name. *)
Theorem shm_create_spec name a b c path r :
  loom_metrics_shm_create name a b c = Some (path, r) <->
  (1 <= String.length name <= 127)%nat /\ all_chars name = true /\ a && b && c = true /\
  path = (LOOMWORKS_SHM_PREFIX +:+ name)%string /\ r = counters_zero.
Proof.
  assert (Hfit : (String.length name <= 127)%nat -> build_path 256 name = Some (LOOMWORKS_SHM_PREFIX +:+ name)).
  { intros Hl. unfold build_path. rewrite length_append.
    change (String.length LOOMWORKS_SHM_PREFIX) with 11%nat.
    destruct (Nat.leb_spec 256 (11 + String.length name)); [lia|done]. }
  unfold loom_metrics_shm_create, validate_name, LOOMWORKS_SHM_NAME_MAX.
  destruct (Nat.eqb_spec (String.length name) 0), (Nat.ltb_spec 127 (String.length name));
    cbn [orb negb]; try (split; [done|lia]).
  destruct (all_chars name); cbn [negb]; [|split; [done|by intros (_ & ? & _)]].
  rewrite Hfit by lia. simpl. destruct (a && b && c); split.
  - intros Hx. injection Hx as <- <-. split_and!; [lia|lia|done..].
  - by intros (_ & _ & _ & -> & ->).
  - done.
  - by intros (_ & _ & ? & _).
Qed.
