(* ===== verification/Dag.v ===== *)
(** * Building and checking a task DAG (src/dag.c: loom_dag_create,
    loom_dag_add_node, loom_dag_add_edge and the checking part of
    loom_dag_submit).

    Nodes live in an array indexed by id; a node pointer is its id.  Building
    keeps each node's [in_degree] equal to its number of predecessors; submit
    runs Kahn's algorithm on a copy of the in-degrees and refuses cyclic
    graphs.  DagEngine.v runs the accepted ones. *)
From S2P Require Import Prelude Types.

Record dag_node := mk_dag_node {
  node_fn : ptr;                    (* NULL = id not added *)
  node_data : ptr;
  node_priority : Z;
  in_degree : Z;                    (* uint32_t *)
  succs : list nat;
  succs_cap : Z;
}.

#[export] Instance dag_node_inhabited : Inhabited dag_node := populate (mk_dag_node NULL NULL 0 0 [] 0).

Record dag := mk_dag {
  nodes : list dag_node;            (* [] until the first add allocates it *)
  node_capacity : nat;
  submitted : bool;
  destroyed : bool;
  d_failed : bool;
  fail_error : loom_result_t;
  added_count : Z;
}.

(** loom_dag_create once its primitives are initialised ([init_ok]). *)
Definition loom_dag_create (capacity : nat) (init_ok : bool) : loom_result_t * option dag :=
  if (capacity =? 0)%nat then (LOOMWORKS_ERR_INVALID, None)
  else if init_ok then (LOOMWORKS_OK, Some (mk_dag [] capacity false false false LOOMWORKS_OK 0))
  else (LOOMWORKS_ERR_ALLOC, None).

Definition set_nodes (d : dag) (ns : list dag_node) : dag :=
  mk_dag ns (node_capacity d) (submitted d) (destroyed d) (d_failed d) (fail_error d) (added_count d).

(** The lazy allocation of the node array. *)
Definition ensure_nodes (d : dag) (calloc_ok : bool) : option dag :=
  match nodes d with
  | [] => if calloc_ok then Some (set_nodes d (replicate (node_capacity d) (mk_dag_node NULL NULL 0 0 [] 0)))
          else None
  | _ => Some d
  end.

Definition has_fn (d : dag) (i : nat) : bool := negb (node_fn (nodes d !!! i) =? NULL).

Definition loom_dag_add_node (d : dag) (id : nat) (f data : ptr) (prio : Z) (calloc_ok : bool)
  : loom_result_t * dag :=
  if f =? NULL then (LOOMWORKS_ERR_INVALID, d)
  else if (node_capacity d <=? id)%nat then (LOOMWORKS_ERR_INVALID, d)
  else if submitted d || destroyed d then (LOOMWORKS_ERR_INVALID, d)
  else match ensure_nodes d calloc_ok with
       | None => (LOOMWORKS_ERR_ALLOC, d)
       | Some d1 =>
           if has_fn d1 id then (LOOMWORKS_ERR_INVALID, d1)
           else (LOOMWORKS_OK,
                 mk_dag (<[id := mk_dag_node f data prio 0 [] 0]> (nodes d1)) (node_capacity d1)
                   (submitted d1) (destroyed d1) (d_failed d1) (fail_error d1) (added_count d1 +32 1))
       end.

(** Growth of the successor array: the new capacity, or [None] on failure. *)
Definition succs_grow (n : dag_node) (realloc_ok : bool) : option Z :=
  if Z.of_nat (length (succs n)) =? succs_cap n then
    if realloc_ok then Some (if succs_cap n =? 0 then 4 else u32 (succs_cap n * 2)) else None
  else Some (succs_cap n).

Definition loom_dag_add_edge (d : dag) (from to : nat) (calloc_ok realloc_ok : bool) : loom_result_t * dag :=
  if (node_capacity d <=? from)%nat || (node_capacity d <=? to)%nat then (LOOMWORKS_ERR_INVALID, d)
  else if submitted d || destroyed d then (LOOMWORKS_ERR_INVALID, d)
  else match ensure_nodes d calloc_ok with
       | None => (LOOMWORKS_ERR_ALLOC, d)
       | Some d1 =>
           if negb (has_fn d1 from) || negb (has_fn d1 to) then (LOOMWORKS_ERR_INVALID, d1)
           else if (from =? to)%nat then (LOOMWORKS_ERR_INVALID, d1)
           else
             let f := nodes d1 !!! from in
             if bool_decide (to ∈ succs f) then (LOOMWORKS_ERR_INVALID, d1)
             else match succs_grow f realloc_ok with
                  | None => (LOOMWORKS_ERR_ALLOC, d1)
                  | Some cap =>
                      let ns := <[from := mk_dag_node (node_fn f) (node_data f) (node_priority f)
                                            (in_degree f) (succs f ++ [to]) cap]> (nodes d1) in
                      let t := ns !!! to in
                      (LOOMWORKS_OK,
                       set_nodes d1 (<[to := mk_dag_node (node_fn t) (node_data t) (node_priority t)
                                               (in_degree t +32 1) (succs t) (succs_cap t)]> ns))
                  end
       end.

(** ** Kahn's pass *)

(** The ids with a function, in index order (the [added] scan). *)
Definition added_ids (d : dag) : list nat := filter (fun i => has_fn d i) (seq 0 (length (nodes d))).

(** The inner loop over the successors of one node: the new in-degrees, the
    queue, and whether [bounded] still holds. *)
Fixpoint kahn_succs (ss : list nat) (indeg : list Z) (queue : list nat) (added : nat)
  : list Z * list nat * bool :=
  match ss with
  | [] => (indeg, queue, true)
  | sid :: ss =>
      let indeg' := <[sid := indeg !!! sid -32 1]> indeg in
      if negb (indeg' !!! sid =? 0) then kahn_succs ss indeg' queue added
      else if (added <=? length queue)%nat then (indeg', queue, false)
      else kahn_succs ss indeg' (queue ++ [sid]) added
  end.

Fixpoint kahn_loop (fuel : nat) (ns : list dag_node) (indeg : list Z) (queue : list nat) (qh added : nat)
  : bool * list nat :=
  match fuel with
  | O => (true, queue)
  | S f =>
      match queue !! qh with
      | None => (true, queue)
      | Some id =>
          let '(indeg', queue', bounded) := kahn_succs (succs (ns !!! id)) indeg queue added in
          if bounded then kahn_loop f ns indeg' queue' (S qh) added else (false, queue')
      end
  end.

Definition kahn_roots (d : dag) : list nat := filter (fun i => in_degree (nodes d !!! i) = 0) (added_ids d).

(** [!bounded || qt != added]. *)
Definition has_cycle (d : dag) : bool :=
  let added := length (added_ids d) in
  let indeg := in_degree <$> nodes d in
  let '(bounded, queue) := kahn_loop (S added) (nodes d) indeg (kahn_roots d) 0 added in
  negb bounded || negb (length queue =? added)%nat.

(** The part of loom_dag_submit before the roots are released: an error code,
    or the ids of the roots to release in order.  [alloc_ok]: both scratch
    arrays were allocated. *)
Definition dag_submit_check (d : dag) (alloc_ok : bool) : loom_result_t * list nat * dag :=
  if submitted d || destroyed d then (LOOMWORKS_ERR_INVALID, [], d)
  else
    let added := length (added_ids d) in
    let frozen (fl : bool) (rc : loom_result_t) (n : Z) :=
      mk_dag (nodes d) (node_capacity d) true (destroyed d) fl rc n in
    if (added =? 0)%nat then (LOOMWORKS_OK, [], frozen (d_failed d) (fail_error d) 0)
    else if negb alloc_ok then (LOOMWORKS_ERR_ALLOC, [], frozen true LOOMWORKS_ERR_ALLOC (added_count d))
    else if has_cycle d then (LOOMWORKS_ERR_INVALID, [], frozen true LOOMWORKS_ERR_INVALID (added_count d))
    else (LOOMWORKS_OK, kahn_roots d, frozen (d_failed d) (fail_error d) (Z.of_nat added)).

(** ** Well-formed graphs *)

Definition edge (ns : list dag_node) (u v : nat) : Prop := v ∈ succs (ns !!! u).
#[export] Instance edge_dec ns u v : Decision (edge ns u v).
Proof. unfold edge. apply _. Defined.

Definition preds (d : dag) (v : nat) : list nat := filter (fun u => edge (nodes d) u v) (added_ids d).

Record dag_wf (d : dag) : Prop := {
  gw_len : nodes d = [] \/ length (nodes d) = node_capacity d;
  gw_cap : Z.of_nat (node_capacity d) < 2 ^ 32;
  gw_added : added_count d = Z.of_nat (length (added_ids d));
  gw_edge : forall u v, edge (nodes d) u v -> u ∈ added_ids d /\ v ∈ added_ids d /\ u <> v;
  gw_nodup : forall u, NoDup (succs (nodes d !!! u));
  gw_indeg : forall v, v ∈ added_ids d -> in_degree (nodes d !!! v) = Z.of_nat (length (preds d v));
}.

(** A graph is acyclic when its nodes can be ranked along the edges. *)
Definition acyclic (d : dag) : Prop :=
  exists rank : nat -> nat, forall u v, edge (nodes d) u v -> (rank u < rank v)%nat.

(** ** Building keeps the graph well formed *)

Lemma elem_of_added d v : v ∈ added_ids d <-> (v < length (nodes d))%nat /\ has_fn d v = true.
Proof.
  unfold added_ids. rewrite list_elem_of_filter, elem_of_seq, Is_true_true. naive_solver lia.
Qed.

Lemma added_nodup d : NoDup (added_ids d).
Proof. apply NoDup_filter, NoDup_seq. Qed.

Lemma preds_all d v :
  (forall u, edge (nodes d) u v -> u ∈ added_ids d) ->
  preds d v = filter (fun u => edge (nodes d) u v) (seq 0 (length (nodes d))).
Proof.
  intros He. unfold preds, added_ids. rewrite list_filter_filter. apply list_filter_iff'.
  intros u _. split; [tauto|]. intros Hu. split; [done|].
  apply He in Hu. unfold added_ids in Hu. by apply list_elem_of_filter in Hu as [? _].
Qed.

Lemma edge_lt ns u v : edge ns u v -> (u < length ns)%nat.
Proof.
  unfold edge. intros He. destruct (decide (u < length ns)%nat) as [|Hge]; [done|].
  rewrite list_lookup_total_alt, lookup_ge_None_2 in He by lia. by apply not_elem_of_nil in He.
Qed.

Lemma dag_create_wf capacity d :
  Z.of_nat capacity < 2 ^ 32 -> (loom_dag_create capacity true).2 = Some d -> dag_wf d.
Proof.
  intros Hc. unfold loom_dag_create. destruct (Nat.eqb_spec capacity 0); [done|]. intros [= <-].
  split; try done; [by left|..].
  - intros u v He. apply edge_lt in He. simpl in He. lia.
  - intros u. apply NoDup_nil_2.
Qed.

Lemma ensure_nodes_spec d ok d1 :
  dag_wf d -> (0 < node_capacity d)%nat -> ensure_nodes d ok = Some d1 ->
  dag_wf d1 /\ length (nodes d1) = node_capacity d1 /\ node_capacity d1 = node_capacity d /\
  added_ids d1 = added_ids d /\ (forall u v, edge (nodes d1) u v <-> edge (nodes d) u v).
Proof.
  intros Hw Hc. unfold ensure_nodes. destruct (nodes d) as [|x ns] eqn:En.
  - destruct ok; [|done]. intros [= <-].
    set (z := mk_dag_node NULL NULL 0 0 [] 0).
    assert (Hz : forall u, replicate (node_capacity d) z !!! u = z).
    { intros u. rewrite list_lookup_total_alt. destruct (replicate _ _ !! u) eqn:E; [|done].
      by apply lookup_replicate in E as [-> _]. }
    assert (Hadd : added_ids (set_nodes d (replicate (node_capacity d) z)) = []).
    { apply elem_of_nil_inv. intros v Hv%elem_of_added. unfold has_fn in Hv. simpl in Hv. rewrite Hz in Hv. by destruct Hv. }
    assert (Hadd0 : added_ids d = []) by (unfold added_ids; by rewrite En).
    assert (Hedge : forall u v, ~ edge (replicate (node_capacity d) z) u v).
    { intros u v. unfold edge. rewrite Hz. apply not_elem_of_nil. }
    split_and!; simpl; try (by rewrite ?length_replicate, ?Hadd, ?Hadd0).
    + split; simpl; rewrite ?Hadd; try done; try (by apply Hw).
      * right. by rewrite length_replicate.
      * rewrite (gw_added _ Hw). by rewrite Hadd0.
      * intros u v He. by apply Hedge in He.
      * intros u. rewrite Hz. apply NoDup_nil_2.
      * intros v Hv. by apply not_elem_of_nil in Hv.
    + intros u v. split; intros He; [by apply Hedge in He|]. apply edge_lt in He. simpl in He. lia.
  - intros [= <-]. rewrite En. split_and!; try done. destruct (gw_len _ Hw) as [He|He]; rewrite En in He; done.
Qed.

Lemma added_length d : (length (added_ids d) <= length (nodes d))%nat.
Proof. unfold added_ids. etrans; [apply length_filter|]. by rewrite length_seq. Qed.

Lemma preds_same d d' v :
  length (nodes d') = length (nodes d) ->
  (forall u w, edge (nodes d) u w -> u ∈ added_ids d) -> (forall u w, edge (nodes d') u w -> u ∈ added_ids d') ->
  (forall u, edge (nodes d') u v <-> edge (nodes d) u v) -> preds d' v = preds d v.
Proof.
  intros Hl He He' Hiff. rewrite (preds_all d v), (preds_all d' v) by eauto. rewrite Hl.
  apply list_filter_iff'. intros u _. apply Hiff.
Qed.

Lemma add_node_wf d id f data prio ok :
  dag_wf d -> dag_wf (loom_dag_add_node d id f data prio ok).2.
Proof.
  intros Hw. unfold loom_dag_add_node. destruct (f =? NULL) eqn:Ef; [done|].
  destruct (Nat.leb_spec (node_capacity d) id); [done|]. destruct (submitted d || destroyed d); [done|].
  destruct (ensure_nodes d ok) as [d1|] eqn:E1; [|done].
  destruct (ensure_nodes_spec d ok d1 Hw ltac:(lia) E1) as (Hw1 & Hlen & Hcap & _ & _).
  destruct (has_fn d1 id) eqn:Hf; [done|]. zbool. set (d' := mk_dag _ _ _ _ _ _ _). simpl.
  assert (Hrd : forall u, nodes d' !!! u = if decide (u = id) then mk_dag_node f data prio 0 [] 0 else nodes d1 !!! u).
  { intros u. simpl. case_decide as E; [subst; apply array_read_insert_eq; lia|by apply array_read_insert_ne]. }
  assert (Hl' : length (nodes d') = length (nodes d1)) by (simpl; by rewrite length_insert).
  assert (Hnid : id ∉ added_ids d1) by (rewrite elem_of_added, Hf; naive_solver).
  assert (Hadd : forall v, v ∈ added_ids d' <-> v ∈ added_ids d1 \/ v = id).
  { intros v. rewrite !elem_of_added, Hl'. unfold has_fn. rewrite Hrd. case_decide; [|naive_solver].
    subst. simpl. rewrite (proj2 (Z.eqb_neq f NULL)) by done. naive_solver lia. }
  assert (Hedge : forall u v, edge (nodes d') u v <-> edge (nodes d1) u v).
  { intros u v. unfold edge at 1. rewrite Hrd. case_decide; [subst|done]. simpl. split; intros He.
    - by apply not_elem_of_nil in He.
    - by destruct (gw_edge _ Hw1 id v He). }
  assert (Hcount : length (added_ids d') = S (length (added_ids d1))).
  { unfold added_ids. rewrite Hl'. apply length_filter_add with (a := id); [apply NoDup_seq| | |].
    - apply elem_of_seq. lia.
    - rewrite Hf. tauto.
    - intros v. unfold has_fn. rewrite Hrd, !Is_true_true. case_decide; [subst|naive_solver].
      simpl. rewrite (proj2 (Z.eqb_neq f NULL)) by done. naive_solver. }
  pose proof (added_length d'). pose proof (gw_cap _ Hw1).
  split; [right; rewrite Hl'; done|done| | | |].
  - rewrite Hcount. simpl. rewrite (gw_added _ Hw1), u32_small by lia. lia.
  - intros u v He. rewrite !Hadd. apply Hedge, (gw_edge _ Hw1) in He. naive_solver.
  - intros u. rewrite Hrd. case_decide; [apply NoDup_nil_2|apply Hw1].
  - intros v Hv. rewrite (preds_same d1 d' v Hl'); [|intros u w He; by destruct (gw_edge _ Hw1 u w He)| |by intros u; apply Hedge].
    + rewrite Hrd. case_decide as E; [subst; simpl|apply Hw1; apply Hadd in Hv; naive_solver].
      unfold preds. rewrite filter_none; [done|]. apply Forall_forall. intros u _ He.
      by destruct (gw_edge _ Hw1 u id He) as (_ & ? & _).
    + intros u w He. apply Hadd. left. apply Hedge in He. by destruct (gw_edge _ Hw1 u w He).
Qed.

Lemma add_edge_wf d from to ok ok2 :
  dag_wf d -> dag_wf (loom_dag_add_edge d from to ok ok2).2.
Proof.
  intros Hw. unfold loom_dag_add_edge.
  destruct (_ || _) eqn:Eb; [done|]. destruct (submitted d || destroyed d); [done|].
  apply orb_false_elim in Eb as [Eb1%Nat.leb_gt Eb2%Nat.leb_gt].
  destruct (ensure_nodes d ok) as [d1|] eqn:E1; [|done].
  destruct (ensure_nodes_spec d ok d1 Hw ltac:(lia) E1) as (Hw1 & Hlen & Hcap & _ & _).
  destruct (_ || _) eqn:Ef; [done|]. zbool. destruct (Nat.eqb_spec from to) as [|Hne]; [done|].
  case_bool_decide as Hdup; [done|]. destruct (succs_grow _ ok2) as [cap|]; [|done]. simpl.
  set (f := nodes d1 !!! from) in *. set (ns := <[from := _]> (nodes d1)).
  set (t := ns !!! to). set (d' := set_nodes d1 _).
  assert (Ht : t = nodes d1 !!! to) by (unfold t, ns; by apply array_read_insert_ne).
  assert (Hrd : forall u, nodes d' !!! u =
    if decide (u = to) then mk_dag_node (node_fn t) (node_data t) (node_priority t) (in_degree t +32 1) (succs t) (succs_cap t)
    else if decide (u = from) then mk_dag_node (node_fn f) (node_data f) (node_priority f) (in_degree f) (succs f ++ [to]) cap
    else nodes d1 !!! u).
  { intros u. simpl. assert (length ns = length (nodes d1)) by (unfold ns; by rewrite length_insert).
    case_decide as E; [subst; apply array_read_insert_eq; lia|]. rewrite array_read_insert_ne by done.
    unfold ns. case_decide as E'; [subst; apply array_read_insert_eq; lia|by apply array_read_insert_ne]. }
  assert (Hl' : length (nodes d') = length (nodes d1)) by (simpl; unfold ns; by rewrite !length_insert).
  assert (Hfn : forall u, has_fn d' u = has_fn d1 u).
  { intros u. unfold has_fn. rewrite Hrd, Ht. repeat case_decide; by subst. }
  assert (Hadd : added_ids d' = added_ids d1).
  { unfold added_ids. rewrite Hl'. apply list_filter_iff'. intros u _. by rewrite Hfn. }
  assert (Hedge : forall u v, edge (nodes d') u v <-> edge (nodes d1) u v \/ (u = from /\ v = to)).
  { intros u v. unfold edge. rewrite Hrd, Ht. unfold f. repeat case_decide; subst; simpl;
      rewrite ?elem_of_app, ?list_elem_of_singleton; naive_solver. }
  assert (Hft : from ∈ added_ids d1 /\ to ∈ added_ids d1) by (rewrite !elem_of_added; naive_solver lia).
  split; rewrite ?Hadd; try (by apply Hw1).
  - right. by rewrite Hl'.
  - intros u v [He|[-> ->]]%Hedge; [by apply (gw_edge _ Hw1)|naive_solver].
  - intros u. rewrite Hrd. repeat case_decide; subst; simpl; rewrite ?Ht; try apply Hw1.
    apply NoDup_app. split_and!; [apply Hw1| |apply NoDup_singleton]. intros x Hx ->%list_elem_of_singleton. done.
  - intros v Hv. rewrite Hrd. unfold preds. rewrite Hadd. case_decide as E1'.
    + subst v. cbn [in_degree]. rewrite Ht, (gw_indeg _ Hw1 to) by naive_solver.
      pose proof (length_filter (fun u => edge (nodes d') u to) (added_ids d1)) as Hle.
      assert (Hone : length (filter (fun u => edge (nodes d') u to) (added_ids d1)) = S (length (preds d1 to))).
      { apply length_filter_add with (a := from); [apply added_nodup|naive_solver|done|].
        intros u. rewrite Hedge. naive_solver. }
      rewrite Hone in Hle. pose proof (added_length d1). pose proof (gw_cap _ Hw1).
      rewrite u32_small by lia. rewrite Hone. lia.
    + rewrite (list_filter_iff' _ (fun u => edge (nodes d1) u v)); [|intros u _; rewrite Hedge; naive_solver].
      fold (preds d1 v). case_decide as E2; [subst v; exact (gw_indeg _ Hw1 from Hv)|exact (gw_indeg _ Hw1 v Hv)].
Qed.

(** ** Kahn's pass accepts exactly the acyclic graphs *)

Lemma kahn_succs_spec (ss : list nat) (indeg : list Z) (queue : list nat) (added : nat) :
  NoDup ss ->
  (forall v, v ∈ ss -> (v < length indeg)%nat /\ 1 <= (indeg !!! v : Z) < 2 ^ 32) ->
  (length queue + length (filter (fun v => (indeg !!! v : Z) = 1%Z) ss) <= added)%nat ->
  exists indeg', kahn_succs ss indeg queue added = (indeg', queue ++ filter (fun v => (indeg !!! v : Z) = 1%Z) ss, true) /\
    length indeg' = length indeg /\
    forall v, indeg' !!! v = (indeg !!! v : Z) - if decide (v ∈ ss) then 1 else 0.
Proof.
  intros Hnd. revert indeg queue. induction Hnd as [|s ss Hs Hnd IH]; intros indeg queue Hr Hb.
  { exists indeg. rewrite filter_nil, app_nil_r. split_and!; [done..|]. intros v.
    rewrite decide_False by apply not_elem_of_nil. lia. }
  destruct (Hr s ltac:(by constructor)) as [Hlt Hsr]. cbn [kahn_succs].
  set (indeg1 := <[s := indeg !!! s -32 1]> indeg).
  assert (Hs1 : indeg1 !!! s = (indeg !!! s : Z) - 1).
  { unfold indeg1. rewrite array_read_insert_eq, u32_small by lia. done. }
  assert (Hne : forall v, v <> s -> indeg1 !!! v = (indeg !!! v : Z)) by (intros; by apply array_read_insert_ne).
  assert (Hl1 : length indeg1 = length indeg) by apply length_insert.
  assert (Hf : filter (fun v => (indeg1 !!! v : Z) = 1%Z) ss = filter (fun v => (indeg !!! v : Z) = 1%Z) ss).
  { apply list_filter_iff'. intros v Hv. rewrite Hne; [done|]. by intros ->. }
  assert (Hr1 : forall v, v ∈ ss -> (v < length indeg1)%nat /\ 1 <= (indeg1 !!! v : Z) < 2 ^ 32).
  { intros v Hv. rewrite Hl1, Hne by (by intros ->). apply Hr. by constructor. }
  assert (Hfin : forall indeg2 : list Z, (forall v, indeg2 !!! v = (indeg1 !!! v : Z) - if decide (v ∈ ss) then 1 else 0) ->
    forall v, indeg2 !!! v = (indeg !!! v : Z) - if decide (v ∈ s :: ss) then 1 else 0).
  { intros indeg2 H2 v. rewrite H2. destruct (decide (v = s)) as [->|Hvs].
    - rewrite Hs1, decide_False, decide_True by (done || by constructor). lia.
    - rewrite Hne by done. f_equal. destruct (decide (v ∈ ss)), (decide (v ∈ s :: ss)); set_solver. }
  rewrite filter_cons in Hb |- *. rewrite Hs1. destruct (Z.eqb_spec (indeg !!! s - 1) 0) as [H1|H1]; cbn [negb].
  - rewrite decide_True in Hb |- * by lia. simpl in Hb.
    destruct (Nat.leb_spec added (length queue)); [lia|].
    destruct (IH indeg1 (queue ++ [s]) Hr1) as (i2 & -> & Hl2 & Hv2).
    { rewrite Hf, length_app. simpl. lia. }
    exists i2. rewrite Hf, <- app_assoc. split_and!; [done|congruence|by apply Hfin].
  - rewrite decide_False in Hb |- * by lia.
    destruct (IH indeg1 queue Hr1) as (i2 & -> & Hl2 & Hv2); [by rewrite Hf|].
    exists i2. rewrite Hf. split_and!; [done|congruence|by apply Hfin].
Qed.

Section Kahn.
Context (d : dag) (Hw : dag_wf d).
Abbreviation ids := (added_ids d).
Abbreviation ns := (nodes d).

(** The predecessors of [v] that have not been processed. *)
Definition out_preds (P : list nat) (v : nat) : list nat := filter (fun u => edge ns u v /\ u ∉ P) ids.

Record kinv (P : list nat) (indeg : list Z) (queue : list nat) : Prop := {
  k_len : length indeg = length ns;
  k_nodup : NoDup queue;
  k_sub : forall v, v ∈ queue -> v ∈ ids;
  k_deg : forall v, v ∈ ids -> indeg !!! v = Z.of_nat (length (out_preds P v));
  k_zero : forall v, v ∈ ids -> v ∈ queue <-> (indeg !!! v : Z) = 0;
  k_order : forall k v u, queue !! k = Some v -> edge ns u v -> exists j, (j < k)%nat /\ queue !! j = Some u;
}.

Lemma indeg_read v : v ∈ ids -> (in_degree <$> ns) !!! v = in_degree (ns !!! v).
Proof.
  intros [Hl _]%elem_of_added. destruct (lookup_lt_is_Some_2 ns v Hl) as [n Hn].
  by rewrite !list_lookup_total_alt, list_lookup_fmap, Hn.
Qed.

Lemma kinv_init : kinv [] (in_degree <$> ns) (kahn_roots d).
Proof.
  assert (Hdeg : forall v, v ∈ ids -> (in_degree <$> ns) !!! v = Z.of_nat (length (out_preds [] v))).
  { intros v Hv. rewrite indeg_read by done.
    rewrite (gw_indeg _ Hw v Hv). do 2 f_equal. apply list_filter_iff'. intros u _. set_solver. }
  assert (Hroot : forall v, v ∈ kahn_roots d <-> v ∈ ids /\ (in_degree (ns !!! v) : Z) = 0).
  { intros v. unfold kahn_roots. rewrite list_elem_of_filter. tauto. }
  split.
  - by rewrite length_fmap.
  - apply NoDup_filter, added_nodup.
  - intros v Hv. by apply Hroot in Hv as [? _].
  - done.
  - intros v Hv. rewrite Hroot, indeg_read by done. tauto.
  - intros k v u Hk He. exfalso. apply list_elem_of_lookup_2, Hroot in Hk as [Hv H0].
    rewrite (gw_indeg _ Hw v Hv) in H0. destruct (preds d v) as [|x l] eqn:Ep; [|simpl in H0; lia].
    assert (Hu : u ∈ preds d v); [|rewrite Ep in Hu; by apply not_elem_of_nil in Hu].
    unfold preds. apply list_elem_of_filter. split; [done|]. by destruct (gw_edge _ Hw u v He).
Qed.

(** Processing [u] removes it from the open predecessors of its successors. *)
Lemma out_preds_step P u v :
  u ∈ ids -> u ∉ P ->
  length (out_preds P v) = (length (out_preds (P ++ [u]) v) + if decide (edge ns u v) then 1 else 0)%nat.
Proof.
  intros Hu HP. unfold out_preds. case_decide as He.
  - rewrite Nat.add_1_r. apply length_filter_add with (a := u); [apply added_nodup|done|set_solver|].
    intros x. rewrite not_elem_of_app, not_elem_of_cons. split.
    + intros [Hx Hxp]. destruct (decide (x = u)); [by right|left]. set_solver.
    + intros [[? [? _]]| ->]; done.
  - rewrite Nat.add_0_r. f_equal. apply list_filter_iff'. intros x _.
    rewrite not_elem_of_app, not_elem_of_cons. split; [|naive_solver]. intros [Hx Hxp].
    split; [done|]. split; [done|]. split; [by intros ->|apply not_elem_of_nil].
Qed.

Lemma queue_bound q : NoDup q -> (forall v, v ∈ q -> v ∈ ids) -> (length q <= length ids)%nat.
Proof. intros Hn Hs. by apply submseteq_length, NoDup_submseteq. Qed.

(** The node at the head has not been taken before. *)
Lemma head_fresh qh u indeg queue : queue !! qh = Some u -> kinv (take qh queue) indeg queue -> u ∉ take qh queue.
Proof.
  intros Hq Hk Hin. apply list_elem_of_lookup in Hin as [j Hj]. apply lookup_take_Some in Hj as [Hj Hlt].
  pose proof (NoDup_lookup _ _ _ _ (k_nodup _ _ _ Hk) Hj Hq). lia.
Qed.

(** Its successors still count it. *)
Lemma succ_indeg P u indeg queue v :
  kinv P indeg queue -> u ∈ ids -> u ∉ P -> v ∈ succs (ns !!! u) -> v ∈ ids /\ 1 <= (indeg !!! v : Z) < 2 ^ 32.
Proof.
  intros Hk Hu HuP Hv. destruct (gw_edge _ Hw u v Hv) as (_ & Hvi & _). split; [done|].
  rewrite (k_deg _ _ _ Hk v Hvi). pose proof (out_preds_step P u v Hu HuP) as Hs.
  rewrite decide_True in Hs by done. pose proof (added_length d). pose proof (gw_cap _ Hw).
  assert (length (out_preds P v) <= length ids)%nat by apply length_filter.
  assert (Hcl : (length ns <= node_capacity d)%nat) by (destruct (gw_len _ Hw) as [-> | ->]; simpl; lia).
  lia.
Qed.

(** One iteration of the outer loop. *)
Lemma kinv_step qh u indeg queue :
  queue !! qh = Some u -> kinv (take qh queue) indeg queue ->
  exists indeg' queue', kahn_succs (succs (ns !!! u)) indeg queue (length ids) = (indeg', queue', true) /\
    (qh < length queue')%nat /\ kinv (take (S qh) queue') indeg' queue'.
Proof.
  intros Hq Hk. assert (Hu : u ∈ ids) by (eapply (k_sub _ _ _ Hk), list_elem_of_lookup_2, Hq).
  pose proof (head_fresh _ _ _ _ Hq Hk) as HuP. set (ss := succs (ns !!! u)) in *.
  assert (Hss : forall v, v ∈ ss -> v ∈ ids /\ 1 <= (indeg !!! v : Z) < 2 ^ 32) by (intros v; by eapply succ_indeg).
  set (new := filter (fun v => (indeg !!! v : Z) = 1%Z) ss).
  assert (Hnew : NoDup (queue ++ new) /\ forall v, v ∈ queue ++ new -> v ∈ ids).
  { split.
    - apply NoDup_app. split_and!; [apply Hk| |apply NoDup_filter, (gw_nodup _ Hw)].
      intros v Hv [H1 Hvs]%list_elem_of_filter. destruct (Hss v Hvs) as [Hvi _].
      apply (k_zero _ _ _ Hk v Hvi) in Hv. lia.
    - intros v [Hv|[_ Hv]%list_elem_of_filter]%elem_of_app; [by apply (k_sub _ _ _ Hk)|by apply Hss]. }
  destruct Hnew as [Hnd Hsub]. pose proof (queue_bound _ Hnd Hsub) as Hb. rewrite length_app in Hb.
  destruct (kahn_succs_spec ss indeg queue (length ids)) as (indeg' & Hks & Hl' & Hv');
    [apply (gw_nodup _ Hw)| |done|].
  { intros v Hv. destruct (Hss v Hv) as [Hvi ?]. split; [|done].
    rewrite (k_len _ _ _ Hk). by apply elem_of_added in Hvi as [? _]. }
  exists indeg', (queue ++ new). split; [done|].
  split; [rewrite length_app; apply lookup_lt_Some in Hq; lia|].
  assert (HP : take (S qh) (queue ++ new) = take qh queue ++ [u]).
  { rewrite take_app_le by (apply lookup_lt_Some in Hq; lia). by apply take_S_r. }
  assert (Hdeg' : forall v, v ∈ ids -> indeg' !!! v = Z.of_nat (length (out_preds (take qh queue ++ [u]) v))).
  { intros v Hv. rewrite Hv', (k_deg _ _ _ Hk v Hv), (out_preds_step _ u v Hu HuP).
    unfold edge. fold ss. destruct (decide (v ∈ ss)); lia. }
  rewrite HP. split; try done.
  - by rewrite Hl', (k_len _ _ _ Hk).
  - intros v Hv. rewrite Hv', elem_of_app, (k_zero _ _ _ Hk v Hv). unfold new.
    rewrite list_elem_of_filter. destruct (decide (v ∈ ss)) as [Hvs|Hvs]; [|naive_solver lia].
    destruct (Hss v Hvs) as [_ ?]. split; [intros [?|[? _]]; lia|right; split; [lia|done]].
  - intros k v x Hkv He. destruct (decide (k < length queue)%nat) as [Hlt|Hge].
    + rewrite lookup_app_l in Hkv by done. destruct (k_order _ _ _ Hk k v x Hkv He) as (j & Hj & Hjx).
      exists j. split; [done|]. by apply lookup_app_l_Some.
    + rewrite lookup_app_r in Hkv by lia. apply list_elem_of_lookup_2, list_elem_of_filter in Hkv as [H1 Hvs].
      destruct (Hss v Hvs) as [Hvi _]. destruct (gw_edge _ Hw x v He) as (Hx & _).
      assert (Hxp : x ∈ take qh queue ++ [u]).
      { destruct (decide (x ∈ take qh queue ++ [u])) as [|Hn]; [done|]. exfalso.
        specialize (Hdeg' v Hvi). rewrite Hv', H1, decide_True in Hdeg' by done.
        assert (Hxo : x ∈ out_preds (take qh queue ++ [u]) v) by (by apply list_elem_of_filter).
        destruct (out_preds _ v); [by apply not_elem_of_nil in Hxo|simpl in Hdeg'; lia]. }
      rewrite <- HP in Hxp. apply list_elem_of_lookup in Hxp as [j Hj]. apply lookup_take_Some in Hj as [Hj Hlt].
      exists j. split; [|done]. apply lookup_lt_Some in Hq. lia.
Qed.

(** The whole loop: with one unit of fuel per node it empties its queue. *)
Lemma kahn_loop_spec fuel qh indeg queue :
  kinv (take qh queue) indeg queue -> (qh <= length queue)%nat -> (length ids < fuel + qh)%nat ->
  exists queue' indeg', kahn_loop fuel ns indeg queue qh (length ids) = (true, queue') /\ kinv queue' indeg' queue'.
Proof.
  revert qh indeg queue. induction fuel as [|f IH]; intros qh indeg queue Hk Hle Hf.
  { pose proof (queue_bound queue (k_nodup _ _ _ Hk) (k_sub _ _ _ Hk)). lia. }
  cbn [kahn_loop]. destruct (queue !! qh) as [u|] eqn:Hq.
  - destruct (kinv_step qh u indeg queue Hq Hk) as (i' & q' & -> & Hl & Hk').
    apply IH; [done|lia..].
  - apply lookup_ge_None in Hq. exists queue, indeg. split; [done|]. by rewrite take_ge in Hk by lia.
Qed.

Lemma kahn_result :
  exists queue indeg, has_cycle d = negb (length queue =? length ids)%nat /\ kinv queue indeg queue.
Proof.
  destruct (kahn_loop_spec (S (length ids)) 0 (in_degree <$> ns) (kahn_roots d)) as (q & i & Hl & Hk);
    [apply kinv_init|lia|lia|].
  exists q, i. split; [|done]. unfold has_cycle. by rewrite Hl.
Qed.

(** A complete queue is a topological order. *)
Lemma queue_ranks queue indeg : kinv queue indeg queue -> (forall v, v ∈ ids -> v ∈ queue) -> acyclic d.
Proof.
  intros Hk Hall. exists (fun u => default 0%nat (fst <$> list_find (fun x => x = u) queue)).
  assert (Hpos : forall k u, queue !! k = Some u -> default 0%nat (fst <$> list_find (fun x => x = u) queue) = k).
  { intros k u Hku. destruct (list_find _ queue) as [[i x]|] eqn:Ef.
    - apply list_find_Some in Ef as (Hi & -> & _). exact (NoDup_lookup _ _ _ _ (k_nodup _ _ _ Hk) Hi Hku).
    - apply list_find_None in Ef. rewrite Forall_forall in Ef. by destruct (Ef u (list_elem_of_lookup_2 _ _ _ Hku)). }
  intros u v He. destruct (gw_edge _ Hw u v He) as (_ & Hv & _).
  apply Hall, list_elem_of_lookup in Hv as [k Hkv].
  destruct (k_order _ _ _ Hk k v u Hkv He) as (j & Hj & Hju). by rewrite (Hpos j u Hju), (Hpos k v Hkv).
Qed.

(** In a ranked graph no node keeps an unprocessed predecessor. *)
Lemma ranked_complete queue indeg : kinv queue indeg queue -> acyclic d -> forall v, v ∈ ids -> v ∈ queue.
Proof.
  intros Hk [rank Hr]. enough (H : forall n v, (rank v < n)%nat -> v ∈ ids -> v ∈ queue) by eauto.
  induction n as [|n IH]; intros v Hn Hv; [lia|]. apply (k_zero _ _ _ Hk v Hv). rewrite (k_deg _ _ _ Hk v Hv).
  unfold out_preds. rewrite filter_none; [done|].
  apply Forall_forall. intros u Hu [He Hnq]. apply Hr in He. by apply Hnq, IH; [lia|].
Qed.
End Kahn.

(** A history of building calls on a fresh DAG. *)
Inductive build_op :=
  | AddNode (id : nat) (f data : ptr) (prio : Z) (calloc_ok : bool)
  | AddEdge (from to : nat) (calloc_ok realloc_ok : bool).

Definition build (d : dag) (op : build_op) : dag :=
  match op with
  | AddNode id f data prio ok => (loom_dag_add_node d id f data prio ok).2
  | AddEdge from to ok ok2 => (loom_dag_add_edge d from to ok ok2).2
  end.

Lemma build_wf ops d : dag_wf d -> dag_wf (fold_left build ops d).
Proof.
  revert d. induction ops as [|op ops IH]; intros d Hw; [done|].
  apply IH. destruct op; [by apply add_node_wf|by apply add_edge_wf].
Qed.

Lemma has_cycle_spec d : dag_wf d -> has_cycle d = false <-> acyclic d.
Proof.
  intros Hw. destruct (kahn_result d Hw) as (q & i & -> & Hk). rewrite negb_false_iff, Nat.eqb_eq.
  split.
  - intros Hlen. apply (queue_ranks d Hw q i Hk). intros v Hv.
    assert (Hperm : q ≡ₚ added_ids d).
    { apply submseteq_length_Permutation; [|lia]. apply NoDup_submseteq; [apply Hk|apply Hk]. }
    by rewrite Hperm.
  - intros Ha. apply Nat.le_antisymm; [by apply (queue_bound d), (k_sub _ _ _ _ Hk); apply Hk|].
    apply submseteq_length, NoDup_submseteq; [apply added_nodup|]. by apply (ranked_complete d q i).
Qed.


