(* ===== verification/DagEngine.v ===== *)
(** * Running a task DAG (src/dag.c: dag_release_node, dag_runner_fn, the root
    loop of loom_dag_submit, dag_wait_internal, loom_dag_destroy).

    The actors are the submitting thread ([None]) and one runner per node
    ([Some v]); they interleave freely.  A step is one critical section or one
    atomic access of the source: the release of a node is split into its
    allocation, the [in_flight] increment under done_mu, the hand-over to the
    pool and the [released_total] update, and the runner's test of [failed] is
    separate from its decrement of [pending_preds].  Which allocations and
    pool submissions fail, what the user functions return and when the pool
    starts a queued runner are choices of the environment, recorded in the
    event. *)
From stdpp Require Import functions.
From S2P Require Import Prelude Types Dag.

(** ** State *)

(** Where a call of dag_release_node stands. *)
Inductive rel_phase :=
  | P_enter                          (* before the ctx and the future exist *)
  | P_init                           (* future_owner is set *)
  | P_counted                        (* in_flight was incremented *)
  | P_handed                         (* the pool accepted the runner *)
  | P_refused (rc : loom_result_t).  (* the pool refused it *)

(** Where an actor stands.  The lists hold the successors (for a runner) or
    roots (for the submitter) still to visit; in [ADrain] and [ADone] they are
    those the loop skipped when it broke off. *)
Inductive astate :=
  | AIdle
  | AQueued
  | AExec
  | ALoop (l : list nat)
  | ADec (w : nat) (l : list nat)
  | ARel (w : nat) (p : rel_phase) (l : list nat)
  | ADrain (l : list nat)
  | ADone (l : list nat).

#[export] Instance rel_phase_eq_dec : EqDecision rel_phase.
Proof. solve_decision. Defined.
#[export] Instance astate_eq_dec : EqDecision astate.
Proof. solve_decision. Defined.

Abbreviation actor := (option nat).

Record engine := mk_engine {
  pending_preds : nat -> Z;
  future_owner : nat -> bool;
  future_ready : nat -> bool;
  node_status : nat -> loom_result_t;
  e_failed : bool;
  e_fail_error : loom_result_t;
  in_flight : Z;                   (* uint32_t *)
  released_total : Z;              (* uint32_t *)
  acts : actor -> astate;
}.

Definition dag_drained (added : Z) (s : engine) : bool :=
  (in_flight s =? 0) && (e_failed s || (released_total s =? added)).

Definition set_act (s : engine) (a : actor) (x : astate) : engine :=
  mk_engine (pending_preds s) (future_owner s) (future_ready s) (node_status s) (e_failed s) (e_fail_error s)
    (in_flight s) (released_total s) (<[a := x]> (acts s)).
Definition set_pending (s : engine) (v : nat) (z : Z) : engine :=
  mk_engine (<[v := z]> (pending_preds s)) (future_owner s) (future_ready s) (node_status s) (e_failed s) (e_fail_error s)
    (in_flight s) (released_total s) (acts s).
Definition set_owner (s : engine) (v : nat) : engine :=
  mk_engine (pending_preds s) (<[v := true]> (future_owner s)) (future_ready s) (node_status s) (e_failed s) (e_fail_error s)
    (in_flight s) (released_total s) (acts s).
Definition complete_node (s : engine) (v : nat) (st : loom_result_t) : engine :=
  mk_engine (pending_preds s) (future_owner s) (<[v := true]> (future_ready s)) (<[v := st]> (node_status s))
    (e_failed s) (e_fail_error s) (in_flight s) (released_total s) (acts s).
Definition set_in_flight (s : engine) (z : Z) : engine :=
  mk_engine (pending_preds s) (future_owner s) (future_ready s) (node_status s) (e_failed s) (e_fail_error s)
    z (released_total s) (acts s).
Definition bump_released (s : engine) : engine :=
  mk_engine (pending_preds s) (future_owner s) (future_ready s) (node_status s) (e_failed s) (e_fail_error s)
    (in_flight s) (released_total s +32 1) (acts s).

(** dag_record_release_failure: the first failure wins [fail_error]. *)
Definition dag_record_release_failure (s : engine) (rc : loom_result_t) : engine :=
  bump_released
    (mk_engine (pending_preds s) (future_owner s) (future_ready s) (node_status s) true
       (if e_failed s then e_fail_error s else rc) (in_flight s) (released_total s) (acts s)).

(** ** Steps *)

Inductive event :=
  | EvStart (v : nat)                              (* a worker starts v's runner *)
  | EvFinish (v : nat) (st : loom_result_t)        (* v's function returned st *)
  | EvNext (a : actor)                             (* the head of a's loop *)
  | EvDec (v : nat)                                (* v's runner decrements pending_preds *)
  | EvDrain (v : nat)                              (* v's runner leaves *)
  | EvRelFail (a : actor) (rc : loom_result_t)     (* no ctx or no future *)
  | EvRelInit (a : actor)
  | EvRelCount (a : actor)
  | EvRelSubmit (a : actor) (rc : loom_result_t)   (* the pool's answer *)
  | EvRelFinish (a : actor).

(** What the caller of dag_release_node does after a failed release: the
    submitter's loop breaks, a runner goes on. *)
Definition after_fail (a : actor) (l : list nat) : astate :=
  match a with None => ADone l | Some _ => ALoop l end.

(** One case per branch of the step function. *)
Ltac step_cases s ev Hs :=
  destruct ev as [v|v st|[v|]|v|v|a rc|a|a|a rc|a]; simpl in Hs;
  match type of Hs with context [acts s ?b] =>
    let E := fresh "Ea" in destruct (acts s b) as [| | |[|w l]|w l|w [| | | |rc']l|l|l] eqn:E
  end; try discriminate Hs; try (destruct (decide (rc = LOOMWORKS_OK)) as [->|Hrc]; try discriminate Hs);
  apply Some_inj in Hs.

Section Engine.
Context (d : dag).
Abbreviation ids := (added_ids d).
Abbreviation ns := (nodes d).

(** The steps of dag_release_node, for whichever actor is inside it. *)
Definition dag_release_node (s : engine) (ev : event) : option engine :=
  match ev with
  | EvRelFail a rc =>
      match acts s a with
      | ARel w P_enter l =>
          if decide (rc = LOOMWORKS_OK) then None
          else Some (set_act (dag_record_release_failure s rc) a (after_fail a l))
      | _ => None
      end
  | EvRelInit a =>
      match acts s a with
      | ARel w P_enter l => Some (set_act (set_owner s w) a (ARel w P_init l))
      | _ => None
      end
  | EvRelCount a =>
      match acts s a with
      | ARel w P_init l => Some (set_act (set_in_flight s (in_flight s +32 1)) a (ARel w P_counted l))
      | _ => None
      end
  | EvRelSubmit a rc =>
      match acts s a with
      | ARel w P_counted l =>
          if decide (rc = LOOMWORKS_OK) then Some (set_act (set_act s a (ARel w P_handed l)) (Some w) AQueued)
          else Some (set_act (complete_node s w rc) a (ARel w (P_refused rc) l))
      | _ => None
      end
  | EvRelFinish a =>
      match acts s a with
      | ARel w P_handed l => Some (set_act (bump_released s) a (ALoop l))
      | ARel w (P_refused rc) l =>
          Some (set_act (dag_record_release_failure (set_in_flight s (in_flight s -32 1)) rc) a (after_fail a l))
      | _ => None
      end
  | _ => None
  end.

(** The steps of dag_runner_fn. *)
Definition dag_runner_fn (s : engine) (ev : event) : option engine :=
  match ev with
  | EvStart v => match acts s (Some v) with AQueued => Some (set_act s (Some v) AExec) | _ => None end
  | EvFinish v st =>
      match acts s (Some v) with
      | AExec => Some (set_act (complete_node s v st) (Some v) (ALoop (succs (ns !!! v))))
      | _ => None
      end
  | EvNext (Some v) =>
      match acts s (Some v) with
      | ALoop (w :: l) => Some (set_act s (Some v) (if e_failed s then ADrain (w :: l) else ADec w l))
      | ALoop [] => Some (set_act s (Some v) (ADrain []))
      | _ => None
      end
  | EvDec v =>
      match acts s (Some v) with
      | ADec w l =>
          Some (set_act (set_pending s w (pending_preds s w -32 1)) (Some v)
                  (if pending_preds s w =? 1 then ARel w P_enter l else ALoop l))
      | _ => None
      end
  | EvDrain v =>
      match acts s (Some v) with
      | ADrain l => Some (set_act (set_in_flight s (in_flight s -32 1)) (Some v) (ADone l))
      | _ => None
      end
  | _ => None
  end.

(** The root loop of loom_dag_submit: it does not look at [failed]. *)
Definition dag_root_loop (s : engine) (ev : event) : option engine :=
  match ev with
  | EvNext None =>
      match acts s None with
      | ALoop (w :: l) => Some (set_act s None (ARel w P_enter l))
      | ALoop [] => Some (set_act s None (ADone []))
      | _ => None
      end
  | _ => None
  end.

Definition estep (s : engine) (ev : event) : option engine :=
  match ev with
  | EvStart _ | EvFinish _ _ | EvDec _ | EvDrain _ | EvNext (Some _) => dag_runner_fn s ev
  | EvNext None => dag_root_loop s ev
  | _ => dag_release_node s ev
  end.

(** loom_dag_submit after a successful check: [pending_preds] is seeded from
    the in-degrees and the root loop begins. *)
Definition engine_init : engine :=
  mk_engine (fun v => in_degree (ns !!! v)) (fun _ => false) (fun _ => false) (fun _ => LOOMWORKS_OK)
    false LOOMWORKS_OK 0 0 (fun a => match a with None => ALoop (kahn_roots d) | Some _ => AIdle end).

Fixpoint run (s : engine) (evs : list event) : option engine :=
  match evs with
  | [] => Some s
  | ev :: evs => match estep s ev with Some s' => run s' evs | None => None end
  end.

(** What loom_dag_wait returns once the DAG has drained. *)
Definition dag_wait_result (s : engine) : loom_result_t :=
  if e_failed s then e_fail_error s else LOOMWORKS_OK.

Definition loom_dag_node_status (s : engine) (v : nat) : loom_result_t :=
  if negb (future_owner s v) then LOOMWORKS_ERR_INVALID
  else if future_ready s v then node_status s v else LOOMWORKS_ERR_INVALID.

(** ** Reading the actors *)

Definition full (a : actor) : list nat := match a with Some u => succs (ns !!! u) | None => kahn_roots d end.

(** The nodes [a] has not visited yet, or skipped. *)
Definition todo (a : actor) (x : astate) : list nat :=
  match x with
  | AIdle | AQueued | AExec => full a
  | ALoop l | ARel _ _ l | ADrain l | ADone l => l
  | ADec w l => w :: l
  end.

Definition past_exec (x : astate) : bool := match x with AIdle | AQueued | AExec => false | _ => true end.
Definition live (x : astate) : bool := match x with AIdle | ADone _ => false | _ => true end.

(** What an actor contributes to [in_flight]. *)
Definition counted (a : actor) (x : astate) : Z :=
  (match a with Some _ => if live x then 1 else 0 | None => 0 end) +
  match x with ARel _ P_counted _ | ARel _ (P_refused _) _ => 1 | _ => 0 end.

(** Releases handed to the pool whose [released_total] update is to come. *)
Definition handed (x : astate) : Z := match x with ARel _ P_handed _ => 1 | _ => 0 end.
Definition begun (a : actor) (x : astate) : Z :=
  match a, x with Some _, AIdle => 0 | Some _, _ => 1 | None, _ => 0 end.

Definition actors : list actor := None :: (Some <$> ids).
Definition total (f : actor -> astate -> Z) (s : engine) : Z := foldr Z.add 0 ((fun a => f a (acts s a)) <$> actors).

Lemma full_ids a w : dag_wf d -> w ∈ full a -> w ∈ ids.
Proof.
  intros Hw. destruct a as [u|]; simpl; intros Hin.
  - by destruct (gw_edge _ Hw u w Hin) as (_ & ? & _).
  - by apply list_elem_of_filter in Hin as [_ ?].
Qed.

Lemma elem_of_actors a : a ∈ actors <-> match a with Some v => v ∈ ids | None => True end.
Proof.
  unfold actors. rewrite elem_of_cons, list_elem_of_fmap. destruct a as [v|]; [|naive_solver]. naive_solver.
Qed.

Lemma actors_nodup : NoDup actors.
Proof.
  unfold actors. constructor; [|apply NoDup_fmap_2; [apply _|apply added_nodup]].
  rewrite list_elem_of_fmap. by intros (? & ? & _).
Qed.

Lemma sum_update (f : actor -> astate -> Z) (g : actor -> astate) (a : actor) (x : astate) (l : list actor) :
  NoDup l ->
  foldr Z.add 0 ((fun b => f b ((<[a := x]> g : actor -> astate) b)) <$> l) =
  foldr Z.add 0 ((fun b => f b (g b)) <$> l) + if decide (a ∈ l) then f a x - f a (g a) else 0.
Proof.
  induction 1 as [|b l Hb Hnd IH]; [by rewrite decide_False by apply not_elem_of_nil|].
  rewrite !fmap_cons. cbn [foldr]. rewrite IH. destruct (decide (b = a)) as [->|Hba].
  - rewrite fn_lookup_insert, decide_False, decide_True by (done || by constructor). lia.
  - rewrite fn_lookup_insert_ne by done. destruct (decide (a ∈ l)), (decide (a ∈ b :: l)); set_solver by lia.
Qed.

Lemma total_update f s s' a x :
  a ∈ actors -> acts s' = <[a := x]> (acts s) -> total f s' = total f s + (f a x - f a (acts s a)).
Proof. intros Ha He. unfold total. rewrite He, sum_update, decide_True by (done || apply actors_nodup). done. Qed.

(** ** The invariant *)

Definition unclaimed (s : engine) (v : nat) : Prop :=
  future_owner s v = false /\ acts s (Some v) = AIdle /\ forall a p l, acts s a <> ARel v p l.

Definition open_node (s : engine) (v : nat) : Prop := exists a, v ∈ todo a (acts s a).

Definition phase_ok (s : engine) (w : nat) (p : rel_phase) : Prop :=
  match p with
  | P_enter => future_owner s w = false /\ acts s (Some w) = AIdle
  | P_handed => future_owner s w = true /\ acts s (Some w) <> AIdle
  | P_refused rc => future_owner s w = true /\ acts s (Some w) = AIdle /\ future_ready s w = true /\ rc <> LOOMWORKS_OK
  | _ => future_owner s w = true /\ acts s (Some w) = AIdle
  end.

Record einv (s : engine) : Prop := {
  i_sub : forall a w, w ∈ todo a (acts s a) -> w ∈ full a;
  i_nodup : forall a, NoDup (todo a (acts s a));
  i_rel : forall a w p l, acts s a = ARel w p l -> w ∈ full a /\ (w ∉ l) /\ phase_ok s w p;
  i_uniq : forall a b w p q l m, acts s a = ARel w p l -> acts s b = ARel w q m -> a = b;
  i_none : match acts s None with ALoop _ | ARel _ _ _ | ADone _ => True | _ => False end;
  i_open : forall v, open_node s v -> unclaimed s v;
  i_pend : forall v, v ∈ ids ->
    pending_preds s v = Z.of_nat (length (filter (fun u => v ∈ todo (Some u) (acts s (Some u))) (preds d v)));
  i_owner : forall v, acts s (Some v) <> AIdle -> future_owner s v = true;
  i_ready : forall v, past_exec (acts s (Some v)) = true -> future_ready s v = true;
}.
Lemma fn_upd {A B} `{EqDecision A} (f : A -> B) a x b : (<[a := x]> f : A -> B) b = if decide (b = a) then x else f b.
Proof. case_decide; [subst; apply fn_lookup_insert|by apply fn_lookup_insert_ne]. Qed.

(** A step that changes no visit list and un-claims nothing. *)
Lemma einv_same s s' :
  einv s -> (forall a, todo a (acts s' a) = todo a (acts s a)) -> pending_preds s' = pending_preds s ->
  (forall v, unclaimed s v -> unclaimed s' v) ->
  (forall a w p l, acts s' a = ARel w p l -> w ∈ full a /\ (w ∉ l) /\ phase_ok s' w p) ->
  (forall a b w p q l m, acts s' a = ARel w p l -> acts s' b = ARel w q m -> a = b) ->
  match acts s' None with ALoop _ | ARel _ _ _ | ADone _ => True | _ => False end ->
  (forall v, acts s' (Some v) <> AIdle -> future_owner s' v = true) ->
  (forall v, past_exec (acts s' (Some v)) = true -> future_ready s' v = true) -> einv s'.
Proof.
  intros Hi Ht Hp Hc ? ? ? ? ?. split; try done.
  - intros a w. rewrite Ht. apply (i_sub _ Hi).
  - intros a. rewrite Ht. apply (i_nodup _ Hi).
  - intros v [a Ha]. rewrite Ht in Ha. apply Hc, (i_open _ Hi). by exists a.
  - intros v Hv. rewrite Hp, (i_pend _ Hi v Hv). do 2 f_equal. apply list_filter_iff'. intros u _. by rewrite Ht.
Qed.

(** A runner outside dag_release_node moves on. *)
Lemma einv_move s s' v x :
  einv s -> acts s' = <[Some v := x]> (acts s) ->
  (forall w p l, x <> ARel w p l) -> (forall w p l, acts s (Some v) <> ARel w p l) ->
  acts s (Some v) <> AIdle -> x <> AIdle -> todo (Some v) x = todo (Some v) (acts s (Some v)) ->
  pending_preds s' = pending_preds s -> future_owner s' = future_owner s ->
  (forall w, future_ready s w = true -> future_ready s' w = true) ->
  (past_exec x = true -> future_ready s' v = true) -> einv s'.
Proof.
  intros Hi Ha Hx Hy Hny Hnx Ht Hp Ho Hr Hxr.
  assert (Hrel : forall a w p l, acts s' a = ARel w p l -> acts s a = ARel w p l).
  { intros a w p l. rewrite Ha, fn_upd. case_decide; [|done]. intros ->. by destruct (Hx w p l). }
  assert (Hidle : forall w, acts s' (Some w) = AIdle <-> acts s (Some w) = AIdle).
  { intros w. rewrite Ha, fn_upd. case_decide; [|done]. simplify_eq. done. }
  apply (einv_same s); try done.
  - intros a. rewrite Ha, fn_upd. case_decide; [by subst|done].
  - intros w (H1 & H2 & H3). split_and!; [by rewrite Ho|by apply Hidle|]. intros a p l Har. by apply (H3 a p l), Hrel.
  - intros a w p l Har%Hrel. destruct (i_rel _ Hi _ _ _ _ Har) as (? & ? & Hph). split_and!; [done..|].
    destruct p; simpl in *; rewrite ?Ho, ?Hidle; naive_solver.
  - intros a b w p q l m H1%Hrel H2%Hrel. exact (i_uniq _ Hi _ _ _ _ _ _ _ H1 H2).
  - rewrite Ha, fn_upd, decide_False by done. apply (i_none _ Hi).
  - intros w. rewrite Hidle, Ho. apply (i_owner _ Hi).
  - intros w. rewrite Ha, fn_upd. case_decide; simplify_eq; [done|]. intros Hpe. by apply Hr, (i_ready _ Hi).
Qed.

Lemma einv_runner s ev s' :
  einv s -> match ev with EvStart _ | EvFinish _ _ | EvDrain _ | EvNext (Some _) => True | _ => False end ->
  estep s ev = Some s' -> einv s'.
Proof.
  intros Hi Hev Hs. pose proof (i_ready _ Hi) as Hr.
  destruct ev as [v|v st|[v|]| |v| | | | |]; try done; simpl in Hs;
    destruct (acts s (Some v)) as [| | |[|w l]|w l|w p l|l|l] eqn:Ea; simplify_eq;
    (eapply (einv_move s _ v); [done|reflexivity|..]); rewrite ?Ea; try done; simpl; intros;
    repeat case_if; try done; rewrite ?fn_upd; repeat case_decide; try done; apply Hr; by rewrite Ea.
Qed.

(** A step of [a] inside dag_release_node for [w], which keeps [a]'s visit
    list; [sub]: the step hands [w]'s runner to the pool. *)
Lemma einv_release s s' a w p l x (sub : bool) :
  einv s -> acts s a = ARel w p l -> todo a x = l ->
  acts s' = (if sub then <[Some w := AQueued]> (<[a := x]> (acts s)) else <[a := x]> (acts s)) ->
  (sub = true -> acts s (Some w) = AIdle) ->
  (forall v q m, x = ARel v q m -> v = w /\ m = l /\ phase_ok s' w q) ->
  match x with ALoop _ | ARel _ _ _ => True | ADone _ => a = None | _ => False end ->
  pending_preds s' = pending_preds s ->
  (forall v, v <> w -> future_owner s' v = future_owner s v) ->
  (future_owner s w = true \/ sub = true -> future_owner s' w = true) ->
  (forall v, future_ready s v = true -> future_ready s' v = true) -> einv s'.
Proof.
  intros Hi Har Htodo Ha Hsub Hx Hxs Hp Ho How Hr. destruct (i_rel _ Hi _ _ _ _ Har) as (Hwf & Hwl & Hph).
  assert (Hact : forall b, acts s' b = if sub && bool_decide (b = Some w) then AQueued
                                     else if decide (b = a) then x else acts s b).
  { intros b. rewrite Ha. destruct sub; rewrite !fn_upd; repeat case_decide; repeat case_bool_decide; naive_solver. }
  assert (Haw : sub = true -> a <> Some w) by (intros Hs ->; rewrite (Hsub Hs) in Har; done).
  assert (Hrel : forall b v q m, acts s' b = ARel v q m ->
    b = a /\ x = ARel v q m /\ v = w \/ b <> a /\ v <> w /\ acts s b = ARel v q m).
  { intros b v q m. rewrite Hact. destruct (sub && _) eqn:Esw; [done|].
    destruct (decide (b = a)) as [->|Hba]; [intros E; left; by destruct (Hx _ _ _ E) as (-> & _)|].
    intros Hb. right. split_and!; [done| |done]. intros ->. by pose proof (i_uniq _ Hi _ _ _ _ _ _ _ Hb Har). }
  assert (Hidle : forall v, v <> w -> acts s' (Some v) = AIdle <-> acts s (Some v) = AIdle).
  { intros v Hv. rewrite Hact. rewrite (bool_decide_eq_false_2 (Some v = Some w)), andb_false_r by congruence. case_decide; [|done]. subst. rewrite Har. by destruct x. }
  assert (Hcl : ~ unclaimed s w) by (intros (_ & _ & Hc); by apply (Hc a p l)).
  apply (einv_same s); try done.
  - intros b. rewrite Hact. destruct (sub && _) eqn:Esw; [|destruct (decide (b = a)) as [->|]; [by rewrite Har|done]].
    zbool. case_bool_decide; [subst b|done]. by rewrite Hsub.
  - intros v (H1 & H2 & H3). assert (Hv : v <> w) by (intros ->; by apply Hcl).
    split_and!; [by rewrite Ho|by apply Hidle|]. intros b q m Hb.
    destruct (Hrel _ _ _ _ Hb) as [(_ & _ & ?)|(_ & _ & ?)]; naive_solver.
  - intros b v q m Hb. destruct (Hrel _ _ _ _ Hb) as [(-> & Hx' & ->)|(Hba & Hv & Hb')].
    + destruct (Hx _ _ _ Hx') as (_ & -> & ?). done.
    + destruct (i_rel _ Hi _ _ _ _ Hb') as (? & ? & Hq). split_and!; [done..|].
      destruct q; simpl in *; rewrite ?Ho, ?Hidle by done; naive_solver.
  - intros b c v q r m m' Hb Hc.
    destruct (Hrel _ _ _ _ Hb) as [(-> & ? & ->)|(? & ? & ?)], (Hrel _ _ _ _ Hc) as [(-> & ? & ?)|(? & ? & ?)]; try done.
    by eapply (i_uniq _ Hi).
  - rewrite Hact, bool_decide_eq_false_2, andb_false_r by done. case_decide; [by destruct x; subst|]. apply (i_none _ Hi).
  - intros v. destruct (decide (v = w)) as [->|Hv]; [|rewrite Hidle, Ho by done; apply (i_owner _ Hi)].
    intros Hni. apply How. destruct sub; [by right|left]. apply (i_owner _ Hi). rewrite Hact in Hni. simpl in Hni.
    destruct (decide (Some w = a)) as [<-|]; [by rewrite Har|done].
  - intros v. rewrite Hact. destruct (sub && _); [done|]. case_decide; [|intros; by apply Hr, (i_ready _ Hi)].
    subst. intros _. apply Hr, (i_ready _ Hi). by rewrite Har.
Qed.

Lemma einv_release_step s ev s' : einv s -> dag_release_node s ev = Some s' -> einv s'.
Proof.
  intros Hi Hs. destruct ev as [| | | | |a rc|a|a|a rc|a]; simpl in Hs; try done;
    destruct (acts s a) as [| | | | |w p l| |] eqn:Ea; try done;
    destruct (i_rel _ Hi _ _ _ _ Ea) as (Hwf & Hwl & Hph); destruct p; simpl in Hph; try done;
    try case_decide; simplify_eq.
  all: destruct_and? Hph; try assert (Haw : a <> Some w) by (intros ->; congruence).
  1,7: by eapply (einv_release s _ a w _ l (after_fail a l) false); try done; destruct a; naive_solver.
  - eapply (einv_release s _ a w P_enter l (ARel w P_init l) false); try done; simpl.
    + intros v q m [= -> <- <-]. simpl. by rewrite fn_lookup_insert, fn_lookup_insert_ne.
    + intros v Hv. by rewrite fn_lookup_insert_ne.
    + intros _. by rewrite fn_lookup_insert.
  - eapply (einv_release s _ a w P_init l (ARel w P_counted l) false); try done; simpl.
    intros v q m [= -> <- <-]. simpl. by rewrite fn_lookup_insert_ne.
  - eapply (einv_release s _ a w P_counted l (ARel w P_handed l) true); try done; simpl.
    intros v q m [= -> <- <-]. simpl. by rewrite fn_lookup_insert.
  - eapply (einv_release s _ a w P_counted l (ARel w (P_refused rc) l) false); try done; simpl.
    + intros v q m [= -> <- <-]. simpl. by rewrite fn_lookup_insert, fn_lookup_insert_ne.
    + intros v Hv. rewrite fn_upd. by case_decide.
  - eapply (einv_release s _ a w P_handed l (ALoop l) false); try done.
Qed.
(** An actor takes the next node [w] off its visit list; if it claims [w], no
    other actor has [w] to visit. *)
Lemma einv_visit s s' a w l x :
  einv s -> todo a (acts s a) = w :: l -> acts s' = <[a := x]> (acts s) ->
  (a <> None -> past_exec (acts s a) = true) -> acts s a <> AIdle -> (forall v p m, acts s a <> ARel v p m) ->
  (x = ALoop l \/ x = ARel w P_enter l /\ forall b, b <> a -> w ∉ todo b (acts s b)) ->
  (forall v, v ∈ ids ->
    pending_preds s' v = Z.of_nat (length (filter (fun u => v ∈ todo (Some u) (acts s' (Some u))) (preds d v)))) ->
  future_owner s' = future_owner s -> future_ready s' = future_ready s -> einv s'.
Proof.
  intros Hi Ht Ha Hpe Hni Hnr Hx Hpend Ho Hr.
  assert (Hxt : todo a x = l) by naive_solver.
  assert (Hxi : x <> AIdle) by naive_solver.
  assert (Hwu : unclaimed s w) by (apply (i_open _ Hi); exists a; rewrite Ht; constructor).
  pose proof (i_nodup _ Hi a) as Hnd. rewrite Ht in Hnd. apply NoDup_cons in Hnd as [Hwl Hnd].
  assert (Hsub : forall b v, v ∈ todo b (acts s' b) -> v ∈ todo b (acts s b)).
  { intros b v. rewrite Ha, fn_upd. case_decide as E; [subst b|done]. rewrite Hxt, Ht. intros; by constructor. }
  assert (Hidle : forall v, acts s' (Some v) = AIdle <-> acts s (Some v) = AIdle).
  { intros v. rewrite Ha, fn_upd. case_decide as E; [rewrite E|done]. done. }
  assert (Hrel : forall b v q m, acts s' b = ARel v q m ->
    b = a /\ x = ARel v q m /\ v = w /\ q = P_enter /\ m = l \/ v <> w /\ acts s b = ARel v q m).
  { intros b v q m. rewrite Ha, fn_upd. case_decide; [intros Hxx; left; naive_solver|].
    intros Hb. right. split; [|done]. intros ->. by destruct Hwu as (_ & _ & Hc), (Hc b q m). }
  split.
  - intros b v Hv. by apply (i_sub _ Hi), Hsub.
  - intros b. rewrite Ha, fn_upd. case_decide; [subst b; by rewrite Hxt|apply (i_nodup _ Hi)].
  - intros b v q m Hb. destruct (Hrel _ _ _ _ Hb) as [(-> & _ & -> & -> & ->)|(_ & Hb')].
    + split_and!; [|done|]; [apply (i_sub _ Hi); rewrite Ht; constructor|]. simpl. rewrite Ho, Hidle. by destruct Hwu as (? & ? & _).
    + destruct (i_rel _ Hi _ _ _ _ Hb') as (? & ? & Hq). split_and!; [done..|]. destruct q; simpl in *; by rewrite ?Ho, ?Hr, ?Hidle.
  - intros b c v q r m m' Hb Hc.
    destruct (Hrel _ _ _ _ Hb) as [(-> & _ & ? & _)|(? & ?)], (Hrel _ _ _ _ Hc) as [(-> & _ & ? & _)|(? & ?)]; try done.
    by eapply (i_uniq _ Hi).
  - rewrite Ha, fn_upd. case_decide; [destruct Hx as [-> |[-> _]]; done|apply (i_none _ Hi)].
  - intros v [b Hb]. assert (Hv : unclaimed s v) by (apply (i_open _ Hi); exists b; by apply Hsub).
    destruct Hv as (H1 & H2 & H3). split_and!; [by rewrite Ho|by apply Hidle|]. intros c q m Hc.
    destruct (Hrel _ _ _ _ Hc) as [(-> & Hxx & -> & _)|(_ & Hc')]; [|by apply (H3 c q m)].
    destruct Hx as [->|[_ Hno]]; [done|]. destruct (decide (b = a)) as [->|Hba]; [|by apply (Hno b Hba), Hsub].
    rewrite Ha, fn_lookup_insert, Hxt in Hb. done.
  - exact Hpend.
  - intros v. rewrite Hidle, Ho. apply (i_owner _ Hi).
  - intros v. rewrite Hr, Ha, fn_upd. case_decide; [subst a|apply (i_ready _ Hi)]. intros _. by apply (i_ready _ Hi), Hpe.
Qed.

Lemma root_no_pred u w : dag_wf d -> w ∈ kahn_roots d -> ~ edge ns u w.
Proof.
  intros Hw [H0 Hin]%list_elem_of_filter He. rewrite (gw_indeg _ Hw w Hin) in H0.
  assert (Hu : u ∈ preds d w) by (apply list_elem_of_filter; split; [done|by destruct (gw_edge _ Hw u w He)]).
  destruct (preds d w); [by apply not_elem_of_nil in Hu|simpl in H0; lia].
Qed.

Lemma einv_root s s' : dag_wf d -> einv s -> estep s (EvNext None) = Some s' -> einv s'.
Proof.
  intros Hw Hi Hs. simpl in Hs. pose proof (i_none _ Hi) as Hn.
  destruct (acts s None) as [| | |[|w l]| | | |] eqn:Ea; simplify_eq.
  - apply (einv_same s); try done; try (intros v; simpl; rewrite fn_lookup_insert_ne by done; apply Hi).
    + intros a. simpl. rewrite fn_upd. case_decide; [by subst; rewrite Ea|done].
    + intros v (H1 & H2 & H3). split_and!; [done|simpl; by rewrite fn_lookup_insert_ne|].
      intros a q m. simpl. rewrite fn_upd. by case_decide.
    + intros a v q m. simpl. rewrite fn_upd. case_decide; [done|]. intros Hb. destruct (i_rel _ Hi _ _ _ _ Hb) as (? & ? & Hq).
      split_and!; [done..|]. destruct q; simpl in *; by rewrite ?fn_lookup_insert_ne.
    + intros a b v q r m m'. simpl. rewrite !fn_upd. repeat case_decide; try done. apply (i_uniq _ Hi).
  - apply (einv_visit s _ None w l (ARel w P_enter l)); try done; try (rewrite Ea; done).
    + right. split; [done|]. intros [u|] Hb Hin; [|done]. apply (i_sub _ Hi) in Hin. apply (root_no_pred u w Hw); [|done].
      apply (i_sub _ Hi None w). rewrite Ea. constructor.
    + intros v Hv. simpl. rewrite (i_pend _ Hi v Hv). done.
Qed.
Lemma einv_dec s s' v : dag_wf d -> einv s -> estep s (EvDec v) = Some s' -> einv s'.
Proof.
  intros Hw Hi Hs. simpl in Hs. destruct (acts s (Some v)) as [| | | |w l| | |] eqn:Ea; simplify_eq.
  assert (Ht : todo (Some v) (acts s (Some v)) = w :: l) by by rewrite Ea.
  assert (He : edge ns v w) by (apply (i_sub _ Hi (Some v)); rewrite Ht; constructor).
  destruct (gw_edge _ Hw v w He) as (Hv & Hwi & _).
  pose proof (i_nodup _ Hi (Some v)) as Hnd. rewrite Ht in Hnd. apply NoDup_cons in Hnd as [Hwl _].
  set (x := if pending_preds s w =? 1 then ARel w P_enter l else ALoop l).
  assert (Hxt : todo (Some v) x = l) by (unfold x; by case_if).
  set (s' := set_act _ _ x).
  assert (Hact : forall u, todo (Some u) (acts s' (Some u)) = if decide (u = v) then l else todo (Some u) (acts s (Some u))).
  { intros u. simpl. rewrite fn_upd. repeat case_decide; congruence. }
  set (cnt (s : engine) := filter (fun u => w ∈ todo (Some u) (acts s (Some u))) (preds d w)).
  assert (Hcnt : length (cnt s) = S (length (cnt s'))).
  { apply length_filter_add with (a := v).
    - apply NoDup_filter, added_nodup.
    - by apply list_elem_of_filter.
    - rewrite Hact, decide_True by done. done.
    - intros u. rewrite Hact. case_decide; [subst u; rewrite Ht|naive_solver].
      split; [by right|]. intros _. constructor. }
  pose proof (i_pend _ Hi w Hwi) as Hp. fold (cnt s) in Hp.
  assert (Hle : (length (cnt s) <= length (nodes d))%nat).
  { etrans; [apply length_filter|]. etrans; [apply length_filter|apply added_length]. }
  assert (Hcap : (length (nodes d) <= node_capacity d)%nat) by (destruct (gw_len _ Hw) as [-> | ->]; simpl; lia).
  pose proof (gw_cap _ Hw).
  apply (einv_visit s _ (Some v) w l x); try done; try (rewrite Ea; done).
  - unfold x. destruct (Z.eqb_spec (pending_preds s w) 1) as [H1|]; [right|by left]. split; [done|].
    intros b Hb Hin. destruct b as [u|].
    + assert (Hu : u ∈ cnt s').
      { apply list_elem_of_filter. rewrite Hact, decide_False by congruence. split; [done|].
        apply (i_sub _ Hi) in Hin. apply list_elem_of_filter. split; [done|]. by destruct (gw_edge _ Hw u w Hin). }
      destruct (cnt s'); [by apply not_elem_of_nil in Hu|simpl in Hcnt; lia].
    + apply (i_sub _ Hi) in Hin. by apply (root_no_pred v w Hw).
  - intros y Hy. simpl. rewrite fn_upd. case_decide as E.
    + subst y. rewrite u32_small by lia. change (filter _ _) with (cnt s'). lia.
    + rewrite (i_pend _ Hi y Hy). do 2 f_equal. apply list_filter_iff'. intros u _. change (<[Some v := x]> (acts s)) with (acts s').
      rewrite Hact. case_decide; [subst u; rewrite Ht|done]. rewrite elem_of_cons. naive_solver.
Qed.

Lemma einv_step s ev s' : dag_wf d -> einv s -> estep s ev = Some s' -> einv s'.
Proof.
  intros Hw Hi Hs. destruct ev as [| |[v|]| | | | | | |]; try (by eapply einv_runner; [done| |exact Hs]);
    try (by eapply einv_release_step; [done|exact Hs]); [by eapply einv_root|by eapply einv_dec].
Qed.

Lemma einv_init : dag_wf d -> einv engine_init.
Proof.
  intros Hw. split; simpl; try done.
  - intros [u|] w; done.
  - intros [u|]; simpl; [apply (gw_nodup _ Hw)|apply NoDup_filter, added_nodup].
  - by intros [u|].
  - by intros [u|].
  - intros v _. split_and!; [done..|]. by intros [u|].
  - intros v Hv. rewrite (gw_indeg _ Hw v Hv), filter_all; [done|].
    apply Forall_forall. intros u Hu. by apply list_elem_of_filter in Hu as [? _].
Qed.
(** ** Counting invariant *)

Record ninv (s : engine) : Prop := {
  n_dom : forall v, v ∉ ids -> acts s (Some v) = AIdle;
  n_flight : in_flight s = total counted s;
  n_rtot : 0 <= released_total s;
  n_released : e_failed s = false -> released_total s + total (fun _ => handed) s = total begun s;
  n_skip : e_failed s = false -> forall a, match acts s a with ADrain (_ :: _) | ADone (_ :: _) => False | _ => True end;
  n_own : forall v, future_owner s v = true ->
    future_ready s v = true \/ acts s (Some v) = AQueued \/ acts s (Some v) = AExec \/
    exists a l, acts s a = ARel v P_init l \/ acts s a = ARel v P_counted l;
  n_lost : forall v, v ∈ ids -> acts s (Some v) = AIdle -> (forall a p l, acts s a <> ARel v p l) ->
    open_node s v \/ e_failed s = true;
  n_ferr : e_failed s = true -> e_fail_error s <> LOOMWORKS_OK;
}.

Lemma total_bounds f k s : (forall a x, 0 <= f a x <= k) -> 0 <= total f s <= k * (1 + Z.of_nat (length ids)).
Proof.
  intros Hf. unfold total, actors. rewrite fmap_cons. cbn [foldr].
  assert (H : forall l : list nat, 0 <= foldr Z.add 0 ((fun a => f a (acts s a)) <$> (Some <$> l)) <= k * Z.of_nat (length l)).
  { induction l as [|u l IH]; [simpl; lia|]. specialize (Hf (Some u) (acts s (Some u))).
    rewrite !fmap_cons. cbn [foldr length]. rewrite Nat2Z.inj_succ, Z.mul_succ_r. lia. }
  specialize (H ids). specialize (Hf None (acts s None)). lia.
Qed.

Lemma in_actors s a : ninv s -> acts s a <> AIdle -> a ∈ actors.
Proof.
  intros Hn Ha. apply elem_of_actors. destruct a as [v|]; [|done].
  destruct (decide (v ∈ ids)); [done|]. by destruct Ha; apply (n_dom _ Hn).
Qed.

Lemma total_move f s s' a x y :
  ninv s -> acts s a = y -> y <> AIdle -> acts s' = <[a := x]> (acts s) -> total f s' = total f s + (f a x - f a y).
Proof. intros Hn <- Hy Ha. apply total_update; [by apply (in_actors s)|done]. Qed.

(** The hand-over to the pool moves two actors. *)
Lemma total_submit f s s' a w l :
  dag_wf d -> einv s -> ninv s -> acts s a = ARel w P_counted l ->
  set_act (set_act s a (ARel w P_handed l)) (Some w) AQueued = s' ->
  total f s' =
  total f s + (f a (ARel w P_handed l) - f a (ARel w P_counted l)) + (f (Some w) AQueued - f (Some w) AIdle).
Proof.
  intros Hw Hi Hn Ea <-. destruct (i_rel _ Hi _ _ _ _ Ea) as (Hwf & _ & _ & Hid).
  assert (Haw : a <> Some w) by (intros ->; congruence).
  rewrite (total_update f (set_act s a (ARel w P_handed l)) _ (Some w) AQueued);
    [|apply elem_of_actors; by eapply full_ids|done].
  rewrite (total_move f s _ a (ARel w P_handed l) _ Hn Ea); [|done..]. simpl. by rewrite fn_lookup_insert_ne, Hid.
Qed.

(** [total f] after the step in hypothesis [Hs]. *)
Ltac count f s s' Hs Hw Hi Hn Ea :=
  first [ rewrite (total_move f s s' _ _ _ Hn Ea) by (done || by rewrite <- Hs)
        | rewrite (total_submit f s s' _ _ _ Hw Hi Hn Ea Hs) ].

Section Bounded.
Context (Hw : dag_wf d) (Hcap : 2 * Z.of_nat (length (nodes d)) + 2 < 2 ^ 32).

Lemma counted_bound s : 0 <= total counted s < 2 ^ 32.
Proof.
  pose proof (added_length d). enough (0 <= total counted s <= 2 * (1 + Z.of_nat (length ids))) by lia.
  apply total_bounds. intros [v|] x; destruct x as [| | | | |? []| |]; unfold counted; simpl; lia.
Qed.

Lemma begun_bound s : 0 <= total begun s <= 1 + Z.of_nat (length ids).
Proof. rewrite <- (Z.mul_1_l (1 + _)). apply total_bounds. intros [v|] x; destruct x; simpl; lia. Qed.

Lemma handed_bound s : 0 <= total (fun _ => handed) s.
Proof. apply (total_bounds _ 1). intros a x; destruct x as [| | | | |? []| |]; simpl; lia. Qed.

Lemma flight_step s ev s' : einv s -> ninv s -> estep s ev = Some s' -> in_flight s' = total counted s'.
Proof.
  intros Hi Hn Hs. pose proof (n_flight _ Hn) as Hf. pose proof (counted_bound s') as Hb. revert Hb.
  step_cases s ev Hs; count counted s s' Hs Hw Hi Hn Ea; rewrite <- Hs; simpl; rewrite ?Hf;
    generalize (total counted s) as T; try destruct a; unfold counted; simpl; repeat case_if; simpl; intros T HT;
    try discriminate; rewrite ?u32_small by lia; lia.
Qed.

Lemma released_step s ev s' :
  einv s -> ninv s -> estep s ev = Some s' -> e_failed s' = false ->
  released_total s' + total (fun _ => handed) s' = total begun s'.
Proof.
  intros Hi Hn Hs Hf. pose proof (begun_bound s') as Hb. pose proof (handed_bound s') as Hh. revert Hb Hh.
  pose proof (added_length d). pose proof (n_rtot _ Hn).
  step_cases s ev Hs; rewrite <- Hs in Hf; simpl in Hf; try discriminate Hf; specialize (n_released _ Hn Hf);
    count begun s s' Hs Hw Hi Hn Ea; count (fun _ : actor => handed) s s' Hs Hw Hi Hn Ea; rewrite <- Hs; simpl;
    generalize (total begun s) as T; generalize (total (fun _ => handed) s) as T'; intros T T' HT HT' HT'';
    try destruct a; simpl in *; rewrite ?Hf in *; repeat case_if; simpl in *; rewrite ?u32_small by lia; lia.
Qed.
Lemma skip_step s ev s' :
  ninv s -> estep s ev = Some s' -> e_failed s' = false ->
  forall a, match acts s' a with ADrain (_ :: _) | ADone (_ :: _) => False | _ => True end.
Proof.
  intros Hn Hs Hf b.
  step_cases s ev Hs; rewrite <- Hs in *; simpl in *; try discriminate Hf; pose proof (n_skip _ Hn Hf) as Hsk;
    rewrite !fn_upd; repeat case_decide; try (by apply Hsk); rewrite ?Hf; try done.
  - by case_if.
  - specialize (Hsk (Some v)). rewrite Ea in Hsk. by destruct l.
Qed.

(** A failed flag stays set; an idle runner was idle before. *)
Lemma failed_mono s ev s' : estep s ev = Some s' -> e_failed s = true -> e_failed s' = true.
Proof. intros Hs Hf. by step_cases s ev Hs; rewrite <- Hs. Qed.

Lemma idle_mono s ev s' k : estep s ev = Some s' -> acts s' (Some k) = AIdle -> acts s (Some k) = AIdle.
Proof.
  intros Hs. step_cases s ev Hs; rewrite <- Hs; simpl; rewrite !fn_upd; repeat case_decide; simplify_eq; try done;
    repeat case_if; done.
Qed.

Ltac upd_solve := simpl; rewrite ?fn_upd; repeat case_decide; simplify_eq; congruence.

Lemma own_step s ev s' k :
  einv s -> ninv s -> estep s ev = Some s' -> future_owner s' k = true ->
    future_ready s' k = true \/ acts s' (Some k) = AQueued \/ acts s' (Some k) = AExec \/
    exists a l, acts s' a = ARel k P_init l \/ acts s' a = ARel k P_counted l.
Proof.
  intros Hi Hn Hs.
  step_cases s ev Hs; rewrite <- Hs; simpl; rewrite ?fn_upd; intros Ho; try case_decide as Ek;
    try (right; right; right; exists a, l; left; rewrite fn_lookup_insert; congruence);
    destruct (n_own _ Hn k Ho) as [Hr|[Hq|[Hx|(b & m & [Hb|Hb])]]];
    try destruct (decide (k = v)) as [->|?]; try destruct (decide (k = w)) as [->|?]; try destruct (decide (b = a)) as [->|?];
    first [ left; upd_solve | right; left; upd_solve | right; right; left; upd_solve
          | right; right; right; exists b, m; first [left; upd_solve|right; upd_solve]
          | right; right; right; exists a, l; right; rewrite fn_lookup_insert; congruence | idtac ].
  all: destruct (i_rel _ Hi _ _ _ _ Ea) as (_ & _ & _ & Hid); right; right; right; exists b, m;
    first [left; upd_solve|right; upd_solve].
Qed.

Lemma open_keep s s' a x k :
  acts s' = <[a := x]> (acts s) -> (k ∈ todo a (acts s a) -> k ∈ todo a x) -> open_node s k -> open_node s' k.
Proof.
  intros Ha Hx [b Hb]. exists b. rewrite Ha, fn_upd. case_decide; [subst; by apply Hx|done].
Qed.

Lemma lost_move s s' a x k :
  ninv s -> e_failed s = false -> acts s' = <[a := x]> (acts s) ->
  k ∈ ids -> acts s (Some k) = AIdle -> (forall b p l, acts s' b <> ARel k p l) ->
  (forall p l, acts s a <> ARel k p l) -> (k ∈ todo a (acts s a) -> k ∈ todo a x) -> open_node s' k.
Proof.
  intros Hn Hf Ha Hk Hid Hno Hna Ht. apply (open_keep s s' a x k Ha Ht).
  destruct (n_lost _ Hn k Hk Hid) as [?|?]; [|done|congruence].
  intros b p l Hb. destruct (decide (b = a)) as [->|]; [by apply (Hna p l)|].
  apply (Hno b p l). by rewrite Ha, fn_lookup_insert_ne.
Qed.

Lemma another (l : list nat) v : NoDup l -> (2 <= length l)%nat -> exists u, u ∈ l /\ u <> v.
Proof.
  intros Hnd Hl. destruct l as [|x [|y l]]; simpl in Hl; [lia..|]. apply NoDup_cons in Hnd as [Hx _].
  destruct (decide (x = v)) as [->|]; [exists y|exists x]; set_solver.
Qed.

(** A decrement that is not the last leaves another predecessor. *)
Lemma dec_open s v w l :
  einv s -> acts s (Some v) = ADec w l -> pending_preds s w <> 1 ->
  exists u, u <> v /\ w ∈ todo (Some u) (acts s (Some u)).
Proof.
  intros Hi Ea Hp. assert (Ht : w ∈ todo (Some v) (acts s (Some v))) by (rewrite Ea; constructor).
  pose proof (i_sub _ Hi (Some v) w Ht) as He. destruct (gw_edge _ Hw v w He) as (Hv & Hwi & _).
  rewrite (i_pend _ Hi w Hwi) in Hp. set (c := filter _ _) in Hp.
  assert (Hvc : v ∈ c) by (apply list_elem_of_filter; split; [done|by apply list_elem_of_filter]).
  destruct (another c v) as (u & Huc & Hne); [apply NoDup_filter, NoDup_filter, added_nodup| |].
  - destruct c as [|? [|? ?]]; simpl in *; [by apply not_elem_of_nil in Hvc|lia..].
  - exists u. split; [done|]. by apply list_elem_of_filter in Huc as [? _].
Qed.

Lemma lost_step s ev s' k :
  einv s -> ninv s -> estep s ev = Some s' -> k ∈ ids -> acts s' (Some k) = AIdle ->
  (forall a p l, acts s' a <> ARel k p l) -> open_node s' k \/ e_failed s' = true.
Proof.
  intros Hi Hn Hs Hk Hid Hno. pose proof (idle_mono _ _ _ _ Hs Hid) as Hid0.
  destruct (e_failed s) eqn:Hf; [right; by eapply failed_mono|].
  step_cases s ev Hs; try (by right; rewrite <- Hs); left.
  all: try (eapply (lost_move s s'); [done|done|by rewrite <- Hs|done|done|done|rewrite Ea; intros; congruence|];
            rewrite Ea; simpl; rewrite ?Hf; by intros).
  { destruct (decide (k = w)) as [->|Hne].
    { destruct (Hno None P_enter l). rewrite <- Hs. simpl. by rewrite fn_lookup_insert. }
    eapply (lost_move s s'); [done|done|by rewrite <- Hs|done|done|done|by rewrite Ea|].
    rewrite Ea. simpl. rewrite elem_of_cons. naive_solver. }
  { destruct (decide (k = w)) as [->|Hne].
    + rewrite <- Hs in *. simpl in *. destruct (Z.eqb_spec (pending_preds s w) 1) as [|Hp].
      { destruct (Hno (Some v) P_enter l). by rewrite fn_lookup_insert. }
      destruct (dec_open s v w l Hi Ea Hp) as (u & Hu & Hin). exists (Some u). simpl.
      rewrite fn_lookup_insert_ne by congruence. done.
    + eapply (lost_move s s'); [done|done|by rewrite <- Hs|done|done|done|by rewrite Ea|].
      rewrite Ea. simpl. rewrite elem_of_cons. case_if; naive_solver. }
  all: assert (Hne : k <> w) by
    (intros ->; destruct (i_rel _ Hi _ _ _ _ Ea) as (_ & _ & _ & Hph);
     first [ by apply Hph
           | rewrite <- Hs in Hno; simpl in Hno; eapply Hno; apply fn_lookup_insert
           | rewrite <- Hs in Hid; simpl in Hid; by rewrite fn_lookup_insert in Hid ]).
  3: { destruct (i_rel _ Hi _ _ _ _ Ea) as (_ & _ & _ & Hidw).
    eapply (open_keep (set_act s a (ARel w P_handed l)) s' (Some w)); [by rewrite <- Hs| |].
    - simpl. rewrite fn_lookup_insert_ne by (intros ->; congruence). by rewrite Hidw.
    - eapply (lost_move s); [done..| |rewrite Ea; congruence|by rewrite Ea]. intros b p m Hb.
      apply (Hno b p m). rewrite <- Hs. simpl in *. rewrite fn_lookup_insert_ne; [done|]. intros <-.
      rewrite fn_lookup_insert_ne, Hidw in Hb by (intros ->; congruence). done. }
  all: eapply (lost_move s s'); [done|done|by rewrite <- Hs|done|done|done|rewrite Ea; congruence|by rewrite Ea].
Qed.

Lemma ninv_step s ev s' : einv s -> ninv s -> estep s ev = Some s' -> ninv s'.
Proof.
  intros Hi Hn Hs. split.
  - intros k Hk. pose proof (n_dom _ Hn k Hk) as Hid.
    step_cases s ev Hs; rewrite <- Hs; simpl; rewrite ?fn_upd; repeat case_decide; try done; subst; try congruence.
    simplify_eq. destruct (i_rel _ Hi _ _ _ _ Ea) as (Hwf & _). by apply full_ids in Hwf.
  - by eapply flight_step.
  - pose proof (n_rtot _ Hn). pose proof (u32_range (released_total s + 1)).
    step_cases s ev Hs; rewrite <- Hs; simpl; lia.
  - by eapply released_step.
  - by eapply skip_step.
  - intros k. by eapply own_step.
  - intros k. by eapply lost_step.
  - pose proof (n_ferr _ Hn). step_cases s ev Hs; rewrite <- Hs; simpl; try done; destruct (e_failed s); auto.
    destruct (i_rel _ Hi _ _ _ _ Ea) as (_ & _ & _ & _ & _ & ?). done.
Qed.

Lemma total_zero f s : (forall v, f (Some v) AIdle = 0) -> (forall v, v ∈ ids -> acts s (Some v) = AIdle) -> total f s = f None (acts s None).
Proof.
  intros Hf Ha. unfold total, actors. rewrite fmap_cons. cbn [foldr].
  enough (foldr Z.add 0 ((fun a => f a (acts s a)) <$> (Some <$> ids)) = 0) by lia.
  induction ids as [|u l IH]; [done|]. rewrite !fmap_cons. cbn [foldr].
  rewrite Ha, Hf, IH by set_solver. done.
Qed.

Lemma ninv_init : ninv engine_init.
Proof.
  split; try done; try (rewrite total_zero by done; done).
  - rewrite !total_zero by done. done.
  - intros _ [u|]; done.
  - intros v Hv _ _. left. destruct (decide (in_degree (ns !!! v) = 0)) as [H0|H0].
    + exists None. by apply list_elem_of_filter.
    + rewrite (gw_indeg _ Hw v Hv) in H0. destruct (preds d v) as [|u l] eqn:Ep; [done|].
      exists (Some u). assert (Hu : u ∈ preds d v) by (rewrite Ep; constructor). by apply list_elem_of_filter in Hu as [? _].
Qed.

Lemma run_app s evs1 evs2 s' :
  run s (evs1 ++ evs2) = Some s' <-> exists s1, run s evs1 = Some s1 /\ run s1 evs2 = Some s'.
Proof.
  revert s. induction evs1 as [|ev evs1 IH]; intros s; simpl; [naive_solver|].
  destruct (estep s ev) as [s1|]; [apply IH|naive_solver].
Qed.

Lemma run_inv evs s : run engine_init evs = Some s -> einv s /\ ninv s.
Proof.
  revert s. induction evs as [|ev evs IH] using rev_ind; intros s Hr.
  { simpl in Hr. simplify_eq. split; [by apply einv_init|apply ninv_init]. }
  apply run_app in Hr as (s1 & Hr1 & Hr). simpl in Hr. destruct (estep s1 ev) eqn:Hs; simplify_eq.
  destruct (IH s1 Hr1) as [Hi Hn]. split; [by eapply einv_step|by eapply ninv_step].
Qed.

(** ** What the events say *)

Lemma finish_seen evs s v :
  run engine_init evs = Some s -> past_exec (acts s (Some v)) = true -> exists st, EvFinish v st ∈ evs.
Proof.
  revert s. induction evs as [|ev evs IH] using rev_ind; intros s Hr.
  { simpl in Hr. by simplify_eq. }
  apply run_app in Hr as (s1 & Hr1 & Hr). simpl in Hr. destruct (estep s1 ev) as [s2|] eqn:Hs; simplify_eq.
  intros Hp. destruct (past_exec (acts s1 (Some v))) eqn:Hp1.
  { destruct (IH s1 Hr1 Hp1) as [st ?]. exists st. apply elem_of_app. by left. }
  enough (exists st, ev = EvFinish v st) as [st ->] by (exists st; set_solver).
  assert (Hi : einv s1) by by apply (run_inv evs).
  clear IH. rename v into k. step_cases s1 ev Hs; rewrite <- Hs in Hp; simpl in Hp; rewrite ?fn_upd in Hp; repeat case_decide; simplify_eq; 
    try (by rewrite ?Ea in Hp1; simplify_eq); eauto; rewrite ?Ea in Hp1; try discriminate; try congruence.
Qed.

Lemma start_seen evs s v :
  run engine_init evs = Some s -> EvStart v ∈ evs -> acts s (Some v) <> AIdle /\ acts s (Some v) <> AQueued.
Proof.
  revert s. induction evs as [|ev evs IH] using rev_ind; intros s Hr.
  { intros H. by apply not_elem_of_nil in H. }
  apply run_app in Hr as (s1 & Hr1 & Hr). simpl in Hr. destruct (estep s1 ev) as [s2|] eqn:Hs; simplify_eq.
  assert (Hi : einv s1) by by apply (run_inv evs).
  rewrite elem_of_app, list_elem_of_singleton. rename v into k.
  intros [Hin| <-]; [|simpl in Hs; destruct (acts s1 (Some k)); simplify_eq; simpl; rewrite fn_lookup_insert; done].
  destruct (IH s1 Hr1 Hin) as [H1 H2]. clear IH.
  step_cases s1 ev Hs; rewrite <- Hs; simpl; rewrite ?fn_upd; repeat case_decide; simplify_eq; try done; try congruence;
    try (by case_if); try (by destruct a).
  by destruct (i_rel _ Hi _ _ _ _ Ea) as (_ & _ & _ & Hid).
Qed.

(** ** Draining *)

Lemma total_zero_inv f s a : (forall b x, 0 <= f b x) -> total f s = 0 -> a ∈ actors -> f a (acts s a) = 0.
Proof.
  intros Hf. unfold total. induction actors as [|b l IH]; intros Ht Ha; [by apply not_elem_of_nil in Ha|].
  rewrite fmap_cons in Ht. cbn [foldr] in Ht. pose proof (Hf b (acts s b)).
  assert (0 <= foldr Z.add 0 ((fun a => f a (acts s a)) <$> l)).
  { clear -Hf. induction l as [|c l IH]; [done|]. rewrite fmap_cons. cbn [foldr]. specialize (Hf c (acts s c)). lia. }
  apply elem_of_cons in Ha as [->|Ha]; [lia|apply IH; [lia|done]].
Qed.

Lemma total_begun s : total begun s = Z.of_nat (length (filter (fun v => acts s (Some v) <> AIdle) ids)).
Proof.
  unfold total, actors. rewrite fmap_cons. cbn [foldr]. change (begun None (acts s None)) with 0. rewrite Z.add_0_l.
  induction ids as [|u l IH]; [done|]. rewrite !fmap_cons, filter_cons. cbn [foldr]. rewrite IH.
  destruct (decide (acts s (Some u) <> AIdle)) as [H|H]; [|apply dec_stable in H; by rewrite H].
  cbn [length]. destruct (acts s (Some u)); try done; simpl begun; lia.
Qed.

Lemma flight_zero s a :
  ninv s -> in_flight s = 0 -> counted a (acts s a) = 0.
Proof.
  intros Hn H0. rewrite (n_flight _ Hn) in H0. destruct (decide (acts s a = AIdle)) as [E|E].
  - rewrite E. by destruct a.
  - apply total_zero_inv; [|done|by apply (in_actors s)]. intros [v|] x; destruct x as [| | | | |? []| |]; unfold counted; simpl; lia.
Qed.

Lemma runner_gone s v : counted (Some v) (acts s (Some v)) = 0 -> acts s (Some v) = AIdle \/ exists l, acts s (Some v) = ADone l.
Proof. clear. unfold counted. destruct (acts s (Some v)) as [| | | | |? []| |]; simpl; eauto; discriminate. Qed.

Lemma all_begun s :
  ninv s -> e_failed s = false -> released_total s = Z.of_nat (length ids) ->
  total (fun _ => handed) s = 0 /\ forall v, v ∈ ids -> acts s (Some v) <> AIdle.
Proof.
  intros Hn Hf Hr. pose proof (n_released _ Hn Hf) as Ht. rewrite total_begun in Ht. pose proof (handed_bound s).
  set (b := filter _ ids) in Ht. assert (Hb : (length b <= length ids)%nat) by apply length_filter.
  split; [lia|]. intros v Hv.
  assert (Hp : b ≡ₚ ids).
  { apply submseteq_length_Permutation; [apply NoDup_submseteq|lia].
    - apply NoDup_filter, added_nodup.
    - intros x Hx. by apply list_elem_of_filter in Hx as [_ ?]. }
  rewrite <- Hp in Hv. by apply list_elem_of_filter in Hv as [? _].
Qed.

Lemma drained_spec added s : dag_drained added s = true <-> in_flight s = 0 /\ (e_failed s = true \/ released_total s = added).
Proof. unfold dag_drained. rewrite andb_true_iff, orb_true_iff, !Z.eqb_eq. done. Qed.

(** A run can only last so long: every step uses up some of this measure. *)
Definition fuel_of (a : actor) (x : astate) : Z :=
  match x with
  | AIdle => 10 * Z.of_nat (length (full a)) + 5
  | AQueued => 10 * Z.of_nat (length (full a)) + 4
  | AExec => 10 * Z.of_nat (length (full a)) + 3
  | ALoop l => 10 * Z.of_nat (length l) + 2
  | ADec _ l => 10 * Z.of_nat (length l) + 11
  | ARel _ p l => 10 * Z.of_nat (length l) + match p with P_enter => 8 | P_init => 7 | P_counted => 6 | _ => 4 end
  | ADrain _ => 1
  | ADone _ => 0
  end.

Lemma fuel_step s ev s' : einv s -> ninv s -> estep s ev = Some s' -> total fuel_of s' + 1 <= total fuel_of s.
Proof.
  intros Hi Hn Hs.
  step_cases s ev Hs; count fuel_of s s' Hs Hw Hi Hn Ea; generalize (total fuel_of s) as T; intros T;
    try destruct a; unfold fuel_of; cbn [after_fail full length]; repeat case_if; simplify_eq; lia.
Qed.

Lemma fuel_nonneg s : 0 <= total fuel_of s.
Proof.
  unfold total. induction actors as [|b l IH]; [done|]. rewrite fmap_cons. cbn [foldr].
  assert (0 <= fuel_of b (acts s b)) by (destruct (acts s b) as [| | | | |? []| |]; simpl; lia). lia.
Qed.

Lemma run_bounded evs s : run engine_init evs = Some s -> Z.of_nat (length evs) + total fuel_of s <= total fuel_of engine_init.
Proof.
  revert s. induction evs as [|ev evs IH] using rev_ind; intros s Hr; [simpl in Hr; simplify_eq; simpl; lia|].
  apply run_app in Hr as (s1 & Hr1 & Hr). simpl in Hr. destruct (estep s1 ev) eqn:Hs; simplify_eq.
  destruct (run_inv _ _ Hr1) as [Hi Hn]. specialize (IH s1 Hr1). pose proof (fuel_step _ _ _ Hi Hn Hs).
  rewrite length_app. simpl. lia.
Qed.

(** When nothing can move, every actor is idle or done. *)
Lemma stuck_done s a : einv s -> (forall ev, estep s ev = None) -> acts s a = AIdle \/ exists l, acts s a = ADone l.
Proof.
  intros Hi Hst. destruct (acts s a) as [| | |l|w l|w p l|l|l] eqn:Ea; eauto; exfalso.
  all: pose proof (i_none _ Hi) as Hnone.
  1,2,4,6: destruct a as [v|]; [|by rewrite Ea in Hnone].
  - specialize (Hst (EvStart v)). simpl in Hst. by rewrite Ea in Hst.
  - specialize (Hst (EvFinish v LOOMWORKS_OK)). simpl in Hst. by rewrite Ea in Hst.
  - specialize (Hst (EvDec v)). simpl in Hst. by rewrite Ea in Hst.
  - specialize (Hst (EvDrain v)). simpl in Hst. by rewrite Ea in Hst.
  - specialize (Hst (EvNext a)). destruct a; simpl in Hst; rewrite Ea in Hst; by destruct l.
  - destruct p.
    + specialize (Hst (EvRelInit a)). simpl in Hst. by rewrite Ea in Hst.
    + specialize (Hst (EvRelCount a)). simpl in Hst. by rewrite Ea in Hst.
    + specialize (Hst (EvRelSubmit a LOOMWORKS_OK)). simpl in Hst. by rewrite Ea in Hst.
    + specialize (Hst (EvRelFinish a)). simpl in Hst. by rewrite Ea in Hst.
    + specialize (Hst (EvRelFinish a)). simpl in Hst. by rewrite Ea in Hst.
Qed.

(** Without a failure, a stuck acyclic graph has started every node. *)
Lemma stuck_begun s :
  acyclic d -> einv s -> ninv s -> (forall ev, estep s ev = None) -> e_failed s = false ->
  forall v, v ∈ ids -> acts s (Some v) <> AIdle.
Proof.
  intros [rank Hr] Hi Hn Hst Hf. enough (H : forall n v, (rank v < n)%nat -> v ∈ ids -> acts s (Some v) <> AIdle) by eauto.
  induction n as [|n IH]; intros v Hlt Hv Hid; [lia|].
  pose proof (n_skip _ Hn Hf) as Hsk.
  destruct (n_lost _ Hn v Hv Hid) as [[a Ha]|?]; [| |congruence].
  { intros a p l Ea. by destruct (stuck_done s a Hi Hst) as [?|[? ?]]; congruence. }
  specialize (Hsk a). pose proof (i_sub _ Hi a v Ha) as Hfull.
  destruct (stuck_done s a Hi Hst) as [E|[l E]]; rewrite E in Ha, Hsk; [|destruct l; [by apply not_elem_of_nil in Ha|done]].
  destruct a as [u|]; [|pose proof (i_none _ Hi) as H; by rewrite E in H].
  assert (Hlt' := Hr u v Hfull). destruct (gw_edge _ Hw u v Hfull) as (Hu & _). apply (IH u); [lia|done|done].
Qed.
End Bounded.
End Engine.

(** The graphs loom_dag_submit lets through, small enough for the 32-bit
    counters. *)
Definition submittable (d : dag) : Prop :=
  dag_wf d /\ acyclic d /\ 2 * Z.of_nat (length (nodes d)) + 2 < 2 ^ 32.

Lemma step_needs_actor d s ev s' :
  estep d s ev = Some s' -> exists a, acts s a <> AIdle /\ forall l, acts s a <> ADone l.
Proof. intros Hs. step_cases s ev Hs; eexists; rewrite Ea; done. Qed.

(** A drained DAG that did not fail has run every node to completion. *)
Lemma drained_complete d evs s v :
  submittable d -> run d (engine_init d) evs = Some s ->
  dag_drained (Z.of_nat (length (added_ids d))) s = true -> e_failed s = false -> v ∈ added_ids d ->
  acts s (Some v) = ADone [] /\ future_owner s v = true /\ future_ready s v = true /\ exists st, EvFinish v st ∈ evs.
Proof.
  intros (Hw & _ & Hc) Hr Hd Hf Hv. destruct (run_inv d Hw Hc _ _ Hr) as [Hi Hn].
  apply drained_spec in Hd as [H0 [?|Hrt]]; [congruence|]. destruct (all_begun d s Hn Hf Hrt) as [_ Hb]. specialize (Hb v Hv).
  destruct (runner_gone s v (flight_zero d s (Some v) Hn H0)) as [?|[l El]]; [done|].
  pose proof (n_skip _ _ Hn Hf (Some v)) as Hl. rewrite El in Hl. destruct l as [|? ?]; [|done].
  split_and!; [done|by apply (i_owner _ _ Hi)|apply (i_ready _ _ Hi); by rewrite El|].
  apply (finish_seen d Hw Hc _ _ v Hr). by rewrite El.
Qed.

(** A state without a next step is drained, and the submitter has returned. *)
Lemma stuck_drained d evs s :
  submittable d -> run d (engine_init d) evs = Some s -> (forall ev, estep d s ev = None) ->
  dag_drained (Z.of_nat (length (added_ids d))) s = true /\ exists skipped, acts s None = ADone skipped.
Proof.
  intros (Hw & Hac & Hc) Hr Hst. destruct (run_inv d Hw Hc _ _ Hr) as [Hi Hn].
  pose proof (stuck_done d s) as Hdone. split.
  - apply drained_spec.
    assert (Hz : forall f, (forall a, f a AIdle = 0) -> (forall a l, f a (ADone l) = 0) -> total d f s = 0).
    { intros f Hf1 Hf2. unfold total. induction (actors d) as [|a l IH]; [done|]. rewrite fmap_cons. cbn [foldr]. rewrite IH.
      destruct (Hdone a Hi Hst) as [-> |[m ->]]; by rewrite ?Hf1, ?Hf2. }
    rewrite (n_flight _ _ Hn), Hz; [|by intros [|]..]. split; [done|].
    destruct (e_failed s) eqn:Hf; [by left|right].
    pose proof (n_released _ _ Hn Hf) as Hrel. rewrite Hz in Hrel by done. rewrite total_begun, filter_all in Hrel; [lia|].
    apply Forall_forall. by apply (stuck_begun d Hw s Hac Hi Hn Hst Hf).
  - destruct (Hdone None Hi Hst) as [E|[l E]]; [pose proof (i_none _ _ Hi) as Hno; by rewrite E in Hno|by exists l].
Qed.

(** C6. Precedence and at-most-once execution: in every interleaving of the
    submitting thread and the runners, with any failures of the allocator and
    the pool, when the function of node [v] starts, every predecessor of [v]
    has returned, and [v] has not started before. *)
Theorem dag_runs_in_topological_order d evs1 v evs2 s :
  submittable d -> run d (engine_init d) (evs1 ++ EvStart v :: evs2) = Some s ->
  (forall u, edge (nodes d) u v -> exists st, EvFinish u st ∈ evs1) /\ (EvStart v ∉ evs1).
Proof.
  intros (Hw & _ & Hc) Hr. apply run_app in Hr as (s1 & Hr1 & Hr). cbn [run] in Hr.
  destruct (estep d s1 (EvStart v)) as [s2|] eqn:Hs; [|done]. clear Hr. simpl in Hs.
  destruct (acts s1 (Some v)) eqn:Ea; try done. destruct (run_inv d Hw Hc _ _ Hr1) as [Hi Hn]. split.
  - intros u He. apply (finish_seen d Hw Hc _ _ u Hr1).
    assert (Hnt : v ∉ todo d (Some u) (acts s1 (Some u))).
    { intros Hin. destruct (i_open _ _ Hi v) as (_ & Hid & _); [by exists (Some u)|congruence]. }
    destruct (acts s1 (Some u)); try done; by destruct Hnt.
  - intros Hin. destruct (start_seen d Hw Hc _ _ v Hr1 Hin) as [_ Hq]. congruence.
Qed.

(** C32. When loom_dag_wait finds the DAG drained and no release failed, it
    returns LOOMWORKS_OK and every node has run to completion: its runner has
    left, its future is ready and its function has returned. *)
Theorem dag_wait_success d evs s :
  submittable d -> run d (engine_init d) evs = Some s ->
  dag_drained (Z.of_nat (length (added_ids d))) s = true -> e_failed s = false ->
  dag_wait_result s = LOOMWORKS_OK /\
  forall v, v ∈ added_ids d ->
    acts s (Some v) = ADone [] /\ future_ready s v = true /\ (exists st, EvFinish v st ∈ evs) /\
    loom_dag_node_status s v = node_status s v.
Proof.
  intros Hsub Hr Hd Hf. split; [unfold dag_wait_result; by rewrite Hf|]. intros v Hv.
  destruct (drained_complete d evs s v Hsub Hr Hd Hf Hv) as (? & Ho & Hrd & ?). split_and!; [done..|].
  unfold loom_dag_node_status. by rewrite Ho, Hrd.
Qed.

(** What loom_dag_destroy relies on: once loom_dag_submit has returned
    and the DAG is drained (failed or not), no runner is queued or running, no
    event can happen any more, and every embedded future that was initialised
    is ready, so the node array may be freed. *)
Theorem dag_destroy_safe d evs s skipped :
  submittable d -> run d (engine_init d) evs = Some s ->
  dag_drained (Z.of_nat (length (added_ids d))) s = true -> acts s None = ADone skipped ->
  (forall ev, estep d s ev = None) /\ (forall v, live (acts s (Some v)) = false) /\
  (forall v, future_owner s v = true -> future_ready s v = true).
Proof.
  intros (Hw & _ & Hc) Hr Hd Hsub. destruct (run_inv d Hw Hc _ _ Hr) as [Hi Hn].
  apply drained_spec in Hd as [H0 _].
  assert (Hgone : forall a, acts s a = AIdle \/ exists l, acts s a = ADone l).
  { intros [v|]; [apply runner_gone, (flight_zero d s (Some v) Hn H0)|right; by exists skipped]. }
  split_and!.
  - intros ev. destruct (estep d s ev) as [s'|] eqn:Hs; [|done]. exfalso.
    destruct (step_needs_actor d s ev s' Hs) as (a & Hni & Hnd). destruct (Hgone a) as [?|[l ?]]; [done|by apply (Hnd l)].
  - intros v. by destruct (Hgone (Some v)) as [-> |[? ->]].
  - intros v Ho. destruct (n_own _ _ Hn v Ho) as [?|[Hq|[Hq|(a & l & [Hq|Hq])]]]; [done|exfalso..].
    1,2: destruct (Hgone (Some v)) as [?|[? ?]]; congruence.
    all: destruct (Hgone a) as [?|[? ?]]; congruence.
Qed.


(** ** A concrete graph: 0 -> 1, and 2 on its own *)

Definition sample_dag : dag :=
  fold_left build [AddNode 0 7 0 0 true; AddNode 1 8 0 0 true; AddNode 2 9 0 0 true; AddEdge 0 1 true true]
    (mk_dag [] 3 false false false LOOMWORKS_OK 0).

Definition release_ok (a : actor) : list event := [EvRelInit a; EvRelCount a; EvRelSubmit a LOOMWORKS_OK; EvRelFinish a].

(** The submitter is still in its root loop when node 0 finishes and fails to
    release node 1. *)
Definition early_run : list event :=
  EvNext None :: release_ok None ++
  [EvStart 0; EvFinish 0 LOOMWORKS_OK; EvNext (Some 0%nat); EvDec 0; EvRelInit (Some 0%nat); EvRelCount (Some 0%nat);
   EvRelSubmit (Some 0%nat) LOOMWORKS_ERR_ALLOC; EvRelFinish (Some 0%nat); EvNext (Some 0%nat); EvDrain 0].

Definition full_run : list event :=
  EvNext None :: release_ok None ++ EvNext None :: release_ok None ++ [EvNext None] ++
  [EvStart 0; EvFinish 0 LOOMWORKS_OK; EvNext (Some 0%nat); EvDec 0] ++ release_ok (Some 0%nat) ++
  [EvNext (Some 0%nat); EvDrain 0; EvStart 2; EvFinish 2 LOOMWORKS_OK; EvNext (Some 2%nat); EvDrain 2;
   EvStart 1; EvFinish 1 LOOMWORKS_OK; EvNext (Some 1%nat); EvDrain 1].

Lemma sample_submittable : submittable sample_dag.
Proof.
  assert (Hw : dag_wf sample_dag).
  { apply build_wf. apply (dag_create_wf 3); [lia|reflexivity]. }
  split; [done|]. split; [|vm_compute; reflexivity]. apply has_cycle_spec; [done|reflexivity].
Qed.

Lemma dag_runs_in_topological_order_witness :
  exists s, run sample_dag (engine_init sample_dag) full_run = Some s /\
  (exists st, EvFinish 0 st ∈ take 25 full_run) /\ full_run !! 25%nat = Some (EvStart 1).
Proof.
  destruct (run sample_dag (engine_init sample_dag) full_run) as [s|] eqn:E; [|vm_compute in E; discriminate E].
  exists s. split; [done|]. split; [|reflexivity].
  refine (proj1 (dag_runs_in_topological_order sample_dag (take 25 full_run) 1 (drop 26 full_run) s sample_submittable _) 0%nat _).
  - rewrite <- E. f_equal.
  - vm_compute. constructor.
Defined.

Lemma dag_wait_success_witness :
  exists s, run sample_dag (engine_init sample_dag) full_run = Some s /\
  forall v, v ∈ added_ids sample_dag -> future_ready s v = true.
Proof.
  destruct (run sample_dag (engine_init sample_dag) full_run) as [s|] eqn:E; [|vm_compute in E; discriminate E].
  exists s. split; [done|]. intros v Hv.
  refine (proj1 (proj2 (proj2 (dag_wait_success sample_dag full_run s sample_submittable E _ _) v Hv))).
  - vm_compute in E. injection E as <-. reflexivity.
  - vm_compute in E. injection E as <-. reflexivity.
Defined.

Lemma dag_destroy_safe_witness :
  exists s, run sample_dag (engine_init sample_dag) full_run = Some s /\ forall ev, estep sample_dag s ev = None.
Proof.
  destruct (run sample_dag (engine_init sample_dag) full_run) as [s|] eqn:E; [|vm_compute in E; discriminate E].
  exists s. split; [done|]. refine (proj1 (dag_destroy_safe sample_dag full_run s [] sample_submittable E _ _)).
  - vm_compute in E. injection E as <-. reflexivity.
  - vm_compute in E. injection E as <-. reflexivity.
Defined.


(** The drained predicate is not stable while loom_dag_submit runs: the
    root loop does not look at [failed], so a reachable state is drained (a
    concurrent loom_dag_wait returns) although a root is still to be released,
    and the execution goes on to start that root's function. *)
Theorem dag_drained_while_submitting :
  exists s s' evs,
    run sample_dag (engine_init sample_dag) early_run = Some s /\
    dag_drained 3 s = true /\ dag_wait_result s = LOOMWORKS_ERR_ALLOC /\ acts s None = ALoop [2%nat] /\
    run sample_dag s evs = Some s' /\ acts s' (Some 2%nat) = AExec /\ dag_drained 3 s' = false.
Proof.
  set (more := EvNext None :: release_ok None ++ [EvNext None; EvStart 2]).
  assert (H1 : (fun s => (dag_drained 3 s, dag_wait_result s, acts s None)) <$>
                 run sample_dag (engine_init sample_dag) early_run = Some (true, LOOMWORKS_ERR_ALLOC, ALoop [2%nat]))
    by (vm_compute; reflexivity).
  assert (H2 : (fun s => (acts s (Some 2%nat), dag_drained 3 s)) <$>
                 run sample_dag (engine_init sample_dag) (early_run ++ more) = Some (AExec, false)) by (vm_compute; reflexivity).
  destruct (run _ _ (early_run ++ more)) as [s'|] eqn:E2; [|done].
  apply run_app in E2 as (s & E1 & E2). rewrite E1 in H1. exists s, s', more. cbn in H1, H2. split_and!; congruence.
Qed.
