(* ===== verification/DagWait.v ===== *)
(** * Waiting for a DAG and destroying it (src/dag.c: dag_wait_internal,
    loom_dag_wait, loom_dag_wait_timeout, loom_dag_destroy and the signals of
    done_cv).

    The engine of DagEngine.v runs beside any number of threads inside
    dag_wait_internal.  The drained predicate is tested, and the thread put to
    sleep, in one critical section of done_mu; every step that runs the test
    "if (dag_drained(dag)) pthread_cond_signal" wakes at most one sleeper,
    which one being the choice recorded in the event. *)
From stdpp Require Import functions.
From S2P Require Import Prelude Types Dag DagEngine.

(** ** State *)

Inductive dwait :=
  | DTest                            (* about to test the predicate *)
  | DAsleep                          (* in pthread_cond_wait or pthread_cond_timedwait *)
  | DRet (rc : loom_result_t).

#[export] Instance dwait_eq_dec : EqDecision dwait. Proof. solve_decision. Defined.

Record dagmon := mk_dagmon {
  eng : engine;
  submitted : bool;
  waits : list (bool * dwait);       (* true = with a deadline *)
}.

Inductive mevent :=
  | MSubmit                                 (* loom_dag_submit sets [submitted], the root loop begins *)
  | MEng (ev : event) (woken : option nat)  (* a step of the engine, and the sleeper its signal wakes *)
  | MWait (timed : bool)                    (* a thread enters dag_wait_internal *)
  | MTest (i : nat)
  | MSpurious (i : nat)
  | MTimeout (i : nat).                     (* pthread_cond_timedwait returns ETIMEDOUT *)

(** The steps that end with "if (dag_drained(dag)) signal". *)
Definition tests_drained (ev : event) : bool :=
  match ev with EvRelFail _ _ | EvRelFinish _ | EvDrain _ => true | _ => false end.

Section Wait.
Context (d : dag).
Abbreviation added := (Z.of_nat (length (added_ids d))).

(** pthread_cond_signal: one sleeper if there is one. *)
Definition signal (ws : list (bool * dwait)) (woken : option nat) : option (list (bool * dwait)) :=
  match woken with
  | Some i => match ws !! i with Some (b, DAsleep) => Some (<[i := (b, DTest)]> ws) | _ => None end
  | None => if forallb (fun w => negb (bool_decide (w.2 = DAsleep))) ws then Some ws else None
  end.

(** One turn of the loop of dag_wait_internal. *)
Definition dag_wait_test (s : engine) : dwait := if dag_drained added s then DRet (dag_wait_result s) else DAsleep.

Definition mstep (m : dagmon) (ev : mevent) : option dagmon :=
  match ev with
  | MSubmit => if submitted m then None else Some (mk_dagmon (eng m) true (waits m))
  | MEng e woken =>
      if submitted m then
        match estep d (eng m) e with
        | Some s =>
            if tests_drained e && dag_drained added s
            then (fun ws => mk_dagmon s true ws) <$> signal (waits m) woken
            else if bool_decide (woken = None) then Some (mk_dagmon s true (waits m)) else None
        | None => None
        end
      else None
  | MWait timed =>
      Some (mk_dagmon (eng m) (submitted m) (waits m ++ [(timed, if submitted m then DTest else DRet LOOMWORKS_ERR_INVALID)]))
  | MTest i =>
      match waits m !! i with
      | Some (b, DTest) => Some (mk_dagmon (eng m) (submitted m) (<[i := (b, dag_wait_test (eng m))]> (waits m)))
      | _ => None
      end
  | MSpurious i =>
      match waits m !! i with
      | Some (b, DAsleep) => Some (mk_dagmon (eng m) (submitted m) (<[i := (b, DTest)]> (waits m)))
      | _ => None
      end
  | MTimeout i =>
      match waits m !! i with
      | Some (true, DAsleep) => Some (mk_dagmon (eng m) (submitted m) (<[i := (true, DRet LOOMWORKS_ERR_TIMEOUT)]> (waits m)))
      | _ => None
      end
  end.

Fixpoint mrun (m : dagmon) (evs : list mevent) : option dagmon :=
  match evs with
  | [] => Some m
  | ev :: evs => match mstep m ev with Some m' => mrun m' evs | None => None end
  end.

Definition dagmon_start : dagmon := mk_dagmon (engine_init d) false [].

(** loom_dag_destroy after its wait, with loom_dag_submit returned (it takes
    dag->lock, which submit holds): the embedded futures it tears down. *)
Definition loom_dag_destroy (s : engine) : list nat := filter (fun v => future_owner s v = true) (added_ids d).

Definition loom_dag_node_future (s : engine) (v : nat) : bool := future_owner s v.

(** At most one thread at a time is inside dag_wait_internal. *)
Definition inside (w : bool * dwait) : bool := match w.2 with DRet _ => false | _ => true end.
Fixpoint solo (m : dagmon) (evs : list mevent) : bool :=
  match evs with
  | [] => true
  | ev :: evs =>
      match ev with MWait _ => forallb (fun w => negb (inside w)) (waits m) | _ => true end &&
      match mstep m ev with Some m' => solo m' evs | None => true end
  end.

(** ** The engine's part of a run *)

Definition engine_events (evs : list mevent) : list event :=
  omap (fun ev => match ev with MEng e _ => Some e | _ => None end) evs.

Lemma mrun_engine evs : forall m m', mrun m evs = Some m' -> run d (eng m) (engine_events evs) = Some (eng m').
Proof.
  induction evs as [|ev evs IH]; intros m m' Hr; simpl in Hr; [by simplify_eq|].
  destruct (mstep m ev) as [m1|] eqn:Hs; [|done]. apply IH in Hr.
  destruct ev as [|e woken|timed|i|i|i]; simpl in *.
  1,3-6: repeat case_match; simplify_eq; exact Hr.
  destruct (submitted m); [|done]. destruct (estep d (eng m) e) as [s|]; [|done].
  assert (He : eng m1 = s) by (case_match; [by apply fmap_Some in Hs as (ws & _ & ->)|case_bool_decide; by simplify_eq]).
  by rewrite <- He.
Qed.

Section Sound.
Context (Hsub : submittable d).

(** A step flips the drained predicate only where it is tested. *)
Lemma flip_tested s ev s' :
  einv d s -> ninv d s -> estep d s ev = Some s' ->
  dag_drained added s = false -> dag_drained added s' = true -> tests_drained ev = true.
Proof.
  destruct Hsub as (Hw & _ & Hc). intros Hi Hn Hs Hd Hd'. pose proof (ninv_step d Hw Hc _ _ _ Hi Hn Hs) as Hn'.
  destruct (tests_drained ev) eqn:Et; [done|exfalso]. unfold dag_drained in *.
  step_cases s ev Hs; try done; rewrite <- Hs in *; simpl in *; try congruence.
  apply andb_prop in Hd' as [H0 _]. apply Z.eqb_eq in H0.
  pose proof (flight_zero d _ a Hn' H0) as Hz. simpl in Hz. rewrite fn_lookup_insert in Hz. destruct a; simpl in Hz; discriminate Hz.
Qed.

(** ** Invariant *)

Record winv (m : dagmon) : Prop := {
  wi_eng : einv d (eng m) /\ ninv d (eng m);
  wi_one : forall i j w w', waits m !! i = Some w -> waits m !! j = Some w' -> inside w = true -> inside w' = true -> i = j;
  wi_wake : forall i b, waits m !! i = Some (b, DAsleep) -> dag_drained added (eng m) = false;
}.

(** A thread inside goes on, to sleep only if the DAG is not drained. *)
Lemma winv_set m i w x :
  winv m -> waits m !! i = Some w -> inside w = true -> (x.2 = DAsleep -> dag_drained added (eng m) = false) ->
  winv (mk_dagmon (eng m) (submitted m) (<[i := x]> (waits m))).
Proof.
  intros [H1 H2 H3] Hi Hw Hx. split; simpl; [done| |].
  - assert (Hin : forall k y, <[i := x]> (waits m) !! k = Some y -> inside y = true -> exists z, waits m !! k = Some z /\ inside z = true).
    { intros k y [(-> & <- & _)|[_ Hk]]%list_lookup_insert_Some Hy; [by exists w|by exists y]. }
    intros k j y y' Hk Hj Hy Hy'. destruct (Hin k y Hk Hy) as (z & ? & ?), (Hin j y' Hj Hy') as (z' & ? & ?). by apply (H2 k j z z').
  - intros k b [(-> & Hk & _)|[_ Hk]]%list_lookup_insert_Some; [apply Hx; by rewrite Hk|by eapply H3].
Qed.

Lemma winv_enter m w : winv m -> forallb (fun w => negb (inside w)) (waits m) = true -> w.2 <> DAsleep ->
  winv (mk_dagmon (eng m) (submitted m) (waits m ++ [w])).
Proof.
  intros [H1 H2 H3] Hall Hw. rewrite forallb_forall in Hall.
  assert (Hno : forall k y, waits m !! k = Some y -> inside y = true -> False).
  { intros k y Hk Hy. apply list_elem_of_lookup_2, list_elem_of_In in Hk. apply Hall in Hk. by rewrite Hy in Hk. }
  split; simpl; [done| |].
  - intros i j y y' [[_ Hi]|[-> _]]%lookup_snoc_Some [[_ Hj]|[-> _]]%lookup_snoc_Some Hy Hy'; try done; exfalso; eauto.
  - intros i b [[_ Hi]|[_ ->]]%lookup_snoc_Some; [by eapply H3|done].
Qed.

(** The signal leaves no sleeper behind when one thread waits. *)
Lemma signal_wakes m ws woken i b :
  winv m -> signal (waits m) woken = Some ws -> ws !! i <> Some (b, DAsleep).
Proof.
  intros [_ H2 _] Hs Hi. destruct woken as [k|]; simpl in Hs.
  - destruct (waits m !! k) as [[b' []]|] eqn:Hk; simplify_eq.
    apply list_lookup_insert_Some in Hi as [(_ & ? & _)|[Hne Hi]]; [done|]. by apply Hne, (H2 k i _ _ Hk Hi).
  - destruct (forallb _ _) eqn:Hall; simplify_eq. rewrite forallb_forall in Hall.
    apply list_elem_of_lookup_2, list_elem_of_In in Hi. apply Hall in Hi. by rewrite bool_decide_true in Hi.
Qed.

Lemma signal_inside m ws woken i w :
  signal (waits m) woken = Some ws -> ws !! i = Some w -> inside w = true -> exists w', waits m !! i = Some w' /\ inside w' = true.
Proof.
  intros Hs Hi Hw. destruct woken as [k|]; simpl in Hs; [|destruct (forallb _ _); simplify_eq; by exists w].
  destruct (waits m !! k) as [[b []]|] eqn:Hk; simplify_eq.
  apply list_lookup_insert_Some in Hi as [(-> & <- & _)|[_ Hi]]; [by exists (b, DAsleep)|by exists w].
Qed.

Lemma winv_engine m e woken m' : winv m -> mstep m (MEng e woken) = Some m' -> winv m'.
Proof.
  intros Hv Hs. simpl in Hs. destruct (submitted m); [|done]. destruct (estep d (eng m) e) as [s|] eqn:He; [|done].
  destruct Hsub as (Hw & _ & Hc). destruct (wi_eng _ Hv) as [Hi Hn].
  assert (Hen : einv d s /\ ninv d s) by (split; [by eapply einv_step|by eapply ninv_step]).
  destruct (tests_drained e && dag_drained added s) eqn:Ht.
  - apply fmap_Some in Hs as (ws & Hws & ->). split; simpl; [done| |].
    + intros i j w w' H1 H2 H3 H4. destruct (signal_inside _ _ _ _ _ Hws H1 H3) as (x & ? & ?).
      destruct (signal_inside _ _ _ _ _ Hws H2 H4) as (x' & ? & ?). by apply (wi_one _ Hv i j x x').
    + intros i b H. by destruct (signal_wakes _ _ _ i b Hv Hws).
  - case_bool_decide; simplify_eq. split; simpl; [done|apply Hv|]. intros i b Hb. pose proof (wi_wake _ Hv i b Hb) as Hd.
    destruct (dag_drained added s) eqn:Hd'; [|done]. pose proof (flip_tested _ _ _ Hi Hn He Hd Hd') as Hf. by rewrite Hf in Ht.
Qed.

Lemma winv_step m ev m' :
  winv m -> match ev with MWait _ => forallb (fun w => negb (inside w)) (waits m) | _ => true end = true ->
  mstep m ev = Some m' -> winv m'.
Proof.
  intros Hv Hso Hs. destruct ev as [|e woken|timed|i|i|i]; [|by eapply winv_engine| | | |]; simpl in Hs.
  - destruct (submitted m); simplify_eq. destruct Hv as [H1 H2 H3]. by split.
  - simplify_eq. apply winv_enter; [done|done|]. simpl. by destruct (submitted m).
  - destruct (waits m !! i) as [[b []]|] eqn:Hi; simplify_eq. eapply winv_set; [done|done|done|]. simpl. unfold dag_wait_test. by case_if.
  - destruct (waits m !! i) as [[b []]|] eqn:Hi; simplify_eq. by eapply winv_set.
  - destruct (waits m !! i) as [[[] []]|] eqn:Hi; simplify_eq. by eapply winv_set.
Qed.

Lemma winv_run evs : forall m m', winv m -> solo m evs = true -> mrun m evs = Some m' -> winv m'.
Proof.
  induction evs as [|ev evs IH]; intros m m' Hv Hso Hr; simpl in *; [by simplify_eq|].
  apply andb_prop in Hso as [Hso1 Hso2]. destruct (mstep m ev) as [m1|] eqn:Hs; [|done].
  eapply IH; [by eapply winv_step|done|done].
Qed.

Lemma winv_start : winv dagmon_start.
Proof.
  destruct Hsub as (Hw & _ & Hc). split; simpl; [split; [by apply einv_init|by apply (ninv_init d Hw)]| |]; intros *; by rewrite lookup_nil.
Qed.

Lemma mrun_app m evs1 evs2 m' :
  mrun m (evs1 ++ evs2) = Some m' <-> exists m1, mrun m evs1 = Some m1 /\ mrun m1 evs2 = Some m'.
Proof.
  revert m. induction evs1 as [|ev evs1 IH]; intros m; simpl; [naive_solver|]. destruct (mstep m ev); [apply IH|naive_solver].
Qed.

(** The step in which a wait returned OK. *)
Lemma fresh_return m ev m' i b :
  mstep m ev = Some m' -> waits m' !! i = Some (b, DRet LOOMWORKS_OK) ->
  waits m !! i = Some (b, DRet LOOMWORKS_OK) \/
  eng m' = eng m /\ dag_drained added (eng m) = true /\ dag_wait_result (eng m) = LOOMWORKS_OK.
Proof.
  intros Hs Hi. destruct ev as [|e woken|timed|k|k|k]; simpl in Hs.
  - destruct (submitted m); simplify_eq. by left.
  - destruct (submitted m); [|done]. destruct (estep d (eng m) e) as [s|]; [|done]. left. destruct (tests_drained e && _).
    + apply fmap_Some in Hs as (ws & Hws & ->). destruct woken as [k|]; simpl in *;
        [|destruct (forallb _ _); by simplify_eq].
      destruct (waits m !! k) as [[b' []]|] eqn:Hk; simplify_eq.
      by apply list_lookup_insert_Some in Hi as [(_ & ? & _)|[_ Hi]].
    + case_bool_decide; by simplify_eq.
  - simplify_eq. apply lookup_snoc_Some in Hi as [[_ Hi]|[_ Hi]]; [by left|]. by destruct (submitted m).
  - destruct (waits m !! k) as [[b' []]|] eqn:Hk; simplify_eq. apply list_lookup_insert_Some in Hi as [(_ & Hx & _)|[_ Hi]]; [|by left].
    unfold dag_wait_test in Hx. destruct (dag_drained added (eng m)) eqn:Hd; simplify_eq. by right.
  - destruct (waits m !! k) as [[b' []]|] eqn:Hk; simplify_eq. by apply list_lookup_insert_Some in Hi as [(_ & ? & _)|[_ Hi]]; [|left].
  - destruct (waits m !! k) as [[[] []]|] eqn:Hk; simplify_eq. by apply list_lookup_insert_Some in Hi as [(_ & ? & _)|[_ Hi]]; [|left].
Qed.

Lemma engine_events_snoc evs ev e : e ∈ engine_events evs -> e ∈ engine_events (evs ++ [ev]).
Proof. intros H. unfold engine_events. rewrite omap_app, elem_of_app. by left. Qed.

(** A wait that returned OK came after every function. *)
Lemma ok_complete evs : forall m i b v,
  mrun dagmon_start evs = Some m -> waits m !! i = Some (b, DRet LOOMWORKS_OK) -> v ∈ added_ids d ->
  exists st, EvFinish v st ∈ engine_events evs.
Proof.
  induction evs as [|ev evs IH] using rev_ind; intros m' i b v Hr Hi Hv; [by simplify_eq/=|].
  apply mrun_app in Hr as (m & Hr1 & Hr). simpl in Hr. destruct (mstep m ev) as [m1|] eqn:Hs; simplify_eq.
  destruct (fresh_return _ _ _ _ _ Hs Hi) as [Ho|(_ & Hd & Hrc)].
  - destruct (IH m i b v Hr1 Ho Hv) as [st ?]. exists st. by apply engine_events_snoc.
  - pose proof (mrun_engine _ _ _ Hr1) as He. simpl in He. destruct Hsub as (Hw & _ & Hc). destruct (run_inv d Hw Hc _ _ He) as [_ Hn].
    assert (Hf : e_failed (eng m) = false).
    { destruct (e_failed (eng m)) eqn:Hf; [|done]. pose proof (n_ferr _ _ Hn Hf). unfold dag_wait_result in Hrc. by rewrite Hf in Hrc. }
    destruct (drained_complete d _ _ v Hsub He Hd Hf Hv) as (_ & _ & _ & st & ?). exists st. by apply engine_events_snoc.
Qed.

End Sound.
End Wait.

(** C8. Waiting for a DAG, one thread at a time: a thread sleeps in loom_dag_wait
    or loom_dag_wait_timeout only while the DAG is not drained; when the engine
    has no step left (which happens after a bounded number of steps), no thread
    sleeps and the next test of every thread inside returns the recorded result;
    and a wait that returned LOOMWORKS_OK did so after the function of every
    node had returned. *)
Theorem dag_wait_returns d evs m :
  submittable d -> mrun d (dagmon_start d) evs = Some m -> solo d (dagmon_start d) evs = true ->
  (forall i b, waits m !! i = Some (b, DAsleep) -> dag_drained (Z.of_nat (length (added_ids d))) (eng m) = false) /\
  ((forall ev, estep d (eng m) ev = None) ->
     forall i b x, waits m !! i = Some (b, x) ->
       (exists rc, x = DRet rc) \/ x = DTest /\ dag_wait_test d (eng m) = DRet (dag_wait_result (eng m))) /\
  (forall i b v, waits m !! i = Some (b, DRet LOOMWORKS_OK) -> v ∈ added_ids d -> exists st, EvFinish v st ∈ engine_events evs).
Proof.
  intros Hsub Hr Hso. pose proof (winv_run d Hsub _ _ _ (winv_start d Hsub) Hso Hr) as Hv. split_and!.
  - intros i b Hi. by apply (wi_wake _ _ Hv i b).
  - intros Hst i b x Hi. destruct (stuck_drained d _ _ Hsub (mrun_engine d _ _ _ Hr) Hst) as [Hd _].
    destruct x as [| |rc]; [right|exfalso|left; by exists rc].
    + split; [done|]. unfold dag_wait_test. by rewrite Hd.
    + pose proof (wi_wake _ _ Hv i b Hi). congruence.
  - intros i b v. by apply ok_complete.
Qed.

(** A thread that begins to wait at once and is woken by the last runner. *)
Definition waiting_run : list mevent :=
  [MWait false; MSubmit; MWait true; MTest 1] ++ ((fun ev => MEng ev None) <$> take 28 full_run) ++
  [MEng (EvDrain 1) (Some 1%nat); MTest 1].

Lemma dag_wait_returns_witness :
  exists m, mrun sample_dag (dagmon_start sample_dag) waiting_run = Some m /\
    waits m = [(false, DRet LOOMWORKS_ERR_INVALID); (true, DRet LOOMWORKS_OK)] /\
    exists st, EvFinish 1 st ∈ engine_events waiting_run.
Proof.
  destruct (mrun sample_dag (dagmon_start sample_dag) waiting_run) as [m|] eqn:E; [|vm_compute in E; discriminate E].
  assert (Hw : waits <$> mrun sample_dag (dagmon_start sample_dag) waiting_run =
    Some [(false, DRet LOOMWORKS_ERR_INVALID); (true, DRet LOOMWORKS_OK)]) by (vm_compute; reflexivity).
  rewrite E in Hw. injection Hw as Hw. exists m. split; [reflexivity|]. split; [exact Hw|].
  refine (proj2 (proj2 (dag_wait_returns sample_dag waiting_run m sample_submittable E _)) 1%nat true 1%nat _ _).
  - vm_compute. reflexivity.
  - by rewrite Hw.
  - vm_compute. repeat constructor.
Defined.

(** With two threads in loom_dag_wait the signal wakes one of them: the DAG is
    drained, the engine has no step left and the other thread stays asleep. *)
Theorem second_waiter_sleeps :
  exists evs m, mrun sample_dag (dagmon_start sample_dag) evs = Some m /\
    dag_drained 3 (eng m) = true /\ waits m !! 1%nat = Some (false, DAsleep) /\
    acts (eng m) None = ADone [] /\ forall v, v ∈ added_ids sample_dag -> acts (eng m) (Some v) = ADone [].
Proof.
  exists ([MSubmit; MWait false; MWait false; MTest 0; MTest 1] ++ ((fun ev => MEng ev None) <$> take 28 full_run) ++
          [MEng (EvDrain 1) (Some 0%nat); MTest 0]).
  eexists. split; [vm_compute; reflexivity|]. split_and!; try reflexivity.
  intros v Hv. assert (Hl : added_ids sample_dag = [0; 1; 2]%nat) by reflexivity. rewrite Hl in Hv.
  repeat (apply elem_of_cons in Hv as [->|Hv]; [reflexivity|]). by apply not_elem_of_nil in Hv.
Qed.
