(* ===== verification/Pool.v ===== *)
(** * The pool's task flow (src/thread_pool.c: the submit funnel, the worker's
    locked pass, cancellation, shutdown and resize).

    Any number of producers, cancellers and workers share one pool.  The ring,
    the per-worker deques, the priority lanes and the cancel index appear here
    through the behaviour their own files prove: a FIFO of claimed and then
    published cells (Ring.v, RingConc.v), double-ended queues (Deque.v), one
    FIFO per priority (Lanes.v), a set of ids (CancelIndex.v); a task node is
    named by its task id, since no two live tasks share a node (NodePool.v).

    A step is one critical section of [pool->lock] or one lock-free access: a
    producer on the ring path creates its node and counts it, claims a cell,
    publishes it and posts its token in separate steps, and a worker's pass
    (exit checks, dequeue steps 0 to 4 and the run boundary) is one step.
    Coroutine tasks enter and leave the lanes like any other task; what the
    worker does with them after their start is the coroutine scheduler's
    business. *)
From S2P Require Import Prelude Types.

(** ** State *)

(** The parts of a task node that submission fixes. *)
Record request := mk_request {
  r_fn : ptr;
  r_data : ptr;
  r_prio : Z;                (* uint8_t *)
  r_free_data : bool;
  r_is_future : bool;        (* fn == future_task_wrapper *)
  r_is_coro : bool;
}.

Record queues := mk_queues {
  qlen : Z;                          (* queue_len, uint32_t *)
  ring : list (nat * bool);          (* claimed cells, oldest first; [true] = published *)
  deques : list (list nat);          (* per worker, newest first *)
  lanes : list (list nat);           (* one bucket per priority, oldest first *)
  index : gset nat;                  (* cancel index *)
  tombs : gset nat;                  (* tasks whose node has [cancelled] set *)
}.

(** A producer inside a submit call. *)
Inductive pstate :=
  | PIdle
  | PWaiting (r : request)           (* about to enter wait_for_space *)
  | PBlocked (r : request)           (* inside pthread_cond_timedwait *)
  | PRing (r : request)              (* committed to the ring path *)
  | PLane (r : request)              (* committed to the lane path *)
  | PCounted (t : nat)               (* node created, queue_len incremented *)
  | PClaimed (t : nat)               (* owns a ring cell, not yet published *)
  | PRefused (t : nat)               (* the ring refused *)
  | PSpill (t : nat)                 (* queue_len restored, going to the lane *)
  | PUncounted (t : nat)             (* cell published, ring_count not yet incremented *)
  | PPost (t : nat)                  (* visible to workers, token to be posted *)
  | PRet (rc : loom_result_t).

Inductive wstate :=
  | WLoop                            (* about to take the lock *)
  | WWait                            (* in sem_wait *)
  | WRun (t : nat)                   (* running a task, lock released *)
  | WExit                            (* left worker_entry, not joined *)
  | WDead.                           (* no thread in this slot *)

Inductive outcome :=
  | Accepted (t : nat)               (* the task is in the ring or a lane *)
  | Dropped (t : nat)                (* node destroyed, the submit failed *)
  | Started (t : nat)
  | Finished (t : nat)
  | Cancelled (t : nat)              (* a cancel call claimed the task *)
  | Released (t : nat).              (* a worker drained a cancelled task *)

Record pool := mk_pool {
  queue_capacity : Z;                (* uint32_t, 0 = unbounded *)
  ring_slots : nat;
  ring_mode : bool;                  (* ring != NULL && deques != NULL *)
  worker_count : nat;
  qs : queues;
  reqs : gmap nat request;           (* contents of the nodes, by task id *)
  next_id : nat;                     (* id of the last node created *)
  shutdown : bool;
  draining : bool;
  joined : bool;
  work_sem : nat;
  prods : list pstate;
  workers : list wstate;
  log : list outcome;                (* newest first *)
}.

#[export] Instance request_eq_dec : EqDecision request. Proof. solve_decision. Defined.
#[export] Instance pstate_eq_dec : EqDecision pstate. Proof. solve_decision. Defined.
#[export] Instance wstate_eq_dec : EqDecision wstate. Proof. solve_decision. Defined.
#[export] Instance outcome_eq_dec : EqDecision outcome. Proof. solve_decision. Defined.
#[export] Instance pstate_inhabited : Inhabited pstate := populate PIdle.
#[export] Instance wstate_inhabited : Inhabited wstate := populate WDead.
#[export] Instance request_inhabited : Inhabited request := populate (mk_request 0 0 0 false false false).

(** ** Queue operations used by the pool *)

Definition with_qlen (q : queues) (n : Z) : queues := mk_queues n (ring q) (deques q) (lanes q) (index q) (tombs q).

(** loom_enqueue_unlocked. *)
Definition lane_put (q : queues) (b : nat) (t : nat) : queues :=
  mk_queues (qlen q +32 1) (ring q) (deques q) (<[b := (lanes q !!! b) ++ [t]]> (lanes q)) (index q) (tombs q).

(** dequeue_lowest_priority_unlocked: head of the first non-empty bucket among
    the first [S mx]. *)
Fixpoint lane_pop (L : list (list nat)) (mx : nat) : option (nat * list (list nat)) :=
  match L with
  | [] => None
  | (t :: l) :: L => Some (t, l :: L)
  | [] :: L =>
      match mx with
      | O => None
      | S m => match lane_pop L m with Some (t, L') => Some (t, [] :: L') | None => None end
      end
  end.

(** ring_bulk_try_dequeue: the longest published prefix, at most [n] cells. *)
Fixpoint ring_bulk (n : nat) (l : list (nat * bool)) : list nat * list (nat * bool) :=
  match n, l with
  | S n', (t, true) :: l' => let '(b, r) := ring_bulk n' l' in (t :: b, r)
  | _, _ => ([], l)
  end.

Definition ring_has_work (q : queues) : bool := match ring q with (_, true) :: _ => true | _ => false end.

Definition deque_steal (l : list nat) : option (nat * list nat) :=
  match rev l with [] => None | t :: r => Some (t, rev r) end.

(** Step 2: the batch goes to the worker's own deque; what does not fit is run
    now (the first) or spilled to its lane (the others). *)
Fixpoint push_batch (prio : nat -> nat) (idx : nat) (i : nat) (batch : list nat) (q : queues) (task : option nat)
  : queues * option nat :=
  match batch with
  | [] => (q, task)
  | t :: batch =>
      if (length (deques q !!! idx) <? Z.to_nat LOOMWORKS_DEQUE_CAPACITY)%nat then
        push_batch prio idx (S i) batch
          (mk_queues (qlen q) (ring q) (<[idx := t :: (deques q !!! idx)]> (deques q)) (lanes q) (index q) (tombs q)) task
      else if (i =? 0)%nat then push_batch prio idx (S i) batch q (Some t)
      else push_batch prio idx (S i) batch
             (lane_put (mk_queues (qlen q -32 1) (ring q) (deques q) (lanes q) (index q ∖ {[t]}) (tombs q)) (prio t) t) task
  end.

Definition pop_own (idx : nat) (q : queues) : option (nat * queues) :=
  match deques q !!! idx with
  | [] => None
  | t :: l => Some (t, mk_queues (qlen q) (ring q) (<[idx := l]> (deques q)) (lanes q) (index q) (tombs q))
  end.

(** Step 3: the victims in order. *)
Fixpoint steal_from (victims : list nat) (idx : nat) (q : queues) : option (nat * queues) :=
  match victims with
  | [] => None
  | v :: vs =>
      if (v =? idx)%nat then steal_from vs idx q
      else match deque_steal (deques q !!! v) with
           | Some (t, l) => Some (t, mk_queues (qlen q) (ring q) (<[v := l]> (deques q)) (lanes q) (index q) (tombs q))
           | None => steal_from vs idx q
           end
  end.

Definition victims (wc idx : nat) (probing : bool) : list nat :=
  if probing then (fun try => ((idx + 1 + try * 2) mod wc)%nat) <$> seq 0 LOOMWORKS_STEAL_TRIES
  else (fun v => ((idx + 1 + v) mod wc)%nat) <$> seq 0 (wc - 1).

Definition lane_take (q : queues) (mx : nat) : option (nat * queues) :=
  match lane_pop (lanes q) mx with
  | Some (t, L) => Some (t, mk_queues (qlen q -32 1) (ring q) (deques q) L (index q) (tombs q))
  | None => None
  end.

(** Step 2 as a whole; [cas_ok] = false is a spurious failure of the weak
    compare-and-swap on ring_head. *)
Definition refill (prio : nat -> nat) (idx : nat) (cas_ok : bool) (q : queues) : queues * option nat :=
  let '(batch, rest) := if cas_ok then ring_bulk LOOMWORKS_BULK_DEQUEUE (ring q) else ([], ring q) in
  let '(q1, task) := push_batch prio idx 0 batch (mk_queues (qlen q) rest (deques q) (lanes q) (index q) (tombs q)) None in
  match task with
  | Some t => (q1, Some t)
  | None => match pop_own idx q1 with Some (t, q2) => (q2, Some t) | None => (q1, None) end
  end.

(** Steps 0 to 4: the task taken and whether it came through the ring. *)
Definition take_task (prio : nat -> nat) (rmode : bool) (wc idx : nat) (cas_ok : bool) (q : queues)
  : queues * option (nat * bool) :=
  match lane_take q 4 with
  | Some (t, q') => (q', Some (t, false))
  | None =>
      match (if rmode then pop_own idx q else None) with
      | Some (t, q') => (q', Some (t, true))
      | None =>
          let '(q1, r) := if rmode then refill prio idx cas_ok q else (q, None) in
          match r with
          | Some t => (q1, Some (t, true))
          | None =>
              match (if rmode && (1 <? wc)%nat then steal_from (victims wc idx (ring_has_work q1)) idx q1 else None) with
              | Some (t, q') => (q', Some (t, true))
              | None =>
                  if negb rmode || negb (ring_has_work q1) then
                    match lane_take q1 255 with Some (t, q') => (q', Some (t, false)) | None => (q1, None) end
                  else (q1, None)
              end
          end
      end
  end.

(** The spill of a displaced worker's deque, newest task first. *)
Fixpoint spill_deque (prio : nat -> nat) (ts : list nat) (q : queues) : queues :=
  match ts with
  | [] => q
  | t :: ts =>
      spill_deque prio ts
        (lane_put (mk_queues (qlen q -32 1) (ring q) (deques q) (lanes q) (index q ∖ {[t]}) (tombs q)) (prio t) t)
  end.

(** ** Steps *)

Inductive pevent :=
  | EvSubmit (k : nat) (r : request) (block : bool)   (* entry checks of enqueue_task *)
  | EvSubmitCoro (k : nat) (r : request) (timer_ok : bool)
  | EvWaitEnter (k : nat)                             (* wait_for_space takes the lock *)
  | EvWake (k : nat) (timed_out : bool)               (* pthread_cond_timedwait returns *)
  | EvCreate (k : nat) (ok : bool)                    (* task_create, then queue_len++ *)
  | EvClaim (k : nat) (ok indexed : bool)             (* ring cell claimed (or refused) *)
  | EvPublish (k : nat)
  | EvCount (k : nat)                                 (* ring_count++ *)
  | EvUndo (k : nat)                                  (* queue_len-- after a refusal *)
  | EvSpill (k : nat)
  | EvLane (k : nat) (ok : bool)
  | EvPost (k : nat)
  | EvPass (w : nat) (cas_ok : bool)                  (* one locked pass of worker w *)
  | EvToken (w : nat)                                 (* sem_wait returns *)
  | EvFinish (w : nat)
  | EvCancelId (t : nat)
  | EvCancelData (d : ptr) (pick : option nat)        (* pick: the first match of the index scan *)
  | EvCancelAll
  | EvShutdown
  | EvJoin (w : nat)
  | EvJoined
  | EvResize (n : nat).

(** The lane bucket of a request: its priority as a uint8_t. *)
Definition lane_of (r : request) : nat := Z.to_nat (u8 (r_prio r)).
Definition prio_of (p : pool) (t : nat) : nat := lane_of (reqs p !!! t).

Definition set_prod (p : pool) (k : nat) (x : pstate) : pool :=
  mk_pool (queue_capacity p) (ring_slots p) (ring_mode p) (worker_count p) (qs p) (reqs p) (next_id p) (shutdown p)
    (draining p) (joined p) (work_sem p) (<[k := x]> (prods p)) (workers p) (log p).
Definition set_worker (p : pool) (w : nat) (x : wstate) : pool :=
  mk_pool (queue_capacity p) (ring_slots p) (ring_mode p) (worker_count p) (qs p) (reqs p) (next_id p) (shutdown p)
    (draining p) (joined p) (work_sem p) (prods p) (<[w := x]> (workers p)) (log p).
Definition set_qs (p : pool) (q : queues) : pool :=
  mk_pool (queue_capacity p) (ring_slots p) (ring_mode p) (worker_count p) q (reqs p) (next_id p) (shutdown p)
    (draining p) (joined p) (work_sem p) (prods p) (workers p) (log p).
Definition add_log (p : pool) (l : list outcome) : pool :=
  mk_pool (queue_capacity p) (ring_slots p) (ring_mode p) (worker_count p) (qs p) (reqs p) (next_id p) (shutdown p)
    (draining p) (joined p) (work_sem p) (prods p) (workers p) (l ++ log p).
Definition post (p : pool) (n : nat) : pool :=
  mk_pool (queue_capacity p) (ring_slots p) (ring_mode p) (worker_count p) (qs p) (reqs p) (next_id p) (shutdown p)
    (draining p) (joined p) (work_sem p + n) (prods p) (workers p) (log p).

(** task_create: a fresh id for the request. *)
Definition new_task (p : pool) (r : request) : nat * pool :=
  let t := S (next_id p) in
  (t, mk_pool (queue_capacity p) (ring_slots p) (ring_mode p) (worker_count p) (qs p) (<[t := r]> (reqs p)) t
        (shutdown p) (draining p) (joined p) (work_sem p) (prods p) (workers p) (log p)).

Definition at_capacity (p : pool) : bool := negb (queue_capacity p =? 0) && (queue_capacity p <=? qlen (qs p)).

(** The routing at the end of enqueue_task. *)
Definition route (p : pool) (r : request) : pstate :=
  if (u8 (r_prio r) =? LOOMWORKS_PRIORITY_NORMAL) && ring_mode p then PRing r else PLane r.

(** enqueue_task up to the routing. *)
Definition enqueue_task (p : pool) (r : request) (block : bool) : pstate :=
  if shutdown p then PRet LOOMWORKS_ERR_SHUTDOWN
  else if at_capacity p then if block then PWaiting r else PRet LOOMWORKS_ERR_INVALID
  else route p r.

(** The loop head of wait_for_space, and its body after a wake-up. *)
Definition wait_for_space (p : pool) (r : request) : pstate :=
  if (queue_capacity p <=? qlen (qs p)) && negb (shutdown p) then PBlocked r else route p r.

Definition wait_for_space_woken (p : pool) (r : request) (timed_out : bool) : pstate :=
  if timed_out || shutdown p || draining p
  then PRet (if shutdown p then LOOMWORKS_ERR_SHUTDOWN else LOOMWORKS_ERR_TIMEOUT)
  else wait_for_space p r.

(** enqueue_lane_task (and the locked part of loom_pool_submit_coroutine_ex). *)
Definition enqueue_lane_task (p : pool) (k : nat) (r : request) (ok : bool) : pool :=
  if shutdown p || draining p then set_prod p k (PRet LOOMWORKS_ERR_SHUTDOWN)
  else if (0 <? queue_capacity p) && (queue_capacity p <=? qlen (qs p)) then set_prod p k (PRet LOOMWORKS_ERR_INVALID)
  else if negb ok then set_prod p k (PRet LOOMWORKS_ERR_ALLOC)
  else let '(t, p1) := new_task p r in
       add_log (post (set_prod (set_qs p1 (lane_put (qs p1) (lane_of r) t)) k (PRet LOOMWORKS_OK)) 1) [Accepted t].

(** spill_to_normal_lane. *)
Definition spill_to_normal_lane (p : pool) (k : nat) (t : nat) : pool :=
  if shutdown p || draining p then add_log (set_prod p k (PRet LOOMWORKS_ERR_SHUTDOWN)) [Dropped t]
  else if at_capacity p then add_log (set_prod p k (PRet LOOMWORKS_ERR_INVALID)) [Dropped t]
  else add_log (set_prod (set_qs p (lane_put (qs p) (prio_of p t) t)) k (PPost t)) [Accepted t].

(** The steps of enqueue_ring_task. *)
Definition enqueue_ring_task (p : pool) (ev : pevent) : option pool :=
  match ev with
  | EvCreate k ok =>
      match prods p !! k with
      | Some (PRing r) =>
          if ok then let '(t, p1) := new_task p r in
                     Some (set_prod (set_qs p1 (with_qlen (qs p1) (qlen (qs p1) +32 1))) k (PCounted t))
          else Some (set_prod p k (PRet LOOMWORKS_ERR_ALLOC))
      | _ => None
      end
  | EvClaim k ok indexed =>
      match prods p !! k with
      | Some (PCounted t) =>
          let q := qs p in
          if ok then
            if (length (ring q) <? ring_slots p)%nat then
              Some (add_log (set_prod (set_qs p (mk_queues (qlen q) (ring q ++ [(t, false)]) (deques q) (lanes q)
                (if indexed then index q ∪ {[t]} else index q) (tombs q))) k (PClaimed t)) [Accepted t])
            else None
          else Some (set_prod p k (PRefused t))
      | _ => None
      end
  | EvPublish k =>
      match prods p !! k with
      | Some (PClaimed t) =>
          let q := qs p in
          Some (set_prod (set_qs p (mk_queues (qlen q)
            ((fun c => if (fst c =? t)%nat then (t, true) else c) <$> ring q) (deques q) (lanes q) (index q) (tombs q))) k (PUncounted t))
      | _ => None
      end
  | EvCount k => match prods p !! k with Some (PUncounted t) => Some (set_prod p k (PPost t)) | _ => None end
  | EvUndo k =>
      match prods p !! k with
      | Some (PRefused t) => Some (set_prod (set_qs p (with_qlen (qs p) (qlen (qs p) -32 1))) k (PSpill t))
      | _ => None
      end
  | EvSpill k => match prods p !! k with Some (PSpill t) => Some (spill_to_normal_lane p k t) | _ => None end
  | EvPost k => match prods p !! k with Some (PPost t) => Some (post (set_prod p k (PRet LOOMWORKS_OK)) 1) | _ => None end
  | _ => None
  end.

(** ring_count (uint32_t): incremented after the cell is published, decremented
    by the bulk dequeue in the critical section that takes the cells. *)
Definition uncounted (x : pstate) : nat := match x with PUncounted _ => 1 | _ => 0 end.
Definition ring_count (p : pool) : Z :=
  u32 (Z.of_nat (length (filter (fun c => snd c = true) (ring (qs p)))) - Z.of_nat (sum_list_with uncounted (prods p))).

(** One locked pass of worker_entry. *)
Definition worker_pass (p : pool) (w : nat) (cas_ok : bool) : pool :=
  let q := qs p in
  if (worker_count p <=? w)%nat && negb (shutdown p) then
    let q0 := mk_queues (qlen q) (ring q) (<[w := []]> (deques q)) (lanes q) (index q) (tombs q) in
    set_worker (post (set_qs p (spill_deque (prio_of p) (deques q !!! w) q0)) 1) w WExit
  else if shutdown p && (qlen q =? 0) && (ring_count p =? 0) && forallb (fun l => (length l =? 0)%nat) (deques q)
  then set_worker p w WExit
  else
    match take_task (prio_of p) (ring_mode p) (worker_count p) w cas_ok q with
    | (q', None) => set_worker (set_qs p q') w (if shutdown p then WLoop else WWait)
    | (q', Some (t, from_ring)) =>
        let q1 := if from_ring then mk_queues (qlen q') (ring q') (deques q') (lanes q') (index q' ∖ {[t]}) (tombs q') else q' in
        if bool_decide (t ∈ tombs q1) then add_log (set_worker (set_qs p q1) w WLoop) [Released t]
        else add_log (set_worker (set_qs p (if from_ring then with_qlen q1 (qlen q1 -32 1) else q1)) w (WRun t)) [Started t]
    end.

(** The claim of an indexed task by a canceller. *)
Definition claim (p : pool) (t : nat) : pool :=
  let q := qs p in
  add_log (set_qs p (mk_queues (qlen q -32 1) (ring q) (deques q) (lanes q) (index q ∖ {[t]}) (tombs q ∪ {[t]}))) [Cancelled t].

(** The lane walk of the cancel functions: the first task in bucket order that
    satisfies the test, unlinked. *)
Fixpoint lane_remove (test : nat -> bool) (L : list (list nat)) : option (nat * list (list nat)) :=
  match L with
  | [] => None
  | l :: L =>
      match list_find (fun t => test t = true) l with
      | Some (i, t) => Some (t, delete i l :: L)
      | None => match lane_remove test L with Some (t, L') => Some (t, l :: L') | None => None end
      end
  end.

Definition cancel_lane (p : pool) (test : nat -> bool) : loom_result_t * pool :=
  let q := qs p in
  match lane_remove (fun t => test t && negb (bool_decide (t ∈ tombs q))) (lanes q) with
  | Some (t, L) =>
      (LOOMWORKS_OK, add_log (set_qs p (mk_queues (qlen q -32 1) (ring q) (deques q) L (index q) (tombs q))) [Released t; Cancelled t])
  | None => (LOOMWORKS_ERR_INVALID, p)
  end.

Definition loom_pool_cancel_by_id (p : pool) (t : nat) : loom_result_t * pool :=
  if shutdown p then (LOOMWORKS_ERR_SHUTDOWN, p)
  else if bool_decide (t ∈ index (qs p)) then
    if bool_decide (t ∈ tombs (qs p)) then (LOOMWORKS_ERR_INVALID, p) else (LOOMWORKS_OK, claim p t)
  else cancel_lane p (fun u => (u =? t)%nat).

(** loom_pool_cancel; [pick] is the task the scan of the index slots meets
    first, [None] when none matches (anything else is not an execution). *)
Definition loom_pool_cancel (p : pool) (d : ptr) (pick : option nat) : option (loom_result_t * pool) :=
  let matches t := (r_data (reqs p !!! t) =? d) && negb (bool_decide (t ∈ tombs (qs p))) in
  if d =? NULL then Some (LOOMWORKS_ERR_INVALID, p)
  else if shutdown p then Some (LOOMWORKS_ERR_SHUTDOWN, p)
  else match pick with
       | Some t => if bool_decide (t ∈ index (qs p)) && matches t then Some (LOOMWORKS_OK, claim p t) else None
       | None => if forallb (fun t => negb (matches t)) (elements (index (qs p)))
                 then Some (cancel_lane p (fun u => r_data (reqs p !!! u) =? d)) else None
       end.

(** loom_pool_cancel_all: the new state and the count it reports. *)
Definition loom_pool_cancel_all (p : pool) : pool * Z :=
  let q := qs p in
  if shutdown p then (p, 0)
  else
    let claimed := filter (fun t => t ∉ tombs q) (elements (index q)) in
    let inlane := concat (lanes q) in
    let n := Z.of_nat (length claimed + length inlane) in
    (add_log (set_qs p (mk_queues (qlen q -32 n) (ring q) (deques q) ((fun _ => []) <$> lanes q)
                         (index q ∖ list_to_set claimed) (tombs q ∪ list_to_set claimed)))
       ((Released <$> inlane) ++ (Cancelled <$> inlane) ++ (Cancelled <$> claimed)), u32 n).

(** loom_pool_shutdown, before the joins. *)
Definition loom_pool_shutdown (p : pool) : pool :=
  if joined p then p
  else mk_pool (queue_capacity p) (ring_slots p) (ring_mode p) (worker_count p) (qs p) (reqs p) (next_id p) true true
         (joined p) (work_sem p + worker_count p) (prods p) (workers p) (log p).

Definition alive (x : wstate) : bool := match x with WDead => false | _ => true end.

(** Its end, once every worker was joined. *)
Definition shutdown_joined (p : pool) : pool :=
  mk_pool (queue_capacity p) (ring_slots p) (ring_mode p) (worker_count p) (qs p) (reqs p) (next_id p) (shutdown p) false
    true (work_sem p) (prods p) (workers p) (log p).

(** loom_pool_resize when every allocation and thread creation succeeds: the
    per-worker arrays grow, the free slots below [n] get a thread, and every
    old worker gets a token. *)
Definition loom_pool_resize (p : pool) (n : nat) : loom_result_t * pool :=
  if (n =? 0)%nat then (LOOMWORKS_ERR_INVALID, p)
  else if (n =? worker_count p)%nat then (LOOMWORKS_OK, p)
  else if shutdown p then (LOOMWORKS_ERR_SHUTDOWN, p)
  else
    let q := qs p in
    let extra := (n - length (workers p))%nat in
    let ws := workers p ++ replicate extra WDead in
    let spawn := imap (fun i x => if (worker_count p <=? i)%nat && (i <? n)%nat && negb (alive x) then WLoop else x) ws in
    (LOOMWORKS_OK,
     mk_pool (queue_capacity p) (ring_slots p) (ring_mode p) n
       (mk_queues (qlen q) (ring q) (deques q ++ replicate extra []) (lanes q) (index q) (tombs q))
       (reqs p) (next_id p) (shutdown p) (draining p) (joined p) (work_sem p + worker_count p) (prods p) spawn (log p)).

(** The node loom_pool_submit_coroutine_ex fills in. *)
Definition coro_request (r : request) : request :=
  mk_request (r_fn r) (r_data r) LOOMWORKS_PRIORITY_NORMAL false false true.

Definition pstep (p : pool) (ev : pevent) : option pool :=
  match ev with
  | EvSubmit k r block =>
      match prods p !! k with
      | Some (PIdle | PRet _) => Some (set_prod p k (enqueue_task p r block))
      | _ => None
      end
  | EvSubmitCoro k r timer_ok =>
      match prods p !! k with
      | Some (PIdle | PRet _) =>
          Some (set_prod p k (if shutdown p then PRet LOOMWORKS_ERR_SHUTDOWN
                              else if timer_ok then PLane (coro_request r) else PRet LOOMWORKS_ERR_ALLOC))
      | _ => None
      end
  | EvWaitEnter k => match prods p !! k with Some (PWaiting r) => Some (set_prod p k (wait_for_space p r)) | _ => None end
  | EvWake k timed_out =>
      match prods p !! k with Some (PBlocked r) => Some (set_prod p k (wait_for_space_woken p r timed_out)) | _ => None end
  | EvLane k ok => match prods p !! k with Some (PLane r) => Some (enqueue_lane_task p k r ok) | _ => None end
  | EvPass w cas_ok => match workers p !! w with Some WLoop => Some (worker_pass p w cas_ok) | _ => None end
  | EvToken w =>
      match workers p !! w, work_sem p with
      | Some WWait, S n =>
          Some (set_worker (mk_pool (queue_capacity p) (ring_slots p) (ring_mode p) (worker_count p) (qs p) (reqs p) (next_id p)
                  (shutdown p) (draining p) (joined p) n (prods p) (workers p) (log p)) w WLoop)
      | _, _ => None
      end
  | EvFinish w => match workers p !! w with Some (WRun t) => Some (add_log (set_worker p w WLoop) [Finished t]) | _ => None end
  | EvCancelId t => Some (loom_pool_cancel_by_id p t).2
  | EvCancelData d pick => snd <$> loom_pool_cancel p d pick
  | EvCancelAll => Some (loom_pool_cancel_all p).1
  | EvShutdown => Some (loom_pool_shutdown p)
  | EvJoin w =>
      match workers p !! w with
      | Some WExit => if shutdown p || (worker_count p <=? w)%nat then Some (set_worker p w WDead) else None
      | _ => None
      end
  | EvJoined => if shutdown p && forallb (fun x => negb (alive x)) (workers p) then Some (shutdown_joined p) else None
  | EvResize n =>
      (* a resize joins the workers it displaced before it returns *)
      if forallb (fun x => negb (alive x)) (drop (worker_count p) (workers p)) then Some (loom_pool_resize p n).2 else None
  | _ => enqueue_ring_task p ev
  end.

(** loom_pool_create: empty queues, [n] running workers, [k] producer threads. *)
Definition pool_start (cap : Z) (slots n k : nat) (rmode : bool) : pool :=
  mk_pool cap slots rmode n (mk_queues 0 [] (replicate n []) (replicate LOOMWORKS_PRIORITY_BUCKETS []) ∅ ∅)
    ∅ 1 false false false 0 (replicate k PIdle) (replicate n WLoop) [].

Fixpoint prun (p : pool) (evs : list pevent) : option pool :=
  match evs with
  | [] => Some p
  | ev :: evs => match pstep p ev with Some p' => prun p' evs | None => None end
  end.

(** ** Where the tasks are *)

(** Tasks that went through the ring, and all pending tasks. *)
Definition ringed (q : queues) : list nat := (fst <$> ring q) ++ concat (deques q).
Definition waiting (q : queues) : list nat := ringed q ++ concat (lanes q).

Definition held_by (x : pstate) : list nat :=
  match x with PCounted t | PRefused t | PSpill t => [t] | _ => [] end.
Definition ended (o : outcome) : list nat :=
  match o with Dropped t | Started t | Released t => [t] | _ => [] end.
Definition held (ps : list pstate) : list nat := concat (held_by <$> ps).
Definition gone (l : list outcome) : list nat := concat (ended <$> l).

(** Every node ever created, by where it is now. *)
Definition universe (p : pool) : list nat := waiting (qs p) ++ held (prods p) ++ gone (log p).

Definition q_shape (n : nat) (q : queues) : Prop := length (lanes q) = 256%nat /\ length (deques q) = n.

Lemma lane_of_lt r : (lane_of r < 256)%nat.
Proof. unfold lane_of, u8. pose proof (Z.mod_pos_bound (r_prio r) (2 ^ 8)). lia. Qed.

Lemma lane_put_waiting n q b t : q_shape n q -> (b < 256)%nat -> concat (lanes (lane_put q b t)) ≡ₚ t :: concat (lanes q).
Proof.
  intros [Hl _] Hb. simpl. destruct (lookup_lt_is_Some_2 (lanes q) b ltac:(lia)) as [l El].
  rewrite list_lookup_total_alt, El. simpl.
  pose proof (concat_insert (lanes q) b l (l ++ [t]) El) as H.
  rewrite <- app_assoc in H. apply Permutation_app_inv_l in H. done.
Qed.

Lemma lane_pop_spec L mx t L' : lane_pop L mx = Some (t, L') -> concat L = t :: concat L' /\ length L' = length L.
Proof.
  revert mx L'. induction L as [|[|x l] L IH]; intros mx L'; simpl; [done| |].
  - destruct mx as [|m]; [done|]. destruct (lane_pop L m) as [[u L1]|] eqn:E; [|done]. intros [= -> <-].
    destruct (IH m L1 E). simpl. auto.
  - intros [= -> <-]. done.
Qed.

Lemma ring_bulk_spec n l b r : ring_bulk n l = (b, r) -> fst <$> l = b ++ (fst <$> r) /\ (length b <= n)%nat.
Proof.
  revert l b r. induction n as [|n IH]; intros l b r; simpl; [intros [= <- <-]; simpl; split; [done|lia]|].
  destruct l as [|[t []] l]; simpl; try (intros [= <- <-]; simpl; split; [done|lia]).
  destruct (ring_bulk n l) as [b' r'] eqn:E. intros [= <- <-]. destruct (IH l b' r' E) as [E' ?].
  cbn. unfold fmap in E'. rewrite E'. split; [done|lia].
Qed.

Lemma ring_bulk_nil n l r :
  ring_bulk (S n) l = ([], r) -> r = l /\ match l with (_, true) :: _ => False | _ => True end.
Proof. simpl. destruct l as [|[u []] l]; try (by intros [= <-]). by destruct (ring_bulk n l). Qed.

Lemma deque_steal_spec l t l' : deque_steal l = Some (t, l') -> l ≡ₚ t :: l'.
Proof.
  unfold deque_steal. destruct (rev l) as [|x r] eqn:E; [done|]. intros [= <- <-].
  rewrite <- (rev_involutive l), E. simpl. rewrite <- Permutation_cons_append. done.
Qed.

(** A batch that fits is pushed whole. *)
Lemma push_batch_fits prio idx i batch q :
  (idx < length (deques q))%nat -> (length (deques q !!! idx) + length batch <= 256)%nat ->
  push_batch prio idx i batch q None =
    (mk_queues (qlen q) (ring q) (<[idx := rev batch ++ (deques q !!! idx)]> (deques q)) (lanes q) (index q) (tombs q), None).
Proof.
  revert i q. induction batch as [|t batch IH]; intros i q Hi Hf; simpl in Hf |- *.
  - rewrite list_insert_id; [by destruct q|]. destruct (lookup_lt_is_Some_2 _ _ Hi) as [l El].
    by rewrite list_lookup_total_alt, El.
  - destruct (Nat.ltb_spec (length (deques q !!! idx)) (Z.to_nat LOOMWORKS_DEQUE_CAPACITY)) as [_|Hge];
      [|unfold LOOMWORKS_DEQUE_CAPACITY in Hge; lia].
    rewrite IH; simpl; rewrite ?length_insert, ?array_read_insert_eq by done; simpl; [|done|lia].
    by rewrite list_insert_insert_eq, <- app_assoc.
Qed.

Lemma lane_pop_none L mx : lane_pop L mx = None -> (length L <= S mx)%nat -> concat L = [].
Proof.
  revert mx. induction L as [|[|x l] L IH]; intros mx; simpl; [done| |done].
  destruct mx as [|m]; [intros _ Hl; destruct L; [done|simpl in Hl; lia]|].
  destruct (lane_pop L m) as [[u L1]|] eqn:E; [done|]. intros _ Hl. apply (IH m E). lia.
Qed.

Definition taken (n : nat) (q q' : queues) (r : option (nat * bool)) : Prop :=
  q_shape n q' /\ index q' = index q /\ tombs q' = tombs q /\
  match r with
  | None => q' = q
  | Some (t, true) => ringed q ≡ₚ t :: ringed q' /\ lanes q' = lanes q /\ qlen q' = qlen q
  | Some (t, false) => ring q' = ring q /\ deques q' = deques q /\ concat (lanes q) = t :: concat (lanes q') /\ qlen q' = qlen q -32 1
  end.

Lemma lane_take_taken n q mx t q' : q_shape n q -> lane_take q mx = Some (t, q') -> taken n q q' (Some (t, false)).
Proof.
  intros [Hl Hd]. unfold lane_take. destruct (lane_pop (lanes q) mx) as [[u L]|] eqn:E; [|done]. intros [= -> <-].
  destruct (lane_pop_spec _ _ _ _ E) as [Hc Hlen]. unfold taken, q_shape. simpl. rewrite Hlen. split_and!; done.
Qed.

(** Replacing one deque by a shorter one. *)
Lemma ringed_deque q v l t l' :
  deques q !! v = Some l -> l ≡ₚ t :: l' ->
  ringed q ≡ₚ t :: ringed (mk_queues (qlen q) (ring q) (<[v := l']> (deques q)) (lanes q) (index q) (tombs q)).
Proof.
  intros Hv Hl. unfold ringed. simpl. rewrite Permutation_middle. apply Permutation_app_head.
  pose proof (concat_insert (deques q) v l l' Hv) as H. rewrite Hl in H. simpl in H.
  rewrite Permutation_middle in H. by apply Permutation_app_inv_l in H.
Qed.

Lemma deque_read n q v : q_shape n q -> (v < n)%nat -> deques q !! v = Some (deques q !!! v).
Proof.
  intros [_ Hd] Hv. destruct (lookup_lt_is_Some_2 (deques q) v ltac:(lia)) as [l El]. by rewrite list_lookup_total_alt, El.
Qed.

Lemma pop_own_taken n q idx t q' :
  q_shape n q -> (idx < n)%nat -> pop_own idx q = Some (t, q') -> taken n q q' (Some (t, true)).
Proof.
  intros Hs Hi. pose proof (deque_read n q idx Hs Hi) as Hr. unfold pop_own.
  destruct (deques q !!! idx) as [|u l] eqn:E; [done|]. intros [= -> <-]. destruct Hs as [Hl Hd].
  unfold taken, q_shape. simpl. rewrite length_insert. split_and!; try done. by eapply ringed_deque.
Qed.

Lemma steal_taken n q vs idx t q' :
  q_shape n q -> Forall (fun v => (v < n)%nat) vs -> steal_from vs idx q = Some (t, q') -> taken n q q' (Some (t, true)).
Proof.
  intros Hs. induction 1 as [|v vs Hv _ IH]; simpl; [done|]. destruct (v =? idx)%nat; [done|].
  pose proof (deque_read n q v Hs Hv) as Hr.
  destruct (deque_steal (deques q !!! v)) as [[u l]|] eqn:E; [|done]. intros [= -> <-]. destruct Hs as [Hl Hd].
  unfold taken, q_shape. simpl. rewrite length_insert. split_and!; try done.
  eapply ringed_deque; [done|by apply deque_steal_spec].
Qed.

(** Step 2 when the worker's own deque is empty. *)
Lemma refill_taken n prio idx cas_ok q q' r :
  q_shape n q -> (idx < n)%nat -> deques q !!! idx = [] -> refill prio idx cas_ok q = (q', r) ->
  taken n q q' ((fun t => (t, true)) <$> r) /\ (r = None -> cas_ok = true -> ring_has_work q = false).
Proof.
  intros Hs Hi He. unfold refill.
  set (bq := if cas_ok then ring_bulk LOOMWORKS_BULK_DEQUEUE (ring q) else ([], ring q)).
  destruct bq as [batch rest] eqn:Ebq.
  assert (Hb : fst <$> ring q = batch ++ (fst <$> rest) /\ (length batch <= 8)%nat).
  { unfold bq in Ebq. destruct cas_ok; [by apply ring_bulk_spec in Ebq|]. simplify_eq. simpl. split; [done|lia]. }
  destruct Hb as [Hring Hbl]. rewrite push_batch_fits by (simpl; destruct Hs; rewrite ?He; simpl; lia). simpl. rewrite He, app_nil_r.
  pose proof (deque_read n q idx Hs Hi) as Hr. rewrite He in Hr. destruct Hs as [Hl Hd]. unfold pop_own. simpl.
  rewrite array_read_insert_eq by lia. destruct (rev batch) as [|t l] eqn:Erev; intros [= <- <-].
  - assert (batch = []) as -> by (rewrite <- (rev_involutive batch), Erev; done). simpl in Hring.
    assert (Hrest : rest = ring q) by (unfold bq in Ebq; destruct cas_ok; [by apply ring_bulk_nil in Ebq as [? _]|congruence]).
    rewrite list_insert_id, Hrest by done. split; [split_and!; try done; by destruct q|].
    intros _ ->. apply ring_bulk_nil in Ebq as [_ Hh]. unfold ring_has_work. by destruct (ring q) as [|[u []] rg].
  - split; [|done]. unfold taken, q_shape. simpl. rewrite !length_insert. split_and!; try done.
    rewrite list_insert_insert_eq. unfold ringed. simpl. rewrite Hring.
    pose proof (concat_insert (deques q) idx [] l Hr) as H. simpl in H. rewrite H.
    assert (Hp : batch ≡ₚ t :: l) by (rewrite <- Erev; apply Permutation_rev). rewrite Hp. simpl. constructor.
    rewrite <- app_assoc. rewrite (Permutation_app_swap_app l). done.
Qed.

Lemma victims_lt wc idx b n : (0 < wc <= n)%nat -> Forall (fun v => (v < n)%nat) (victims wc idx b).
Proof.
  intros Hw. apply Forall_forall. intros v Hv. unfold victims in Hv.
  assert (v < wc)%nat; [|lia]. destruct b; apply list_elem_of_fmap in Hv as (x & -> & _); apply Nat.mod_upper_bound; lia.
Qed.

Lemma take_task_spec n prio rmode wc idx cas_ok q q' r :
  q_shape n q -> (idx < n)%nat -> (0 < wc <= n)%nat -> take_task prio rmode wc idx cas_ok q = (q', r) ->
  taken n q q' r /\
  (r = None -> (rmode = true -> deques q !!! idx = []) /\
     (cas_ok = true -> (rmode = true -> ring_has_work q = false) /\ concat (lanes q) = [])).
Proof.
  intros Hs Hi Hwc. unfold take_task.
  destruct (lane_take q 4) as [[t0 q0]|] eqn:E0.
  { intros [= <- <-]. split; [by eapply lane_take_taken|done]. }
  destruct (if rmode then pop_own idx q else None) as [[t1 q1]|] eqn:E1.
  { destruct rmode; [|done]. intros [= <- <-]. split; [by eapply pop_own_taken|done]. }
  assert (He : rmode = true -> deques q !!! idx = []).
  { intros ->. unfold pop_own in E1. by destruct (deques q !!! idx). }
  destruct (if rmode then refill prio idx cas_ok q else (q, None)) as [q2 r2] eqn:E2.
  assert (Ht : taken n q q2 ((fun t => (t, true)) <$> r2) /\
               (r2 = None -> cas_ok = true -> rmode = true -> ring_has_work q = false)).
  { destruct rmode; [|simplify_eq; split; [split_and!; done|done]].
    destruct (refill_taken n _ _ _ _ _ _ Hs Hi (He eq_refl) E2) as [? ?]. split; [done|]. eauto. }
  destruct Ht as [Ht Hcas]. destruct r2 as [t2|]; [intros [= <- <-]; by split|].
  assert (q2 = q) as -> by apply Ht.
  destruct (if rmode && (1 <? wc)%nat then _ else None) as [[t3 q3]|] eqn:E3.
  { destruct (rmode && (1 <? wc)%nat); [|done]. intros [= <- <-]. split; [|done].
    eapply (steal_taken n q _ idx); [done|exact (victims_lt wc idx (ring_has_work q) n Hwc)|exact E3]. }
  destruct (negb rmode || negb (ring_has_work q)) eqn:Eb.
  - destruct (lane_take q 255) as [[t4 q4]|] eqn:E4; intros [= <- <-]; (split; [|intros Hn; try done]).
    + by eapply lane_take_taken.
    + by split_and!.
    + split; [done|]. intros Hc. split; [by apply Hcas|]. unfold lane_take in E4.
      destruct (lane_pop (lanes q) 255) as [[? ?]|] eqn:E5; [done|]. apply (lane_pop_none _ _ E5). destruct Hs. lia.
  - intros [= <- <-]. split; [by split_and!|]. intros _. split; [done|]. intros Hc.
    apply orb_false_elim in Eb as [Er Eh]. apply negb_false_iff in Er, Eh. rewrite (Hcas eq_refl Hc Er) in Eh. done.
Qed.

(** ** Every node is in exactly one place *)

Definition pwf (p : pool) : Prop :=
  q_shape (length (workers p)) (qs p) /\ (0 < worker_count p <= length (workers p))%nat /\
  universe p ≡ₚ seq 2 (next_id p - 1) /\ (1 <= next_id p)%nat.

(** A step that keeps the shape and permutes the universe. *)
Lemma pwf_perm p p' :
  pwf p -> q_shape (length (workers p')) (qs p') -> (0 < worker_count p' <= length (workers p'))%nat ->
  next_id p' = next_id p -> universe p' ≡ₚ universe p -> pwf p'.
Proof. intros (Hs & Hw & Hu & Hn) Hs' Hw' Hid Hp. split_and!; try done; try apply Hs'; try lia. by rewrite Hid, Hp. Qed.

(** A step that creates a node. *)
Lemma pwf_new p p' :
  pwf p -> q_shape (length (workers p')) (qs p') -> (0 < worker_count p' <= length (workers p'))%nat ->
  next_id p' = S (next_id p) -> universe p' ≡ₚ S (next_id p) :: universe p -> pwf p'.
Proof.
  intros (Hs & Hw & Hu & Hn) Hs' Hw' Hid Hp. split_and!; try done; try apply Hs'; try lia.
  rewrite Hid, Hp, Hu. replace (S (next_id p) - 1)%nat with (S (next_id p - 1)) by lia. rewrite seq_S.
  rewrite <- Permutation_cons_append. constructor 2 || idtac. replace (2 + (next_id p - 1))%nat with (S (next_id p)) by lia. done.
Qed.

(** The producers' share of the universe after producer [k] moved. *)
Lemma held_insert ps k x y :
  ps !! k = Some y -> held_by y ++ held (<[k := x]> ps) ≡ₚ held_by x ++ held ps.
Proof.
  intros Hk. unfold held. rewrite list_fmap_insert. apply concat_insert. by rewrite list_lookup_fmap, Hk.
Qed.

Lemma held_same ps k x y : ps !! k = Some y -> held_by y = held_by x -> held (<[k := x]> ps) ≡ₚ held ps.
Proof. intros Hk He. pose proof (held_insert ps k x y Hk) as H. rewrite He in H. by apply Permutation_app_inv_l in H. Qed.

Lemma gone_cons o l : gone (o :: l) = ended o ++ gone l.
Proof. done. Qed.

Lemma enqueue_held p r b : held_by (enqueue_task p r b) = [].
Proof. unfold enqueue_task, route. repeat case_if; done. Qed.

Lemma wait_held p r b : held_by (wait_for_space p r) = [] /\ held_by (wait_for_space_woken p r b) = [].
Proof. unfold wait_for_space_woken, wait_for_space, route. repeat case_if; done. Qed.

Lemma set_prod_pwf p k x y : pwf p -> prods p !! k = Some y -> held_by y = held_by x -> pwf (set_prod p k x).
Proof.
  intros Hp Hk He. apply (pwf_perm p); try done; try apply Hp. unfold universe. simpl.
  by rewrite (held_same _ _ _ _ Hk He).
Qed.

Lemma publish_cells (l : list (nat * bool)) t : fst <$> ((fun c => if (fst c =? t)%nat then (t, true) else c) <$> l) = fst <$> l.
Proof.
  rewrite <- list_fmap_compose. apply list_fmap_ext. intros i [u b] _. simpl. destruct (Nat.eqb_spec u t); [by subst|done].
Qed.

Lemma pwf_spill p k t : pwf p -> prods p !! k = Some (PSpill t) -> pwf (spill_to_normal_lane p k t).
Proof.
  intros Hp Ek. pose proof Hp as (Hq & Hw & _). unfold spill_to_normal_lane.
  pose proof (fun x => held_insert _ _ x _ Ek) as Hh.
  repeat case_if; apply (pwf_perm p); try done; unfold universe; cbn [add_log set_prod set_qs prods log qs app]; rewrite ?gone_cons.
  - specialize (Hh (PRet LOOMWORKS_ERR_SHUTDOWN)). simpl in Hh |- *. pcount.
  - specialize (Hh (PRet LOOMWORKS_ERR_INVALID)). simpl in Hh |- *. pcount.
  - by destruct Hq; split; [simpl; rewrite length_insert|].
  - specialize (Hh (PPost t)). simpl in Hh |- *.
    pose proof (lane_put_waiting _ _ (prio_of p t) t Hq (lane_of_lt _)) as Hl. simpl in Hl. unfold waiting, ringed. simpl. pcount.
Qed.

Lemma pwf_producer p ev p' : pwf p -> enqueue_ring_task p ev = Some p' -> pwf p'.
Proof.
  intros Hp Hs. pose proof Hp as (Hq & Hw & _).
  destruct ev; simpl in Hs; try done; destruct (prods p !! k) as [[]|] eqn:Ek; try done;
    pose proof (fun x => held_insert _ _ x _ Ek) as Hh.
  - destruct ok; simplify_eq; [|by eapply set_prod_pwf].
    apply (pwf_new p); try done. unfold universe, waiting, ringed. specialize (Hh (PCounted (S (next_id p)))). simpl in Hh |- *. pcount.
  - destruct ok; [|simplify_eq; by eapply set_prod_pwf]. destruct (_ <? _)%nat; simplify_eq.
    apply (pwf_perm p); try done. unfold universe, waiting, ringed. specialize (Hh (PClaimed t)). simpl in Hh |- *.
    rewrite gone_cons, fmap_app. simpl. pcount.
  - simplify_eq. apply (pwf_perm p); try done. unfold universe, waiting, ringed. simpl.
    rewrite publish_cells, (held_same _ _ _ _ Ek); done.
  - simplify_eq. by eapply set_prod_pwf.
  - simplify_eq. apply (pwf_perm p); try done. unfold universe, waiting, ringed. simpl.
    rewrite (held_same _ _ _ _ Ek); done.
  - simplify_eq. by apply pwf_spill.
  - simplify_eq. apply (pwf_perm p); try done. unfold universe, waiting, ringed. simpl. by rewrite (held_same _ _ _ _ Ek).
Qed.

Lemma pwf_lane p k r ok : pwf p -> prods p !! k = Some (PLane r) -> pwf (enqueue_lane_task p k r ok).
Proof.
  intros Hp Ek. pose proof Hp as (Hq & Hw & _). unfold enqueue_lane_task.
  repeat case_if; try (by eapply set_prod_pwf). apply (pwf_new p); try done.
  - by destruct Hq; split; [simpl; rewrite length_insert|].
  - unfold universe, waiting, ringed. cbn [add_log post set_prod set_qs new_task prods log qs app]. rewrite gone_cons.
    rewrite (held_same _ _ _ _ Ek) by done. simpl.
    pose proof (lane_put_waiting _ _ (lane_of r) (S (next_id p)) Hq (lane_of_lt _)) as Hl. simpl in Hl. pcount.
Qed.

Lemma spill_deque_spec n prio ts q :
  q_shape n q -> (forall t, (prio t < 256)%nat) -> 0 <= qlen q < 2 ^ 32 ->
  let q' := spill_deque prio ts q in
  q_shape n q' /\ ring q' = ring q /\ deques q' = deques q /\ tombs q' = tombs q /\
  (forall t, t ∈ index q' <-> t ∈ index q /\ t ∉ ts) /\ qlen q' = qlen q /\
  concat (lanes q') ≡ₚ ts ++ concat (lanes q).
Proof.
  revert q. induction ts as [|t ts IH]; intros q Hs Hp Hr; simpl.
  { split_and!; try done; try apply Hs. set_solver. }
  set (q0 := mk_queues (qlen q -32 1) (ring q) (deques q) (lanes q) (index q ∖ {[t]}) (tombs q)).
  assert (Hs0 : q_shape n q0) by done.
  pose proof (lane_put_waiting n q0 (prio t) t Hs0 (Hp t)) as Hl.
  assert (Hq1 : qlen (lane_put q0 (prio t) t) = qlen q).
  { simpl. rewrite u32_add_l. rewrite u32_small; lia. }
  assert (Hs1 : q_shape n (lane_put q0 (prio t) t)) by (destruct Hs; split; [simpl; by rewrite length_insert|done]).
  destruct (IH (lane_put q0 (prio t) t) Hs1 Hp ltac:(by rewrite Hq1)) as (H1 & H2 & H3 & H4 & H5 & H6 & H7).
  split_and!; try done; try apply H1.
  - intros u. rewrite H5. simpl. set_solver.
  - by rewrite H6.
  - rewrite H7, Hl. simpl. by rewrite Permutation_middle.
Qed.

Lemma lane_remove_spec test L t L' :
  lane_remove test L = Some (t, L') -> test t = true /\ concat L ≡ₚ t :: concat L' /\ length L' = length L.
Proof.
  revert L'. induction L as [|l L IH]; intros L'; simpl; [done|].
  destruct (list_find _ l) as [[i u]|] eqn:Ef.
  - intros [= -> <-]. apply list_find_Some in Ef as (Hi & Ht & _). split_and!; [done| |done]. simpl.
    pose proof (delete_Permutation l i t Hi) as Hd. pcount.
  - destruct (lane_remove test L) as [[u L1]|] eqn:E; [|done]. intros [= -> <-].
    destruct (IH L1 eq_refl) as (? & Hc & ?). split_and!; [done| |simpl; congruence]. simpl. pcount.
Qed.

(** The tasks of a pass: what [taken] means for all waiting tasks. *)
Lemma taken_waiting n q q' r : taken n q q' r -> waiting q ≡ₚ from_option (fun x => [x.1]) [] r ++ waiting q'.
Proof.
  intros (_ & _ & _ & Ht). unfold waiting, ringed in *. destruct r as [[t []]|]; simpl.
  - destruct Ht as (Hp & -> & _). pcount.
  - destruct Ht as (-> & -> & Hc & _). pcount.
  - by subst.
Qed.

Definition qlen_ok (p : pool) : Prop := 0 <= qlen (qs p) < 2 ^ 32.

Lemma prio_lt p t : (prio_of p t < 256)%nat.
Proof. apply lane_of_lt. Qed.

Lemma pwf_pass p w cas_ok : pwf p -> qlen_ok p -> workers p !! w = Some WLoop -> pwf (worker_pass p w cas_ok).
Proof.
  intros Hp Hr Hw. pose proof Hp as (Hq & Hwc & _). pose proof (lookup_lt_Some _ _ _ Hw) as Hlt.
  unfold worker_pass. case_if.
  { set (q0 := mk_queues _ _ _ _ _ _). assert (Hs0 : q_shape (length (workers p)) q0).
    { destruct Hq; split; [done|simpl; by rewrite length_insert]. }
    destruct (spill_deque_spec _ (prio_of p) (deques (qs p) !!! w) q0 Hs0 (prio_lt p) Hr) as (H1 & H2 & H3 & H4 & H5 & H6 & H7).
    apply (pwf_perm p); try done; simpl; rewrite ?length_insert; try done.
    pose proof (concat_insert _ _ _ [] (deque_read _ _ w Hq Hlt)) as Hc. simpl in Hc.
    unfold universe, waiting, ringed. simpl. rewrite H2, H3. simpl. simpl in H7. pcount. }
  case_if; [apply (pwf_perm p); try done; simpl; by rewrite length_insert|].
  destruct (take_task _ _ _ _ _ _) as [q' r] eqn:Et.
  destruct (take_task_spec _ _ _ _ _ _ _ _ _ Hq Hlt Hwc Et) as [Ht _]. pose proof (taken_waiting _ _ _ _ Ht) as Hwt.
  destruct Ht as (Hs' & _). destruct r as [[t fr]|]; simpl in Hwt.
  - assert (Hwt2 : forall n i, waiting (mk_queues n (ring q') (deques q') (lanes q') i (tombs q')) = waiting q') by done.
    destruct fr; case_bool_decide; (apply (pwf_perm p); simpl; rewrite ?length_insert; try done);
      unfold universe; simpl; unfold with_qlen; simpl; rewrite ?Hwt2, gone_cons; simpl; pcount.
  - apply (pwf_perm p); simpl; rewrite ?length_insert; try done. unfold universe. simpl. by rewrite Hwt.
Qed.

Lemma pwf_claim p t : pwf p -> pwf (claim p t).
Proof. intros Hp. pose proof Hp as (? & ? & _). by apply (pwf_perm p). Qed.

Lemma pwf_cancel_lane p test : pwf p -> pwf (cancel_lane p test).2.
Proof.
  intros Hp. pose proof Hp as (Hq & ? & _). unfold cancel_lane. destruct (lane_remove _ _) as [[t L]|] eqn:E; [|done].
  apply lane_remove_spec in E as (_ & Hc & Hl). apply (pwf_perm p); try done; simpl.
  - destruct Hq; split; [simpl; congruence|done].
  - unfold universe, waiting, ringed. simpl. rewrite !gone_cons. simpl. pcount.
Qed.

Lemma concat_nils {A B} (L : list A) : concat ((fun _ => []) <$> L : list (list B)) = [].
Proof. by induction L. Qed.

Lemma gone_app l l' : gone (l ++ l') = gone l ++ gone l'.
Proof. unfold gone. by rewrite fmap_app, concat_app. Qed.

Lemma gone_released l : gone (Released <$> l) = l.
Proof. induction l as [|x l IH]; [done|]. rewrite fmap_cons, gone_cons, IH. done. Qed.

Lemma gone_cancelled l : gone (Cancelled <$> l) = [].
Proof. induction l as [|x l IH]; [done|]. rewrite fmap_cons, gone_cons, IH. done. Qed.

Lemma pwf_cancel_all p : pwf p -> pwf (loom_pool_cancel_all p).1.
Proof.
  intros Hp. pose proof Hp as (Hq & ? & _). unfold loom_pool_cancel_all. case_if; [done|].
  apply (pwf_perm p); try done; simpl.
  - destruct Hq; split; [simpl; by rewrite length_fmap|done].
  - unfold universe, waiting, ringed. simpl. rewrite !gone_app, gone_released, !gone_cancelled, concat_nils. pcount.
Qed.

Lemma pwf_resize p n : pwf p -> pwf (loom_pool_resize p n).2.
Proof.
  intros Hp. pose proof Hp as (Hq & ? & _). unfold loom_pool_resize.
  destruct (Nat.eqb_spec n 0); [done|]. destruct (n =? _)%nat; [done|]. case_if; [done|].
  apply (pwf_perm p); try done; simpl; rewrite ?length_imap, ?length_app, ?length_replicate.
  - destruct Hq; split; [done|simpl; rewrite length_app, length_replicate; lia].
  - lia.
  - unfold universe, waiting, ringed. simpl. rewrite concat_app.
    assert (Hz : concat (replicate (n - length (workers p)) ([] : list nat)) = []) by (induction (n - length (workers p))%nat; done).
    rewrite Hz. pcount.
Qed.

(** What a single-task cancel can do. *)
Definition cancel_effect (p p1 : pool) : Prop :=
  p1 = p \/ (exists t, t ∈ index (qs p) /\ (t ∉ tombs (qs p)) /\ p1 = claim p t) \/ (exists test, p1 = (cancel_lane p test).2).

Lemma cancel_by_id_effect p t : cancel_effect p (loom_pool_cancel_by_id p t).2.
Proof.
  unfold loom_pool_cancel_by_id, cancel_effect. case_if; [by left|]. case_bool_decide.
  - case_bool_decide; [by left|]. right. left. by exists t.
  - right. right. by eexists.
Qed.

Lemma cancel_data_effect p d pick rc p1 : loom_pool_cancel p d pick = Some (rc, p1) -> cancel_effect p p1.
Proof.
  unfold loom_pool_cancel, cancel_effect. case_if; [intros [= _ <-]; by left|]. case_if; [intros [= _ <-]; by left|].
  destruct pick as [t|]; case_if; try done; intros He; simplify_eq.
  - zbool. repeat case_bool_decide; try done. right. left. exists t. naive_solver.
  - right. right. exists (fun u => r_data (reqs p !!! u) =? d). by rewrite He.
Qed.

Lemma pwf_cancel p p1 : pwf p -> cancel_effect p p1 -> pwf p1.
Proof. intros Hp [->|[(t & _ & _ & ->)|[test ->]]]; [done|by apply pwf_claim|by apply pwf_cancel_lane]. Qed.

Lemma pwf_step p ev p' : pwf p -> qlen_ok p -> pstep p ev = Some p' -> pwf p'.
Proof.
  intros Hp Hr Hs. pose proof Hp as (Hq & Hwc & _).
  assert (Hpr : forall k x, prods p !! k = Some x -> held_by x = [] -> forall y, held_by y = [] -> pwf (set_prod p k y)).
  { intros k x Hk Hx y Hy. eapply set_prod_pwf; [done|done|congruence]. }
  assert (Hwk : forall w x, pwf (set_worker p w x)).
  { intros w x. apply (pwf_perm p); try done; simpl; by rewrite length_insert. }
  destruct ev; try exact (pwf_producer p _ p' Hp Hs); simpl in Hs.
  - destruct (prods p !! k) as [[]|] eqn:Ek; simplify_eq; (eapply Hpr; [done|done|apply enqueue_held]).
  - destruct (prods p !! k) as [[]|] eqn:Ek; simplify_eq; (eapply Hpr; [done|done|by repeat case_if]).
  - destruct (prods p !! k) as [[]|] eqn:Ek; simplify_eq. eapply Hpr; try done. by apply (wait_held p r true).
  - destruct (prods p !! k) as [[]|] eqn:Ek; simplify_eq. eapply Hpr; try done. by apply (wait_held p r timed_out).
  - destruct (prods p !! k) as [[]|] eqn:Ek; simplify_eq. by apply pwf_lane.
  - destruct (workers p !! w) as [[]|] eqn:Ew; simplify_eq. by apply pwf_pass.
  - destruct (workers p !! w) as [[]|] eqn:Ew; simplify_eq. destruct (work_sem p); simplify_eq.
    apply (pwf_perm p); try done; simpl; by rewrite length_insert.
  - destruct (workers p !! w) as [[]|] eqn:Ew; simplify_eq. apply (pwf_perm p); try done; simpl; by rewrite length_insert.
  - simplify_eq. eapply pwf_cancel; [done|apply cancel_by_id_effect].
  - destruct (loom_pool_cancel p d pick) as [[rc p1]|] eqn:Ec; simplify_eq/=.
    eapply pwf_cancel; [done|exact (cancel_data_effect _ _ _ _ _ Ec)].
  - simplify_eq. by apply pwf_cancel_all.
  - simplify_eq. unfold loom_pool_shutdown. by case_if.
  - destruct (workers p !! w) as [[]|] eqn:Ew; simplify_eq. destruct (shutdown p || _); simplify_eq. apply Hwk.
  - destruct (shutdown p && _); simplify_eq. by apply (pwf_perm p).
  - destruct (forallb _ _); simplify_eq. by apply pwf_resize.
Qed.

Lemma qlen_ok_step p ev p' : pwf p -> qlen_ok p -> pstep p ev = Some p' -> qlen_ok p'.
Proof.
  intros Hp Hr Hs. pose proof Hp as (Hq & Hwc & _). unfold qlen_ok in *.
  assert (Hu : forall x, 0 <= u32 x < 2 ^ 32) by apply u32_range.
  assert (Hcl : forall test, 0 <= qlen (qs (cancel_lane p test).2) < 2 ^ 32).
  { intros test. unfold cancel_lane. destruct (lane_remove _ _) as [[? ?]|]; simpl; auto. }
  assert (Hce : forall p1, cancel_effect p p1 -> 0 <= qlen (qs p1) < 2 ^ 32).
  { intros p1 [->|[(t & _ & _ & ->)|[test ->]]]; simpl; auto. }
  destruct ev; simpl in Hs; try (destruct (prods p !! k) as [[]|] eqn:Ek); simplify_eq; try done;
    try (destruct ok; simplify_eq; simpl; auto; fail).
  - destruct ok; [destruct (_ <? _)%nat|]; simplify_eq; done.
  - apply Hu.
  - unfold spill_to_normal_lane. repeat case_if; simpl; auto.
  - unfold enqueue_lane_task. repeat case_if; simpl; auto.
  - destruct (workers p !! w) as [[]|] eqn:Ew; simplify_eq. unfold worker_pass. case_if.
    { set (q0 := mk_queues _ _ _ _ _ _). assert (Hs0 : q_shape (length (workers p)) q0).
      { destruct Hq; split; [done|simpl; by rewrite length_insert]. }
      destruct (spill_deque_spec _ (prio_of p) (deques (qs p) !!! w) q0 Hs0 (prio_lt p) Hr) as (_ & _ & _ & _ & _ & H6 & _).
      simpl in *. by rewrite H6. }
    case_if; [done|]. destruct (take_task _ _ _ _ _ _) as [q' r] eqn:Et.
    destruct (take_task_spec _ _ _ _ _ _ _ _ _ Hq (lookup_lt_Some _ _ _ Ew) Hwc Et) as [(_ & _ & _ & Ht) _].
    destruct r as [[t []]|]; [destruct Ht as (_ & _ & Hl)|destruct Ht as (_ & _ & _ & Hl)|by subst];
      case_bool_decide; simpl; rewrite ?Hl; auto.
  - destruct (workers p !! w) as [[]|] eqn:Ew; simplify_eq. destruct (work_sem p); by simplify_eq.
  - destruct (workers p !! w) as [[]|] eqn:Ew; by simplify_eq.
  - apply Hce, cancel_by_id_effect.
  - destruct (loom_pool_cancel p d pick) as [[rc p1]|] eqn:Ec; simplify_eq/=. exact (Hce _ (cancel_data_effect _ _ _ _ _ Ec)).
  - unfold loom_pool_cancel_all. case_if; simpl; auto.
  - unfold loom_pool_shutdown. by case_if.
  - destruct (workers p !! w) as [[]|] eqn:Ew; simplify_eq. destruct (shutdown p || _); by simplify_eq.
  - destruct (shutdown p && _); by simplify_eq.
  - destruct (forallb _ _); simplify_eq. unfold loom_pool_resize. repeat case_if; done.
Qed.

Lemma prun_app p evs1 evs2 p' :
  prun p (evs1 ++ evs2) = Some p' <-> exists p1, prun p evs1 = Some p1 /\ prun p1 evs2 = Some p'.
Proof.
  revert p. induction evs1 as [|ev evs1 IH]; intros p; simpl; [naive_solver|].
  destruct (pstep p ev) as [p1|]; [apply IH|naive_solver].
Qed.

(** [ok] holds of every event of a run, at the state where it happens. *)
Fixpoint along (ok : pool -> pevent -> bool) (p : pool) (evs : list pevent) : bool :=
  match evs with
  | [] => true
  | ev :: evs => ok p ev && match pstep p ev with Some p' => along ok p' evs | None => true end
  end.

(** Invariants are preserved along a run; [ok] restricts the events. *)
Lemma prun_ind (P : pool -> Prop) (ok : pool -> pevent -> bool) :
  (forall p ev p', P p -> ok p ev = true -> pstep p ev = Some p' -> P p') ->
  forall evs p p', P p -> prun p evs = Some p' -> along ok p evs = true -> P p'.
Proof.
  intros Hstep evs. induction evs as [|ev evs IH]; intros p p' H0 Hr Hok; simpl in *; [by simplify_eq|].
  destruct (pstep p ev) as [p1|] eqn:Hs; [|done]. apply andb_prop in Hok as [Hok1 Hok2].
  eapply IH; [|exact Hr|done]. by eapply Hstep.
Qed.

Lemma along_true p evs : along (fun _ _ => true) p evs = true.
Proof. revert p. induction evs as [|ev evs IH]; intros p; [done|]. simpl. by destruct (pstep p ev). Qed.

Lemma start_pwf cap slots n k rmode : (0 < n)%nat -> pwf (pool_start cap slots n k rmode) /\ qlen_ok (pool_start cap slots n k rmode).
Proof.
  intros Hn. split; [|unfold qlen_ok; simpl; lia]. unfold pwf, q_shape, universe, waiting, ringed. simpl.
  rewrite !length_replicate. split_and!; try done; try lia.
  assert (H1 : forall m, concat (replicate m ([] : list nat)) = []) by (induction m; done).
  assert (H2 : held (replicate k PIdle) = []) by (induction k; done).
  unfold LOOMWORKS_PRIORITY_BUCKETS. rewrite H1, H2. change (concat (replicate 256 ([] : list nat))) with ([] : list nat). done.
Qed.

Lemma reach_pwf cap slots n k rmode evs p :
  (0 < n)%nat -> prun (pool_start cap slots n k rmode) evs = Some p -> pwf p /\ qlen_ok p.
Proof.
  intros Hn Hr. refine (prun_ind (fun p => pwf p /\ qlen_ok p) (fun _ _ => true) _ evs _ p (start_pwf _ _ _ _ _ Hn) Hr (along_true _ _)).
  intros p0 ev p1 [Hp Hq] _ Hs. split; [by eapply pwf_step|by eapply qlen_ok_step].
Qed.

(** ** What a step does to the set of waiting tasks *)

Inductive effect (p p' : pool) : Prop :=
  | Ef_none dl :
      log p' = dl ++ log p -> (dl = [] \/ exists t, dl = [Finished t] \/ dl = [Dropped t]) ->
      waiting (qs p') ≡ₚ waiting (qs p) -> tombs (qs p') = tombs (qs p) -> effect p p'
  | Ef_accept t :
      log p' = Accepted t :: log p -> waiting (qs p') ≡ₚ t :: waiting (qs p) -> tombs (qs p') = tombs (qs p) -> effect p p'
  | Ef_run t :
      log p' = Started t :: log p -> waiting (qs p) ≡ₚ t :: waiting (qs p') -> tombs (qs p') = tombs (qs p) ->
      (t ∉ tombs (qs p)) -> effect p p'
  | Ef_release t :
      log p' = Released t :: log p -> waiting (qs p) ≡ₚ t :: waiting (qs p') -> tombs (qs p') = tombs (qs p) ->
      t ∈ tombs (qs p) -> effect p p'
  | Ef_claim t :
      log p' = Cancelled t :: log p -> waiting (qs p') ≡ₚ waiting (qs p) -> tombs (qs p') = tombs (qs p) ∪ {[t]} ->
      t ∈ index (qs p) -> (t ∉ tombs (qs p)) -> effect p p'
  | Ef_lane t :
      log p' = Released t :: Cancelled t :: log p -> waiting (qs p) ≡ₚ t :: waiting (qs p') ->
      tombs (qs p') = tombs (qs p) -> (t ∉ tombs (qs p)) -> effect p p'
  | Ef_all claimed inlane :
      log p' = (Released <$> inlane) ++ (Cancelled <$> inlane) ++ (Cancelled <$> claimed) ++ log p ->
      waiting (qs p) ≡ₚ inlane ++ waiting (qs p') -> tombs (qs p') = tombs (qs p) ∪ list_to_set claimed ->
      (forall t, t ∈ claimed -> t ∈ index (qs p) /\ t ∉ tombs (qs p)) -> NoDup claimed -> inlane = concat (lanes (qs p)) -> effect p p'.

Lemma effect_same p p' : log p' = log p -> qs p' = qs p -> effect p p'.
Proof. intros Hl Hq. apply (Ef_none _ _ []); rewrite ?Hq; auto. Qed.

Lemma cancel_has_effect p p1 : cancel_effect p p1 -> effect p p1.
Proof.
  intros [->|[(t & Hi & Ht & ->)|[test ->]]]; [by apply effect_same|by apply (Ef_claim _ _ t)|].
  unfold cancel_lane. destruct (lane_remove _ _) as [[t L]|] eqn:E; [|by apply effect_same].
  apply lane_remove_spec in E as (Ht & Hc & Hl). apply (Ef_lane _ _ t); try done.
  - unfold waiting, ringed. simpl. pcount.
  - zbool. by case_bool_decide.
Qed.

Lemma pass_effect p w cas_ok : pwf p -> qlen_ok p -> workers p !! w = Some WLoop -> effect p (worker_pass p w cas_ok).
Proof.
  intros Hp Hr Ew. pose proof Hp as (Hq & Hwc & _). pose proof (lookup_lt_Some _ _ _ Ew) as Hlt. unfold worker_pass. case_if.
  { set (q0 := mk_queues _ _ _ _ _ _). assert (Hs0 : q_shape (length (workers p)) q0).
    { destruct Hq; split; [done|simpl; by rewrite length_insert]. }
    destruct (spill_deque_spec _ (prio_of p) (deques (qs p) !!! w) q0 Hs0 (prio_lt p) Hr) as (H1 & H2 & H3 & H4 & H5 & H6 & H7).
    apply (Ef_none _ _ []); auto. unfold waiting, ringed. simpl. rewrite H2, H3. simpl in *.
    pose proof (concat_insert _ _ _ [] (deque_read _ _ w Hq Hlt)) as Hc. simpl in Hc. pcount. }
  case_if; [by apply effect_same|]. destruct (take_task _ _ _ _ _ _) as [q' r] eqn:Et.
  destruct (take_task_spec _ _ _ _ _ _ _ _ _ Hq Hlt Hwc Et) as [Ht _]. pose proof (taken_waiting _ _ _ _ Ht) as Hwt.
  destruct Ht as (_ & _ & Htb & Ht). destruct r as [[t fr]|]; [|subst; by apply effect_same].
  simpl in Hwt. case_bool_decide as Hin; [apply (Ef_release _ _ t)|apply (Ef_run _ _ t)]; destruct fr; simpl in *; try done;
    by rewrite <- Htb.
Qed.

Lemma step_effect p ev p' : pwf p -> qlen_ok p -> pstep p ev = Some p' -> effect p p'.
Proof.
  intros Hp Hr Hs. pose proof Hp as (Hq & Hwc & _).
  destruct ev; simpl in Hs; try (destruct (prods p !! k) as [[]|] eqn:Ek); simplify_eq; try (by apply effect_same).
  - destruct ok; simplify_eq; apply (Ef_none _ _ []); auto.
  - destruct ok; [destruct (_ <? _)%nat|]; simplify_eq; [|by apply effect_same].
    apply (Ef_accept _ _ t); try done. unfold waiting, ringed. simpl. rewrite fmap_app. simpl. pcount.
  - apply (Ef_none _ _ []); auto. unfold waiting, ringed. simpl. by rewrite publish_cells.
  - apply (Ef_none _ _ []); auto.
  - unfold spill_to_normal_lane. repeat case_if; [by apply (Ef_none _ _ [Dropped t]); eauto..|].
    apply (Ef_accept _ _ t); try done. pose proof (lane_put_waiting _ _ (prio_of p t) t Hq (prio_lt _ _)) as Hl.
    unfold waiting, ringed. simpl in *. pcount.
  - unfold enqueue_lane_task. repeat case_if; [by apply effect_same..|]. apply (Ef_accept _ _ (S (next_id p))); try done.
    pose proof (lane_put_waiting _ _ (lane_of r) (S (next_id p)) Hq (lane_of_lt _)) as Hl. unfold waiting, ringed. simpl in *. pcount.
  - destruct (workers p !! w) as [[]|] eqn:Ew; simplify_eq. by apply pass_effect.
  - destruct (workers p !! w) as [[]|] eqn:Ew; simplify_eq. destruct (work_sem p); simplify_eq. by apply effect_same.
  - destruct (workers p !! w) as [[]|] eqn:Ew; simplify_eq. apply (Ef_none _ _ [Finished t]); eauto.
  - apply cancel_has_effect, cancel_by_id_effect.
  - destruct (loom_pool_cancel p d pick) as [[rc p1]|] eqn:Ec; simplify_eq/=. exact (cancel_has_effect _ _ (cancel_data_effect _ _ _ _ _ Ec)).
  - unfold loom_pool_cancel_all. case_if; [by apply effect_same|].
    eapply Ef_all; simpl; try done.
    + by rewrite <- !app_assoc.
    + unfold waiting, ringed. simpl. rewrite concat_nils. pcount.
    + intros t Ht. apply list_elem_of_filter in Ht as [? Ht]. by apply elem_of_elements in Ht.
    + apply NoDup_filter, NoDup_elements.
  - unfold loom_pool_shutdown. case_if; by apply effect_same.
  - destruct (workers p !! w) as [[]|] eqn:Ew; simplify_eq. destruct (shutdown p || _); simplify_eq. by apply effect_same.
  - destruct (shutdown p && _); simplify_eq. by apply effect_same.
  - destruct (forallb _ _); simplify_eq. unfold loom_pool_resize. repeat case_if; try by apply effect_same. apply (Ef_none _ _ []); auto.
    unfold waiting, ringed. simpl. rewrite concat_app.
    assert (Hz : concat (replicate (n - length (workers p)) ([] : list nat)) = []) by (induction (n - length (workers p))%nat; done).
    rewrite Hz. pcount.
Qed.

(** The cancel index only names tasks that are in the ring or a deque. *)
Definition idx_ok (p : pool) : Prop := forall t, t ∈ index (qs p) -> t ∈ ringed (qs p).

Lemma elem_ringed_deque q w l u :
  deques q !! w = Some l -> u ∈ ringed q -> (u ∉ l) ->
  u ∈ ringed (mk_queues (qlen q) (ring q) (<[w := []]> (deques q)) (lanes q) (index q) (tombs q)).
Proof.
  intros Hw Hu Hl. pose proof (concat_insert _ _ _ [] Hw) as Hc. simpl in Hc. unfold ringed in *. simpl.
  rewrite <- Hc in Hu. set_solver.
Qed.

Lemma pass_idx p w cas_ok : pwf p -> qlen_ok p -> idx_ok p -> workers p !! w = Some WLoop -> idx_ok (worker_pass p w cas_ok).
Proof.
  intros Hp Hr Hx Ew. pose proof Hp as (Hq & Hwc & _). pose proof (lookup_lt_Some _ _ _ Ew) as Hlt. unfold worker_pass, idx_ok. case_if.
  { set (q0 := mk_queues _ _ _ _ _ _). assert (Hs0 : q_shape (length (workers p)) q0).
    { destruct Hq; split; [done|simpl; by rewrite length_insert]. }
    destruct (spill_deque_spec _ (prio_of p) (deques (qs p) !!! w) q0 Hs0 (prio_lt p) Hr) as (H1 & H2 & H3 & H4 & H5 & H6 & H7).
    intros t. simpl. rewrite H5. intros [Hi Hn]. unfold ringed. rewrite H2, H3.
    apply (elem_ringed_deque _ _ _ t (deque_read _ _ w Hq Hlt)); [by apply Hx|done]. }
  case_if; [done|]. destruct (take_task _ _ _ _ _ _) as [q' r] eqn:Et.
  destruct (take_task_spec _ _ _ _ _ _ _ _ _ Hq Hlt Hwc Et) as [(_ & Hi & _ & Ht) _].
  destruct r as [[t fr]|]; [|by subst]. intros u Hu.
  assert (Hu' : u ∈ index q' /\ (fr = true -> u <> t)).
  { destruct fr; case_bool_decide; simpl in Hu; set_solver. }
  destruct Hu' as [Hui Hne]. rewrite Hi in Hui. apply Hx in Hui.
  assert (Hg : u ∈ ringed q').
  { destruct fr; [destruct Ht as (Hp' & _); rewrite Hp' in Hui; set_solver|].
    destruct Ht as (H1 & H2 & _). unfold ringed in *. by rewrite H1, H2. }
  destruct fr; case_bool_decide; done.
Qed.

Lemma idx_step p ev p' : pwf p -> qlen_ok p -> idx_ok p -> pstep p ev = Some p' -> idx_ok p'.
Proof.
  intros Hp Hr Hx Hs. pose proof Hp as (Hq & Hwc & _).
  assert (Hce : forall p1, cancel_effect p p1 -> idx_ok p1).
  { intros p1 [->|[(t & _ & _ & ->)|[test ->]]]; [done|intros u; simpl; intros Hu; apply Hx; set_solver|].
    unfold cancel_lane. destruct (lane_remove _ _) as [[? ?]|]; done. }
  destruct ev; simpl in Hs; try (destruct (prods p !! k) as [[]|] eqn:Ek); simplify_eq; try done.
  - destruct ok; by simplify_eq.
  - destruct ok; [destruct (_ <? _)%nat|]; simplify_eq; [|done]. intros u. unfold ringed. simpl. rewrite fmap_app.
    intros Hu. assert (u = t \/ u ∈ index (qs p)) as [->|Hui] by (destruct indexed; set_solver); [set_solver|].
    apply Hx in Hui. unfold ringed in Hui. set_solver.
  - intros u Hu. apply Hx in Hu. unfold ringed in *. simpl. by rewrite publish_cells.
  - unfold spill_to_normal_lane. repeat case_if; done.
  - unfold enqueue_lane_task. repeat case_if; done.
  - destruct (workers p !! w) as [[]|] eqn:Ew; simplify_eq. by apply pass_idx.
  - destruct (workers p !! w) as [[]|] eqn:Ew; simplify_eq. destruct (work_sem p); by simplify_eq.
  - destruct (workers p !! w) as [[]|] eqn:Ew; by simplify_eq.
  - apply Hce, cancel_by_id_effect.
  - destruct (loom_pool_cancel p d pick) as [[rc p1]|] eqn:Ec; simplify_eq/=. exact (Hce _ (cancel_data_effect _ _ _ _ _ Ec)).
  - unfold loom_pool_cancel_all. case_if; [done|]. intros u. simpl. intros Hu. apply Hx. set_solver.
  - unfold loom_pool_shutdown. by case_if.
  - destruct (workers p !! w) as [[]|] eqn:Ew; simplify_eq. destruct (shutdown p || _); by simplify_eq.
  - destruct (shutdown p && _); by simplify_eq.
  - destruct (forallb _ _); simplify_eq. unfold loom_pool_resize. repeat case_if; try done. intros u Hu. apply Hx in Hu. unfold ringed in *. simpl in *.
    rewrite concat_app. set_solver.
Qed.

(** ** The life of a task *)

Record life (p : pool) : Prop := {
  l_canc : forall t, Cancelled t ∈ log p -> t ∈ tombs (qs p) \/ Released t ∈ log p;
  l_tomb : forall t, t ∈ tombs (qs p) -> Started t ∉ log p;
  l_tacc : forall t, t ∈ tombs (qs p) -> Accepted t ∈ log p;
  l_acc : forall t, Accepted t ∈ log p <-> t ∈ waiting (qs p) \/ Started t ∈ log p \/ Released t ∈ log p;
}.

Lemma gone_elem l t : t ∈ gone l <-> Dropped t ∈ l \/ Started t ∈ l \/ Released t ∈ l.
Proof.
  induction l as [|o l IH]; [split; [by intros ?%not_elem_of_nil|by intros [?%not_elem_of_nil|[?%not_elem_of_nil|?%not_elem_of_nil]]]|].
  rewrite gone_cons, elem_of_app, IH, !elem_of_cons. destruct o; simpl; set_solver.
Qed.

Lemma universe_nodup p : pwf p -> NoDup (universe p).
Proof. intros (_ & _ & Hu & _). rewrite Hu. apply NoDup_seq. Qed.

Lemma waiting_not_gone p t : pwf p -> t ∈ waiting (qs p) -> t ∉ gone (log p).
Proof.
  intros Hp Hw Hg. pose proof (universe_nodup p Hp) as Hn. unfold universe in Hn.
  apply NoDup_app in Hn as (_ & Hd & _). apply (Hd t Hw). set_solver.
Qed.

Ltac focus_task u t Hc Ht Hta Ha :=
  specialize (Hta u); specialize (Hc u); specialize (Ht u); specialize (Ha u); destruct (decide (u = t)) as [->|?].

Lemma life_step p ev p' : pwf p -> qlen_ok p -> idx_ok p -> life p -> pstep p ev = Some p' -> life p'.
Proof.
  intros Hp Hr Hx Hl Hs. pose proof (step_effect _ _ _ Hp Hr Hs) as He.
  pose proof (pwf_step _ _ _ Hp Hr Hs) as Hp'.
  assert (Hfresh : forall t, t ∈ waiting (qs p) -> Started t ∉ log p).
  { intros t Hw Hst. apply (waiting_not_gone p t Hp Hw), gone_elem. by right; left. }
  assert (Hidx : forall t, t ∈ index (qs p) -> t ∈ waiting (qs p)).
  { intros t Ht. unfold waiting. apply elem_of_app. left. by apply Hx. }
  destruct Hl as [Hc Ht Hta Ha].
  destruct He as [dl El Hdl Hw Htb|t El Hw Htb|t El Hw Htb Hnt|t El Hw Htb Hnt|t El Hw Htb Hi Hnt|t El Hw Htb Hnt|cl il El Hw Htb Hcl _ _].
  - assert (Hdl' : forall o, o ∈ dl -> exists t, o = Finished t \/ o = Dropped t) by (destruct Hdl as [-> |[t [-> | ->]]]; set_solver).
    assert (Hno : forall u, (Cancelled u ∉ dl) /\ (Started u ∉ dl) /\ (Released u ∉ dl) /\ (Accepted u ∉ dl)).
    { intros u. split_and!; intros Hin; destruct (Hdl' _ Hin) as (? & [?|?]); discriminate. }
    split; intros u; specialize (Hno u); specialize (Hta u); specialize (Hc u); specialize (Ht u); specialize (Ha u);
      rewrite El, ?Htb, ?Hw, ?elem_of_app, ?not_elem_of_app; tauto.
  - split; intros u; focus_task u t Hc Ht Hta Ha;
      rewrite El, ?Htb, ?Hw, ?not_elem_of_cons, ?elem_of_cons; intuition congruence.
  - assert (Hst : t ∈ waiting (qs p)) by (rewrite Hw; constructor).
    split; intros u; focus_task u t Hc Ht Hta Ha; rewrite Hw in Ha;
      rewrite El, ?Htb, ?not_elem_of_cons, ?elem_of_cons in *; intuition congruence.
  - split; intros u; focus_task u t Hc Ht Hta Ha; rewrite Hw in Ha;
      rewrite El, ?Htb, ?not_elem_of_cons, ?elem_of_cons in *; intuition congruence.
  - assert (Hst : Started t ∉ log p) by (by apply Hfresh, Hidx).
    assert (Hca : Accepted t ∈ log p) by (apply Ha; left; by apply Hidx).
    split; intros u; focus_task u t Hc Ht Hta Ha;
      rewrite El, ?Htb, ?Hw, ?not_elem_of_cons, ?elem_of_cons, ?elem_of_union, ?elem_of_singleton; intuition congruence.
  - split; intros u; focus_task u t Hc Ht Hta Ha; rewrite Hw in Ha;
      rewrite El, ?Htb, ?not_elem_of_cons, ?elem_of_cons in *; intuition congruence.
  - assert (Hst : forall u, u ∈ cl -> Started u ∉ log p) by (intros u Hu; apply Hfresh, Hidx; by apply Hcl).
    assert (Hca : forall u, u ∈ cl -> Accepted u ∈ log p) by (intros u Hu; apply Ha; left; apply Hidx; by apply Hcl).
    assert (Hm : forall u, (Released u ∈ log p' <-> u ∈ il \/ Released u ∈ log p) /\
      (Cancelled u ∈ log p' <-> u ∈ il \/ u ∈ cl \/ Cancelled u ∈ log p) /\
      (Started u ∈ log p' <-> Started u ∈ log p) /\ (Accepted u ∈ log p' <-> Accepted u ∈ log p)).
    { intros u. rewrite El, !elem_of_app, !list_elem_of_fmap. naive_solver. }
    split; intros u; destruct (Hm u) as (M1 & M2 & M3 & M4); specialize (Hta u); specialize (Hca u); specialize (Hc u); specialize (Ht u); specialize (Ha u);
      specialize (Hst u); rewrite Hw, elem_of_app in Ha;
      rewrite ?Htb, ?elem_of_union, ?elem_of_list_to_set, ?M1, ?M2, ?M3, ?M4; tauto.
Qed.

Lemma start_life cap slots n k rmode :
  (0 < n)%nat -> let p := pool_start cap slots n k rmode in pwf p /\ qlen_ok p /\ idx_ok p /\ life p.
Proof.
  intros Hn p. destruct (start_pwf cap slots n k rmode Hn) as [H0 H1]. split; [done|]. split; [done|]. split; [done|].
  split; [simpl; set_solver..|]. intros t.
  assert (Hwt : waiting (qs p) = []).
  { pose proof (proj1 (proj2 (proj2 H0))) as Hu. unfold universe in Hu. simpl in Hu.
    apply Permutation_nil_r in Hu. by apply app_nil in Hu as [Hu _]. }
  rewrite Hwt. simpl. set_solver.
Qed.

Lemma reach_life cap slots n k rmode evs p :
  (0 < n)%nat -> prun (pool_start cap slots n k rmode) evs = Some p -> pwf p /\ qlen_ok p /\ idx_ok p /\ life p.
Proof.
  intros Hn Hr. refine (prun_ind (fun p => pwf p /\ qlen_ok p /\ idx_ok p /\ life p) (fun _ _ => true) _ evs _ p _ Hr (along_true _ _)).
  2: by apply start_life.
  intros p0 ev p1 (Hp & Hq & Hx & Hl) _ Hs. split_and!;
    [by eapply pwf_step|by eapply qlen_ok_step|by eapply idx_step|by eapply life_step].
Qed.

(** How often [o] is in the log. *)
Definition times (o : outcome) (p : pool) : nat := length (filter (fun x => x = o) (log p)).

Lemma gone_times l t : occ t (gone l) = (length (filter (fun x => x = Dropped t) l) + length (filter (fun x => x = Started t) l) + length (filter (fun x => x = Released t) l))%nat.
Proof.
  induction l as [|o l IH]; [done|]. rewrite gone_cons, occ_app, IH, !filter_cons.
  destruct o as [u|u|u|u|u|u]; simpl ended; try rewrite occ_nil; repeat case_decide; simplify_eq; simpl; try lia;
    unfold occ; simpl; destruct (Nat.eq_dec _ _); try congruence; lia.
Qed.

Lemma occ_nodup x l : NoDup l -> (occ x l <= 1)%nat.
Proof. intros Hn. apply NoDup_ListNoDup in Hn. unfold occ. by apply (proj1 (NoDup_count_occ Nat.eq_dec l)). Qed.

Lemma occ_elem x l : x ∈ l <-> (1 <= occ x l)%nat.
Proof. rewrite list_elem_of_In, (count_occ_In Nat.eq_dec). unfold occ. lia. Qed.

Lemma times_elem o p : o ∈ log p -> (1 <= times o p)%nat.
Proof.
  intros Hin. unfold times. assert (Ho : o ∈ filter (fun x => x = o) (log p)) by (by apply list_elem_of_filter).
  destruct (filter _ _); [by apply not_elem_of_nil in Ho|simpl; lia].
Qed.

Lemma fate_once p t : pwf p -> (occ t (waiting (qs p)) + times (Started t) p + times (Released t) p <= 1)%nat.
Proof.
  intros Hp. pose proof (universe_nodup p Hp) as Hnd. apply occ_nodup with (x := t) in Hnd. unfold universe in Hnd.
  rewrite !occ_app, gone_times in Hnd. unfold times. lia.
Qed.

Lemma cancelled_not_started p t : pwf p -> life p -> Cancelled t ∈ log p -> (Started t ∉ log p).
Proof.
  intros Hp [Hc Ht _ _] Hca Hst. destruct (Hc t Hca) as [Htb|Hre]; [by apply (Ht t Htb)|].
  pose proof (fate_once p t Hp). pose proof (times_elem _ _ Hst). pose proof (times_elem _ _ Hre). lia.
Qed.

Lemma fate_exact cap slots n k rmode evs p t :
  (0 < n)%nat -> prun (pool_start cap slots n k rmode) evs = Some p -> Accepted t ∈ log p ->
  (occ t (waiting (qs p)) + times (Started t) p + times (Released t) p = 1)%nat.
Proof.
  intros Hn Hr Hacc. destruct (reach_life _ _ _ _ _ _ _ Hn Hr) as (Hp & _ & _ & Hl).
  pose proof (fate_once p t Hp). apply (l_acc p Hl) in Hacc as [Hw|[Hst|Hre]].
  - apply occ_elem in Hw. lia.
  - pose proof (times_elem _ _ Hst). lia.
  - pose proof (times_elem _ _ Hre). lia.
Qed.


(** ** Accounting of queue_len *)

(** Pending tasks that are not cancelled, as queue_len counts them. *)
Definition live_count (q : queues) : nat :=
  (length (filter (fun t => t ∉ tombs q) (ringed q)) + length (concat (lanes q)))%nat.

Definition counts (x : pstate) : nat := match x with PCounted _ | PRefused _ => 1 | _ => 0 end.
Definition mid (ps : list pstate) : nat := sum_list_with counts ps.

(** The one pass after which the count is off: a displaced worker that spills
    a cancelled task from its deque to a lane. *)
Definition clean_spill (p : pool) (ev : pevent) : bool :=
  match ev with
  | EvPass w _ =>
      negb ((worker_count p <=? w)%nat && negb (shutdown p)) ||
      forallb (fun t => negb (bool_decide (t ∈ tombs (qs p)))) (deques (qs p) !!! w)
  | _ => true
  end.

Definition balanced (p : pool) : Prop := qlen (qs p) = u32 (Z.of_nat (live_count (qs p) + mid (prods p))).

Lemma mid_insert ps k x y : ps !! k = Some y -> (counts y + mid (<[k := x]> ps) = counts x + mid ps)%nat.
Proof. apply sum_insert. Qed.

(** queue_len and the count move together, by at most [g]. *)
Definition moves (g : Z) (p p' : pool) : Prop :=
  exists delta, delta <= g /\
    (delta = 0 /\ qlen (qs p') = qlen (qs p) \/ qlen (qs p') = u32 (qlen (qs p) + delta)) /\
    Z.of_nat (live_count (qs p') + mid (prods p')) = Z.of_nat (live_count (qs p) + mid (prods p)) + delta.

Lemma moves_intro p p' delta g :
  delta <= g -> (delta = 0 /\ qlen (qs p') = qlen (qs p) \/ qlen (qs p') = u32 (qlen (qs p) + delta)) ->
  Z.of_nat (live_count (qs p') + mid (prods p')) = Z.of_nat (live_count (qs p) + mid (prods p)) + delta -> moves g p p'.
Proof. intros. by exists delta. Qed.

Lemma moves_balanced g p p' : balanced p -> moves g p p' -> balanced p'.
Proof.
  unfold balanced. intros Hb (delta & _ & [[-> Hq]|Hq] & ->); rewrite Hq, Hb; [by rewrite Z.add_0_r|]. apply u32_add_l.
Qed.

(** What an event may add to the count. *)
Definition growth (p : pool) (ev : pevent) : Z :=
  match ev with
  | EvCreate _ true => 1
  | EvLane _ _ => if (0 <? queue_capacity p) && (queue_capacity p <=? qlen (qs p)) then 0 else 1
  | EvSpill _ => if at_capacity p then 0 else 1
  | _ => 0
  end.

Lemma live_perm q q' :
  ringed q' ≡ₚ ringed q -> length (concat (lanes q')) = length (concat (lanes q)) -> tombs q' = tombs q -> live_count q' = live_count q.
Proof. intros Hr Hl Ht. unfold live_count. rewrite Ht, Hl. f_equal. by rewrite Hr. Qed.

(** Marking the tasks [C] as cancelled. *)
Lemma filter_tombs (T : gset nat) (C l : list nat) :
  NoDup l -> NoDup C -> (forall t, t ∈ C -> t ∈ l /\ t ∉ T) ->
  (length (filter (fun t => t ∉ T ∪ list_to_set C) l) + length C = length (filter (fun t => t ∉ T) l))%nat.
Proof.
  intros Hl HC. revert T. induction HC as [|c C Hc HC IH]; intros T Hin.
  { simpl. rewrite (list_filter_iff' _ (fun t => t ∉ T)); [lia|set_solver]. }
  simpl list_to_set. rewrite (list_filter_iff' _ (fun t => t ∉ (T ∪ {[c]}) ∪ list_to_set C)) by set_solver.
  specialize (IH (T ∪ {[c]})). simpl length. rewrite Nat.add_succ_r, IH.
  - rewrite (length_filter_add (fun t => t ∉ T ∪ {[c]}) (fun t => t ∉ T) l c); [done|done|by apply Hin; left|set_solver|].
    intros t. destruct (decide (t = c)) as [->|]; [|set_solver]. split; [by right|]. intros _. by apply Hin; left.
  - intros t Ht. destruct (Hin t ltac:(by right)). split; [done|]. set_solver.
Qed.

Lemma filter_take (T : gset nat) l t l' :
  l ≡ₚ t :: l' -> length (filter (fun u => u ∉ T) l) = (length (filter (fun u => u ∉ T) l') + if decide (t ∈ T) then 0 else 1)%nat.
Proof.
  intros Hp. rewrite Hp, filter_cons. destruct (decide (t ∈ T)), (decide (t ∉ T)); try done; simpl; lia.
Qed.

Lemma ringed_nodup p : pwf p -> NoDup (ringed (qs p)).
Proof.
  intros Hp. pose proof (universe_nodup p Hp) as Hn. unfold universe, waiting in Hn.
  by apply NoDup_app in Hn as [[Hn _]%NoDup_app _].
Qed.

Lemma held_not_tomb p k x t : pwf p -> life p -> prods p !! k = Some x -> t ∈ held_by x -> t ∉ tombs (qs p).
Proof.
  intros Hp Hl Hk Ht Htb. pose proof (universe_nodup p Hp) as Hn. unfold universe in Hn.
  apply NoDup_app in Hn as (_ & Hd & Hn). apply NoDup_app in Hn as (_ & Hd2 & _).
  assert (Hh : t ∈ held (prods p)).
  { unfold held. rewrite list_elem_of_In, in_concat. exists (held_by x).
    rewrite <- !list_elem_of_In. split; [by apply list_elem_of_fmap_2, list_elem_of_lookup_2 with k|done]. }
  apply (l_tacc _ Hl), (l_acc _ Hl) in Htb. destruct Htb as [Hw|Hg].
  - apply (Hd t Hw). set_solver.
  - apply (Hd2 t Hh), gone_elem. tauto.
Qed.

Lemma mid_idle k : mid (replicate k PIdle) = 0%nat.
Proof. induction k as [|k IH]; [done|]. unfold mid in *. simpl. exact IH. Qed.

Lemma clean_forall (T : gset nat) l : forallb (fun t => negb (bool_decide (t ∈ T))) l = true -> Forall (fun t => t ∉ T) l.
Proof.
  rewrite forallb_forall, Forall_forall. intros H t Ht. apply list_elem_of_In, H in Ht. by case_bool_decide.
Qed.

Lemma moves_le p p' g : 0 <= g -> moves 0 p p' -> moves g p p'.
Proof. intros Hg (d & ? & ?). exists d. split; [lia|done]. Qed.

Lemma growth_nonneg p ev : 0 <= growth p ev.
Proof. destruct ev; simpl; repeat case_if; lia. Qed.

Ltac grow := simpl; repeat match goal with H : ?b = false |- context [if ?b then _ else _] => rewrite H end; lia.

Lemma balance_pass p w cas_ok :
  pwf p -> qlen_ok p -> clean_spill p (EvPass w cas_ok) = true -> workers p !! w = Some WLoop -> moves 0 p (worker_pass p w cas_ok).
Proof.
  intros Hp Hr Hcl Ew. pose proof Hp as (Hq & Hwc & _). pose proof (lookup_lt_Some _ _ _ Ew) as Hlt. unfold worker_pass.
  destruct (_ && negb _) eqn:Esh.
  { set (q0 := mk_queues _ _ _ _ _ _). assert (Hs0 : q_shape (length (workers p)) q0).
    { destruct Hq; split; [done|simpl; by rewrite length_insert]. }
    destruct (spill_deque_spec _ (prio_of p) (deques (qs p) !!! w) q0 Hs0 (prio_lt p) Hr) as (H1 & H2 & H3 & H4 & H5 & H6 & H7).
    apply (moves_intro p _ 0); [grow|by left|]. simpl. rewrite Z.add_0_r. do 2 f_equal.
    simpl in Hcl. rewrite Esh in Hcl. apply clean_forall in Hcl.
    pose proof (concat_insert _ _ _ [] (deque_read _ _ w Hq Hlt)) as Hc. simpl in Hc.
    unfold live_count, ringed. rewrite H2, H3, H4, H7. simpl. rewrite length_app, !filter_app, !length_app, <- Hc.
    rewrite filter_app, length_app, (filter_all _ _ Hcl). lia. }
  case_if; [by apply (moves_intro p _ 0); [grow|left|simpl; lia]|]. destruct (take_task _ _ _ _ _ _) as [q' r] eqn:Et.
  destruct (take_task_spec _ _ _ _ _ _ _ _ _ Hq Hlt Hwc Et) as [(_ & _ & Htb & Ht) _].
  destruct r as [[t []]|]; [|..|subst; by apply (moves_intro p _ 0); [grow|left|simpl; lia]].
  - destruct Ht as (Hp' & Hlan & Hlen). pose proof (filter_take (tombs (qs p)) _ _ _ Hp') as Hf. cbn [tombs].
    rewrite Htb. case_bool_decide as Hin.
    + apply (moves_intro p _ 0); [grow|by left|]. rewrite decide_True in Hf by done.
      unfold live_count, ringed in *. simpl. rewrite ?Htb, Hlan. lia.
    + apply (moves_intro p _ (-1)); [grow|right; simpl; by rewrite Hlen|]. rewrite decide_False in Hf by done.
      unfold live_count, ringed in *. simpl. rewrite ?Htb, Hlan. lia.
  - destruct Ht as (Hri & Hde & Hc & Hlen). case_bool_decide;
      (apply (moves_intro p _ (-1)); [grow|right; simpl; by rewrite Hlen|]); unfold live_count, ringed; simpl;
      rewrite Hri, Hde, Htb, Hc; simpl; lia.
Qed.

Lemma moves_same p p' : qs p' = qs p -> mid (prods p') = mid (prods p) -> moves 0 p p'.
Proof. intros H1 H2. apply (moves_intro p _ 0); [grow|left; by rewrite H1|]. rewrite H1, H2. lia. Qed.

Lemma balance_cancel p : pwf p -> idx_ok p -> forall p1, cancel_effect p p1 -> moves 0 p p1.
Proof.
  intros Hp Hx p1 [->|[(t & Hi & Ht & ->)|[test ->]]]; [by apply moves_same|..].
  - apply (moves_intro p _ (-1)); [grow|by right|].
    pose proof (filter_tombs (tombs (qs p)) [t] (ringed (qs p)) (ringed_nodup p Hp) (NoDup_singleton t)) as Hf.
    unfold live_count. simpl. simpl in Hf. rewrite union_empty_r_L in Hf. unfold ringed in *. simpl in *.
    specialize (Hf ltac:(intros u ->%list_elem_of_singleton; split; [by apply Hx|done])). lia.
  - unfold cancel_lane. destruct (lane_remove _ _) as [[t L]|] eqn:E; [|by apply moves_same].
    apply lane_remove_spec in E as (_ & Hc & _). apply (moves_intro p _ (-1)); [grow|by right|].
    unfold live_count, ringed. simpl. rewrite Hc. simpl. lia.
Qed.

Lemma balance_preserved p ev p' :
  pwf p -> qlen_ok p -> idx_ok p -> life p -> clean_spill p ev = true -> pstep p ev = Some p' -> moves (growth p ev) p p'.
Proof.
  intros Hp Hr Hx Hl Hcl Hs. pose proof Hp as (Hq & Hwc & _).
  assert (Hsame : forall p', qs p' = qs p -> mid (prods p') = mid (prods p) -> moves 0 p p') by (by apply moves_same).
  pose proof (balance_cancel p Hp Hx) as Hcan.
  destruct ev; simpl in Hs; try (destruct (prods p !! k) as [[]|] eqn:Ek); simplify_eq;
    try (pose proof (fun x => mid_insert _ _ x _ Ek) as Hm; simpl in Hm).
  1-6: apply Hsame; [done|]; simpl; rewrite Hm; unfold enqueue_task, wait_for_space_woken, wait_for_space, route; by repeat case_if.
  - destruct ok; simplify_eq; [|apply Hsame; [done|]; simpl; by rewrite Hm].
    apply (moves_intro p _ 1); [grow|by right|]. simpl. rewrite Hm. simpl. unfold live_count, ringed. simpl. lia.
  - destruct ok; [destruct (_ <? _)%nat|]; simplify_eq; [|apply Hsame; [done|]; specialize (Hm (PRefused t)); simpl in *; lia].
    assert (Htt : t ∉ tombs (qs p)) by (apply (held_not_tomb p k (PCounted t) t Hp Hl Ek); constructor).
    apply (moves_intro p _ 0); [grow|by left|]. specialize (Hm (PClaimed t)). simpl in *. unfold live_count, ringed. simpl.
    rewrite fmap_app, !filter_app, !length_app. simpl. rewrite filter_cons, decide_True by done. simpl. lia.
  - apply (moves_intro p _ 0); [grow|by left|]. simpl. rewrite Hm. unfold live_count, ringed. simpl. rewrite publish_cells. lia.
  - apply Hsame; [done|]. simpl. by rewrite Hm.
  - apply (moves_intro p _ (-1)); [grow|by right|]. specialize (Hm (PSpill t)). simpl in *. unfold live_count, ringed. simpl. lia.
  - unfold spill_to_normal_lane. repeat case_if; [by apply (moves_le _ _ _ (growth_nonneg _ _)), Hsame; simpl; rewrite ?Hm..|].
    apply (moves_intro p _ 1); [grow|by right|]. specialize (Hm (PPost t)).
    pose proof (lane_put_waiting _ _ (prio_of p t) t Hq (prio_lt _ _)) as Hlp. unfold live_count, ringed. simpl in *. rewrite Hlp. simpl. lia.
  - unfold enqueue_lane_task. repeat case_if; [by apply (moves_le _ _ _ (growth_nonneg _ _)), Hsame; simpl; rewrite ?Hm..|].
    apply (moves_intro p _ 1); [grow|by right|]. specialize (Hm (PRet LOOMWORKS_OK)).
    pose proof (lane_put_waiting _ _ (lane_of r) (S (next_id p)) Hq (lane_of_lt _)) as Hlp. unfold live_count, ringed. simpl in *. rewrite Hlp. simpl. lia.
  - apply Hsame; [done|]. simpl. by rewrite Hm.
  - destruct (workers p !! w) as [[]|] eqn:Ew; simplify_eq. by apply balance_pass.
  - destruct (workers p !! w) as [[]|] eqn:Ew; simplify_eq. destruct (work_sem p); simplify_eq. by apply Hsame.
  - destruct (workers p !! w) as [[]|] eqn:Ew; simplify_eq. by apply Hsame.
  - apply Hcan, cancel_by_id_effect.
  - destruct (loom_pool_cancel p d pick) as [[rc p1]|] eqn:Ec; simplify_eq/=. exact (Hcan _ (cancel_data_effect _ _ _ _ _ Ec)).
  - unfold loom_pool_cancel_all. case_if; [by apply Hsame|]. set (cl := filter _ _).
    apply (moves_intro p _ (- Z.of_nat (length cl + length (concat (lanes (qs p)))))); [grow|by right|].
    pose proof (filter_tombs (tombs (qs p)) cl (ringed (qs p)) (ringed_nodup p Hp)) as Hf.
    unfold live_count, ringed in *. simpl. rewrite concat_nils. simpl.
    specialize (Hf ltac:(apply NoDup_filter, NoDup_elements)).
    specialize (Hf ltac:(intros u [? Hu]%list_elem_of_filter; split; [apply Hx; by apply elem_of_elements in Hu|done])). lia.
  - unfold loom_pool_shutdown. case_if; by apply Hsame.
  - destruct (workers p !! w) as [[]|] eqn:Ew; simplify_eq. destruct (shutdown p || _); simplify_eq. by apply Hsame.
  - destruct (shutdown p && _); simplify_eq. by apply Hsame.
  - destruct (forallb _ _); simplify_eq. unfold loom_pool_resize. repeat case_if; try by apply Hsame.
    apply (moves_intro p _ 0); [grow|by left|]. simpl. rewrite Z.add_0_r. do 2 f_equal. apply live_perm; try done.
    unfold ringed. simpl. rewrite concat_app.
    assert (Hz : concat (replicate (n - length (workers p)) ([] : list nat)) = []) by (induction (n - length (workers p))%nat; done).
    by rewrite Hz, app_nil_r.
Qed.

Lemma reach_balanced cap slots n k rmode evs p :
  (0 < n)%nat -> prun (pool_start cap slots n k rmode) evs = Some p ->
  along clean_spill (pool_start cap slots n k rmode) evs = true -> balanced p.
Proof.
  intros Hn Hr Hcl.
  refine (proj2 (prun_ind (fun p => (pwf p /\ qlen_ok p /\ idx_ok p /\ life p) /\ balanced p) clean_spill _ evs _ p _ Hr Hcl)).
  - intros p0 ev p1 ((Hp & Hq & Hx & Hl) & Hb) Hc Hs. split; [|eapply moves_balanced; [done|by eapply balance_preserved]].
    split_and!; [by eapply pwf_step|by eapply qlen_ok_step|by eapply idx_step|by eapply life_step].
  - split; [by apply start_life|]. unfold balanced. simpl. unfold live_count, ringed. simpl.
    assert (H1 : forall m, concat (replicate m ([] : list nat)) = []) by (induction m; done).
    rewrite !H1, mid_idle. change (concat (replicate 256 ([] : list nat))) with ([] : list nat). done.
Qed.


(** ** A concrete run: one worker, one producer, two tasks, one cancelled *)

Definition demo_req : request := mk_request 7 70 LOOMWORKS_PRIORITY_NORMAL false false false.
Definition ring_submit (k : nat) : list pevent :=
  [EvSubmit k demo_req false; EvCreate k true; EvClaim k true true; EvPublish k; EvCount k; EvPost k].
Definition demo_run : list pevent :=
  ring_submit 0 ++ ring_submit 0 ++ [EvCancelId 2; EvPass 0 true; EvFinish 0; EvPass 0 true; EvPass 0 true].


