(* ===== verification/PoolProgress.v ===== *)
(** * Progress, shutdown and capacity of the pool.

    Theorems about the runs of Pool.v: pending work never sits behind sleeping
    workers (no lost wake-up), a worker that leaves at shutdown leaves nothing
    behind, a bounded queue exceeds its capacity by at most the number of
    producers; and the runs that show where these promises stop: a spurious
    failure of the weak compare-and-swap, a submit that races with shutdown, a
    displaced worker that spills a cancelled task. *)
From S2P Require Import Prelude Types Pool.

(** ** What a pass leaves in the queues *)

(** A pass never grows another worker's deque and only shortens the ring. *)
Definition pass_frame (idx : nat) (q q' : queues) : Prop :=
  (forall v, v <> idx -> deques q !!! v = [] -> deques q' !!! v = []) /\ (forall c, c ∈ ring q' -> c ∈ ring q).

Lemma pass_frame_trans idx q1 q2 q3 : pass_frame idx q1 q2 -> pass_frame idx q2 q3 -> pass_frame idx q1 q3.
Proof. intros [H1 H2] [H3 H4]. split; eauto. Qed.

Lemma lane_take_frame idx q mx t q' : lane_take q mx = Some (t, q') -> pass_frame idx q q'.
Proof. unfold lane_take. destruct (lane_pop _ _) as [[? ?]|]; [|done]. intros [= _ <-]. by split. Qed.

Lemma pop_own_frame idx q t q' : pop_own idx q = Some (t, q') -> pass_frame idx q q'.
Proof.
  unfold pop_own. destruct (deques q !!! idx); [done|]. intros [= _ <-]. split; [|done].
  intros v Hv. simpl. by rewrite array_read_insert_ne.
Qed.

Lemma steal_frame vs idx q t q' : steal_from vs idx q = Some (t, q') -> pass_frame idx q q'.
Proof.
  induction vs as [|v vs IH]; simpl; [done|]. destruct (v =? idx)%nat; [done|].
  destruct (deque_steal (deques q !!! v)) as [[u l]|] eqn:E; [|done]. intros [= _ <-]. split; [|done].
  intros x Hx Hn. simpl. destruct (decide (x = v)) as [->|]; [|by rewrite array_read_insert_ne].
  unfold deque_steal in E. by rewrite Hn in E.
Qed.

Lemma ring_bulk_suffix n l b r c : ring_bulk n l = (b, r) -> c ∈ r -> c ∈ l.
Proof.
  revert l b r. induction n as [|n IH]; intros l b r; simpl; [by intros [= _ <-]|].
  destruct l as [|[t []] l]; try (by intros [= _ <-]). destruct (ring_bulk n l) as [b' r'] eqn:E. intros [= _ <-] Hc.
  right. by eapply IH.
Qed.

Lemma refill_frame n prio idx cas_ok q q' r :
  q_shape n q -> (idx < n)%nat -> deques q !!! idx = [] -> refill prio idx cas_ok q = (q', r) -> pass_frame idx q q'.
Proof.
  intros Hs Hi He. unfold refill.
  destruct (if cas_ok then _ else _) as [batch rest] eqn:Ebq.
  assert (Hb : (length batch <= 8)%nat /\ forall c, c ∈ rest -> c ∈ ring q).
  { destruct cas_ok; [|simplify_eq; simpl; split; [lia|done]].
    split; [by apply ring_bulk_spec in Ebq as [_ ?]|]. intros c. by eapply ring_bulk_suffix. }
  destruct Hb as [Hbl Hrest]. rewrite push_batch_fits by (simpl; destruct Hs; rewrite ?He; simpl; lia). simpl.
  assert (Hf : pass_frame idx q (mk_queues (qlen q) rest (<[idx := rev batch ++ (deques q !!! idx)]> (deques q)) (lanes q) (index q) (tombs q))).
  { split; [|done]. intros v Hv. simpl. by rewrite array_read_insert_ne. }
  destruct (pop_own _ _) as [[t q2]|] eqn:Ep; intros [= <- _]; [|done].
  eapply pass_frame_trans; [exact Hf|by eapply pop_own_frame].
Qed.

Lemma take_task_frame n prio rmode wc idx cas_ok q q' r :
  q_shape n q -> (idx < n)%nat -> take_task prio rmode wc idx cas_ok q = (q', r) -> pass_frame idx q q'.
Proof.
  intros Hs Hi. unfold take_task.
  destruct (lane_take q 4) as [[t0 q0]|] eqn:E0; [intros [= <- _]; by eapply lane_take_frame|].
  destruct (if rmode then pop_own idx q else None) as [[t1 q1]|] eqn:E1.
  { destruct rmode; [|done]. intros [= <- _]. by eapply pop_own_frame. }
  destruct (if rmode then refill prio idx cas_ok q else (q, None)) as [q2 r2] eqn:E2.
  assert (Hf : pass_frame idx q q2).
  { destruct rmode; [|by simplify_eq]. eapply refill_frame; [done|done| |done].
    unfold pop_own in E1. by destruct (deques q !!! idx). }
  destruct r2 as [t2|]; [by intros [= <- _]|].
  destruct (if rmode && (1 <? wc)%nat then _ else None) as [[t3 q3]|] eqn:E3.
  { destruct (rmode && (1 <? wc)%nat); [|done]. intros [= <- _]. eapply pass_frame_trans; [done|by eapply steal_frame]. }
  destruct (negb rmode || negb (ring_has_work q2)); [|by intros [= <- _]].
  destruct (lane_take q2 255) as [[t4 q4]|] eqn:E4; intros [= <- _]; [|done].
  eapply pass_frame_trans; [done|by eapply lane_take_frame].
Qed.

(** ** No lost wake-up *)

Definition active (x : wstate) : bool := match x with WLoop | WRun _ => true | _ => false end.
Definition publishing (x : pstate) : bool := match x with PClaimed _ | PUncounted _ | PPost _ => true | _ => false end.
Definition ringing (x : pstate) : bool := match x with PRing _ | PCounted _ => true | _ => false end.

Definition stirring (p : pool) : Prop :=
  (0 < work_sem p)%nat \/ (exists w x, workers p !! w = Some x /\ active x = true) \/
  (exists k x, prods p !! k = Some x /\ publishing x = true).

Record wake (p : pool) : Prop := {
  w_deq : forall w, deques (qs p) !!! w <> [] -> exists x, workers p !! w = Some x /\ active x = true;
  w_claim : forall t, (t, false) ∈ ring (qs p) -> exists k, prods p !! k = Some (PClaimed t);
  w_mode : ring_mode p = false ->
    ring (qs p) = [] /\ (forall w, deques (qs p) !!! w = []) /\ forall k x, prods p !! k = Some x -> ringing x = false;
  w_stir : shutdown p = false -> ring (qs p) <> [] \/ concat (lanes (qs p)) <> [] -> stirring p;
  w_alive : shutdown p = false -> forall w, (w < worker_count p)%nat ->
    exists x, workers p !! w = Some x /\ (active x = true \/ x = WWait);
}.

(** A producer moves between states that own no ring cell; the queues keep
    what [wake] looks at. *)
Lemma wake_producer p p' k x y :
  wake p -> prods p !! k = Some y -> prods p' = <[k := x]> (prods p) -> workers p' = workers p ->
  deques (qs p') = deques (qs p) -> ring (qs p') = ring (qs p) -> ring_mode p' = ring_mode p ->
  worker_count p' = worker_count p -> shutdown p' = shutdown p -> (work_sem p <= work_sem p')%nat ->
  (ring_mode p = false -> ringing x = false) ->
  (forall t, y <> PClaimed t) -> (publishing y = true -> publishing x = true \/ (0 < work_sem p')%nat) ->
  (lanes (qs p') = lanes (qs p) \/ (0 < work_sem p')%nat \/ publishing x = true) -> wake p'.
Proof.
  intros [H1 H2 H3 H4 H5] Hk Hp Hw Hd Hr Hm Hc Hsd Hsem Hx Hy Hpub Hl.
  assert (Hki : (k < length (prods p))%nat) by (by eapply lookup_lt_Some).
  split; rewrite ?Hd, ?Hw, ?Hr, ?Hm, ?Hc, ?Hsd; try done.
  - intros t Ht. destruct (H2 t Ht) as [j Hj]. exists j. rewrite Hp, list_lookup_insert_ne; [done|]. intros ->. naive_solver.
  - intros Hf. destruct (H3 Hf) as (Hring & Hde & Hprod). split; [done|]. split; [done|]. intros j z. rewrite Hp, list_lookup_insert_Some.
    intros [(<- & <- & _)|[_ Hz]]; [by apply Hx|by eapply Hprod].
  - intros Hf Hne. unfold stirring. rewrite Hw.
    destruct Hl as [Hl|[Hl|Hl]]; [|by left|right; right; exists k, x; by rewrite Hp, list_lookup_insert_eq].
    rewrite Hl in Hne. destruct (H4 Hf Hne) as [?|[?|(j & z & Hj & Hz)]]; [left; lia|by right; left|].
    destruct (decide (j = k)) as [->|Hjk]; [|right; right; exists j, z; by rewrite Hp, list_lookup_insert_ne].
    assert (z = y) as -> by congruence. destruct (Hpub Hz) as [Hpx|]; [|by left]. right. right. exists k, x. by rewrite Hp, list_lookup_insert_eq.
Qed.

(** Some worker moves; ring and lanes only shrink and the deques of the others
    only empty. *)
Lemma wake_worker p p' w x y :
  wake p -> workers p !! w = Some y -> workers p' = <[w := x]> (workers p) -> prods p' = prods p ->
  (forall v, v <> w -> deques (qs p) !!! v = [] -> deques (qs p') !!! v = []) ->
  (deques (qs p') !!! w <> [] -> active x = true) -> (ring_mode p = false -> deques (qs p') !!! w = []) ->
  (forall c, c ∈ ring (qs p') -> c ∈ ring (qs p)) -> ring_mode p' = ring_mode p -> worker_count p' = worker_count p ->
  shutdown p' = shutdown p ->
  (shutdown p = false -> active x = true \/ (0 < work_sem p')%nat \/
     concat (lanes (qs p')) = [] /\ (forall c, head (ring (qs p')) = Some c -> c.2 = false)) ->
  (shutdown p = false -> (w < worker_count p)%nat -> active x = true \/ x = WWait) -> wake p'.
Proof.
  intros [H1 H2 H3 H4 H5] Hw Hws Hps Hdo Hdw Hdm Hr Hm Hc Hsd Hst Hal.
  assert (Hwi : (w < length (workers p))%nat) by (by eapply lookup_lt_Some).
  split; rewrite ?Hps, ?Hm, ?Hc, ?Hsd.
  - intros v Hv. rewrite Hws. destruct (decide (v = w)) as [->|Hvw].
    { exists x. rewrite list_lookup_insert_eq by done. auto. }
    rewrite list_lookup_insert_ne by done. apply H1. intros He. by apply Hv, Hdo.
  - intros t Ht. by apply H2, Hr.
  - intros Hf. destruct (H3 Hf) as (Hn & Hde & Hp). split_and!; [|intros v; destruct (decide (v = w)) as [->|]; eauto|done].
    destruct (ring (qs p')) as [|c l] eqn:E; [done|].
    exfalso. specialize (Hr c ltac:(constructor)). rewrite Hn in Hr. by apply not_elem_of_nil in Hr.
  - intros Hf Hne. destruct (Hst Hf) as [Ha|[Hs|[Hla Hhd]]].
    + right. left. exists w, x. by rewrite Hws, list_lookup_insert_eq.
    + by left.
    + right. right. destruct Hne as [Hne|Hne]; [|by rewrite Hla in Hne].
      destruct (ring (qs p')) as [|[t b] l] eqn:E; [done|]. specialize (Hhd (t, b) eq_refl). simpl in Hhd. subst b.
      destruct (H2 t) as [k Hk]; [apply Hr; constructor|]. exists k, (PClaimed t). by rewrite Hps.
  - intros Hf v Hv. rewrite Hws. destruct (decide (v = w)) as [->|Hvw]; [exists x; rewrite list_lookup_insert_eq by done; auto|].
    rewrite list_lookup_insert_ne by done. by apply H5.
Qed.

Lemma wake_pass p w : pwf p -> qlen_ok p -> wake p -> workers p !! w = Some WLoop -> wake (worker_pass p w true).
Proof.
  intros Hp Hr Hk Ew. pose proof Hp as (Hq & Hwc & _). pose proof (lookup_lt_Some _ _ _ Ew) as Hlt. unfold worker_pass.
  destruct (_ && negb _) eqn:Esh.
  { set (q0 := mk_queues _ _ _ _ _ _). assert (Hs0 : q_shape (length (workers p)) q0).
    { destruct Hq; split; [done|simpl; by rewrite length_insert]. }
    destruct (spill_deque_spec _ (prio_of p) (deques (qs p) !!! w) q0 Hs0 (prio_lt p) Hr) as (H1 & H2 & H3 & _).
    apply andb_prop in Esh as [Ele%Nat.leb_le _].
    eapply (wake_worker p _ w WExit); try done; simpl; rewrite ?H2, ?H3; simpl; try done.
    - intros v Hv. by rewrite array_read_insert_ne.
    - rewrite array_read_insert_eq; [done|]. destruct Hq. lia.
    - intros _. rewrite array_read_insert_eq; [done|]. destruct Hq. lia.
    - intros _. right. left. lia.
    - lia. }
  destruct (shutdown p && _ && _ && _) eqn:Eex.
  { zbool. assert (Hde : deques (qs p) !!! w = []); [|by apply (wake_worker p _ w WExit WLoop); simpl; congruence || auto].
    rewrite list_lookup_total_alt. destruct (deques (qs p) !! w) as [l|] eqn:El; [|done]. simpl.
    rewrite forallb_forall in H0. apply list_elem_of_lookup_2, list_elem_of_In, H0 in El. apply Nat.eqb_eq in El.
    by apply nil_length_inv. }
  destruct (take_task _ _ _ _ _ _) as [q' r] eqn:Et.
  destruct (take_task_spec _ _ _ _ _ _ _ _ _ Hq Hlt Hwc Et) as [Ht Hnone].
  destruct (take_task_frame _ _ _ _ _ _ _ _ _ Hq Hlt Et) as [Hf1 Hf2].
  assert (Hdm : ring_mode p = false -> deques q' !!! w = []).
  { intros Hm. destruct (w_mode _ Hk Hm) as (_ & He & _). unfold take_task in Et. rewrite Hm in Et. simpl in Et.
    unfold lane_take in Et. destruct (lane_pop _ 4) as [[? ?]|]; [by simplify_eq|].
    destruct (lane_pop _ 255) as [[? ?]|]; by simplify_eq. }
  destruct r as [[t fr]|].
  - case_bool_decide; [apply (wake_worker p _ w WLoop WLoop)|apply (wake_worker p _ w (WRun t) WLoop)]; try done; simpl;
      try (destruct fr; done); auto.
  - destruct Ht as (_ & _ & _ & ->). destruct (Hnone eq_refl) as [Hd Hl]. destruct (Hl eq_refl) as [Hh Hla].
    assert (Hde : deques (qs p) !!! w = []) by (destruct (ring_mode p); auto).
    apply (wake_worker p _ w (if shutdown p then WLoop else WWait) WLoop); try done; simpl; try congruence.
    + intros Hsd. rewrite Hsd. right. right. split; [done|]. intros [t b] Hc.
      destruct (ring_mode p) eqn:Em; [|by rewrite (proj1 (w_mode _ Hk Em)) in Hc].
      specialize (Hh eq_refl). unfold ring_has_work in Hh. destruct (ring (qs p)) as [|[u c] l]; [done|].
      simpl in Hc. simplify_eq. by destruct b.
    + intros ->. auto.
Qed.

(** Every compare-and-swap of a pass on ring_head succeeds. *)
Definition strong_cas (p : pool) (ev : pevent) : bool := match ev with EvPass _ c => c | _ => true end.

Lemma route_ringing p r : ring_mode p = false -> ringing (route p r) = false.
Proof. intros Hm. unfold route. by rewrite Hm, andb_false_r. Qed.

Lemma wake_shrink p p' :
  wake p -> prods p' = prods p -> workers p' = workers p -> ring (qs p') = ring (qs p) -> deques (qs p') = deques (qs p) ->
  (concat (lanes (qs p)) = [] -> concat (lanes (qs p')) = []) -> ring_mode p' = ring_mode p ->
  worker_count p' = worker_count p -> work_sem p' = work_sem p -> shutdown p' = shutdown p -> wake p'.
Proof.
  intros [H1 H2 H3 H4 H5] Hp Hw Hr Hd Hl Hm Hc Hs Hsd. split; rewrite ?Hp, ?Hw, ?Hr, ?Hd, ?Hm, ?Hc, ?Hsd; try done.
  intros Hf Hne. unfold stirring. rewrite Hp, Hw, Hs. apply (H4 Hf). destruct Hne as [?|Hne]; [by left|right].
  intros He. by apply Hne, Hl.
Qed.

Lemma wake_cancel p p1 : wake p -> cancel_effect p p1 -> wake p1.
Proof.
  intros Hk [->|[(t & _ & _ & ->)|[test ->]]]; [done|by apply (wake_shrink p)|].
  unfold cancel_lane. destruct (lane_remove _ _) as [[t L]|] eqn:E; [|done].
  apply lane_remove_spec in E as (_ & Hc & _). apply (wake_shrink p); try done. simpl. intros He. rewrite He in Hc.
  by apply Permutation_nil_cons in Hc.
Qed.

Lemma wake_claim p k t q :
  wake p -> prods p !! k = Some (PCounted t) -> ring q = ring (qs p) ++ [(t, false)] -> deques q = deques (qs p) ->
  lanes q = lanes (qs p) -> wake (add_log (set_prod (set_qs p q) k (PClaimed t)) [Accepted t]).
Proof.
  intros [H1 H2 H3 H4 H5] Hk Hr Hd Hl. assert (Hki : (k < length (prods p))%nat) by (by eapply lookup_lt_Some).
  split; simpl; rewrite ?Hd, ?Hr, ?Hl; try done.
  - intros u [Hu|Hu]%elem_of_app; [|apply list_elem_of_singleton in Hu; simplify_eq; exists k; by rewrite list_lookup_insert_eq].
    destruct (H2 u Hu) as [j Hj]. exists j. rewrite list_lookup_insert_ne; [done|]. intros ->. congruence.
  - intros Hf. destruct (H3 Hf) as (_ & _ & Hp). by specialize (Hp k _ Hk).
  - intros _ _. right. right. exists k, (PClaimed t). simpl. by rewrite list_lookup_insert_eq.
Qed.

Lemma wake_publish p k t :
  wake p -> prods p !! k = Some (PClaimed t) -> wake (set_prod (set_qs p (mk_queues (qlen (qs p))
    ((fun c => if (fst c =? t)%nat then (t, true) else c) <$> ring (qs p)) (deques (qs p)) (lanes (qs p)) (index (qs p)) (tombs (qs p)))) k (PUncounted t)).
Proof.
  intros [H1 H2 H3 H4 H5] Hk. assert (Hki : (k < length (prods p))%nat) by (by eapply lookup_lt_Some).
  split; simpl; try done.
  - intros u Hu. apply list_elem_of_fmap in Hu as ([v b] & He & Hv). simpl in He. destruct (Nat.eqb_spec v t); simplify_eq.
    destruct (H2 v Hv) as [j Hj]. exists j. rewrite list_lookup_insert_ne; [done|]. intros ->. congruence.
  - intros Hf. destruct (H3 Hf) as (Hn & Hde & Hp). rewrite Hn. split_and!; try done. intros j x.
    rewrite list_lookup_insert_Some. intros [(_ & <- & _)|[_ Hx]]; [done|by eapply Hp].
  - intros _ _. right. right. exists k, (PUncounted t). simpl. by rewrite list_lookup_insert_eq.
Qed.

Lemma wake_resize p n :
  pwf p -> wake p -> forallb (fun x => negb (alive x)) (drop (worker_count p) (workers p)) = true -> wake (loom_pool_resize p n).2.
Proof.
  intros Hp Hk Hdead. pose proof Hp as (Hq & Hwc & _). unfold loom_pool_resize.
  destruct (Nat.eqb_spec n 0); [done|]. destruct (n =? _)%nat; [done|]. destruct (shutdown p) eqn:Hsd; [done|].
  destruct Hk as [H1 H2 H3 H4 H5]. set (extra := (n - length (workers p))%nat).
  assert (Hde : forall w, (deques (qs p) ++ replicate extra []) !!! w = deques (qs p) !!! w).
  { intros w. rewrite !list_lookup_total_alt. destruct (decide (w < length (deques (qs p)))%nat) as [Hlt|Hge].
    - by rewrite lookup_app_l.
    - rewrite lookup_app_r, (lookup_ge_None_2 (deques (qs p))) by lia. simpl.
      destruct (replicate extra [] !! _) as [l|] eqn:E; [|done]. by apply lookup_replicate in E as [-> _]. }
  assert (Hact : forall w x, workers p !! w = Some x -> alive x = true ->
    imap (fun i x => if (worker_count p <=? i)%nat && (i <? n)%nat && negb (alive x) then WLoop else x)
      (workers p ++ replicate extra WDead) !! w = Some x).
  { intros w x Hx Hal. rewrite list_lookup_imap, lookup_app_l by (by eapply lookup_lt_Some). rewrite Hx. simpl. by rewrite Hal, andb_false_r. }
  split; simpl; try done.
  - intros w. rewrite Hde. intros Hn. destruct (H1 w Hn) as (x & Hx & Ha). exists x. split; [|done]. apply Hact; [done|by destruct x].
  - intros Hf. destruct (H3 Hf) as (Hn & He & Hpr). split_and!; try done. intros w. by rewrite Hde.
  - intros _ _. left. simpl. lia.
  - intros _ w Hw. destruct (decide (w < worker_count p)%nat) as [Hlt|Hge].
    + destruct (H5 Hsd w Hlt) as (x & Hx & Ha). exists x. split; [|done]. apply Hact; [done|destruct Ha as [Ha| ->]; [by destruct x|done]].
    + rewrite list_lookup_imap. assert (Hd : exists x, (workers p ++ replicate extra WDead) !! w = Some x /\ alive x = false).
      { destruct (decide (w < length (workers p))%nat) as [Hl|Hl].
        - destruct (lookup_lt_is_Some_2 (workers p) w Hl) as [x Hx]. exists x. rewrite lookup_app_l by done. split; [done|].
          rewrite forallb_forall in Hdead. specialize (Hdead x). rewrite negb_true_iff in Hdead. apply Hdead, list_elem_of_In.
          apply list_elem_of_lookup_2 with (w - worker_count p)%nat. rewrite lookup_drop. by replace (worker_count p + (w - worker_count p))%nat with w by lia.
        - exists WDead. rewrite lookup_app_r by lia. split; [|done]. apply lookup_replicate. split; [done|unfold extra; lia]. }
      destruct Hd as (x & -> & Hx). exists WLoop. simpl. rewrite Hx.
      rewrite (proj2 (Nat.leb_le _ _)), (proj2 (Nat.ltb_lt _ _)) by lia. auto.
Qed.

Lemma wake_join p w :
  wake p -> workers p !! w = Some WExit -> shutdown p || (worker_count p <=? w)%nat = true -> wake (set_worker p w WDead).
Proof.
  intros [H1 H2 H3 H4 H5] Hw Hb.
  assert (Hact : forall v x, workers p !! v = Some x -> active x = true \/ x = WWait -> <[w := WDead]> (workers p) !! v = Some x).
  { intros v x Hv Ha. rewrite list_lookup_insert_ne; [done|]. intros ->. simplify_eq. by destruct Ha. }
  split; simpl; try done.
  - intros v Hv. destruct (H1 v Hv) as (x & Hx & Ha). exists x. auto.
  - intros Hf Hne. destruct (H4 Hf Hne) as [?|[(v & x & Hx & Ha)|?]]; [by left| |by right; right].
    right. left. exists v, x. simpl. auto.
  - intros Hf v Hv. destruct (H5 Hf v Hv) as (x & Hx & Ha). exists x. auto.
Qed.

Lemma wake_step p ev p' : pwf p -> qlen_ok p -> wake p -> strong_cas p ev = true -> pstep p ev = Some p' -> wake p'.
Proof.
  intros Hp Hr Hk Hcas Hs. pose proof Hp as (Hq & Hwc & _).
  destruct ev; simpl in Hs; try (destruct (prods p !! k) as [[]|] eqn:Ek); simplify_eq.
  1,2: eapply (wake_producer p); try done; [|by left]; intros; unfold enqueue_task; repeat case_if; try done; by apply route_ringing.
  1,2: eapply (wake_producer p); try done; [|by left]; intros; by repeat case_if.
  1,2: eapply (wake_producer p); try done; [|by left]; intros; unfold wait_for_space_woken, wait_for_space; repeat case_if; try done; by apply route_ringing.
  - destruct ok; simplify_eq; (eapply (wake_producer p); try done; try by left); simpl.
    intros Hm. destruct (w_mode _ Hk Hm) as (_ & _ & H). by specialize (H _ _ Ek).
  - destruct ok; [destruct (_ <? _)%nat|]; simplify_eq; [by apply wake_claim|]. eapply (wake_producer p); try done. by left.
  - by apply wake_publish.
  - eapply (wake_producer p); try done; by left.
  - eapply (wake_producer p); try done. by left.
  - unfold spill_to_normal_lane. repeat case_if; eapply (wake_producer p); try done; simpl; auto.
  - unfold enqueue_lane_task. repeat case_if; eapply (wake_producer p); try done; simpl; auto with lia.
  - eapply (wake_producer p); try done; simpl; auto with lia.
  - destruct (workers p !! w) as [[]|] eqn:Ew; simplify_eq. simpl in Hcas. subst cas_ok. by apply wake_pass.
  - destruct (workers p !! w) as [[]|] eqn:Ew; simplify_eq. destruct (work_sem p); simplify_eq.
    apply (wake_worker p _ w WLoop WWait); try done; simpl; auto.
    intros Hm. by apply (w_mode _ Hk Hm).
  - destruct (workers p !! w) as [[]|] eqn:Ew; simplify_eq. apply (wake_worker p _ w WLoop (WRun t)); try done; simpl; auto.
    intros Hm. by apply (w_mode _ Hk Hm).
  - eapply wake_cancel; [done|apply cancel_by_id_effect].
  - destruct (loom_pool_cancel p d pick) as [[rc p1]|] eqn:Ec; simplify_eq/=. exact (wake_cancel _ _ Hk (cancel_data_effect _ _ _ _ _ Ec)).
  - unfold loom_pool_cancel_all. case_if; [done|]. apply (wake_shrink p); try done. simpl. intros _. apply concat_nils.
  - unfold loom_pool_shutdown. case_if; [done|]. destruct Hk as [H1 H2 H3 H4 H5]. by split.
  - destruct (workers p !! w) as [[]|] eqn:Ew; simplify_eq. destruct (shutdown p || _) eqn:Eb; simplify_eq.
    by apply wake_join.
  - destruct (shutdown p && _) eqn:Eb; simplify_eq. zbool. destruct Hk as [H1 H2 H3 H4 H5].
    split; simpl; try done; congruence.
  - destruct (forallb _ _) eqn:Ef; simplify_eq. by apply wake_resize.
Qed.

Lemma start_wake cap slots n k rmode : wake (pool_start cap slots n k rmode).
Proof.
  assert (Hd : forall w, replicate n ([] : list nat) !!! w = []).
  { intros w. rewrite list_lookup_total_alt. destruct (replicate n [] !! w) as [l|] eqn:E; [|done]. by apply lookup_replicate in E as [-> _]. }
  split; simpl; try done.
  - intros w Hw. by rewrite Hd in Hw.
  - intros t Ht. by apply not_elem_of_nil in Ht.
  - intros _. split_and!; try done. intros j x Hx. by apply lookup_replicate in Hx as [-> _].
  - intros _ [?|Hl]; [done|]. change (concat (replicate 256 ([] : list nat)) <> []) in Hl. by destruct Hl.
  - intros _ w Hw. exists WLoop. split; [by apply lookup_replicate|by left].
Qed.

(** C2. No lost wake-up: while the pool is not shut down and any task is
    pending anywhere, someone can move. Either a worker is running or about to
    take the lock, or a worker sleeps on a semaphore that has a token, or a
    producer is between its ring cell and its token. Every compare-and-swap
    on ring_head is assumed not to fail spuriously. *)
Theorem pool_no_lost_wakeup cap slots n k rmode evs p :
  (0 < n)%nat -> prun (pool_start cap slots n k rmode) evs = Some p ->
  along strong_cas (pool_start cap slots n k rmode) evs = true ->
  shutdown p = false -> waiting (qs p) <> [] ->
  exists ev p', pstep p ev = Some p' /\
    match ev with EvPass _ true | EvFinish _ | EvToken _ | EvPublish _ | EvCount _ | EvPost _ => True | _ => False end.
Proof.
  intros Hn Hr Hc Hsd Hw.
  assert (Hi : (pwf p /\ qlen_ok p) /\ wake p).
  { refine (prun_ind (fun p => (pwf p /\ qlen_ok p) /\ wake p) strong_cas _ evs _ p _ Hr Hc).
    - intros p0 ev p1 ((Hp & Hq) & Hk) Hok Hs. split; [split|]; [by eapply pwf_step|by eapply qlen_ok_step|by eapply wake_step].
    - split; [by apply start_pwf|apply start_wake]. }
  destruct Hi as ((Hp & _) & Hk). pose proof Hp as (Hq & Hwc & _).
  assert (Hact : forall w x, workers p !! w = Some x -> active x = true -> exists ev p', pstep p ev = Some p' /\
    match ev with EvPass _ true | EvFinish _ | EvToken _ | EvPublish _ | EvCount _ | EvPost _ => True | _ => False end).
  { intros w x Hx Ha. destruct x; try done; [exists (EvPass w true)|exists (EvFinish w)]; eexists; simpl; rewrite Hx; done. }
  assert (Hst : (exists w, deques (qs p) !!! w <> []) \/ stirring p).
  { unfold waiting, ringed in Hw. destruct (ring (qs p)) as [|c l] eqn:Er; [|right; apply (w_stir _ Hk Hsd); left; by rewrite Er].
    destruct (concat (lanes (qs p))) as [|t l] eqn:El; [|right; apply (w_stir _ Hk Hsd); right; by rewrite El].
    simpl in Hw. rewrite app_nil_r in Hw. left. destruct (concat (deques (qs p))) as [|t l] eqn:Ed; [done|].
    assert (Ht : t ∈ concat (deques (qs p))) by (rewrite Ed; constructor). rewrite list_elem_of_In, in_concat in Ht.
    destruct Ht as (d & Hd & Ht). apply list_elem_of_In, list_elem_of_lookup in Hd as [w Hd]. exists w.
    rewrite list_lookup_total_alt, Hd. simpl. intros ->. by destruct Ht. }
  destruct Hst as [[w Hd]|[Hsem|[(w & x & Hx & Ha)|(j & x & Hx & Hpub)]]].
  - destruct (w_deq _ Hk w Hd) as (x & Hx & Ha). by eapply Hact.
  - destruct (w_alive _ Hk Hsd 0 ltac:(lia)) as (x & Hx & [Ha| ->]); [by eapply Hact|].
    exists (EvToken 0). simpl. rewrite Hx. destruct (work_sem p); [lia|]. by eexists.
  - by eapply Hact.
  - destruct x; try done; [exists (EvPublish j)|exists (EvCount j)|exists (EvPost j)]; eexists; simpl; rewrite Hx; done.
Qed.

Lemma pool_no_lost_wakeup_witness :
  exists p, prun (pool_start 0 8 1 1 true) (EvPass 0 true :: ring_submit 0) = Some p /\ workers p = [WWait] /\
    exists ev p', pstep p ev = Some p' /\
      match ev with EvPass _ true | EvFinish _ | EvToken _ | EvPublish _ | EvCount _ | EvPost _ => True | _ => False end.
Proof.
  destruct (prun (pool_start 0 8 1 1 true) (EvPass 0 true :: ring_submit 0)) as [p|] eqn:E; [|vm_compute in E; discriminate E].
  assert (H : (fun p => (workers p, shutdown p, waiting (qs p))) <$> prun (pool_start 0 8 1 1 true) (EvPass 0 true :: ring_submit 0)
              = Some ([WWait], false, [2%nat])) by (vm_compute; reflexivity).
  rewrite E in H. cbn in H. injection H as H1 H2 H3.
  exists p. split; [done|]. split; [done|].
  exact (pool_no_lost_wakeup 0 8 1 1 true _ p ltac:(lia) E ltac:(vm_compute; reflexivity) H2 ltac:(rewrite H3; discriminate)).
Defined.

(** The assumption is needed: one spurious failure of the weak
    compare-and-swap in ring_bulk_try_dequeue makes the worker skip the ring,
    the full steal round and the low-priority lanes and go to sleep on an empty
    semaphore, although a published task is in the ring and the submit call has
    returned LOOMWORKS_OK; nobody is left to wake it. *)
Theorem weak_cas_loses_wakeup :
  exists p, prun (pool_start 0 8 1 1 true) (EvPass 0 true :: ring_submit 0 ++ [EvToken 0; EvPass 0 false]) = Some p /\
    ring (qs p) = [(2%nat, true)] /\ workers p = [WWait] /\ work_sem p = 0%nat /\ prods p = [PRet LOOMWORKS_OK].
Proof.
  set (evs := EvPass 0 true :: _).
  assert (H : (fun p => (ring (qs p), workers p, work_sem p, prods p)) <$> prun (pool_start 0 8 1 1 true) evs
              = Some ([(2%nat, true)], [WWait], 0%nat, [PRet LOOMWORKS_OK])) by (vm_compute; reflexivity).
  destruct (prun _ evs) as [p|]; [|done]. exists p. cbn in H. split_and!; congruence.
Qed.

(** ** Shutdown *)

(** C14. A worker that leaves because of shutdown leaves nothing behind: at
    that moment every lane and every deque is empty, ring_count is zero and
    whatever cells the ring still has (claimed, or published and not counted
    yet) hold cancelled tasks (in runs where queue_len is exact and below
    2^32). *)
Theorem pool_shutdown_drains cap slots n k rmode evs p w c :
  (0 < n)%nat -> prun (pool_start cap slots n k rmode) evs = Some p ->
  along clean_spill (pool_start cap slots n k rmode) evs = true ->
  Z.of_nat (live_count (qs p) + mid (prods p)) < 2 ^ 32 ->
  shutdown p = true -> workers p !! w = Some WLoop -> workers (worker_pass p w c) !! w = Some WExit ->
  concat (lanes (qs p)) = [] /\ concat (deques (qs p)) = [] /\ mid (prods p) = 0%nat /\
  ring_count p = 0 /\ forall t b, (t, b) ∈ ring (qs p) -> t ∈ tombs (qs p).
Proof.
  intros Hn Hr Hcl Hlt Hsd Hw Hex.
  assert (Hq : qlen (qs p) = Z.of_nat (live_count (qs p) + mid (prods p))).
  { assert (Hb : balanced p); [|unfold balanced in Hb; by rewrite u32_small in Hb by lia]. by eapply reach_balanced. }
  assert (Hwi : (w < length (workers p))%nat) by (by eapply lookup_lt_Some).
  unfold worker_pass in Hex. rewrite Hsd, andb_false_r in Hex. cbn [andb] in Hex.
  destruct ((qlen (qs p) =? 0) && _ && _) eqn:Eb.
  - zbool. rewrite Hq in H. unfold live_count in H.
    assert (Hz : length (filter (fun t => t ∉ tombs (qs p)) (ringed (qs p))) = 0%nat /\ length (concat (lanes (qs p))) = 0%nat /\ mid (prods p) = 0%nat) by lia.
    destruct Hz as (Hf & Hl & Hm). apply nil_length_inv in Hf, Hl.
    assert (Hde : concat (deques (qs p)) = []).
    { rewrite forallb_forall in H0. clear -H0. induction (deques (qs p)) as [|l L IH]; [done|]. simpl.
      rewrite IH by (intros; apply H0; by right). specialize (H0 l ltac:(by left)). apply Nat.eqb_eq, nil_length_inv in H0. by subst. }
    split_and!; try done. intros t b Hin.
    destruct (decide (t ∈ tombs (qs p))) as [|Hn']; [done|]. exfalso.
    assert (Ht : t ∈ filter (fun t => t ∉ tombs (qs p)) (ringed (qs p))).
    { apply list_elem_of_filter. split; [done|]. unfold ringed. apply elem_of_app. left. by apply (list_elem_of_fmap_2 fst _ (t, b)). }
    rewrite Hf in Ht. by apply not_elem_of_nil in Ht.
  - exfalso. destruct (take_task _ _ _ _ _ _) as [q' [[t fr]|]]; [case_bool_decide|]; simpl in Hex;
      rewrite list_lookup_insert_eq in Hex by done; discriminate.
Qed.

Lemma pool_shutdown_drains_witness :
  exists p, prun (pool_start 0 8 1 1 true) (demo_run ++ [EvToken 0; EvShutdown]) = Some p /\
    workers (worker_pass p 0 true) !! 0%nat = Some WExit /\ concat (lanes (qs p)) = [] /\ concat (deques (qs p)) = [].
Proof.
  set (evs := demo_run ++ [EvToken 0; EvShutdown]).
  destruct (prun (pool_start 0 8 1 1 true) evs) as [p|] eqn:E; [|vm_compute in E; discriminate E].
  assert (H : (fun p => (shutdown p, workers p, workers (worker_pass p 0 true), (live_count (qs p) + mid (prods p))%nat)) <$>
                prun (pool_start 0 8 1 1 true) evs = Some (true, [WLoop], [WExit], 0%nat)) by (vm_compute; reflexivity).
  rewrite E in H. cbn in H. injection H as H1 H2 H3 H4. exists p. split; [reflexivity|]. rewrite H3. split; [reflexivity|].
  pose proof (pool_shutdown_drains 0 8 1 1 true evs p 0 true ltac:(lia) E ltac:(vm_compute; reflexivity)
    ltac:(rewrite H4; reflexivity) H1 ltac:(rewrite H2; reflexivity) ltac:(rewrite H3; reflexivity)) as (Ha & Hb & _).
  exact (conj Ha Hb).
Defined.

(** A submit that races with shutdown can be lost: enqueue_task reads
    the shutdown flag once, before the node is created, and the ring path does
    not look at it again; after the workers have been joined the producer still
    publishes its task and returns LOOMWORKS_OK, and no worker is left to run
    it. *)
Theorem submit_racing_shutdown_is_lost :
  exists p,
    prun (pool_start 0 8 1 1 true)
      ([EvSubmit 0 demo_req false; EvShutdown; EvPass 0 true; EvJoin 0; EvJoined] ++ drop 1 (ring_submit 0)) = Some p /\
    joined p = true /\ workers p = [WDead] /\ prods p = [PRet LOOMWORKS_OK] /\ ring (qs p) = [(2%nat, true)] /\ qlen (qs p) = 1.
Proof.
  set (evs := _ ++ _).
  assert (H : (fun p => (joined p, workers p, prods p, ring (qs p), qlen (qs p))) <$> prun (pool_start 0 8 1 1 true) evs
              = Some (true, [WDead], [PRet LOOMWORKS_OK], [(2%nat, true)], 1)) by (vm_compute; reflexivity).
  destruct (prun _ evs) as [p|]; [|done]. exists p. cbn in H. split_and!; congruence.
Qed.

(** A displaced worker that spills a cancelled task takes queue_len below
    zero: the canceller already subtracted the task, the spill keeps the sum,
    and the lane dequeue subtracts it again. With nothing pending queue_len is
    2^32 - 1: a bounded queue stays full for ever and no worker ever finds the
    exit condition of shutdown true. *)
Theorem shrink_spill_underflows_queue_len :
  exists p,
    prun (pool_start 4 8 2 1 true)
      (ring_submit 0 ++ ring_submit 0 ++ [EvPass 1 true; EvCancelId 2; EvResize 1; EvFinish 1; EvPass 1 true; EvPass 0 true]) = Some p /\
    waiting (qs p) = [] /\ qlen (qs p) = 2 ^ 32 - 1 /\ at_capacity p = true /\
    log p = [Released 2; Finished 3; Cancelled 2; Started 3; Accepted 3; Accepted 2].
Proof.
  set (evs := ring_submit 0 ++ _).
  assert (H : (fun p => (waiting (qs p), qlen (qs p), at_capacity p, log p)) <$> prun (pool_start 4 8 2 1 true) evs
              = Some ([], 2 ^ 32 - 1, true, [Released 2; Finished 3; Cancelled 2; Started 3; Accepted 3; Accepted 2]))
    by (vm_compute; reflexivity).
  destruct (prun _ evs) as [p|]; [|done]. exists p. cbn in H. split_and!; congruence.
Qed.

(** ** Capacity *)

Definition on_ring (x : pstate) : nat := match x with PRing _ => 1 | _ => 0 end.
Definition rings (ps : list pstate) : nat := sum_list_with on_ring ps.

Lemma rings_insert ps k x y : ps !! k = Some y -> (on_ring y + rings (<[k := x]> ps) = on_ring x + rings ps)%nat.
Proof. apply sum_insert. Qed.

Lemma rings_bound ps : (rings ps <= length ps)%nat.
Proof. unfold rings. induction ps as [|x ps IH]; simpl; [lia|]. destruct x; simpl; lia. Qed.

Definition pending (p : pool) : Z := Z.of_nat (live_count (qs p) + mid (prods p)).

(** What the capacity checks guarantee before shutdown. *)
Definition within (p : pool) : Prop :=
  shutdown p = false -> pending p + Z.of_nat (rings (prods p)) <= queue_capacity p + Z.of_nat (length (prods p)).

Lemma spill_fields p k t :
  let p' := spill_to_normal_lane p k t in
  queue_capacity p' = queue_capacity p /\ shutdown p' = shutdown p /\
  exists x, prods p' = <[k := x]> (prods p) /\ on_ring x = 0%nat.
Proof. unfold spill_to_normal_lane. repeat case_if; simpl; split_and!; eauto. Qed.

Lemma lane_fields p k r ok :
  let p' := enqueue_lane_task p k r ok in
  queue_capacity p' = queue_capacity p /\ shutdown p' = shutdown p /\
  exists x, prods p' = <[k := x]> (prods p) /\ on_ring x = 0%nat.
Proof. unfold enqueue_lane_task. repeat case_if; simpl; split_and!; eauto. Qed.

Lemma pass_fields p w c :
  let p' := worker_pass p w c in
  queue_capacity p' = queue_capacity p /\ shutdown p' = shutdown p /\ prods p' = prods p.
Proof.
  unfold worker_pass. destruct (_ && negb _); [done|]. destruct (shutdown p && _ && _ && _); [done|].
  destruct (take_task _ _ _ _ _ _) as [q' [[t fr]|]]; simpl; try done. by case_bool_decide.
Qed.

Lemma cancel_fields p p1 :
  cancel_effect p p1 -> queue_capacity p1 = queue_capacity p /\ shutdown p1 = shutdown p /\ prods p1 = prods p.
Proof.
  intros [->|[(t & _ & _ & ->)|[test ->]]]; try done. unfold cancel_lane. by destruct (lane_remove _ _) as [[? ?]|].
Qed.

(** The ring path is entered only below capacity. *)
Lemma below_capacity p : at_capacity p = false -> 0 < queue_capacity p -> qlen (qs p) < queue_capacity p.
Proof. unfold at_capacity. intros H Hc. destruct (Z.eqb_spec (queue_capacity p) 0); [lia|]. simpl in H. by zbool. Qed.

(** How a step may move producer [k] from [y] to [x]. *)
Definition moves_prod (p : pool) (ev : pevent) (y x : pstate) : Prop :=
  on_ring x = 0%nat /\ (forall j, ev = EvCreate j true -> on_ring y = 1%nat) \/
  on_ring x = 1%nat /\ growth p ev = 0 /\ (shutdown p = false -> 0 < queue_capacity p -> qlen (qs p) < queue_capacity p).

Definition same_or_moved (p : pool) (ev : pevent) (p' : pool) : Prop :=
  queue_capacity p' = queue_capacity p /\ (shutdown p = true -> shutdown p' = true) /\
  (prods p' = prods p \/ exists k x y, prods p !! k = Some y /\ prods p' = <[k := x]> (prods p) /\ moves_prod p ev y x).

Lemma route_moves p ev y r :
  growth p ev = 0 -> (forall j, ev <> EvCreate j true) ->
  (shutdown p = false -> 0 < queue_capacity p -> qlen (qs p) < queue_capacity p) -> moves_prod p ev y (route p r).
Proof. intros Hg He Hc. unfold route. case_if; [by right|]. left. split; [done|]. intros j ->. by destruct (He j). Qed.

Lemma off_ring_moves p ev y x : on_ring x = 0%nat -> (forall j, ev <> EvCreate j true) -> moves_prod p ev y x.
Proof. intros Hx He. left. split; [done|]. intros j ->. by destruct (He j). Qed.

Lemma wait_moves p ev y r :
  growth p ev = 0 -> (forall j, ev <> EvCreate j true) -> moves_prod p ev y (wait_for_space p r).
Proof.
  intros Hg He. unfold wait_for_space. destruct (_ && _) eqn:E; [by apply off_ring_moves|].
  apply route_moves; [done..|]. intros Hs _. rewrite Hs, andb_true_r in E. by zbool.
Qed.

Lemma moved p ev p' k x y :
  prods p !! k = Some y -> queue_capacity p' = queue_capacity p -> shutdown p' = shutdown p ->
  prods p' = <[k := x]> (prods p) -> moves_prod p ev y x -> same_or_moved p ev p'.
Proof. intros Hk Hc Hs Hp Hm. split_and!; [done|by rewrite Hs|]. right. by exists k, x, y. Qed.

Lemma unmoved p ev p' :
  queue_capacity p' = queue_capacity p /\ shutdown p' = shutdown p /\ prods p' = prods p -> same_or_moved p ev p'.
Proof. intros (Hc & Hs & Hp). split_and!; [done|by rewrite Hs|by left]. Qed.

(** The configuration, the shutdown flag and the producers across a step. *)
Lemma step_fields p ev p' : pstep p ev = Some p' -> same_or_moved p ev p'.
Proof.
  intros Hs. destruct ev; simpl in Hs; try (destruct (prods p !! k) as [[]|] eqn:Ek); simplify_eq.
  1,2: eapply moved; [exact Ek|done..|]; unfold enqueue_task; destruct (shutdown p) eqn:Hsd; [by apply off_ring_moves|];
    destruct (at_capacity p) eqn:Hac; [case_if; by apply off_ring_moves|]; apply route_moves; [done..|]; intros _; by apply below_capacity.
  1,2: eapply moved; [exact Ek|done..|]; apply off_ring_moves; [by repeat case_if|done].
  - eapply moved; [exact Ek|done..|]. by apply wait_moves.
  - eapply moved; [exact Ek|done..|]. unfold wait_for_space_woken. case_if; [by apply off_ring_moves|by apply wait_moves].
  - destruct ok; simplify_eq; (eapply moved; [exact Ek|done..|]); left; by split.
  - repeat case_match; simplify_eq; (eapply moved; [exact Ek|done..|]); by apply off_ring_moves.
  - eapply moved; [exact Ek|done..|]. by apply off_ring_moves.
  - eapply moved; [exact Ek|done..|]. by apply off_ring_moves.
  - eapply moved; [exact Ek|done..|]. by apply off_ring_moves.
  - destruct (spill_fields p k t) as (Hc & Hsd & x & Hp & Hx). eapply moved; [exact Ek|done..|]. by apply off_ring_moves.
  - destruct (lane_fields p k r ok) as (Hc & Hsd & x & Hp & Hx). eapply moved; [exact Ek|done..|]. by apply off_ring_moves.
  - eapply moved; [exact Ek|done..|]. by apply off_ring_moves.
  - destruct (workers p !! w) as [[]|]; simplify_eq. apply unmoved, pass_fields.
  - destruct (workers p !! w) as [[]|], (work_sem p); simplify_eq. by apply unmoved.
  - destruct (workers p !! w) as [[]|]; simplify_eq. by apply unmoved.
  - apply unmoved, cancel_fields, cancel_by_id_effect.
  - apply fmap_Some in Hs as ([rc p1] & Hc & ->). apply unmoved, cancel_fields. by eapply cancel_data_effect.
  - apply unmoved. unfold loom_pool_cancel_all. by case_if.
  - unfold loom_pool_shutdown. case_if; [by apply unmoved|]. split_and!; [done..|by left].
  - destruct (workers p !! w) as [[]|]; simplify_eq. destruct (_ || _); simplify_eq. by apply unmoved.
  - destruct (shutdown p && _); simplify_eq. by apply unmoved.
  - destruct (forallb _ _); simplify_eq. apply unmoved. unfold loom_pool_resize. by repeat case_if.
Qed.

(** A step that adds pending work was let through by a capacity check or by
    leaving the ring path's entry. *)
Lemma growth_checked p ev :
  growth p ev = 0 \/ growth p ev = 1 /\ ((exists j, ev = EvCreate j true) \/ (0 < queue_capacity p -> qlen (qs p) < queue_capacity p)).
Proof.
  destruct ev; try (by left); simpl.
  - destruct ok; [right; split; [done|left; by eexists]|by left].
  - destruct (at_capacity p) eqn:E; [by left|right]. split; [done|right]. by apply below_capacity.
  - destruct (_ && _) eqn:E; [by left|right]. split; [done|right]. intros Hc.
    destruct (Z.ltb_spec 0 (queue_capacity p)); [|lia]. simpl in E. by zbool.
Qed.

Lemma create_moves p j p' :
  pstep p (EvCreate j true) = Some p' -> exists r t, prods p !! j = Some (PRing r) /\ prods p' = <[j := PCounted t]> (prods p).
Proof. simpl. destruct (prods p !! j) as [[]|]; try done. intros [= <-]. by eexists _, _. Qed.

Lemma rings_moved p ev p' :
  same_or_moved p ev p' ->
  length (prods p') = length (prods p) /\
  ((rings (prods p') <= rings (prods p))%nat \/
   growth p ev = 0 /\ (shutdown p = false -> 0 < queue_capacity p -> qlen (qs p) < queue_capacity p)).
Proof.
  intros (_ & _ & [->|(k & x & y & Hk & -> & Hm)]); [by auto|]. rewrite length_insert. split; [done|].
  pose proof (rings_insert (prods p) k x y Hk). destruct Hm as [[Hx _]|(_ & ? & ?)]; [left; lia|by right].
Qed.

Lemma within_preserved p ev p' :
  0 < queue_capacity p -> queue_capacity p + Z.of_nat (length (prods p)) < 2 ^ 32 ->
  balanced p -> moves (growth p ev) p p' -> pstep p ev = Some p' -> within p -> within p'.
Proof.
  intros Hc Hlt Hb (delta & Hd & _ & Hn) Hs Hw Hf. pose proof (step_fields _ _ _ Hs) as Hsf.
  destruct (rings_moved _ _ _ Hsf) as [Hlen Hr]. destruct Hsf as (Hcap & Hsd & _).
  assert (Hf0 : shutdown p = false) by (destruct (shutdown p); [by rewrite Hsd in Hf|done]).
  specialize (Hw Hf0). rewrite Hlen, Hcap. pose proof (rings_bound (prods p')). fold (pending p) (pending p') in Hn.
  assert (Hq : qlen (qs p) = pending p) by (unfold balanced in Hb; rewrite u32_small in Hb; unfold pending in *; lia).
  destruct (growth_checked p ev) as [Hg|[Hg [[j ->]|Hg']]]; [|clear Hr|specialize (Hg' Hc); lia].
  - destruct Hr as [?|[_ Hr]]; [lia|]. specialize (Hr Hf0 Hc). lia.
  - destruct (create_moves _ _ _ Hs) as (r & t & Hj & Hp'). pose proof (rings_insert _ _ (PCounted t) _ Hj) as Hri.
    rewrite <- Hp' in Hri. simpl in Hri. lia.
Qed.

(** Before shutdown, queue_len never exceeds the configured capacity by
    more than the number of producer threads: every producer counts at most one
    task past the check it made, whatever the interleaving (in runs where no
    displaced worker spills a cancelled task). *)
Theorem pool_capacity_bound cap slots n k rmode evs p :
  (0 < n)%nat -> 0 < cap -> cap + Z.of_nat k < 2 ^ 32 ->
  prun (pool_start cap slots n k rmode) evs = Some p ->
  along clean_spill (pool_start cap slots n k rmode) evs = true ->
  shutdown p = false -> 0 <= qlen (qs p) <= cap + Z.of_nat k.
Proof.
  intros Hn Hc Hlt Hr Hcl Hsd.
  assert (Hinv : (((pwf p /\ qlen_ok p /\ idx_ok p /\ life p) /\ balanced p) /\
                   (queue_capacity p = cap /\ length (prods p) = k)) /\ within p).
  { refine (prun_ind (fun p => (((pwf p /\ qlen_ok p /\ idx_ok p /\ life p) /\ balanced p) /\
              (queue_capacity p = cap /\ length (prods p) = k)) /\ within p) clean_spill _ evs _ p _ Hr Hcl).
    - intros p0 ev p1 ((((Hp & Hq & Hx & Hl) & Hb) & Hk1 & Hk2) & Hw) Hok Hs.
      assert (Hm : moves (growth p0 ev) p0 p1) by (by eapply balance_preserved).
      destruct (rings_moved _ _ _ (step_fields _ _ _ Hs)) as [Hlen _]. destruct (step_fields _ _ _ Hs) as (Hcap & _).
      split; [|by eapply within_preserved; [..|exact Hb|exact Hm|exact Hs|exact Hw]; rewrite ?Hk1, ?Hk2].
      split; [|split; congruence]. split; [|by eapply moves_balanced].
      split_and!; [by eapply pwf_step|by eapply qlen_ok_step|by eapply idx_step|by eapply life_step].
    - split; [split; [split; [by apply start_life|by apply (reach_balanced cap slots n k rmode [])]|]|].
      + split; [done|apply length_replicate].
      + intros _. assert (Hz : pending (pool_start cap slots n k rmode) = 0 /\ rings (prods (pool_start cap slots n k rmode)) = 0%nat).
        { split; [|unfold rings; simpl; clear; by induction k]. unfold pending. simpl. unfold live_count, ringed. simpl.
          assert (H1 : forall m, concat (replicate m ([] : list nat)) = []) by (induction m; done).
          rewrite !H1, mid_idle. change (concat (replicate 256 ([] : list nat))) with ([] : list nat). done. }
        destruct Hz as [-> ->]. simpl. lia. }
  destruct Hinv as (((( _ & Hq & _) & Hb) & Hk1 & Hk2) & Hw). specialize (Hw Hsd). rewrite Hk1, Hk2 in Hw.
  unfold balanced in Hb. rewrite u32_small in Hb; unfold pending in Hw; lia.
Qed.

(** Three producers pass the check of a queue of capacity one at the same time. *)
Definition crowd_run : list pevent :=
  [EvSubmit 0 demo_req false; EvSubmit 1 demo_req false; EvSubmit 2 demo_req false;
   EvCreate 0 true; EvCreate 1 true; EvCreate 2 true; EvSubmit 3 demo_req false].

Lemma pool_capacity_bound_witness :
  exists p, prun (pool_start 1 8 1 4 true) crowd_run = Some p /\ qlen (qs p) = 3 /\ qlen (qs p) <= 1 + Z.of_nat 4 /\
    prods p !! 3%nat = Some (PRet LOOMWORKS_ERR_INVALID).
Proof.
  destruct (prun (pool_start 1 8 1 4 true) crowd_run) as [p|] eqn:E; [|vm_compute in E; discriminate E].
  assert (H : (fun p => (shutdown p, qlen (qs p), prods p !! 3%nat)) <$> prun (pool_start 1 8 1 4 true) crowd_run
              = Some (false, 3, Some (PRet LOOMWORKS_ERR_INVALID))) by (vm_compute; reflexivity).
  rewrite E in H. cbn in H. injection H as H1 H2 H3. exists p. split; [reflexivity|]. split; [exact H2|]. split; [|exact H3].
  exact (proj2 (pool_capacity_bound 1 8 1 4 true crowd_run p ltac:(lia) ltac:(lia) ltac:(lia) E ltac:(vm_compute; reflexivity) H1)).
Defined.
