(* ===== verification/PoolContract.v ===== *)
(** * What the pool promises to its clients.

    A client submits tasks, cancels them by id and relies on nothing else of
    the pool than the laws below: they are stated once, as a class over an
    abstract pool whose observable history is the list of [outcome]s, and
    Pool.v's task flow is an instance. TaskGroup.v and ResultTask.v are
    proved against the class. *)
From S2P Require Import Prelude Types Pool.

Class TaskPool (S Ev : Type) := {
  tp_log : S -> list outcome;                      (* newest first *)
  tp_exec : S -> Ev -> option S;                   (* any step of the pool's threads *)
  tp_cancel : S -> nat -> loom_result_t * S;       (* loom_pool_cancel_by_id *)
}.

(** The laws, for the states [tp_reach] a running pool can be in. *)
Class TaskPoolLaws (S Ev : Type) `{!TaskPool S Ev} := {
  tp_reach : S -> Prop;
  tp_reach_exec s e s' : tp_reach s -> tp_exec s e = Some s' -> tp_reach s';
  tp_reach_cancel s t : tp_reach s -> tp_reach (tp_cancel s t).2;
  tp_grows s e s' : tp_reach s -> tp_exec s e = Some s' -> tp_log s `suffix_of` tp_log s';
  tp_cancel_grows s t : tp_log s `suffix_of` tp_log (tp_cancel s t).2;
  tp_fresh s e s' t : tp_reach s -> tp_exec s e = Some s' -> tp_log s' = Accepted t :: tp_log s -> (Accepted t ∉ tp_log s);
  tp_started s t : tp_reach s -> Started t ∈ tp_log s -> Accepted t ∈ tp_log s;
  tp_released s t : tp_reach s -> Released t ∈ tp_log s -> Accepted t ∈ tp_log s;
  tp_release_once s t l1 l2 : tp_reach s -> tp_log s = l1 ++ Released t :: l2 -> (Started t ∉ l1 ++ l2) /\ (Released t ∉ l2);
  tp_cancelled s t : tp_reach s -> Cancelled t ∈ tp_log s -> (Started t ∉ tp_log s);
  tp_cancel_ok s t s' : tp_cancel s t = (LOOMWORKS_OK, s') -> Cancelled t ∈ tp_log s';
}.

(** ** The pool of Pool.v keeps them *)

#[export] Instance pool_task_pool : TaskPool pool pevent :=
  {| tp_log := log; tp_exec := pstep; tp_cancel := loom_pool_cancel_by_id |}.

(** The invariants of Pool.v, as one predicate. *)
Definition pool_ok (p : pool) : Prop := pwf p /\ qlen_ok p /\ idx_ok p /\ life p.

Lemma pool_ok_step p e p' : pool_ok p -> pstep p e = Some p' -> pool_ok p'.
Proof.
  intros (Hp & Hq & Hx & Hl) Hs. split_and!;
    [by eapply pwf_step|by eapply qlen_ok_step|by eapply idx_step|by eapply life_step].
Qed.

Lemma effect_grows p p' : effect p p' -> log p `suffix_of` log p'.
Proof.
  intros [dl -> _ _ _|t ->|t ->|t ->|t ->|t ->|c i ->]; rewrite ?app_assoc; try by apply suffix_app_r.
  all: by repeat apply suffix_cons_r.
Qed.

Lemma cancel_log p t :
  (loom_pool_cancel_by_id p t).2 = p /\ (loom_pool_cancel_by_id p t).1 <> LOOMWORKS_OK \/
  exists l, log (loom_pool_cancel_by_id p t).2 = l ++ log p /\ Cancelled t ∈ l.
Proof.
  unfold loom_pool_cancel_by_id. case_if; [by left|]. case_bool_decide.
  - case_bool_decide; [by left|]. right. exists [Cancelled t]. split; [done|set_solver].
  - unfold cancel_lane. destruct (lane_remove _ _) as [[u L]|] eqn:El; [|by left]. right.
    assert (Hu : u = t).
    { clear -El. revert L El. induction (lanes (qs p)) as [|l Ls IH]; intros L El; simpl in El; [done|].
      destruct (list_find _ l) as [[i v]|] eqn:Ef; [|destruct (lane_remove _ Ls) as [[v Lr]|]; simplify_eq; by eapply IH].
      simplify_eq. apply list_find_Some in Ef as (_ & Hv & _). apply andb_prop in Hv as [Hv _]. by apply Nat.eqb_eq in Hv. }
    subst. exists [Released t; Cancelled t]. split; [done|set_solver].
Qed.

(** Only an accepting step puts [Accepted t] on top of the log. *)
Lemma effect_accepts p p' t : effect p p' -> log p' = Accepted t :: log p -> waiting (qs p') ≡ₚ t :: waiting (qs p).
Proof.
  assert (Hd : forall dl, log p' = dl ++ log p -> log p' = Accepted t :: log p -> dl = [Accepted t]).
  { intros dl H1 H2. rewrite H1 in H2. by apply (app_inv_tail (log p) dl [Accepted t]). }
  intros [dl H1 H2 _ _|u H1 H2 _|u H1|u H1|u H1|u H1|c i H1 H2] Hl.
  - specialize (Hd _ H1 Hl) as ->. destruct H2 as [?|[u [?|?]]]; discriminate.
  - by specialize (Hd [Accepted u] H1 Hl) as [= ->].
  - by specialize (Hd [Started u] H1 Hl).
  - by specialize (Hd [Released u] H1 Hl).
  - by specialize (Hd [Cancelled u] H1 Hl).
  - by specialize (Hd [Released u; Cancelled u] H1 Hl).
  - rewrite !app_assoc in H1. specialize (Hd _ H1 Hl). by destruct i, c.
Qed.

(** A task accepted by a step was not accepted before. *)
Lemma accept_fresh p e p' t : pool_ok p -> pstep p e = Some p' -> log p' = Accepted t :: log p -> (Accepted t ∉ log p).
Proof.
  intros Hok Hs Hl Hin. pose proof (pool_ok_step _ _ _ Hok Hs) as (Hp' & _). destruct Hok as (Hp & Hq & Hx & Hli).
  pose proof (effect_accepts _ _ _ (step_effect _ _ _ Hp Hq Hs) Hl) as Hw.
  pose proof (universe_nodup p' Hp') as Hnd. unfold universe in Hnd. rewrite Hw in Hnd. simpl in Hnd.
  apply NoDup_cons in Hnd as [Hnt _]. apply Hnt. rewrite Hl, gone_cons. simpl. rewrite !elem_of_app, gone_elem.
  destruct Hli as [_ _ _ Ha]. apply Ha in Hin. tauto.
Qed.

Lemma filter_length_elem (l : list outcome) o : length (filter (fun x => x = o) l) = 0%nat -> (o ∉ l).
Proof.
  intros He%nil_length_inv Ho. assert (Hf : o ∈ filter (fun x => x = o) l) by (by apply list_elem_of_filter).
  rewrite He in Hf. by apply not_elem_of_nil in Hf.
Qed.

(** A released task is never started and was not released before. *)
Lemma release_once p t l1 l2 : pwf p -> log p = l1 ++ Released t :: l2 -> (Started t ∉ l1 ++ l2) /\ (Released t ∉ l2).
Proof.
  intros Hp Hl. pose proof (fate_once p t Hp) as Hf. unfold times in Hf.
  rewrite Hl, !filter_app, !length_app, !filter_cons in Hf. repeat case_decide; try done. simpl in Hf.
  split; apply filter_length_elem; rewrite ?filter_app, ?length_app; lia.
Qed.

#[export] Program Instance pool_task_pool_laws : TaskPoolLaws pool pevent := {| tp_reach := pool_ok |}.
Next Obligation. intros p e p'. apply pool_ok_step. Qed.
Next Obligation. intros p t Hok. by apply (pool_ok_step p (EvCancelId t)). Qed.
Next Obligation. intros p e p' (Hp & Hq & _) Hs. by eapply effect_grows, step_effect. Qed.
Next Obligation. intros p t. simpl. destruct (cancel_log p t) as [[-> _]|(l & -> & _)]; [done|by apply suffix_app_r]. Qed.
Next Obligation. intros p e p' t. apply accept_fresh. Qed.
Next Obligation. intros p t (_ & _ & _ & [_ _ _ Ha]) Hs. apply Ha. tauto. Qed.
Next Obligation. intros p t (_ & _ & _ & [_ _ _ Ha]) Hs. apply Ha. tauto. Qed.
Next Obligation. intros p t l1 l2 (Hp & _). by apply release_once. Qed.
Next Obligation.
  intros p t (Hp & _ & _ & Hl). by apply cancelled_not_started.
Qed.
Next Obligation. intros p t p' He. destruct (cancel_log p t) as [[_ H]|(l & H & Hl)]; simpl in *; rewrite He in H; simpl in H; [done|rewrite H; set_solver]. Qed.

Lemma demo_pool_ok : tp_reach (pool_start 0 8 1 1 true).
Proof. apply start_life. lia. Qed.
