(* ===== verification/PoolImpl.v ===== *)
(** * The pool's queues put together (src/thread_pool.c: the locked pass of
    worker_entry, loom_pool_cancel_by_id and the submit funnel on the real
    structures).

    Pool.v works with abstract queues.  Here the same critical sections run on
    the pointer lanes of Lanes.v, the cells of Ring.v, the slot arrays of
    Deque.v and the table of CancelIndex.v, which share one store of task
    nodes, and a simulation shows that they implement the abstract ones.  The
    ring and the deques exist (no lane-only fallback), the number of workers is
    fixed, and a submission's accesses to the ring are not interleaved with
    those of another thread; RingConc.v and DequeConc.v are about that. *)
From S2P Require Import Lanes CancelIndex.
From S2P Require Import Ring Deque.
From S2P Require Import Prelude Types Pool.

(** ** State *)

Record machine := mk_machine {
  nodes : store;
  lane : Lanes.lanes;                (* buckets, bitmap and queue_len *)
  rng : ring_t;
  dqs : list loom_work_deque_t;
  dtotal : Z;                        (* deque_total *)
  cidx : cancel_index;
}.

Definition set_nodes (M : machine) (m : store) : machine := mk_machine m (lane M) (rng M) (dqs M) (dtotal M) (cidx M).
Definition set_lane (M : machine) (s : store * Lanes.lanes) : machine := mk_machine s.1 s.2 (rng M) (dqs M) (dtotal M) (cidx M).
Definition set_ring (M : machine) (r : ring_t) : machine := mk_machine (nodes M) (lane M) r (dqs M) (dtotal M) (cidx M).
Definition set_deque (M : machine) (i : nat) (s : loom_work_deque_t * Z) : machine :=
  mk_machine (nodes M) (lane M) (rng M) (<[i := s.1]> (dqs M)) s.2 (cidx M).
Definition set_index (M : machine) (ci : cancel_index) : machine := mk_machine (nodes M) (lane M) (rng M) (dqs M) (dtotal M) ci.

(** atomic_fetch_add and atomic_fetch_sub on queue_len. *)
Definition add_len (M : machine) (k : Z) : machine :=
  mk_machine (nodes M) (mk_lanes (buckets_head (lane M)) (buckets_tail (lane M)) (nonempty_bits (lane M)) (queue_len (lane M) +32 k))
    (rng M) (dqs M) (dtotal M) (cidx M).

(** ** The worker's steps 0 to 4 *)

Definition lane_dequeue (M : machine) (mx : nat) : option ptr * machine :=
  let '(o, s) := dequeue_lowest_priority_unlocked (nodes M) (lane M) mx in (o, set_lane M s).

Definition step0 (M : machine) : option ptr * machine :=
  if lane_has_priority (lane M) 4 then lane_dequeue M 4 else (None, M).

Definition step1 (M : machine) (idx : nat) : option ptr * machine :=
  let '(o, s) := deque_pop (dqs M !!! idx) (dtotal M) in (o, set_deque M idx s).

(** A ring task that does not fit the deque goes to its lane. *)
Definition respill (M : machine) (x : ptr) : machine :=
  let M1 := add_len (set_index M (cancel_index_remove (cidx M) (nodes M !!! x))) (-1) in
  set_lane M1 (loom_enqueue_unlocked (nodes M1) (lane M1) x).

Fixpoint push_all (idx i : nat) (batch : list ptr) (M : machine) (task : option ptr) : option ptr * machine :=
  match batch with
  | [] => (task, M)
  | x :: batch =>
      let '(ok, s) := deque_push (dqs M !!! idx) (dtotal M) x in
      if ok : bool then push_all idx (S i) batch (set_deque M idx s) task
      else if (i =? 0)%nat then push_all idx (S i) batch M (Some x)
      else push_all idx (S i) batch (respill M x) task
  end.

Definition step2 (M : machine) (idx : nat) : option ptr * machine :=
  let '(batch, r) := ring_bulk_try_dequeue (rng M) LOOMWORKS_BULK_DEQUEUE in
  match push_all idx 0 batch (set_ring M r) None with
  | (Some x, M1) => (Some x, M1)
  | (None, M1) => step1 M1 idx
  end.

Fixpoint steal_loop (vs : list nat) (idx : nat) (M : machine) : option ptr * machine :=
  match vs with
  | [] => (None, M)
  | v :: vs =>
      if (v =? idx)%nat then steal_loop vs idx M
      else match Deque.deque_steal (dqs M !!! v) (dtotal M) with
           | (Some x, s) => (Some x, set_deque M v s)
           | (None, s) => steal_loop vs idx (set_deque M v s)
           end
  end.

Definition step3 (M : machine) (wc idx : nat) : option ptr * machine :=
  if (1 <? wc)%nat then steal_loop (victims wc idx (Ring.ring_has_work (rng M))) idx M else (None, M).

Definition step4 (M : machine) : option ptr * machine :=
  if negb (Ring.ring_has_work (rng M)) then lane_dequeue M 255 else (None, M).

(** The task of a pass and [from_ring]. *)
Definition fetch (M : machine) (wc idx : nat) : option (ptr * bool) * machine :=
  match step0 M with
  | (Some x, M) => (Some (x, false), M)
  | (None, M) =>
      match step1 M idx with
      | (Some x, M) => (Some (x, true), M)
      | (None, M) =>
          match step2 M idx with
          | (Some x, M) => (Some (x, true), M)
          | (None, M) =>
              match step3 M wc idx with
              | (Some x, M) => (Some (x, true), M)
              | (None, M) => match step4 M with (Some x, M) => (Some (x, false), M) | (None, M) => (None, M) end
              end
          end
      end
  end.

(** ** What the structures hold *)

Section Names.
(** The id of the node at an address, and the bucket of an id. *)
Context (nm : ptr -> nat) (pr : nat -> nat).

Definition bucket_ptrs (Q : nat -> list ptr) : list ptr := concat (Q <$> seq 0 256).
Definition ring_ptrs (R : list ptr) (D : list (list ptr)) (H : list ptr) : list ptr := R ++ concat D ++ H.
Definition all_ptrs (Q : nat -> list ptr) (R : list ptr) (D : list (list ptr)) (H : list ptr) : list ptr :=
  bucket_ptrs Q ++ ring_ptrs R D H.

(** What every queued node satisfies. *)
Record good_node (m : store) (x : ptr) : Prop := {
  gn_ptr : x <> NULL /\ is_Some (m !! x);
  gn_id : 1 <= task_id (m !!! x) < 2 ^ 64 - 1 /\ nm x = Z.to_nat (task_id (m !!! x));
  gn_prio : priority (m !!! x) = Z.of_nat (pr (nm x)) /\ (pr (nm x) < 256)%nat;
}.

(** The structures hold the buckets [Q], the ring [R] and the deques [D]
    (oldest first), with the ring tasks [H] in the worker's hands. *)
Record holds (M : machine) (Q : nat -> list ptr) (R : list ptr) (D : list (list ptr)) (H : list ptr) : Prop := {
  ho_lanes : lanes_rep (nodes M) (lane M) Q;
  ho_ring : ring_rep (rng M) R;
  ho_deques : Forall2 deque_rep (dqs M) D;
  ho_cap : Forall (fun d => capacity d = LOOMWORKS_DEQUE_CAPACITY) (dqs M);
  ho_total : dtotal M = u64 (Z.of_nat (length (concat D)));
  ho_index : index_wf (cidx M);
  ho_map : forall i x, index_map (cidx M) !! i = Some x -> x ∈ ring_ptrs R D H /\ task_id (nodes M !!! x) = i;
  ho_nodup : NoDup (all_ptrs Q R D H);
  ho_node : forall x, x ∈ all_ptrs Q R D H -> good_node (nodes M) x;
}.

(** The abstract queues they stand for; [tb] are the tasks marked cancelled. *)
Definition absq (tb : gset nat) (M : machine) (Q : nat -> list ptr) (R : list ptr) (D : list (list ptr)) : queues :=
  mk_queues (queue_len (lane M)) ((fun x => (nm x, true)) <$> R) ((fun l => rev (nm <$> l)) <$> D)
    ((fun b => nm <$> Q b) <$> seq 0 256) (set_map Z.to_nat (dom (index_map (cidx M)))) tb.

(** *** Permutations of addresses, by counting *)

Definition zocc (x : ptr) (l : list ptr) : nat := count_occ Z.eq_dec l x.

Lemma zocc_perm l l' : l ≡ₚ l' <-> forall x, zocc x l = zocc x l'.
Proof. apply (Permutation_count_occ Z.eq_dec). Qed.
Lemma zocc_app x l l' : zocc x (l ++ l') = (zocc x l + zocc x l')%nat.
Proof. apply count_occ_app. Qed.
Lemma zocc_nil x : zocc x [] = 0%nat.
Proof. done. Qed.

Ltac zcount :=
  apply zocc_perm; let x := fresh "x" in intros x;
  repeat match goal with H : _ ≡ₚ _ |- _ => pose proof (proj1 (zocc_perm _ _) H x); clear H end;
  rewrite ?zocc_app, ?zocc_nil in *;
  repeat match goal with
  | |- context [zocc x (?t :: ?l)] =>
      lazymatch l with [] => fail | _ => change (t :: l) with ([t] ++ l); rewrite ?zocc_app, ?zocc_nil end
  | H : context [zocc x (?t :: ?l)] |- _ =>
      lazymatch l with [] => fail | _ => change (t :: l) with ([t] ++ l) in H; rewrite ?zocc_app, ?zocc_nil in H end
  end; lia.

(** *** Relinking keeps what a node is *)

Lemma relinked_fields m m' P y :
  relinked m m' P -> task_id (m' !!! y) = task_id (m !!! y) /\ priority (m' !!! y) = priority (m !!! y) /\
  cancelled (m' !!! y) = cancelled (m !!! y) /\ (is_Some (m !! y) -> is_Some (m' !! y)) /\ user_data (m' !!! y) = user_data (m !!! y).
Proof.
  intros H. rewrite !lookup_total_alt. destruct (H y) as [->|(_ & p & ->)]; [done|].
  destruct (m !! y); split_and!; simpl; eauto.
Qed.

Lemma relinked_good m m' P x : relinked m m' P -> good_node m x -> good_node m' x.
Proof.
  intros Hr [[H1 H1'] H2 H3]. destruct (relinked_fields _ _ _ x Hr) as (E1 & E2 & _ & E4 & _).
  split; [split; [done|by apply E4]|by rewrite E1|by rewrite E2].
Qed.

Lemma relinked_refl m P : relinked m m P.
Proof. intros y. by left. Qed.

(** *** The hash of a live slot is that of its node's data *)

Definition hashed (m : store) (ci : cancel_index) : Prop := forall j, 2 <= key_at ci j ->
  user_data_hash (cancel_slots ci !!! j) = hash_ptr (user_data (m !!! cs_task (cancel_slots ci !!! j))).

Lemma hashed_link m m' P ci : relinked m m' P -> hashed m ci -> hashed m' ci.
Proof. intros Hr H j Hj. destruct (relinked_fields _ _ _ (cs_task (cancel_slots ci !!! j)) Hr) as (_ & _ & _ & _ & ->). by apply H. Qed.

Lemma hashed_write m ci h s :
  hashed m ci -> (2 <= cs_task_id s -> user_data_hash s = hash_ptr (user_data (m !!! cs_task s))) -> hashed m (write_slot ci h s).
Proof.
  intros H Hs j. unfold key_at, write_slot. cbn [cancel_slots]. destruct (decide (j = Z.to_nat h)) as [->|Hne].
  - destruct (decide (Z.to_nat h < length (cancel_slots ci))%nat); [by rewrite array_read_insert_eq|]. rewrite list_insert_ge by lia. apply H.
  - rewrite array_read_insert_ne by done. apply H.
Qed.

Lemma hashed_remove m ci t : hashed m ci -> hashed m (cancel_index_remove ci t).
Proof. intros H. unfold cancel_index_remove. destruct (no_index ci); [done|]. destruct (probe _ _ _ _) as [[h|]|]; try done. apply hashed_write; [done|]. simpl. lia. Qed.

Lemma hashed_claim m ci t : hashed m ci -> hashed m (cancel_index_claim ci t).2.
Proof. intros H. unfold cancel_index_claim. destruct (no_index ci); [done|]. destruct (probe _ _ _ _) as [[h|]|]; try done. apply hashed_write; [done|]. simpl. lia. Qed.

Lemma hashed_insert m ci x : hashed m ci -> hashed m (cancel_index_insert ci x (m !!! x)).
Proof. intros H. unfold cancel_index_insert. destruct (no_index ci); [done|]. destruct (probe _ _ _ _) as [h|]; try done. by apply hashed_write. Qed.

(** A change of the structures under which no address appears. *)
Lemma holds_intro M M' Q R D H Q' R' D' H' G P :
  holds M Q R D H -> lanes_rep (nodes M') (lane M') Q' -> ring_rep (rng M') R' -> Forall2 deque_rep (dqs M') D' ->
  Forall (fun d => capacity d = LOOMWORKS_DEQUE_CAPACITY) (dqs M') -> dtotal M' = u64 (Z.of_nat (length (concat D'))) ->
  index_wf (cidx M') ->
  (forall i x, index_map (cidx M') !! i = Some x -> index_map (cidx M) !! i = Some x /\ x ∈ ring_ptrs R' D' H') ->
  all_ptrs Q R D H ≡ₚ G ++ all_ptrs Q' R' D' H' -> relinked (nodes M) (nodes M') P ->
  holds M' Q' R' D' H'.
Proof.
  intros [_ _ _ _ _ _ Hm Hnd Hn] ? ? ? ? ? ? Him Hp Hr. rewrite Hp in Hnd. apply NoDup_app in Hnd as (_ & _ & Hnd).
  split; try done.
  - intros i x Hi. apply Him in Hi as [Hi Hx]. split; [done|]. destruct (Hm i x Hi) as [_ <-].
    by destruct (relinked_fields _ _ _ x Hr) as [-> _].
  - intros x Hx. eapply relinked_good; [done|]. apply Hn. rewrite Hp. apply elem_of_app. by right.
Qed.

(** *** Buckets *)

Lemma bucket_lookup {A} (f : nat -> A) b : (b < 256)%nat -> (f <$> seq 0 256) !! b = Some (f b).
Proof. intros Hb. by rewrite list_lookup_fmap, lookup_seq_lt by done. Qed.

Lemma fmap_upd {A} (f : list ptr -> A) (Q : nat -> list ptr) b l :
  (b < 256)%nat -> (fun c => f (upd Q b l c)) <$> seq 0 256 = <[b := f l]> ((fun c => f (Q c)) <$> seq 0 256).
Proof.
  intros Hb. apply list_eq. intros i. destruct (decide (i < 256)%nat) as [Hi|Hi].
  - rewrite bucket_lookup by done. unfold upd. case_decide as E.
    + subst. rewrite list_lookup_insert_eq; [done|]. by rewrite length_fmap, length_seq.
    + by rewrite list_lookup_insert_ne, bucket_lookup.
  - rewrite !lookup_ge_None_2; [done| |]; rewrite ?length_insert, length_fmap, length_seq; lia.
Qed.

Lemma bucket_ptrs_upd Q b l : (b < 256)%nat -> Q b ++ bucket_ptrs (upd Q b l) ≡ₚ l ++ bucket_ptrs Q.
Proof.
  intros Hb. pose proof (fmap_upd (fun x => x) Q b l Hb) as E. unfold bucket_ptrs.
  assert (E' : upd Q b l <$> seq 0 256 = <[b := l]> (Q <$> seq 0 256)) by exact E.
  rewrite E'. apply concat_insert. by apply bucket_lookup.
Qed.

Lemma in_bucket Q x : x ∈ bucket_ptrs Q <-> exists b, (b < 256)%nat /\ x ∈ Q b.
Proof.
  unfold bucket_ptrs. rewrite list_elem_of_In, in_concat. split.
  - intros (l & Hl & Hx). apply in_map_iff in Hl as (b & <- & Hb). apply in_seq in Hb. exists b. rewrite list_elem_of_In. split; [lia|done].
  - intros (b & Hb & Hx). exists (Q b). rewrite list_elem_of_In in Hx. split; [|done]. apply in_map, in_seq. lia.
Qed.

(** The abstract lanes after the first bucket in use. *)
Lemma lane_pop_first Q s n mx b x l :
  (s <= b < s + n)%nat -> (b - s <= mx)%nat -> Q b = x :: l -> (forall c, (s <= c < b)%nat -> Q c = []) ->
  lane_pop ((fun c => nm <$> Q c) <$> seq s n) mx = Some (nm x, (fun c => nm <$> upd Q b l c) <$> seq s n).
Proof.
  revert s mx. induction n as [|n IH]; intros s mx Hb Hm HQ Hz; [lia|]. csimpl.
  destruct (decide (s = b)) as [->|Hne].
  - rewrite HQ. csimpl. f_equal. f_equal. unfold upd at 1. rewrite decide_True by done. f_equal.
    apply list_fmap_ext. intros i c Hc. unfold upd. rewrite decide_False; [done|]. apply lookup_seq in Hc. lia.
  - rewrite (Hz s) by lia. csimpl. destruct mx as [|mx]; [lia|]. rewrite IH; [|lia|lia|done|intros; apply Hz; lia].
    unfold upd at 2. rewrite decide_False, (Hz s) by (done || lia). done.
Qed.

Lemma lane_pop_empty Q s n mx :
  (forall c, (s <= c < s + n)%nat -> (c - s <= mx)%nat -> Q c = []) -> lane_pop ((fun c => nm <$> Q c) <$> seq s n) mx = None.
Proof.
  revert s mx. induction n as [|n IH]; intros s mx Hz; [done|]. csimpl. rewrite (Hz s) by lia. csimpl.
  destruct mx as [|mx]; [done|]. rewrite IH; [done|]. intros c ? ?. apply Hz; lia.
Qed.

(** *** Steps of the worker

    [stepped k]: the worker took [out] out of the structures, relinking nodes,
    and no bottom counter grew by more than [k]. *)
Record stepped (k : Z) M Q R D H M' Q' R' D' H' (out : list ptr) : Prop := {
  st_holds : holds M' Q' R' D' H';
  st_perm : all_ptrs Q R D H ≡ₚ out ++ all_ptrs Q' R' D' H';
  st_link : relinked (nodes M) (nodes M') (fun _ => True);
  st_len : length (dqs M') = length (dqs M);
  st_room : forall B, Forall (fun d => Deque.bottom d <= B) (dqs M) -> Forall (fun d => Deque.bottom d <= B + k) (dqs M');
  st_size : ring_size (rng M') = ring_size (rng M) /\ cancel_cap (cidx M') = cancel_cap (cidx M);
  st_u32 : 0 <= queue_len (lane M) < 2 ^ 32 -> 0 <= queue_len (lane M') < 2 ^ 32;
  st_hash : hashed (nodes M) (cidx M) -> hashed (nodes M') (cidx M');
}.

Lemma stepped_refl M Q R D H : holds M Q R D H -> stepped 0 M Q R D H M Q R D H [].
Proof. intros Hh. split; [done|done|apply relinked_refl|done| |done|done|done]. intros B HB. by rewrite Z.add_0_r. Qed.

Lemma stepped_trans k k' M Q R D H M1 Q1 R1 D1 H1 M2 Q2 R2 D2 H2 out out' :
  stepped k M Q R D H M1 Q1 R1 D1 H1 out -> stepped k' M1 Q1 R1 D1 H1 M2 Q2 R2 D2 H2 out' ->
  stepped (k + k') M Q R D H M2 Q2 R2 D2 H2 (out ++ out').
Proof.
  intros [A1 A2 A3 A4 A5 [A6 A6'] A7 A8] [B1 B2 B3 B4 B5 [B6 B6'] B7 B8].
  split; [done| |by eapply relinked_trans|congruence| |split; congruence|auto|auto].
  - zcount.
  - intros B HB. rewrite Z.add_assoc. by apply B5, A5.
Qed.

Lemma stepped_weaken k k' M Q R D H M' Q' R' D' H' out :
  k <= k' -> stepped k M Q R D H M' Q' R' D' H' out -> stepped k' M Q R D H M' Q' R' D' H' out.
Proof. intros Hk [A1 A2 A3 A4 A5 A6 A7 A8]. split; try done. intros B HB. eapply Forall_impl; [by apply A5|]. simpl. lia. Qed.

(** A lane dequeue. *)
Lemma lane_dequeue_sim tb M Q R D mx :
  holds M Q R D [] ->
  let '(o, M') := lane_dequeue M mx in
  exists Q', stepped 0 M Q R D [] M' Q' R D [] (option_list o) /\
    lane_take (absq tb M Q R D) mx = (fun x => (nm x, absq tb M' Q' R D)) <$> o /\
    (o = None -> M' = M /\ Q' = Q).
Proof.
  intros Hh. unfold lane_dequeue. pose proof (lane_dequeue_refines (nodes M) (lane M) Q mx (ho_lanes _ _ _ _ _ Hh)) as Hd.
  destruct (dequeue_lowest_priority_unlocked (nodes M) (lane M) mx) as [[x|] [m' q']].
  - destruct Hd as (Q' & (b & l & Hb & Hm & HQ & Hz & ->) & Hl & Hq & -> & Hx & Hx0). exists (upd Q b l).
    assert (Hr : relinked (nodes M) (alter (set_next NULL) x (nodes M)) (fun _ => True)) by by apply relinked_alter.
    assert (Hp : all_ptrs Q R D [] ≡ₚ [x] ++ all_ptrs (upd Q b l) R D []).
    { unfold all_ptrs. pose proof (bucket_ptrs_upd Q b l Hb) as E. rewrite HQ in E. zcount. }
    split_and!; [| |done].
    + split; [|done|done|done|intros B HB; by rewrite Z.add_0_r|done|intros _; cbn; rewrite Hq; apply u32_range|by apply (hashed_link _ _ (fun _ => True))].
      eapply (holds_intro M); [done|done|apply Hh..| |exact Hp|exact Hr]. intros i y Hi. split; [done|]. by eapply ho_map.
    + unfold lane_take, absq. cbn [Pool.lanes qlen Pool.ring deques index tombs]. rewrite (lane_pop_first Q 0 256 mx b x l) by (done || lia || (intros; apply Hz; lia)).
      cbn [lane set_lane fst snd cidx fmap option_fmap option_map]. by rewrite Hq.
  - destruct Hd as (Q' & [-> Hz] & Hl & -> & ->). assert (HM : set_lane M (nodes M, lane M) = M) by by destruct M.
    rewrite HM. exists Q. split_and!; [by apply stepped_refl| |done].
    unfold lane_take, absq. cbn [Pool.lanes]. by rewrite (lane_pop_empty Q 0 256 mx) by (intros; apply Hz; lia).
Qed.

(** The lock-free peek of step 0 agrees with the dequeue. *)
Lemma step0_dequeue M : step0 M = lane_dequeue M 4.
Proof.
  unfold step0, lane_has_priority, lane_dequeue, dequeue_lowest_priority_unlocked.
  assert (HM : set_lane M (nodes M, lane M) = M) by by destruct M.
  destruct (first_bucket _ _ _) as [b|]; [|by rewrite HM].
  destruct (Nat.leb_spec b 4), (Nat.ltb_spec 4 b); try lia; [done|by rewrite HM].
Qed.

(** *** One deque changes *)

Lemma deque_at M Q R D H idx :
  holds M Q R D H -> (idx < length (dqs M))%nat ->
  exists l, D !! idx = Some l /\ deque_rep (dqs M !!! idx) l /\ capacity (dqs M !!! idx) = LOOMWORKS_DEQUE_CAPACITY.
Proof.
  intros Hh Hi. destruct (lookup_lt_is_Some_2 _ _ Hi) as [d Hd]. rewrite (list_lookup_total_correct _ _ _ Hd).
  destruct (Forall2_lookup_l _ _ _ _ _ (ho_deques _ _ _ _ _ Hh) Hd) as (l & Hl & Hr). exists l. split_and!; [done|done|].
  exact (Forall_lookup_1 _ _ _ _ (ho_cap _ _ _ _ _ Hh) Hd).
Qed.

Lemma ring_ptrs_deque R D H idx l l' H' :
  D !! idx = Some l -> l ++ H ≡ₚ l' ++ H' -> ring_ptrs R D H ≡ₚ ring_ptrs R (<[idx := l']> D) H'.
Proof. intros Hl Hp. unfold ring_ptrs. pose proof (concat_insert D idx l l' Hl). zcount. Qed.

Lemma deque_change k M Q R D H idx d l l' H' total :
  holds M Q R D H -> D !! idx = Some l -> deque_rep d l' -> capacity d = LOOMWORKS_DEQUE_CAPACITY ->
  total = u64 (dtotal M + Z.of_nat (length l') - Z.of_nat (length l)) -> l ++ H ≡ₚ l' ++ H' ->
  0 <= k -> Deque.bottom d <= Deque.bottom (dqs M !!! idx) + k -> (idx < length (dqs M))%nat ->
  stepped k M Q R D H (set_deque M idx (d, total)) Q R (<[idx := l']> D) H' [].
Proof.
  intros Hh Hl Hd Hc -> Hp Hk Hb Hi. pose proof (ring_ptrs_deque R D H idx l l' H' Hl Hp) as Hrp.
  assert (Hpp : all_ptrs Q R D H ≡ₚ [] ++ all_ptrs Q R (<[idx := l']> D) H') by (unfold all_ptrs; by rewrite Hrp).
  split; [|done|apply relinked_refl|by cbn; rewrite length_insert| |done|done|done].
  - eapply (holds_intro M _ _ _ _ _ _ _ _ _ [] (fun _ => True)); try done; cbn; try apply Hh.
    + apply Forall2_insert; [apply Hh|done].
    + apply Forall_write; [apply Hh|done].
    + rewrite (ho_total _ _ _ _ _ Hh). pose proof (Permutation_length (concat_insert D idx l l' Hl)) as Hlen.
      rewrite !length_app in Hlen. rewrite <- Z.add_sub_assoc, u64_add_l. f_equal. lia.
    + intros i x Hx. split; [done|]. rewrite <- Hrp. by eapply ho_map.
    + apply relinked_refl.
  - intros B HB. cbn. apply Forall_write; [eapply Forall_impl; [exact HB|]; simpl; lia|].
    destruct (lookup_lt_is_Some_2 _ _ Hi) as [d0 Hd0]. pose proof (Forall_lookup_1 _ _ _ _ HB Hd0) as Hb0. simpl in Hb0.
    rewrite (list_lookup_total_correct _ _ _ Hd0) in Hb. lia.
Qed.

Definition names (l : list ptr) : list nat := rev (nm <$> l).

Lemma absq_deque tb M Q R D idx l l' s :
  D !! idx = Some l -> deques (absq tb M Q R D) !!! idx = names l /\
  absq tb (set_deque M idx s) Q R (<[idx := l']> D) =
    (let q := absq tb M Q R D in mk_queues (qlen q) (Pool.ring q) (<[idx := names l']> (deques q)) (Pool.lanes q) (index q) (tombs q)).
Proof.
  intros Hl. split; [|unfold absq; cbn [lane cidx set_deque qlen Pool.ring deques Pool.lanes index tombs]; f_equal; apply list_fmap_insert].
  apply list_lookup_total_correct. unfold absq. cbn [deques]. by rewrite list_lookup_fmap, Hl.
Qed.

Lemma names_snoc l x : names (l ++ [x]) = nm x :: names l.
Proof. unfold names. by rewrite fmap_app, rev_app_distr. Qed.

Lemma step1_sim tb M Q R D H idx :
  holds M Q R D H -> (idx < length (dqs M))%nat ->
  let '(o, M') := step1 M idx in
  exists D', stepped 1 M Q R D H M' Q R D' (option_list o ++ H) [] /\
    pop_own idx (absq tb M Q R D) = (fun x => (nm x, absq tb M' Q R D')) <$> o /\
    (o = None -> absq tb M' Q R D' = absq tb M Q R D /\ rng M' = rng M).
Proof.
  intros Hh Hi. destruct (deque_at _ _ _ _ _ _ Hh Hi) as (l & Hl & Hd & Hc). unfold step1.
  pose proof (pop_refines _ (dtotal M) _ Hd) as Hp. destruct (deque_pop (dqs M !!! idx) (dtotal M)) as [o [d tot]].
  destruct Hp as (-> & Hd' & Hc' & Ht & Hb). rewrite Hc in Hc'. exists (<[idx := take (length l - 1) l]> D).
  destruct (absq_deque tb M Q R D idx l (take (length l - 1) l) (d, tot) Hl) as [Hq1 Hq2]. unfold pop_own. rewrite Hq1, Hq2.
  destruct l as [|x l _] using rev_ind.
  - simpl in *. split_and!; [|done|].
    + eapply deque_change; [done|exact Hl|done|done| |done|lia|done|done]. rewrite Ht, (ho_total _ _ _ _ _ Hh), Z.sub_0_r, Z.add_0_r.
      unfold u64. by rewrite Z.mod_mod.
    + intros _. split; [|done]. unfold absq. cbn [qlen Pool.ring deques Pool.lanes index tombs]. f_equal.
      rewrite list_insert_id; [done|]. by rewrite list_lookup_fmap, Hl.
  - rewrite length_app in *. simpl in *. replace (length l + 1 - 1)%nat with (length l) in * by lia.
    rewrite take_app_length in *. rewrite last_snoc in *. rewrite names_snoc. split_and!; [|done|done].
    eapply deque_change; [done|exact Hl|done|done| |simpl; zcount|lia|done|done]. rewrite Ht, length_app. simpl. f_equal. lia.
Qed.

(** *** Step 2 *)

Lemma push_sim M Q R D x H idx l :
  holds M Q R D (x :: H) -> (idx < length (dqs M))%nat -> D !! idx = Some l -> Deque.bottom (dqs M !!! idx) + 1 < 2 ^ 64 ->
  let '(ok, s) := deque_push (dqs M !!! idx) (dtotal M) x in
  ok = (length l <? Z.to_nat LOOMWORKS_DEQUE_CAPACITY)%nat /\
  (ok = true -> stepped 1 M Q R D (x :: H) (set_deque M idx s) Q R (<[idx := l ++ [x]]> D) H []).
Proof.
  intros Hh Hi Hl Hb. destruct (deque_at _ _ _ _ _ _ Hh Hi) as (l0 & Hl0 & Hd & Hc). assert (l0 = l) as -> by congruence.
  pose proof (push_refines _ (dtotal M) x _ Hd Hb) as Hp. destruct (deque_push (dqs M !!! idx) (dtotal M) x) as [ok [d tot]].
  destruct Hp as (Hok & Hd' & Hc' & Ht & Hbb). rewrite Hc in *. split.
  - rewrite Hok. unfold LOOMWORKS_DEQUE_CAPACITY. destruct (Z.ltb_spec (Z.of_nat (length l)) 256), (Nat.ltb_spec (length l) (Z.to_nat 256)); lia || done.
  - intros E. rewrite E in *. eapply deque_change; [done|exact Hl|done|done| |zcount|lia|done|done].
    rewrite Ht, length_app. simpl. f_equal. lia.
Qed.

Lemma lanes_rep_len m q Q n :
  lanes_rep m q Q -> lanes_rep m (mk_lanes (buckets_head q) (buckets_tail q) (nonempty_bits q) n) Q.
Proof. intros []. by split. Qed.

(** Dropping an id from the index. *)
Lemma index_ids_delete M Q R D H i :
  holds M Q R D H -> 0 <= i -> (set_map Z.to_nat (dom (delete i (index_map (cidx M)))) : gset nat) =
    set_map Z.to_nat (dom (index_map (cidx M))) ∖ {[Z.to_nat i]}.
Proof.
  intros Hh Hi. apply set_eq. intros t. rewrite elem_of_difference, !elem_of_map, elem_of_singleton. setoid_rewrite elem_of_dom.
  assert (Hpos : forall j, is_Some (index_map (cidx M) !! j) -> 1 <= j).
  { intros j [x Hx]. destruct (ho_map _ _ _ _ _ Hh j x Hx) as [Hin <-]. apply (ho_node _ _ _ _ _ Hh). apply elem_of_app. by right. }
  split.
  - intros (j & -> & Hj). rewrite lookup_delete_is_Some in Hj. destruct Hj as [Hne Hj].
    split; [by exists j|]. specialize (Hpos j Hj). lia.
  - intros [(j & -> & Hj) Hne]. exists j. split; [done|]. rewrite lookup_delete_is_Some. split; [|done]. by intros ->.
Qed.

Lemma cancel_cap_remove ci t : cancel_cap (cancel_index_remove ci t) = cancel_cap ci.
Proof. unfold cancel_index_remove. by destruct (no_index ci); [|destruct (probe _ _ _ _) as [[h|]|]]. Qed.

Lemma in_hand Q R D x H : x ∈ all_ptrs Q R D (x :: H).
Proof. unfold all_ptrs, ring_ptrs. rewrite !elem_of_app, elem_of_cons. tauto. Qed.

Definition unindexed (M : machine) (x : ptr) : Prop := forall i, index_map (cidx M) !! i <> Some x.

(** A node in the worker's hands leaves the index. *)
Lemma unindex_sim tb M Q R D x H :
  holds M Q R D (x :: H) ->
  let M' := set_index M (cancel_index_remove (cidx M) (nodes M !!! x)) in
  stepped 0 M Q R D (x :: H) M' Q R D (x :: H) [] /\ unindexed M' x /\
  absq tb M' Q R D = (let q := absq tb M Q R D in
    mk_queues (qlen q) (Pool.ring q) (deques q) (Pool.lanes q) (index q ∖ {[nm x]}) (tombs q)).
Proof.
  intros Hh M'. destruct (ho_node _ _ _ _ _ Hh x (in_hand Q R D x H)) as [_ [Hid Hnm] _].
  destruct (cancel_index_remove_spec (cidx M) (nodes M !!! x) (ho_index _ _ _ _ _ Hh) Hid) as [Hci Hcm]. split_and!.
  - split; [|done|apply relinked_refl|done|intros B HB; by rewrite Z.add_0_r|split; [done|apply cancel_cap_remove]|done|apply hashed_remove].
    eapply (holds_intro M _ _ _ _ _ _ _ _ _ [] (fun _ => True)); [exact Hh|apply Hh|apply Hh|apply Hh|apply Hh|apply Hh|done| |done|apply relinked_refl].
    intros i y Hi. cbn in Hi. rewrite Hcm in Hi. apply lookup_delete_Some in Hi as [_ Hi]. split; [done|]. by eapply ho_map.
  - intros i Hi. cbn in Hi. rewrite Hcm in Hi. apply lookup_delete_Some in Hi as [Hne Hi].
    destruct (ho_map _ _ _ _ _ Hh i x Hi) as [_ ?]. done.
  - unfold absq. cbn [lane cidx set_index M' qlen Pool.ring deques Pool.lanes index tombs].
    rewrite Hcm, (index_ids_delete M Q R D (x :: H)) by (done || lia). by rewrite Hnm.
Qed.

(** queue_len is free of the other structures. *)
Lemma add_len_sim tb M Q R D H k :
  holds M Q R D H -> stepped 0 M Q R D H (add_len M k) Q R D H [] /\
  absq tb (add_len M k) Q R D = with_qlen (absq tb M Q R D) (qlen (absq tb M Q R D) +32 k).
Proof.
  intros Hh. split; [|done]. split; [|done|apply relinked_refl|done|intros B HB; by rewrite Z.add_0_r|done|intros _; apply u32_range|done].
  destruct Hh. split; try done. by apply lanes_rep_len.
Qed.

(** A node that is in no index goes from the hands to its lane. *)
Definition put_lane (M : machine) (x : ptr) : machine := set_lane M (loom_enqueue_unlocked (nodes M) (lane M) x).

Lemma put_lane_sim tb M Q R D x H :
  holds M Q R D (x :: H) -> unindexed M x ->
  exists Q', stepped 0 M Q R D (x :: H) (put_lane M x) Q' R D H [] /\
    absq tb (put_lane M x) Q' R D = lane_put (absq tb M Q R D) (pr (nm x)) (nm x).
Proof.
  intros Hh Hu. destruct (ho_node _ _ _ _ _ Hh x (in_hand Q R D x H)) as [[Hx0 Hxs] _ [Hpr Hlt]].
  assert (Hfresh : forall c, (c < 256)%nat -> x ∉ Q c).
  { intros c Hc Hin. pose proof (ho_nodup _ _ _ _ _ Hh) as Hnd. unfold all_ptrs in Hnd. apply NoDup_app in Hnd as (_ & Hd & _).
    apply (Hd x); [apply in_bucket; by exists c|]. unfold ring_ptrs. rewrite !elem_of_app, elem_of_cons. tauto. }
  pose proof (lane_enqueue_refines (nodes M) (lane M) Q x (pr (nm x)) (ho_lanes _ _ _ _ _ Hh) Hxs Hx0 Hpr Hlt Hfresh) as He.
  unfold put_lane. destruct (loom_enqueue_unlocked (nodes M) (lane M) x) as [m' q']. destruct He as (Hl & Hq & Hr).
  exists (upd Q (pr (nm x)) (Q (pr (nm x)) ++ [x])).
  assert (Hp : all_ptrs Q R D (x :: H) ≡ₚ [] ++ all_ptrs (upd Q (pr (nm x)) (Q (pr (nm x)) ++ [x])) R D H).
  { unfold all_ptrs, ring_ptrs. pose proof (bucket_ptrs_upd Q _ (Q (pr (nm x)) ++ [x]) Hlt). zcount. }
  assert (Hr' : relinked (nodes M) m' (fun _ => True)) by (intros y; destruct (Hr y) as [?|(_ & ?)]; auto). split.
  - split; [|done|done|done|intros B HB; by rewrite Z.add_0_r|done|intros _; cbn; rewrite Hq; apply u32_range|by apply (hashed_link _ _ (fun _ => True))].
    eapply (holds_intro M); [done|done|apply Hh..| |exact Hp|exact Hr'].
    cbn. intros i y Hi. split; [done|]. destruct (ho_map _ _ _ _ _ Hh i y Hi) as [Hy _]. unfold ring_ptrs in *.
    rewrite !elem_of_app, elem_of_cons in *. destruct Hy as [?|[?|[->|?]]]; [tauto|tauto|by apply Hu in Hi|tauto].
  - unfold absq, lane_put. cbn [set_lane fst snd lane cidx qlen Pool.ring deques Pool.lanes index tombs]. rewrite Hq. f_equal.
    rewrite (fmap_upd (fun l => nm <$> l)) by done. f_equal.
    rewrite (list_lookup_total_correct _ _ _ (bucket_lookup (fun b => nm <$> Q b) _ Hlt)). by rewrite fmap_app.
Qed.

Lemma respill_sim tb M Q R D x H :
  holds M Q R D (x :: H) ->
  exists Q', stepped 0 M Q R D (x :: H) (respill M x) Q' R D H [] /\ rng (respill M x) = rng M /\
    absq tb (respill M x) Q' R D =
      (let q := absq tb M Q R D in
       lane_put (mk_queues (qlen q -32 1) (Pool.ring q) (deques q) (Pool.lanes q) (index q ∖ {[nm x]}) (tombs q)) (pr (nm x)) (nm x)).
Proof.
  intros Hh. destruct (unindex_sim tb M Q R D x H Hh) as (S1 & U1 & E1). set (M1 := set_index M _) in *.
  destruct (add_len_sim tb M1 Q R D (x :: H) (-1) (st_holds _ _ _ _ _ _ _ _ _ _ _ _ S1)) as [S2 E2].
  destruct (put_lane_sim tb (add_len M1 (-1)) Q R D x H (st_holds _ _ _ _ _ _ _ _ _ _ _ _ S2) U1) as (Q' & S3 & E3).
  exists Q'. split_and!; [|done|].
  - exact (stepped_trans _ _ _ _ _ _ _ _ _ _ _ _ _ _ _ _ _ _ _ (stepped_trans _ _ _ _ _ _ _ _ _ _ _ _ _ _ _ _ _ _ _ S1 S2) S3).
  - change (respill M x) with (put_lane (add_len M1 (-1)) x). rewrite E3, E2, E1. done.
Qed.

Lemma stepped_hand k M Q R D H M' Q' R' D' H' H1 out :
  H1 ≡ₚ H -> stepped k M Q R D H M' Q' R' D' H' out -> stepped k M Q R D H1 M' Q' R' D' H' out.
Proof. intros Hp [A1 A2 A3 A4 A5 A6 A7 A8]. split; try done. rewrite <- A2. unfold all_ptrs, ring_ptrs. by rewrite Hp. Qed.

Lemma holds_hand M Q R D H H1 : H ≡ₚ H1 -> holds M Q R D H -> holds M Q R D H1.
Proof.
  intros Hp [A1 A2 A3 A4 A5 A6 A7 A8 A9]. assert (Hr : ring_ptrs R D H ≡ₚ ring_ptrs R D H1) by (unfold ring_ptrs; by rewrite Hp).
  assert (Ha : all_ptrs Q R D H ≡ₚ all_ptrs Q R D H1) by (unfold all_ptrs; by rewrite Hr). split; try done.
  - intros i x Hi. rewrite <- Hr. by apply A7.
  - by rewrite <- Ha.
  - intros x Hx. apply A9. by rewrite Ha.
Qed.

Lemma push_all_sim tb idx R batch : forall i M Q D task B,
  holds M Q R D (batch ++ option_list task) -> (idx < length (dqs M))%nat -> (i = 0%nat -> task = None) ->
  Forall (fun d => Deque.bottom d <= B) (dqs M) -> B + Z.of_nat (length batch) < 2 ^ 64 - 1 ->
  let '(o, M') := push_all idx i batch M task in
  exists Q' D', stepped (Z.of_nat (length batch)) M Q R D (batch ++ option_list task) M' Q' R D' (option_list o) [] /\
    push_batch pr idx i (nm <$> batch) (absq tb M Q R D) (nm <$> task) = (absq tb M' Q' R D', nm <$> o) /\ rng M' = rng M.
Proof.
  induction batch as [|x batch IH]; intros i M Q D task B Hh Hi H0 HB Hw; cbn [push_all].
  { exists Q, D. split_and!; [by apply stepped_refl|done|done]. }
  rewrite fmap_cons. cbn [push_batch]. destruct (deque_at _ _ _ _ _ _ Hh Hi) as (l & Hl & Hd & Hc).
  assert (Hb : Deque.bottom (dqs M !!! idx) <= B).
  { destruct (lookup_lt_is_Some_2 _ _ Hi) as [d0 Hd0]. rewrite (list_lookup_total_correct _ _ _ Hd0).
    exact (Forall_lookup_1 _ _ _ _ HB Hd0). }
  change (length (x :: batch)) with (S (length batch)) in *. rewrite Nat2Z.inj_succ in *.
  pose proof (push_sim M Q R D x (batch ++ option_list task) idx l Hh Hi Hl ltac:(lia)) as Hp.
  destruct (deque_push (dqs M !!! idx) (dtotal M) x) as [ok s]. destruct Hp as [Hok Hst].
  destruct (absq_deque tb M Q R D idx l (l ++ [x]) s Hl) as [Hq1 Hq2]. rewrite Hq1.
  assert (Hn : length (names l) = length l) by (unfold names; by rewrite length_rev, length_fmap).
  rewrite Hn, <- Hok. destruct ok.
  - specialize (Hst eq_refl). pose proof (st_len _ _ _ _ _ _ _ _ _ _ _ _ Hst) as Hlen.
    specialize (IH (S i) _ _ _ task (B + 1) (st_holds _ _ _ _ _ _ _ _ _ _ _ _ Hst) ltac:(lia) ltac:(done)
      (st_room _ _ _ _ _ _ _ _ _ _ _ _ Hst B HB) ltac:(lia)).
    destruct (push_all idx (S i) batch (set_deque M idx s) task) as [o M']. destruct IH as (Q' & D' & I1 & I2 & I3).
    exists Q', D'. rewrite Hq2, names_snoc in I2. split_and!; [|exact I2|done].
    eapply stepped_weaken; [|exact (stepped_trans _ _ _ _ _ _ _ _ _ _ _ _ _ _ _ _ _ _ _ Hst I1)]. lia.
  - destruct (Nat.eqb_spec i 0) as [->|Hne].
    + rewrite (H0 eq_refl) in *. simpl in Hh. rewrite app_nil_r in Hh.
      assert (Hperm : x :: batch ≡ₚ batch ++ option_list (Some x)) by (simpl; zcount).
      specialize (IH 1%nat M Q D (Some x) B (holds_hand _ _ _ _ _ _ Hperm Hh) Hi ltac:(done) HB ltac:(lia)).
      destruct (push_all idx 1 batch M (Some x)) as [o M']. destruct IH as (Q' & D' & I1 & I2 & I3).
      exists Q', D'. split_and!; [|exact I2|done]. simpl option_list. rewrite app_nil_r.
      eapply stepped_weaken; [|exact (stepped_hand _ _ _ _ _ _ _ _ _ _ _ _ _ Hperm I1)]. lia.
    + destruct (respill_sim tb M Q R D x _ Hh) as (Q1 & S1 & S2 & S3).
      specialize (IH (S i) (respill M x) Q1 D task B (st_holds _ _ _ _ _ _ _ _ _ _ _ _ S1)
        ltac:(rewrite (st_len _ _ _ _ _ _ _ _ _ _ _ _ S1); done) ltac:(done)
        ltac:(rewrite <- (Z.add_0_r B); by apply (st_room _ _ _ _ _ _ _ _ _ _ _ _ S1)) ltac:(lia)).
      destruct (push_all idx (S i) batch (respill M x) task) as [o M']. destruct IH as (Q' & D' & I1 & I2 & I3).
      exists Q', D'. rewrite S3 in I2. split_and!; [|exact I2|congruence].
      eapply stepped_weaken; [|exact (stepped_trans _ _ _ _ _ _ _ _ _ _ _ _ _ _ _ _ _ _ _ S1 I1)]. lia.
Qed.

Lemma ring_bulk_published n l :
  ring_bulk n ((fun x => (nm x, true)) <$> l) = (nm <$> take n l, (fun x => (nm x, true)) <$> drop n l).
Proof.
  revert l. induction n as [|n IH]; intros [|x l]; [done|done|done|]. csimpl. rewrite IH. done.
Qed.

Lemma step2_sim tb M Q R D idx B :
  holds M Q R D [] -> (idx < length (dqs M))%nat -> Forall (fun d => Deque.bottom d <= B) (dqs M) -> B < 2 ^ 64 - 20 ->
  let '(o, M') := step2 M idx in
  exists Q' R' D', stepped 9 M Q R D [] M' Q' R' D' (option_list o) [] /\
    refill pr idx true (absq tb M Q R D) = (absq tb M' Q' R' D', nm <$> o).
Proof.
  intros Hh Hi HB Hw. unfold step2, refill.
  change (Pool.ring (absq tb M Q R D)) with ((fun x => (nm x, true)) <$> R).
  rewrite ring_bulk_published. pose proof (dequeue_refines (rng M) R LOOMWORKS_BULK_DEQUEUE (ho_ring _ _ _ _ _ Hh)) as Hd.
  destruct (ring_bulk_try_dequeue (rng M) LOOMWORKS_BULK_DEQUEUE) as [batch r]. destruct Hd as (-> & Hr & Hsz).
  set (batch := take LOOMWORKS_BULK_DEQUEUE R) in *. set (R' := drop LOOMWORKS_BULK_DEQUEUE R) in *.
  assert (Hb8 : (length batch <= 8)%nat) by (subst batch; rewrite length_take; unfold LOOMWORKS_BULK_DEQUEUE; lia).
  assert (HR : R = batch ++ R') by (symmetry; apply take_drop). clearbody batch R'.
  assert (Hrp : ring_ptrs R D [] ≡ₚ ring_ptrs R' D (batch ++ option_list None)) by (subst R; unfold ring_ptrs; simpl; zcount).
  assert (S1 : stepped 0 M Q R D [] (set_ring M r) Q R' D (batch ++ option_list None) []).
  { split; [|unfold all_ptrs; by rewrite Hrp|apply relinked_refl|done|intros B' HB'; by rewrite Z.add_0_r|done|done|done].
    eapply (holds_intro M _ _ _ _ _ _ _ _ _ [] (fun _ => True)); [exact Hh|apply Hh|done|apply Hh|apply Hh|apply Hh|apply Hh| | |apply relinked_refl].
    - intros i x Hx. split; [done|]. rewrite <- Hrp. by eapply ho_map.
    - unfold all_ptrs. by rewrite Hrp. }
  pose proof (push_all_sim tb idx R' batch 0 (set_ring M r) Q D None B (st_holds _ _ _ _ _ _ _ _ _ _ _ _ S1) Hi ltac:(done) HB ltac:(lia)) as Hp.
  destruct (push_all idx 0 batch (set_ring M r) None) as [o M1] eqn:Ep. destruct Hp as (Q1 & D1 & P1 & P2 & _).
  cbn beta iota zeta. change (mk_queues (qlen (absq tb M Q R D)) _ _ _ _ _) with (absq tb (set_ring M r) Q R' D).
  cbn [fmap option_fmap option_map] in P2. rewrite P2.
  pose proof (stepped_trans _ _ _ _ _ _ _ _ _ _ _ _ _ _ _ _ _ _ _ S1 P1) as S2. destruct o as [x|]; cbn [fmap option_fmap option_map].
  - exists Q1, R', D1. split; [|done]. eapply stepped_weaken; [|exact S2]. lia.
  - pose proof (step1_sim tb M1 Q1 R' D1 [] idx (st_holds _ _ _ _ _ _ _ _ _ _ _ _ S2)
      ltac:(rewrite (st_len _ _ _ _ _ _ _ _ _ _ _ _ S2); done)) as H1.
    destruct (step1 M1 idx) as [o M2]. destruct H1 as (D2 & T1 & T2 & T3). exists Q1, R', D2.
    pose proof (stepped_trans _ _ _ _ _ _ _ _ _ _ _ _ _ _ _ _ _ _ _ S2 T1) as S3. rewrite app_nil_r in S3. split.
    + eapply stepped_weaken; [|exact S3]. lia.
    + rewrite T2. destruct o as [x|]; [done|]. by destruct (T3 eq_refl) as [-> _].
Qed.

(** *** Steps 3 and 4 *)

Lemma has_work_sim tb M Q R D H : holds M Q R D H -> Pool.ring_has_work (absq tb M Q R D) = Ring.ring_has_work (rng M).
Proof. intros Hh. rewrite (has_work_spec _ _ (ho_ring _ _ _ _ _ Hh)). unfold Pool.ring_has_work, absq. by destruct R. Qed.

Lemma steal_nothing d tot s : Deque.deque_steal d tot = (None, s) -> s = (d, tot).
Proof. unfold Deque.deque_steal. case_if; by intros [=]. Qed.

Lemma steal_names l : Pool.deque_steal (names l) = match l with [] => None | x :: l' => Some (nm x, names l') end.
Proof. unfold Pool.deque_steal, names. rewrite rev_involutive. by destruct l. Qed.

Lemma steal_sim tb M Q R D vs idx :
  holds M Q R D [] -> Forall (fun v => (v < length (dqs M))%nat) vs ->
  let '(o, M') := steal_loop vs idx M in
  exists D', stepped 1 M Q R D [] M' Q R D' (option_list o) [] /\
    steal_from vs idx (absq tb M Q R D) = (fun x => (nm x, absq tb M' Q R D')) <$> o /\ (o = None -> M' = M /\ D' = D).
Proof.
  intros Hh. induction 1 as [|v vs Hv Hvs IH]; cbn [steal_loop steal_from].
  { exists D. split_and!; [eapply stepped_weaken; [|by apply stepped_refl]; lia|done|done]. }
  destruct (v =? idx)%nat; [exact IH|]. destruct (deque_at _ _ _ _ _ _ Hh Hv) as (l & Hl & Hd & Hc).
  pose proof (steal_refines _ (dtotal M) _ Hd) as Hp. destruct (Deque.deque_steal (dqs M !!! v) (dtotal M)) as [o [d tot]] eqn:Es.
  destruct Hp as (-> & Hd' & Hc' & Ht & Hb). rewrite Hc in Hc'.
  destruct (absq_deque tb M Q R D v l (drop 1 l) (d, tot) Hl) as [Hq1 Hq2]. rewrite Hq1, steal_names. destruct l as [|x l]; simpl in *.
  - apply steal_nothing in Es as [= -> ->].
    assert (HM : set_deque M v (dqs M !!! v, dtotal M) = M).
    { unfold set_deque. simpl. rewrite list_insert_id by by apply list_lookup_lookup_total_lt. by destruct M. }
    rewrite HM. exact IH.
  - rewrite drop_0 in *. exists (<[v := l]> D). rewrite Hq2. split_and!; [|done|done].
    eapply deque_change; [done|exact Hl|done|done| |simpl; zcount|lia|done|done]. rewrite Ht. simpl. f_equal. lia.
Qed.

Lemma fetch_sim tb M Q R D wc idx B :
  holds M Q R D [] -> (idx < length (dqs M))%nat -> (0 < wc <= length (dqs M))%nat ->
  Forall (fun d => Deque.bottom d <= B) (dqs M) -> B < 2 ^ 64 - 30 ->
  let '(o, M') := fetch M wc idx in
  exists Q' R' D',
    take_task pr true wc idx true (absq tb M Q R D) = (absq tb M' Q' R' D', (fun '(x, f) => (nm x, f)) <$> o) /\
    match o with
    | None => stepped 12 M Q R D [] M' Q' R' D' [] []
    | Some (x, true) => stepped 12 M Q R D [] M' Q' R' D' [x] []
    | Some (x, false) => stepped 12 M Q R D [] M' Q' R' D' [] [x]
    end.
Proof.
  intros Hh Hi Hwc HB Hw. unfold fetch, take_task. rewrite step0_dequeue.
  pose proof (lane_dequeue_sim tb M Q R D 4 Hh) as H0. destruct (lane_dequeue M 4) as [[x|] M0].
  { destruct H0 as (Q' & S0 & E0 & _). rewrite E0. exists Q', R, D. split; [done|]. eapply stepped_weaken; [|exact S0]. lia. }
  destruct H0 as (Q0 & _ & E0 & [-> ->]); [done|]. rewrite E0. cbn [fmap option_fmap option_map].
  pose proof (step1_sim tb M Q R D [] idx Hh Hi) as H1. destruct (step1 M idx) as [[x|] M1].
  { destruct H1 as (D' & S1 & E1 & _). rewrite E1. exists Q, R, D'. split; [done|]. eapply stepped_weaken; [|exact S1]. lia. }
  destruct H1 as (D1 & S1 & E1 & [Q1 _]); [done|]. rewrite E1. cbn [fmap option_fmap option_map]. rewrite <- Q1.
  pose proof (st_holds _ _ _ _ _ _ _ _ _ _ _ _ S1) as Hh1. pose proof (st_len _ _ _ _ _ _ _ _ _ _ _ _ S1) as L1.
  pose proof (step2_sim tb M1 Q R D1 idx (B + 1) Hh1 ltac:(lia) (st_room _ _ _ _ _ _ _ _ _ _ _ _ S1 B HB) ltac:(lia)) as H2.
  destruct (step2 M1 idx) as [o M2]. destruct H2 as (Q2 & R2 & D2 & S2 & E2). rewrite E2.
  pose proof (stepped_trans _ _ _ _ _ _ _ _ _ _ _ _ _ _ _ _ _ _ _ S1 S2) as S12. destruct o as [x|]; cbn [fmap option_fmap option_map].
  { exists Q2, R2, D2. split; [done|]. eapply stepped_weaken; [|exact S12]. lia. }
  pose proof (st_holds _ _ _ _ _ _ _ _ _ _ _ _ S12) as Hh2. pose proof (st_len _ _ _ _ _ _ _ _ _ _ _ _ S12) as L2.
  rewrite (has_work_sim tb M2 Q2 R2 D2 [] Hh2). cbn [andb orb negb].
  assert (H3 : let '(o, M3) := step3 M2 wc idx in exists D3, stepped 1 M2 Q2 R2 D2 [] M3 Q2 R2 D3 (option_list o) [] /\
    (if (1 <? wc)%nat then steal_from (victims wc idx (Ring.ring_has_work (rng M2))) idx (absq tb M2 Q2 R2 D2) else None) =
      (fun x => (nm x, absq tb M3 Q2 R2 D3)) <$> o /\ (o = None -> M3 = M2 /\ D3 = D2)).
  { unfold step3. destruct (1 <? wc)%nat; [apply steal_sim; [done|apply victims_lt; lia]|].
    exists D2. split_and!; [eapply stepped_weaken; [|by apply stepped_refl]; lia|done|done]. }
  destruct (step3 M2 wc idx) as [[x|] M3].
  { destruct H3 as (D3 & S3 & E3 & _). rewrite E3. exists Q2, R2, D3. split; [done|].
    eapply stepped_weaken; [|exact (stepped_trans _ _ _ _ _ _ _ _ _ _ _ _ _ _ _ _ _ _ _ S12 S3)]. lia. }
  destruct H3 as (D3 & _ & E3 & [-> ->]); [done|]. rewrite E3. cbn [fmap option_fmap option_map]. unfold step4.
  destruct (Ring.ring_has_work (rng M2)); cbn [negb].
  { exists Q2, R2, D2. split; [done|]. eapply stepped_weaken; [|exact S12]. lia. }
  pose proof (lane_dequeue_sim tb M2 Q2 R2 D2 255 Hh2) as H4. destruct (lane_dequeue M2 255) as [o M4]. destruct H4 as (Q4 & S4 & E4 & N4).
  rewrite E4. pose proof (stepped_trans _ _ _ _ _ _ _ _ _ _ _ _ _ _ _ _ _ _ _ S12 S4) as S24.
  destruct o as [x|]; cbn [fmap option_fmap option_map].
  - exists Q4, R2, D2. split; [done|]. eapply stepped_weaken; [|exact S24]. lia.
  - destruct (N4 eq_refl) as [-> ->]. exists Q2, R2, D2. split; [done|]. eapply stepped_weaken; [|exact S12]. lia.
Qed.

(** *** Nodes come and go *)

Lemma lanes_rep_frame m m' q Q :
  lanes_rep m q Q -> (forall y, y ∈ bucket_ptrs Q -> m' !! y = m !! y) -> lanes_rep m' q Q.
Proof.
  intros Hr Hf. assert (Hf' : forall b y, (b < 256)%nat -> y ∈ Q b -> m' !! y = m !! y) by (intros b y Hb Hy; apply Hf, in_bucket; eauto).
  destruct Hr as [A1 A2 A3 A4 A5 A6 A7 A8 A9 A10]. split; try done.
  - intros b Hb. eapply chain_frame; [|by apply A4]. intros y. by apply Hf'.
  - intros b x Hb Hx. rewrite lookup_total_alt, (Hf' b x), <- lookup_total_alt by done. by apply A10.
Qed.

(** A change of the store that no queued node feels, flags apart. *)
Lemma holds_store M Q R D H m' :
  holds M Q R D H -> (forall y, y ∈ bucket_ptrs Q -> m' !! y = nodes M !! y) ->
  (forall y, y ∈ all_ptrs Q R D H -> (is_Some (nodes M !! y) -> is_Some (m' !! y)) /\
     task_id (m' !!! y) = task_id (nodes M !!! y) /\ priority (m' !!! y) = priority (nodes M !!! y)) ->
  holds (set_nodes M m') Q R D H.
Proof.
  intros [A1 A2 A3 A4 A5 A6 A7 A8 A9] Hb Hn. split; try done.
  - by eapply lanes_rep_frame.
  - intros i x Hi. destruct (A7 i x Hi) as [Hx <-]. split; [done|]. cbn. apply Hn. apply elem_of_app. by right.
  - intros x Hx. destruct (A9 x Hx) as [[B1 B1'] B2 B3], (Hn x Hx) as (N1 & N2 & N3).
    split; cbn; [split; [done|by apply N1]|by rewrite N2|by rewrite N3].
Qed.

Lemma holds_elsewhere M Q R D H m' x :
  holds M Q R D H -> (x ∉ all_ptrs Q R D H) -> (forall y, y <> x -> m' !! y = nodes M !! y) -> holds (set_nodes M m') Q R D H.
Proof.
  intros Hh Hx Hm. assert (Hy : forall y, y ∈ all_ptrs Q R D H -> m' !! y = nodes M !! y) by (intros y Hy; apply Hm; by intros ->).
  apply holds_store; [done| |].
  - intros y Hb. apply Hy, elem_of_app. by left.
  - intros y Hb. by rewrite !lookup_total_alt, (Hy y Hb).
Qed.

(** A node leaves the hands for good, or comes into them. *)
Lemma holds_drop M Q R D H x : holds M Q R D (x :: H) -> unindexed M x -> stepped 0 M Q R D (x :: H) M Q R D H [x].
Proof.
  intros Hh Hu. assert (Hp : all_ptrs Q R D (x :: H) ≡ₚ [x] ++ all_ptrs Q R D H) by (unfold all_ptrs, ring_ptrs; zcount).
  split; [|done|apply relinked_refl|done|intros B HB; by rewrite Z.add_0_r|done|done|done].
  eapply (holds_intro M); [exact Hh|apply Hh..| |exact Hp|apply (relinked_refl _ (fun _ => True))].
  intros i y Hi. split; [done|]. destruct (ho_map _ _ _ _ _ Hh i y Hi) as [Hy _]. unfold ring_ptrs in *.
  rewrite !elem_of_app, elem_of_cons in *. destruct Hy as [?|[?|[->|?]]]; [tauto|tauto|by apply Hu in Hi|tauto].
Qed.

Lemma holds_new M Q R D H x : holds M Q R D H -> good_node (nodes M) x -> (x ∉ all_ptrs Q R D H) -> holds M Q R D (x :: H).
Proof.
  intros Hh Hg Hx. assert (Hp : all_ptrs Q R D (x :: H) ≡ₚ x :: all_ptrs Q R D H) by (unfold all_ptrs, ring_ptrs; zcount).
  destruct Hh as [A1 A2 A3 A4 A5 A6 A7 A8 A9]. split; try done.
  - intros i y Hi. destruct (A7 i y Hi) as [Hy ?]. split; [|done]. unfold ring_ptrs in *. rewrite !elem_of_app, elem_of_cons in *. tauto.
  - rewrite Hp. by constructor.
  - intros y. rewrite Hp. intros [->|Hy]%elem_of_cons; [done|by apply A9].
Qed.

(** *** The index has room for every ring task *)

Lemma length_concat_bound M Q R D H :
  holds M Q R D H -> (length (concat D) <= 256 * length (dqs M))%nat.
Proof.
  intros [_ _ Hd Hc _ _ _ _ _]. revert Hc. induction Hd as [|d l ds D' Hr Hd IH]; intros Hc; [done|].
  apply Forall_cons in Hc as [Hc Hcs]. cbn [concat length]. rewrite length_app. pose proof (dr_bound _ _ Hr) as Hb. rewrite Hc in Hb.
  unfold LOOMWORKS_DEQUE_CAPACITY in Hb. specialize (IH Hcs). lia.
Qed.

Lemma size_list_to_set_le (l : list Z) : (size (list_to_set l : gset Z) <= length l)%nat.
Proof.
  induction l as [|x l IH]; [done|]. cbn [list_to_set length]. rewrite size_union_alt, size_singleton.
  pose proof (subseteq_size (list_to_set l ∖ {[x]} : gset Z) (list_to_set l) ltac:(set_solver)). lia.
Qed.

Lemma index_size M Q R D x :
  holds M Q R D [x] -> unindexed M x -> (size (index_map (cidx M)) <= length R + length (concat D))%nat.
Proof.
  intros Hh Hu. rewrite <- (size_dom (D := gset Z)), <- length_app, <- (length_fmap (fun y => task_id (nodes M !!! y))).
  etrans; [|apply size_list_to_set_le]. apply subseteq_size. intros i [y Hi]%elem_of_dom.
  destruct (ho_map _ _ _ _ _ Hh i y Hi) as [Hy <-]. apply elem_of_list_to_set, list_elem_of_fmap. exists y. split; [done|].
  unfold ring_ptrs in Hy. rewrite !elem_of_app, list_elem_of_singleton in *. destruct Hy as [?|[?| ->]]; [tauto|tauto|by apply Hu in Hi].
Qed.

Lemma cancel_cap_insert ci p t : cancel_cap (cancel_index_insert ci p t) = cancel_cap ci.
Proof. unfold cancel_index_insert. by destruct (no_index ci); [|destruct (probe _ _ _ _)]. Qed.

Lemma cancel_cap_claim ci t : cancel_cap (cancel_index_claim ci t).2 = cancel_cap ci.
Proof. unfold cancel_index_claim. by destruct (no_index ci); [|destruct (probe _ _ _ _) as [[h|]|]]. Qed.

(** ring_try_enqueue of a new node. *)
Lemma ring_put_sim tb M Q R D x :
  holds M Q R D [x] -> unindexed M x ->
  (forall y, y ∈ all_ptrs Q R D [] -> task_id (nodes M !!! y) <> task_id (nodes M !!! x)) ->
  ring_size (rng M) + 256 * Z.of_nat (length (dqs M)) <= cancel_cap (cidx M) ->
  match ring_try_enqueue (rng M) (cidx M) x (nodes M !!! x) with
  | (true, (rg, ci)) =>
      let M' := set_index (set_ring M rg) ci in
      stepped 0 M Q R D [x] M' Q (R ++ [x]) D [] [] /\ (length R < Z.to_nat (ring_size (rng M)))%nat /\
      absq tb M' Q (R ++ [x]) D = (let q := absq tb M Q R D in
        mk_queues (qlen q) (Pool.ring q ++ [(nm x, true)]) (deques q) (Pool.lanes q) (index q ∪ {[nm x]}) (tombs q))
  | (false, _) => True
  end.
Proof.
  intros Hh Hu Hfresh Hcap. pose proof (enqueue_refines (rng M) (cidx M) x (nodes M !!! x) R (ho_ring _ _ _ _ _ Hh)) as He.
  destruct (ring_try_enqueue (rng M) (cidx M) x (nodes M !!! x)) as [[] [rg ci]]; [|done]. destruct He as (Hlt & Hr & Hsz & ->).
  symmetry in Hlt. apply Z.ltb_lt in Hlt. destruct (ho_node _ _ _ _ _ Hh x (in_hand Q R D x [])) as [_ [Hid Hnm] _].
  assert (Hnone : index_map (cidx M) !! task_id (nodes M !!! x) = None).
  { apply eq_None_not_Some. intros [y Hy]. destruct (ho_map _ _ _ _ _ Hh _ y Hy) as [Hin Hty].
    unfold ring_ptrs in Hin. rewrite !elem_of_app, list_elem_of_singleton in Hin.
    destruct Hin as [Hin|[Hin| ->]]; [| |by apply Hu in Hy]; (apply (Hfresh y); [|done]); unfold all_ptrs, ring_ptrs; rewrite !elem_of_app; tauto. }
  pose proof (index_size M Q R D x Hh Hu) as Hs. pose proof (length_concat_bound M Q R D [x] Hh) as Hc.
  destruct (cancel_index_insert_spec (cidx M) (nodes M !!! x) (ho_index _ _ _ _ _ Hh) Hid x Hnone ltac:(lia)) as [Hci Hcm].
  assert (Hrp : ring_ptrs R D [x] ≡ₚ ring_ptrs (R ++ [x]) D []) by (unfold ring_ptrs; zcount).
  assert (Hap : all_ptrs Q R D [x] ≡ₚ all_ptrs Q (R ++ [x]) D []) by (unfold all_ptrs; by rewrite Hrp). split_and!; [|lia|].
  - split; [|done|apply relinked_refl|done|intros B HB; by rewrite Z.add_0_r|split; [done|apply cancel_cap_insert]|done|apply hashed_insert].
    destruct Hh as [A1 A2 A3 A4 A5 A6 A7 A8 A9]. split; try done; cbn.
    + intros i y Hi. rewrite Hcm in Hi. apply lookup_insert_Some in Hi as [[<- <-]|[_ Hi]].
      * split; [|done]. unfold ring_ptrs. rewrite !elem_of_app, list_elem_of_singleton. tauto.
      * rewrite <- Hrp. by apply A7.
    + by rewrite <- Hap.
    + intros y Hy. apply A9. by rewrite Hap.
  - unfold absq. cbn [lane cidx set_index set_ring qlen Pool.ring deques Pool.lanes index tombs]. rewrite Hcm, dom_insert_L. f_equal.
    + by rewrite fmap_app.
    + rewrite set_map_union_L, set_map_singleton_L, <- Hnm. apply (comm_L (∪)).
Qed.

(** The claim of an indexed node. *)
Lemma claim_sim tb M Q R D x :
  holds M Q R D [] -> index_map (cidx M) !! task_id (nodes M !!! x) = Some x ->
  let '(ok, ci) := cancel_index_claim (cidx M) (nodes M !!! x) in
  let M' := set_index M ci in
  ok = true /\ stepped 0 M Q R D [] M' Q R D [] [] /\
  absq tb M' Q R D = (let q := absq tb M Q R D in
    mk_queues (qlen q) (Pool.ring q) (deques q) (Pool.lanes q) (index q ∖ {[nm x]}) (tombs q)).
Proof.
  intros Hh Hi. destruct (ho_map _ _ _ _ _ Hh _ _ Hi) as [Hx _].
  assert (Hx' : x ∈ all_ptrs Q R D []) by (apply elem_of_app; by right).
  destruct (ho_node _ _ _ _ _ Hh x Hx') as [_ [Hid Hnm] _].
  destruct (cancel_index_claim_spec (cidx M) (nodes M !!! x) (ho_index _ _ _ _ _ Hh) Hid) as (Hci & Hok & Hcm).
  pose proof (cancel_cap_claim (cidx M) (nodes M !!! x)) as Hcap. pose proof (hashed_claim (nodes M) (cidx M) (nodes M !!! x)) as Hhc.
  destruct (cancel_index_claim (cidx M) (nodes M !!! x)) as [ok ci]. cbn [fst snd] in *. split_and!.
  - rewrite Hok. apply bool_decide_true. by rewrite Hi.
  - split; [|done|apply relinked_refl|done|intros B HB; by rewrite Z.add_0_r|done|done|done].
    eapply (holds_intro M _ _ _ _ _ _ _ _ _ [] (fun _ => True)); [exact Hh|apply Hh|apply Hh|apply Hh|apply Hh|apply Hh|done| |done|apply relinked_refl].
    intros i y Hy. cbn in Hy. rewrite Hcm in Hy. apply lookup_delete_Some in Hy as [_ Hy]. split; [done|]. by eapply ho_map.
  - unfold absq. cbn [lane cidx set_index qlen Pool.ring deques Pool.lanes index tombs].
    rewrite Hcm, (index_ids_delete M Q R D []) by (done || lia). by rewrite Hnm.
Qed.

(** The lane walk of a cancel. *)
Lemma list_find_first {A B} (f : A -> B) (P : B -> bool) l1 c l2 :
  (forall x, x ∈ l1 -> P (f x) = false) -> P (f c) = true ->
  list_find (fun b => P b = true) (f <$> l1 ++ c :: l2) = Some (length l1, f c).
Proof.
  intros H1 Hc. apply list_find_Some. split_and!; [|done|].
  - rewrite list_lookup_fmap, list_lookup_middle by done. done.
  - intros j y Hy Hj. rewrite list_lookup_fmap, lookup_app_l in Hy by done.
    destruct (l1 !! j) as [x|] eqn:Hx; simplify_eq/=. rewrite H1; [done|]. by eapply list_elem_of_lookup_2.
Qed.

Lemma list_find_nothing {A B} (f : A -> B) (P : B -> bool) l :
  (forall x, x ∈ l -> P (f x) = false) -> list_find (fun b => P b = true) (f <$> l) = None.
Proof. intros H. apply list_find_None, Forall_fmap, Forall_forall. intros x Hx. simpl. by rewrite H. Qed.

Lemma lane_remove_first (Q : nat -> list ptr) P s n b c l1 l2 :
  (s <= b < s + n)%nat -> Q b = l1 ++ c :: l2 -> P (nm c) = true -> (forall x, x ∈ l1 -> P (nm x) = false) ->
  (forall d x, (s <= d < b)%nat -> x ∈ Q d -> P (nm x) = false) ->
  lane_remove P ((fun d => nm <$> Q d) <$> seq s n) = Some (nm c, (fun d => nm <$> upd Q b (l1 ++ l2) d) <$> seq s n).
Proof.
  revert s. induction n as [|n IH]; intros s Hb HQ Hc H1 Hz; [lia|]. csimpl. cbn [lane_remove]. destruct (decide (s = b)) as [->|Hne].
  - rewrite HQ, (list_find_first nm P) by done. f_equal. f_equal. unfold upd at 1. rewrite decide_True by done. f_equal.
    + rewrite <- list_fmap_delete. f_equal. by apply delete_middle.
    + apply list_fmap_ext. intros i d Hd. unfold upd. rewrite decide_False; [done|]. apply lookup_seq in Hd. lia.
  - rewrite (list_find_nothing nm P) by (intros x Hx; apply (Hz s x); [lia|done]).
    rewrite IH; [|lia|done|done|done|intros d x Hd; apply Hz; lia]. unfold upd at 2. by rewrite decide_False.
Qed.

Lemma lane_remove_nothing (Q : nat -> list ptr) P s n :
  (forall d x, (s <= d < s + n)%nat -> x ∈ Q d -> P (nm x) = false) -> lane_remove P ((fun d => nm <$> Q d) <$> seq s n) = None.
Proof.
  revert s. induction n as [|n IH]; intros s Hz; [done|]. csimpl. cbn [lane_remove].
  rewrite (list_find_nothing nm P) by (intros x Hx; apply (Hz s x); [lia|done]).
  rewrite IH; [done|]. intros d x Hd. apply Hz. lia.
Qed.

Lemma lane_cancel_sim tb M Q R D test P :
  holds M Q R D [] -> (forall x, x ∈ bucket_ptrs Q -> test (nodes M !!! x) = P (nm x)) ->
  match cancel_walk LOOMWORKS_PRIORITY_BUCKETS (nodes M) (lane M) test 0 with
  | Some (x, s) =>
      exists Q', stepped 0 M Q R D [] (set_lane M s) Q' R D [] [x] /\
        (let q := absq tb M Q R D in exists L, lane_remove P (Pool.lanes q) = Some (nm x, L) /\
          absq tb (set_lane M s) Q' R D = mk_queues (qlen q -32 1) (Pool.ring q) (deques q) L (index q) (tombs q))
  | None => lane_remove P (Pool.lanes (absq tb M Q R D)) = None
  end.
Proof.
  intros Hh Ht. pose proof (cancel_walk_refines LOOMWORKS_PRIORITY_BUCKETS (nodes M) (lane M) Q test 0 (ho_lanes _ _ _ _ _ Hh) ltac:(done)) as Hw.
  assert (Ht' : forall b x, (b < 256)%nat -> x ∈ Q b -> test (nodes M !!! x) = P (nm x)) by (intros b x Hb Hx; apply Ht, in_bucket; eauto).
  destruct (cancel_walk _ _ _ _ _) as [[x [m' q']]|].
  - destruct Hw as (Q' & (b & l1 & l2 & Hb & HQ & Htx & H1 & Hz & ->) & Hl & Hq & Hr). exists (upd Q b (l1 ++ l2)).
    assert (Hp : all_ptrs Q R D [] ≡ₚ [x] ++ all_ptrs (upd Q b (l1 ++ l2)) R D []).
    { unfold all_ptrs. pose proof (bucket_ptrs_upd Q b (l1 ++ l2) ltac:(lia)) as E. rewrite HQ in E. zcount. }
    assert (Hr' : relinked (nodes M) m' (fun _ => True)) by (intros y; destruct (Hr y) as [?|(_ & ?)]; auto). split.
    + split; [|done|done|done|intros B HB; by rewrite Z.add_0_r|done|intros _; cbn; rewrite Hq; apply u32_range|by apply (hashed_link _ _ (fun _ => True))].
      eapply (holds_intro M); [done|done|apply Hh..| |exact Hp|exact Hr']. intros i y Hi. split; [done|]. by eapply ho_map.
    + cbv zeta. eexists. split; [|unfold absq; cbn [lane cidx set_lane fst snd qlen]; by rewrite Hq].
      unfold absq. cbn [Pool.lanes]. apply lane_remove_first; [lia|done| | |].
      * rewrite <- (Ht' b) by (lia || (rewrite HQ; set_solver)). done.
      * intros y Hy. rewrite <- (Ht' b) by (lia || (rewrite HQ; set_solver)). by apply H1.
      * intros d y Hd Hy. rewrite <- (Ht' d) by (lia || done). by apply (Hz d).
  - destruct Hw as [_ Hz]. unfold absq. cbn [Pool.lanes]. apply lane_remove_nothing. intros d y Hd Hy.
    rewrite <- (Ht' d) by (lia || done). apply (Hz d); [lia|done].
Qed.

End Names.
