(* ===== verification/PoolRefine.v ===== *)
(** * The pool on its structures (src/thread_pool.c).

    The critical sections of Pool.v run on the lanes, ring, deques and index of
    PoolImpl.v: the submit funnel, the worker's locked pass with its exit test
    on the three counters, loom_pool_cancel, loom_pool_cancel_by_id and shutdown
    (loom_pool_cancel_all and resize are in Pool.v only).  Every run of
    this pool is simulated by a run of the abstract one with the same outcomes,
    so what Pool.v and PoolProgress.v prove of the abstract queues holds of the
    structures.  As in PoolImpl.v the ring and the deques exist, the number of
    workers is fixed and calls do not overlap; ids handed to
    loom_pool_cancel_by_id are not 0, which [cancel_zero_hits_tombstone] shows
    to matter. *)
From S2P Require Import Lanes CancelIndex.
From S2P Require Import Ring Deque.
From S2P Require Import PoolImpl.
From S2P Require Import Prelude Types Pool.

(** ** The pool on these structures *)

Record ipool := mk_ipool {
  mach : machine;
  i_capacity : Z;                    (* queue_capacity, 0 = unbounded *)
  next_task_id : Z;                  (* uint64_t *)
  i_shutdown : bool;                 (* shutdown and draining, set together *)
  i_sem : nat;                       (* work_sem *)
  i_workers : list wstate;
  i_log : list outcome;              (* newest first *)
}.

Definition with_mach (c : ipool) (M : machine) (l : list outcome) : ipool :=
  mk_ipool M (i_capacity c) (next_task_id c) (i_shutdown c) (i_sem c) (i_workers c) (l ++ i_log c).
Definition with_worker (c : ipool) (w : nat) (x : wstate) : ipool :=
  mk_ipool (mach c) (i_capacity c) (next_task_id c) (i_shutdown c) (i_sem c) (<[w := x]> (i_workers c)) (i_log c).
Definition with_sem (c : ipool) (n : nat) : ipool :=
  mk_ipool (mach c) (i_capacity c) (next_task_id c) (i_shutdown c) n (i_workers c) (i_log c).

(** task_create at address [x] (NodePool.v says which address that is), with
    the fields the submit functions set, and task_destroy. *)
Definition new_node (id : Z) (r : request) : loom_task_t :=
  mk_task (r_fn r) (r_data r) false id (u8 (r_prio r)) NULL (r_free_data r) (r_is_future r) false NULL 0 NULL.
Definition create_node (c : ipool) (r : request) (x : ptr) : ipool :=
  let id := next_task_id c +64 1 in
  mk_ipool (set_nodes (mach c) (<[x := new_node id r]> (nodes (mach c)))) (i_capacity c) id (i_shutdown c) (i_sem c) (i_workers c) (i_log c).
Definition destroy_node (M : machine) (x : ptr) : machine := set_nodes M (delete x (nodes M)).

Definition id_of (M : machine) (x : ptr) : nat := Z.to_nat (task_id (nodes M !!! x)).

Definition full (c : ipool) : bool := negb (i_capacity c =? 0) && (i_capacity c <=? queue_len (lane (mach c))).

(** enqueue_lane_task. *)
Definition lane_submit (c : ipool) (r : request) (x : ptr) : loom_result_t * ipool :=
  if i_shutdown c then (LOOMWORKS_ERR_SHUTDOWN, c)
  else if (0 <? i_capacity c) && (i_capacity c <=? queue_len (lane (mach c))) then (LOOMWORKS_ERR_INVALID, c)
  else let c1 := create_node c r x in
       (LOOMWORKS_OK, with_sem (with_mach c1 (put_lane (mach c1) x) [Accepted (id_of (mach c1) x)]) (S (i_sem c))).

(** enqueue_ring_task, with spill_to_normal_lane. *)
Definition ring_submit (c : ipool) (r : request) (x : ptr) : loom_result_t * ipool :=
  let c1 := create_node c r x in
  let M1 := add_len (mach c1) 1 in
  let t := id_of M1 x in
  match ring_try_enqueue (rng M1) (cidx M1) x (nodes M1 !!! x) with
  | (true, (rg, ci)) => (LOOMWORKS_OK, with_sem (with_mach c1 (set_index (set_ring M1 rg) ci) [Accepted t]) (S (i_sem c)))
  | (false, _) =>
      let M2 := add_len M1 (-1) in
      if i_shutdown c then (LOOMWORKS_ERR_SHUTDOWN, with_mach c1 (destroy_node M2 x) [Dropped t])
      else if full (with_mach c1 M2 []) then (LOOMWORKS_ERR_INVALID, with_mach c1 (destroy_node M2 x) [Dropped t])
      else (LOOMWORKS_OK, with_sem (with_mach c1 (put_lane M2 x) [Accepted t]) (S (i_sem c)))
  end.

(** enqueue_task without blocking. *)
Definition submit (c : ipool) (r : request) (x : ptr) : loom_result_t * ipool :=
  if i_shutdown c then (LOOMWORKS_ERR_SHUTDOWN, c)
  else if full c then (LOOMWORKS_ERR_INVALID, c)
  else if u8 (r_prio r) =? LOOMWORKS_PRIORITY_NORMAL then ring_submit c r x else lane_submit c r x.

(** The locked pass of worker [w], below worker_count. *)
Definition pass (c : ipool) (w : nat) : ipool :=
  let M := mach c in
  if i_shutdown c && (queue_len (lane M) =? 0) && (Ring.ring_count (rng M) =? 0) && (dtotal M =? 0) then with_worker c w WExit
  else
    match fetch M (length (i_workers c)) w with
    | (None, M) => with_worker (with_mach c M []) w (if i_shutdown c then WLoop else WWait)
    | (Some (x, from_ring), M) =>
        let t := id_of M x in
        let M1 := if from_ring : bool then set_index M (cancel_index_remove (cidx M) (nodes M !!! x)) else M in
        if cancelled (nodes M1 !!! x) then with_worker (with_mach c (destroy_node M1 x) [Released t]) w WLoop
        else let M2 := destroy_node M1 x in
             with_worker (with_mach c (if from_ring then add_len M2 (-1) else M2) [Started t]) w (WRun t)
    end.

(** loom_pool_cancel_by_id in a pool without coroutines. *)
Definition cancel_by_id (c : ipool) (id : Z) : loom_result_t * ipool :=
  let M := mach c in
  if i_shutdown c then (LOOMWORKS_ERR_SHUTDOWN, c)
  else
    let x := cancel_index_find (cidx M) id in
    if negb (x =? NULL) then
      if cancelled (nodes M !!! x) then (LOOMWORKS_ERR_INVALID, c)
      else
        let M1 := set_nodes M (alter set_cancelled x (nodes M)) in
        match cancel_index_claim (cidx M1) (nodes M1 !!! x) with
        | (true, ci) => (LOOMWORKS_OK, with_mach c (add_len (set_index M1 ci) (-1)) [Cancelled (id_of M1 x)])
        | (false, _) => (LOOMWORKS_ERR_INVALID, with_mach c M1 [])
        end
    else
      match cancel_walk LOOMWORKS_PRIORITY_BUCKETS (nodes M) (lane M) (fun t => (task_id t =? id) && negb (cancelled t)) 0 with
      | Some (x, s) =>
          (LOOMWORKS_OK, with_mach c (destroy_node (set_lane M s) x) [Released (id_of M x); Cancelled (id_of M x)])
      | None => (LOOMWORKS_ERR_INVALID, c)
      end.

(** The slots loom_pool_cancel accepts for the data pointer [d], and its scan
    of the index. *)
Definition slot_hits (M : machine) (d : ptr) (s : cancel_slot_t) : bool :=
  negb (cs_task_id s <=? 1) && (user_data_hash s =? hash_ptr d) &&
  negb ((cs_task s =? NULL) || cancelled (nodes M !!! cs_task s) || negb (user_data (nodes M !!! cs_task s) =? d)).

Fixpoint cancel_scan (fuel i : nat) (d : ptr) (M : machine) : option ptr * machine :=
  match fuel with
  | O => (None, M)
  | S f =>
      let s := cancel_slots (cidx M) !!! i in
      if slot_hits M d s then
        let M1 := set_nodes M (alter set_cancelled (cs_task s) (nodes M)) in
        match cancel_index_claim (cidx M1) (nodes M1 !!! cs_task s) with
        | (true, ci) => (Some (cs_task s), add_len (set_index M1 ci) (-1))
        | (false, _) => cancel_scan f (S i) d M1
        end
      else cancel_scan f (S i) d M
  end.

(** loom_pool_cancel in a pool without coroutines. *)
Definition cancel_data (c : ipool) (d : ptr) : loom_result_t * ipool :=
  if d =? NULL then (LOOMWORKS_ERR_INVALID, c)
  else if i_shutdown c then (LOOMWORKS_ERR_SHUTDOWN, c)
  else
    match cancel_scan (Z.to_nat (cancel_cap (cidx (mach c)))) 0 d (mach c) with
    | (Some x, M) => (LOOMWORKS_OK, with_mach c M [Cancelled (id_of M x)])
    | (None, M) =>
        match cancel_walk LOOMWORKS_PRIORITY_BUCKETS (nodes M) (lane M) (fun t => (user_data t =? d) && negb (cancelled t)) 0 with
        | Some (x, s) =>
            (LOOMWORKS_OK, with_mach c (destroy_node (set_lane M s) x) [Released (id_of M x); Cancelled (id_of M x)])
        | None => (LOOMWORKS_ERR_INVALID, with_mach c M [])
        end
    end.

Inductive iop :=
  | OSubmit (r : request) (x : ptr)  (* a submit call; its node is at [x] *)
  | OPass (w : nat)
  | OToken (w : nat)                 (* sem_wait returns *)
  | OFinish (w : nat)
  | OCancel (id : Z)
  | OCancelData (d : ptr)
  | OShutdown.

Definition istep (c : ipool) (o : iop) : option ipool :=
  match o with
  | OSubmit r x => if bool_decide (nodes (mach c) !! x = None) && negb (x =? NULL) then Some (submit c r x).2 else None
  | OPass w => match i_workers c !! w with Some WLoop => Some (pass c w) | _ => None end
  | OToken w =>
      match i_workers c !! w, i_sem c with Some WWait, S n => Some (with_worker (with_sem c n) w WLoop) | _, _ => None end
  | OFinish w =>
      match i_workers c !! w with Some (WRun t) => Some (with_worker (with_mach c (mach c) [Finished t]) w WLoop) | _ => None end
  | OCancel id => Some (cancel_by_id c id).2
  | OCancelData d => Some (cancel_data c d).2
  | OShutdown =>
      Some (mk_ipool (mach c) (i_capacity c) (next_task_id c) true (i_sem c + length (i_workers c)) (i_workers c) (i_log c))
  end.

Fixpoint irun (c : ipool) (os : list iop) : option ipool :=
  match os with
  | [] => Some c
  | o :: os => match istep c o with Some c' => irun c' os | None => None end
  end.

(** pool_init with queue capacity [cap] and [n] workers, every allocation
    successful. *)
Definition ipool_start (cap : Z) (n : nat) : ipool :=
  let k := clamp_capacity cap in
  let size := ring_size_for k in
  mk_ipool (mk_machine ∅ lanes_init (ring_init size) (replicate n deque_init) 0
              (cancel_index_init (cancel_cap_for (cancel_need size (Z.of_nat n))))) k 1 false 0 (replicate n WLoop) [].

(** ** The simulation relation *)

Lemma holds_rename nm pr nm' pr' M Q R D H :
  (forall x, x ∈ all_ptrs Q R D H -> nm' x = nm x /\ pr' (nm x) = pr (nm x)) -> holds nm pr M Q R D H -> holds nm' pr' M Q R D H.
Proof.
  intros He [A1 A2 A3 A4 A5 A6 A7 A8 A9]. split; try done. intros x Hx. destruct (He x Hx) as [E1 E2], (A9 x Hx) as [B1 B2 B3].
  split; [done|by rewrite E1|by rewrite E1, E2].
Qed.

Lemma absq_rename nm nm' tb M Q R D :
  (forall x, x ∈ all_ptrs Q R D [] -> nm' x = nm x) -> absq nm' tb M Q R D = absq nm tb M Q R D.
Proof.
  intros He. unfold absq. f_equal.
  - apply list_fmap_ext. intros i x Hx. rewrite He; [done|]. unfold all_ptrs, ring_ptrs. rewrite !elem_of_app. apply list_elem_of_lookup_2 in Hx. tauto.
  - apply list_fmap_ext. intros i l Hl. f_equal. apply list_fmap_ext. intros j x Hx. apply He.
    unfold all_ptrs, ring_ptrs. rewrite !elem_of_app. right. right. left. apply list_elem_of_lookup_2 in Hl, Hx.
    apply list_elem_of_In in Hl, Hx. apply list_elem_of_In, in_concat. eauto.
  - apply list_fmap_ext. intros i b Hb. apply list_fmap_ext. intros j x Hx. apply He. apply elem_of_app. left.
    apply lookup_seq in Hb as [-> Hb]. apply in_bucket. exists (0 + i)%nat. split; [lia|]. by eapply list_elem_of_lookup_2.
Qed.

(** A live slot of the index names a queued ring node. *)
Lemma live_slot nm pr M Q R D H j :
  holds nm pr M Q R D H -> 2 <= key_at (cidx M) j ->
  let x := cs_task (cancel_slots (cidx M) !!! j) in
  x ∈ all_ptrs Q R D H /\ index_map (cidx M) !! task_id (nodes M !!! x) = Some x /\ key_at (cidx M) j = task_id (nodes M !!! x) + 1.
Proof.
  intros Hh Hj x. assert (Hl : (j < length (cancel_slots (cidx M)))%nat).
  { destruct (decide (j < length (cancel_slots (cidx M)))%nat); [done|]. unfold key_at in Hj.
    rewrite list_lookup_total_alt, lookup_ge_None_2 in Hj by lia. cbn in Hj. lia. }
  assert (Hm : index_map (cidx M) !! (key_at (cidx M) j - 1) = Some x).
  { apply index_map_lookup; [apply Hh|lia|]. exists j. split; [|done]. split; [done|lia]. }
  destruct (ho_map _ _ _ _ _ _ _ Hh _ _ Hm) as [Hin E]. split_and!; [apply elem_of_app; by right|by rewrite E|lia].
Qed.

Definition idle (x : pstate) : bool := match x with PIdle | PRet _ => true | _ => false end.

Abbreviation lanes_of rq := (fun u => lane_of (rq u)).
Definition reqs_of (p : pool) (t : nat) : request := reqs p !!! t.

(** The queues of [p] are those of [c], seen through the names [nm]. *)
Record linked (nm : ptr -> nat) (rq : nat -> request) (M : machine) (Q : nat -> list ptr) (R : list ptr) (D : list (list ptr))
  (q : queues) (last : nat) : Prop := {
  li_holds : holds nm (lanes_of rq) M Q R D [];
  li_qs : q = absq nm (tombs q) M Q R D;
  li_flag : forall x, x ∈ all_ptrs Q R D [] -> cancelled (nodes M !!! x) = bool_decide (nm x ∈ tombs q);
  li_id : forall x, x ∈ all_ptrs Q R D [] -> (nm x <= last)%nat;
  li_inj : forall x y, x ∈ all_ptrs Q R D [] -> y ∈ all_ptrs Q R D [] -> nm x = nm y -> x = y;
  li_tombs : forall t, t ∈ tombs q -> (t <= last)%nat;
  li_len : 0 <= queue_len (lane M) < 2 ^ 32;
  li_data : forall x, x ∈ all_ptrs Q R D [] -> user_data (nodes M !!! x) = r_data (rq (nm x));
  li_hash : hashed (nodes M) (cidx M);
}.

Record implements (k : Z) (c : ipool) (p : pool) : Prop := {
  im_link : exists nm Q R D, linked nm (reqs_of p) (mach c) Q R D (qs p) (next_id p);
  im_same : queue_capacity p = i_capacity c /\ ring_slots p = Z.to_nat (ring_size (rng (mach c))) /\
    worker_count p = length (i_workers c) /\ shutdown p = i_shutdown c /\ draining p = i_shutdown c /\
    work_sem p = i_sem c /\ workers p = i_workers c /\ log p = i_log c;
  im_id : next_id p = Z.to_nat (next_task_id c) /\ 1 <= next_task_id c <= 1 + k;
  im_mode : ring_mode p = true /\ joined p = false;
  im_prod : exists x, prods p = [x] /\ idle x = true;
  im_workers : length (dqs (mach c)) = length (i_workers c) /\ (0 < length (i_workers c))%nat;
  im_room : Forall (fun d => Deque.bottom d <= 16 * k) (dqs (mach c));
  im_index : ring_size (rng (mach c)) + 256 * Z.of_nat (length (i_workers c)) <= cancel_cap (cidx (mach c));
  im_cap : 0 <= i_capacity c /\ Z.of_nat (length (i_workers c)) < 2 ^ 32;
}.

(** ** Runs of the abstract pool that a submit call is simulated by *)

Definition shell (p : pool) (q : queues) (rq : gmap nat request) (id sem : nat) (st : pstate) (l : list outcome) : pool :=
  mk_pool (queue_capacity p) (ring_slots p) (ring_mode p) (worker_count p) q rq id (shutdown p) (draining p) (joined p) sem [st]
    (workers p) l.

Lemma shell_id p x : prods p = [x] -> p = shell p (qs p) (reqs p) (next_id p) (work_sem p) x (log p).
Proof. intros H. unfold shell. rewrite <- H. by destruct p. Qed.

(** The steps of a submission, one at a time. *)
Section Steps.
Context (p : pool) (q : queues) (rq : gmap nat request) (id sem : nat) (l : list outcome).
Abbreviation sh := (shell p).

Lemma s_create r : pstep (sh q rq id sem (PRing r) l) (EvCreate 0 true) =
  Some (sh (with_qlen q (qlen q +32 1)) (<[S id := r]> rq) (S id) sem (PCounted (S id)) l).
Proof. done. Qed.
Lemma s_claim t : (length (Pool.ring q) < ring_slots p)%nat -> pstep (sh q rq id sem (PCounted t) l) (EvClaim 0 true true) =
  Some (sh (mk_queues (qlen q) (Pool.ring q ++ [(t, false)]) (deques q) (Pool.lanes q) (index q ∪ {[t]}) (tombs q)) rq id sem
          (PClaimed t) (Accepted t :: l)).
Proof. intros Hl. apply Nat.ltb_lt in Hl. cbn [pstep enqueue_ring_task prods shell lookup list_lookup qs ring_slots]. by rewrite Hl. Qed.
Lemma s_publish t : pstep (sh q rq id sem (PClaimed t) l) (EvPublish 0) =
  Some (sh (mk_queues (qlen q) ((fun c => if (fst c =? t)%nat then (t, true) else c) <$> Pool.ring q) (deques q) (Pool.lanes q)
              (index q) (tombs q)) rq id sem (PUncounted t) l).
Proof. done. Qed.
Lemma s_count t : pstep (sh q rq id sem (PUncounted t) l) (EvCount 0) = Some (sh q rq id sem (PPost t) l).
Proof. done. Qed.
Lemma s_post t : pstep (sh q rq id sem (PPost t) l) (EvPost 0) = Some (sh q rq id (S sem) (PRet LOOMWORKS_OK) l).
Proof. rewrite <- Nat.add_1_r. done. Qed.
Lemma s_refuse t : pstep (sh q rq id sem (PCounted t) l) (EvClaim 0 false false) = Some (sh q rq id sem (PRefused t) l).
Proof. done. Qed.
Lemma s_undo t : pstep (sh q rq id sem (PRefused t) l) (EvUndo 0) = Some (sh (with_qlen q (qlen q -32 1)) rq id sem (PSpill t) l).
Proof. done. Qed.
Lemma s_spill t : shutdown p = false -> draining p = false -> at_capacity (sh q rq id sem (PSpill t) l) = false ->
  pstep (sh q rq id sem (PSpill t) l) (EvSpill 0) = Some (sh (lane_put q (lane_of (rq !!! t)) t) rq id sem (PPost t) (Accepted t :: l)).
Proof.
  intros Hs Hd Hc. cbn [pstep enqueue_ring_task prods shell lookup list_lookup]. unfold spill_to_normal_lane.
  change (shutdown (sh q rq id sem (PSpill t) l)) with (shutdown p). change (draining (sh q rq id sem (PSpill t) l)) with (draining p).
  by rewrite Hs, Hd, Hc.
Qed.
End Steps.

Section Submitting.
Context (p : pool) (r : request) (x : pstate).
Context (Hprod : prods p = [x]) (Hidle : idle x = true) (Hmode : ring_mode p = true).

Lemma submit_entry : pstep p (EvSubmit 0 r false) = Some (set_prod p 0 (enqueue_task p r false)).
Proof using Hprod Hidle. simpl. rewrite Hprod. by destruct x. Qed.

Lemma refuse_run rc : enqueue_task p r false = PRet rc ->
  prun p [EvSubmit 0 r false] = Some (shell p (qs p) (reqs p) (next_id p) (work_sem p) (PRet rc) (log p)).
Proof using Hprod Hidle. intros E. cbn [prun]. rewrite submit_entry, E. unfold set_prod, shell. by rewrite Hprod. Qed.

Context (Hsh : shutdown p = false) (Hdr : draining p = false) (Hcap : at_capacity p = false).

Lemma routed : enqueue_task p r false = route p r.
Proof using Hsh Hcap. unfold enqueue_task. by rewrite Hsh, Hcap. Qed.

Lemma lane_run : (u8 (r_prio r) =? LOOMWORKS_PRIORITY_NORMAL) = false -> 0 <= queue_capacity p ->
  let t := S (next_id p) in
  prun p [EvSubmit 0 r false; EvLane 0 true] =
    Some (shell p (lane_put (qs p) (lane_of r) t) (<[t := r]> (reqs p)) t (S (work_sem p)) (PRet LOOMWORKS_OK) (Accepted t :: log p)).
Proof using Hprod Hidle Hsh Hdr Hcap Hmode.
  intros Hn Hc t. cbn [prun]. rewrite submit_entry, routed. unfold route. rewrite Hn. cbn [andb].
  unfold set_prod. rewrite Hprod. cbn [pstep prods list_insert insert list_lookup lookup enqueue_lane_task shutdown draining].
  unfold enqueue_lane_task. cbn [shutdown draining]. rewrite Hsh, Hdr. cbn [orb].
  assert (E : (0 <? queue_capacity p) && (queue_capacity p <=? qlen (qs p)) = false).
  { unfold at_capacity in Hcap. destruct (Z.eqb_spec (queue_capacity p) 0), (Z.ltb_spec 0 (queue_capacity p)); simpl in *; lia || done. }
  cbn [queue_capacity qs]. rewrite E. unfold shell, add_log, post, set_prod, set_qs. cbn. by rewrite Hsh, Hdr, Nat.add_1_r.
Qed.

Context (Hn : (u8 (r_prio r) =? LOOMWORKS_PRIORITY_NORMAL) = true).

Lemma to_ring : pstep p (EvSubmit 0 r false) = Some (shell p (qs p) (reqs p) (next_id p) (work_sem p) (PRing r) (log p)).
Proof using Hprod Hidle Hsh Hcap Hmode Hn.
  rewrite submit_entry, routed. unfold route. rewrite Hn, Hmode. unfold set_prod. by rewrite Hprod.
Qed.

Lemma ring_run : (length (Pool.ring (qs p)) < ring_slots p)%nat -> Forall (fun c => snd c = true) (Pool.ring (qs p)) ->
  let t := S (next_id p) in let q := qs p in
  prun p [EvSubmit 0 r false; EvCreate 0 true; EvClaim 0 true true; EvPublish 0; EvCount 0; EvPost 0] =
    Some (shell p (mk_queues (qlen q +32 1) (Pool.ring q ++ [(t, true)]) (deques q) (Pool.lanes q) (index q ∪ {[t]}) (tombs q))
            (<[t := r]> (reqs p)) t (S (work_sem p)) (PRet LOOMWORKS_OK) (Accepted t :: log p)).
Proof using Hprod Hidle Hsh Hcap Hmode Hn.
  intros Hl Hpub t q. cbn [prun]. rewrite to_ring, s_create, s_claim by done. rewrite s_publish, s_count, s_post.
  unfold with_qlen. cbn [qlen Pool.ring deques Pool.lanes index tombs]. f_equal. f_equal. f_equal.
  rewrite fmap_app. cbn [fmap list_fmap fst]. rewrite Nat.eqb_refl. f_equal. etrans; [|apply list_fmap_id]. apply list_fmap_ext. intros i [u b] Hu.
  apply (Forall_lookup_1 _ _ _ _ Hpub) in Hu. simpl in Hu. subst. cbn [fst id]. by destruct (Nat.eqb_spec u (S (next_id p))) as [->|].
Qed.

Lemma spill_run : 0 <= qlen (qs p) < 2 ^ 32 ->
  let t := S (next_id p) in
  prun p [EvSubmit 0 r false; EvCreate 0 true; EvClaim 0 false false; EvUndo 0; EvSpill 0; EvPost 0] =
    Some (shell p (lane_put (qs p) (lane_of r) t) (<[t := r]> (reqs p)) t (S (work_sem p)) (PRet LOOMWORKS_OK) (Accepted t :: log p)).
Proof using Hprod Hidle Hsh Hdr Hcap Hmode Hn.
  intros Hq t. cbn [prun]. rewrite to_ring, s_create, s_refuse, s_undo. cbn [qlen with_qlen].
  rewrite u32_sub_l. replace (qlen (qs p) + 1 - 1) with (qlen (qs p)) by lia. rewrite (u32_small (qlen (qs p))) by done.
  assert (E : with_qlen (with_qlen (qs p) (qlen (qs p) +32 1)) (qlen (qs p)) = qs p) by by destruct (qs p). rewrite E.
  rewrite s_spill; [|done|done|exact Hcap]. rewrite s_post, lookup_total_insert_eq. done.
Qed.

End Submitting.

(** ** Submitting is simulated *)

Lemma linked_intro nm rq k M0 Q0 R0 D0 H0 M Q R D out q last :
  stepped nm (lanes_of rq) k M0 Q0 R0 D0 H0 M Q R D [] out -> q = absq nm (tombs q) M Q R D ->
  (forall y, y ∈ all_ptrs Q0 R0 D0 H0 -> cancelled (nodes M0 !!! y) = bool_decide (nm y ∈ tombs q) /\ (nm y <= last)%nat /\
    user_data (nodes M0 !!! y) = r_data (rq (nm y))) -> hashed (nodes M0) (cidx M0) ->
  (forall y z, y ∈ all_ptrs Q0 R0 D0 H0 -> z ∈ all_ptrs Q0 R0 D0 H0 -> nm y = nm z -> y = z) ->
  (forall t, t ∈ tombs q -> (t <= last)%nat) -> 0 <= queue_len (lane M) < 2 ^ 32 -> linked nm rq M Q R D q last.
Proof.
  intros [S1 S2 S3 _ _ _ _ S8] Hq Hf Hh Hinj Ht Hl. assert (Hin : forall y, y ∈ all_ptrs Q R D [] -> y ∈ all_ptrs Q0 R0 D0 H0).
  { intros y Hy. rewrite S2. apply elem_of_app. by right. }
  split; [done|done| | |by eauto|done|done| |by auto]; intros y Hy; destruct (Hf y (Hin y Hy)) as (E1 & E2 & E3); [|done|];
    destruct (relinked_fields _ _ _ y S3) as (_ & _ & E & _ & E'); [by rewrite E|by rewrite E'].
Qed.

Lemma queued_facts nm rq M Q R D q last y :
  linked nm rq M Q R D q last -> y ∈ all_ptrs Q R D [] ->
  cancelled (nodes M !!! y) = bool_decide (nm y ∈ tombs q) /\ (nm y <= last)%nat /\ user_data (nodes M !!! y) = r_data (rq (nm y)).
Proof. intros [] Hy. split_and!; auto. Qed.

(** The name of the node that is created. *)
Definition name_new (nm : ptr -> nat) (x : ptr) (t : nat) : ptr -> nat := fun y => if decide (y = x) then t else nm y.

Lemma create_sim nm rq rq' M Q R D q last id r x :
  linked nm rq M Q R D q last -> last = Z.to_nat id -> 1 <= id < 2 ^ 64 - 2 -> nodes M !! x = None -> x <> NULL ->
  rq' (S last) = r -> (forall u, (u <= last)%nat -> rq' u = rq u) ->
  let M1 := set_nodes M (<[x := new_node (id +64 1) r]> (nodes M)) in let nm' := name_new nm x (S last) in
  holds nm' (lanes_of rq') M1 Q R D [x] /\ unindexed M1 x /\ q = absq nm' (tombs q) M1 Q R D /\ id_of M1 x = S last /\ nm' x = S last /\
  (forall y, y ∈ all_ptrs Q R D [] -> task_id (nodes M1 !!! y) <> task_id (nodes M1 !!! x)) /\
  (forall y, y ∈ all_ptrs Q R D [x] -> cancelled (nodes M1 !!! y) = bool_decide (nm' y ∈ tombs q) /\ (nm' y <= S last)%nat /\
    user_data (nodes M1 !!! y) = r_data (rq' (nm' y))) /\ hashed (nodes M1) (cidx M1) /\
  (forall y z, y ∈ all_ptrs Q R D [x] -> z ∈ all_ptrs Q R D [x] -> nm' y = nm' z -> y = z).
Proof.
  intros [Hh Hq Hf Hid Hinj Ht Hl Hda Hha] Hlast Hr Hx Hx0 Hp1 Hp2. rewrite (u64_small (id + 1)) by lia. intros M1 nm'.
  assert (Hnx : x ∉ all_ptrs Q R D []).
  { intros Hin. destruct (ho_node _ _ _ _ _ _ _ Hh x Hin) as [[_ Hs] _ _]. rewrite Hx in Hs. by destruct Hs. }
  assert (Hold : forall y, y ∈ all_ptrs Q R D [] -> nodes M1 !!! y = nodes M !!! y /\ nm' y = nm y).
  { intros y Hy. assert (y <> x) by (by intros ->). unfold nm', name_new. rewrite decide_False by done. split; [|done].
    cbn. by rewrite lookup_total_insert_ne by congruence. }
  assert (Hnew : nodes M1 !!! x = new_node (id + 1) r) by (cbn; by rewrite lookup_total_insert_eq).
  assert (Hnmx : nm' x = S last) by (unfold nm', name_new; by rewrite decide_True).
  assert (Hpart : forall y, y ∈ all_ptrs Q R D [x] -> y = x \/ y ∈ all_ptrs Q R D []).
  { intros y. unfold all_ptrs, ring_ptrs. rewrite !elem_of_app, list_elem_of_singleton. tauto. }
  assert (Hh1 : holds nm' (lanes_of rq') M1 Q R D []).
  { apply (holds_rename nm (lanes_of rq)).
    - intros y Hy. destruct (Hold y Hy) as [_ ->]. split; [done|]. by rewrite Hp2 by by apply Hid.
    - apply (holds_elsewhere nm (lanes_of rq) M Q R D [] _ x Hh Hnx). intros y Hy. by apply lookup_insert_ne. }
  split_and!; [apply holds_new; [done| |done]| | | |done| | | |].
  - split; cbn -[Z.pow]; rewrite ?lookup_total_insert_eq, ?lookup_insert_eq, ?Hnmx; cbn [task_id priority new_node].
    + split; [done|]. by eexists.
    + split; [lia|]. subst last. lia.
    + rewrite Hp1. split; [|apply lane_of_lt]. unfold lane_of, u8. pose proof (Z.mod_pos_bound (r_prio r) (2 ^ 8)). lia.
  - intros i Hi. destruct (ho_map _ _ _ _ _ _ _ Hh1 i x Hi) as [Hin _]. apply Hnx, elem_of_app. by right.
  - rewrite (absq_rename nm) by (intros y Hy; by apply Hold). exact Hq.
  - unfold id_of. rewrite Hnew. cbn [task_id new_node]. subst last. lia.
  - intros y Hy. rewrite Hnew. destruct (Hold y Hy) as [-> _]. cbn [task_id new_node].
    destruct (ho_node _ _ _ _ _ _ _ Hh y Hy) as [_ [Hty Hny] _]. pose proof (Hid y Hy). subst last. lia.
  - intros y [->|Hy]%Hpart.
    + rewrite Hnew, Hnmx, Hp1. split; [|done]. cbn. symmetry. apply bool_decide_false. intros Hin%Ht. lia.
    + destruct (Hold y Hy) as [-> ->]. pose proof (Hid y Hy). rewrite Hp2 by done. split_and!; [by apply Hf|lia|by apply Hda].
  - intros j Hj. destruct (live_slot _ _ _ _ _ _ _ j Hh Hj) as [Hin _]. cbn [cidx set_nodes M1] in *.
    destruct (Hold _ Hin) as [-> _]. by apply Hha.
  - intros y z [->|Hy]%Hpart [->|Hz]%Hpart; [done| | |].
    + destruct (Hold z Hz) as [_ ->]. pose proof (Hid z Hz). rewrite Hnmx. lia.
    + destruct (Hold y Hy) as [_ ->]. pose proof (Hid y Hy). rewrite Hnmx. lia.
    + destruct (Hold y Hy) as [_ ->], (Hold z Hz) as [_ ->]. by apply Hinj.
Qed.

Lemma room_weaken k l : Forall (fun d => Deque.bottom d <= 16 * k) l -> Forall (fun d => Deque.bottom d <= 16 * (k + 1)) l.
Proof. intros H. eapply Forall_impl; [exact H|]. simpl. lia. Qed.

Lemma refuse_implements k c p rc :
  implements k c p -> implements (k + 1) c (shell p (qs p) (reqs p) (next_id p) (work_sem p) (PRet rc) (log p)).
Proof.
  intros [I1 I2 I3 I4 I5 I6 I7 I8 I9]. split; try done; [|by eexists|by apply room_weaken]. split; [apply I3|]. lia.
Qed.

Lemma accept_implements k c p r x nm Q R D M1 M0 Q0 R0 D0 q :
  let t := S (next_id p) in
  implements k c p -> k < 2 ^ 59 ->
  stepped nm (lanes_of (fun u => <[t := r]> (reqs p) !!! u)) 0 M0 Q0 R0 D0 [x] M1 Q R D [] [] ->
  dqs M0 = dqs (mach c) /\ ring_size (rng M0) = ring_size (rng (mach c)) /\ cancel_cap (cidx M0) = cancel_cap (cidx (mach c)) ->
  linked nm (fun u => <[t := r]> (reqs p) !!! u) M1 Q R D q t ->
  implements (k + 1) (with_sem (with_mach (create_node c r x) M1 [Accepted t]) (S (i_sem c)))
    (shell p q (<[t := r]> (reqs p)) t (S (work_sem p)) (PRet LOOMWORKS_OK) (Accepted t :: log p)).
Proof.
  intros t [I1 I2 [I3 I3'] I4 I5 [I6 I6'] I7 I8 I9] Hk [_ _ _ S4 S5 [S6 S6'] _ _] (D1 & D2 & D3) Hl.
  destruct I2 as (E1 & E2 & E3 & E4 & E5 & E6 & E7 & E8). split; cbn; try done.
  - by exists nm, Q, R, D.
  - split_and!; try done; [by rewrite S6, D2|by rewrite E6|by rewrite E8].
  - rewrite (u64_small (next_task_id c + 1)) by lia. split; [|lia]. subst t. rewrite I3. lia.
  - by eexists.
  - split; [|done]. congruence.
  - apply room_weaken. rewrite <- D1 in I7. rewrite <- (Z.add_0_r (16 * k)). by apply S5.
  - by rewrite S6, S6', D2, D3.
Qed.

Lemma full_at_capacity k c p : implements k c p -> at_capacity p = full c.
Proof.
  intros [(nm & Q & R & D & L) (E1 & _) _ _ _ _ _ _ _]. unfold at_capacity, full. rewrite E1, (li_qs _ _ _ _ _ _ _ _ L). done.
Qed.

Lemma ring_published nm tb M Q R D : Forall (fun c => snd c = true) (Pool.ring (absq nm tb M Q R D)).
Proof. unfold absq. cbn [Pool.ring]. by apply Forall_fmap, Forall_true. Qed.

Lemma add_len_back M : 0 <= queue_len (lane M) < 2 ^ 32 -> add_len (add_len M 1) (-1) = M.
Proof.
  intros H. unfold add_len. cbn. rewrite (u32_add_l _ (-1)). replace (queue_len (lane M) + 1 + -1) with (queue_len (lane M)) by lia.
  rewrite u32_small by done. destruct M as [m [] r d t ci]. done.
Qed.

(** The node is created; what follows puts it into the ring or into a lane. *)
Section Created.
Context (k : Z) (c : ipool) (p : pool) (r : request) (x : ptr).
Context (Hi : implements k c p) (Hk : k < 2 ^ 59) (Hx : nodes (mach c) !! x = None) (Hx0 : x <> NULL).
Context (Hsh : i_shutdown c = false) (Hfull : full c = false).

Let t := S (next_id p).
Let rq' := fun u => <[t := r]> (reqs p) !!! u.

Lemma created nm Q R D : linked nm (reqs_of p) (mach c) Q R D (qs p) (next_id p) ->
  let M1 := mach (create_node c r x) in let nm' := name_new nm x t in
  holds nm' (lanes_of rq') M1 Q R D [x] /\ unindexed M1 x /\ qs p = absq nm' (tombs (qs p)) M1 Q R D /\ id_of M1 x = t /\ nm' x = t /\
  (forall y, y ∈ all_ptrs Q R D [] -> task_id (nodes M1 !!! y) <> task_id (nodes M1 !!! x)) /\
  (forall y, y ∈ all_ptrs Q R D [x] -> cancelled (nodes M1 !!! y) = bool_decide (nm' y ∈ tombs (qs p)) /\ (nm' y <= t)%nat /\
    user_data (nodes M1 !!! y) = r_data (rq' (nm' y))) /\ hashed (nodes M1) (cidx M1) /\
  (forall y z, y ∈ all_ptrs Q R D [x] -> z ∈ all_ptrs Q R D [x] -> nm' y = nm' z -> y = z).
Proof using Hi Hk Hx Hx0.
  intros L. destruct Hi as [_ _ [I3 I3'] _ _ _ _ _ _].
  apply (create_sim nm (reqs_of p) rq'); [done|done|lia|done|done| |].
  - unfold rq', t. by rewrite lookup_total_insert_eq.
  - intros u Hu. unfold rq'. rewrite lookup_total_insert_ne by (unfold t; lia). done.
Qed.

Lemma new_tombs nm Q R D : linked nm (reqs_of p) (mach c) Q R D (qs p) (next_id p) -> forall u, u ∈ tombs (qs p) -> (u <= t)%nat.
Proof. intros L u Hu. pose proof (li_tombs _ _ _ _ _ _ _ _ L u Hu). unfold t. lia. Qed.

(** The new node goes to its lane. *)
Lemma to_lane_implements :
  implements (k + 1) (with_sem (with_mach (create_node c r x) (put_lane (mach (create_node c r x)) x) [Accepted t]) (S (i_sem c)))
    (shell p (lane_put (qs p) (lane_of r) t) (<[t := r]> (reqs p)) t (S (work_sem p)) (PRet LOOMWORKS_OK) (Accepted t :: log p)).
Proof using Hi Hk Hx Hx0.
  destruct (im_link _ _ _ Hi) as (nm & Q & R & D & L). destruct (created nm Q R D L) as (C1 & C2 & C3 & _ & C5 & _ & C7 & CH & C8).
  set (nm' := name_new nm x t) in *. destruct (put_lane_sim nm' (lanes_of rq') (tombs (qs p)) _ Q R D x [] C1 C2) as (Q' & S1 & E1).
  assert (Hpr : rq' (nm' x) = r) by (rewrite C5; unfold rq', t; by rewrite lookup_total_insert_eq). rewrite Hpr, C5 in E1.
  eapply accept_implements; [done|done|exact S1|done|].
  pose proof (f_equal qlen E1) as El. cbn in El.
  eapply linked_intro; [exact S1| |exact C7|exact CH|exact C8|by eapply new_tombs|cbn; rewrite El; apply u32_range].
  cbn [lane_put tombs]. rewrite E1, <- C3. done.
Qed.

Lemma ring_submit_sim :
  (u8 (r_prio r) =? LOOMWORKS_PRIORITY_NORMAL) = true ->
  exists evs p', prun p evs = Some p' /\ implements (k + 1) (ring_submit c r x).2 p'.
Proof using Hi Hk Hx Hx0 Hsh Hfull.
  intros Hn. destruct (im_prod _ _ _ Hi) as (st & Hst & Hid). destruct (im_link _ _ _ Hi) as (nm & Q & R & D & L).
  destruct (im_same _ _ _ Hi) as (E1 & E2 & E3 & E4 & E5 & _). destruct (im_mode _ _ _ Hi) as [Hm _].
  pose proof (full_at_capacity _ _ _ Hi) as Hc. rewrite Hfull in Hc. rewrite Hsh in E4, E5.
  destruct (created nm Q R D L) as (C1 & C2 & C3 & C4 & C5 & C6 & C7 & CH & C8). set (nm' := name_new nm x t) in *.
  set (M1 := mach (create_node c r x)) in *. pose proof (li_len _ _ _ _ _ _ _ _ L) as Hlen.
  destruct (add_len_sim nm' (lanes_of rq') (tombs (qs p)) M1 Q R D [x] 1 C1) as [SL EL].
  destruct (im_workers _ _ _ Hi) as [W1 W2]. pose proof (im_index _ _ _ Hi) as Hix.
  pose proof (ring_put_sim nm' (lanes_of rq') (tombs (qs p)) (add_len M1 1) Q R D x (st_holds _ _ _ _ _ _ _ _ _ _ _ _ _ _ SL) C2 C6
    ltac:(cbn; rewrite W1; exact Hix)) as Hp.
  unfold ring_submit. fold M1. change (id_of (add_len M1 1) x) with (id_of M1 x). rewrite C4.
  destruct (ring_try_enqueue (rng (add_len M1 1)) (cidx (add_len M1 1)) x (nodes (add_len M1 1) !!! x)) as [[] [rg ci]].
  - destruct Hp as (S1 & Hlt & E). eexists _, _. split; [apply (ring_run p r st); try done|].
    + rewrite C3, E2. cbn. by rewrite length_fmap.
    + rewrite C3. apply ring_published.
    + eapply accept_implements; [done|done|exact S1|done|].
      eapply linked_intro; [exact S1| |exact C7|exact CH|exact C8|by eapply new_tombs|cbn; apply u32_range].
      cbn [tombs]. rewrite E, EL, C5, <- C3. done.
  - eexists _, _. split; [apply (spill_run p r st); try done; rewrite C3; exact Hlen|].
    rewrite (add_len_back M1 Hlen), Hsh. change (full (with_mach (create_node c r x) M1 [])) with (full c). rewrite Hfull.
    exact to_lane_implements.
Qed.

Lemma lane_submit_sim :
  (u8 (r_prio r) =? LOOMWORKS_PRIORITY_NORMAL) = false ->
  exists evs p', prun p evs = Some p' /\ implements (k + 1) (lane_submit c r x).2 p'.
Proof using Hi Hk Hx Hx0 Hsh Hfull.
  intros Hn. destruct (im_prod _ _ _ Hi) as (st & Hst & Hid). destruct (im_same _ _ _ Hi) as (E1 & E2 & E3 & E4 & E5 & _).
  pose proof (full_at_capacity _ _ _ Hi) as Hc. rewrite Hfull in Hc. destruct (im_cap _ _ _ Hi) as [Hcap _]. rewrite Hsh in E4, E5.
  eexists _, _. split; [apply (lane_run p r st); try done; [apply Hi|lia]|]. unfold lane_submit. rewrite Hsh.
  assert (E : (0 <? i_capacity c) && (i_capacity c <=? queue_len (lane (mach c))) = false).
  { unfold full in Hfull. destruct (Z.eqb_spec (i_capacity c) 0), (Z.ltb_spec 0 (i_capacity c)); simpl in *; lia || done. }
  rewrite E. destruct (im_link _ _ _ Hi) as (nm & Q & R & D & L). destruct (created nm Q R D L) as (_ & _ & _ & C4 & _).
  cbn [snd]. rewrite C4. exact to_lane_implements.
Qed.
End Created.

Lemma submit_sim k c p r x :
  implements k c p -> k < 2 ^ 59 -> nodes (mach c) !! x = None -> x <> NULL ->
  exists evs p', prun p evs = Some p' /\ implements (k + 1) (submit c r x).2 p'.
Proof.
  intros Hi Hk Hx Hx0. pose proof (full_at_capacity _ _ _ Hi) as Hc. destruct (im_same _ _ _ Hi) as (_ & _ & _ & E4 & _).
  destruct (im_prod _ _ _ Hi) as (st & Hst & Hid). unfold submit. destruct (i_shutdown c) eqn:Hsh.
  { exists [EvSubmit 0 r false]. eexists. split; [apply (refuse_run p r st Hst Hid LOOMWORKS_ERR_SHUTDOWN)|by apply refuse_implements].
    unfold enqueue_task. by rewrite E4. }
  destruct (full c) eqn:Hf.
  { exists [EvSubmit 0 r false]. eexists. split; [apply (refuse_run p r st Hst Hid LOOMWORKS_ERR_INVALID)|by apply refuse_implements].
    unfold enqueue_task. by rewrite E4, Hc. }
  destruct (u8 (r_prio r) =? LOOMWORKS_PRIORITY_NORMAL) eqn:Hn; [by apply ring_submit_sim|by apply lane_submit_sim].
Qed.

(** ** The worker's pass is simulated *)

Lemma destroy_linked nm rq M Q R D q last x :
  linked nm rq M Q R D q last -> (x ∉ all_ptrs Q R D []) -> linked nm rq (destroy_node M x) Q R D q last.
Proof.
  intros [Hh Hq Hf Hid Hinj Ht Hl Hda Hha] Hx. assert (Hne : forall y, y ∈ all_ptrs Q R D [] -> y <> x) by (intros y Hy ->; done). split; try done.
  - apply (holds_elsewhere nm (lanes_of rq) M Q R D [] _ x Hh Hx). intros y Hy. by apply lookup_delete_ne.
  - intros y Hy. cbn. rewrite lookup_total_delete_ne by (symmetry; by apply Hne). by apply Hf.
  - intros y Hy. cbn. rewrite lookup_total_delete_ne by (symmetry; by apply Hne). by apply Hda.
  - intros j Hj. cbn. cbn in Hj. destruct (live_slot _ _ _ _ _ _ _ j Hh Hj) as [Hin _].
    rewrite lookup_total_delete_ne by (symmetry; by apply Hne). by apply Hha.
Qed.

Lemma add_len_linked nm rq M Q R D q last k :
  linked nm rq M Q R D q last -> linked nm rq (add_len M k) Q R D (with_qlen q (qlen q +32 k)) last.
Proof.
  intros [Hh Hq Hf Hid Hinj Ht Hl Hda Hha]. destruct (add_len_sim nm (lanes_of rq) (tombs q) M Q R D [] k Hh) as [S1 E1]. split; try done.
  - exact (st_holds _ _ _ _ _ _ _ _ _ _ _ _ _ _ S1).
  - cbn [tombs with_qlen]. rewrite E1, <- Hq. done.
  - cbn. apply u32_range.
Qed.

(** A critical section on the structures and on the queues. *)
Lemma mach_implements k c p M q l :
  implements k c p -> (exists nm Q R D, linked nm (reqs_of p) M Q R D q (next_id p)) ->
  length (dqs M) = length (dqs (mach c)) -> Forall (fun d => Deque.bottom d <= 16 * (k + 1)) (dqs M) ->
  ring_size (rng M) = ring_size (rng (mach c)) -> cancel_cap (cidx M) = cancel_cap (cidx (mach c)) ->
  implements (k + 1) (with_mach c M l) (add_log (set_qs p q) l).
Proof.
  intros [I1 I2 [I3 I3'] I4 I5 [I6 I6'] I7 I8 I9] Hl Hd Hb Hr Hc. destruct I2 as (E1 & E2 & E3 & E4 & E5 & E6 & E7 & E8).
  split; cbn; try done.
  - split_and!; try done; [by rewrite Hr|by rewrite E8].
  - split; [done|lia].
  - split; [congruence|done].
  - by rewrite Hr, Hc.
Qed.

Lemma worker_same k c p w st : implements k c p -> implements k (with_worker c w st) (set_worker p w st).
Proof.
  intros [I1 I2 I3 I4 I5 I6 I7 I8 I9]. destruct I2 as (E1 & E2 & E3 & E4 & E5 & E6 & E7 & E8).
  split; cbn; rewrite ?length_insert; try done. split_and!; try done. by rewrite E7.
Qed.

Lemma later k c p : implements k c p -> implements (k + 1) c p.
Proof. intros [I1 I2 [I3 I3'] I4 I5 I6 I7 I8 I9]. split; try done; [split; [done|lia]|by apply room_weaken]. Qed.

Lemma worker_implements k c p w st M q l :
  implements k c p -> (exists nm Q R D, linked nm (reqs_of p) M Q R D q (next_id p)) ->
  length (dqs M) = length (dqs (mach c)) -> Forall (fun d => Deque.bottom d <= 16 * (k + 1)) (dqs M) ->
  ring_size (rng M) = ring_size (rng (mach c)) -> cancel_cap (cidx M) = cancel_cap (cidx (mach c)) ->
  implements (k + 1) (with_worker (with_mach c M l) w st) (add_log (set_worker (set_qs p q) w st) l).
Proof. intros. apply (worker_same (k + 1) (with_mach c M l) (add_log (set_qs p q) l)). by apply mach_implements. Qed.

(** The exit test reads the same in both. *)
Lemma exit_test k c p :
  implements k c p ->
  shutdown p && (qlen (qs p) =? 0) && (Pool.ring_count p =? 0) && forallb (fun l => (length l =? 0)%nat) (deques (qs p)) =
  i_shutdown c && (queue_len (lane (mach c)) =? 0) && (Ring.ring_count (rng (mach c)) =? 0) && (dtotal (mach c) =? 0).
Proof.
  intros Hi. destruct (im_link _ _ _ Hi) as (nm & Q & R & D & [Hh Hq _ _ _ _ _]). destruct (im_same _ _ _ Hi) as (_ & _ & _ & E4 & _).
  destruct (im_prod _ _ _ Hi) as (x & Hx & Hid). destruct (im_workers _ _ _ Hi) as [W1 _]. destruct (im_cap _ _ _ Hi) as [_ Hc].
  rewrite E4. f_equal; [f_equal; [f_equal|]|].
  - rewrite Hq. done.
  - unfold Pool.ring_count. rewrite Hx, (rr_count _ _ (ho_ring _ _ _ _ _ _ _ Hh)). f_equal. f_equal. rewrite filter_all.
    + rewrite Hq. cbn. rewrite length_fmap. destruct x; try done; simpl; lia.
    + rewrite Hq. apply ring_published.
  - rewrite (ho_total _ _ _ _ _ _ _ Hh). pose proof (length_concat_bound _ _ _ _ _ _ _ Hh) as Hb. rewrite u64_small by lia.
    rewrite Hq. cbn [deques absq]. clear. induction D as [|l D IH]; [done|]. cbn [fmap list_fmap forallb concat]. rewrite IH, length_app.
    rewrite length_rev, length_fmap. destruct (Nat.eqb_spec (length l) 0), (Z.eqb_spec (Z.of_nat (length (concat D))) 0),
      (Z.eqb_spec (Z.of_nat (length l + length (concat D))) 0); simpl; done || lia.
Qed.

(** What a task taken by [fetch] is. *)
Lemma taken_node nm rq k M Q R D q last M' Q' R' D' H' out x :
  linked nm rq M Q R D q last -> stepped nm (lanes_of rq) k M Q R D [] M' Q' R' D' H' out -> x ∈ out ++ all_ptrs Q' R' D' H' ->
  id_of M' x = nm x /\ cancelled (nodes M' !!! x) = bool_decide (nm x ∈ tombs q).
Proof.
  intros L [_ S2 S3 _ _ _ _ _] Hx. rewrite <- S2 in Hx. destruct (relinked_fields _ _ _ x S3) as (E1 & _ & E3 & _).
  destruct (ho_node _ _ _ _ _ _ _ (li_holds _ _ _ _ _ _ _ _ L) x Hx) as [_ [_ Hn] _].
  split; [unfold id_of; rewrite E1; done|rewrite E3; by apply (li_flag _ _ _ _ _ _ _ _ L)].
Qed.

(** Its node is destroyed: the structures without it. *)
Lemma taken_linked nm rq k M Q R D q last M' Q' R' D' x q' :
  linked nm rq M Q R D q last -> stepped nm (lanes_of rq) k M Q R D [] M' Q' R' D' [] [x] ->
  q' = absq nm (tombs q) M' Q' R' D' -> 0 <= queue_len (lane M') < 2 ^ 32 -> linked nm rq (destroy_node M' x) Q' R' D' q' last.
Proof.
  intros L S Hq Hl. assert (Et : tombs q' = tombs q) by (by rewrite Hq).
  assert (Hnd : NoDup ([x] ++ all_ptrs Q' R' D' [])).
  { rewrite <- (st_perm _ _ _ _ _ _ _ _ _ _ _ _ _ _ S). apply (ho_nodup _ _ _ _ _ _ _ (li_holds _ _ _ _ _ _ _ _ L)). }
  apply destroy_linked; [|by apply NoDup_cons in Hnd as [? _]].
  eapply linked_intro; [exact S|by rewrite Et| |exact (li_hash _ _ _ _ _ _ _ _ L)|exact (li_inj _ _ _ _ _ _ _ _ L)| |done].
  - intros y Hy. rewrite Et. by apply (queued_facts _ _ _ _ _ _ _ _ _ L).
  - rewrite Et. apply L.
Qed.

(** The run boundary of a task that came through the ring: out of the index. *)
Lemma boundary_ring nm pr k M Q R D M' Q' R' D' x tb :
  stepped nm pr k M Q R D [] M' Q' R' D' [x] [] ->
  let M1 := set_index M' (cancel_index_remove (cidx M') (nodes M' !!! x)) in
  stepped nm pr k M Q R D [] M1 Q' R' D' [] [x] /\
  absq nm tb M1 Q' R' D' = (let q := absq nm tb M' Q' R' D' in
    mk_queues (qlen q) (Pool.ring q) (deques q) (Pool.lanes q) (index q ∖ {[nm x]}) (tombs q)).
Proof.
  intros S M1. destruct (unindex_sim nm pr tb M' Q' R' D' x [] (st_holds _ _ _ _ _ _ _ _ _ _ _ _ _ _ S)) as (S1 & U & E).
  split; [|exact E]. pose proof (holds_drop nm pr _ _ _ _ _ x (st_holds _ _ _ _ _ _ _ _ _ _ _ _ _ _ S1) U) as S2.
  eapply stepped_weaken; [|exact (stepped_trans _ _ _ _ _ _ _ _ _ _ _ _ _ _ _ _ _ _ _ _ _ (stepped_trans _ _ _ _ _ _ _ _ _ _ _ _ _ _ _ _ _ _ _ _ _ S S1) S2)].
  lia.
Qed.

(** The end of a pass that took the node [x]. *)
Lemma finish_pass k c p w nm Q R D M' Q' R' D' x (from_ring : bool) q' :
  implements k c p -> linked nm (reqs_of p) (mach c) Q R D (qs p) (next_id p) ->
  stepped nm (prio_of p) 12 (mach c) Q R D [] M' Q' R' D' [] [x] -> q' = absq nm (tombs (qs p)) M' Q' R' D' ->
  implements (k + 1)
    (if cancelled (nodes M' !!! x) then with_worker (with_mach c (destroy_node M' x) [Released (id_of M' x)]) w WLoop
     else with_worker (with_mach c (if from_ring then add_len (destroy_node M' x) (-1) else destroy_node M' x) [Started (id_of M' x)]) w
            (WRun (id_of M' x)))
    (if bool_decide (nm x ∈ tombs q') then add_log (set_worker (set_qs p q') w WLoop) [Released (nm x)]
     else add_log (set_worker (set_qs p (if from_ring then with_qlen q' (qlen q' -32 1) else q')) w (WRun (nm x))) [Started (nm x)]).
Proof.
  intros Hi L S Hq. destruct (taken_node _ _ _ _ _ _ _ _ _ _ _ _ _ _ _ x L S ltac:(by left)) as [-> ->].
  pose proof (st_u32 _ _ _ _ _ _ _ _ _ _ _ _ _ _ S (li_len _ _ _ _ _ _ _ _ L)) as Hu.
  pose proof (taken_linked _ _ _ _ _ _ _ _ _ _ _ _ _ _ q' L S Hq Hu) as L1.
  destruct (st_size _ _ _ _ _ _ _ _ _ _ _ _ _ _ S) as [Z1 Z2]. pose proof (st_len _ _ _ _ _ _ _ _ _ _ _ _ _ _ S) as Hlen.
  assert (HB : Forall (fun d => Deque.bottom d <= 16 * (k + 1)) (dqs M')).
  { eapply Forall_impl; [apply (st_room _ _ _ _ _ _ _ _ _ _ _ _ _ _ S (16 * k)), Hi|]. simpl. lia. }
  assert (Et : tombs q' = tombs (qs p)) by (by rewrite Hq). rewrite Et.
  case_bool_decide; [apply worker_implements; try done; by eexists nm, Q', R', D'|]. destruct from_ring.
  - apply worker_implements; try done. exists nm, Q', R', D'. exact (add_len_linked _ _ _ _ _ _ _ _ (-1) L1).
  - apply worker_implements; try done. by eexists nm, Q', R', D'.
Qed.

Lemma pass_sim k c p w :
  implements k c p -> 0 <= k < 2 ^ 59 -> i_workers c !! w = Some WLoop -> implements (k + 1) (pass c w) (worker_pass p w true).
Proof.
  intros Hi Hk Hw. apply lookup_lt_Some in Hw. destruct (im_link _ _ _ Hi) as (nm & Q & R & D & L).
  destruct (im_same _ _ _ Hi) as (E1 & E2 & E3 & E4 & _). destruct (im_mode _ _ _ Hi) as [Hm _]. destruct (im_workers _ _ _ Hi) as [W1 W2].
  unfold worker_pass, pass. rewrite (proj2 (Nat.leb_gt _ _)) by (rewrite E3; done). cbn [andb]. rewrite (exit_test k c p Hi).
  case_if; [by apply worker_same, later|]. rewrite Hm, E3.
  pose proof (fetch_sim nm (prio_of p) (tombs (qs p)) (mach c) Q R D (length (i_workers c)) w (16 * k)
    (li_holds _ _ _ _ _ _ _ _ L) ltac:(lia) ltac:(lia) (im_room _ _ _ Hi) ltac:(lia)) as Hf.
  rewrite <- (li_qs _ _ _ _ _ _ _ _ L) in Hf. destruct (fetch (mach c) (length (i_workers c)) w) as [o M']. destruct Hf as (Q' & R' & D' & -> & Hf).
  destruct o as [[x []]|]; cbn [fmap option_fmap option_map].
  - destruct (boundary_ring nm (prio_of p) 12 (mach c) Q R D M' Q' R' D' x (tombs (qs p)) Hf) as [S1 EA].
    set (M1 := set_index M' _) in *. change (id_of M' x) with (id_of M1 x).
    exact (finish_pass k c p w nm Q R D M1 Q' R' D' x true _ Hi L S1 (eq_sym EA)).
  - exact (finish_pass k c p w nm Q R D M' Q' R' D' x false _ Hi L Hf eq_refl).
  - rewrite E4. change (implements (k + 1) (with_worker (with_mach c M' []) w (if i_shutdown c then WLoop else WWait))
      (add_log (set_worker (set_qs p (absq nm (tombs (qs p)) M' Q' R' D')) w (if i_shutdown c then WLoop else WWait)) [])).
    apply worker_implements; try done; try apply (st_size _ _ _ _ _ _ _ _ _ _ _ _ _ _ Hf).
    + exists nm, Q', R', D'. eapply linked_intro; [exact Hf|done| |exact (li_hash _ _ _ _ _ _ _ _ L)|exact (li_inj _ _ _ _ _ _ _ _ L)|apply L|].
      * intros y Hy. by apply (queued_facts _ _ _ _ _ _ _ _ _ L).
      * apply (st_u32 _ _ _ _ _ _ _ _ _ _ _ _ _ _ Hf), L.
    + exact (st_len _ _ _ _ _ _ _ _ _ _ _ _ _ _ Hf).
    + eapply Forall_impl; [apply (st_room _ _ _ _ _ _ _ _ _ _ _ _ _ _ Hf (16 * k)), Hi|]. simpl. lia.
Qed.

(** ** Cancelling is simulated *)

Lemma indexed_id nm pr M Q R D H id :
  holds nm pr M Q R D H -> 1 <= id ->
  (Z.to_nat id ∈ (set_map Z.to_nat (dom (index_map (cidx M))) : gset nat)) <-> is_Some (index_map (cidx M) !! id).
Proof.
  intros Hh Hid. rewrite elem_of_map. setoid_rewrite elem_of_dom. split; [|intros H1; by exists id].
  intros (j & Hj & [x Hx]). destruct (ho_map _ _ _ _ _ _ _ Hh j x Hx) as [Hin <-].
  destruct (ho_node _ _ _ _ _ _ _ Hh x) as [_ [Hpos _] _]; [apply elem_of_app; by right|].
  assert (id = task_id (nodes M !!! x)) as -> by lia. by exists x.
Qed.

(** The claim of a queued ring task, marked and taken out of the index. *)
Lemma mark_linked nm rq M Q R D q last x :
  linked nm rq M Q R D q last -> index_map (cidx M) !! task_id (nodes M !!! x) = Some x ->
  let M1 := set_nodes M (alter set_cancelled x (nodes M)) in
  let '(ok, ci) := cancel_index_claim (cidx M1) (nodes M1 !!! x) in
  ok = true /\ cancel_cap ci = cancel_cap (cidx M) /\ id_of M1 x = nm x /\
  linked nm rq (add_len (set_index M1 ci) (-1)) Q R D
    (mk_queues (qlen q -32 1) (Pool.ring q) (deques q) (Pool.lanes q) (index q ∖ {[nm x]}) (tombs q ∪ {[nm x]})) last.
Proof.
  intros [Hh Hq Hf Hid Hinj Ht Hl Hda Hha] Hix M1. destruct (ho_map _ _ _ _ _ _ _ Hh _ _ Hix) as [Hr _].
  assert (Hx : x ∈ all_ptrs Q R D []) by (apply elem_of_app; by right).
  destruct (ho_node _ _ _ _ _ _ _ Hh x Hx) as [[_ Hs] [_ Hn] _].
  assert (Hsame : nodes M1 !!! x = set_cancelled (nodes M !!! x)) by (cbn; by apply alter_eq_total).
  assert (Hother : forall y, y <> x -> nodes M1 !! y = nodes M !! y) by (intros y Hy; cbn; by apply lookup_alter_ne).
  assert (Hud : forall y, user_data (nodes M1 !!! y) = user_data (nodes M !!! y)).
  { intros y. destruct (decide (y = x)) as [->|Hne]; [by rewrite Hsame|]. by rewrite !lookup_total_alt, (Hother y Hne). }
  assert (Hhc : hashed (nodes M1) (cancel_index_claim (cidx M1) (nodes M1 !!! x)).2).
  { apply hashed_claim. intros j Hj. rewrite Hud. by apply Hha. }
  assert (Hh1 : holds nm (lanes_of rq) M1 Q R D []).
  { apply holds_store; [done| |].
    - intros y Hy. apply Hother. intros ->. pose proof (ho_nodup _ _ _ _ _ _ _ Hh) as Hnd. unfold all_ptrs in Hnd.
      apply NoDup_app in Hnd as (_ & Hd & _). by apply (Hd x).
    - intros y Hy. destruct (decide (y = x)) as [->|Hne].
      + change (alter set_cancelled x (nodes M) !!! x) with (nodes M1 !!! x). rewrite Hsame. split; [|done]. intros _. cbn.
        rewrite lookup_alter_eq. by apply fmap_is_Some.
      + rewrite !lookup_total_alt. change (alter set_cancelled x (nodes M) !! y) with (nodes M1 !! y). by rewrite (Hother y Hne). }
  assert (Hix1 : index_map (cidx M1) !! task_id (nodes M1 !!! x) = Some x) by (rewrite Hsame; exact Hix).
  pose proof (claim_sim nm (lanes_of rq) (tombs q ∪ {[nm x]}) M1 Q R D x Hh1 Hix1) as Hc. pose proof (cancel_cap_claim (cidx M1) (nodes M1 !!! x)) as Hcap.
  destruct (cancel_index_claim (cidx M1) (nodes M1 !!! x)) as [ok ci]. destruct Hc as (-> & S1 & E1).
  destruct (add_len_sim nm (lanes_of rq) (tombs q ∪ {[nm x]}) (set_index M1 ci) Q R D [] (-1) (st_holds _ _ _ _ _ _ _ _ _ _ _ _ _ _ S1)) as [S2 E2].
  split_and!; [done|exact Hcap|unfold id_of; by rewrite Hsame|]. split.
  - exact (st_holds _ _ _ _ _ _ _ _ _ _ _ _ _ _ S2).
  - cbn [tombs]. rewrite E2, E1. rewrite Hq. done.
  - intros y Hy. cbn [tombs]. change (nodes (add_len (set_index M1 ci) (-1)) !!! y) with (nodes M1 !!! y).
    destruct (decide (y = x)) as [->|Hne].
    + rewrite Hsame. symmetry. apply bool_decide_true. set_solver.
    + rewrite lookup_total_alt, (Hother y Hne), <- lookup_total_alt, (Hf y Hy). apply bool_decide_ext. rewrite elem_of_union, elem_of_singleton.
      split; [tauto|]. intros [?|E]; [done|]. by destruct Hne; apply Hinj.
  - done.
  - done.
  - cbn [tombs]. intros t [Hin| ->%elem_of_singleton]%elem_of_union; [by apply Ht|by apply Hid].
  - cbn. apply u32_range.
  - intros y Hy. change (nodes (add_len (set_index M1 ci) (-1)) !!! y) with (nodes M1 !!! y). rewrite Hud. by apply Hda.
  - exact Hhc.
Qed.

(** The test of the lane walk, on nodes and on names. *)
Lemma walk_test nm rq M Q R D q last id :
  linked nm rq M Q R D q last -> 0 <= id -> forall x, x ∈ bucket_ptrs Q ->
  (task_id (nodes M !!! x) =? id) && negb (cancelled (nodes M !!! x)) = (nm x =? Z.to_nat id)%nat && negb (bool_decide (nm x ∈ tombs q)).
Proof.
  intros L Hid x Hx. assert (Hx' : x ∈ all_ptrs Q R D []) by (apply elem_of_app; by left).
  destruct (ho_node _ _ _ _ _ _ _ (li_holds _ _ _ _ _ _ _ _ L) x Hx') as [_ [Hpos Hn] _]. rewrite (li_flag _ _ _ _ _ _ _ _ L x Hx'). f_equal.
  destruct (Z.eqb_spec (task_id (nodes M !!! x)) id), (Nat.eqb_spec (nm x) (Z.to_nat id)); done || lia.
Qed.

(** The end of a lane walk that found the node [x]. *)
Lemma lane_cancelled k c p nm Q R D x s Q' L :
  implements k c p -> linked nm (reqs_of p) (mach c) Q R D (qs p) (next_id p) ->
  stepped nm (lanes_of (reqs_of p)) 0 (mach c) Q R D [] (set_lane (mach c) s) Q' R D [] [x] ->
  (let q := qs p in absq nm (tombs q) (set_lane (mach c) s) Q' R D = mk_queues (qlen q -32 1) (Pool.ring q) (deques q) L (index q) (tombs q)) ->
  implements (k + 1)
    (with_mach c (destroy_node (set_lane (mach c) s) x) [Released (id_of (mach c) x); Cancelled (id_of (mach c) x)])
    (add_log (set_qs p (let q := qs p in mk_queues (qlen q -32 1) (Pool.ring q) (deques q) L (index q) (tombs q))) [Released (nm x); Cancelled (nm x)]).
Proof.
  intros Hi HL S1 Ha. pose proof (li_holds _ _ _ _ _ _ _ _ HL) as Hh.
  assert (Hx : x ∈ all_ptrs Q R D []) by (rewrite (st_perm _ _ _ _ _ _ _ _ _ _ _ _ _ _ S1); by left).
  destruct (ho_node _ _ _ _ _ _ _ Hh x Hx) as [_ [_ Hn] _]. unfold id_of. rewrite <- Hn.
  apply mach_implements; try done; [|apply room_weaken, Hi].
  exists nm, Q', R, D. eapply taken_linked; [exact HL|exact S1|by rewrite Ha|].
  apply (st_u32 _ _ _ _ _ _ _ _ _ _ _ _ _ _ S1), HL.
Qed.

Lemma cancel_sim k c p id :
  implements k c p -> 1 <= id < 2 ^ 64 - 1 ->
  (cancel_by_id c id).1 = (loom_pool_cancel_by_id p (Z.to_nat id)).1 /\
  implements (k + 1) (cancel_by_id c id).2 (loom_pool_cancel_by_id p (Z.to_nat id)).2.
Proof.
  intros Hi Hid. destruct (im_link _ _ _ Hi) as (nm & Q & R & D & L). destruct (im_same _ _ _ Hi) as (_ & _ & _ & E4 & _).
  unfold cancel_by_id, loom_pool_cancel_by_id. rewrite E4. destruct (i_shutdown c); [split; [done|by apply later]|].
  pose proof (li_holds _ _ _ _ _ _ _ _ L) as Hh. pose proof (li_qs _ _ _ _ _ _ _ _ L) as Hq.
  pose proof (cancel_index_find_spec (cidx (mach c)) (new_node id inhabitant) (ho_index _ _ _ _ _ _ _ Hh) Hid) as Hfind.
  change (task_id (new_node id inhabitant)) with id in Hfind. rewrite Hfind.
  assert (Hin : bool_decide (Z.to_nat id ∈ index (qs p)) = bool_decide (is_Some (index_map (cidx (mach c)) !! id))).
  { apply bool_decide_ext. rewrite Hq. apply (indexed_id nm (prio_of p) (mach c) Q R D []); [done|lia]. }
  rewrite Hin. destruct (index_map (cidx (mach c)) !! id) as [x|] eqn:Hix.
  - change (default NULL (Some x)) with x. rewrite bool_decide_true by by eexists. destruct (ho_map _ _ _ _ _ _ _ Hh id x Hix) as [Hr Htid].
    assert (Hx : x ∈ all_ptrs Q R D []) by (apply elem_of_app; by right).
    destruct (ho_node _ _ _ _ _ _ _ Hh x Hx) as [[Hx0 _] [_ Hn] _]. rewrite Htid in Hn. rewrite (proj2 (Z.eqb_neq x NULL)) by done.
    cbn [negb]. rewrite (li_flag _ _ _ _ _ _ _ _ L x Hx), Hn.
    destruct (bool_decide (Z.to_nat id ∈ tombs (qs p))); [split; [done|by apply later]|]. rewrite <- Htid in Hix.
    pose proof (mark_linked nm (reqs_of p) (mach c) Q R D (qs p) (next_id p) x L Hix) as Hm. cbv zeta in Hm |- *.
    destruct (cancel_index_claim _ _) as [ok ci]. destruct Hm as (-> & Hcap & -> & L1). rewrite Hn in *. split; [done|]. cbn [snd].
    apply mach_implements; try done; [by eexists nm, Q, R, D|]. apply room_weaken, Hi.
  - rewrite bool_decide_false by (by intros [? ?]). cbn [negb].
    pose proof (lane_cancel_sim nm (prio_of p) (tombs (qs p)) (mach c) Q R D (fun t => (task_id t =? id) && negb (cancelled t))
      (fun u => (u =? Z.to_nat id)%nat && negb (bool_decide (u ∈ tombs (qs p)))) Hh (walk_test _ _ _ _ _ _ _ _ id L ltac:(lia))) as Hw.
    unfold cancel_lane. rewrite <- Hq in Hw. change (default NULL None =? NULL) with true. cbn [negb].
    destruct (cancel_walk _ _ _ _ _) as [[x s']|].
    + destruct Hw as (Q' & S1 & L' & Hrm & Ha). rewrite Hrm. split; [done|]. cbn [snd]. by eapply lane_cancelled.
    + rewrite Hw. split; [done|by apply later].
Qed.

(** *** By data pointer *)

Lemma slot_hits_node M d s : slot_hits M d s = true ->
  2 <= cs_task_id s /\ cancelled (nodes M !!! cs_task s) = false /\ user_data (nodes M !!! cs_task s) = d.
Proof.
  unfold slot_hits. intros [[H1 _]%andb_prop H%negb_true_iff]%andb_prop. apply orb_false_iff in H as [[_ H2]%orb_false_iff H3].
  apply negb_true_iff, Z.leb_gt in H1. apply negb_false_iff, Z.eqb_eq in H3. split_and!; [lia|done|done].
Qed.

(** The scan claims the first queued ring task with this data, if there is one. *)
Lemma cancel_scan_sim nm rq M Q R D q last d fuel : forall i,
  linked nm rq M Q R D q last ->
  match cancel_scan fuel i d M with
  | (Some x, M') =>
      x ∈ all_ptrs Q R D [] /\ is_Some (index_map (cidx M) !! task_id (nodes M !!! x)) /\ cancelled (nodes M !!! x) = false /\
      user_data (nodes M !!! x) = d /\ id_of M' x = nm x /\ dqs M' = dqs M /\ rng M' = rng M /\ cancel_cap (cidx M') = cancel_cap (cidx M) /\
      linked nm rq M' Q R D
        (mk_queues (qlen q -32 1) (Pool.ring q) (deques q) (Pool.lanes q) (index q ∖ {[nm x]}) (tombs q ∪ {[nm x]})) last
  | (None, M') => M' = M /\ forall j, (i <= j < i + fuel)%nat -> slot_hits M d (cancel_slots (cidx M) !!! j) = false
  end.
Proof.
  induction fuel as [|fuel IH]; intros i L; [split; [done|lia]|]. cbn [cancel_scan].
  destruct (slot_hits M d _) eqn:Eh.
  - destruct (slot_hits_node _ _ _ Eh) as (Hk & Hc & Hd). set (x := cs_task _) in *.
    destruct (live_slot _ _ _ _ _ _ _ i (li_holds _ _ _ _ _ _ _ _ L) Hk) as (Hx & Hix & _). fold x in Hx, Hix.
    pose proof (mark_linked nm rq M Q R D q last x L Hix) as Hm. cbv zeta in Hm |- *.
    destruct (cancel_index_claim _ _) as [ok ci]. destruct Hm as (-> & Hcap & Hid & L1).
    split_and!; try done.
  - specialize (IH (S i) L). destruct (cancel_scan fuel (S i) d M) as [[x|] M']; [done|]. destruct IH as [-> Hj].
    split; [done|]. intros j Hij. destruct (decide (j = i)) as [->|]; [done|]. apply Hj. lia.
Qed.

(** No slot hit: no indexed task has this data. *)
Lemma scan_complete nm rq M Q R D q last d t :
  linked nm rq M Q R D q last -> (forall j, (0 <= j < 0 + Z.to_nat (cancel_cap (cidx M)))%nat -> slot_hits M d (cancel_slots (cidx M) !!! j) = false) ->
  t ∈ index q -> (r_data (rq t) =? d) && negb (bool_decide (t ∈ tombs q)) = false.
Proof.
  intros L Hn Ht. pose proof (li_holds _ _ _ _ _ _ _ _ L) as Hh. rewrite (li_qs _ _ _ _ _ _ _ _ L) in Ht. cbn [index absq] in Ht.
  apply elem_of_map in Ht as (id & -> & [x Hx]%elem_of_dom). destruct (ho_map _ _ _ _ _ _ _ Hh id x Hx) as [Hr Hid].
  assert (Hin : x ∈ all_ptrs Q R D []) by (apply elem_of_app; by right).
  destruct (ho_node _ _ _ _ _ _ _ Hh x Hin) as [[Hx0 _] [Hpos Hnm] _]. rewrite Hid in Hpos, Hnm.
  destruct (proj1 (index_map_lookup _ id x (ho_index _ _ _ _ _ _ _ Hh) (proj1 Hpos)) Hx) as (j & [Hj Hk] & Hs).
  rewrite (iw_len _ (ho_index _ _ _ _ _ _ _ Hh)) in Hj. specialize (Hn j ltac:(lia)). unfold slot_hits in Hn.
  pose proof (li_hash _ _ _ _ _ _ _ _ L j ltac:(lia)) as Hha. fold (key_at (cidx M) j) in Hn. rewrite Hs in Hn, Hha.
  destruct (queued_facts _ _ _ _ _ _ _ _ _ L Hin) as (Hc & _ & Hd). rewrite Hnm in Hc, Hd. rewrite Hha, Hd, Hc in Hn.
  rewrite Hk, (proj2 (Z.leb_gt _ _)), (proj2 (Z.eqb_neq x NULL)) in Hn by (done || lia). cbn [negb andb orb] in Hn.
  destruct (Z.eqb_spec (r_data (rq (Z.to_nat id))) d) as [->|]; [|done]. rewrite Z.eqb_refl in Hn. cbn [andb negb] in Hn |- *.
  by destruct (bool_decide _).
Qed.

Lemma data_test nm rq M Q R D q last d :
  linked nm rq M Q R D q last -> forall x, x ∈ bucket_ptrs Q ->
  (user_data (nodes M !!! x) =? d) && negb (cancelled (nodes M !!! x)) = (r_data (rq (nm x)) =? d) && negb (bool_decide (nm x ∈ tombs q)).
Proof.
  intros L x Hx. assert (Hx' : x ∈ all_ptrs Q R D []) by (apply elem_of_app; by left).
  by destruct (queued_facts _ _ _ _ _ _ _ _ _ L Hx') as (-> & _ & ->).
Qed.

Lemma cancel_data_sim k c p d :
  implements k c p ->
  exists pick rc p', loom_pool_cancel p d pick = Some (rc, p') /\ (cancel_data c d).1 = rc /\ implements (k + 1) (cancel_data c d).2 p'.
Proof.
  intros Hi. destruct (im_link _ _ _ Hi) as (nm & Q & R & D & L). destruct (im_same _ _ _ Hi) as (_ & _ & _ & E4 & _).
  unfold cancel_data, loom_pool_cancel. rewrite E4. destruct (d =? NULL); [eexists None, _, _; split_and!; [done|done|by apply later]|].
  destruct (i_shutdown c); [eexists None, _, _; split_and!; [done|done|by apply later]|].
  pose proof (li_holds _ _ _ _ _ _ _ _ L) as Hh. pose proof (li_qs _ _ _ _ _ _ _ _ L) as Hq.
  pose proof (cancel_scan_sim nm (reqs_of p) (mach c) Q R D (qs p) (next_id p) d (Z.to_nat (cancel_cap (cidx (mach c)))) 0 L) as Hs.
  destruct (cancel_scan _ _ _ _) as [[x|] M'].
  - destruct Hs as (Hx & Hix & Hc & Hd & Hid & D1 & D2 & D3 & L1). destruct (queued_facts _ _ _ _ _ _ _ _ _ L Hx) as (Hf & _ & Hdd).
    destruct (ho_node _ _ _ _ _ _ _ Hh x Hx) as [_ [Hpos Hnm] _].
    exists (Some (nm x)), LOOMWORKS_OK, (claim p (nm x)). split_and!; [|done|].
    + assert (Hin : nm x ∈ index (qs p)).
      { rewrite Hq, Hnm. apply (indexed_id nm (lanes_of (reqs_of p)) (mach c) Q R D []); [done|lia|done]. }
      rewrite (bool_decide_true _ Hin), <- Hf, Hc. change (reqs p !!! nm x) with (reqs_of p (nm x)). rewrite <- Hdd, Hd, Z.eqb_refl. done.
    + cbn [snd]. rewrite Hid. apply mach_implements; try done; [by eexists nm, Q, R, D|by rewrite D1|rewrite D1; apply room_weaken, Hi|by rewrite D2].
  - destruct Hs as [-> Hn]. exists None.
    assert (Hall : forallb (fun t => negb ((r_data (reqs p !!! t) =? d) && negb (bool_decide (t ∈ tombs (qs p))))) (elements (index (qs p))) = true).
    { apply forallb_forall. intros t Ht%list_elem_of_In%elem_of_elements. apply negb_true_iff.
      exact (scan_complete nm (reqs_of p) _ _ _ _ _ _ _ _ L Hn Ht). }
    rewrite Hall.
    pose proof (lane_cancel_sim nm (prio_of p) (tombs (qs p)) (mach c) Q R D (fun t => (user_data t =? d) && negb (cancelled t))
      (fun u => (r_data (reqs_of p u) =? d) && negb (bool_decide (u ∈ tombs (qs p)))) Hh (data_test _ _ _ _ _ _ _ _ d L)) as Hw.
    unfold reqs_of in Hw.
    unfold cancel_lane. cbv beta zeta. rewrite <- Hq in Hw. destruct (cancel_walk _ _ _ _ _) as [[x s']|].
    + destruct Hw as (Q' & S1 & L' & Hrm & Ha). rewrite Hrm. eexists _, _. split_and!; [done|done|]. cbn [snd].
      by eapply lane_cancelled.
    + rewrite Hw. eexists _, _. split_and!; [done|done|]. cbn [snd].
      assert (E : with_mach c (mach c) [] = c) by by destruct c. rewrite E. by apply later.
Qed.

(** ** Runs *)

(** Ids a caller of loom_pool_cancel_by_id can have got from a submit. *)
Definition named (o : iop) : bool := match o with OCancel id => (1 <=? id) && (id <? 2 ^ 64 - 1) | _ => true end.

Lemma step_sim k c p o c' :
  implements k c p -> 0 <= k < 2 ^ 59 -> named o = true -> istep c o = Some c' ->
  exists evs p', prun p evs = Some p' /\ implements (k + 1) c' p'.
Proof.
  intros Hi Hk Hn Hs. destruct (im_same _ _ _ Hi) as (E1 & E2 & E3 & E4 & E5 & E6 & E7 & E8). destruct (im_mode _ _ _ Hi) as [_ Hj].
  destruct o as [r x|w|w|w|id|d|]; cbn [istep] in Hs.
  - destruct (bool_decide _) eqn:Hx in Hs; [apply bool_decide_eq_true in Hx|done]. destruct (Z.eqb_spec x NULL); [done|].
    cbn [andb negb] in Hs. simplify_eq. apply submit_sim; [done|lia|done|done].
  - destruct (i_workers c !! w) as [[]|] eqn:Hw; simplify_eq. exists [EvPass w true]. eexists. split; [|by apply pass_sim].
    simpl. by rewrite E7, Hw.
  - destruct (i_workers c !! w) as [[]|] eqn:Hw; try done. destruct (i_sem c) as [|m] eqn:Hm; simplify_eq.
    exists [EvToken w]. eexists. split; [simpl; rewrite E7, Hw, E6; reflexivity|]. apply later, worker_same.
    destruct Hi as [I1 I2 I3 I4 I5 I6 I7 I8 I9]. by split.
  - destruct (i_workers c !! w) as [[]|] eqn:Hw; simplify_eq. exists [EvFinish w]. eexists.
    split; [simpl; rewrite E7, Hw; reflexivity|].
    change (add_log (set_worker p w WLoop) [Finished t]) with (set_worker (add_log p [Finished t]) w WLoop). apply worker_same.
    apply later in Hi as [I1 I2 I3 I4 I5 I6 I7 I8 I9]. split; try done. cbn. split_and!; try done. by rewrite E8.
  - simplify_eq. cbn in Hn. zbool. destruct (cancel_sim k c p id Hi ltac:(lia)) as [_ Hc]. exists [EvCancelId (Z.to_nat id)]. by eexists.
  - simplify_eq. destruct (cancel_data_sim k c p d Hi) as (pick & rc & p' & Hp & _ & Hi'). exists [EvCancelData d pick], p'. split; [|done].
    cbn [prun pstep]. by rewrite Hp.
  - simplify_eq. exists [EvShutdown]. eexists. split; [done|]. unfold loom_pool_shutdown. rewrite Hj.
    apply later in Hi as [I1 I2 I3 [I4 _] I5 I6 I7 I8 I9]. split; try done. cbn. split_and!; try done. by rewrite E6, E3.
Qed.

Lemma run_sim ops : forall k c p c',
  implements k c p -> 0 <= k -> k + Z.of_nat (length ops) < 2 ^ 59 -> forallb named ops = true -> irun c ops = Some c' ->
  exists evs p', prun p evs = Some p' /\ implements (k + Z.of_nat (length ops)) c' p'.
Proof.
  induction ops as [|o ops IH]; intros k c p c' Hi Hk Hl Hn Hr; simpl in Hn, Hr.
  { simplify_eq. exists [], p. split; [done|]. simpl. by rewrite Z.add_0_r. }
  apply andb_prop in Hn as [Hn Hns]. destruct (istep c o) as [c1|] eqn:Hs; [|done]. simpl length in *.
  destruct (step_sim k c p o c1 Hi ltac:(lia) Hn Hs) as (evs1 & p1 & Hp1 & Hi1).
  destruct (IH (k + 1) c1 p1 c' Hi1 ltac:(lia) ltac:(lia) Hns Hr) as (evs2 & p2 & Hp2 & Hi2).
  exists (evs1 ++ evs2), p2. split; [apply prun_app; by exists p1|]. by replace (k + Z.of_nat (S (length ops))) with (k + 1 + Z.of_nat (length ops)) by lia.
Qed.

Lemma concat_replicate_nil {A} n : concat (replicate n (@nil A)) = [].
Proof. by induction n. Qed.

Lemma start_holds cap n nm pr :
  0 <= cap < 2 ^ 32 -> Z.of_nat n < 2 ^ 32 ->
  let M := mach (ipool_start cap n) in
  holds nm pr M (fun _ => []) [] (replicate n []) [] /\ ring_size (rng M) + 256 * Z.of_nat n <= cancel_cap (cidx M).
Proof.
  intros Hc Hn M. destruct (ring_size_for_spec cap Hc) as (k & Hk & Hs & _ & Hb). unfold LOOMWORKS_MAX_QUEUE_CAPACITY in Hb.
  destruct (cancel_cap_for_spec (cancel_need (2 ^ k) (Z.of_nat n))) as (j & Hj & Ej & Hle).
  { unfold cancel_need, LOOMWORKS_DEQUE_CAPACITY. lia. }
  unfold M, ipool_start. cbn [mach]. rewrite Hs. split.
  - split; cbn [mach lane rng dqs dtotal cidx nodes].
    + apply lanes_init_rep.
    + apply ring_init_rep. lia.
    + apply Forall2_replicate, deque_init_rep.
    + by apply Forall_replicate.
    + by rewrite concat_replicate_nil.
    + apply cancel_index_init_wf. exists j. by rewrite Ej.
    + intros i x Hi. by rewrite index_map_init in Hi.
    + unfold all_ptrs, ring_ptrs. rewrite concat_replicate_nil. apply NoDup_nil_2.
    + intros x Hx. unfold all_ptrs, ring_ptrs in Hx. rewrite concat_replicate_nil in Hx. by apply not_elem_of_nil in Hx.
  - change (2 ^ k + 256 * Z.of_nat n <= cancel_cap_for (cancel_need (2 ^ k) (Z.of_nat n))). rewrite Ej. unfold cancel_need, LOOMWORKS_DEQUE_CAPACITY in Hle. lia.
Qed.

Lemma start_implements cap n :
  0 <= cap < 2 ^ 32 -> (0 < n)%nat -> Z.of_nat n < 2 ^ 32 ->
  let k := clamp_capacity cap in
  implements 0 (ipool_start cap n) (pool_start k (Z.to_nat (ring_size_for k)) n 1 true).
Proof.
  intros Hc Hn0 Hn k. destruct (start_holds cap n (fun _ => 0%nat) (fun _ => lane_of inhabitant) Hc Hn) as [Hh Hi].
  split; cbn [mach ipool_start i_workers i_shutdown i_sem i_log i_capacity next_task_id]; rewrite ?length_replicate; try done.
  - exists (fun _ => 0%nat), (fun _ => []), [], (replicate n []).
    assert (Hnil : all_ptrs (fun _ => []) [] (replicate n []) [] = []).
    { unfold all_ptrs, ring_ptrs. by rewrite concat_replicate_nil. }
    split; rewrite ?Hnil; try (by intros x Hx%not_elem_of_nil).
    + apply (holds_rename (fun _ => 0%nat) (fun _ => lane_of inhabitant)); [by rewrite Hnil; intros x Hx%not_elem_of_nil|exact Hh].
    + unfold absq. cbn [pool_start qs tombs]. f_equal.
      * by rewrite fmap_replicate.
      * cbn [mach ipool_start cidx]. rewrite index_map_init, dom_empty_L. by rewrite set_map_empty.
    + by intros x y Hx%not_elem_of_nil.
    + cbn. set_solver.
    + done.
    + intros j Hj. cbn [mach ipool_start cidx] in Hj. rewrite key_at_init in Hj. lia.
  - by exists PIdle.
  - cbn. by rewrite length_replicate.
  - apply Forall_replicate. done.
  - unfold k, clamp_capacity, LOOMWORKS_MAX_QUEUE_CAPACITY. split; [|done]. case_if; lia.
Qed.

Lemma concat_fmap {A B} (f : A -> B) (ls : list (list A)) : concat (fmap (M := list) f <$> ls) = f <$> concat ls.
Proof. induction ls as [|l ls IH]; [done|]. cbn [fmap list_fmap concat]. by rewrite fmap_app, <- IH. Qed.

Lemma waiting_names nm tb M Q R D : waiting (absq nm tb M Q R D) ≡ₚ nm <$> all_ptrs Q R D [].
Proof.
  unfold waiting, ringed, absq, all_ptrs, ring_ptrs, bucket_ptrs. cbn [Pool.ring deques Pool.lanes].
  rewrite !fmap_app, app_nil_r, <- !concat_fmap, <- !list_fmap_compose.
  assert (E : concat ((fun l => rev (nm <$> l)) <$> D) ≡ₚ concat (fmap (M := list) nm <$> D)).
  { induction D as [|l D IH]; [done|]. cbn [fmap list_fmap concat]. apply Permutation_app; [symmetry; apply Permutation_rev|exact IH]. }
  rewrite E. change ((fst ∘ (fun x : ptr => (nm x, true))) <$> R) with (nm <$> R).
  change ((fmap (M := list) nm ∘ Q) <$> seq 0 256) with ((fun b => nm <$> Q b) <$> seq 0 256).
  rewrite Permutation_app_comm. reflexivity.
Qed.


(** Two workers: a HIGH task overtakes two of the ring, the second of which is
    cancelled by id and released by worker 1; worker 0 steals the first.  A LOW
    task is cancelled by its data. *)
Definition demo_req (d prio : Z) : request := mk_request 7 d prio false false false.
Definition demo_ops : list iop :=
  [OSubmit (demo_req 70 5) 8; OSubmit (demo_req 71 5) 16; OSubmit (demo_req 72 1) 24; OCancel 3; OSubmit (demo_req 73 9) 32;
   OCancelData 73; OPass 0; OPass 1; OFinish 0;
   OPass 0; OShutdown; OFinish 0; OPass 1].


(** loom_pool_cancel_by_id(pool, 0) looks for the key 1, which is the tombstone
    mark: after enough traffic it finds a slot whose node pointer was left
    behind by a removal and cancels whatever task now has that node. *)
Definition churn (n : nat) : list iop := concat (replicate n [OSubmit (demo_req 70 5) 8; OPass 0; OFinish 0]).

Theorem cancel_zero_hits_tombstone :
  match irun (ipool_start 1 1) (churn 511 ++ [OSubmit (demo_req 70 5) 8; OCancel 0; OPass 0]) with
  | Some c => take 3 (i_log c) = [Released 513; Cancelled 513; Accepted 513]
  | None => False
  end.
Proof. vm_compute. reflexivity. Qed.
