(* ===== verification/TaskGroup.v ===== *)
(** * Task groups (src/task_group.c).

    A group tracks the tasks it submitted to a pool.  It is modelled against
    the contract of PoolContract.v, so every interleaving of the pool's own
    threads is an arbitrary sequence of [tp_exec] steps.  The group lock is
    explicit: loom_task_group_submit holds it across the call into the pool and
    task_group_cancel_tracked across one cancel call per node, so both are
    several steps, while the wrappers' decrement and the tests of the waiters
    are one critical section each.

    A wrapper context is named by the task id the pool gave to its submission.
    Freeing a context twice, reading a freed one or touching the group after
    destroy released it sets [fault]. *)
From S2P Require Import Prelude Types Pool PoolContract.

(** ** State *)

Inductive glock :=
  | LFree
  | LSubmit                          (* inside loom_pool_submit, context and node allocated *)
  | LSubmitted (t : nat)             (* the pool has the task, the call has not returned *)
  | LCancel (destroy : bool) (rest : list nat).   (* task_group_cancel_tracked, nodes left *)

(** How far a wrapper is after the user's function returned. *)
Inductive wphase := WCounted | WFreed.

(** A thread inside loom_task_group_wait(_timeout), and the destroyer. *)
Inductive gwait := GTest | GAsleep | GRet (rc : loom_result_t).

#[export] Instance glock_eq_dec : EqDecision glock. Proof. solve_decision. Defined.
#[export] Instance wphase_eq_dec : EqDecision wphase. Proof. solve_decision. Defined.
#[export] Instance gwait_eq_dec : EqDecision gwait. Proof. solve_decision. Defined.

Record group (S : Type) := mk_group {
  g_pool : S;
  nodes : list nat;                  (* tracked list, head first *)
  node_count : Z;                    (* uint32_t *)
  pending : Z;                       (* uint32_t *)
  destroyed : bool;
  lock : glock;
  mine : gset nat;                   (* ids the pool gave to the group's submissions *)
  revoked : gset nat;                (* ids the group cancelled *)
  ctxs : gset nat;                   (* contexts not freed *)
  wrappers : gmap nat wphase;
  waiters : list gwait;
  destroyer : option gwait;
  freed : bool;
  fault : bool;
}.
Arguments mk_group {S}. Arguments g_pool {S}. Arguments nodes {S}. Arguments node_count {S}. Arguments pending {S}.
Arguments destroyed {S}. Arguments lock {S}. Arguments mine {S}. Arguments revoked {S}. Arguments ctxs {S}.
Arguments wrappers {S}. Arguments waiters {S}. Arguments destroyer {S}. Arguments freed {S}. Arguments fault {S}.

Inductive gevent (Ev : Type) :=
  | GSubmit (ctx_ok node_ok : bool)  (* lock, destroyed test, the two allocations *)
  | GAccept (e : Ev)                 (* the pool step that accepts the task *)
  | GSubmitRet (rc : loom_result_t)  (* loom_pool_submit returns *)
  | GPool (e : Ev)                   (* any other pool step *)
  | GCancel                          (* loom_task_group_cancel takes the lock *)
  | GDestroy (on_worker : bool)      (* loom_task_group_destroy takes the lock *)
  | GCancelNode                      (* one turn of task_group_cancel_tracked *)
  | GCancelEnd
  | GDestroyTest                     (* destroy's wait loop, then the release *)
  | GDec (t : nat)                   (* wrapper: fn returned, decrement under the lock *)
  | GFree (t : nat)                  (* wrapper: free(ctx) *)
  | GWait (on_worker : bool)         (* a thread enters loom_task_group_wait(_timeout) *)
  | GWaitTest (i : nat)
  | GTimeout (i : nat)               (* pthread_cond_timedwait returns ETIMEDOUT *)
  | GSpurious (i : nat)
  | GSpuriousD.                      (* spurious wake-up of the destroyer *)
Arguments GSubmit {Ev}. Arguments GAccept {Ev}. Arguments GSubmitRet {Ev}. Arguments GPool {Ev}. Arguments GCancel {Ev}.
Arguments GDestroy {Ev}. Arguments GCancelNode {Ev}. Arguments GCancelEnd {Ev}. Arguments GDestroyTest {Ev}. Arguments GDec {Ev}.
Arguments GFree {Ev}. Arguments GWait {Ev}. Arguments GWaitTest {Ev}. Arguments GTimeout {Ev}. Arguments GSpurious {Ev}.
Arguments GSpuriousD {Ev}.

Section Group.
Context {S Ev : Type} `{!TaskPool S Ev}.
Implicit Types (g : group S) (e : Ev).

Definition with_pool g s : group S :=
  mk_group s (nodes g) (node_count g) (pending g) (destroyed g) (lock g) (mine g) (revoked g) (ctxs g) (wrappers g)
    (waiters g) (destroyer g) (freed g) (fault g).
Definition with_lock g l : group S :=
  mk_group (g_pool g) (nodes g) (node_count g) (pending g) (destroyed g) l (mine g) (revoked g) (ctxs g) (wrappers g)
    (waiters g) (destroyer g) (freed g) (fault g).
Definition with_waits g ws d : group S :=
  mk_group (g_pool g) (nodes g) (node_count g) (pending g) (destroyed g) (lock g) (mine g) (revoked g) (ctxs g) (wrappers g)
    ws d (freed g) (fault g).

Definition unlocked g : bool := bool_decide (lock g = LFree) && negb (freed g).

(** task_group_append. *)
Definition task_group_append g (t : nat) : group S :=
  mk_group (g_pool g) (nodes g ++ [t]) (node_count g +32 1) (pending g +32 1) (destroyed g) (lock g) (mine g) (revoked g)
    (ctxs g) (wrappers g) (waiters g) (destroyer g) (freed g) (fault g).

(** task_group_cancel_node. *)
Definition task_group_cancel_node g (t : nat) : group S :=
  match tp_cancel (g_pool g) t with
  | (LOOMWORKS_OK, s) =>
      mk_group s (nodes g) (node_count g) (pending g -32 1) (destroyed g) (lock g) (mine g) (revoked g ∪ {[t]})
        (ctxs g ∖ {[t]}) (wrappers g) (waiters g) (destroyer g) (freed g) (fault g || bool_decide (t ∉ ctxs g))
  | (_, s) => with_pool g s
  end.

Definition wake (w : gwait) : gwait := match w with GAsleep => GTest | _ => w end.

(** The end of task_group_wrapper and task_group_future_wrapper: the context
    is read, the group locked, the count dropped, and at zero all waiters are
    woken. *)
Definition task_group_wrapper g (t : nat) : group S :=
  let z := (pending g -32 1 =? 0) in
  mk_group (g_pool g) (nodes g) (node_count g) (pending g -32 1) (destroyed g) (lock g) (mine g) (revoked g) (ctxs g)
    (<[t := WCounted]> (wrappers g)) (if z then wake <$> waiters g else waiters g) (if z then wake <$> destroyer g else destroyer g)
    (freed g) (fault g || freed g || bool_decide (t ∉ ctxs g)).

Definition wrapper_free g (t : nat) : group S :=
  mk_group (g_pool g) (nodes g) (node_count g) (pending g) (destroyed g) (lock g) (mine g) (revoked g) (ctxs g ∖ {[t]})
    (<[t := WFreed]> (wrappers g)) (waiters g) (destroyer g) (freed g) (fault g || bool_decide (t ∉ ctxs g)).

(** loom_task_group_submit and loom_task_group_submit_future up to the pool
    call: [None] = the call returned this code without a submission. *)
Definition loom_task_group_submit g (ctx_ok node_ok : bool) : loom_result_t * group S :=
  if destroyed g then (LOOMWORKS_ERR_INVALID, g)
  else if negb ctx_ok || negb node_ok then (LOOMWORKS_ERR_ALLOC, g)
  else (LOOMWORKS_OK, with_lock g LSubmit).

Definition start_destroy g : group S :=
  mk_group (g_pool g) (nodes g) (node_count g) (pending g) true (LCancel true (nodes g)) (mine g) (revoked g) (ctxs g) (wrappers g)
    (waiters g) (destroyer g) (freed g) (fault g).

(** The end of task_group_cancel_tracked. *)
Definition tracked_cleared g (d : bool) : group S :=
  mk_group (g_pool g) [] 0 (pending g) (destroyed g) LFree (mine g) (revoked g) (ctxs g) (wrappers g)
    (waiters g) (if d then Some GTest else destroyer g) (freed g) (fault g).

Definition release g : group S :=
  mk_group (g_pool g) (nodes g) (node_count g) (pending g) (destroyed g) (lock g) (mine g) (revoked g) (ctxs g) (wrappers g)
    (waiters g) (Some (GRet LOOMWORKS_OK)) true (fault g).

(** The loop of loom_task_group_wait_timeout, one test. *)
Definition wait_test g : gwait := if 0 <? pending g then GAsleep else GRet LOOMWORKS_OK.

Definition loom_task_group_pending_count g : Z := node_count g.

Definition gstep g (ev : gevent Ev) : option (group S) :=
  match ev with
  | GSubmit c n => if unlocked g then Some (loom_task_group_submit g c n).2 else None
  | GAccept e =>
      match lock g, tp_exec (g_pool g) e with
      | LSubmit, Some s =>
          match tp_log s with
          | Accepted t :: l =>
              if bool_decide (l = tp_log (g_pool g)) then
                Some (mk_group s (nodes g) (node_count g) (pending g) (destroyed g) (LSubmitted t) (mine g ∪ {[t]}) (revoked g)
                  (ctxs g ∪ {[t]}) (wrappers g) (waiters g) (destroyer g) (freed g) (fault g))
              else None
          | _ => None
          end
      | _, _ => None
      end
  | GSubmitRet rc =>
      match lock g with
      | LSubmit => if bool_decide (rc = LOOMWORKS_OK) then None else Some (with_lock g LFree)
      | LSubmitted t => if bool_decide (rc = LOOMWORKS_OK) then Some (with_lock (task_group_append g t) LFree) else None
      | _ => None
      end
  | GPool e => with_pool g <$> tp_exec (g_pool g) e
  | GCancel => if unlocked g then Some (with_lock g (LCancel false (nodes g))) else None
  | GDestroy on_worker =>
      if on_worker then Some g        (* LOOMWORKS_ERR_INVALID *)
      else if unlocked g && bool_decide (destroyer g = None) then Some (start_destroy g) else None
  | GCancelNode =>
      match lock g with
      | LCancel d (t :: rest) => Some (with_lock (task_group_cancel_node g t) (LCancel d rest))
      | _ => None
      end
  | GCancelEnd => match lock g with LCancel d [] => Some (tracked_cleared g d) | _ => None end
  | GDestroyTest =>
      if unlocked g && bool_decide (destroyer g = Some GTest) then
        Some (if 0 <? pending g then with_waits g (waiters g) (Some GAsleep) else release g)
      else None
  | GDec t =>
      if bool_decide (lock g = LFree /\ t ∈ mine g /\ Started t ∈ tp_log (g_pool g) /\ wrappers g !! t = None)
      then Some (task_group_wrapper g t) else None
  | GFree t => if bool_decide (wrappers g !! t = Some WCounted) then Some (wrapper_free g t) else None
  | GWait on_worker =>
      if freed g then None
      else Some (with_waits g (waiters g ++ [if on_worker then GRet LOOMWORKS_ERR_INVALID else GTest]) (destroyer g))
  | GWaitTest i =>
      if unlocked g && bool_decide (waiters g !! i = Some GTest)
      then Some (with_waits g (<[i := wait_test g]> (waiters g)) (destroyer g)) else None
  | GTimeout i =>
      if unlocked g && bool_decide (waiters g !! i = Some GAsleep)
      then Some (with_waits g (<[i := GRet LOOMWORKS_ERR_TIMEOUT]> (waiters g)) (destroyer g)) else None
  | GSpurious i =>
      if bool_decide (waiters g !! i = Some GAsleep) then Some (with_waits g (<[i := GTest]> (waiters g)) (destroyer g)) else None
  | GSpuriousD =>
      if bool_decide (destroyer g = Some GAsleep) then Some (with_waits g (waiters g) (Some GTest)) else None
  end.

Fixpoint grun g (evs : list (gevent Ev)) : option (group S) :=
  match evs with
  | [] => Some g
  | ev :: evs => match gstep g ev with Some g' => grun g' evs | None => None end
  end.

(** loom_task_group_create on a running pool. *)
Definition group_start (s : S) : group S := mk_group s [] 0 0 false LFree ∅ ∅ ∅ ∅ [] None false false.

Definition loom_task_group_create (s : S) (calloc_ok mutex_ok cond_ok : bool) : loom_result_t * option (group S) :=
  if calloc_ok && mutex_ok && cond_ok then (LOOMWORKS_OK, Some (group_start s)) else (LOOMWORKS_ERR_ALLOC, None).

(** ** Invariant *)

Definition current g : gset nat := match lock g with LSubmitted t => {[t]} | _ => ∅ end.
Definition todo g : list nat := match lock g with LCancel _ rest => rest | _ => nodes g end.

(** Tasks whose completion is still to be counted. *)
Definition unfinished g : gset nat := mine g ∖ revoked g ∖ dom (wrappers g) ∖ current g.

Record ginv `{!TaskPoolLaws S Ev} g : Prop := {
  gi_reach : tp_reach (g_pool g);
  gi_mine : forall t, t ∈ mine g -> Accepted t ∈ tp_log (g_pool g);
  gi_cur : current g ⊆ mine g ∖ revoked g ∖ dom (wrappers g) ∖ list_to_set (todo g);
  gi_todo : NoDup (todo g) /\ list_to_set (todo g) ⊆ mine g ∖ revoked g;
  gi_rev : revoked g ⊆ mine g /\ forall t, t ∈ revoked g -> Cancelled t ∈ tp_log (g_pool g);
  gi_wr : dom (wrappers g) ⊆ mine g /\ forall t, t ∈ dom (wrappers g) -> Started t ∈ tp_log (g_pool g);
  gi_ctx : forall t, t ∈ ctxs g <-> t ∈ mine g /\ (t ∉ revoked g) /\ wrappers g !! t <> Some WFreed;
  gi_pending : pending g = u32 (Z.of_nat (size (unfinished g)));
  gi_lock : freed g = true -> lock g = LFree;
  gi_freed : freed g = true -> Z.of_nat (size (mine g)) < 2 ^ 32 -> unfinished g = ∅;
  gi_fault : Z.of_nat (size (mine g)) < 2 ^ 32 -> fault g = false;
}.

Section Preservation.
Context `{!TaskPoolLaws S Ev}.

Lemma small_mono (X Y : gset nat) : X ⊆ Y -> Z.of_nat (size Y) < 2 ^ 32 -> Z.of_nat (size X) < 2 ^ 32.
Proof. intros Hs. pose proof (subseteq_size X Y Hs). lia. Qed.

(** A revoked task has no wrapper. *)
Lemma revoked_idle g t : ginv g -> t ∈ revoked g -> (Started t ∉ tp_log (g_pool g)).
Proof. intros H Ht. apply tp_cancelled; [apply H|by apply H]. Qed.

Lemma started_live g t : ginv g -> t ∈ mine g -> Started t ∈ tp_log (g_pool g) -> wrappers g !! t = None -> current g = ∅ -> t ∈ unfinished g.
Proof.
  intros H Hm Hs Hw Hc. unfold unfinished. rewrite Hc, !elem_of_difference, not_elem_of_dom.
  split_and!; [done| |done|set_solver]. intros Hr. by apply (revoked_idle g t).
Qed.

(** Fields of the group untouched, the pool moved forward. *)
Lemma ginv_pool g s : ginv g -> tp_reach s -> tp_log (g_pool g) `suffix_of` tp_log s -> ginv (with_pool g s).
Proof.
  intros [H1 H2 H3 H4 [H5 H5'] [H6 H6'] H7 H8 H9 H10 H11] Hr Hs.
  assert (Hin : forall o, o ∈ tp_log (g_pool g) -> o ∈ tp_log s) by (intros o Ho; by eapply elem_of_suffix).
  split; simpl; auto.
Qed.

(** Waiters do not matter to the accounting. *)
Lemma ginv_waits g ws d : ginv g -> ginv (with_waits g ws d).
Proof. intros [H1 H2 H3 H4 H5 H6 H7 H8 H9 H10 H11]. by split. Qed.

(** The lock changes hands, and the nodes left to cancel are some of the old. *)
Lemma ginv_lock g l :
  ginv g -> freed g = false -> current g = ∅ -> current (with_lock g l) = ∅ ->
  (todo (with_lock g l) = todo g) -> ginv (with_lock g l).
Proof.
  intros [H1 H2 H3 H4 H5 H6 H7 H8 H9 H10 H11] Hf Hc Hc' Ht.
  assert (Hu : unfinished (with_lock g l) = unfinished g) by (unfold unfinished; by rewrite Hc', Hc).
  split; simpl; auto.
  - rewrite Hc'. set_solver.
  - by rewrite Ht.
  - by rewrite Hu.
  - by rewrite Hf.
  - by rewrite Hf.
Qed.

Lemma ginv_accept g s e t l :
  ginv g -> lock g = LSubmit -> tp_exec (g_pool g) e = Some s -> tp_log s = Accepted t :: tp_log (g_pool g) ->
  ginv (mk_group s (nodes g) (node_count g) (pending g) (destroyed g) (LSubmitted t) (mine g ∪ {[t]}) (revoked g)
          (ctxs g ∪ {[t]}) (wrappers g) l (destroyer g) (freed g) (fault g)).
Proof.
  intros [H1 H2 H3 H4 [H5 H5'] [H6 H6'] H7 H8 H9 H10 H11] Hl He Hlog.
  assert (Hnew : Accepted t ∉ tp_log (g_pool g)) by (by eapply tp_fresh).
  assert (Hnm : t ∉ mine g) by (intros Hm; by apply Hnew, H2).
  assert (Hin : forall o, o ∈ tp_log (g_pool g) -> o ∈ tp_log s) by (intros o Ho; rewrite Hlog; by right).
  assert (Hu : forall l', unfinished (mk_group s (nodes g) (node_count g) (pending g) (destroyed g) (LSubmitted t) (mine g ∪ {[t]}) (revoked g)
          (ctxs g ∪ {[t]}) (wrappers g) l' (destroyer g) (freed g) (fault g)) = unfinished g).
  { intros l'. unfold unfinished, current. simpl. rewrite Hl. apply leibniz_equiv. clear -Hnm. set_solver. }
  assert (Hle : Z.of_nat (size (mine g ∪ {[t]})) < 2 ^ 32 -> Z.of_nat (size (mine g)) < 2 ^ 32) by (apply small_mono; clear; set_solver).
  unfold current, todo in *. rewrite Hl in *. destruct H4 as [H4 H4']. split; unfold current, todo; simpl; auto.
  - by eapply tp_reach_exec.
  - intros u [Hu'|Hu']%elem_of_union; [by auto|]. apply elem_of_singleton in Hu'. subst. rewrite Hlog. by left.
  - clear -Hnm H4' H5 H6. set_solver.
  - split; [done|]. clear -H4'. set_solver.
  - split; [clear -H5; set_solver|auto].
  - split; [clear -H6; set_solver|auto].
  - intros u. rewrite !elem_of_union, elem_of_singleton, H7. split; [|tauto].
    intros [?| ->]; [tauto|]. split_and!; [by right|clear -H5 Hnm; set_solver|]. intros Hw. apply Hnm, H6. apply elem_of_dom. by eexists.
  - rewrite Hu. done.
  - intros Hf. by apply H9 in Hf.
  - intros Hf. by apply H9 in Hf.
Qed.

Lemma size_remove (X : gset nat) t : t ∈ X -> Z.of_nat (size (X ∖ {[t]})) = Z.of_nat (size X) - 1.
Proof.
  intros Ht. rewrite size_difference by set_solver. rewrite size_singleton.
  pose proof (subseteq_size {[t]} X ltac:(set_solver)) as H. rewrite size_singleton in H. lia.
Qed.

(** loom_pool_submit returned success: the task is tracked and counted. *)
Lemma ginv_append g t : ginv g -> lock g = LSubmitted t -> ginv (with_lock (task_group_append g t) LFree).
Proof.
  intros [H1 H2 H3 [H4 H4'] H5 H6 H7 H8 H9 H10 H11] Hl.
  assert (Hf : freed g = false) by (destruct (freed g); [by rewrite H9 in Hl|done]).
  unfold current, todo in *. rewrite Hl in *.
  assert (Ht : t ∈ mine g /\ (t ∉ revoked g) /\ (t ∉ dom (wrappers g)) /\ (t ∉ nodes g)) by (clear -H3; set_solver).
  destruct Ht as (Ht1 & Ht2 & Ht3 & Ht4).
  assert (Hu : unfinished g = unfinished (with_lock (task_group_append g t) LFree) ∖ {[t]}).
  { unfold unfinished, current. simpl. rewrite Hl. apply leibniz_equiv. clear. set_solver. }
  split; unfold current, todo; simpl; auto.
  - clear. set_solver.
  - split; [|clear -H4' Ht1 Ht2; set_solver]. apply NoDup_app. split_and!; [done| |apply NoDup_singleton].
    intros x Hx ->%list_elem_of_singleton. done.
  - rewrite H8, u32_add_l, Hu, size_remove; [f_equal; lia|].
    unfold unfinished, current. simpl. clear -Ht1 Ht2 Ht3. set_solver.
  - by rewrite Hf.
Qed.

Lemma ginv_cancel_node g d t rest :
  ginv g -> lock g = LCancel d (t :: rest) -> ginv (with_lock (task_group_cancel_node g t) (LCancel d rest)).
Proof.
  intros H Hl. unfold task_group_cancel_node. destruct (tp_cancel (g_pool g) t) as [rc s] eqn:Ec.
  assert (Hs : ginv (with_pool g s)).
  { pose proof (tp_reach_cancel (g_pool g) t ltac:(apply H)) as Hr. pose proof (tp_cancel_grows (g_pool g) t) as Hg.
    rewrite Ec in Hr, Hg. by apply ginv_pool. }
  assert (Hf : freed g = false) by (destruct (freed g) eqn:E; [by rewrite (gi_lock g H E) in Hl|done]).
  assert (Hok : rc = LOOMWORKS_OK -> Cancelled t ∈ tp_log s) by (intros ->; by eapply tp_cancel_ok).
  clear H Ec. destruct Hs as [H1 H2 H3 [H4 H4'] [H5 H5'] [H6 H6'] H7 H8 H9 H10 H11].
  unfold current, todo, unfinished, current in *. simpl in *. rewrite Hl in *. apply NoDup_cons in H4 as [Ht H4].
  destruct (decide (rc = LOOMWORKS_OK)) as [->|Hne].
  2: { replace (match rc with LOOMWORKS_OK => _ | _ => with_pool g s end) with (with_pool g s) by (by destruct rc).
       split; unfold unfinished, current, todo; simpl; auto; try (by rewrite Hf).
       - clear. set_solver.
       - split; [done|]. clear -H4'. set_solver. }
  specialize (Hok eq_refl). assert (Htm : t ∈ mine g /\ (t ∉ revoked g)) by (clear -H4'; set_solver). destruct Htm as [Htm Htr].
  assert (Hnw : t ∉ dom (wrappers g)) by (intros Hw; by apply (tp_cancelled s t H1 Hok), H6').
  split; unfold unfinished, current, todo; simpl; auto; try (by rewrite Hf).
  - clear. set_solver.
  - split; [done|]. clear -H4' Ht. set_solver.
  - split; [clear -H5 Htm; set_solver|]. intros u [Hu|Hu]%elem_of_union; [by auto|]. apply elem_of_singleton in Hu. by subst.
  - intros u. rewrite elem_of_difference, elem_of_union, elem_of_singleton, H7. tauto.
  - rewrite H8, u32_sub_l. f_equal. rewrite <- (size_remove _ t) by (clear -Htm Htr Hnw; set_solver).
    do 2 f_equal. apply leibniz_equiv. clear. set_solver.
  - intros Hsm. rewrite H11 by done. simpl. apply bool_decide_eq_false. intros Hc. apply Hc, H7. split_and!; [done..|].
    intros Hw. apply Hnw, elem_of_dom. by eexists.
Qed.

Lemma ginv_cleared g d : ginv g -> lock g = LCancel d [] -> ginv (tracked_cleared g d).
Proof.
  intros [H1 H2 H3 H4 H5 H6 H7 H8 H9 H10 H11] Hl. unfold current, todo, unfinished, current in *. rewrite Hl in *.
  split; unfold unfinished, current, todo; simpl; auto.
Qed.

Lemma ginv_dec g t :
  ginv g -> lock g = LFree -> t ∈ mine g -> Started t ∈ tp_log (g_pool g) -> wrappers g !! t = None -> ginv (task_group_wrapper g t).
Proof.
  intros H Hl Hm Hs Hw. assert (Hc : current g = ∅) by (unfold current; by rewrite Hl).
  pose proof (started_live g t H Hm Hs Hw Hc) as Hu.
  assert (Hr : t ∉ revoked g) by (intros Hr; by apply (revoked_idle g t)).
  destruct H as [H1 H2 H3 [H4 H4'] H5 [H6 H6'] H7 H8 H9 H10 H11].
  assert (Hu' : unfinished (task_group_wrapper g t) = unfinished g ∖ {[t]}).
  { unfold unfinished, current. simpl. rewrite Hl, dom_insert_L. apply leibniz_equiv. clear. set_solver. }
  unfold current, todo in *. rewrite Hl in *.
  split; unfold current, todo; simpl; rewrite ?Hl, ?Hu'; auto.
  - clear. set_solver.
  - rewrite dom_insert_L. split; [clear -H6 Hm; set_solver|]. intros u [Hut|Hut]%elem_of_union; [|by auto].
    apply elem_of_singleton in Hut. by subst.
  - intros u. rewrite H7. destruct (decide (u = t)) as [-> |Hne]; [rewrite lookup_insert_eq, Hw|by rewrite lookup_insert_ne].
    split; intros (? & ? & _); split_and!; done.
  - rewrite H8, u32_sub_l, size_remove by done. done.
  - intros Hf Hsm. rewrite (H10 Hf Hsm). clear. set_solver.
  - intros Hsm. rewrite H11 by done. assert (Hf : freed g = false).
    { destruct (freed g) eqn:Ef; [|done]. rewrite (H10 eq_refl Hsm) in Hu. by apply elem_of_empty in Hu. }
    rewrite Hf. simpl. apply bool_decide_eq_false. intros Hn. apply Hn, H7. by rewrite Hw.
Qed.

Lemma ginv_wrapper_free g t : ginv g -> wrappers g !! t = Some WCounted -> ginv (wrapper_free g t).
Proof.
  intros H Hw. assert (Hd : t ∈ dom (wrappers g)) by (apply elem_of_dom; by eexists).
  assert (Hm : t ∈ mine g) by (by apply (gi_wr g H)).
  assert (Hr : t ∉ revoked g) by (intros Hr; apply (revoked_idle g t); [done..|by apply (gi_wr g H)]).
  destruct H as [H1 H2 H3 H4 H5 [H6 H6'] H7 H8 H9 H10 H11].
  assert (Hdom : dom (<[t := WFreed]> (wrappers g)) = dom (wrappers g)) by (rewrite dom_insert_L; set_solver).
  assert (Hu : unfinished (wrapper_free g t) = unfinished g) by (unfold unfinished; simpl; by rewrite Hdom).
  split; simpl; rewrite ?Hdom, ?Hu; auto.
  - intros u. rewrite elem_of_difference, elem_of_singleton, H7.
    destruct (decide (u = t)) as [-> |Hne]; [rewrite lookup_insert_eq|rewrite lookup_insert_ne by done]; naive_solver.
  - intros Hsm. rewrite H11 by done. simpl. apply bool_decide_eq_false. intros Hn. apply Hn, H7. by rewrite Hw.
Qed.

Lemma ginv_release g : ginv g -> lock g = LFree -> pending g <= 0 -> ginv (release g).
Proof.
  intros [H1 H2 H3 H4 H5 H6 H7 H8 H9 H10 H11] Hl Hp.
  split; simpl; auto. intros _ Hsm. change (unfinished (release g)) with (unfinished g).
  assert (Hle : (size (unfinished g) <= size (mine g))%nat) by (apply subseteq_size; unfold unfinished; clear; set_solver).
  rewrite u32_small in H8 by lia. apply leibniz_equiv, size_empty_iff. lia.
Qed.

Lemma unlocked_spec g : unlocked g = true -> lock g = LFree /\ freed g = false.
Proof. unfold unlocked. intros H. apply andb_prop in H as [H1 H2]. by apply bool_decide_eq_true in H1; apply negb_true_iff in H2. Qed.

Lemma current_free g : lock g = LFree -> current g = ∅.
Proof. unfold current. by intros ->. Qed.

Lemma ginv_step g ev g' : ginv g -> gstep g ev = Some g' -> ginv g'.
Proof.
  intros H Hs. destruct ev; simpl in Hs.
  - destruct (unlocked g) eqn:Eu; simplify_eq. apply unlocked_spec in Eu as [Hl Hf]. unfold loom_task_group_submit.
    repeat case_if; simpl; try done. apply ginv_lock; auto; [by apply current_free|unfold todo; by rewrite Hl].
  - destruct (lock g) eqn:Hl; try done. destruct (tp_exec (g_pool g) e) as [s|] eqn:He; [|done].
    destruct (tp_log s) as [|[t| | | | |] l] eqn:Hlog; try done. destruct (bool_decide _) eqn:Eb; simplify_eq.
    apply bool_decide_eq_true in Eb as ->. by eapply ginv_accept.
  - destruct (lock g) eqn:Hl; try done; destruct (bool_decide _) eqn:Eb; simplify_eq; [|by apply ginv_append].
    assert (Hf : freed g = false) by (destruct (freed g) eqn:E; [by rewrite (gi_lock g H E) in Hl|done]).
    apply ginv_lock; auto; [unfold current|unfold todo]; by rewrite Hl.
  - apply fmap_Some in Hs as (s & He & ->). apply ginv_pool; [done| |].
    + eapply tp_reach_exec; [apply H|done].
    + eapply tp_grows; [apply H|done].
  - destruct (unlocked g) eqn:Eu; simplify_eq. apply unlocked_spec in Eu as [Hl Hf].
    apply ginv_lock; auto; [by apply current_free|unfold todo; by rewrite Hl].
  - destruct on_worker; [by simplify_eq|]. destruct (unlocked g && _) eqn:Eu; simplify_eq. apply andb_prop in Eu as [Eu _].
    apply unlocked_spec in Eu as [Hl Hf].
    assert (H' : ginv (with_lock g (LCancel true (nodes g)))) by (apply ginv_lock; auto; [by apply current_free|unfold todo; by rewrite Hl]).
    destruct H'. by split.
  - destruct (lock g) as [| | |d [|t rest]] eqn:Hl; simplify_eq. by apply ginv_cancel_node.
  - destruct (lock g) as [| | |d [|t rest]] eqn:Hl; simplify_eq. by apply ginv_cleared.
  - destruct (unlocked g && _) eqn:Eu; simplify_eq. apply andb_prop in Eu as [Eu _]. apply unlocked_spec in Eu as [Hl Hf].
    case_if; zbool; [by apply ginv_waits|by apply ginv_release].
  - destruct (bool_decide _) eqn:Eb; simplify_eq. apply bool_decide_eq_true in Eb as (? & ? & ? & ?). by apply ginv_dec.
  - destruct (bool_decide _) eqn:Eb; simplify_eq. apply bool_decide_eq_true in Eb. by apply ginv_wrapper_free.
  - destruct (freed g); simplify_eq. by apply ginv_waits.
  - destruct (unlocked g && _); simplify_eq. by apply ginv_waits.
  - destruct (unlocked g && _); simplify_eq. by apply ginv_waits.
  - destruct (bool_decide _); simplify_eq. by apply ginv_waits.
  - destruct (bool_decide _); simplify_eq. by apply ginv_waits.
Qed.

Lemma ginv_run g evs g' : ginv g -> grun g evs = Some g' -> ginv g'.
Proof.
  revert g. induction evs as [|ev evs IH]; intros g H Hr; simpl in Hr; [by simplify_eq|].
  destruct (gstep g ev) eqn:Es; [|done]. eapply IH; [|exact Hr]. by eapply ginv_step.
Qed.

Lemma ginv_start s : tp_reach s -> ginv (group_start s).
Proof.
  intros Hs. split; unfold unfinished, current, todo; simpl; try done.
  all: try (intros t; rewrite ?lookup_empty, !elem_of_empty; tauto).
  split; [constructor|done].
Qed.

(** With nothing unfinished and nobody submitting, a sleeping waiter is not
    woken by anything but a spurious wake-up or its own deadline. *)
Definition quiet_event (i : nat) (ev : gevent Ev) : Prop :=
  match ev with GSubmit _ _ => False | GSpurious j | GTimeout j => j <> i | _ => True end.

Definition stranded (i : nat) g : Prop :=
  ginv g /\ unfinished g = ∅ /\ (lock g = LFree \/ exists d r, lock g = LCancel d r) /\ waiters g !! i = Some GAsleep.

Lemma stranded_step i g ev g' : stranded i g -> quiet_event i ev -> gstep g ev = Some g' -> stranded i g'.
Proof.
  intros (H & Hu & Hl & Hw) Hq Hs. assert (H' : ginv g') by (by eapply ginv_step).
  assert (Hc : current g = ∅) by (unfold current; destruct Hl as [-> |(d & r & ->)]; done).
  assert (Hkeep : forall g1, mine g1 = mine g -> revoked g1 = revoked g -> dom (wrappers g1) = dom (wrappers g) -> current g1 = ∅ -> unfinished g1 = ∅)
    by (intros g1 E1 E2 E3 E4; unfold unfinished in *; rewrite Hc in Hu; by rewrite E1, E2, E3, E4).
  destruct ev; simpl in Hs, Hq; try done.
  - destruct Hl as [E|(d & r & E)]; rewrite E in Hs; discriminate.
  - destruct Hl as [E|(d & r & E)]; rewrite E in Hs; discriminate.
  - apply fmap_Some in Hs as (s & He & ->). split_and!; auto.
  - destruct (unlocked g); simplify_eq. split_and!; auto. simpl. eauto.
  - destruct on_worker; [by simplify_eq|]. destruct (unlocked g && _); simplify_eq. split_and!; auto. simpl. eauto.
  - destruct (lock g) as [| | |d [|t rest]]; simplify_eq. split; [done|]. unfold task_group_cancel_node.
    destruct (tp_cancel (g_pool g) t) as [[] s]; simpl; (split; [|split; [by eauto|done]]); try (by apply Hkeep).
    unfold unfinished in *. simpl. rewrite Hc in Hu. change (current _) with (∅ : gset nat). apply leibniz_equiv. clear -Hu. set_solver.
  - destruct (lock g) as [| | |d [|t rest]]; simplify_eq. split_and!; auto.
  - destruct (unlocked g && _) eqn:Eu; simplify_eq. case_if; (split_and!; auto).
  - exfalso. destruct (bool_decide _) eqn:Eb; simplify_eq. apply bool_decide_eq_true in Eb as (? & ? & ? & ?).
    pose proof (started_live g t H ltac:(done) ltac:(done) ltac:(done) Hc) as Hin. rewrite Hu in Hin. by apply elem_of_empty in Hin.
  - destruct (bool_decide _) eqn:Eb; simplify_eq. apply bool_decide_eq_true in Eb. split_and!; auto. apply Hkeep; auto.
    simpl. rewrite dom_insert_L. apply elem_of_dom_2 in Eb. clear -Eb. set_solver.
  - destruct (freed g); simplify_eq. split_and!; auto. simpl. by apply lookup_app_l_Some.
  - destruct (unlocked g && bool_decide _) eqn:Eb; simplify_eq. apply andb_prop in Eb as [_ Eb]. apply bool_decide_eq_true in Eb.
    split_and!; auto. simpl. rewrite list_lookup_insert_ne; [done|congruence].
  - destruct (unlocked g && bool_decide _) eqn:Eb; simplify_eq. split_and!; auto. simpl. by rewrite list_lookup_insert_ne.
  - destruct (bool_decide _) eqn:Eb; simplify_eq. split_and!; auto. simpl. by rewrite list_lookup_insert_ne.
  - destruct (bool_decide _) eqn:Eb; simplify_eq. split_and!; auto.
Qed.

Lemma stranded_run i evs g g' : stranded i g -> Forall (quiet_event i) evs -> grun g evs = Some g' -> stranded i g'.
Proof.
  intros H Hq. revert g H. induction Hq as [|ev evs Hq _ IH]; intros g H Hr; simpl in Hr; [by simplify_eq|].
  destruct (gstep g ev) eqn:Es; [|done]. eapply IH; [|exact Hr]. by eapply stranded_step.
Qed.


End Preservation.
End Group.

(** ** The group on the pool of Pool.v *)

(** One submission through the ring, as the group sees it. *)
Definition group_submit (k : nat) : list (gevent pevent) :=
  [GSubmit true true; GPool (EvSubmit k demo_req false); GPool (EvCreate k true); GAccept (EvClaim k true true);
   GPool (EvPublish k); GPool (EvCount k); GPool (EvPost k); GSubmitRet LOOMWORKS_OK].

Definition demo_group : group pool := group_start (pool_start 0 8 1 1 true).

(** Two tasks: the first runs, the second is cancelled; then destroy. *)
Definition group_run : list (gevent pevent) :=
  group_submit 0 ++ group_submit 0 ++
  [GPool (EvPass 0 true); GWait false; GWaitTest 0; GDestroy false; GCancelNode; GCancelNode; GCancelEnd; GDestroyTest; GDec 3;
   GWaitTest 0; GDestroyTest; GPool (EvFinish 0)].



(** A task is submitted, a thread waits for the group, the group is cancelled. *)
Definition strand_run : list (gevent pevent) :=
  group_submit 0 ++ [GWait false; GWaitTest 0; GCancel; GCancelNode; GCancelEnd].

Lemma grun_app {S Ev} `{!TaskPool S Ev} (g : group S) (a b : list (gevent Ev)) :
  grun g (a ++ b) = match grun g a with Some g1 => grun g1 b | None => None end.
Proof. revert g. induction a as [|ev a IH]; intros g; [done|]. simpl. destruct (gstep g ev); [apply IH|done]. Qed.

Lemma strand_reached : exists g, grun demo_group strand_run = Some g /\ stranded 0 g.
Proof.
  destruct (grun demo_group strand_run) as [g|] eqn:E; [|vm_compute in E; discriminate E]. exists g. split; [done|].
  assert (H : (fun g => (lock g, waiters g, bool_decide (unfinished g = ∅))) <$> grun demo_group strand_run = Some (LFree, [GAsleep], true))
    by (vm_compute; reflexivity).
  rewrite E in H. cbn in H. injection H as H1 H2 H3. apply bool_decide_eq_true in H3.
  split; [by eapply ginv_run; [apply ginv_start, demo_pool_ok|exact E]|]. split_and!; [done|by left|by rewrite H2].
Qed.

(** loom_task_group_cancel can strand a waiter: it takes pending to zero
    without signalling done_cond, so a thread already asleep in
    loom_task_group_wait stays asleep although the group is drained: in every
    continuation, whatever the pool, the wrappers, other waiters, cancels and
    destroy do, as long as nothing new is submitted and the condition variable
    does not wake spuriously. *)
Theorem task_group_cancel_strands_waiter evs g :
  Forall (quiet_event 0) evs -> grun demo_group (strand_run ++ evs) = Some g ->
  waiters g !! 0%nat = Some GAsleep /\ pending g = 0.
Proof.
  intros Hq Hr. destruct strand_reached as (g0 & E & H0). rewrite grun_app, E in Hr.
  destruct (stranded_run 0 evs g0 g H0 Hq Hr) as (Hi & Hu & _ & Hw). split; [done|].
  by rewrite (gi_pending g Hi), Hu.
Qed.

Lemma task_group_cancel_strands_waiter_witness :
  exists g, grun demo_group (strand_run ++ [GPool (EvPass 0 true); GPool (EvPass 0 true)]) = Some g /\
    waiters g !! 0%nat = Some GAsleep /\ pending g = 0 /\ Pool.log (g_pool g) = [Released 2%nat; Cancelled 2%nat; Accepted 2%nat].
Proof.
  set (evs := [GPool (EvPass 0 true); GPool (EvPass 0 true)]).
  destruct (grun demo_group (strand_run ++ evs)) as [g|] eqn:E; [|vm_compute in E; discriminate E].
  assert (H : (fun g => Pool.log (g_pool g)) <$> grun demo_group (strand_run ++ evs) = Some [Released 2%nat; Cancelled 2%nat; Accepted 2%nat])
    by (vm_compute; reflexivity).
  rewrite E in H. cbn in H. injection H as H1.
  destruct (task_group_cancel_strands_waiter evs g ltac:(repeat constructor) E) as [Hw Hp].
  exists g. split; [reflexivity|]. exact (conj Hw (conj Hp H1)).
Defined.
