(* ===== verification/ResultTask.v ===== *)
(** * Result tasks (src/thread_pool.c: loom_pool_submit_future,
    loom_pool_submit_future_priority, future_task_wrapper, the reclaim of a
    context in worker_entry, and the release of a cancelled result task).

    A result task owns two heap objects besides its node: the context that
    future_task_wrapper is called with, and the future the client gets.  The
    context belongs to the submitter until the pool accepts the task, then to
    whoever ends it: the worker that ran it, the thread that finds the worker
    dead, or the one that releases the cancelled task.  The future belongs to
    the client, who may destroy it once it is ready.  The pool is any
    implementation of the contract in PoolContract.v, moving by arbitrary
    steps; a release recorded by such a step resolves the future and frees the
    context inside it, as the code does under the pool lock.

    Reading or freeing an object that is not live sets [fault]. *)
From S2P Require Import Prelude Types Pool PoolContract Future.

(** ** The submission *)

Inductive fblock := FFut | FMutex | FCond | FCtx.

#[export] Instance fblock_eq_dec : EqDecision fblock. Proof. solve_decision. Defined.

Definition drop_blocks (bs live : list fblock) : list fblock := filter (fun b => b ∉ bs) live.

(** loom_pool_submit_future and its priority variant up to enqueue_task: the
    code returned, or OK when enqueue_task is called, with the objects that are
    live then.  [args] = no argument that must not be NULL is NULL. *)
Definition loom_pool_submit_future (args : bool) (ok : fblock -> bool) : loom_result_t * list fblock :=
  if negb args then (LOOMWORKS_ERR_INVALID, [])
  else if negb (ok FFut) then (LOOMWORKS_ERR_ALLOC, [])
  else if negb (ok FMutex) then (LOOMWORKS_ERR_ALLOC, drop_blocks [FFut] [FFut])
  else if negb (ok FCond) then (LOOMWORKS_ERR_ALLOC, drop_blocks [FMutex; FFut] [FMutex; FFut])
  else if negb (ok FCtx) then (LOOMWORKS_ERR_ALLOC, drop_blocks [FMutex; FCond; FFut] [FCond; FMutex; FFut])
  else (LOOMWORKS_OK, [FCtx; FCond; FMutex; FFut]).

(** The same ladder, written out a second time in the source. *)
Definition loom_pool_submit_future_priority (args : bool) (ok : fblock -> bool) : loom_result_t * list fblock :=
  if negb args then (LOOMWORKS_ERR_INVALID, [])
  else if negb (ok FFut) then (LOOMWORKS_ERR_ALLOC, [])
  else if negb (ok FMutex) then (LOOMWORKS_ERR_ALLOC, drop_blocks [FFut] [FFut])
  else if negb (ok FCond) then (LOOMWORKS_ERR_ALLOC, drop_blocks [FMutex; FFut] [FMutex; FFut])
  else if negb (ok FCtx) then (LOOMWORKS_ERR_ALLOC, drop_blocks [FMutex; FCond; FFut] [FCond; FMutex; FFut])
  else (LOOMWORKS_OK, [FCtx; FCond; FMutex; FFut]).

(** ** State *)

(** A call of loom_pool_submit_future, and its client afterwards. *)
Inductive sub :=
  | SEnqueue                         (* inside enqueue_task *)
  | SAccepted (t : nat)              (* the pool has the task, the call has not returned *)
  | SHandle (t : nat)                (* returned OK: the client holds the future *)
  | SGone (t : nat)                  (* the client destroyed it *)
  | SFailed (rc : loom_result_t).

(** How a result task ended. *)
Inductive fate :=
  | FRan (v : ptr)                   (* the function returned [v] *)
  | FCrashed                         (* its worker died in it, the slot was claimed *)
  | FReleased.                       (* cancelled, and its node released *)

Inductive rphase :=
  | RQueued                          (* waiting, or started and not yet returned *)
  | RWrapped (v : ptr)               (* future resolved, the slot still names the context *)
  | RCrashed                         (* the worker died inside the function *)
  | RLate (v : ptr)                  (* it died after the wrapper, in a metrics callback *)
  | RDone (x : fate).

#[export] Instance sub_eq_dec : EqDecision sub. Proof. solve_decision. Defined.
#[export] Instance fate_eq_dec : EqDecision fate. Proof. solve_decision. Defined.
#[export] Instance rphase_eq_dec : EqDecision rphase. Proof. solve_decision. Defined.

(** Contexts and futures are named by the number of their submission. *)
Record results (S : Type) := mk_results {
  r_pool : S;
  calls : list (sub * rphase);
  ctxs : gset nat;                   (* contexts not freed *)
  futs : gmap nat loom_future;       (* futures not freed *)
  fault : bool;
}.
Arguments mk_results {S}. Arguments r_pool {S}. Arguments calls {S}. Arguments ctxs {S}. Arguments futs {S}. Arguments fault {S}.

Inductive revent (Ev : Type) :=
  | RSubmit (prio args : bool) (ok : fblock -> bool)   (* [prio] = the priority variant *)
  | RAccept (j : nat) (e : Ev)       (* the pool step that accepts call [j]'s task *)
  | RReturn (j : nat) (rc : loom_result_t)   (* enqueue_task returns *)
  | RPool (e : Ev)                   (* any other pool step *)
  | RFinish (j : nat) (v : ptr)      (* the function returned, the wrapper's critical section *)
  | RFree (j : nat)                  (* slot cleared, free(reclaim) *)
  | RCrash (j : nat)                 (* the worker's thread ends inside the function *)
  | RCrashLate (j : nat)             (* ... or in the callback of COMPLETED *)
  | RReclaim (j : nat)               (* the recovery scan or the shutdown join claims the slot *)
  | RDestroy (j : nat).              (* the client calls loom_future_destroy *)
Arguments RSubmit {Ev}. Arguments RAccept {Ev}. Arguments RReturn {Ev}. Arguments RPool {Ev}. Arguments RFinish {Ev}.
Arguments RFree {Ev}. Arguments RCrash {Ev}. Arguments RCrashLate {Ev}. Arguments RReclaim {Ev}. Arguments RDestroy {Ev}.

Definition task_of (s : sub) : option nat := match s with SAccepted t | SHandle t | SGone t => Some t | _ => None end.

(** The steps in which no thread ends inside a metrics callback. *)
Definition timely {Ev} (ev : revent Ev) : bool := match ev with RCrashLate _ => false | _ => true end.

Section Results.
Context {S Ev : Type} `{!TaskPool S Ev}.
Implicit Types (r : results S) (e : Ev).

(** ** Operations *)

Definition with_calls r (cs : list (sub * rphase)) : results S := mk_results (r_pool r) cs (ctxs r) (futs r) (fault r).
Definition with_pool r (s : S) : results S := mk_results s (calls r) (ctxs r) (futs r) (fault r).

(** A critical section on the future of call [j], reached through its
    context, with the resolution [q]. *)
Definition resolve_via r (j : nat) (q : resolution) : results S :=
  mk_results (r_pool r) (calls r) (ctxs r) (alter (resolve q) j (futs r))
    (fault r || bool_decide (j ∉ ctxs r) || bool_decide (futs r !! j = None)).

Definition free_ctx r (j : nat) : results S :=
  mk_results (r_pool r) (calls r) (ctxs r ∖ {[j]}) (futs r) (fault r || bool_decide (j ∉ ctxs r)).

Definition free_fut r (j : nat) : results S :=
  mk_results (r_pool r) (calls r) (ctxs r) (delete j (futs r)) (fault r || bool_decide (futs r !! j = None)).

Definition set_call r (j : nat) (x : sub * rphase) : results S := with_calls r (<[j := x]> (calls r)).

(** future_mark_cancelled followed by the free of the context. *)
Definition cancel_ctx r (j : nat) : results S := free_ctx (resolve_via r j RCancel) j.

Definition owner r (t : nat) : option (nat * (sub * rphase)) := list_find (fun x => task_of x.1 = Some t) (calls r).

(** The release of a cancelled task by a worker or a canceller. *)
Definition note r (o : outcome) : results S :=
  match o with
  | Released t => match owner r t with Some (j, x) => set_call (cancel_ctx r j) j (x.1, RDone FReleased) | None => r end
  | _ => r
  end.

(** A pool step: what it appended to the log, oldest first. *)
Definition absorb r (s : S) : results S :=
  foldr (fun o r => note r o) (with_pool r s) (take (length (tp_log s) - length (tp_log (r_pool r))) (tp_log s)).

(** The client's loom_future_destroy on a handle it holds. *)
Definition client_destroy r (j t : nat) (p : rphase) : results S :=
  match futs r !! j with
  | Some f =>
      match loom_future_destroy f with
      | (LOOMWORKS_OK, _) => set_call (free_fut r j) j (SGone t, p)
      | _ => r
      end
  | None => mk_results (r_pool r) (calls r) (ctxs r) (futs r) true
  end.

Definition rstep r (ev : revent Ev) : option (results S) :=
  match ev with
  | RSubmit prio args ok =>
      let j := length (calls r) in
      Some (match (if prio then loom_pool_submit_future_priority args ok else loom_pool_submit_future args ok) with
            | (LOOMWORKS_OK, _) =>
                mk_results (r_pool r) (calls r ++ [(SEnqueue, RQueued)]) (ctxs r ∪ {[j]}) (<[j := future_fields_init]> (futs r)) (fault r)
            | (rc, _) => with_calls r (calls r ++ [(SFailed rc, RQueued)])
            end)
  | RAccept j e =>
      match calls r !! j, tp_exec (r_pool r) e with
      | Some (SEnqueue, p), Some s =>
          match tp_log s with
          | Accepted t :: l =>
              if bool_decide (l = tp_log (r_pool r)) then Some (set_call (with_pool r s) j (SAccepted t, p)) else None
          | _ => None
          end
      | _, _ => None
      end
  | RReturn j rc =>
      match calls r !! j with
      | Some (SEnqueue, p) =>
          if bool_decide (rc = LOOMWORKS_OK) then None else Some (set_call (free_ctx (free_fut r j) j) j (SFailed rc, p))
      | Some (SAccepted t, p) => if bool_decide (rc = LOOMWORKS_OK) then Some (set_call r j (SHandle t, p)) else None
      | _ => None
      end
  | RPool e => absorb r <$> tp_exec (r_pool r) e
  | RFinish j v =>
      match calls r !! j with
      | Some (s, RQueued) =>
          match task_of s with
          | Some t =>
              if bool_decide (Started t ∈ tp_log (r_pool r)) then Some (set_call (resolve_via r j (RWrapper v)) j (s, RWrapped v))
              else None
          | None => None
          end
      | _ => None
      end
  | RFree j =>
      match calls r !! j with
      | Some (s, RWrapped v) => Some (set_call (free_ctx r j) j (s, RDone (FRan v)))
      | _ => None
      end
  | RCrash j =>
      match calls r !! j with
      | Some (s, RQueued) =>
          match task_of s with
          | Some t => if bool_decide (Started t ∈ tp_log (r_pool r)) then Some (set_call r j (s, RCrashed)) else None
          | None => None
          end
      | _ => None
      end
  | RCrashLate j => match calls r !! j with Some (s, RWrapped v) => Some (set_call r j (s, RLate v)) | _ => None end
  | RReclaim j =>
      match calls r !! j with
      | Some (s, RCrashed) | Some (s, RLate _) => Some (set_call (cancel_ctx r j) j (s, RDone FCrashed))
      | _ => None
      end
  | RDestroy j => match calls r !! j with Some (SHandle t, p) => Some (client_destroy r j t p) | _ => None end
  end.

Fixpoint rrun r (evs : list (revent Ev)) : option (results S) :=
  match evs with
  | [] => Some r
  | ev :: evs => match rstep r ev with Some r' => rrun r' evs | None => None end
  end.

Definition results_start (s : S) : results S := mk_results s [] ∅ ∅ false.

(** ** Invariant *)

Definition owes (x : sub * rphase) : bool := match x with (SFailed _, _) | (_, RDone _) => false | _ => true end.

Definition fields (p : rphase) : loom_future :=
  match p with
  | RQueued | RCrashed => future_fields_init
  | RWrapped v | RLate v | RDone (FRan v) => future_task_wrapper v future_fields_init
  | RDone _ => future_mark_cancelled future_fields_init
  end.

Definition kept (x : sub * rphase) : option loom_future :=
  match x.1 with SFailed _ | SGone _ => None | _ => Some (fields x.2) end.

(** What the pool's history says of a call. *)
Definition log_ok (L : list outcome) (x : sub * rphase) : Prop :=
  match task_of x.1 with
  | None => x.2 = RQueued
  | Some t =>
      Accepted t ∈ L /\
      match x.2 with
      | RQueued => Released t ∉ L
      | RDone FReleased => Released t ∈ L
      | RLate _ => False
      | _ => Started t ∈ L
      end /\
      (x.1 = SGone t -> x.2 <> RQueued /\ x.2 <> RCrashed)
  end.

(** The store is the one the calls account for; [L] is the part of the pool's
    history taken into account. *)
Record rinv (L : list outcome) r : Prop := {
  ri_ctx : forall j, j ∈ ctxs r <-> exists x, calls r !! j = Some x /\ owes x = true;
  ri_fut : forall j, futs r !! j = calls r !! j ≫= kept;
  ri_log : forall j x, calls r !! j = Some x -> log_ok L x;
  ri_inj : forall i j x y t,
    calls r !! i = Some x -> calls r !! j = Some y -> task_of x.1 = Some t -> task_of y.1 = Some t -> i = j;
  ri_fault : fault r = false;
}.

(** One call changes, and the objects named by it follow. *)
Lemma rinv_set L L' r j x x' s C F b :
  rinv L r -> calls r !! j = Some x -> log_ok L' x' -> (forall i y, i <> j -> calls r !! i = Some y -> log_ok L' y) -> b = false ->
  (forall t, task_of x'.1 = Some t -> task_of x.1 = Some t \/ forall i y, calls r !! i = Some y -> task_of y.1 <> Some t) ->
  (forall i, i ∈ C <-> if decide (i = j) then owes x' = true else i ∈ ctxs r) ->
  (forall i, F !! i = if decide (i = j) then kept x' else futs r !! i) ->
  rinv L' (mk_results s (<[j := x']> (calls r)) C F b).
Proof.
  intros [H1 H2 _ H4 H5] Hj Hl Hl' -> Ht HC HF.
  pose proof (lookup_lt_Some _ _ _ Hj) as Hlt. split; simpl; [| | | |done].
  - intros i. rewrite HC. destruct (decide (i = j)) as [->|Hn].
    + rewrite list_lookup_insert_eq by done. split; [by eexists|]. by intros (y & [= ->] & Hy).
    + by rewrite list_lookup_insert_ne by done.
  - intros i. rewrite HF. destruct (decide (i = j)) as [->|Hn]; [by rewrite list_lookup_insert_eq|].
    by rewrite list_lookup_insert_ne by done.
  - intros i y [(-> & <- & _)|[Hij Hy]]%list_lookup_insert_Some; [done|]. eapply Hl'; [by apply not_eq_sym|done].
  - intros i k y z t [(-> & <- & _)|[Hi Hy]]%list_lookup_insert_Some [(-> & <- & _)|[Hk Hz]]%list_lookup_insert_Some Hty Htz; [done| | |by eauto].
    + destruct (Ht t Hty) as [Hx|Hx]; [by eapply H4|]. by destruct (Hx k z Hz).
    + destruct (Ht t Htz) as [Hx|Hx]; [by eapply H4|]. by destruct (Hx i y Hy).
Qed.

Lemma live_ctx L r j x : rinv L r -> calls r !! j = Some x -> owes x = true -> bool_decide (j ∉ ctxs r) = false.
Proof. intros [H1 _ _ _ _] Hj Ho. apply bool_decide_eq_false. intros Hn. apply Hn, H1. by eexists. Qed.

Lemma live_fut L r j x f : rinv L r -> calls r !! j = Some x -> kept x = Some f -> futs r !! j = Some f.
Proof. intros [_ H2 _ _ _] Hj Hk. by rewrite H2, Hj. Qed.

(** future_mark_cancelled and the free of the context, on a call that owes
    its context and whose future is not resolved. *)
Lemma rinv_cancel L L' r j s p :
  rinv L r -> calls r !! j = Some (s, p) -> owes (s, p) = true -> fields p = future_fields_init ->
  (forall t, s <> SGone t) -> (forall i y, i <> j -> calls r !! i = Some y -> log_ok L' y) ->
  forall y, log_ok L' (s, RDone y) -> y = FCrashed \/ y = FReleased ->
  rinv L' (set_call (cancel_ctx r j) j (s, RDone y)).
Proof.
  intros Hi Hj Ho Hf Hs Hl' y Hl Hy. pose proof (ri_fault _ _ Hi) as Hfa.
  assert (Hk : kept (s, p) = Some future_fields_init) by (unfold kept; simpl; rewrite Hf; destruct s; naive_solver).
  pose proof (live_fut _ _ _ _ _ Hi Hj Hk) as Hfj. pose proof (live_ctx _ _ _ _ Hi Hj Ho) as Hcj.
  unfold set_call, cancel_ctx, free_ctx, resolve_via, with_calls. simpl.
  eapply rinv_set; [done|done|done|done| |by left| |].
  - rewrite Hfa, Hcj, Hfj. done.
  - intros i. rewrite elem_of_difference, elem_of_singleton. destruct (decide (i = j)); [|tauto]. destruct s; simpl; naive_solver.
  - intros i. destruct (decide (i = j)) as [->|]; [|by rewrite lookup_alter_ne].
    rewrite lookup_alter_eq, Hfj. unfold kept. destruct s, Hy as [-> | ->]; naive_solver.
Qed.

Lemma log_ok_cons L o x : log_ok L x -> (forall t, task_of x.1 = Some t -> o <> Released t) -> log_ok (o :: L) x.
Proof.
  unfold log_ok. destruct (task_of x.1) as [t|] eqn:Et; [|done]. intros (H1 & H2 & H3) Hn. rewrite !elem_of_cons.
  split_and!; [by right| |done]. destruct x.2 as [| | | |[]]; rewrite ?elem_of_cons; try tauto.
  intros [Ho|Ho]; [by eapply Hn|done].
Qed.

(** A call whose task was neither started nor released is still queued. *)
Lemma untouched_queued L x t :
  log_ok L x -> task_of x.1 = Some t -> (Started t ∉ L) -> (Released t ∉ L) -> x.2 = RQueued /\ x.1 <> SGone t.
Proof. unfold log_ok. intros Hl Ht. rewrite Ht in Hl. destruct x as [s [| | | |[]]]; simpl in *; naive_solver. Qed.

Lemma rinv_note L r o :
  rinv L r -> (forall t, o = Released t -> (Started t ∉ L) /\ (Released t ∉ L)) -> rinv (o :: L) (note r o).
Proof.
  intros Hi Hn.
  assert (Hkeep : (forall i x t, calls r !! i = Some x -> task_of x.1 = Some t -> o <> Released t) -> rinv (o :: L) r).
  { intros Hk. destruct Hi as [H1 H2 H3 H4 H5]. split; [done..| |done|done]. intros j x Hj. apply log_ok_cons; [by eapply H3|]. by eauto. }
  destruct o as [| | | | |t]; try (apply Hkeep; naive_solver). simpl. unfold owner.
  destruct (list_find _ (calls r)) as [[j [s p]]|] eqn:Ef.
  - apply list_find_Some in Ef as (Hj & Ht & _). simpl in Ht. destruct (Hn t eq_refl) as [Hs Hr].
    destruct (untouched_queued _ _ _ (ri_log _ _ Hi _ _ Hj) Ht Hs Hr) as [Hp Hg]. simpl in Hp, Hg |- *. subst p.
    eapply rinv_cancel; [done|exact Hj|by destruct s|done| | | |by right].
    + intros u ->. simpl in Ht. congruence.
    + intros i y Hij Hy. apply log_ok_cons; [by eapply Hi|]. intros u Hu [= ->]. by eapply Hij, (ri_inj _ _ Hi).
    + pose proof (ri_log _ _ Hi _ _ Hj) as Hl. unfold log_ok in Hl |- *. simpl in Hl |- *. rewrite Ht in Hl |- *.
      split_and!; [by right; apply Hl|by left|done].
  - apply Hkeep. intros i x u Hx Hu [= ->]. apply list_find_None in Ef. rewrite Forall_lookup in Ef. by eapply Ef.
Qed.
(** ** Preservation *)

Section Preservation.
Context `{!TaskPoolLaws S Ev}.

Lemma note_pool r o : r_pool (note r o) = r_pool r.
Proof. destruct o; try done. simpl. by destruct (owner r t) as [[]|]. Qed.

Lemma absorb_pool r s : r_pool (absorb r s) = s.
Proof. unfold absorb. induction (take _ _) as [|o d IH]; [done|]. simpl. by rewrite note_pool. Qed.

Lemma rinv_with_pool L r s : rinv L r -> rinv L (with_pool r s).
Proof. intros [H1 H2 H3 H4 H5]. by split. Qed.

(** Any move of the pool that keeps its contract and only adds to its history. *)
Lemma rinv_absorb r s :
  tp_reach s -> tp_log (r_pool r) `suffix_of` tp_log s -> rinv (tp_log (r_pool r)) r -> rinv (tp_log s) (absorb r s).
Proof.
  intros Hr' [d Hd] Hi. unfold absorb. rewrite Hd, length_app, Nat.add_sub, take_app_length.
  assert (Hall : forall d2 d1, tp_log s = d1 ++ d2 ++ tp_log (r_pool r) ->
            rinv (d2 ++ tp_log (r_pool r)) (foldr (fun o r => note r o) (with_pool r s) d2)).
  { induction d2 as [|o d2 IH]; intros d1 Hl; simpl; [by apply rinv_with_pool|].
    apply rinv_note; [apply (IH (d1 ++ [o])); by rewrite <- app_assoc|]. intros t ->.
    destruct (tp_release_once _ _ _ _ Hr' Hl) as [Hst Hre]. split; [|done]. intros Hin. apply Hst, elem_of_app. by right. }
  by apply (Hall d []).
Qed.

Definition rgood r : Prop := tp_reach (r_pool r) /\ rinv (tp_log (r_pool r)) r.

(** A call moves on without touching its objects. *)
Lemma rgood_call r j x x' s :
  tp_reach s -> rinv (tp_log s) r -> calls r !! j = Some x -> log_ok (tp_log s) x' -> owes x' = owes x -> kept x' = kept x ->
  (forall t, task_of x'.1 = Some t -> task_of x.1 = Some t \/ forall i y, calls r !! i = Some y -> task_of y.1 <> Some t) ->
  rgood (mk_results s (<[j := x']> (calls r)) (ctxs r) (futs r) (fault r)).
Proof.
  intros Hr Hi Hj Hl Ho Hk Ht. split; [done|]. simpl.
  eapply rinv_set; [done|done|done|by intros; eapply Hi|by apply Hi|done| |].
  - intros i. destruct (decide (i = j)) as [->|]; [|done]. rewrite Ho, (ri_ctx _ _ Hi), Hj. naive_solver.
  - intros i. destruct (decide (i = j)) as [->|]; [|done]. by rewrite Hk, (ri_fut _ _ Hi), Hj.
Qed.

Lemma rinv_push L r x C F :
  rinv L r -> log_ok L x -> task_of x.1 = None ->
  (forall i, i ∈ C <-> if decide (i = length (calls r)) then owes x = true else i ∈ ctxs r) ->
  (forall i, F !! i = if decide (i = length (calls r)) then kept x else futs r !! i) ->
  rinv L (mk_results (r_pool r) (calls r ++ [x]) C F (fault r)).
Proof.
  intros [H1 H2 H3 H4 H5] Hl Ht HC HF. split; simpl; [| | | |done].
  - intros i. rewrite HC. destruct (decide (i = length (calls r))) as [->|].
    + rewrite lookup_app_r, Nat.sub_diag by lia. simpl. split; [by eexists|]. by intros (y & [= ->] & ?).
    + rewrite H1. destruct (decide (i < length (calls r))%nat); [by rewrite lookup_app_l|].
      rewrite lookup_app_r by lia. rewrite lookup_ge_None_2 by lia. rewrite lookup_ge_None_2 by (simpl; lia). done.
  - intros i. rewrite HF. destruct (decide (i = length (calls r))) as [->|].
    + by rewrite lookup_app_r, Nat.sub_diag by lia.
    + rewrite H2. destruct (decide (i < length (calls r))%nat); [by rewrite lookup_app_l|].
      rewrite lookup_app_r by lia. rewrite lookup_ge_None_2 by lia. by rewrite lookup_ge_None_2 by (simpl; lia).
  - intros i y [[_ Hy]|[_ <-]]%lookup_snoc_Some; [by eapply H3|done].
  - intros i j y z t Hy Hz Hty Htz. apply lookup_snoc_Some in Hy as [[_ Hy]|[_ <-]]; [|congruence].
    apply lookup_snoc_Some in Hz as [[_ Hz]|[_ <-]]; [|congruence]. by eapply H4.
Qed.

Lemma rgood_submit r prio args ok r' : rgood r -> rstep r (RSubmit prio args ok) = Some r' -> rgood r'.
Proof.
  intros [Hr Hi] Hs. simpl in Hs. injection Hs as <-. unfold loom_pool_submit_future, loom_pool_submit_future_priority.
  assert (Hout : forall i, (i < length (calls r))%nat \/ (i ∉ ctxs r) /\ futs r !! i = None).
  { intros i. destruct (decide (i < length (calls r))%nat); [by left|right].
    rewrite (ri_fut _ _ Hi), (ri_ctx _ _ Hi), lookup_ge_None_2 by lia. split; [naive_solver|done]. }
  assert (Hlen : (length (calls r) ∉ ctxs r) /\ futs r !! length (calls r) = None) by (destruct (Hout (length (calls r))); [lia|done]).
  repeat case_if; simpl; (split; [done|]); apply rinv_push; try done; intros i; destruct (decide (i = length (calls r))) as [->|]; simpl;
    rewrite ?elem_of_union, ?elem_of_singleton, ?lookup_insert_eq, ?lookup_insert_ne by done; try done; set_solver.
Qed.

Lemma rgood_accept r j e r' : rgood r -> rstep r (RAccept j e) = Some r' -> rgood r'.
Proof.
  intros [Hr Hi] Hs. simpl in Hs. destruct (calls r !! j) as [[[] p]|] eqn:Ej; try done.
  destruct (tp_exec (r_pool r) e) as [s|] eqn:He; [|done]. destruct (tp_log s) as [|[t| | | | |] l] eqn:El; try done.
  case_bool_decide; [|done]. injection Hs as <-. subst l.
  assert (Hr' : tp_reach s) by (by eapply tp_reach_exec).
  assert (Hnew : Accepted t ∉ tp_log (r_pool r)) by (by eapply tp_fresh).
  assert (Hp : p = RQueued) by (by pose proof (ri_log _ _ Hi _ _ Ej)). subst p.
  assert (Hi' : rinv (tp_log s) r).
  { pose proof (rinv_note _ _ (Accepted t) Hi) as H. rewrite El. apply H. done. }
  apply (rgood_call r j (SEnqueue, RQueued)); [done..| |done|done|].
  - unfold log_ok. simpl. rewrite El, !elem_of_cons. split_and!; [by left| |done]. intros [?|Hrel]; [done|].
    by apply Hnew, tp_released.
  - simpl. intros u [= <-]. right. intros i y Hy Hu. pose proof (ri_log _ _ Hi _ _ Hy) as Hl. unfold log_ok in Hl.
    rewrite Hu in Hl. by apply Hnew, Hl.
Qed.

Lemma rgood_return r j rc r' : rgood r -> rstep r (RReturn j rc) = Some r' -> rgood r'.
Proof.
  intros [Hr Hi] Hs. simpl in Hs. destruct (calls r !! j) as [[[] p]|] eqn:Ej; try done; case_bool_decide; simplify_eq.
  - assert (Hp : p = RQueued) by (by pose proof (ri_log _ _ Hi _ _ Ej)). subst p.
    pose proof (live_fut _ _ _ _ _ Hi Ej eq_refl) as Hf. pose proof (live_ctx _ _ _ _ Hi Ej eq_refl) as Hc.
    split; [done|]. apply (rinv_set (tp_log (r_pool r)) _ r j (SEnqueue, RQueued)); [done|exact Ej|done|by intros; eapply Hi| |done| |]; simpl.
    + by rewrite (ri_fault _ _ Hi), Hf, Hc.
    + intros i. rewrite elem_of_difference, elem_of_singleton. destruct (decide (i = j)); naive_solver.
    + intros i. destruct (decide (i = j)) as [->|]; [by rewrite lookup_delete_eq|by rewrite lookup_delete_ne].
  - apply (rgood_call r j (SAccepted t, p)); [done..| |by destruct p|done|by left].
    pose proof (ri_log _ _ Hi _ _ Ej) as Hl. unfold log_ok in Hl |- *. simpl in *. naive_solver.
Qed.

(** The steps on a started task: in each the call is the one found, and its
    task is in the log. *)
Lemma rgood_finish r j v r' : rgood r -> rstep r (RFinish j v) = Some r' -> rgood r'.
Proof.
  intros [Hr Hi] Hs. simpl in Hs. destruct (calls r !! j) as [[s []]|] eqn:Ej; try done.
  destruct (task_of s) as [t|] eqn:Et; [|done]. case_bool_decide as Hst; simplify_eq.
  pose proof (ri_log _ _ Hi _ _ Ej) as Hl. unfold log_ok in Hl. simpl in Hl. rewrite Et in Hl. destruct Hl as (Ha & _ & Hg).
  assert (Hk : kept (s, RQueued) = Some future_fields_init) by (destruct s; try done; simplify_eq; naive_solver).
  assert (Ho : owes (s, RQueued) = true) by (by destruct s).
  pose proof (live_fut _ _ _ _ _ Hi Ej Hk) as Hf. pose proof (live_ctx _ _ _ _ Hi Ej Ho) as Hc.
  split; [done|]. apply (rinv_set (tp_log (r_pool r)) _ r j (s, RQueued)); [done|done| |by intros; eapply Hi| |by left| |]; simpl.
  - unfold log_ok. simpl. rewrite Et. split_and!; [done|done|]. by intros; simplify_eq; naive_solver.
  - by rewrite (ri_fault _ _ Hi), Hf, Hc.
  - intros i. destruct (decide (i = j)) as [->|]; [|done]. rewrite (ri_ctx _ _ Hi), Ej. destruct s; naive_solver.
  - intros i. destruct (decide (i = j)) as [->|]; [|by rewrite lookup_alter_ne].
    rewrite lookup_alter_eq, Hf. destruct s; try done; simplify_eq; naive_solver.
Qed.

Lemma rgood_free r j r' : rgood r -> rstep r (RFree j) = Some r' -> rgood r'.
Proof.
  intros [Hr Hi] Hs. simpl in Hs. destruct (calls r !! j) as [[s []]|] eqn:Ej; try done. simplify_eq.
  pose proof (ri_log _ _ Hi _ _ Ej) as Hl. assert (Ho : owes (s, RWrapped v) = true) by (by destruct s).
  pose proof (live_ctx _ _ _ _ Hi Ej Ho) as Hc.
  split; [done|]. apply (rinv_set (tp_log (r_pool r)) _ r j (s, RWrapped v)); [done|done| |by intros; eapply Hi| |by left| |]; simpl.
  - unfold log_ok in *. simpl in *. destruct (task_of s); [naive_solver|done].
  - by rewrite (ri_fault _ _ Hi), Hc.
  - intros i. rewrite elem_of_difference, elem_of_singleton. destruct (decide (i = j)); [|tauto]. destruct s; naive_solver.
  - intros i. destruct (decide (i = j)) as [->|]; [|done]. by rewrite (ri_fut _ _ Hi), Ej.
Qed.

Lemma rgood_crash r j r' : rgood r -> rstep r (RCrash j) = Some r' -> rgood r'.
Proof.
  intros [Hr Hi] Hs. simpl in Hs. destruct (calls r !! j) as [[s []]|] eqn:Ej; try done.
  destruct (task_of s) as [t|] eqn:Et; [|done]. case_bool_decide; simplify_eq.
  pose proof (ri_log _ _ Hi _ _ Ej) as Hl. unfold log_ok in Hl. simpl in Hl. rewrite Et in Hl.
  apply (rgood_call r j (s, RQueued)); [done..| |by destruct s|by destruct s|by left].
  unfold log_ok. simpl. rewrite Et. naive_solver.
Qed.

Lemma rgood_reclaim r j r' : rgood r -> rstep r (RReclaim j) = Some r' -> rgood r'.
Proof.
  intros [Hr Hi] Hs. simpl in Hs. destruct (calls r !! j) as [[s p]|] eqn:Ej; [|done].
  pose proof (ri_log _ _ Hi _ _ Ej) as Hl. unfold log_ok in Hl. simpl in Hl.
  destruct (task_of s) as [t|] eqn:Et; destruct p; simplify_eq; [|naive_solver]. split; [done|].
  apply (rinv_cancel (tp_log (r_pool r)) _ r j s RCrashed); [done|done|by destruct s|done| |by intros; eapply Hi| |by left].
  - intros u ->. simpl in Et. simplify_eq. naive_solver.
  - unfold log_ok. simpl. rewrite Et. naive_solver.
Qed.

Lemma rgood_destroy r j r' : rgood r -> rstep r (RDestroy j) = Some r' -> rgood r'.
Proof.
  intros [Hr Hi] Hs. simpl in Hs. destruct (calls r !! j) as [[[] p]|] eqn:Ej; try done. simplify_eq. unfold client_destroy.
  pose proof (live_fut _ _ _ _ _ Hi Ej eq_refl) as Hf. simpl in Hf. rewrite Hf. unfold loom_future_destroy. destruct (negb (ready (fields p))) eqn:Hd; [by split|].
  split; [done|]. apply (rinv_set (tp_log (r_pool r)) _ r j (SHandle t, p)); [done|done| |by intros; eapply Hi| |by left| |]; simpl.
  - pose proof (ri_log _ _ Hi _ _ Ej) as Hl. unfold log_ok in Hl |- *. simpl in *. destruct Hl as (H1 & H2 & _). split_and!; [done|done|].
    intros _. by destruct p.
  - by rewrite (ri_fault _ _ Hi), Hf.
  - intros i. destruct (decide (i = j)) as [->|]; [|done]. rewrite (ri_ctx _ _ Hi), Ej. destruct p; naive_solver.
  - intros i. destruct (decide (i = j)) as [->|]; [by rewrite lookup_delete_eq|by rewrite lookup_delete_ne].
Qed.

Lemma rgood_step r ev r' : timely ev = true -> rgood r -> rstep r ev = Some r' -> rgood r'.
Proof.
  intros Ht Hg Hs. destruct ev as [prio args ok|j e|j rc|e|j v|j|j|j|j|j]; [| | | | | | |done| |].
  - by apply (rgood_submit r prio args ok).
  - by apply (rgood_accept r j e).
  - by apply (rgood_return r j rc).
  - apply fmap_Some in Hs as (s & He & ->). destruct Hg as [Hr Hi].
    split; rewrite absorb_pool; [by eapply tp_reach_exec|]. apply rinv_absorb; [by eapply tp_reach_exec|by eapply tp_grows|done].
  - by apply (rgood_finish r j v).
  - by apply (rgood_free r j).
  - by apply (rgood_crash r j).
  - by apply (rgood_reclaim r j).
  - by apply (rgood_destroy r j).
Qed.

Lemma rgood_run evs : forall r r', rgood r -> forallb timely evs = true -> rrun r evs = Some r' -> rgood r'.
Proof.
  induction evs as [|ev evs IH]; intros r r' Hg Ht Hr; simpl in *; [by simplify_eq|].
  destruct (rstep r ev) as [r1|] eqn:E; [|done]. apply andb_prop in Ht as [Ht1 Ht2]. eapply IH; [by eapply rgood_step|done|done].
Qed.

Lemma rgood_start s : tp_reach s -> rgood (results_start s).
Proof.
  intros Hr. split; [done|]. split; simpl; try done. intros j. rewrite elem_of_empty. split; [done|].
  intros (x & Hx & _). by rewrite lookup_nil in Hx.
Qed.

(** A started task is not released. *)
Lemma started_unreleased s t : tp_reach s -> Started t ∈ tp_log s -> (Released t ∉ tp_log s).
Proof.
  intros Hr Hst (l1 & l2 & Hl)%list_elem_of_split. destruct (tp_release_once _ _ _ _ Hr Hl) as [Hn _].
  rewrite Hl, elem_of_app, elem_of_cons in Hst. apply Hn, elem_of_app. destruct Hst as [?|[?|?]]; [by left|done|by right].
Qed.

(** What the client of a handle gets from its future. *)
Definition promised (p : rphase) (f : loom_future) : Prop :=
  match p with
  | RWrapped v | RDone (FRan v) => ready f = true /\ wait_outcome f = (LOOMWORKS_OK, v)
  | RDone _ => ready f = true /\ wait_outcome f = (LOOMWORKS_ERR_CANCELLED, NULL)
  | _ => ready f = false
  end.


End Preservation.
End Results.

(** ** Runs over the pool of Pool.v *)

Definition all_ok : fblock -> bool := fun _ => true.

(** A ring submission of producer 0 by call [j]. *)
Definition result_submit (j : nat) : list (revent pevent) :=
  [RSubmit false true all_ok; RPool (EvSubmit 0 demo_req false); RPool (EvCreate 0 true); RAccept j (EvClaim 0 true true);
   RPool (EvPublish 0); RPool (EvCount 0); RPool (EvPost 0); RReturn j LOOMWORKS_OK].

Definition result_run : list (revent pevent) :=
  result_submit 0 ++ result_submit 1 ++
  [RPool (EvCancelId 2); RPool (EvPass 0 true); RFinish 1 77; RDestroy 1; RFree 1; RPool (EvFinish 0); RPool (EvPass 0 true);
   RSubmit true true (fun b => negb (bool_decide (b = FCtx)))].


(** The exclusion of the metrics callbacks is needed: the slot names the
    context until after COMPLETED was fired, although the wrapper has resolved
    the future by then.  When the worker's thread ends in that callback, the
    claim of the slot cancels a future that already delivered its value, and
    touches freed memory when the client has destroyed it. *)
Theorem late_crash_touches_freed_future :
  exists evs r, rrun (results_start (pool_start 0 8 1 1 true)) evs = Some r /\
    calls r !! 0%nat = Some (SGone 2, RDone FCrashed) /\ fault r = true.
Proof.
  exists (result_submit 0 ++ [RPool (EvPass 0 true); RFinish 0 77; RDestroy 0; RCrashLate 0; RReclaim 0]).
  eexists. split; [vm_compute; reflexivity|]. by split.
Qed.

(** A submission that does not reach the pool keeps none of the objects it
    acquired, and one that does has them all. *)
Lemma submit_future_all_or_nothing (prio args : bool) ok :
  let '(rc, live) := if prio then loom_pool_submit_future_priority args ok else loom_pool_submit_future args ok in
  if args && forallb ok [FFut; FMutex; FCond; FCtx] then rc = LOOMWORKS_OK /\ live = [FCtx; FCond; FMutex; FFut]
  else rc <> LOOMWORKS_OK /\ live = [].
Proof.
  unfold loom_pool_submit_future, loom_pool_submit_future_priority. simpl. by destruct prio, args, (ok FFut), (ok FMutex), (ok FCond), (ok FCtx).
Qed.
