(* ===== verification/GroupFuture.v ===== *)
(** * Groups of result tasks (src/task_group.c: loom_task_group_submit_future
    and task_group_future_wrapper, on top of loom_pool_submit_future).

    The result tasks of ResultTask.v are again a pool that keeps the contract of
    PoolContract.v: its history is that of the pool below, and a cancellation by
    id also resolves the future when it releases the task.  So a group whose
    tasks carry results is the group of TaskGroup.v on that pool, and the
    theorems of both files hold of it.  Its function is
    task_group_future_wrapper, which counts the task and frees the group's
    context before it hands the value to future_task_wrapper: that order is the
    guard of [fgstep].  Plain submissions to the same group are allowed.

    As in ResultTask.v, no worker's thread ends inside a metrics callback. *)
From S2P Require Import Prelude Types Pool PoolContract Future ResultTask TaskGroup.

Section GroupFuture.
Context {S Ev : Type} `{!TaskPool S Ev}.
Implicit Types (r : results S) (g : group (results S)).

(** ** Result tasks keep the contract *)

(** loom_pool_cancel_by_id, with what the release of a result task does. *)
Definition result_cancel r (t : nat) : loom_result_t * results S :=
  let '(rc, s) := tp_cancel (r_pool r) t in (rc, absorb r s).

#[export] Instance results_pool : TaskPool (results S) (revent Ev) := {|
  tp_log := fun r => tp_log (r_pool r);
  tp_exec := fun r ev => if timely ev then rstep r ev else None;
  tp_cancel := result_cancel;
|}.

Section Laws.
Context `{!TaskPoolLaws S Ev}.

Lemma rstep_pool r ev r' :
  rstep r ev = Some r' -> r_pool r' = r_pool r \/ exists e, tp_exec (r_pool r) e = Some (r_pool r').
Proof.
  intros Hs. destruct ev as [prio args ok|j e|j rc|e|j v|j|j|j|j|j]; simpl in Hs.
  - left. injection Hs as <-. by destruct (if prio then _ else _) as [[] ?].
  - right. exists e. destruct (calls r !! j) as [[[] p]|]; try done. destruct (tp_exec (r_pool r) e) as [s|]; [|done].
    destruct (tp_log s) as [|[] l]; try done. by case_bool_decide; simplify_eq.
  - left. destruct (calls r !! j) as [[[] p]|]; try done; by case_bool_decide; simplify_eq.
  - right. exists e. apply fmap_Some in Hs as (s & He & ->). by rewrite absorb_pool.
  - left. destruct (calls r !! j) as [[s []]|]; try done. destruct (task_of s); [|done]. by case_bool_decide; simplify_eq.
  - left. destruct (calls r !! j) as [[s []]|]; try done. by simplify_eq.
  - left. destruct (calls r !! j) as [[s []]|]; try done. destruct (task_of s); [|done]. by case_bool_decide; simplify_eq.
  - left. destruct (calls r !! j) as [[s []]|]; try done. by simplify_eq.
  - left. destruct (calls r !! j) as [[s []]|]; try done; by simplify_eq.
  - left. destruct (calls r !! j) as [[[] p]|]; try done. simplify_eq. unfold client_destroy.
    destruct (futs r !! j); [|done]. by destruct (loom_future_destroy _) as [[] ?].
Qed.

Lemma rgood_cancel r t : rgood r -> rgood (result_cancel r t).2.
Proof.
  intros [Hr Hi]. unfold result_cancel. pose proof (tp_reach_cancel (r_pool r) t Hr) as Hr'.
  pose proof (tp_cancel_grows (r_pool r) t) as Hg. destruct (tp_cancel (r_pool r) t) as [rc s]. simpl in *.
  split; rewrite absorb_pool; [done|by apply rinv_absorb].
Qed.

Lemma cancel_pool r t : r_pool (result_cancel r t).2 = (tp_cancel (r_pool r) t).2 /\ (result_cancel r t).1 = (tp_cancel (r_pool r) t).1.
Proof. unfold result_cancel. destruct (tp_cancel (r_pool r) t) as [rc s]. by rewrite <- (absorb_pool r s) at 2. Qed.

#[export] Program Instance results_pool_laws : TaskPoolLaws (results S) (revent Ev) := {| tp_reach := rgood |}.
Next Obligation. intros r ev r' Hg Hs. simpl in Hs. destruct (timely ev) eqn:Ht; [by eapply rgood_step|done]. Qed.
Next Obligation. intros r t. apply rgood_cancel. Qed.
Next Obligation.
  intros r ev r' [Hr _] Hs. simpl in *. destruct (timely ev); [|done]. destruct (rstep_pool _ _ _ Hs) as [->|[e He]]; [done|by eapply tp_grows].
Qed.
Next Obligation. intros r t. simpl. destruct (cancel_pool r t) as [-> _]. apply tp_cancel_grows. Qed.
Next Obligation.
  intros r ev r' t [Hr _] Hs Hl. simpl in *. destruct (timely ev); [|done]. destruct (rstep_pool _ _ _ Hs) as [E|[e He]]; [|by eapply tp_fresh].
  rewrite E in Hl. apply (f_equal length) in Hl. simpl in Hl. lia.
Qed.
Next Obligation. intros r t [Hr _]. simpl. by apply tp_started. Qed.
Next Obligation. intros r t [Hr _]. simpl. by apply tp_released. Qed.
Next Obligation. intros r t l1 l2 [Hr _]. simpl. by apply tp_release_once. Qed.
Next Obligation. intros r t [Hr _]. simpl. by apply tp_cancelled. Qed.
Next Obligation.
  intros r t r' Hc. simpl in *. destruct (cancel_pool r t) as [E1 E2]. rewrite Hc in E1, E2. simpl in E1, E2. rewrite E1.
  apply (tp_cancel_ok (r_pool r)). rewrite E2. by destruct (tp_cancel (r_pool r) t).
Qed.
End Laws.

(** ** The group *)

(** loom_task_group_submit_future up to the pool call; a call that fails
    leaves neither context nor node. *)
Definition loom_task_group_submit_future g (args ctx_ok node_ok : bool) : loom_result_t * group (results S) :=
  if negb args then (LOOMWORKS_ERR_INVALID, g)
  else if destroyed g then (LOOMWORKS_ERR_INVALID, g)
  else if negb ctx_ok then (LOOMWORKS_ERR_ALLOC, g)
  else if negb node_ok then (LOOMWORKS_ERR_ALLOC, g)
  else (LOOMWORKS_OK, with_lock g LSubmit).

Definition in_group g (j : nat) : option nat :=
  match calls (g_pool g) !! j with
  | Some (s, _) => match task_of s with Some t => if decide (t ∈ mine g) then Some t else None | None => None end
  | None => None
  end.

(** task_group_future_wrapper: the user's function may end the thread before
    the decrement; the value reaches future_task_wrapper after the free. *)
Definition task_group_future_wrapper g (ev : gevent (revent Ev)) : bool :=
  match ev with
  | GDec t => match owner (g_pool g) t with Some (_, (_, p)) => bool_decide (p = RQueued) | None => true end
  | GPool (RFinish j _) => match in_group g j with Some t => bool_decide (wrappers g !! t = Some WFreed) | None => true end
  | GPool (RCrash j) => match in_group g j with Some t => bool_decide (wrappers g !! t = None) | None => true end
  | GAccept (RFinish _ _) | GAccept (RCrash _) => false
  | _ => true
  end.

Inductive fgevent :=
  | FSubmit (args ctx_ok node_ok : bool)
  | FStep (ev : gevent (revent Ev)).

Definition fgstep g (ev : fgevent) : option (group (results S)) :=
  match ev with
  | FSubmit args c n => if unlocked g || negb args then Some (loom_task_group_submit_future g args c n).2 else None
  | FStep ev => if task_group_future_wrapper g ev then gstep g ev else None
  end.

Fixpoint fgrun g (evs : list fgevent) : option (group (results S)) :=
  match evs with
  | [] => Some g
  | ev :: evs => match fgstep g ev with Some g' => fgrun g' evs | None => None end
  end.

(** ** Invariant *)

(** What a call's phase says of the group's wrapper. *)
Inductive verdict := VNone | VValue | VCrash.
Definition verdict_of (p : rphase) : verdict :=
  match p with
  | RQueued | RDone FReleased => VNone
  | RWrapped _ | RLate _ | RDone (FRan _) => VValue
  | RCrashed | RDone FCrashed => VCrash
  end.
Definition counted_as (w : option wphase) (v : verdict) : Prop :=
  match v with VNone => True | VValue => w = Some WFreed | VCrash => w = None end.

Definition answered g : Prop := forall j x t,
  calls (g_pool g) !! j = Some x -> task_of x.1 = Some t -> t ∈ mine g -> counted_as (wrappers g !! t) (verdict_of x.2).

Section Invariant.
Context `{!TaskPoolLaws S Ev}.

Lemma submit_future_step g args c n g' : fgstep g (FSubmit args c n) = Some g' -> g' = g \/ gstep g (GSubmit c n) = Some g'.
Proof.
  simpl. unfold loom_task_group_submit_future, loom_task_group_submit. destruct (unlocked g), args; simpl; try done;
    destruct (destroyed g), c, n; simpl; intros [= <-]; auto.
Qed.

Lemma note_calls r o j x' :
  calls (note r o) !! j = Some x' -> x'.2 = RDone FReleased \/ calls r !! j = Some x'.
Proof.
  destruct o; try by right. simpl. destruct (owner r t) as [[i x]|]; [|by right]. simpl.
  intros [(-> & <- & _)|[_ ?]]%list_lookup_insert_Some; [by left|by right].
Qed.

Lemma absorb_calls r s j x' : calls (absorb r s) !! j = Some x' -> x'.2 = RDone FReleased \/ calls r !! j = Some x'.
Proof.
  unfold absorb. induction (take _ _) as [|o d IH]; simpl; [by right|]. intros [?|Hj]%note_calls; [by left|by apply IH].
Qed.

(** A step of the pool changes the verdict on a call only by a return or a
    crash of its function. *)
Lemma rstep_calls r ev r' j x' t :
  rgood r -> timely ev = true -> rstep r ev = Some r' -> calls r' !! j = Some x' -> task_of x'.1 = Some t ->
  verdict_of x'.2 = VNone \/
  exists x, calls r !! j = Some x /\ task_of x.1 = Some t /\
    (verdict_of x'.2 = verdict_of x.2 \/ (exists v, ev = RFinish j v /\ verdict_of x'.2 = VValue) \/ (ev = RCrash j /\ verdict_of x'.2 = VCrash)).
Proof.
  intros [_ Hi] Ht Hs Hj Htask.
  assert (Hset : forall i y (Q : Prop), <[i := y]> (calls r) !! j = Some x' -> (i = j -> y = x' -> Q) -> (i <> j -> calls r !! j = Some x' -> Q) -> Q).
  { intros i y Q [(-> & <- & _)|[Hne ?]]%list_lookup_insert_Some; [auto|auto]. }
  assert (Hkeep : calls r !! j = Some x' -> verdict_of x'.2 = VNone \/ exists x, calls r !! j = Some x /\ task_of x.1 = Some t /\
    (verdict_of x'.2 = verdict_of x.2 \/ (exists v, ev = RFinish j v /\ verdict_of x'.2 = VValue) \/ (ev = RCrash j /\ verdict_of x'.2 = VCrash))).
  { intros. right. exists x'. auto. }
  destruct ev as [prio args ok|i e|i rc|e|i v|i|i|i|i|i]; simpl in Hs; try done.
  - injection Hs as <-. destruct (if prio then _ else _) as [[] ?]; simpl in Hj;
      (apply lookup_snoc_Some in Hj as [[_ Hj]|[_ <-]]; [by apply Hkeep|by left]).
  - destruct (calls r !! i) as [[[] p]|] eqn:Ei; try done. destruct (tp_exec (r_pool r) e) as [s|]; [|done].
    destruct (tp_log s) as [|[] l]; try done. case_bool_decide; simplify_eq. apply (Hset _ _ _ Hj); [|auto].
    intros _ <-. left. pose proof (ri_log _ _ Hi _ _ Ei) as Hl. unfold log_ok in Hl. simpl in Hl. by subst.
  - destruct (calls r !! i) as [[[] p]|] eqn:Ei; try done; case_bool_decide; simplify_eq; apply (Hset _ _ _ Hj); auto; intros <- <-; [done|].
    right. eexists. split; [exact Ei|]. simpl in *. auto.
  - apply fmap_Some in Hs as (s & He & ->). apply absorb_calls in Hj as [->|Hj]; [by left|auto].
  - destruct (calls r !! i) as [[s []]|] eqn:Ei; try done. destruct (task_of s) eqn:Es; [|done]. case_bool_decide; simplify_eq.
    apply (Hset _ _ _ Hj); auto. intros <- <-. right. eexists. split; [exact Ei|]. simpl in *. split; [done|]. right. left. eauto.
  - destruct (calls r !! i) as [[s []]|] eqn:Ei; try done. simplify_eq. apply (Hset _ _ _ Hj); auto. intros <- <-.
    right. eexists. split; [exact Ei|]. simpl in *. auto.
  - destruct (calls r !! i) as [[s []]|] eqn:Ei; try done. destruct (task_of s) eqn:Es; [|done]. case_bool_decide; simplify_eq.
    apply (Hset _ _ _ Hj); auto. intros <- <-. right. eexists. split; [exact Ei|]. simpl in *. split; [done|]. auto.
  - destruct (calls r !! i) as [[s []]|] eqn:Ei; try done; simplify_eq; (apply (Hset _ _ _ Hj); auto; intros <- <-;
      right; eexists; split; [exact Ei|]; simpl in *; split; [done|]); [by left|].
    pose proof (ri_log _ _ Hi _ _ Ei) as Hl. unfold log_ok in Hl. simpl in Hl. rewrite Htask in Hl. tauto.
  - destruct (calls r !! i) as [[[] p]|] eqn:Ei; try done. simplify_eq. unfold client_destroy in Hj.
    destruct (futs r !! i); [|auto]. destruct (loom_future_destroy _) as [[] ?]; auto.
    apply (Hset _ _ _ Hj); auto. intros <- <-. right. eexists. split; [exact Ei|]. simpl in *. auto.
Qed.

Lemma answered_same g g' : g_pool g' = g_pool g -> mine g' = mine g -> wrappers g' = wrappers g -> answered g -> answered g'.
Proof. intros E1 E2 E3 Ha j x t. rewrite E1, E2, E3. apply Ha. Qed.

Lemma in_group_call g j x t : calls (g_pool g) !! j = Some x -> task_of x.1 = Some t -> t ∈ mine g -> in_group g j = Some t.
Proof. intros Hj Ht Hm. unfold in_group. rewrite Hj. destruct x as [s p]. simpl in Ht. rewrite Ht. by case_decide. Qed.

(** A pool step the wrapper's order allows. *)
Lemma answered_exec g e r' j x t :
  rgood (g_pool g) -> answered g -> task_group_future_wrapper g (GPool e) = true -> tp_exec (g_pool g) e = Some r' ->
  calls r' !! j = Some x -> task_of x.1 = Some t -> t ∈ mine g -> counted_as (wrappers g !! t) (verdict_of x.2).
Proof.
  intros Hg Ha Hok He Hj Ht Hm. simpl in He. destruct (timely e) eqn:Hti; [|done].
  destruct (rstep_calls _ _ _ _ _ _ Hg Hti He Hj Ht) as [-> |(y & Hy & Hty & Hv)]; [done|].
  pose proof (in_group_call g j y t Hy Hty Hm) as Hin.
  destruct Hv as [->|[(v & -> & ->)|[-> ->]]]; [by eapply Ha| |]; simpl in *; rewrite Hin in Hok; by apply bool_decide_eq_true in Hok.
Qed.

(** The call that owns a task. *)
Lemma owner_call r j x t : rgood r -> calls r !! j = Some x -> task_of x.1 = Some t -> owner r t = Some (j, x).
Proof.
  intros [_ Hi] Hj Ht. unfold owner. destruct (list_find _ (calls r)) as [[i y]|] eqn:Ef.
  - apply list_find_Some in Ef as (Hy & Hty & _). assert (i = j) as -> by (by eapply (ri_inj _ _ Hi)). by simplify_eq.
  - apply list_find_None in Ef. rewrite Forall_lookup in Ef. by apply Ef in Hj.
Qed.

Lemma gstep_accept g e g' :
  ginv g -> answered g -> task_group_future_wrapper g (GAccept e) = true -> gstep g (GAccept e) = Some g' -> answered g'.
Proof.
  intros H Ha Hok Hs. pose proof (gi_reach g H) as Hg. cbn [gstep] in Hs. destruct (lock g); try done.
  destruct (tp_exec (g_pool g) e) as [r'|] eqn:He; [|done]. destruct (tp_log r') as [|[t| | | | |] l] eqn:El; try done.
  case_bool_decide; simplify_eq.
  assert (Hnew : Accepted t ∉ tp_log (g_pool g)) by (apply (tp_fresh (g_pool g) e r' t Hg He El)).
  assert (Hok' : task_group_future_wrapper g (GPool e) = true) by (by destruct e).
  intros j x u Hj Hu Hm. cbn in Hj, Hm |- *. apply elem_of_union in Hm as [Hm| ->%elem_of_singleton].
  { by eapply (answered_exec g e). }
  simpl in He. destruct (timely e) eqn:Hti; [|done].
  destruct (rstep_calls _ _ _ _ _ _ Hg Hti He Hj Hu) as [-> |(y & Hy & Hty & _)]; [done|].
  destruct Hg as [_ Hi]. pose proof (ri_log _ _ Hi _ _ Hy) as Hl. unfold log_ok in Hl. rewrite Hty in Hl. by destruct Hl.
Qed.

Lemma answered_cancel g t : rgood (g_pool g) -> answered g -> answered (task_group_cancel_node g t).
Proof.
  intros Hg Ha. unfold task_group_cancel_node. simpl. unfold result_cancel.
  destruct (tp_cancel (r_pool (g_pool g)) t) as [rc s].
  assert (H : forall j x u, calls (absorb (g_pool g) s) !! j = Some x -> task_of x.1 = Some u -> u ∈ mine g ->
    counted_as (wrappers g !! u) (verdict_of x.2)).
  { intros j x u [->|Hj]%absorb_calls Hu Hm; [done|by eapply Ha]. }
  destruct rc; exact H.
Qed.

Lemma answered_dec g t : rgood (g_pool g) -> answered g -> task_group_future_wrapper g (GDec t) = true -> answered (task_group_wrapper g t).
Proof.
  intros Hg Ha Hok j x u Hj Hu Hm. simpl in *. destruct (decide (u = t)) as [->|Hne].
  - rewrite (owner_call _ _ _ _ Hg Hj Hu) in Hok. destruct x as [s p]. by apply bool_decide_eq_true in Hok as ->.
  - rewrite lookup_insert_ne by done. by eapply Ha.
Qed.

Lemma answered_free g t : answered g -> wrappers g !! t = Some WCounted -> answered (wrapper_free g t).
Proof.
  intros Ha Hw j x u Hj Hu Hm. simpl in *. pose proof (Ha j x u Hj Hu Hm) as H. destruct (decide (u = t)) as [->|Hne].
  - rewrite lookup_insert_eq. rewrite Hw in H. by destruct (verdict_of x.2).
  - by rewrite lookup_insert_ne.
Qed.

Lemma answered_gstep g ev g' :
  ginv g -> answered g -> task_group_future_wrapper g ev = true -> gstep g ev = Some g' -> answered g'.
Proof.
  intros H Ha Hok Hs. pose proof (gi_reach g H) as Hg.
  destruct ev as [c n|e|rc|e| |ow| | | |t|t|ow|i|i|i|]; [|by eapply gstep_accept|..]; cbn [gstep] in Hs.
  - destruct (unlocked g); [|done]. injection Hs as <-. unfold loom_task_group_submit. repeat case_if; done.
  - destruct (lock g); try done; case_bool_decide; simplify_eq; done.
  - apply fmap_Some in Hs as (r' & He & ->). intros j x t. by apply (answered_exec g e r').
  - destruct (unlocked g); by simplify_eq.
  - destruct ow; [by simplify_eq|]. destruct (unlocked g && _); by simplify_eq.
  - destruct (lock g) as [| | |d [|t rest]]; try done. simplify_eq. by apply (answered_same (task_group_cancel_node g t)), answered_cancel.
  - destruct (lock g) as [| | |d [|t rest]]; try done. by simplify_eq.
  - destruct (unlocked g && _); [|done]. simplify_eq. by case_if.
  - case_bool_decide; simplify_eq. by apply answered_dec.
  - case_bool_decide; simplify_eq. by apply answered_free.
  - destruct (freed g); by simplify_eq.
  - destruct (unlocked g && _); by simplify_eq.
  - destruct (unlocked g && _); by simplify_eq.
  - case_bool_decide; by simplify_eq.
  - case_bool_decide; by simplify_eq.
Qed.

Lemma fgrun_inv evs : forall g g', ginv g -> answered g -> fgrun g evs = Some g' -> ginv g' /\ answered g'.
Proof.
  induction evs as [|ev evs IH]; intros g g' H Ha Hr; simpl in Hr; [by simplify_eq|].
  destruct (fgstep g ev) as [g1|] eqn:Es; [|done]. destruct ev as [args c n|ev].
  - destruct (submit_future_step _ _ _ _ _ Es) as [->|Eg]; [by eapply IH|].
    eapply IH; [by eapply ginv_step|by apply (answered_gstep g (GSubmit c n))|done].
  - simpl in Es. destruct (task_group_future_wrapper g ev) eqn:Hok; [|done]. eapply IH; [by eapply ginv_step|by eapply answered_gstep|done].
Qed.

Lemma counted_value p w f : promised p f -> counted_as w (verdict_of p) -> ready f = true -> (wait_outcome f).1 = LOOMWORKS_OK -> w = Some WFreed.
Proof.
  intros Hp Hc Hr Ho. destruct p as [| | | |[]]; simpl in *; try done; try congruence.
  all: destruct Hp as [_ Hp]; by rewrite Hp in Ho.
Qed.

Lemma revoked_call L x t : log_ok L x -> task_of x.1 = Some t -> (Started t ∉ L) -> x.2 = RQueued \/ x.2 = RDone FReleased.
Proof. intros Hl Ht Hs. unfold log_ok in Hl. rewrite Ht in Hl. destruct Hl as (_ & Hl & _). destruct (x.2) as [| | | |[]]; auto; done. Qed.

End Invariant.
End GroupFuture.

(** ** Runs over the pool of Pool.v *)

(** A result submission of producer 0 to the group, as call [j]. *)
Definition future_submit (j : nat) : list (fgevent (Ev := pevent)) :=
  FSubmit true true true ::
  (FStep <$> [GPool (RSubmit false true all_ok); GPool (RPool (EvSubmit 0 demo_req false)); GPool (RPool (EvCreate 0 true));
   GAccept (RAccept j (EvClaim 0 true true)); GPool (RPool (EvPublish 0)); GPool (RPool (EvCount 0)); GPool (RPool (EvPost 0));
   GPool (RReturn j LOOMWORKS_OK); GSubmitRet LOOMWORKS_OK]).

(** Two result tasks: the newer one starts, the group is cancelled, which
    reaches the older one only; both futures get ready. *)
Definition future_run : list (fgevent (Ev := pevent)) :=
  future_submit 0 ++ future_submit 1 ++
  (FStep <$> [GPool (RPool (EvPass 0 true)); GCancel; GCancelNode; GCancelNode; GCancelEnd; GDec 3; GWait false; GWaitTest 0]).

Definition future_end : list (fgevent (Ev := pevent)) :=
  FStep <$> [GFree 3; GPool (RFinish 1 77); GPool (RFree 1); GPool (RPool (EvFinish 0)); GPool (RPool (EvPass 0 true))].

Definition future_group : group (results pool) := group_start (results_start (pool_start 0 8 1 1 true)).


(** A group that has drained has not delivered: loom_task_group_wait returns
    OK while the future of the task it waited for is not ready yet, so that
    loom_future_destroy refuses it. *)
Theorem group_wait_before_future_ready :
  exists g, fgrun future_group future_run = Some g /\ waiters g = [GRet LOOMWORKS_OK] /\ pending g = 0 /\
    exists f, futs (g_pool g) !! 1%nat = Some f /\ ready f = false /\ (loom_future_destroy f).1 <> LOOMWORKS_OK.
Proof. eexists. split; [vm_compute; reflexivity|]. split; [reflexivity|]. split; [reflexivity|]. eexists. by split_and!. Qed.
