(* ===== verification/Pipeline.v ===== *)
(** * The producer-consumer pipeline (src/pipeline.c).

    A bounded FIFO behind one mutex and one condition variable.  Every critical
    section is one step; a thread in pthread_cond_(timed)wait is woken by any
    broadcast, spuriously, or (producers) by its deadline.  The intrusive list
    from [head] to [tail] is the list [items]; [len] is the code's own counter.
    The lock-free counters are bumped in steps of their own, after the lock was
    released. *)
From S2P Require Import Prelude Types.

(** ** State *)

(** A producer inside loom_pc_submit. *)
Inductive producer :=
  | PcIdle
  | PcBlocked (d : ptr)              (* in pthread_cond_timedwait, item allocated *)
  | PcWoken (d : ptr)                (* left the wait without ETIMEDOUT, lock not yet held *)
  | PcAppended (d : ptr)             (* unlocked, submitted not yet counted *)
  | PcRet (rc : loom_result_t).

(** A consumer inside loom_pc_take. *)
Inductive consumer :=
  | CnIdle
  | CnAsleep
  | CnWoken
  | CnUnlinked (d : ptr)             (* unlocked, taken not yet counted *)
  | CnRet (rc : loom_result_t) (item : ptr)
  | CnDone.                          (* consumer_pool_task returned *)

(** What happened to a payload that no caller of loom_pc_take received. *)
Inductive disposal := Discarded (d : ptr) | Freed (d : ptr) | Leaked (d : ptr).

#[export] Instance producer_eq_dec : EqDecision producer. Proof. solve_decision. Defined.
#[export] Instance consumer_eq_dec : EqDecision consumer. Proof. solve_decision. Defined.
#[export] Instance disposal_eq_dec : EqDecision disposal. Proof. solve_decision. Defined.

Record loom_pc := mk_pc {
  capacity : Z;                      (* uint32_t, 0 = unbounded *)
  len : Z;                           (* uint32_t *)
  items : list ptr;                  (* payloads from head to tail *)
  pc_shutdown : bool;
  own_payloads : bool;               (* flags & LOOM_PC_OWN_PAYLOADS *)
  on_discard : bool;                 (* on_discard != NULL *)
  submitted : Z;                     (* _Atomic uint64_t *)
  taken : Z;                         (* _Atomic uint64_t *)
  producers : list producer;
  consumers : list consumer;
  sent : list ptr;                   (* every payload appended, in order *)
  got : list ptr;                    (* every payload unlinked, in order *)
  fate : list disposal;              (* newest first *)
}.

Inductive pc_event :=
  | PcSubmit (k : nat) (d : ptr) (alloc_ok : bool)
  | PcTimeout (k : nat)              (* pthread_cond_timedwait returns ETIMEDOUT *)
  | PcSpurious (k : nat)
  | PcRetry (k : nat)                (* a woken producer holds the lock again *)
  | PcCount (k : nat)
  | PcTake (j : nat)
  | PcTakeSpurious (j : nat)
  | PcTakeRetry (j : nat)
  | PcTakeCount (j : nat)
  | PcDispose (j : nat)              (* body of consumer_pool_task *)
  | PcShutdown
  | PcSetHandler (h : bool).

(** ** Operations *)

Definition wake_producer (x : producer) : producer := match x with PcBlocked d => PcWoken d | _ => x end.
Definition wake_consumer (x : consumer) : consumer := match x with CnAsleep => CnWoken | _ => x end.

Definition set_producer (p : loom_pc) (k : nat) (x : producer) : loom_pc :=
  mk_pc (capacity p) (len p) (items p) (pc_shutdown p) (own_payloads p) (on_discard p) (submitted p) (taken p)
    (<[k := x]> (producers p)) (consumers p) (sent p) (got p) (fate p).
Definition set_consumer (p : loom_pc) (j : nat) (x : consumer) : loom_pc :=
  mk_pc (capacity p) (len p) (items p) (pc_shutdown p) (own_payloads p) (on_discard p) (submitted p) (taken p)
    (producers p) (<[j := x]> (consumers p)) (sent p) (got p) (fate p).

(** pthread_cond_broadcast. *)
Definition broadcast (p : loom_pc) : loom_pc :=
  mk_pc (capacity p) (len p) (items p) (pc_shutdown p) (own_payloads p) (on_discard p) (submitted p) (taken p)
    (wake_producer <$> producers p) (wake_consumer <$> consumers p) (sent p) (got p) (fate p).

(** The append at the end of loom_pc_submit, up to the unlock. *)
Definition append (p : loom_pc) (k : nat) (d : ptr) : loom_pc :=
  broadcast (mk_pc (capacity p) (len p +32 1) (items p ++ [d]) (pc_shutdown p) (own_payloads p) (on_discard p) (submitted p) (taken p)
    (<[k := PcAppended d]> (producers p)) (consumers p) (sent p ++ [d]) (got p) (fate p)).

(** The wait loop of loom_pc_submit: its condition is tested, and the append
    follows when it is false and the pipeline is not shut down. *)
Definition submit_loop (p : loom_pc) (k : nat) (d : ptr) : loom_pc :=
  if (capacity p <=? len p) && negb (pc_shutdown p) then set_producer p k (PcBlocked d)
  else if pc_shutdown p then set_producer p k (PcRet LOOMWORKS_ERR_SHUTDOWN)
  else append p k d.

(** loom_pc_submit from its entry. *)
Definition loom_pc_submit (p : loom_pc) (k : nat) (d : ptr) (alloc_ok : bool) : loom_pc :=
  if pc_shutdown p then set_producer p k (PcRet LOOMWORKS_ERR_SHUTDOWN)
  else if negb alloc_ok then set_producer p k (PcRet LOOMWORKS_ERR_ALLOC)
  else if (0 <? capacity p) && (capacity p <=? len p) then submit_loop p k d
  else append p k d.

(** The loop body after pthread_cond_timedwait returned. *)
Definition submit_woken (p : loom_pc) (k : nat) (d : ptr) (timed_out : bool) : loom_pc :=
  if timed_out || pc_shutdown p
  then set_producer p k (PcRet (if pc_shutdown p then LOOMWORKS_ERR_SHUTDOWN else LOOMWORKS_ERR_TIMEOUT))
  else submit_loop p k d.

Definition count_submitted (p : loom_pc) (k : nat) : loom_pc :=
  mk_pc (capacity p) (len p) (items p) (pc_shutdown p) (own_payloads p) (on_discard p) (submitted p +64 1) (taken p)
    (<[k := PcRet LOOMWORKS_OK]> (producers p)) (consumers p) (sent p) (got p) (fate p).

(** loom_pc_take from the test of [head]. *)
Definition loom_pc_take (p : loom_pc) (j : nat) : loom_pc :=
  match items p with
  | [] => if pc_shutdown p then set_consumer p j (CnRet LOOMWORKS_ERR_SHUTDOWN NULL) else set_consumer p j CnAsleep
  | d :: rest =>
      broadcast (mk_pc (capacity p) (len p -32 1) rest (pc_shutdown p) (own_payloads p) (on_discard p) (submitted p) (taken p)
        (producers p) (<[j := CnUnlinked d]> (consumers p)) (sent p) (got p ++ [d]) (fate p))
  end.

Definition count_taken (p : loom_pc) (j : nat) (d : ptr) : loom_pc :=
  mk_pc (capacity p) (len p) (items p) (pc_shutdown p) (own_payloads p) (on_discard p) (submitted p) (taken p +64 1)
    (producers p) (<[j := CnRet LOOMWORKS_OK d]> (consumers p)) (sent p) (got p) (fate p).

(** The body of consumer_pool_task's loop, and the loop's exit. *)
Definition dispose (p : loom_pc) (d : ptr) : disposal :=
  if on_discard p then Discarded d else if negb (own_payloads p) then Freed d else Leaked d.

Definition consumer_pool_task (p : loom_pc) (j : nat) (rc : loom_result_t) (d : ptr) : loom_pc :=
  if bool_decide (rc = LOOMWORKS_OK) then
    mk_pc (capacity p) (len p) (items p) (pc_shutdown p) (own_payloads p) (on_discard p) (submitted p) (taken p)
      (producers p) (<[j := CnIdle]> (consumers p)) (sent p) (got p) (dispose p d :: fate p)
  else set_consumer p j CnDone.

Definition loom_pc_shutdown (p : loom_pc) : loom_pc :=
  broadcast (mk_pc (capacity p) (len p) (items p) true (own_payloads p) (on_discard p) (submitted p) (taken p)
    (producers p) (consumers p) (sent p) (got p) (fate p)).

Definition loom_pc_set_discard_handler (p : loom_pc) (h : bool) : loom_pc :=
  mk_pc (capacity p) (len p) (items p) (pc_shutdown p) (own_payloads p) h (submitted p) (taken p)
    (producers p) (consumers p) (sent p) (got p) (fate p).

(** loom_pc_destroy once no thread is inside the pipeline (it shuts the
    internal pool down first): what it does with the queued payloads, in order. *)
Definition loom_pc_destroy (p : loom_pc) : list disposal := (fun d => if on_discard p then Discarded d else Leaked d) <$> items p.

Definition loom_pc_pending_count (p : loom_pc) : Z := len p.
Definition loom_pc_submitted_count (p : loom_pc) : Z := submitted p.
Definition loom_pc_taken_count (p : loom_pc) : Z := taken p.

Definition LOOM_PC_OWN_PAYLOADS : Z := 1.

(** loom_pc_create_ex: [n] producer threads and [m] consumers will use it
    ([m] = worker_count when the pipeline has its own pool). *)
Definition loom_pc_create_ex (worker_count cap flags : Z) (discard calloc_ok mutex_ok cond_ok pool_ok : bool) (n m : nat)
  : loom_result_t * option loom_pc :=
  if negb (Z.land flags (Z.lnot LOOM_PC_OWN_PAYLOADS) =? 0) then (LOOMWORKS_ERR_INVALID, None)
  else if negb (Z.land flags LOOM_PC_OWN_PAYLOADS =? 0) && (0 <? worker_count) && negb discard then (LOOMWORKS_ERR_INVALID, None)
  else if negb calloc_ok then (LOOMWORKS_ERR_ALLOC, None)
  else if negb mutex_ok then (LOOMWORKS_ERR_ALLOC, None)
  else if negb cond_ok then (LOOMWORKS_ERR_ALLOC, None)
  else if (0 <? worker_count) && negb pool_ok then (LOOMWORKS_ERR_THREAD, None)
  else (LOOMWORKS_OK, Some (mk_pc cap 0 [] false (negb (Z.land flags LOOM_PC_OWN_PAYLOADS =? 0)) discard 0 0
                              (replicate n PcIdle) (replicate m CnIdle) [] [] [])).

Definition loom_pc_create (worker_count cap : Z) := loom_pc_create_ex worker_count cap 0 false.

Definition pc_step (p : loom_pc) (ev : pc_event) : option loom_pc :=
  match ev with
  | PcSubmit k d ok => match producers p !! k with Some (PcIdle | PcRet _) => Some (loom_pc_submit p k d ok) | _ => None end
  | PcTimeout k => match producers p !! k with Some (PcBlocked d) => Some (submit_woken p k d true) | _ => None end
  | PcSpurious k => match producers p !! k with Some (PcBlocked d) => Some (set_producer p k (PcWoken d)) | _ => None end
  | PcRetry k => match producers p !! k with Some (PcWoken d) => Some (submit_woken p k d false) | _ => None end
  | PcCount k => match producers p !! k with Some (PcAppended _) => Some (count_submitted p k) | _ => None end
  | PcTake j => match consumers p !! j with Some (CnIdle | CnRet _ _) => Some (loom_pc_take p j) | _ => None end
  | PcTakeSpurious j => match consumers p !! j with Some CnAsleep => Some (set_consumer p j CnWoken) | _ => None end
  | PcTakeRetry j => match consumers p !! j with Some CnWoken => Some (loom_pc_take p j) | _ => None end
  | PcTakeCount j => match consumers p !! j with Some (CnUnlinked d) => Some (count_taken p j d) | _ => None end
  | PcDispose j => match consumers p !! j with Some (CnRet rc d) => Some (consumer_pool_task p j rc d) | _ => None end
  | PcShutdown => Some (loom_pc_shutdown p)
  | PcSetHandler h => Some (loom_pc_set_discard_handler p h)
  end.

Fixpoint pc_run (p : loom_pc) (evs : list pc_event) : option loom_pc :=
  match evs with
  | [] => Some p
  | ev :: evs => match pc_step p ev with Some p' => pc_run p' evs | None => None end
  end.

(** ** Invariant *)

Definition appending (x : producer) : nat := match x with PcAppended _ => 1 | _ => 0 end.
Definition unlinking (x : consumer) : nat := match x with CnUnlinked _ => 1 | _ => 0 end.

(** A producer sleeps only on a full queue, a consumer only on an empty one,
    and nobody sleeps once the pipeline is shut down. *)
Definition producer_ok (p : loom_pc) (x : producer) : Prop :=
  match x with
  | PcBlocked _ => 0 < capacity p /\ capacity p <= len p /\ pc_shutdown p = false
  | PcWoken _ => 0 < capacity p
  | _ => True
  end.
Definition consumer_ok (p : loom_pc) (x : consumer) : Prop :=
  match x with CnAsleep => items p = [] /\ pc_shutdown p = false | _ => True end.

Record pc_inv (p : loom_pc) : Prop := {
  pi_cap : 0 <= capacity p < 2 ^ 32;
  pi_fifo : sent p = got p ++ items p;
  pi_len : len p = u32 (Z.of_nat (length (items p)));
  pi_bound : 0 < capacity p -> Z.of_nat (length (items p)) <= capacity p;
  pi_prod : Forall (producer_ok p) (producers p);
  pi_cons : Forall (consumer_ok p) (consumers p);
  pi_sub : submitted p = u64 (Z.of_nat (length (sent p)) - Z.of_nat (sum_list_with appending (producers p)));
  pi_take : taken p = u64 (Z.of_nat (length (got p)) - Z.of_nat (sum_list_with unlinking (consumers p)));
}.

Lemma set_producer_inv p k x y :
  pc_inv p -> producers p !! k = Some y -> appending x = appending y -> producer_ok p x -> pc_inv (set_producer p k x).
Proof.
  intros [H1 H2 H3 H4 H5 H6 H7 H8] Hk Ha Hx. split; simpl; auto; [by apply Forall_write|].
  pose proof (sum_insert appending _ _ x _ Hk). rewrite H7. do 2 f_equal. lia.
Qed.

Lemma set_consumer_inv p j x y :
  pc_inv p -> consumers p !! j = Some y -> unlinking x = unlinking y -> consumer_ok p x -> pc_inv (set_consumer p j x).
Proof.
  intros [H1 H2 H3 H4 H5 H6 H7 H8] Hk Ha Hx. split; simpl; auto; [by apply Forall_write|].
  pose proof (sum_insert unlinking _ _ x _ Hk). rewrite H8. do 2 f_equal. lia.
Qed.

(** After a broadcast nobody is asleep. *)
Lemma woken_producers p q l : capacity q = capacity p -> Forall (producer_ok p) l -> Forall (producer_ok q) (wake_producer <$> l).
Proof. intros Hc H. apply Forall_fmap. eapply Forall_impl; [exact H|]. intros [] Hx; simpl in *; rewrite ?Hc; tauto. Qed.

Lemma woken_consumers q l : Forall (consumer_ok q) (wake_consumer <$> l).
Proof. apply Forall_fmap, Forall_forall. by intros []. Qed.

Lemma sum_wake_producer l : sum_list_with appending (wake_producer <$> l) = sum_list_with appending l.
Proof. rewrite sum_fmap. induction l as [|x l IH]; [done|]. simpl. rewrite IH. by destruct x. Qed.
Lemma sum_wake_consumer l : sum_list_with unlinking (wake_consumer <$> l) = sum_list_with unlinking l.
Proof. rewrite sum_fmap. induction l as [|x l IH]; [done|]. simpl. rewrite IH. by destruct x. Qed.

Lemma append_inv p k d y :
  pc_inv p -> producers p !! k = Some y -> appending y = 0%nat -> (0 < capacity p -> len p < capacity p) -> pc_inv (append p k d).
Proof.
  intros [H1 H2 H3 H4 H5 H6 H7 H8] Hk Ha Hc.
  assert (Hp : Forall (producer_ok p) (<[k := PcAppended d]> (producers p))) by (by apply Forall_write).
  pose proof (sum_insert appending _ _ (PcAppended d) _ Hk) as Hs. simpl in Hs.
  split; simpl; auto.
  - by rewrite H2, app_assoc.
  - rewrite H3, u32_add_l, length_app. simpl. f_equal. lia.
  - intros H0. specialize (H4 H0). specialize (Hc H0). rewrite H3, u32_small in Hc by lia. rewrite length_app. simpl. lia.
  - eapply woken_producers; [|exact Hp]. done.
  - apply woken_consumers.
  - rewrite sum_wake_producer, H7, length_app. simpl. f_equal. lia.
  - by rewrite sum_wake_consumer.
Qed.

Lemma submit_loop_inv p k d y :
  pc_inv p -> producers p !! k = Some y -> appending y = 0%nat -> 0 < capacity p -> pc_inv (submit_loop p k d).
Proof.
  intros H Hk Ha Hc. unfold submit_loop. destruct (_ && _) eqn:E.
  - zbool. eapply set_producer_inv; [done..|]. by split_and!.
  - destruct (pc_shutdown p) eqn:Es; [by eapply set_producer_inv|]. eapply append_inv; [done..|]. intros _.
    rewrite andb_true_r in E. by zbool.
Qed.

Lemma submit_inv p k d ok y :
  pc_inv p -> producers p !! k = Some y -> appending y = 0%nat -> pc_inv (loom_pc_submit p k d ok).
Proof.
  intros H Hk Ha. unfold loom_pc_submit. destruct (pc_shutdown p); [by eapply set_producer_inv|].
  destruct ok; simpl; [|by eapply set_producer_inv]. destruct (_ && _) eqn:E.
  - zbool. by eapply submit_loop_inv.
  - eapply append_inv; [done..|]. intros Hc. destruct (Z.ltb_spec 0 (capacity p)); [|lia]. simpl in E. by zbool.
Qed.

Lemma take_inv p j y : pc_inv p -> consumers p !! j = Some y -> unlinking y = 0%nat -> pc_inv (loom_pc_take p j).
Proof.
  intros H Hj Ha. unfold loom_pc_take. destruct (items p) as [|d rest] eqn:Ei.
  - destruct (pc_shutdown p) eqn:Es; eapply set_consumer_inv; try done.
  - destruct H as [H1 H2 H3 H4 H5 H6 H7 H8].
    pose proof (sum_insert unlinking _ _ (CnUnlinked d) _ Hj) as Hs. simpl in Hs. rewrite Ei in *.
    split; simpl; auto.
    + by rewrite H2, <- app_assoc.
    + rewrite H3, u32_sub_l. simpl. f_equal. lia.
    + intros Hc. specialize (H4 Hc). simpl in H4. lia.
    + eapply woken_producers; [|exact H5]. done.
    + apply woken_consumers.
    + by rewrite sum_wake_producer.
    + rewrite sum_wake_consumer, H8, length_app. simpl. f_equal. lia.
Qed.

Lemma pc_inv_step p ev p' : pc_inv p -> pc_step p ev = Some p' -> pc_inv p'.
Proof.
  intros H Hs. destruct ev; simpl in Hs;
    try (destruct (producers p !! k) as [[]|] eqn:Ek); try (destruct (consumers p !! j) as [[]|] eqn:Ej); simplify_eq.
  - by eapply submit_inv.
  - by eapply submit_inv.
  - unfold submit_woken. simpl. by eapply set_producer_inv.
  - eapply set_producer_inv; [done..|]. pose proof (pi_prod p H) as Hp. rewrite Forall_forall in Hp.
    by apply (Hp (PcBlocked d)), list_elem_of_lookup_2 with k.
  - unfold submit_woken. destruct (pc_shutdown p) eqn:Es; [by eapply set_producer_inv|]. simpl.
    eapply submit_loop_inv; [done..|]. pose proof (pi_prod p H) as Hp. rewrite Forall_forall in Hp.
    by apply (Hp (PcWoken d)), list_elem_of_lookup_2 with k.
  - destruct H as [H1 H2 H3 H4 H5 H6 H7 H8]. pose proof (sum_insert appending _ _ (PcRet LOOMWORKS_OK) _ Ek) as Hs. simpl in Hs.
    split; simpl; auto; [by apply Forall_write|]. rewrite H7, u64_add_l. f_equal. lia.
  - by eapply take_inv.
  - by eapply take_inv.
  - by eapply set_consumer_inv.
  - by eapply take_inv.
  - destruct H as [H1 H2 H3 H4 H5 H6 H7 H8]. pose proof (sum_insert unlinking _ _ (CnRet LOOMWORKS_OK d) _ Ej) as Hs. simpl in Hs.
    split; simpl; auto; [by apply Forall_write|]. rewrite H8, u64_add_l. f_equal. lia.
  - unfold consumer_pool_task. case_if; [|by eapply set_consumer_inv].
    destruct (set_consumer_inv p j CnIdle _ H Ej eq_refl I). by split.
  - destruct H as [H1 H2 H3 H4 H5 H6 H7 H8]. split; simpl; auto.
    + eapply woken_producers; [|exact H5]. done.
    + apply woken_consumers.
    + by rewrite sum_wake_producer.
    + by rewrite sum_wake_consumer.
  - destruct H as [H1 H2 H3 H4 H5 H6 H7 H8]. by split.
Qed.

Lemma pc_run_ind (P : loom_pc -> Prop) (ok : pc_event -> Prop) :
  (forall p ev p', P p -> ok ev -> pc_step p ev = Some p' -> P p') ->
  forall evs p p', P p -> Forall ok evs -> pc_run p evs = Some p' -> P p'.
Proof.
  intros Hstep evs p p' H Hok. revert p H. induction Hok as [|ev evs Hev _ IH]; intros p H Hr; simpl in Hr; [by simplify_eq|].
  destruct (pc_step p ev) eqn:Es; [|done]. eapply IH; [|exact Hr]. by eapply Hstep.
Qed.

Lemma pc_run_inv evs p p' : pc_inv p -> pc_run p evs = Some p' -> pc_inv p'.
Proof.
  intros H. apply (pc_run_ind pc_inv (fun _ => True)); [|done|by apply Forall_true].
  intros q ev q' Hq _. by apply pc_inv_step.
Qed.

Lemma create_inv wc cap flags h a b c o n m p :
  0 <= cap < 2 ^ 32 -> loom_pc_create_ex wc cap flags h a b c o n m = (LOOMWORKS_OK, Some p) -> pc_inv p.
Proof.
  intros Hc. unfold loom_pc_create_ex. repeat case_if; intros [= <-]. split; simpl; try done.
  - intros. lia.
  - by apply Forall_replicate.
  - by apply Forall_replicate.
  - by induction n.
  - by induction m.
Qed.

(** ** What the pipeline guarantees *)


(** C29. No wake-up is lost: in every reachable state a consumer is asleep
    only while the queue is empty, a producer only while it holds exactly
    [capacity] payloads, and nobody is asleep once the pipeline is shut down. *)
Theorem pipeline_no_lost_wakeup wc cap flags h a b c o n m p0 evs p :
  0 <= cap < 2 ^ 32 -> loom_pc_create_ex wc cap flags h a b c o n m = (LOOMWORKS_OK, Some p0) -> pc_run p0 evs = Some p ->
  (CnAsleep ∈ consumers p -> items p = [] /\ pc_shutdown p = false) /\
  (forall d, PcBlocked d ∈ producers p -> Z.of_nat (length (items p)) = capacity p /\ pc_shutdown p = false).
Proof.
  intros Hc Hcr Hr. destruct (pc_run_inv _ _ _ (create_inv _ _ _ _ _ _ _ _ _ _ _ Hc Hcr) Hr) as [H1 H2 H3 H4 H5 H6 _ _].
  rewrite Forall_forall in H5. rewrite Forall_forall in H6. split; [by apply (H6 CnAsleep)|].
  intros d Hd. destruct (H5 _ Hd) as (Hc0 & Hl & Hs). specialize (H4 Hc0). rewrite H3, u32_small in Hl by lia. split; [lia|done].
Qed.

(** Told of shutdown: nothing is queued any more. *)
Definition told (x : consumer) : bool :=
  match x with CnDone => true | CnRet rc _ => negb (bool_decide (rc = LOOMWORKS_OK)) | _ => false end.
Definition drained (p : loom_pc) : Prop := forall x, x ∈ consumers p -> told x = true -> pc_shutdown p = true /\ items p = [].

Lemma told_wake x : told (wake_consumer x) = told x.
Proof. by destruct x. Qed.

Lemma drained_write p q j x :
  drained p -> consumers q = <[j := x]> (consumers p) -> (told x = true -> pc_shutdown p = true /\ items p = []) ->
  (pc_shutdown p = true -> items p = [] -> pc_shutdown q = true /\ items q = []) -> drained q.
Proof.
  intros Hd Hc Hx Hk y Hy Ht. rewrite Hc in Hy. apply list_elem_of_lookup in Hy as [i Hi].
  apply list_lookup_insert_Some in Hi as [(_ & -> & _)|[_ Hi]].
  - destruct (Hx Ht). by apply Hk.
  - destruct (Hd y) as [? ?]; [by apply list_elem_of_lookup_2 with i|done|]. by apply Hk.
Qed.

Lemma drained_wake p q :
  (forall x, x ∈ consumers p -> told x = true -> pc_shutdown q = true /\ items q = []) ->
  consumers q = wake_consumer <$> consumers p -> drained q.
Proof.
  intros Hd Hc y Hy Ht. rewrite Hc in Hy. apply list_elem_of_fmap in Hy as (x & -> & Hx). rewrite told_wake in Ht. by apply (Hd x).
Qed.

Lemma drained_append p k d : drained p -> pc_shutdown p = false -> drained (append p k d).
Proof. intros Hd Hs. eapply drained_wake; [|done]. intros x Hx Ht. destruct (Hd x Hx Ht). congruence. Qed.

Lemma drained_submit_loop p k d : drained p -> drained (submit_loop p k d).
Proof. intros Hd. unfold submit_loop. repeat case_if; try done. by apply drained_append. Qed.

Lemma drained_take p j : drained p -> drained (loom_pc_take p j).
Proof.
  intros Hd. unfold loom_pc_take. destruct (items p) as [|d rest] eqn:Ei.
  - destruct (pc_shutdown p) eqn:Es; (eapply drained_write; [exact Hd|reflexivity|..]); simpl; rewrite ?Es, ?Ei; done.
  - eapply drained_wake; [|reflexivity]. simpl. intros x Hx Ht. apply list_elem_of_lookup in Hx as [i Hi].
    apply list_lookup_insert_Some in Hi as [(_ & <- & _)|[_ Hi]]; [done|].
    destruct (Hd x) as [_ E]; [by apply list_elem_of_lookup_2 with i|done|]. congruence.
Qed.

Lemma drained_step p ev p' : drained p -> pc_step p ev = Some p' -> drained p'.
Proof.
  intros H Hs. destruct ev; simpl in Hs;
    try (destruct (producers p !! k) as [[]|] eqn:Ek); try (destruct (consumers p !! j) as [[]|] eqn:Ej); simplify_eq; try done.
  1,2: unfold loom_pc_submit; destruct (pc_shutdown p) eqn:Es; [done|]; repeat case_if; [done|by apply drained_submit_loop|by apply drained_append].
  - unfold submit_woken. case_if; [done|by apply drained_submit_loop].
  - by apply drained_take.
  - by apply drained_take.
  - by eapply drained_write.
  - by apply drained_take.
  - by eapply drained_write.
  - unfold consumer_pool_task. case_if; [by eapply drained_write|]. eapply drained_write; [done..| |done]. intros _.
    apply (H (CnRet rc item)); [by apply list_elem_of_lookup_2 with j|]. simpl. by rewrite Heqb.
  - eapply drained_wake; [|reflexivity]. simpl. intros x Hx Ht. by destruct (H x Hx Ht).
Qed.

(** A consumer is told of the shutdown only when nothing is left: if any
    call of loom_pc_take has returned an error, or an internal consumer has
    left its loop, then every payload ever appended has been taken, and no
    later submit succeeds. *)
Theorem pipeline_shutdown_delivers wc cap flags h a b c o n m p0 evs p evs' p' x :
  0 <= cap < 2 ^ 32 -> loom_pc_create_ex wc cap flags h a b c o n m = (LOOMWORKS_OK, Some p0) ->
  pc_run p0 evs = Some p -> x ∈ consumers p -> told x = true -> pc_run p evs' = Some p' ->
  got p = sent p /\ sent p' = sent p /\ got p' = got p.
Proof.
  intros Hc Hcr Hr Hx Ht Hr'. pose proof (pc_run_inv _ _ _ (create_inv _ _ _ _ _ _ _ _ _ _ _ Hc Hcr) Hr) as H.
  assert (Hd0 : drained p0).
  { intros y Hy. revert Hcr. unfold loom_pc_create_ex. repeat case_if; intros [= <-]. simpl in Hy.
    apply elem_of_replicate in Hy as [-> _]. done. }
  assert (Hd : drained p).
  { eapply (pc_run_ind drained (fun _ => True)); [|exact Hd0|by apply Forall_true|exact Hr]. intros q ev q' Hq _. by apply drained_step. }
  destruct (Hd x Hx Ht) as [Hs Hi]. pose proof (pi_fifo p H) as Hf. rewrite Hi, app_nil_r in Hf. split; [done|].
  cut (pc_shutdown p' = true /\ items p' = [] /\ sent p' = sent p /\ got p' = got p); [tauto|].
  refine (pc_run_ind (fun q => pc_shutdown q = true /\ items q = [] /\ sent q = sent p /\ got q = got p) (fun _ => True) _ evs' p p' _ _ Hr');
    [|done|by apply Forall_true].
  intros q ev q' (Q1 & Q2 & Q3 & Q4) _ Hq. destruct ev; simpl in Hq;
    try (destruct (producers q !! k) as [[]|]); try (destruct (consumers q !! j) as [[]|]); simplify_eq; try done;
    unfold loom_pc_submit, submit_woken, submit_loop, loom_pc_take, consumer_pool_task; rewrite ?Q1, ?Q2; simpl; rewrite ?Q1, ?Q2; simpl; try done.
  all: by case_if.
Qed.

(** loom_pc_create_ex accepts exactly the flag sets it documents and
    refuses the combination that could only leak (OWN_PAYLOADS with internal
    consumers and no handler); as long as the handler is not cleared later, the
    internal consumers and destroy hand every caller-owned payload they drop to
    the handler. *)
Theorem pipeline_own_payloads wc cap flags h a b c o n m :
  ((loom_pc_create_ex wc cap flags h a b c o n m).1 = LOOMWORKS_ERR_INVALID <->
   Z.land flags (Z.lnot LOOM_PC_OWN_PAYLOADS) <> 0 \/ Z.land flags LOOM_PC_OWN_PAYLOADS <> 0 /\ 0 < wc /\ h = false) /\
  forall p0 evs p, loom_pc_create_ex wc cap flags h a b c o n m = (LOOMWORKS_OK, Some p0) -> 0 < wc ->
    own_payloads p0 = true -> Forall (fun ev => ev <> PcSetHandler false) evs -> pc_run p0 evs = Some p ->
    Forall (fun f => exists d, f = Discarded d) (fate p ++ loom_pc_destroy p).
Proof.
  split.
  - unfold loom_pc_create_ex. destruct (Z.eqb_spec (Z.land flags (Z.lnot LOOM_PC_OWN_PAYLOADS)) 0); simpl; [|tauto].
    destruct (Z.eqb_spec (Z.land flags LOOM_PC_OWN_PAYLOADS) 0), (Z.ltb_spec 0 wc), h; simpl;
      repeat case_if; split; intros; simpl in *; try done; try tauto; try lia.
  - intros p0 evs p Hcr Hwc Hown Hok Hr.
    assert (H0 : on_discard p0 = true /\ fate p0 = []).
    { revert Hcr. unfold loom_pc_create_ex. destruct (negb (_ =? 0)); [done|]. destruct (_ && negb h) eqn:E; [done|].
      repeat case_if; intros [= <-]. simpl in *. rewrite Hown in E. destruct (Z.ltb_spec 0 wc); [|lia]. by destruct h. }
    cut (on_discard p = true /\ Forall (fun f => exists d, f = Discarded d) (fate p)).
    { intros [Hd Hf]. apply Forall_app. split; [done|]. unfold loom_pc_destroy. rewrite Hd. apply Forall_fmap, Forall_true. by eexists. }
    refine (pc_run_ind (fun q => on_discard q = true /\ Forall (fun f => exists d, f = Discarded d) (fate q)) _ _ evs p0 p _ Hok Hr).
    2: { destruct H0 as [-> ->]. by split. }
    intros q ev q' [Q1 Q2] Hev Hq. destruct ev; simpl in Hq;
      try (destruct (producers q !! k) as [[]|]); try (destruct (consumers q !! j) as [[]|]); simplify_eq; try done;
      unfold loom_pc_submit, submit_woken, submit_loop, loom_pc_take, consumer_pool_task;
      try (case_match); repeat case_if; try done.
    + split; [done|]. simpl. constructor; [|done]. unfold dispose. rewrite Q1. by eexists.
    + by destruct h0.
Qed.

(** ** A concrete run: capacity one, two producers, one consumer *)

Definition pipe_run : list pc_event :=
  [PcTake 0; PcSubmit 0 5 true; PcCount 0; PcSubmit 1 6 true; PcTakeRetry 0; PcTakeCount 0; PcRetry 1; PcCount 1; PcSubmit 0 7 true].

Definition pipe_demo (flags : Z) (h : bool) : loom_pc :=
  mk_pc 1 0 [] false (negb (Z.land flags 1 =? 0)) h 0 0 (replicate 2 PcIdle) (replicate 1 CnIdle) [] [] [].


Lemma pipeline_no_lost_wakeup_witness :
  exists p, pc_run (pipe_demo 0 false) pipe_run = Some p /\ PcBlocked 7 ∈ producers p /\ Z.of_nat (length (items p)) = capacity p.
Proof.
  destruct (pc_run (pipe_demo 0 false) pipe_run) as [p|] eqn:E; [|vm_compute in E; discriminate E].
  assert (H : (fun p => bool_decide (PcBlocked 7 ∈ producers p)) <$> pc_run (pipe_demo 0 false) pipe_run = Some true) by (vm_compute; reflexivity).
  rewrite E in H. cbn in H. injection H as H1. apply bool_decide_eq_true in H1. exists p. split; [reflexivity|]. split; [exact H1|].
  exact (proj1 (proj2 (pipeline_no_lost_wakeup 0 1 0 false true true true true 2 1 _ pipe_run p ltac:(lia) eq_refl E) 7 H1)).
Defined.

Definition pipe_close : list pc_event := [PcShutdown; PcTake 0; PcTakeCount 0; PcTake 0].

Lemma pipeline_shutdown_delivers_witness :
  exists p, pc_run (pipe_demo 0 false) (pipe_run ++ pipe_close) = Some p /\ consumers p = [CnRet LOOMWORKS_ERR_SHUTDOWN NULL] /\
    got p = sent p /\ got p = [5; 6].
Proof.
  destruct (pc_run (pipe_demo 0 false) (pipe_run ++ pipe_close)) as [p|] eqn:E; [|vm_compute in E; discriminate E].
  assert (H : (fun p => (consumers p, got p)) <$> pc_run (pipe_demo 0 false) (pipe_run ++ pipe_close)
              = Some ([CnRet LOOMWORKS_ERR_SHUTDOWN NULL], [5; 6])) by (vm_compute; reflexivity).
  rewrite E in H. cbn in H. injection H as H1 H2. exists p. split; [reflexivity|]. split; [exact H1|]. split; [|exact H2].
  refine (proj1 (pipeline_shutdown_delivers 0 1 0 false true true true true 2 1 _ _ p [] p (CnRet LOOMWORKS_ERR_SHUTDOWN NULL)
    ltac:(lia) eq_refl E _ eq_refl eq_refl)).
  rewrite H1. apply list_elem_of_here.
Defined.

Lemma pipeline_own_payloads_witness :
  exists p, pc_run (pipe_demo 1 true) (pipe_run ++ [PcDispose 0]) = Some p /\ fate p ++ loom_pc_destroy p = [Discarded 5; Discarded 6] /\
    Forall (fun f => exists d, f = Discarded d) (fate p ++ loom_pc_destroy p).
Proof.
  destruct (pc_run (pipe_demo 1 true) (pipe_run ++ [PcDispose 0])) as [p|] eqn:E; [|vm_compute in E; discriminate E].
  assert (H : (fun p => fate p ++ loom_pc_destroy p) <$> pc_run (pipe_demo 1 true) (pipe_run ++ [PcDispose 0])
              = Some [Discarded 5; Discarded 6]) by (vm_compute; reflexivity).
  rewrite E in H. cbn in H. injection H as H1. exists p. split; [reflexivity|]. split; [exact H1|].
  exact (proj2 (pipeline_own_payloads 1 1 1 true true true true true 2 1) _ (pipe_run ++ [PcDispose 0]) p eq_refl ltac:(lia) eq_refl
    ltac:(repeat constructor; discriminate) E).
Defined.

(** Clearing the handler of a pipeline that owns its payloads leaks them: the
    combination loom_pc_create_ex refuses can be reached afterwards. *)
Example cleared_handler_leaks :
  fate <$> pc_run (pipe_demo 1 true) [PcSetHandler false; PcSubmit 0 5 true; PcTake 0; PcTakeCount 0; PcDispose 0] = Some [Leaked 5].
Proof. vm_compute. reflexivity. Qed.
