(* ===== verification/Numa.v ===== *)
(** * NUMA topology (src/numa.c, src/numa_internal.h).

    The parser of the kernel's cpulist files, the detected and the virtual
    topology and the placement of workers.  Strings are lists of byte values
    without the terminating NUL.  strtol, sysconf, the directory of
    /sys/devices/system/node and its files are inputs. *)
From S2P Require Import Prelude Types.

(** ** strtol, base 10 (C11 7.22.1.4) *)

Definition LONG_MAX : Z := 2 ^ 63 - 1.
Definition LONG_MIN : Z := - 2 ^ 63.

Definition isspace (c : Z) : bool := (c =? 32) || ((9 <=? c) && (c <=? 13)).
Definition isdigit (c : Z) : bool := (48 <=? c) && (c <=? 57).

Fixpoint skip_while (f : Z -> bool) (s : list Z) : list Z :=
  match s with
  | [] => []
  | c :: s' => if f c then skip_while f s' else s
  end.

Fixpoint digits_value (acc : Z) (s : list Z) : Z * list Z :=
  match s with
  | c :: s' => if isdigit c then digits_value (10 * acc + (c - 48)) s' else (acc, s)
  | [] => (acc, [])
  end.

(** [None]: no conversion, endptr == p. *)
Definition strtol (s : list Z) : option (Z * list Z) :=
  let s1 := skip_while isspace s in
  let '(neg, s2) :=
    match s1 with
    | c :: r => if c =? 45 then (true, r) else if c =? 43 then (false, r) else (false, s1)
    | [] => (false, s1)
    end in
  match s2 with
  | c :: _ =>
      if isdigit c then
        let '(v, rest) := digits_value 0 s2 in
        Some (Z.max LONG_MIN (Z.min LONG_MAX (if neg : bool then - v else v)), rest)
      else None
  | [] => None
  end.

(** ** parse_cpulist *)

Definition is_whitespace (c : Z) : bool := (c =? 32) || (c =? 9) || (c =? 10) || (c =? 13).
Definition is_separator (c : Z) : bool := is_whitespace c || (c =? 44).

(** The inner loop: [n] values from [c] on; [cap] is the capacity of [arr] and
    [realloc_ok] says for which capacities realloc succeeds. *)
Fixpoint push_range (realloc_ok : nat -> bool) (n : nat) (c : Z) (cap : nat) (arr : list Z) : option (nat * list Z) :=
  match n with
  | O => Some (cap, arr)
  | S n' =>
      if (cap <=? length arr)%nat then
        if realloc_ok (cap * 2)%nat then push_range realloc_ok n' (c + 1) (cap * 2) (arr ++ [u32 c]) else None
      else push_range realloc_ok n' (c + 1) cap (arr ++ [u32 c])
  end.

(** The optional upper bound after the first number. *)
Definition range_end (start : Z) (r : list Z) : Z * list Z :=
  match r with
  | c :: r1 =>
      if c =? 45 then
        match strtol r1 with
        | Some (e, r2) => if start <=? e then (e, r2) else (start, r1)
        | None => (start, r1)
        end
      else (start, r)
  | [] => (start, r)
  end.

Fixpoint parse_loop (realloc_ok : nat -> bool) (fuel : nat) (s : list Z) (cap : nat) (arr : list Z) : option (list Z) :=
  match fuel with
  | O => Some arr
  | S fuel' =>
      match skip_while is_separator s with
      | [] => Some arr
      | p =>
          match strtol p with
          | None => Some arr
          | Some (start, r) =>
              if start <? 0 then Some arr
              else
                let '(e, p') := range_end start r in
                match push_range realloc_ok (Z.to_nat (e - start + 1)) start cap arr with
                | None => None
                | Some (cap', arr') => parse_loop realloc_ok fuel' p' cap' arr'
                end
          end
      end
  end.

(** The array and *out_count, or -1. *)
Definition parse_cpulist (malloc_ok : bool) (realloc_ok : nat -> bool) (str : list Z) : option (list Z * Z) :=
  if negb malloc_ok then None
  else match parse_loop realloc_ok (S (length str)) str 16 [] with
       | None | Some [] => None
       | Some arr => Some (arr, u32 (Z.of_nat (length arr)))
       end.

(** ** Topologies *)

Record numa_domain := mk_domain {
  domain_id : Z;
  node_id : Z;
  cpu_ids : list Z;
  cpu_count : Z;
}.

Record loom_numa_topology := mk_topology {
  domain_count : Z;
  domains : list numa_domain;
  total_cpus : Z;
  mode : loom_numa_mode_t;
}.

(** sysconf(_SC_NPROCESSORS_ONLN), at least 1. *)
Definition online (n : Z) : Z := if n <? 1 then 1 else n.

(** Which of the allocations succeed: the topology, its domains, and the cpu
    array of each domain. *)
Record numa_alloc := mk_alloc { topo_ok : bool; domains_ok : bool; cpus_ok : nat -> bool }.

Definition create_single_domain_fallback (nproc : Z) (al : numa_alloc) : loom_result_t * option loom_numa_topology :=
  let n := online nproc in
  if negb (topo_ok al && domains_ok al && cpus_ok al 0%nat) then (LOOMWORKS_ERR_ALLOC, None)
  else (LOOMWORKS_OK,
        Some (mk_topology 1 [mk_domain 0 0 ((fun i => u32 (Z.of_nat i)) <$> seq 0 (Z.to_nat n)) (u32 n)] (u32 n) LOOM_NUMA_AUTO)).

(** The exchange sort of the node ids. *)
Fixpoint sort_inner (l : list Z) (i : nat) (js : list nat) : list Z :=
  match js with
  | [] => l
  | j :: js => sort_inner (if (l !!! j) <? (l !!! i) then swap l i j else l) i js
  end.

Fixpoint sort_outer (l : list Z) (idx : list nat) : list Z :=
  match idx with
  | [] => l
  | i :: idx => sort_outer (sort_inner l i (seq (S i) (length l - S i))) idx
  end.

Definition sort_node_ids (l : list Z) : list Z := sort_outer l (seq 0 (length l)).

(** The directory scan: entries named "node" followed by a digit. *)
Definition node_name (name : list Z) : option Z :=
  match drop 4 name with
  | c :: r =>
      if bool_decide (take 4 name = [110; 111; 100; 101]) && isdigit c then match strtol (c :: r) with Some (nid, _) => if 0 <=? nid then Some (u32 nid) else None | None => None end
      else None
  | _ => None
  end.

Definition scan_nodes (names : list (list Z)) : list Z := take 256 (omap node_name names).

(** The per-node loop of loom_numa_detect_topology: [None] when a cpulist is
    missing or does not parse. *)
Fixpoint read_domains (malloc_ok : bool) (realloc_ok : nat -> bool) (cpulist : Z -> option (list Z)) (i : Z) (ids : list Z) (total : Z)
  : option (list numa_domain * Z) :=
  match ids with
  | [] => Some ([], total)
  | nid :: ids =>
      match cpulist nid with
      | Some (c :: s) =>
          match parse_cpulist malloc_ok realloc_ok (c :: s) with
          | Some (cpus, cc) =>
              match read_domains malloc_ok realloc_ok cpulist (i + 1) ids (total +32 cc) with
              | Some (ds, t) => Some (mk_domain i nid cpus cc :: ds, t)
              | None => None
              end
          | None => None
          end
      | _ => None
      end
  end.

(** [dir] = None: opendir failed.  [cpulist nid] is the line fgets read. *)
Definition loom_numa_detect_topology (dir : option (list (list Z))) (cpulist : Z -> option (list Z))
  (malloc_ok : bool) (realloc_ok : nat -> bool) (nproc : Z) (al al_fallback : numa_alloc) : loom_result_t * option loom_numa_topology :=
  match dir with
  | None => create_single_domain_fallback nproc al_fallback
  | Some names =>
      match scan_nodes names with
      | [] => create_single_domain_fallback nproc al_fallback
      | ids =>
          if negb (topo_ok al && domains_ok al) then (LOOMWORKS_ERR_ALLOC, None)
          else match read_domains malloc_ok realloc_ok cpulist 0 (sort_node_ids ids) 0 with
               | Some (ds, total) => (LOOMWORKS_OK, Some (mk_topology (Z.of_nat (length ids)) ds total LOOM_NUMA_AUTO))
               | None => create_single_domain_fallback nproc al_fallback
               end
      end
  end.

(** The domain loop of loom_numa_virtual_topology. *)
Fixpoint virtual_domains_loop (base rem : Z) (cpus_ok : nat -> bool) (idx : list nat) (curr : Z) : option (list numa_domain) :=
  match idx with
  | [] => Some []
  | i :: idx =>
      let count := base + (if Z.of_nat i <? rem then 1 else 0) in
      if cpus_ok i then
        match virtual_domains_loop base rem cpus_ok idx (curr + count) with
        | Some ds => Some (mk_domain (Z.of_nat i) (Z.of_nat i) ((fun j => curr + Z.of_nat j) <$> seq 0 (Z.to_nat count)) count :: ds)
        | None => None
        end
      else None
  end.

Definition virtual_count (vd n : Z) : Z :=
  let vd := if vd =? 0 then (if 2 <=? n then 2 else 1) else vd in if n <? vd then n else vd.

Definition loom_numa_virtual_topology (vd nproc : Z) (al : numa_alloc) : loom_result_t * option loom_numa_topology :=
  let n := online nproc in
  let v := virtual_count vd (u32 n) in
  if negb (topo_ok al && domains_ok al) then (LOOMWORKS_ERR_ALLOC, None)
  else match virtual_domains_loop (u32 n / v) (u32 n mod v) (cpus_ok al) (seq 0 (Z.to_nat v)) 0 with
       | Some ds => (LOOMWORKS_OK, Some (mk_topology v ds (u32 n) LOOM_NUMA_VIRTUAL))
       | None => (LOOMWORKS_ERR_ALLOC, None)
       end.

(** loom_numa_topology_free: the domains whose cpu array it frees.  While a
    topology is being built [domain_count] is still 0, so on the error paths of
    the two constructors it frees none of the arrays allocated so far. *)
Definition loom_numa_topology_free (t : loom_numa_topology) : list numa_domain := take (Z.to_nat (domain_count t)) (domains t).

(** ** Placement *)

(** *out_domain_idx and *out_cpu_id; [None] = a read outside an array. *)
Definition loom_numa_map_worker (topo : option loom_numa_topology) (worker_idx : Z) : option (Z * Z) :=
  match topo with
  | None => Some (0, UINT32_MAX)
  | Some t =>
      if domain_count t =? 0 then Some (0, UINT32_MAX)
      else
        let domain_idx := worker_idx mod domain_count t in
        match domains t !! Z.to_nat domain_idx with
        | None => None
        | Some d =>
            if 0 <? cpu_count d then
              match cpu_ids d !! Z.to_nat ((worker_idx / domain_count t) mod cpu_count d) with
              | Some c => Some (domain_idx, c)
              | None => None
              end
            else Some (domain_idx, UINT32_MAX)
        end
  end.

Definition CPU_SETSIZE : Z := 1024.

(** [setaffinity_ok]: pthread_setaffinity_np returned 0 for that cpu. *)
Definition loom_numa_bind_current_thread (cpu_id : Z) (setaffinity_ok : Z -> bool) : bool :=
  if (cpu_id =? UINT32_MAX) || (CPU_SETSIZE <=? cpu_id) then false else setaffinity_ok cpu_id.

(** ** Parser: enough fuel, and the round trip with the kernel's format *)

Lemma skip_while_length f s : (length (skip_while f s) <= length s)%nat.
Proof. induction s as [|c s IH]; [done|]. simpl. case_if; simpl; lia. Qed.

Lemma digits_value_length acc s : (length (digits_value acc s).2 <= length s)%nat.
Proof. revert acc. induction s as [|c s IH]; intros acc; [done|]. simpl. case_if; simpl; [specialize (IH (10 * acc + (c - 48))); lia|lia]. Qed.

Lemma strtol_length s v r : strtol s = Some (v, r) -> (length r < length s)%nat.
Proof.
  unfold strtol. set (s1 := skip_while isspace s). pose proof (skip_while_length isspace s) as H1. fold s1 in H1.
  destruct (match s1 with c :: r0 => _ | [] => _ end) as [neg s2] eqn:E.
  assert (H2 : (length s2 <= length s1)%nat) by (destruct s1 as [|c s1]; [|repeat case_match]; simplify_eq; simpl; lia).
  destruct s2 as [|c s2]; [done|]. destruct (isdigit c) eqn:Ec; [|done]. simpl. rewrite Ec.
  destruct (digits_value _ s2) as [w rest] eqn:Ed. intros [= _ <-].
  pose proof (digits_value_length (c - 48) s2) as H3. simpl in H2. change (10 * 0 + (c - 48)) with (c - 48) in Ed.
  rewrite Ed in H3. simpl in H3. lia.
Qed.

Lemma range_end_length start r : (length (range_end start r).2 <= length r)%nat.
Proof.
  unfold range_end. destruct r as [|c r]; [done|]. destruct (c =? 45); [|done].
  destruct (strtol r) as [[e r2]|] eqn:E; [|simpl; lia]. apply strtol_length in E. case_if; simpl; lia.
Qed.

(** parse_cpulist's fuel suffices: more of it changes nothing. *)
Lemma parse_loop_fuel ok f1 f2 s cap arr :
  (length s < f1)%nat -> (length s < f2)%nat -> parse_loop ok f1 s cap arr = parse_loop ok f2 s cap arr.
Proof.
  revert f2 s cap arr. induction f1 as [|f1 IH]; intros f2 s cap arr H1 H2; [lia|]. destruct f2 as [|f2]; [lia|]. simpl.
  pose proof (skip_while_length is_separator s) as Hs. destruct (skip_while is_separator s) as [|c p]; [done|].
  destruct (strtol (c :: p)) as [[start r]|] eqn:E; [|done]. apply strtol_length in E. case_if; [done|].
  pose proof (range_end_length start r) as Hr. destruct (range_end start r) as [e p']. simpl in Hr, E.
  destruct (push_range _ _ _ _ _) as [[cap' arr']|]; [|done]. apply IH; simpl in *; lia.
Qed.

(** The kernel's format: "0-3,8,10-11" and a newline. *)
Fixpoint dec_digits (fuel : nat) (n : Z) (acc : list Z) : list Z :=
  match fuel with
  | O => acc
  | S f => if n <? 10 then (48 + n mod 10) :: acc else dec_digits f (n / 10) ((48 + n mod 10) :: acc)
  end.
Definition print_dec (n : Z) : list Z := dec_digits 10 n [].
Definition print_range (r : Z * Z) : list Z := print_dec r.1 ++ (if r.1 =? r.2 then [] else 45 :: print_dec r.2).
Definition print_cpulist (rs : list (Z * Z)) : list Z := drop 1 (concat ((fun r => 44 :: print_range r) <$> rs)) ++ [10].

Definition cpus_of (r : Z * Z) : list Z := (fun i => r.1 + Z.of_nat i) <$> seq 0 (Z.to_nat (r.2 - r.1 + 1)).
Definition range_ok (r : Z * Z) : Prop := 0 <= r.1 <= r.2 /\ r.2 < 2 ^ 32.

Definition dval (a : Z) (ds : list Z) : Z := foldl (fun a c => 10 * a + (c - 48)) a ds.
Definition stops (s : list Z) : Prop := match s with c :: _ => isdigit c = false | [] => True end.

Lemma digits_value_app a ds s : Forall (fun c => isdigit c = true) ds -> stops s -> digits_value a (ds ++ s) = (dval a ds, s).
Proof.
  intros Hd Hs. revert a. induction Hd as [|c ds Hc _ IH]; intros a; simpl.
  - destruct s as [|c s]; [done|]. simpl in *. by rewrite Hs.
  - by rewrite Hc, IH.
Qed.

Lemma dec_digits_spec f n acc :
  0 <= n < 10 ^ Z.of_nat f -> (0 < f)%nat ->
  exists c ds, dec_digits f n acc = c :: ds ++ acc /\ Forall (fun c => isdigit c = true) (c :: ds) /\ dval 0 (c :: ds) = n.
Proof.
  revert n acc. induction f as [|f IH]; intros n acc Hn Hf; [lia|].
  assert (Hd : isdigit (48 + n mod 10) = true).
  { pose proof (Z.mod_pos_bound n 10 ltac:(lia)). unfold isdigit. apply andb_true_intro. split; apply Z.leb_le; lia. }
  simpl. destruct (Z.ltb_spec n 10) as [Hlt|Hge].
  - eexists _, []. split; [done|]. split; [by repeat constructor|]. simpl. rewrite Z.mod_small; lia.
  - destruct f as [|f']; [simpl in Hn; lia|].
    destruct (IH (n / 10) ((48 + n mod 10) :: acc)) as (c & ds & -> & Hds & Hv); [|lia|].
    { rewrite Nat2Z.inj_succ, Z.pow_succ_r in Hn by lia. split; [apply Z.div_pos; lia|apply Z.div_lt_upper_bound; lia]. }
    exists c, (ds ++ [48 + n mod 10]). rewrite <- app_assoc. split; [done|].
    change (c :: ds ++ [48 + n mod 10]) with ((c :: ds) ++ [48 + n mod 10]). split; [apply Forall_app; split; [done|]; constructor; [done|constructor]|].
    assert (Hsn : forall l x, dval 0 (l ++ [x]) = 10 * dval 0 l + (x - 48)) by (intros; unfold dval; by rewrite foldl_app).
    change (dval 0 ((c :: ds) ++ [48 + n mod 10]) = n). rewrite Hsn, Hv. pose proof (Z.div_mod n 10 ltac:(lia)). lia.
Qed.

Lemma digit_plain c : isdigit c = true -> isspace c = false /\ c <> 45 /\ c <> 43 /\ is_separator c = false.
Proof.
  unfold isdigit, isspace, is_separator, is_whitespace. intros H. zbool.
  repeat match goal with |- context [?a =? ?b] => destruct (Z.eqb_spec a b) end;
    repeat match goal with |- context [?a <=? ?b] => destruct (Z.leb_spec a b) end; simpl; split_and!; (lia || done).
Qed.

Lemma print_dec_head n : 0 <= n < 2 ^ 32 -> exists c ds, print_dec n = c :: ds /\ isdigit c = true.
Proof.
  intros Hn. destruct (dec_digits_spec 10 n [] ltac:(simpl; lia) ltac:(lia)) as (c & ds & E & Hd & _).
  exists c, (ds ++ []). split; [done|]. by inversion Hd.
Qed.

Lemma strtol_print n s : 0 <= n < 2 ^ 32 -> stops s -> strtol (print_dec n ++ s) = Some (n, s).
Proof.
  intros Hn Hs. destruct (dec_digits_spec 10 n [] ltac:(simpl; lia) ltac:(lia)) as (c & ds & E & Hd & Hv).
  unfold print_dec. rewrite E, app_nil_r. apply Forall_cons in Hd as Hd'. destruct Hd' as [Hc _].
  destruct (digit_plain c Hc) as (H1 & H2 & H3 & _).
  unfold strtol. change ((c :: ds) ++ s) with (c :: (ds ++ s)). cbn [skip_while]. rewrite H1.
  destruct (Z.eqb_spec c 45); [done|]. destruct (Z.eqb_spec c 43); [done|]. rewrite Hc.
  change (c :: (ds ++ s)) with ((c :: ds) ++ s). rewrite digits_value_app by done. rewrite Hv. unfold LONG_MIN, LONG_MAX.
  do 2 f_equal. lia.
Qed.

Lemma push_range_ok n c cap arr :
  exists cap', push_range (fun _ => true) n c cap arr = Some (cap', arr ++ ((fun i => u32 (c + Z.of_nat i)) <$> seq 0 n)).
Proof.
  revert c cap arr. induction n as [|n IH]; intros c cap arr; [exists cap; by rewrite app_nil_r|].
  assert (Hm : arr ++ ((fun i => u32 (c + Z.of_nat i)) <$> seq 0 (S n)) = (arr ++ [u32 c]) ++ ((fun i => u32 (c + 1 + Z.of_nat i)) <$> seq 0 n)).
  { rewrite <- app_assoc. f_equal. cbn [seq fmap list_fmap]. rewrite Z.add_0_r. f_equal.
    rewrite <- fmap_S_seq, <- list_fmap_compose. apply list_fmap_ext. intros i x _. simpl. f_equal. lia. }
  rewrite Hm. simpl. case_if; apply IH.
Qed.

Lemma parse_turn ok f s p start r cap arr :
  skip_while is_separator s = p -> strtol p = Some (start, r) -> 0 <= start ->
  parse_loop ok (S f) s cap arr =
    match push_range ok (Z.to_nat ((range_end start r).1 - start + 1)) start cap arr with
    | None => None
    | Some (cap', arr') => parse_loop ok f (range_end start r).2 cap' arr'
    end.
Proof.
  intros Hp Hs H0. simpl. rewrite Hp. destruct p as [|c p]; [discriminate Hs|]. rewrite Hs.
  destruct (Z.ltb_spec start 0); [lia|]. by destruct (range_end start r).
Qed.

(** One printed range is consumed by one turn of the loop. *)
Lemma parse_one f r s cap arr :
  range_ok r -> (exists c s', s = c :: s' /\ (c = 44 \/ c = 10)) ->
  exists cap', parse_loop (fun _ => true) (S f) (44 :: print_range r ++ s) cap arr = parse_loop (fun _ => true) f s cap' (arr ++ cpus_of r).
Proof.
  destruct r as [a b]. intros [[Ha Hab] Hb] (c0 & s' & -> & Hc0). cbn [fst snd] in *.
  set (s := c0 :: s'). assert (Hs : stops s /\ c0 <> 45) by (unfold s; destruct Hc0 as [-> | ->]; done). destruct Hs as [Hs Hn].
  assert (Hskip : forall w, skip_while is_separator (print_dec a ++ w) = print_dec a ++ w).
  { intros w. destruct (print_dec_head a ltac:(lia)) as (c & ds & -> & Hc). simpl. by destruct (digit_plain c Hc) as (_ & _ & _ & ->). }
  assert (Hcp : (fun i => u32 (a + Z.of_nat i)) <$> seq 0 (Z.to_nat (b - a + 1)) = cpus_of (a, b)).
  { unfold cpus_of. simpl. apply list_fmap_ext. intros i x Hx. apply lookup_seq in Hx as [-> Hx]. apply u32_small. lia. }
  destruct (push_range_ok (Z.to_nat (b - a + 1)) a cap arr) as [cap' Hp]. rewrite Hcp in Hp. exists cap'.
  rewrite (parse_turn _ f _ (print_range (a, b) ++ s) a ((if a =? b then [] else 45 :: print_dec b) ++ s)); [|..|done].
  2: { change (skip_while is_separator (44 :: print_range (a, b) ++ s)) with (skip_while is_separator (print_range (a, b) ++ s)).
       unfold print_range. simpl fst. simpl snd. by rewrite <- app_assoc, Hskip. }
  2: { unfold print_range. simpl fst. simpl snd. rewrite <- app_assoc. apply strtol_print; [lia|]. by case_if. }
  assert (Hre : range_end a ((if a =? b then [] else 45 :: print_dec b) ++ s) = (b, s)).
  { destruct (Z.eqb_spec a b) as [<- |Hneq]; [unfold range_end, s; simpl; by destruct (Z.eqb_spec c0 45)|].
    unfold range_end. simpl. rewrite strtol_print by (done || lia). by destruct (Z.leb_spec a b); [|lia]. }
  rewrite Hre. cbn [fst snd]. by rewrite Hp.
Qed.

Lemma parse_print_loop f rs cap arr :
  (length rs < f)%nat -> Forall range_ok rs ->
  parse_loop (fun _ => true) f (concat ((fun r => 44 :: print_range r) <$> rs) ++ [10]) cap arr = Some (arr ++ concat (cpus_of <$> rs)).
Proof.
  intros Hf Hr. revert f cap arr Hf. induction Hr as [|r rs Hr Hrs IH]; intros f cap arr Hf; (destruct f as [|f]; [simpl in Hf; lia|]).
  - simpl. by rewrite app_nil_r.
  - cbn [fmap list_fmap concat app]. rewrite <- app_assoc.
    destruct (parse_one f r (concat ((fun r => 44 :: print_range r) <$> rs) ++ [10]) cap arr Hr) as [cap' ->].
    { destruct rs as [|r' rs']; [exists 10, []|eexists 44, _]; (split; [reflexivity|tauto]). }
    rewrite IH by (simpl in Hf; lia). by rewrite <- app_assoc.
Qed.

Lemma print_range_length r : range_ok r -> (1 <= length (print_range r))%nat.
Proof.
  intros [[H1 H2] H3]. unfold print_range. rewrite length_app. destruct (print_dec_head r.1 ltac:(lia)) as (c & ds & -> & _). simpl. lia.
Qed.

Lemma printed_length rs : Forall range_ok rs -> (length rs <= length (concat ((fun r => 44%Z :: print_range r) <$> rs)))%nat.
Proof. induction 1 as [|r rs Hr _ IH]; [done|]. cbn [fmap list_fmap concat app length]. rewrite length_app. lia. Qed.

Lemma parse_loop_sep ok f c s cap arr : is_separator c = true -> parse_loop ok (S f) (c :: s) cap arr = parse_loop ok (S f) s cap arr.
Proof. intros Hc. simpl. by rewrite Hc. Qed.

(** C38. parse_cpulist reads back what the kernel prints: for every non-empty
    list of ranges of 32-bit cpu numbers, the list format ("0-3,8,10-11" and a
    newline) parses to exactly the cpus of the ranges, in order, when memory
    does not run out. *)
Theorem parse_print_cpulist rs :
  rs <> [] -> Forall range_ok rs ->
  parse_cpulist true (fun _ => true) (print_cpulist rs) =
    Some (concat (cpus_of <$> rs), u32 (Z.of_nat (length (concat (cpus_of <$> rs))))).
Proof.
  intros Hne Hr. unfold parse_cpulist. simpl negb. cbv iota.
  assert (Hl : parse_loop (fun _ => true) (S (length (print_cpulist rs))) (print_cpulist rs) 16 [] = Some (concat (cpus_of <$> rs))).
  { destruct rs as [|r rs]; [done|]. unfold print_cpulist. cbn [fmap list_fmap concat drop app].
    rewrite <- (parse_loop_sep _ _ 44) by done.
    set (body := (print_range r ++ concat ((fun r0 => 44 :: print_range r0) <$> rs)) ++ [10]).
    change (44 :: body) with (concat ((fun r => 44 :: print_range r) <$> (r :: rs)) ++ [10]).
    apply (parse_print_loop _ (r :: rs)); [|done]. unfold body. rewrite !length_app.
    apply Forall_cons in Hr as [Hr1 Hr2]. pose proof (printed_length rs Hr2). pose proof (print_range_length r Hr1). rewrite drop_0, length_app. simpl. lia. }
  rewrite Hl. destruct (concat (cpus_of <$> rs)) as [|x l] eqn:E; [exfalso|done].
  destruct rs as [|r rs]; [done|]. apply Forall_cons in Hr as [[[H1 H2] H3] _]. cbn [fmap list_fmap concat] in E.
  apply app_eq_nil in E as [E _]. apply (f_equal length) in E. unfold cpus_of in E. rewrite length_fmap, length_seq in E. simpl in E. lia.
Qed.

Lemma parse_print_cpulist_witness :
  parse_cpulist true (fun _ => true) (print_cpulist [(0, 3); (8, 8); (10, 11)]) = Some ([0; 1; 2; 3; 8; 10; 11], 7).
Proof.
  rewrite (parse_print_cpulist [(0, 3); (8, 8); (10, 11)]); [reflexivity|discriminate|].
  repeat constructor; simpl; lia.
Defined.

(** Text that is not in that format: a bad lower bound ends the parse, an upper
    bound below the lower one is read as a new entry. *)
Example parse_odd :
  parse_cpulist true (fun _ => true) [53; 45; 51] = Some ([5; 3], 2) /\ parse_cpulist true (fun _ => true) [55; 44; 120; 44; 56] = Some ([7], 1) /\
  parse_cpulist true (fun _ => true) [45; 49] = None.
Proof. vm_compute. split_and!; reflexivity. Qed.

(** ** The sort of the node ids *)

Lemma sort_inner_spec i js l :
  (i < length l)%nat -> NoDup js -> (forall j, j ∈ js -> (i < j < length l)%nat) ->
  let l' := sort_inner l i js in
  l' ≡ₚ l /\ (forall k, k <> i -> k ∉ js -> l' !!! k = l !!! k) /\ l' !!! i <= l !!! i /\ (forall j, j ∈ js -> l' !!! i <= l' !!! j).
Proof.
  intros Hi Hnd. revert l Hi. induction Hnd as [|j js Hj Hnd IH]; intros l Hi Hb.
  { simpl. split_and!; try done. intros j Hj. by apply not_elem_of_nil in Hj. }
  assert (Hjb : (i < j < length l)%nat) by (apply Hb; by left).
  set (l1 := if (l !!! j) <? (l !!! i) then swap l i j else l).
  assert (H1 : l1 ≡ₚ l /\ length l1 = length l /\ (forall k, k <> i -> k <> j -> l1 !!! k = l !!! k) /\ l1 !!! i <= l !!! i /\ l1 !!! i <= l1 !!! j).
  { unfold l1. destruct (Z.ltb_spec (l !!! j) (l !!! i)); [|split_and!; (done || lia)].
    split_and!; [apply swap_perm; lia|apply length_swap| | |]; rewrite ?swap_read by lia.
    - intros k Hk1 Hk2. rewrite swap_read by lia. by rewrite !decide_False.
    - rewrite decide_False, decide_True by lia. lia.
    - rewrite decide_False, decide_True by lia. rewrite decide_True by done. lia. }
  destruct H1 as (P1 & L1 & F1 & I1 & J1).
  destruct (IH l1) as (P2 & F2 & I2 & J2); [lia|intros k Hk; rewrite L1; apply Hb; by right|].
  change (sort_inner l i (j :: js)) with (sort_inner l1 i js). split_and!.
  - by rewrite P2.
  - intros k Hk1 Hk2. rewrite elem_of_cons in Hk2. rewrite F2, F1; tauto.
  - lia.
  - intros k [-> |Hk]%elem_of_cons; [|by apply J2]. rewrite (F2 j); [lia|lia|done].
Qed.

(** Positions below [n] are in order with everything behind them. *)
Definition ordered_to (n : nat) (l : list Z) : Prop := forall a b, (a < n)%nat -> (a < b < length l)%nat -> l !!! a <= l !!! b.

Lemma same_prefix (l l' : list Z) n :
  length l' = length l -> (n <= length l)%nat -> (forall k, (k < n)%nat -> l' !!! k = l !!! k) -> take n l' = take n l.
Proof.
  intros Hl Hn H. apply list_eq. intros k. destruct (decide (k < n)%nat) as [Hk|Hk].
  - rewrite !lookup_take_lt by done. specialize (H k Hk). destruct (lookup_lt_is_Some_2 l k ltac:(lia)) as [x Hx].
    destruct (lookup_lt_is_Some_2 l' k ltac:(lia)) as [y Hy]. rewrite !list_lookup_total_alt, Hx, Hy in H. simpl in H. congruence.
  - by rewrite !lookup_take_ge by lia.
Qed.

Lemma sort_turn l i :
  (i < length l)%nat -> ordered_to i l ->
  let l' := sort_inner l i (seq (S i) (length l - S i)) in l' ≡ₚ l /\ length l' = length l /\ ordered_to (S i) l'.
Proof.
  intros Hi Ho l'. destruct (sort_inner_spec i (seq (S i) (length l - S i)) l Hi) as (P & F & I & J).
  { apply NoDup_seq. }
  { intros j Hj. apply elem_of_seq in Hj. lia. }
  fold l' in P, F, I, J. assert (Hl : length l' = length l) by (by rewrite P). split_and!; [done..|].
  intros a b Ha Hb. rewrite Hl in Hb. destruct (decide (a = i)) as [-> |Hne]; [apply J, elem_of_seq; lia|].
  assert (Hpre : take i l' = take i l).
  { apply same_prefix; [done|lia|]. intros k Hk. apply F; [lia|]. rewrite elem_of_seq. lia. }
  rewrite (F a) by (rewrite ?elem_of_seq; lia). destruct (decide (b < i)%nat) as [Hbi|Hbi].
  { rewrite (F b) by (rewrite ?elem_of_seq; lia). apply Ho; lia. }
  assert (Hdrop : drop i l' ≡ₚ drop i l).
  { apply (Permutation_app_inv_l (take i l)). rewrite take_drop, <- Hpre, take_drop. done. }
  destruct (lookup_lt_is_Some_2 l' b ltac:(lia)) as [x Hx].
  assert (Hin : x ∈ drop i l).
  { rewrite <- Hdrop. apply list_elem_of_lookup. exists (b - i)%nat. rewrite lookup_drop. by replace (i + (b - i))%nat with b by lia. }
  apply list_elem_of_lookup in Hin as [c Hc]. rewrite lookup_drop in Hc. pose proof (lookup_lt_Some _ _ _ Hc).
  specialize (Ho a (i + c)%nat ltac:(lia) ltac:(lia)). rewrite !list_lookup_total_alt, Hc in Ho.
  rewrite !list_lookup_total_alt, Hx. done.
Qed.

Lemma sort_outer_spec k l i :
  (i + k = length l)%nat -> ordered_to i l -> sort_outer l (seq i k) ≡ₚ l /\ ordered_to (length l) (sort_outer l (seq i k)).
Proof.
  revert l i. induction k as [|k IH]; intros l i Hk Ho; [simpl; split; [done|]; by replace (length l) with i by lia|].
  destruct (sort_turn l i ltac:(lia) Ho) as (P & L & O). simpl.
  destruct (IH (sort_inner l i (seq (S i) (length l - S i))) (S i)) as [P' O']; [lia|done|].
  rewrite L in O'. split; [by rewrite P'|done].
Qed.

Lemma ordered_sorted l : ordered_to (length l) l -> StronglySorted Z.le l.
Proof.
  induction l as [|x l IH]; intros Ho; constructor.
  - apply IH. intros a b Ha Hb. by apply (Ho (S a) (S b)); simpl; lia.
  - apply Forall_forall. intros y Hy. apply list_elem_of_lookup in Hy as [b Hb]. pose proof (lookup_lt_Some _ _ _ Hb).
    specialize (Ho 0%nat (S b) ltac:(simpl; lia) ltac:(simpl; lia)). rewrite !list_lookup_total_alt in Ho. simpl in Ho. by rewrite Hb in Ho.
Qed.

(** C40. The in-place exchange sort of the node ids computes the same list as
    merge sort: the domains are numbered by increasing node id whatever order
    readdir returned. *)
Theorem sort_node_ids_merge_sort l : sort_node_ids l = merge_sort Z.le l.
Proof.
  destruct (sort_outer_spec (length l) l 0) as [P O]; [lia|intros a b Ha; lia|]. fold (sort_node_ids l) in P, O.
  apply (StronglySorted_unique Z.le).
  - apply ordered_sorted. by rewrite P at 1.
  - assert (Total Z.le) by (intros x y; lia). by apply StronglySorted_merge_sort; apply _.
  - by rewrite P, merge_sort_Permutation.
Qed.

(** ** The virtual topology *)

Definition start_cpu (base rem i : Z) : Z := i * base + Z.min i rem.

Lemma fmap_seqZ a n : (fun j => a + Z.of_nat j) <$> seq 0 (Z.to_nat n) = seqZ a n.
Proof. unfold seqZ. apply list_fmap_ext. intros i x _. simpl. lia. Qed.

Lemma virtual_loop_spec base rem k i :
  0 <= base -> 0 <= rem ->
  exists ds, virtual_domains_loop base rem (fun _ => true) (seq i k) (start_cpu base rem (Z.of_nat i)) = Some ds /\ length ds = k /\
    (forall j, (j < k)%nat -> ds !! j =
       Some (mk_domain (Z.of_nat (i + j)) (Z.of_nat (i + j))
              (seqZ (start_cpu base rem (Z.of_nat (i + j))) (base + (if Z.of_nat (i + j) <? rem then 1 else 0)))
              (base + (if Z.of_nat (i + j) <? rem then 1 else 0)))) /\
    concat (cpu_ids <$> ds) =
      seqZ (start_cpu base rem (Z.of_nat i)) (start_cpu base rem (Z.of_nat (i + k)) - start_cpu base rem (Z.of_nat i)).
Proof.
  intros Hb Hr. revert i. induction k as [|k IH]; intros i.
  { exists []. simpl. rewrite Nat.add_0_r, Z.sub_diag. split_and!; try done. intros; lia. }
  destruct (IH (S i)) as (ds & E & L & D & C).
  assert (Hst : start_cpu base rem (Z.of_nat (S i)) = start_cpu base rem (Z.of_nat i) + (base + (if Z.of_nat i <? rem then 1 else 0))).
  { unfold start_cpu. destruct (Z.ltb_spec (Z.of_nat i) rem); lia. }
  rewrite Hst in E. cbn [seq virtual_domains_loop]. rewrite E, fmap_seqZ. eexists. split; [done|]. split; [simpl; lia|]. split.
  - intros [|j] Hj; [by rewrite Nat.add_0_r|]. cbn [lookup list_lookup]. rewrite D by lia. by replace (S i + j)%nat with (i + S j)%nat by lia.
  - cbn [fmap list_fmap concat cpu_ids]. change (list_fmap _ _ cpu_ids ds) with (cpu_ids <$> ds). rewrite C, Hst.
    replace (i + S k)%nat with (S i + k)%nat by lia.
    set (c := base + (if Z.of_nat i <? rem then 1 else 0)).
    assert (Hc : 0 <= c) by (unfold c; case_if; lia).
    assert (Hmono : start_cpu base rem (Z.of_nat i) + c <= start_cpu base rem (Z.of_nat (S i + k))).
    { unfold c in Hst |- *. rewrite <- Hst. unfold start_cpu. nia. }
    rewrite <- seqZ_app by lia. f_equal. lia.
Qed.

(** cpus of the first [v] domains when [n] cpus are dealt to [v] domains. *)
Lemma start_cpu_all n v : 0 < v -> start_cpu (n / v) (n mod v) v = n.
Proof. intros Hv. unfold start_cpu. pose proof (Z.mod_pos_bound n v Hv). pose proof (Z.div_mod n v ltac:(lia)). nia. Qed.

Lemma virtual_count_range vd n : 0 <= vd -> 1 <= n -> 1 <= virtual_count vd n <= n.
Proof.
  intros H1 H2. unfold virtual_count. destruct (Z.eqb_spec vd 0); [destruct (Z.leb_spec 2 n)|];
    repeat match goal with |- context [?a <? ?b] => destruct (Z.ltb_spec a b) end; lia.
Qed.

Definition alloc_ok : numa_alloc := mk_alloc true true (fun _ => true).

Lemma virtual_topology_ok vd nproc :
  0 <= vd -> 1 <= nproc < 2 ^ 32 ->
  let v := virtual_count vd nproc in
  exists ds, loom_numa_virtual_topology vd nproc alloc_ok = (LOOMWORKS_OK, Some (mk_topology v ds nproc LOOM_NUMA_VIRTUAL)) /\
    length ds = Z.to_nat v /\ concat (cpu_ids <$> ds) = seqZ 0 nproc /\
    (forall j, 0 <= j < v -> ds !! Z.to_nat j =
       Some (mk_domain j j (seqZ (start_cpu (nproc / v) (nproc mod v) j) (nproc / v + (if j <? nproc mod v then 1 else 0)))
              (nproc / v + (if j <? nproc mod v then 1 else 0)))).
Proof.
  intros Hvd Hn v. pose proof (virtual_count_range vd nproc Hvd ltac:(lia)) as Hv. fold v in Hv.
  unfold loom_numa_virtual_topology, online. destruct (Z.ltb_spec nproc 1); [lia|]. rewrite u32_small by lia. fold v. simpl negb. cbv iota.
  destruct (virtual_loop_spec (nproc / v) (nproc mod v) (Z.to_nat v) 0) as (ds & E & L & D & C).
  { apply Z.div_pos; lia. }
  { apply Z.mod_pos_bound. lia. }
  assert (H0 : start_cpu (nproc / v) (nproc mod v) (Z.of_nat 0) = 0).
  { unfold start_cpu. pose proof (Z.mod_pos_bound nproc v ltac:(lia)). simpl. lia. }
  rewrite H0 in E, C. cbn [alloc_ok cpus_ok]. rewrite E. exists ds. split; [done|]. split; [done|]. split.
  - rewrite C. f_equal. rewrite Nat.add_0_l, Z2Nat.id by lia. rewrite start_cpu_all by lia. lia.
  - intros j Hj. rewrite D by lia. rewrite Nat.add_0_l, Z2Nat.id by lia. done.
Qed.

Definition share (base rem d : Z) : Z := base + (if d <? rem then 1 else 0).

Lemma start_disjoint base rem d d' : 0 <= base -> 0 <= d < d' -> 0 <= rem -> start_cpu base rem d + share base rem d <= start_cpu base rem d'.
Proof. intros Hb Hd Hr. unfold start_cpu, share. destruct (Z.ltb_spec d rem); nia. Qed.

Lemma map_worker_virtual vd nproc w topo :
  0 <= vd -> 1 <= nproc < 2 ^ 32 -> 0 <= w ->
  loom_numa_virtual_topology vd nproc alloc_ok = (LOOMWORKS_OK, Some topo) ->
  let v := virtual_count vd nproc in let d := w mod v in
  loom_numa_map_worker (Some topo) w =
    Some (d, start_cpu (nproc / v) (nproc mod v) d + (w / v) mod share (nproc / v) (nproc mod v) d) /\
  1 <= share (nproc / v) (nproc mod v) d.
Proof.
  intros Hvd Hn Hw Ht v d. destruct (virtual_topology_ok vd nproc Hvd Hn) as (ds & E & L & _ & D). fold v in E, L, D.
  rewrite E in Ht. injection Ht as <-. pose proof (virtual_count_range vd nproc Hvd ltac:(lia)) as Hv. fold v in Hv.
  assert (Hd : 0 <= d < v) by (apply Z.mod_pos_bound; lia).
  assert (Hb : 1 <= nproc / v) by (apply Z.div_le_lower_bound; lia).
  assert (Hsh : 1 <= share (nproc / v) (nproc mod v) d) by (unfold share; case_if; lia). split; [|done].
  unfold loom_numa_map_worker. cbn [domain_count domains]. destruct (Z.eqb_spec v 0); [lia|]. fold d. rewrite D by done.
  cbn [cpu_count cpu_ids]. fold (share (nproc / v) (nproc mod v) d). destruct (Z.ltb_spec 0 (share (nproc / v) (nproc mod v) d)); [|lia].
  pose proof (Z.mod_pos_bound (w / v) (share (nproc / v) (nproc mod v) d) ltac:(lia)) as Hm.
  rewrite lookup_seqZ_lt by lia. rewrite Z2Nat.id by lia. done.
Qed.

(** The virtual topology deals the online cpus out: the domains partition
    cpus 0 .. n-1 in order, every domain has at least one cpu and two domains
    differ by at most one; loom_numa_map_worker never reads outside an array,
    gives every worker a cpu of its own domain, and puts the first n workers on
    n different cpus. *)
Theorem numa_virtual_placement vd nproc :
  0 <= vd -> 1 <= nproc < 2 ^ 32 ->
  exists topo, loom_numa_virtual_topology vd nproc alloc_ok = (LOOMWORKS_OK, Some topo) /\
    concat (cpu_ids <$> domains topo) = seqZ 0 nproc /\
    (forall d d', d ∈ domains topo -> d' ∈ domains topo ->
       1 <= cpu_count d /\ cpu_count d = Z.of_nat (length (cpu_ids d)) /\ cpu_count d <= cpu_count d' + 1) /\
    (forall w, 0 <= w -> exists i d c, loom_numa_map_worker (Some topo) w = Some (i, c) /\ domains topo !! Z.to_nat i = Some d /\ c ∈ cpu_ids d) /\
    (forall w w', 0 <= w < nproc -> 0 <= w' < nproc ->
       snd <$> loom_numa_map_worker (Some topo) w = snd <$> loom_numa_map_worker (Some topo) w' -> w = w').
Proof.
  intros Hvd Hn. destruct (virtual_topology_ok vd nproc Hvd Hn) as (ds & E & L & C & D).
  set (v := virtual_count vd nproc) in *. eexists. split; [exact E|]. cbn [domains]. split; [done|].
  pose proof (virtual_count_range vd nproc Hvd ltac:(lia)) as Hv. fold v in Hv.
  assert (Hb : 1 <= nproc / v) by (apply Z.div_le_lower_bound; lia).
  pose proof (Z.mod_pos_bound nproc v ltac:(lia)) as Hr. pose proof (Z.div_mod nproc v ltac:(lia)) as Hdm.
  set (base := nproc / v) in *. set (rem := nproc mod v) in *.
  assert (Hsh : forall d, base <= share base rem d <= base + 1) by (intros d; unfold share; case_if; lia).
  assert (Hds : forall d, d ∈ ds -> cpu_count d = Z.of_nat (length (cpu_ids d)) /\ base <= cpu_count d <= base + 1).
  { intros d Hd. apply list_elem_of_lookup in Hd as [j Hj]. pose proof (lookup_lt_Some _ _ _ Hj).
    specialize (D (Z.of_nat j) ltac:(lia)). rewrite Nat2Z.id, Hj in D. fold (share base rem (Z.of_nat j)) in D. injection D as ->. cbn [cpu_count cpu_ids].
    rewrite length_seqZ. specialize (Hsh (Z.of_nat j)). split; lia. }
  assert (Hmap : forall w, 0 <= w -> loom_numa_map_worker (Some (mk_topology v ds nproc LOOM_NUMA_VIRTUAL)) w =
      Some (w mod v, start_cpu base rem (w mod v) + (w / v) mod share base rem (w mod v))).
  { intros w Hw. by destruct (map_worker_virtual vd nproc w _ Hvd Hn Hw E) as [-> _]. }
  split_and!.
  - intros d d' Hd Hd'. destruct (Hds d Hd), (Hds d' Hd'). split_and!; lia.
  - intros w Hw. assert (Hi : 0 <= w mod v < v) by (apply Z.mod_pos_bound; lia). eexists _, _, _. split; [by apply Hmap|].
    split; [by apply D|]. cbn [cpu_ids]. fold (share base rem (w mod v)). apply elem_of_seqZ. specialize (Hsh (w mod v)).
    pose proof (Z.mod_pos_bound (w / v) (share base rem (w mod v)) ltac:(lia)). lia.
  - assert (Hq : forall w, 0 <= w < nproc -> 0 <= w / v < share base rem (w mod v)).
    { intros w Hw. pose proof (Z.div_mod w v ltac:(lia)) as Hwd. pose proof (Z.mod_pos_bound w v ltac:(lia)).
      split; [apply Z.div_pos; lia|]. unfold share. destruct (Z.ltb_spec (w mod v) rem); nia. }
    intros w w' Hw Hw'. rewrite !Hmap by lia. pose proof (Hq w Hw) as Q. pose proof (Hq w' Hw') as Q'. simpl. rewrite (Z.mod_small (w / v)), (Z.mod_small (w' / v)) by done. intros [= He].
    pose proof (Z.div_mod w v ltac:(lia)). pose proof (Z.div_mod w' v ltac:(lia)).
    pose proof (Z.mod_pos_bound w v ltac:(lia)). pose proof (Z.mod_pos_bound w' v ltac:(lia)).
    destruct (Z.lt_trichotomy (w mod v) (w' mod v)) as [Hlt|[Heq|Hgt]].
    + pose proof (start_disjoint base rem (w mod v) (w' mod v)). lia.
    + rewrite Heq in He. assert (w / v = w' / v) by lia. congruence.
    + pose proof (start_disjoint base rem (w' mod v) (w mod v)). lia.
Qed.

Lemma numa_virtual_placement_witness :
  exists topo, loom_numa_virtual_topology 3 8 alloc_ok = (LOOMWORKS_OK, Some topo) /\
    cpu_ids <$> domains topo = [[0; 1; 2]; [3; 4; 5]; [6; 7]] /\
    (fun w => loom_numa_map_worker (Some topo) w) <$> [0; 1; 2; 3; 7] = [Some (0, 0); Some (1, 3); Some (2, 6); Some (0, 1); Some (1, 5)] /\
    concat (cpu_ids <$> domains topo) = seqZ 0 8.
Proof.
  destruct (numa_virtual_placement 3 8 ltac:(lia) ltac:(lia)) as (topo & E & C & _). exists topo. split; [exact E|].
  assert (Et : topo = default topo (loom_numa_virtual_topology 3 8 alloc_ok).2) by (rewrite E; reflexivity).
  split; [rewrite Et; reflexivity|]. split; [rewrite Et; reflexivity|exact C].
Defined.
