(* ===== verification/Coroutine.v ===== *)
(** * Coroutine stacks (src/coroutine.c, include/loomworks/coroutine.h,
    src/coroutine_internal.h): the states and result codes, the mapped stacks
    with their reuse pool and budget, and the guard-band test.  mmap, mprotect
    and the allocator are inputs.  The execution of coroutines is in CoroExec.v. *)
From S2P Require Import Prelude Types.

Inductive loom_coro_state_t :=
  | LOOMWORKS_CORO_NEW | LOOMWORKS_CORO_RUNNING | LOOMWORKS_CORO_SUSPENDED | LOOMWORKS_CORO_SLEEPING
  | LOOMWORKS_CORO_DONE | LOOMWORKS_CORO_ERROR | LOOMWORKS_CORO_TIMEOUT.

Inductive loom_coro_result_t :=
  | LOOMWORKS_CORO_OK | LOOMWORKS_CORO_ERR_ALLOC | LOOMWORKS_CORO_ERR_CONTEXT | LOOMWORKS_CORO_ERR_MPROTECT
  | LOOMWORKS_CORO_ERR_INVALID | LOOMWORKS_CORO_ERR_GUARD | LOOMWORKS_CORO_ERR_RUNNING | LOOMWORKS_CORO_ERR_TIMER
  | LOOMWORKS_CORO_ERR_TIMEOUT | LOOMWORKS_CORO_ERR_FAILED.

#[export] Instance coro_state_eq_dec : EqDecision loom_coro_state_t. Proof. solve_decision. Defined.
#[export] Instance coro_result_eq_dec : EqDecision loom_coro_result_t. Proof. solve_decision. Defined.

Definition LOOMWORKS_CORO_DEFAULT_STACK_SIZE : Z := 64 * 1024.
Definition LOOMWORKS_CORO_GUARD_PAGES_EACH : Z := 1.
Definition LOOMWORKS_CORO_STACK_POOL_CAP : Z := 64.
Definition LOOMWORKS_CORO_MAX_TOTAL_STACK_BYTES : Z := 256 * 1024 * 1024.

(** ** Stacks *)

(** A mapping and the usable part of it. *)
Record mapping := mk_mapping { mmap_base : Z; mmap_size : Z; stack_start : Z; stack_end : Z }.

Record stacks := mk_stacks {
  stack_pool : list (Z * mapping);         (* g_stack_pool: (stack_size, mapping), front first *)
  stack_pool_count : Z;                    (* g_stack_pool_count, size_t *)
  total_mapped : Z;                        (* g_total_stack_mapped, size_t *)
  live_stacks : gmap nat (Z * mapping);    (* coroutines with a stack: (stack_size, mapping) *)
}.

Definition no_stacks : stacks := mk_stacks [] 0 0 ∅.

Definition page_size (psl : Z) : Z := if psl <=? 0 then 4096 else psl.
Definition usable_pages (ps sz : Z) : Z := (sz + ps - 1) / ps.
Definition guard_pages : Z := LOOMWORKS_CORO_GUARD_PAGES_EACH * 2.

(** The mapping allocate_stack lays out at [base]. *)
Definition lay_out (ps sz base : Z) : mapping :=
  mk_mapping base ((guard_pages + usable_pages ps sz) * ps) (base + guard_pages * ps)
    (base + guard_pages * ps + usable_pages ps sz * ps).

(** The first pooled mapping of exactly that size, unlinked. *)
Fixpoint pool_find (sz : Z) (l : list (Z * mapping)) : option (mapping * list (Z * mapping)) :=
  match l with
  | [] => None
  | (k, m) :: l =>
      if k =? sz then Some (m, l) else match pool_find sz l with Some (m', l') => Some (m', (k, m) :: l') | None => None end
  end.

(** [base] = None: mmap failed. *)
Definition allocate_stack (st : stacks) (id : nat) (sz psl : Z) (base : option Z) (mprotect_ok : bool) : loom_coro_result_t * stacks :=
  match pool_find sz (stack_pool st) with
  | Some (m, l) =>
      (LOOMWORKS_CORO_OK,
       mk_stacks l (stack_pool_count st -64 1) (total_mapped st +64 mmap_size m) (<[id := (sz, m)]> (live_stacks st)))
  | None =>
      let ps := page_size psl in
      let total_sz := (guard_pages + usable_pages ps sz) * ps in
      if LOOMWORKS_CORO_MAX_TOTAL_STACK_BYTES <? (total_mapped st +64 total_sz) then (LOOMWORKS_CORO_ERR_ALLOC, st)
      else match base with
           | None => (LOOMWORKS_CORO_ERR_ALLOC, st)
           | Some b =>
               let total' := total_mapped st +64 total_sz in
               if mprotect_ok then
                 (LOOMWORKS_CORO_OK, mk_stacks (stack_pool st) (stack_pool_count st) total' (<[id := (sz, lay_out ps sz b)]> (live_stacks st)))
               else (LOOMWORKS_CORO_ERR_MPROTECT, mk_stacks (stack_pool st) (stack_pool_count st) (total' -64 total_sz) (live_stacks st))
           end
  end.

Definition deallocate_stack (st : stacks) (id : nat) (malloc_ok : bool) : stacks :=
  match live_stacks st !! id with
  | None => st
  | Some (sz, m) =>
      if (stack_pool_count st <? LOOMWORKS_CORO_STACK_POOL_CAP) && malloc_ok then
        mk_stacks ((sz, m) :: stack_pool st) (stack_pool_count st +64 1) (total_mapped st -64 mmap_size m) (delete id (live_stacks st))
      else mk_stacks (stack_pool st) (stack_pool_count st) (total_mapped st -64 mmap_size m) (delete id (live_stacks st))
  end.

(** At process exit: every pooled mapping is unmapped. *)
Definition free_all_pooled_stacks (st : stacks) : stacks := mk_stacks [] 0 (total_mapped st) (live_stacks st).

(** loom_coro_create: the size asked for, and the checks before the stack. *)
Definition effective_size (stack_size : Z) : Z := if 0 <? stack_size then stack_size else LOOMWORKS_CORO_DEFAULT_STACK_SIZE.

Definition create_stack (st : stacks) (id : nat) (stack_size psl : Z) (calloc_ok : bool) (base : option Z) (mprotect_ok : bool)
  : loom_coro_result_t * stacks :=
  if negb calloc_ok then (LOOMWORKS_CORO_ERR_ALLOC, st)
  else if LOOMWORKS_CORO_MAX_TOTAL_STACK_BYTES <? effective_size stack_size then (LOOMWORKS_CORO_ERR_INVALID, st)
  else allocate_stack st id (effective_size stack_size) psl base mprotect_ok.

Definition loom_coro_resource_usage_bytes (st : stacks) : Z := total_mapped st.

Definition loom_coro_stack_info (st : stacks) (id : nat) : option (Z * Z) :=
  (fun x => (stack_start x.2, stack_end x.2)) <$> live_stacks st !! id.

(** All mappings the process holds for coroutines. *)
Definition mappings (st : stacks) : list (Z * mapping) := stack_pool st ++ (snd <$> map_to_list (live_stacks st)).

Definition apart (m m' : mapping) : Prop := mmap_base m + mmap_size m <= mmap_base m' \/ mmap_base m' + mmap_size m' <= mmap_base m.

Inductive stack_event :=
  | SCreate (id : nat) (size : Z) (calloc_ok : bool) (base : option Z) (mprotect_ok : bool)
  | SDestroy (id : nat) (malloc_ok : bool)
  | SFreePooled.

(** mmap returns a region that overlaps none of the mappings in use, and a new
    coroutine object is not one of the live ones. *)
Definition stack_enabled (psl : Z) (st : stacks) (ev : stack_event) : Prop :=
  match ev with
  | SCreate id size _ (Some b) _ =>
      live_stacks st !! id = None /\ forall km, km ∈ mappings st -> apart (lay_out (page_size psl) (effective_size size) b) km.2
  | SCreate id _ _ None _ => live_stacks st !! id = None
  | SDestroy _ _ | SFreePooled => True
  end.

Definition stack_step (psl : Z) (st : stacks) (ev : stack_event) : stacks :=
  match ev with
  | SCreate id size c b m => (create_stack st id size psl c b m).2
  | SDestroy id m => deallocate_stack st id m
  | SFreePooled => free_all_pooled_stacks st
  end.

Inductive stacks_reach (psl : Z) : stacks -> Prop :=
  | sr_start : stacks_reach psl no_stacks
  | sr_step st ev : stacks_reach psl st -> stack_enabled psl st ev -> stacks_reach psl (stack_step psl st ev).

(** The guard handler's test: does a fault at [addr] hit the guard band? *)
Definition in_guard_band (m : mapping) (addr : Z) : bool := (mmap_base m <=? addr) && (addr <? stack_start m).

(** *** Invariant *)

Definition mapping_ok (psl : Z) (km : Z * mapping) : Prop :=
  let ps := page_size psl in
  0 < km.1 /\ km.2 = lay_out ps km.1 (mmap_base km.2).

Record stacks_inv (psl : Z) (st : stacks) : Prop := {
  st_ok : Forall (mapping_ok psl) (mappings st);
  st_base : NoDup ((fun km => mmap_base km.2) <$> mappings st);
  st_apart : forall a b, a ∈ mappings st -> b ∈ mappings st -> mmap_base a.2 <> mmap_base b.2 -> apart a.2 b.2;
  st_count : stack_pool_count st = Z.of_nat (length (stack_pool st)) /\ stack_pool_count st <= LOOMWORKS_CORO_STACK_POOL_CAP;
  st_total : total_mapped st = u64 (foldr Z.add 0 ((fun km => mmap_size km.2) <$> (snd <$> map_to_list (live_stacks st))));
}.

Lemma page_size_pos psl : 0 < page_size psl.
Proof. unfold page_size. destruct (Z.leb_spec psl 0); lia. Qed.

Lemma usable_bounds ps sz : 0 < ps -> 0 < sz -> sz <= usable_pages ps sz * ps < sz + ps.
Proof.
  intros Hp Hs. unfold usable_pages. pose proof (Z.div_mod (sz + ps - 1) ps ltac:(lia)). pose proof (Z.mod_pos_bound (sz + ps - 1) ps Hp). nia.
Qed.

Lemma lay_out_size ps sz b : 0 < ps -> 0 < sz -> 2 * ps < mmap_size (lay_out ps sz b).
Proof. intros Hp Hs. pose proof (usable_bounds ps sz Hp Hs). simpl. unfold guard_pages, LOOMWORKS_CORO_GUARD_PAGES_EACH. nia. Qed.

Lemma effective_pos sz : 0 < effective_size sz.
Proof. unfold effective_size, LOOMWORKS_CORO_DEFAULT_STACK_SIZE. destruct (Z.ltb_spec 0 sz); lia. Qed.

Lemma pool_find_spec sz l m l' : pool_find sz l = Some (m, l') -> l ≡ₚ (sz, m) :: l'.
Proof.
  revert l'. induction l as [|[k m0] l IH]; intros l' H; simpl in H; [done|]. destruct (Z.eqb_spec k sz) as [->|].
  - by simplify_eq.
  - destruct (pool_find sz l) as [[m1 l1]|]; simplify_eq. rewrite (IH l1 eq_refl). apply perm_swap.
Qed.

Definition sizes (l : list (Z * mapping)) : Z := foldr Z.add 0 ((fun km => mmap_size km.2) <$> l).

Lemma sizes_perm l l' : l ≡ₚ l' -> sizes l = sizes l'.
Proof.
  induction 1 as [|x l l' _ IH|x y l|l l' l'' _ IH1 _ IH2]; unfold sizes in *; cbn [fmap list_fmap foldr] in *; [done|by rewrite IH|lia|congruence].
Qed.

(** The invariant only looks at which mappings there are. *)
Lemma regions_perm psl l l' :
  l ≡ₚ l' ->
  Forall (mapping_ok psl) l /\ NoDup ((fun km => mmap_base km.2) <$> l) /\ (forall a b, a ∈ l -> b ∈ l -> mmap_base a.2 <> mmap_base b.2 -> apart a.2 b.2) ->
  Forall (mapping_ok psl) l' /\ NoDup ((fun km => mmap_base km.2) <$> l') /\ (forall a b, a ∈ l' -> b ∈ l' -> mmap_base a.2 <> mmap_base b.2 -> apart a.2 b.2).
Proof.
  intros P (H1 & H2 & H3). split_and!; [by rewrite <- P|by rewrite <- P|]. intros a b Ha Hb. rewrite <- P in Ha, Hb. by apply H3.
Qed.

Definition regions_ok (psl : Z) (l : list (Z * mapping)) : Prop :=
  Forall (mapping_ok psl) l /\ NoDup ((fun km => mmap_base km.2) <$> l) /\
  (forall a b, a ∈ l -> b ∈ l -> mmap_base a.2 <> mmap_base b.2 -> apart a.2 b.2).

Lemma regions_cons psl km l :
  regions_ok psl l -> mapping_ok psl km -> (forall x, x ∈ l -> apart km.2 x.2) -> regions_ok psl (km :: l).
Proof.
  intros (H1 & H2 & H3) Hok Hap. pose proof (page_size_pos psl) as Hps.
  assert (Hsz : forall x, mapping_ok psl x -> 0 < mmap_size x.2).
  { intros x [Hx ->]. pose proof (lay_out_size (page_size psl) x.1 (mmap_base x.2) Hps Hx). lia. }
  assert (Hall : forall x, x ∈ l -> 0 < mmap_size x.2) by (intros x Hx; apply Hsz; by eapply Forall_forall in H1).
  split_and!; [by constructor| |].
  - cbn [fmap list_fmap]. apply NoDup_cons. split; [|done]. intros (x & Hb & Hx)%list_elem_of_fmap.
    specialize (Hap x Hx). specialize (Hall x Hx). specialize (Hsz km Hok). unfold apart in Hap. lia.
  - intros a b [-> |Ha]%elem_of_cons [-> |Hb]%elem_of_cons Hne; [done|by apply Hap| |by apply H3].
    specialize (Hap a Ha). unfold apart in *. tauto.
Qed.

Lemma regions_tail psl km l : regions_ok psl (km :: l) -> regions_ok psl l.
Proof.
  intros (H1 & H2 & H3). apply Forall_cons in H1 as [_ H1]. cbn [fmap list_fmap] in H2. apply NoDup_cons in H2 as [_ H2].
  split_and!; [done..|]. intros a b Ha Hb. apply H3; by right.
Qed.

Lemma live_insert st id x : live_stacks st !! id = None -> snd <$> map_to_list (<[id := x]> (live_stacks st)) ≡ₚ x :: (snd <$> map_to_list (live_stacks st)).
Proof. intros H. by rewrite map_to_list_insert. Qed.

Lemma live_delete st id x : live_stacks st !! id = Some x -> snd <$> map_to_list (live_stacks st) ≡ₚ x :: (snd <$> map_to_list (delete id (live_stacks st))).
Proof. intros H. by rewrite <- (map_to_list_delete _ _ _ H). Qed.

Lemma stacks_inv_regions psl st : stacks_inv psl st -> regions_ok psl (mappings st).
Proof. intros [H1 H2 H3 _ _]. by split_and!. Qed.

(** The sum of a list that lost or gained one mapping. *)
Lemma sizes_cons km l : sizes (km :: l) = mmap_size km.2 + sizes l.
Proof. done. Qed.

Lemma allocate_stack_inv psl st id sz b mp :
  stacks_inv psl st -> 0 < sz -> live_stacks st !! id = None ->
  (forall x, b = Some x -> forall km, km ∈ mappings st -> apart (lay_out (page_size psl) sz x) km.2) ->
  stacks_inv psl (allocate_stack st id sz psl b mp).2.
Proof.
  intros H Hsz Hid Hap. pose proof (stacks_inv_regions _ _ H) as Hreg. destruct H as [H1 H2 H3 [H4 H4'] H5].
  fold (sizes (snd <$> map_to_list (live_stacks st))) in H5. unfold allocate_stack.
  destruct (pool_find sz (stack_pool st)) as [[m l]|] eqn:Ef.
  - apply pool_find_spec in Ef. pose proof (live_insert st id (sz, m) Hid) as Hl.
    assert (P : mappings st ≡ₚ mappings (mk_stacks l (stack_pool_count st -64 1) (total_mapped st +64 mmap_size m) (<[id := (sz, m)]> (live_stacks st)))).
    { unfold mappings. simpl. rewrite Hl, Ef. simpl. by rewrite <- Permutation_middle. }
    destruct (regions_perm psl _ _ P Hreg) as (R1 & R2 & R3). split; simpl; auto.
    + rewrite H4, Ef. simpl. rewrite Ef in H4. simpl in H4. rewrite H4 in H4'. unfold LOOMWORKS_CORO_STACK_POOL_CAP in *.
      rewrite u64_small by lia. split; lia.
    + fold (sizes (snd <$> map_to_list (<[id:=(sz, m)]> (live_stacks st)))). rewrite (sizes_perm _ _ Hl), sizes_cons, H5, u64_add_l. simpl. f_equal. lia.
  - cbv zeta. destruct (_ <? _); [by split|]. destruct b as [x|]; [|by split]. destruct mp; simpl.
    + pose proof (live_insert st id (sz, lay_out (page_size psl) sz x) Hid) as Hl.
      assert (R : regions_ok psl ((sz, lay_out (page_size psl) sz x) :: mappings st)).
      { apply regions_cons; [done|by split|]. by apply Hap. }
      match goal with |- stacks_inv _ ?s => assert (P : (sz, lay_out (page_size psl) sz x) :: mappings st ≡ₚ mappings s) end.
      { unfold mappings. simpl. rewrite Hl. by rewrite <- Permutation_middle. }
      destruct (regions_perm psl _ _ P R) as (R1 & R2 & R3). split; simpl; auto.
      match goal with |- context [foldr Z.add 0 (?f <$> ?l)] => change (foldr Z.add 0 (f <$> l)) with (sizes l) end.
      rewrite (sizes_perm _ _ Hl), sizes_cons, H5, u64_add_l. simpl. f_equal. lia.
    + split; simpl; auto. rewrite u64_sub_l. fold (sizes (snd <$> map_to_list (live_stacks st))). rewrite H5.
      rewrite <- (u64_small (u64 (sizes _))) at 2 by apply u64_range. f_equal. lia.
Qed.

Lemma dealloc_inv psl st id ml : stacks_inv psl st -> stacks_inv psl (deallocate_stack st id ml).
Proof.
  intros H. pose proof (stacks_inv_regions _ _ H) as Hreg. pose proof H as [H1 H2 H3 [H4 H4'] H5].
  fold (sizes (snd <$> map_to_list (live_stacks st))) in H5. unfold deallocate_stack.
  destruct (live_stacks st !! id) as [[sz m]|] eqn:Ei; [|done]. pose proof (live_delete st id (sz, m) Ei) as Hl.
  assert (Ht : u64 (total_mapped st - mmap_size m) = u64 (sizes (snd <$> map_to_list (delete id (live_stacks st))))).
  { rewrite H5, u64_sub_l, (sizes_perm _ _ Hl), sizes_cons. simpl. f_equal. lia. }
  destruct (_ && _) eqn:E.
  - zbool. match goal with |- stacks_inv _ ?s => assert (P : mappings st ≡ₚ mappings s) end.
    { unfold mappings. simpl. rewrite Hl. by rewrite <- Permutation_middle. }
    destruct (regions_perm psl _ _ P Hreg) as (R1 & R2 & R3). split; simpl; auto.
    unfold LOOMWORKS_CORO_STACK_POOL_CAP in *. rewrite u64_small by lia. split; lia.
  - match goal with |- stacks_inv _ ?s => assert (P : mappings st ≡ₚ (sz, m) :: mappings s) end.
    { unfold mappings. simpl. rewrite Hl. by rewrite <- Permutation_middle. }
    destruct (regions_tail _ _ _ (regions_perm psl _ _ P Hreg)) as (R1 & R2 & R3). split; simpl; auto.
Qed.

Lemma free_pooled_inv psl st : stacks_inv psl st -> stacks_inv psl (free_all_pooled_stacks st).
Proof.
  intros [H1 H2 H3 _ H5]. unfold mappings in *. apply Forall_app in H1 as [_ H1]. rewrite fmap_app, NoDup_app in H2. destruct H2 as (_ & _ & H2).
  split; unfold mappings; simpl; auto; [|done]. intros a b Ha Hb. apply H3; rewrite elem_of_app; by right.
Qed.

Lemma stacks_reach_inv psl st : stacks_reach psl st -> stacks_inv psl st.
Proof.
  induction 1 as [|st ev _ IH He].
  - split; simpl; try done; try (by constructor). intros a b Ha. by apply not_elem_of_nil in Ha.
  - destruct ev as [id size c b mp|id ml|]; simpl in *; [|by apply dealloc_inv|by apply free_pooled_inv].
    unfold create_stack. destruct c; [simpl|done]. destruct (_ <? _); [done|].
    apply allocate_stack_inv; [done|apply effective_pos| |].
    + destruct b; [apply He|done].
    + intros x ->. apply He.
Qed.

Lemma live_distinct psl st id id' x x' :
  stacks_inv psl st -> live_stacks st !! id = Some x -> live_stacks st !! id' = Some x' -> id <> id' -> mmap_base x.2 <> mmap_base x'.2.
Proof.
  intros [_ H2 _ _ _] Hx Hx' Hne Heq.
  apply elem_of_map_to_list, list_elem_of_lookup in Hx as [i Hi]. apply elem_of_map_to_list, list_elem_of_lookup in Hx' as [j Hj].
  assert (Hk : forall k id0 x0, map_to_list (live_stacks st) !! k = Some (id0, x0) ->
    ((fun km => mmap_base km.2) <$> mappings st) !! (length (stack_pool st) + k)%nat = Some (mmap_base x0.2)).
  { intros k id0 x0 E. unfold mappings. rewrite list_lookup_fmap, lookup_app_r by lia.
    replace (length (stack_pool st) + k - length (stack_pool st))%nat with k by lia. by rewrite list_lookup_fmap, E. }
  pose proof (Hk _ _ _ Hi) as H1. pose proof (Hk _ _ _ Hj) as H3. rewrite <- Heq in H3.
  pose proof (NoDup_lookup _ _ _ _ H2 H1 H3). assert (i = j) by lia. subst. rewrite Hi in Hj. congruence.
Qed.

(** C33. Coroutine stacks never overlap: in every history of creations and
    destructions, with any reuse of pooled mappings, two live coroutines own
    disjoint mappings, none of which is in the pool; each usable stack is at
    least as large as asked for, fills the mapping above its two guard pages,
    and a fault just below it is in the band the guard handler tests; the pool
    holds at most 64 mappings and the tracked total is exactly the size of the
    mappings of the live coroutines. *)
Theorem coro_stacks_disjoint psl st :
  stacks_reach psl st ->
  (forall id id' x x', live_stacks st !! id = Some x -> live_stacks st !! id' = Some x' -> id <> id' -> apart x.2 x'.2) /\
  (forall id x km, live_stacks st !! id = Some x -> km ∈ stack_pool st -> apart x.2 km.2) /\
  (forall id sz m, live_stacks st !! id = Some (sz, m) ->
     sz <= stack_end m - stack_start m /\ stack_end m = mmap_base m + mmap_size m /\
     forall addr, in_guard_band m addr = true <-> mmap_base m <= addr < mmap_base m + 2 * page_size psl) /\
  (length (stack_pool st) <= 64)%nat /\
  loom_coro_resource_usage_bytes st = u64 (sizes (snd <$> map_to_list (live_stacks st))).
Proof.
  intros Hr. pose proof (stacks_reach_inv _ _ Hr) as Hinv. pose proof Hinv as [H1 H2 H3 [H4 H4'] H5].
  assert (Hin : forall id x, live_stacks st !! id = Some x -> x ∈ mappings st).
  { intros id x Hx. unfold mappings. rewrite elem_of_app. right. apply list_elem_of_fmap. exists (id, x). split; [done|]. by apply elem_of_map_to_list. }
  split_and!.
  - intros id id' x x' Hx Hx' Hne. apply H3; [by eapply Hin..|]. by eapply live_distinct.
  - intros id x km Hx Hkm. apply H3; [by eapply Hin|unfold mappings; rewrite elem_of_app; by left|].
    intros Heq. unfold mappings in H2. rewrite fmap_app, NoDup_app in H2. destruct H2 as (_ & Hd & _).
    apply (Hd (mmap_base km.2)); [by apply (list_elem_of_fmap_2 (fun km => mmap_base km.2))|].
    rewrite <- Heq. apply (list_elem_of_fmap_2 (fun km => mmap_base km.2)).
    apply list_elem_of_fmap. exists (id, x). split; [done|]. by apply elem_of_map_to_list.
  - intros id sz m Hx. rewrite Forall_forall in H1. destruct (H1 _ (Hin _ _ Hx)) as [Hs Hm]. simpl in Hs, Hm.
    pose proof (usable_bounds _ _ (page_size_pos psl) Hs). rewrite Hm. simpl. unfold guard_pages, LOOMWORKS_CORO_GUARD_PAGES_EACH.
    split_and!; [lia|lia|]. intros addr. unfold in_guard_band. simpl. rewrite andb_true_iff, Z.leb_le, Z.ltb_lt.
    unfold guard_pages, LOOMWORKS_CORO_GUARD_PAGES_EACH. lia.
  - unfold LOOMWORKS_CORO_STACK_POOL_CAP in H4'. lia.
  - done.
Qed.

(** Two coroutines of the default size, the second in the stack the first left. *)
Lemma reuse_reach : exists st, stacks_reach 4096 st /\ live_stacks st = {[2%nat := (65536, lay_out 4096 65536 1000000)]} /\ stack_pool st = [].
Proof.
  set (st1 := stack_step 4096 no_stacks (SCreate 1 0 true (Some 1000000) true)).
  set (st2 := stack_step 4096 st1 (SDestroy 1 true)). set (st3 := stack_step 4096 st2 (SCreate 2 65536 true None true)).
  exists st3. split; [|split; vm_compute; reflexivity].
  repeat (apply sr_step; [|]); [constructor|split; [done|intros km Hkm; by apply not_elem_of_nil in Hkm]|done|vm_compute; reflexivity].
Qed.

Lemma coro_stacks_disjoint_witness :
  exists st, stacks_reach 4096 st /\ live_stacks st !! 2%nat = Some (65536, lay_out 4096 65536 1000000) /\
    65536 <= stack_end (lay_out 4096 65536 1000000) - stack_start (lay_out 4096 65536 1000000).
Proof.
  destruct reuse_reach as (st & Hr & Hl & _). exists st. split; [exact Hr|].
  assert (E : live_stacks st !! 2%nat = Some (65536, lay_out 4096 65536 1000000)) by (rewrite Hl; reflexivity).
  split; [exact E|]. destruct (coro_stacks_disjoint 4096 st Hr) as (_ & _ & H & _). exact (proj1 (H _ _ _ E)).
Defined.

(** The 256 MiB budget does not bound what is in use: a mapping taken
    from the pool is not checked against it, so a stack created, returned, and
    taken again after the budget went to another one makes the tracked total
    exceed LOOMWORKS_CORO_MAX_TOTAL_STACK_BYTES. *)
Theorem stack_budget_exceeded :
  exists st, stacks_reach 4096 st /\ LOOMWORKS_CORO_MAX_TOTAL_STACK_BYTES < loom_coro_resource_usage_bytes st.
Proof.
  set (m := 1024 * 1024). set (st1 := stack_step 4096 no_stacks (SCreate 1 (200 * m) true (Some (2 ^ 32)) true)).
  set (st2 := stack_step 4096 st1 (SDestroy 1 true)). set (st3 := stack_step 4096 st2 (SCreate 2 (210 * m) true (Some (2 ^ 33)) true)).
  set (st4 := stack_step 4096 st3 (SCreate 3 (200 * m) true None true)).
  exists st4. split; [|vm_compute; reflexivity].
  assert (E2 : mappings st2 = [(200 * m, lay_out 4096 (200 * m) (2 ^ 32))]) by (vm_compute; reflexivity).
  repeat (apply sr_step; [|]).
  - constructor.
  - split; [done|]. intros km Hkm. by apply not_elem_of_nil in Hkm.
  - done.
  - split; [vm_compute; reflexivity|]. rewrite E2. intros km ->%list_elem_of_singleton. right. vm_compute. discriminate.
  - vm_compute. reflexivity.
Qed.
