(* ===== verification/TimerThread.v ===== *)
(** * The timer thread (src/thread_pool.c: timer_thread_fn, ensure_timer_thread,
    coro_sleep_reg_hook and the stop in loom_pool_shutdown).

    One thread sleeps on timer_sem until the earliest deadline of the heap and
    moves the due entries to the ready FIFOs.  The heap is the one of Timer.v.
    A step is one critical section of timer_lock, one semaphore operation or an
    advance of the monotonic clock; [moved] records the entries handed to a
    worker with the time of the hand-over, [pushes] every arming with its time.
    sem_timedwait measures its duration on the realtime clock, which is taken
    to run at the rate of the monotonic one. *)
From S2P Require Import Prelude Types Timer Coroutine.

Definition NS : Z := 1000000000.

(** ** Durations *)

(** How long the thread means to sleep: to the root's deadline if that is in
    the future, else the one-second tick. *)
Definition wait_ns (t : timer_state) (now : Z) : Z :=
  match loom_timer_peek t with Some d => if now <? d then d - now else NS | None => NS end.

(** The absolute time given to sem_timedwait; the loop runs once at most when
    [nsec] is that of a clock. *)
Fixpoint carry (fuel : nat) (sec nsec : Z) : Z * Z :=
  match fuel with
  | O => (sec, nsec)
  | S f => if NS <=? nsec then carry f (sec + 1) (nsec - NS) else (sec, nsec)
  end.
Definition sem_deadline (sec nsec wait : Z) : Z * Z := carry 2 (sec + Z.quot wait NS) (nsec + Z.rem wait NS).

(** ** State *)

Inductive tphase :=
  | TTop                             (* before the clock and the root are read *)
  | TSleep (until : Z)               (* in sem_timedwait *)
  | TDrain (now : Z)                 (* moving the entries due at [now] *)
  | TExit.

#[export] Instance tphase_eq_dec : EqDecision tphase. Proof. solve_decision. Defined.

Record tthread := mk_tthread {
  heap : timer_state;
  timer_sem : nat;
  timer_created : bool;
  timer_thread_alive : bool;
  phase : tphase;
  clock : Z;
  since : Z;                         (* when the thread was last woken, or its token posted *)
  pushes : list (loom_timer_entry_t * Z);
  moved : list (loom_timer_entry_t * Z);
}.

Definition set_heap (s : tthread) (t : timer_state) : tthread :=
  mk_tthread t (timer_sem s) (timer_created s) (timer_thread_alive s) (phase s) (clock s) (since s) (pushes s) (moved s).
Definition set_phase (s : tthread) (p : tphase) (at_ : Z) : tthread :=
  mk_tthread (heap s) (timer_sem s) (timer_created s) (timer_thread_alive s) p (clock s) at_ (pushes s) (moved s).
Definition set_sem (s : tthread) (n : nat) : tthread :=
  mk_tthread (heap s) n (timer_created s) (timer_thread_alive s) (phase s) (clock s) (since s) (pushes s) (moved s).

(** sem_post(&pool->timer_sem): the first token makes a sleeper runnable. *)
Definition post (s : tthread) : tthread :=
  mk_tthread (heap s) (S (timer_sem s)) (timer_created s) (timer_thread_alive s) (phase s) (clock s)
    (match phase s with TSleep _ => if (timer_sem s =? 0)%nat then clock s else since s | _ => since s end) (pushes s) (moved s).

(** ** Operations *)

(** ensure_timer_thread; [spawn_ok] = pthread_create succeeds. *)
Definition ensure_timer_thread (s : tthread) (spawn_ok : bool) : loom_result_t * tthread :=
  if timer_created s then (LOOMWORKS_OK, s)
  else if spawn_ok then
    (LOOMWORKS_OK, mk_tthread (heap s) (timer_sem s) true true TTop (clock s) (clock s) (pushes s) (moved s))
  else (LOOMWORKS_ERR_ALLOC, s).

(** coro_sleep_reg_hook with its pool set. *)
Definition coro_sleep_reg_hook (s : tthread) (realloc_ok : bool) (e : loom_timer_entry_t) : loom_coro_result_t * tthread :=
  match loom_timer_push realloc_ok (heap s) e with
  | (true, t) =>
      (LOOMWORKS_CORO_OK,
       post (mk_tthread t (timer_sem s) (timer_created s) (timer_thread_alive s) (phase s) (clock s) (since s)
               ((e, clock s) :: pushes s) (moved s)))
  | (false, _) => (LOOMWORKS_CORO_ERR_TIMER, s)
  end.

(** One turn of the drain loop at [now]; [calloc_ok] = the ready node could be
    had.  The entry popped left room in the array, so the re-arming push does
    not call realloc. *)
Definition drain_step (s : tthread) (now : Z) (calloc_ok : bool) : tthread :=
  match loom_timer_peek (heap s) with
  | Some d =>
      if d <=? now then
        match loom_timer_pop_due (heap s) with
        | Some (e, t) =>
            if calloc_ok then
              mk_tthread t (timer_sem s) (timer_created s) (timer_thread_alive s) (phase s) (clock s) (since s) (pushes s)
                ((e, clock s) :: moved s)
            else post (set_phase (set_heap s (snd (loom_timer_push false t e))) TTop (since s))
        | None => set_phase s TTop (since s)
        end
      else set_phase s TTop (since s)
  | None => set_phase s TTop (since s)
  end.

Inductive tevent :=
  | ECreate (spawn_ok : bool)
  | EPush (realloc_ok : bool) (e : loom_timer_entry_t)   (* a coroutine exists only after the thread *)
  | ERemove (id : Z)                 (* a canceller takes an entry out *)
  | EClock (c : Z)
  | ELook                            (* clock, alive flag and root read *)
  | EWake                            (* sem_timedwait returns 0 or times out *)
  | EIntr                            (* it returns EINTR while the pool stops *)
  | ETurn (calloc_ok : bool)
  | EStop.                           (* loom_pool_shutdown clears the flag and posts *)

Definition tstep (s : tthread) (ev : tevent) : option tthread :=
  match ev with
  | ECreate ok => Some (snd (ensure_timer_thread s ok))
  | EPush ok e => if timer_created s then Some (snd (coro_sleep_reg_hook s ok e)) else None
  | ERemove id => match loom_timer_remove_by_task (heap s) id with Some (_, t) => Some (set_heap s t) | None => Some s end
  | EClock c =>
      if clock s <=? c then
        Some (mk_tthread (heap s) (timer_sem s) (timer_created s) (timer_thread_alive s) (phase s) c (since s) (pushes s) (moved s))
      else None
  | ELook =>
      if timer_created s then
        match phase s with
        | TTop =>
            if negb (timer_thread_alive s) && (timer_len (heap s) =? 0)%nat then Some (set_phase s TExit (since s))
            else Some (set_phase s (TSleep (clock s + wait_ns (heap s) (clock s))) (clock s))
        | _ => None
        end
      else None
  | EWake =>
      match phase s with
      | TSleep u =>
          if (0 <? timer_sem s)%nat then Some (set_phase (set_sem s (timer_sem s - 1)) (TDrain (clock s)) (clock s))
          else if u <=? clock s then Some (set_phase s (TDrain (clock s)) (clock s)) else None
      | _ => None
      end
  | EIntr =>
      match phase s with
      | TSleep u => if timer_thread_alive s then None else Some (set_phase s (TDrain (clock s)) (clock s))
      | _ => None
      end
  | ETurn ok => match phase s with TDrain now => Some (drain_step s now ok) | _ => None end
  | EStop =>
      Some (post (mk_tthread (heap s) (timer_sem s) (timer_created s) false (phase s) (clock s) (since s) (pushes s) (moved s)))
  end.

Fixpoint trun (s : tthread) (evs : list tevent) : option tthread :=
  match evs with
  | [] => Some s
  | ev :: evs => match tstep s ev with Some s' => trun s' evs | None => None end
  end.

Definition tthread_start (c : Z) : tthread := mk_tthread timer_init 0 false false TTop c c [] [].

(** ** Prompt scheduling *)

(** When the thread could go on: since its last wake-up while it runs, at the
    timeout or the first token while it sleeps. *)
Definition ready_at (s : tthread) : Z :=
  match phase s with
  | TSleep u => if (0 <? timer_sem s)%nat then Z.min u (since s) else u
  | _ => since s
  end.

(** Time passes by at most [delta] while the created thread could run, and its
    allocations succeed. *)
Definition prompt_step (delta : Z) (s : tthread) (ev : tevent) : bool :=
  match ev with
  | EClock c => negb (timer_created s) || bool_decide (phase s = TExit) || (c <=? ready_at s + delta)
  | ETurn ok => ok
  | _ => true
  end.

Fixpoint prompt (delta : Z) (s : tthread) (evs : list tevent) : bool :=
  match evs with
  | [] => true
  | ev :: evs => prompt_step delta s ev && match tstep s ev with Some s' => prompt delta s' evs | None => true end
  end.

(** ** Invariant *)

(** [e] is owed by time [b] past its deadline, or past its arming. *)
Definition owed_by (s : tthread) (e : loom_timer_entry_t) (x b : Z) : Prop :=
  exists a, (e, a) ∈ pushes s /\ a <= clock s /\ x <= Z.max (deadline_ns e) a + b.

Record tinv (delta : Z) (s : tthread) : Prop := {
  ti_wf : timer_wf (heap s);
  ti_none : timer_created s = false -> timer_contents (heap s) = [] /\ phase s = TTop;
  ti_since : since s <= clock s;
  ti_ready : timer_created s = true -> phase s <> TExit -> clock s <= ready_at s + delta;
  ti_now : forall now, phase s = TDrain now -> now = since s;
  ti_heap : forall e, e ∈ timer_contents (heap s) ->
    match phase s with
    | TTop => owed_by s e (since s) 0
    | TSleep _ => owed_by s e (ready_at s) (NS + delta)
    | TDrain _ => owed_by s e (since s) (NS + 2 * delta)
    | TExit => True
    end;
  ti_moved : forall e c, (e, c) ∈ moved s -> deadline_ns e <= c <= clock s /\ owed_by s e c (NS + 3 * delta);
}.

Lemma owed_weaken s s' e x x' b b' :
  pushes s `suffix_of` pushes s' -> clock s <= clock s' -> x' - b' <= x - b -> owed_by s e x b -> owed_by s' e x' b'.
Proof. intros Hp Hc Hx (a & H1 & H2 & H3). exists a. split_and!; [by eapply elem_of_suffix|lia|lia]. Qed.

Lemma peek_min t d e : timer_wf t -> loom_timer_peek t = Some d -> e ∈ timer_contents t -> d <= deadline_ns e.
Proof.
  intros Hwf Hp He. pose proof (pop_ok t Hwf) as H. unfold loom_timer_pop_due, loom_timer_peek in *.
  destruct (timer_len t =? 0)%nat; simplify_eq. destruct H as (_ & _ & H). by apply H.
Qed.

Lemma peek_none t : loom_timer_peek t = None -> timer_contents t = [].
Proof. unfold loom_timer_peek, timer_contents. by destruct (Nat.eqb_spec (timer_len t) 0) as [->|]. Qed.

Lemma wait_ns_spec t now : 0 < wait_ns t now /\ forall e, timer_wf t -> e ∈ timer_contents t -> wait_ns t now <= NS \/ now + wait_ns t now <= deadline_ns e.
Proof.
  unfold wait_ns, NS. destruct (loom_timer_peek t) as [d|] eqn:Hp; [|split; [lia|by left; lia]].
  destruct (Z.ltb_spec now d); (split; [lia|]); intros e Hw He; [right|left; lia]. pose proof (peek_min _ _ _ Hw Hp He). lia.
Qed.

Section Prompt.
Context (delta : Z) (Hdelta : 0 <= delta).

(** Steps that only raise [clock], tokens or armings keep the obligations. *)
Lemma tinv_post s : tinv delta s -> tinv delta (post s).
Proof.
  intros [H1 H2 H3 H4 H5 H6 H7]. unfold post. split; simpl; [done|done| | | | |done].
  - destruct (phase s); try done. case_if; lia.
  - intros Hc Hp. specialize (H4 Hc Hp). unfold ready_at in *. simpl. destruct (phase s); try done.
    destruct (timer_sem s) as [|n]; simpl in *; lia.
  - intros now Hn. by rewrite Hn in *; apply H5.
  - intros e He. specialize (H6 e He). unfold ready_at in *. simpl. destruct (phase s); try done.
    eapply owed_weaken; [..|exact H6]; [done|done|]. destruct (timer_sem s) as [|n]; simpl; lia.
Qed.

Lemma tinv_clock s c :
  tinv delta s -> clock s <= c -> prompt_step delta s (EClock c) = true ->
  tinv delta (mk_tthread (heap s) (timer_sem s) (timer_created s) (timer_thread_alive s) (phase s) c (since s) (pushes s) (moved s)).
Proof.
  intros [H1 H2 H3 H4 H5 H6 H7] Hc Hp.
  split; simpl; [done|done|lia| |done| |].
  - intros Hcr Hx. simpl in Hp. rewrite Hcr, bool_decide_false in Hp by done. simpl in Hp. apply Z.leb_le in Hp. unfold ready_at in *. simpl. done.
  - intros e He. specialize (H6 e He). unfold ready_at in *. simpl.
    destruct (phase s); try done; (eapply owed_weaken; [..|exact H6]; [done|simpl; lia|lia]).
  - intros e k Hk. destruct (H7 e k Hk) as [? Ho]. split; [lia|]. eapply owed_weaken; [..|exact Ho]; [done|simpl; lia|lia].
Qed.

(** An arming: the new entry is owed from now on. *)
Lemma tinv_push s ok e : timer_created s = true -> tinv delta s -> tinv delta (coro_sleep_reg_hook s ok e).2.
Proof.
  intros Hcr [H1 H2 H3 H4 H5 H6 H7]. unfold coro_sleep_reg_hook. pose proof (push_ok ok (heap s) e H1) as Hp.
  destruct (loom_timer_push ok (heap s) e) as [[] t]; [|by split]. destruct Hp as (Hwf & Hperm & _). specialize (Hperm eq_refl).
  cbn [snd]. unfold post. cbn. split; cbn; [done|congruence| | | | |].
  - destruct (phase s); try done. case_if; lia.
  - intros _ Hx. specialize (H4 Hcr Hx). unfold ready_at in *. cbn. destruct (phase s); try done.
    destruct (timer_sem s) as [|n]; simpl in *; lia.
  - intros now Hn. by rewrite Hn in *; apply H5.
  - intros x Hx. rewrite Hperm in Hx. apply elem_of_cons in Hx as [->|Hx].
    + unfold owed_by, ready_at, NS. cbn. destruct (phase s); [| | |done]; exists (clock s);
        (split_and!; [by left|lia|]); [lia| |lia]. destruct (timer_sem s) as [|n]; simpl; lia.
    + specialize (H6 x Hx). unfold ready_at in *. cbn. destruct (phase s); [| | |done];
        (eapply owed_weaken; [..|exact H6]; [by apply suffix_cons_r|cbn; lia|]); [lia| |lia]. destruct (timer_sem s) as [|n]; simpl; lia.
  - intros x c Hx. destruct (H7 x c Hx) as [? Ho]. split; [done|]. eapply owed_weaken; [..|exact Ho]; [by apply suffix_cons_r|done|lia].
Qed.

(** Taking entries out of the heap. *)
Lemma tinv_shrink s t :
  tinv delta s -> timer_wf t -> (forall x, x ∈ timer_contents t -> x ∈ timer_contents (heap s)) -> tinv delta (set_heap s t).
Proof.
  intros [H1 H2 H3 H4 H5 H6 H7] Hwf Hsub. split; simpl; [done| |done|done|done| |done].
  - intros Hc. destruct (H2 Hc) as [H2' Htop]. split; [|done]. destruct (timer_contents t) as [|x l] eqn:E; [done|].
    specialize (Hsub x ltac:(left)). rewrite H2' in Hsub. by apply not_elem_of_nil in Hsub.
  - intros e He. by apply H6, Hsub.
Qed.

Lemma tinv_look s s' : tinv delta s -> tstep s ELook = Some s' -> tinv delta s'.
Proof.
  intros [H1 H2 H3 H4 H5 H6 H7] Hs. simpl in Hs. destruct (timer_created s) eqn:Hcr; [|done].
  destruct (phase s) eqn:Hp; try done. destruct (_ && _); simplify_eq; (split; simpl; [done|congruence|lia| |done| |done]).
  - done.
  - done.
  - intros _ _. unfold ready_at. simpl. pose proof (wait_ns_spec (heap s) (clock s)) as [? _]. case_if; lia.
  - intros e He. specialize (H6 e He) as (a & Ha1 & Ha2 & Ha3). specialize (H4 eq_refl ltac:(done)). unfold ready_at in H4. rewrite Hp in H4.
    destruct (wait_ns_spec (heap s) (clock s)) as [Hw0 Hw]. specialize (Hw e H1 He).
    exists a. simpl. split_and!; [done|done|]. unfold ready_at, NS in *. simpl. case_if; lia.
Qed.

Lemma created_unless s : tinv delta s -> phase s <> TTop -> timer_created s = true.
Proof. intros [_ H2 _ _ _ _ _] Hp. destruct (timer_created s); [done|]. by destruct (H2 eq_refl). Qed.

Lemma tinv_wake s n : tinv delta s -> timer_created s = true -> (exists u, phase s = TSleep u) ->
  tinv delta (set_phase (set_sem s n) (TDrain (clock s)) (clock s)).
Proof.
  intros [H1 H2 H3 H4 H5 H6 H7] Hcr [u Hp]. split; simpl; [done|congruence|lia| | | |done].
  - intros _ _. unfold ready_at. simpl. lia.
  - intros now [= <-]. done.
  - intros e He. specialize (H6 e He). rewrite Hp in H6. specialize (H4 Hcr ltac:(congruence)).
    eapply owed_weaken; [..|exact H6]; [done|simpl; lia|lia].
Qed.

Lemma tinv_turn s now : tinv delta s -> timer_created s = true -> phase s = TDrain now -> tinv delta (drain_step s now true).
Proof.
  intros Hi Hcr Hp. pose proof Hi as [H1 H2 H3 H4 H5 H6 H7]. specialize (H4 Hcr ltac:(congruence)). unfold ready_at in H4. rewrite Hp in *.
  pose proof (H5 now eq_refl) as ->.
  assert (Htop : (forall e, e ∈ timer_contents (heap s) -> since s < deadline_ns e) -> tinv delta (set_phase s TTop (since s))).
  { intros Hl. split; simpl; [done|congruence|done| |done| |done]. { intros _ _. unfold ready_at. simpl. done. }
    intros e He. specialize (H6 e He) as (a & ? & ? & _). exists a. simpl. split_and!; [done|done|]. specialize (Hl e He). lia. }
  unfold drain_step. destruct (loom_timer_peek (heap s)) as [d|] eqn:Hk.
  2:{ apply Htop. intros e He. rewrite (peek_none _ Hk) in He. by apply not_elem_of_nil in He. }
  destruct (Z.leb_spec d (since s)) as [Hd|Hd].
  2:{ apply Htop. intros e He. pose proof (peek_min _ _ _ H1 Hk He). lia. }
  pose proof (pop_ok _ H1) as Hpop. destruct (loom_timer_pop_due (heap s)) as [[e t]|] eqn:Hpd.
  2:{ apply Htop. intros e He. rewrite Hpop in He. by apply not_elem_of_nil in He. }
  destruct Hpop as (Hwf & Hperm & _).
  assert (Hroot : deadline_ns e = d).
  { unfold loom_timer_pop_due, loom_timer_peek in *. destruct (timer_len (heap s) =? 0)%nat; by simplify_eq. }
  assert (He : e ∈ timer_contents (heap s)) by (rewrite <- Hperm; left).
  pose proof (tinv_shrink s t Hi Hwf ltac:(intros x Hx; rewrite <- Hperm; by right)) as [G1 G2 G3 G4 G5 G6 _].
  split; simpl; [done|congruence|done|by apply G4|done|done|].
  intros x c [[= -> ->]|Hx]%elem_of_cons; [|by apply H7]. split; [lia|].
  eapply owed_weaken; [..|exact (H6 e He)]; [done|done|lia].
Qed.

Lemma tinv_step s ev s' : tinv delta s -> prompt_step delta s ev = true -> tstep s ev = Some s' -> tinv delta s'.
Proof.
  intros Hi Hp Hs. destruct ev as [ok|ok e|id|c| | | |ok|]; [| | | |by eapply tinv_look| | | |]; simpl in Hs.
  - simplify_eq. unfold ensure_timer_thread. destruct (timer_created s) eqn:Hc; [done|]. destruct ok; [|done].
    destruct Hi as [H1 H2 H3 H4 H5 H6 H7]. destruct (H2 Hc) as [Hnil Htop].
    split; simpl; [done|done|lia| |done| |done]; [intros _ _; unfold ready_at; simpl; lia|].
    intros e He. rewrite Hnil in He. by apply not_elem_of_nil in He.
  - destruct (timer_created s) eqn:Hc; simplify_eq. by apply tinv_push.
  - pose proof (remove_ok (heap s) id (ti_wf _ _ Hi)) as Hr. destruct (loom_timer_remove_by_task (heap s) id) as [[x t]|]; simplify_eq; [|done].
    destruct Hr as (Hwf & _ & Hperm). apply tinv_shrink; [done|done|]. intros y Hy. rewrite <- Hperm. by right.
  - destruct (Z.leb_spec (clock s) c); simplify_eq. by apply tinv_clock.
  - destruct (phase s) as [|u| |] eqn:Hph; try done. assert (Hcr : timer_created s = true) by (apply created_unless; congruence).
    destruct (0 <? timer_sem s)%nat; [|destruct (u <=? clock s)]; simplify_eq; [apply tinv_wake; by eauto|].
    apply (tinv_wake s (timer_sem s)); by eauto.
  - destruct (phase s) as [|u| |] eqn:Hph; try done. assert (Hcr : timer_created s = true) by (apply created_unless; congruence).
    destruct (timer_thread_alive s); simplify_eq. apply (tinv_wake s (timer_sem s)); by eauto.
  - destruct (phase s) as [| |now|] eqn:Hph; try done. assert (Hcr : timer_created s = true) by (apply created_unless; congruence).
    simpl in Hp. subst ok. simplify_eq. by apply tinv_turn.
  - simplify_eq. apply tinv_post. by destruct Hi; split.
Qed.

Lemma tinv_run evs : forall s s', tinv delta s -> prompt delta s evs = true -> trun s evs = Some s' -> tinv delta s'.
Proof.
  induction evs as [|ev evs IH]; intros s s' Hi Hp Hr; simpl in *; [by simplify_eq|].
  apply andb_prop in Hp as [Hp1 Hp2]. destruct (tstep s ev) as [s1|] eqn:Hs; [|done]. eapply IH; [by eapply tinv_step|done|done].
Qed.

Lemma tinv_start c : tinv delta (tthread_start c).
Proof.
  split; simpl; [apply timer_init_wf|done|lia|done|done| |].
  - intros e He. by apply not_elem_of_nil in He.
  - intros e k He. by apply not_elem_of_nil in He.
Qed.
End Prompt.

(** The time given to sem_timedwait is normalised and [wait] away. *)
Lemma sem_deadline_spec sec nsec wait :
  0 <= nsec < NS -> 0 <= wait ->
  let '(s, n) := sem_deadline sec nsec wait in 0 <= n < NS /\ s * NS + n = sec * NS + nsec + wait.
Proof.
  intros Hn Hw. unfold sem_deadline. pose proof (Z.quot_rem' wait NS). pose proof (Z.rem_bound_pos wait NS ltac:(lia) ltac:(done)).
  simpl. destruct (Z.leb_spec NS (nsec + Z.rem wait NS)); [destruct (Z.leb_spec NS (nsec + Z.rem wait NS - NS))|]; unfold NS in *; lia.
Qed.

(** C24. The timer thread hands every entry over on time: when the thread runs
    within [delta] of being runnable and its allocations succeed, an entry is
    never handed over before its deadline, and at most one second plus three
    delays after the later of its deadline and the time it was armed; the same
    bound holds for how long a due entry can have been waiting in the heap. *)
Theorem timer_thread_lateness delta c evs s :
  0 <= delta -> trun (tthread_start c) evs = Some s -> prompt delta (tthread_start c) evs = true ->
  (forall e t, (e, t) ∈ moved s -> deadline_ns e <= t /\ exists a, (e, a) ∈ pushes s /\ t <= Z.max (deadline_ns e) a + NS + 3 * delta) /\
  (forall e, e ∈ timer_contents (heap s) -> phase s <> TExit ->
     exists a, (e, a) ∈ pushes s /\ clock s <= Z.max (deadline_ns e) a + NS + 3 * delta).
Proof.
  intros Hd Hr Hp. pose proof (tinv_run delta Hd _ _ _ (tinv_start delta c) Hp Hr) as Hi. split.
  - intros e t He. destruct (ti_moved _ _ Hi e t He) as [? (a & ? & _ & ?)]. split; [lia|]. exists a. split; [done|lia].
  - intros e He Hx. pose proof (ti_heap _ _ Hi e He) as Ho.
    assert (Hcr : timer_created s = true).
    { destruct (timer_created s) eqn:Hc; [done|]. destruct (ti_none _ _ Hi Hc) as [Hn _]. rewrite Hn in He. by apply not_elem_of_nil in He. }
    pose proof (ti_ready _ _ Hi Hcr Hx) as Hrd. unfold ready_at, NS in *.
    destruct (phase s) as [|u|now|]; [| | |done]; destruct Ho as (a & ? & _ & ?); exists a; (split; [done|]); lia.
Qed.

(** ** Runs *)

Definition entry_at (d id : Z) : loom_timer_entry_t := mk_timer_entry d id 0 0 0.

(** Two coroutines sleep until 100 and 101; the thread takes both tokens, wakes
    at 100, moves the first entry, and reads the clock again at 101. *)
Definition tick_run : list tevent :=
  [ECreate true; EPush true (entry_at 100 1); EPush true (entry_at 101 2);
   ELook; EWake; ETurn true; ELook; EWake; ETurn true; ELook; EClock 100; EWake; ETurn true; ETurn true;
   EClock 101; ELook; EClock (101 + NS); EWake; ETurn true].

Lemma timer_thread_lateness_witness :
  exists s, trun (tthread_start 0) tick_run = Some s /\ moved s = [(entry_at 101 2, 101 + NS); (entry_at 100 1, 100)] /\
    exists a, (entry_at 101 2, a) ∈ pushes s /\ 101 + NS <= Z.max 101 a + NS + 3 * 1.
Proof.
  destruct (trun (tthread_start 0) tick_run) as [s|] eqn:E; [|vm_compute in E; discriminate E].
  assert (Hm : moved <$> trun (tthread_start 0) tick_run = Some [(entry_at 101 2, 101 + NS); (entry_at 100 1, 100)]) by (vm_compute; reflexivity).
  rewrite E in Hm. injection Hm as Hm. exists s. split; [reflexivity|]. split; [exact Hm|].
  destruct (timer_thread_lateness 1 0 tick_run s ltac:(lia) E ltac:(vm_compute; reflexivity)) as [H _].
  destruct (H (entry_at 101 2) (101 + NS) ltac:(rewrite Hm; left)) as [_ (a & Ha & Hb)]. exists a. split; [exact Ha|exact Hb].
Defined.

(** The second is really spent: an entry that becomes due between the drain and
    the next look at the clock is not moved at once, since a root already due
    takes the one-second tick, and nothing posts the semaphore. *)
Theorem due_entry_waits_a_second :
  exists s, trun (tthread_start 0) tick_run = Some s /\ prompt 1 (tthread_start 0) tick_run = true /\
    (entry_at 101 2, 0) ∈ pushes s /\ (entry_at 101 2, 101 + NS) ∈ moved s.
Proof.
  eexists. split; [vm_compute; reflexivity|]. split; [vm_compute; reflexivity|]. split; [left|left].
Qed.

(** The thread ends only when it was stopped and no coroutine sleeps. *)
Lemma timer_exit_drained s ev s' :
  tstep s ev = Some s' -> phase s <> TExit -> phase s' = TExit -> timer_thread_alive s' = false /\ timer_contents (heap s') = [].
Proof.
  intros Hs Hn He. destruct ev as [ok|ok e|id|c| | | |ok|]; simpl in Hs.
  - simplify_eq. unfold ensure_timer_thread in He. by repeat case_match; simplify_eq/=.
  - destruct (timer_created s); simplify_eq. unfold coro_sleep_reg_hook in He. by destruct (loom_timer_push ok (heap s) e) as [[] ?].
  - by repeat case_match; simplify_eq/=.
  - by repeat case_match; simplify_eq/=.
  - destruct (timer_created s); [|done]. destruct (phase s); try done. destruct (negb _ && _) eqn:Hc; simplify_eq/=.
    apply andb_prop in Hc as [Ha Hl]. apply Nat.eqb_eq in Hl. apply negb_true_iff in Ha. split; [done|]. unfold timer_contents. by rewrite Hl.
  - by repeat case_match; simplify_eq/=.
  - by repeat case_match; simplify_eq/=.
  - destruct (phase s) eqn:Hp; try done. simplify_eq. unfold drain_step in He. repeat case_match; simplify_eq/=; congruence.
  - by simplify_eq/=.
Qed.

(** The re-arming push after a failed allocation cannot fail: the pop made
    room. *)
Lemma rearm_keeps t e t' : timer_wf t -> loom_timer_pop_due t = Some (e, t') -> (loom_timer_push false t' e).1 = true.
Proof.
  intros Hwf Hp. pose proof (pop_ok t Hwf) as H. rewrite Hp in H. destruct H as (Hwf' & Hperm & _).
  pose proof (push_ok false t' e Hwf') as Hpush. destruct (loom_timer_push false t' e) as [[] t2]; [done|].
  destruct Hpush as (_ & _ & Hf). destruct (Hf eq_refl) as (_ & _ & Hfull).
  unfold loom_timer_pop_due in Hp. destruct (Nat.eqb_spec (timer_len t) 0); simplify_eq/=. pose proof (twf_len _ Hwf). lia.
Qed.
