(* ===== verification/ByteMem.v ===== *)
(** * Byte-addressed memory.

    Little-endian loads and stores of a few bytes, for the code that works on
    raw structures: the assembly of the context switch (CtxX86.v, CtxArm.v) and
    the shared-memory region (Viewer.v). *)
From S2P Require Import Prelude.

(** What every address holds. *)
Definition bytes := Z -> Z.

Definition set_byte (m : bytes) (a v : Z) : bytes := fun b => if b =? a then v else m b.

Fixpoint load (n : nat) (a : Z) (m : bytes) : Z :=
  match n with O => 0 | S k => m a + 256 * load k (a + 1) m end.

Fixpoint store (n : nat) (a v : Z) (m : bytes) : bytes :=
  match n with O => m | S k => store k (a + 1) (v / 256) (set_byte m a (v mod 256)) end.

(** Two ranges of addresses without a common one. *)
Definition apart (a la b lb : Z) : Prop := a + la <= b \/ b + lb <= a.

Lemma store_out n a v m b : b < a \/ a + Z.of_nat n <= b -> store n a v m b = m b.
Proof.
  revert a v m. induction n as [|n IH]; intros a v m H; [done|]. cbn [store]. rewrite IH by lia.
  unfold set_byte. by rewrite (proj2 (Z.eqb_neq b a)) by lia.
Qed.

Lemma load_ext n a m m' : (forall b, a <= b < a + Z.of_nat n -> m b = m' b) -> load n a m = load n a m'.
Proof.
  revert a. induction n as [|n IH]; intros a H; [done|]. cbn [load]. rewrite (H a) by lia.
  by rewrite (IH (a + 1)) by (intros b Hb; apply H; lia).
Qed.

Lemma load_store_other n a k b v m : apart a (Z.of_nat n) b (Z.of_nat k) -> load n a (store k b v m) = load n a m.
Proof. intros H. apply load_ext. intros c Hc. apply store_out. unfold apart in H. lia. Qed.

Lemma load_store_same n a v m : 0 <= v < 256 ^ Z.of_nat n -> load n a (store n a v m) = v.
Proof.
  revert a v m. induction n as [|n IH]; intros a v m Hv; [simpl in *; lia|].
  rewrite Nat2Z.inj_succ, Z.pow_succ_r in Hv by lia. cbn [load store]. rewrite store_out by lia.
  rewrite IH by (split; [apply Z.div_pos; lia|apply Z.div_lt_upper_bound; lia]).
  unfold set_byte. rewrite Z.eqb_refl. pose proof (Z.div_mod v 256). lia.
Qed.

Lemma load8_same a v m : 0 <= v < 2 ^ 64 -> load 8 a (store 8 a v m) = v.
Proof. apply (load_store_same 8). Qed.
Lemma load4_same a v m : 0 <= v < 2 ^ 32 -> load 4 a (store 4 a v m) = v.
Proof. apply (load_store_same 4). Qed.
Lemma load2_same a v m : 0 <= v < 2 ^ 16 -> load 2 a (store 2 a v m) = v.
Proof. apply (load_store_same 2). Qed.

(** Reads of one field through the stores to others. *)
Ltac fields :=
  repeat first [rewrite load8_same by lia | rewrite load4_same by lia | rewrite load2_same by lia
               | rewrite load_store_other by (unfold apart; lia)].

(** A 64-bit word, and v & ~0xF. *)
Definition word (v : Z) : Prop := 0 <= v < 2 ^ 64.
Definition align16 (v : Z) : Z := Z.land v (u64 (Z.lnot 15)).

Lemma align16_spec v : word v -> align16 v = v / 16 * 16.
Proof.
  intros Hv. unfold align16. change (u64 (Z.lnot 15)) with (Z.shiftl (Z.ones 60) 4).
  change 16 with (2 ^ 4). rewrite <- (Z.shiftr_div_pow2 v 4), <- (Z.shiftl_mul_pow2 (Z.shiftr v 4)) by lia.
  apply Z.bits_inj'. intros n Hn. rewrite Z.land_spec, !Z.shiftl_spec by lia. destruct (Z_lt_dec n 4).
  { rewrite !(Z.testbit_neg_r _ (n - 4)) by lia. apply andb_false_r. }
  rewrite Z.shiftr_spec, Z.sub_add by lia. destruct (Z_lt_dec n 64).
  { rewrite Z.ones_spec_low by lia. apply andb_true_r. }
  rewrite (Z.bits_above_log2 v n); [done|apply Hv|]. destruct (Z.eq_dec v 0) as [->|]; [simpl; lia|].
  apply Z.log2_lt_pow2; [unfold word in Hv; lia|]. apply (Z.lt_le_trans _ (2 ^ 64)); [apply Hv|apply Z.pow_le_mono_r; lia].
Qed.

(** The offsets C gives to fields of the given sizes, each aligned to its size,
    and the size of the structure. *)
Fixpoint offsets_from (a : Z) (sizes : list Z) : list Z :=
  match sizes with
  | [] => []
  | n :: l => let o := (a + n - 1) / n * n in o :: offsets_from (o + n) l
  end.
Definition struct_size (sizes : list Z) : Z :=
  let al := foldr Z.max 1 sizes in
  let e := foldl (fun a n => (a + n - 1) / n * n + n) 0 sizes in (e + al - 1) / al * al.
