(* ===== verification/Asm.v ===== *)
(** * Running a stretch of assembly.

    What the two assembly files share: a program is a list of instructions with
    an address each; [Isa] says where they are and what they do, with the
    straight-line instructions singled out.  A run takes a number of steps and
    stops where there is no instruction; [run_straight] replaces the steps of a
    straight-line stretch by the composition of its effects. *)
From S2P Require Import Prelude.

Class Isa (cpu instr : Type) := {
  isa_pc : cpu -> Z;
  isa_goto : cpu -> Z -> cpu;
  isa_label : nat -> Z;
  isa_prog : list instr;
  isa_fetch : Z -> option instr;
  isa_effect : instr -> cpu -> cpu;
  isa_straight : instr -> bool;
  isa_exec : instr -> cpu -> option cpu;

  fetch_label k : isa_fetch (isa_label k) = isa_prog !! k;
  goto_pc s : isa_goto s (isa_pc s) = s;
  pc_goto s p : isa_pc (isa_goto s p) = p;
  goto_goto s p q : isa_goto (isa_goto s p) q = isa_goto s q;
  effect_goto i s p : isa_effect i (isa_goto s p) = isa_goto (isa_effect i s) p;
  exec_straight i s k : isa_straight i = true -> isa_pc s = isa_label k ->
    isa_exec i s = Some (isa_goto (isa_effect i s) (isa_label (S k)));
}.

Section Run.
Context {cpu instr : Type} `{!Isa cpu instr}.
Implicit Types (s : cpu) (i : instr).

Definition asm_step s : option cpu := match isa_fetch (isa_pc s) with Some i => isa_exec i s | None => None end.

Fixpoint asm_run (n : nat) s : cpu :=
  match n with
  | O => s
  | S n => match asm_step s with Some s' => asm_run n s' | None => s end
  end.

Definition effects (l : list instr) s : cpu := foldl (fun s i => isa_effect i s) s l.

Lemma run_step n s k i s' :
  isa_pc s = isa_label k -> isa_prog !! k = Some i -> isa_exec i s = Some s' -> asm_run (S n) s = asm_run n s'.
Proof. intros Hp Hk He. cbn [asm_run]. unfold asm_step. by rewrite Hp, fetch_label, Hk, He. Qed.

Lemma effects_goto l s p : effects l (isa_goto s p) = isa_goto (effects l s) p.
Proof. revert s. induction l as [|i l IH]; intros s; [done|]. cbn [effects foldl]. rewrite effect_goto. apply IH. Qed.

(** A stretch of straight-line code. *)
Lemma run_straight l n s k :
  isa_pc s = isa_label k -> take (length l) (drop k isa_prog) = l -> forallb isa_straight l = true ->
  asm_run (length l + n) s = asm_run n (isa_goto (effects l s) (isa_label (k + length l))).
Proof.
  revert s k. induction l as [|i l IH]; intros s k Hp Ht Hs.
  { simpl. by rewrite Nat.add_0_r, <- Hp, goto_pc. }
  simpl in Hs. apply andb_prop in Hs as [Hi Hs].
  assert (Hk : isa_prog !! k = Some i).
  { rewrite <- (Nat.add_0_r k), <- lookup_drop, <- (lookup_take_lt (drop k isa_prog) (length (i :: l)) 0) by (simpl; lia). by rewrite Ht. }
  cbn [length Nat.add]. rewrite (run_step _ s k i _ Hp Hk (exec_straight i s k Hi Hp)).
  rewrite (IH _ (S k)); [|apply pc_goto| |done].
  - by rewrite effects_goto, goto_goto, Nat.add_succ_r.
  - rewrite (drop_S _ _ _ Hk) in Ht. simpl in Ht. by injection Ht.
Qed.
End Run.
