(* ===== verification/CtxSwitch.v ===== *)
(** * Context switching, independently of the machine (src/coro_ctx.h).

    coro_ctx.h promises one surface and has one implementation of it per
    architecture.  [Backend] is the promise: what a context in memory stands
    for, which bytes it needs, and what a swap does to the three parties, the
    caller, the target and everybody else.  Against it, [world] is the abstract
    machine the coroutine layer programs: contexts that are suspended or armed,
    and one thread of control that runs.  The theorem of the file is that every
    switch of every run, however the contexts are used in between, delivers
    control exactly where the target context was left.  CtxX86.v and CtxArm.v
    run the two assembly files and are its instances. *)
From S2P Require Import Prelude ByteMem.

(** Why a context is not running: its owner called swap, it was armed with
    make, or its entry function has returned. *)
Inductive kont (frame : Type) :=
  | Paused (f : frame)
  | Armed (sp fn arg : Z)
  | Done.
Arguments Paused {frame}. Arguments Armed {frame}. Arguments Done {frame}.

Class Backend (cpu frame : Type) := {
  bmem : cpu -> bytes;
  (* the bytes that must stay for a context to be activated later *)
  owns : Z -> kont frame -> Z -> Prop;
  (* the context in memory stands for this continuation *)
  holds : bytes -> Z -> kont frame -> Prop;
  (* about to switch from one context to the other: at the first instruction
     of swap or of swap_to_link, or at the return of an entry function *)
  at_swap : cpu -> Z -> Z -> Prop;
  (* the continuation this suspends, and the memory once it is saved *)
  suspends : cpu -> kont frame;
  saved_mem : cpu -> Z -> bytes;
  (* set_stack and make *)
  arm : Z -> Z -> Z -> Z -> Z -> bytes -> bytes;
  arm_ok : Z -> Z -> Z -> Z -> Z -> Prop;
  top : Z -> Z -> Z;
  (* instructions up to the resumption of a continuation *)
  cost : cpu -> kont frame -> nat;
  delivers : Z -> kont frame -> cpu -> Prop;
  brun : nat -> cpu -> cpu;

  holds_ext m m' c k : (forall b, owns c k b -> m b = m' b) -> holds m c k -> holds m' c k;
  swap_saves s from to : at_swap s from to -> holds (saved_mem s from) from (suspends s);
  swap_frame s from to b : at_swap s from to -> ~ owns from (suspends s) b -> saved_mem s from b = bmem s b;
  swap_delivers s from to k : at_swap s from to -> holds (saved_mem s from) to k -> k <> Done ->
    delivers to k (brun (cost s k) s) /\
    forall b, ~ owns to k b -> bmem (brun (cost s k) s) b = saved_mem s from b;
  arm_holds c base size fn arg m : arm_ok c base size fn arg -> holds (arm c base size fn arg m) c (Armed (top base size) fn arg);
  arm_frame c base size fn arg m b :
    arm_ok c base size fn arg -> ~ owns c (Armed (top base size) fn arg) b -> arm c base size fn arg m b = m b;
}.

Section World.
Context {cpu frame : Type} `{!Backend cpu frame}.
Implicit Types (s : cpu) (k : kont frame) (susp : gmap Z (kont frame)) (m : bytes).

(** The contexts that wait, and the thread of control that runs. *)
Definition world : Type := gmap Z (kont frame) * cpu.

(** A new context needs no byte another one needs. *)
Definition fresh susp c k : Prop := forall c' k' b, susp !! c' = Some k' -> c' <> c -> owns c k b -> ~ owns c' k' b.

Inductive world_step : world -> option (Z * kont frame) -> world -> Prop :=
  (* code outside the backend; it leaves waiting contexts alone *)
  | W_outside susp s s' :
      (forall c k b, susp !! c = Some k -> owns c k b -> bmem s b = bmem s' b) -> world_step (susp, s) None (susp, s')
  (* it gives a context a stack and arms it *)
  | W_make susp s s' c base size fn arg :
      arm_ok c base size fn arg -> bmem s' = arm c base size fn arg (bmem s) ->
      susp !! c = None -> fresh susp c (Armed (top base size) fn arg) ->
      world_step (susp, s) None (<[c := Armed (top base size) fn arg]> susp, s')
  (* it destroys a context *)
  | W_drop susp s c : world_step (susp, s) None (delete c susp, s)
  | W_swap susp s from to k :
      at_swap s from to -> susp !! from = None -> fresh susp from (suspends s) ->
      <[from := suspends s]> susp !! to = Some k -> k <> Done ->
      world_step (susp, s) (Some (to, k)) (delete to (<[from := suspends s]> susp), brun (cost s k) s).

Inductive reachable (s0 : cpu) : world -> Prop :=
  | R_init : reachable s0 (∅, s0)
  | R_step w e w' : reachable s0 w -> world_step w e w' -> reachable s0 w'.

(** Every waiting context is intact, and no two need the same byte. *)
Definition intact susp m : Prop :=
  (forall c k, susp !! c = Some k -> holds m c k) /\
  (forall c k c' k' b, susp !! c = Some k -> susp !! c' = Some k' -> c <> c' -> owns c k b -> ~ owns c' k' b).

Lemma intact_ext susp m m' :
  (forall c k b, susp !! c = Some k -> owns c k b -> m b = m' b) -> intact susp m -> intact susp m'.
Proof. intros H [I1 I2]. split; [|done]. intros c k Hc. eapply holds_ext; [|by apply I1]. intros b Hb. by eapply H. Qed.

Lemma intact_delete susp m c : intact susp m -> intact (delete c susp) m.
Proof.
  intros [I1 I2]. split.
  - intros c' k H. apply lookup_delete_Some in H as [_ H]. by apply I1.
  - intros c1 k1 c2 k2 b H1 H2. apply lookup_delete_Some in H1 as [_ H1]. apply lookup_delete_Some in H2 as [_ H2]. by eapply I2.
Qed.

Lemma intact_insert susp m m' c k :
  intact susp m -> susp !! c = None -> fresh susp c k -> holds m' c k -> (forall b, ~ owns c k b -> m' b = m b) ->
  intact (<[c := k]> susp) m'.
Proof.
  intros [I1 I2] Hc Hf Hh Hm. assert (Hne : forall c' k', susp !! c' = Some k' -> c' <> c) by congruence. split.
  - intros c' k' H. apply lookup_insert_Some in H as [[<- <-]|[_ H]]; [done|].
    eapply holds_ext; [|by apply I1]. intros b Hb. symmetry. apply Hm. intros Ho. by eapply (Hf c' k' b); [|eapply Hne| |].
  - intros c1 k1 c2 k2 b H1 H2 Hn.
    apply lookup_insert_Some in H1 as [[<- <-]|[N1 H1]]; apply lookup_insert_Some in H2 as [[<- <-]|[N2 H2]]; [done| | |by eapply I2].
    + by eapply Hf.
    + intros Ho Ho'. by eapply (Hf c1 k1 b).
Qed.

(** The activation of a waiting context. *)
Lemma intact_activate susp s from to k :
  at_swap s from to -> intact susp (saved_mem s from) -> susp !! to = Some k -> k <> Done ->
  delivers to k (brun (cost s k) s) /\ intact (delete to susp) (bmem (brun (cost s k) s)).
Proof.
  intros Hs Hi Hk Hd. destruct (swap_delivers s from to k Hs (proj1 Hi _ _ Hk) Hd) as [D1 D2]. split; [done|].
  apply (intact_ext _ (saved_mem s from)); [|by apply intact_delete].
  intros c' k' b Hc Ho. symmetry. apply D2. intros Ho'. apply lookup_delete_Some in Hc as [Hn Hc].
  by eapply (proj2 Hi to k c' k' b).
Qed.

Lemma step_intact w e w' : world_step w e w' -> intact w.1 (bmem w.2) ->
  intact w'.1 (bmem w'.2) /\ forall to k, e = Some (to, k) -> delivers to k w'.2.
Proof.
  intros [susp s s' H|susp s s' c base size fn arg Ho Hm Hc Hf|susp s c|susp s from to k Hs Hf Hr Hk Hd] Hi; simpl in *.
  - split; [by eapply intact_ext|done].
  - split; [|done]. rewrite Hm. apply (intact_insert _ (bmem s)); [done..|by apply arm_holds|]. intros b. by apply arm_frame.
  - split; [by apply intact_delete|done].
  - destruct (intact_activate (<[from:=suspends s]> susp) s from to k) as [H1 H2]; [done| |done|done|].
    + apply (intact_insert _ (bmem s)); [done..|by eapply swap_saves|]. intros b. by eapply swap_frame.
    + split; [done|]. intros ? ? [= <- <-]. done.
Qed.

Lemma reachable_intact s0 w : reachable s0 w -> intact w.1 (bmem w.2).
Proof. induction 1 as [|w e w' _ IH Hs]; [split; simpl; intros * H; by rewrite lookup_empty in H|]. by eapply step_intact. Qed.

(** Every switch of every run delivers. *)
Lemma switch_delivers s0 w to k w' : reachable s0 w -> world_step w (Some (to, k)) w' -> delivers to k w'.2.
Proof. intros Hr Hs. eapply step_intact; [done|by eapply reachable_intact|done]. Qed.
End World.
