(* ===== verification/CtxX86.v ===== *)
(** * The context switch on x86-64 (src/ctx_x86_64.S, src/coro_ctx.h).

    The assembly is a list of instructions that runs on a machine with the
    sixteen general registers, the two floating-point control words and
    byte-addressed memory.  An instruction takes one address (nothing in the
    code depends on how long an encoding is); [text] is the address of the
    first one and [exit_fn] that of the C library's exit.  A run stops when it
    leaves the text.  Code outside it (callers, coroutine bodies) appears as the
    states it leaves behind, under the rules of the System V ABI.

    Only the registers and control words the ABI makes callee-saved matter to
    the theorems: a swap is, for the thread of control that calls it, a function
    that returns 0 and preserves them, however long it takes to be resumed. *)
From S2P Require Import Prelude Asm ByteMem CtxSwitch.

(** ** Machine *)

Inductive reg := RAX | RBX | RCX | RDX | RSI | RDI | RBP | RSP | R8 | R9 | R10 | R11 | R12 | R13 | R14 | R15.

#[export] Instance reg_eq_dec : EqDecision reg. Proof. solve_decision. Defined.

Record cpu := mk_cpu {
  rg : reg -> Z;
  mxcsr : Z;
  x87cw : Z;
  zf : bool;
  pc : Z;
  mem : bytes;
}.

Inductive instr :=
  | St (r : reg) (off : Z) (b : reg)       (* movq %r, off(%b) *)
  | Ld (off : Z) (b r : reg)               (* movq off(%b), %r *)
  | Mov (s d : reg)
  | Stmxcsr (off : Z) (b : reg)
  | Fnstcw (off : Z) (b : reg)
  | Ldmxcsr (off : Z) (b : reg)
  | Fldcw (off : Z) (b : reg)
  | Lea (lab : nat) (r : reg)              (* leaq lab(%rip), %r *)
  | Zero (r : reg)                         (* xorl %r, %r *)
  | Test (r : reg)
  | Ret
  | JmpM (off : Z) (b : reg)               (* jmp *off(%b) *)
  | Jmp (lab : nat)
  | Je (lab : nat)
  | CallM (off : Z) (b : reg)
  | CallExit
  | Hlt.

Definition set_reg (s : cpu) (r : reg) (v : Z) : cpu :=
  mk_cpu (fun x => if decide (x = r) then v else rg s x) (mxcsr s) (x87cw s) (zf s) (pc s) (mem s).
Definition set_mem (s : cpu) (m : bytes) : cpu := mk_cpu (rg s) (mxcsr s) (x87cw s) (zf s) (pc s) m.
Definition set_zf (s : cpu) (z : bool) : cpu := mk_cpu (rg s) (mxcsr s) (x87cw s) z (pc s) (mem s).
Definition goto (s : cpu) (p : Z) : cpu := mk_cpu (rg s) (mxcsr s) (x87cw s) (zf s) p (mem s).

(** The address [off(%b)]. *)
Definition slot (c off : Z) : Z := u64 (c + off).
Definition ea (s : cpu) (off : Z) (b : reg) : Z := slot (rg s b) off.

(** ** The text *)

Definition PC_OFF := 0.
Definition RSP_OFF := 8.
Definition RBX_OFF := 16.
Definition RBP_OFF := 24.
Definition R12_OFF := 32.
Definition R13_OFF := 40.
Definition R14_OFF := 48.
Definition R15_OFF := 56.
Definition MXCSR_OFF := 64.
Definition X87CW_OFF := 68.
Definition ENTRY_FN_OFF := 72.
Definition ENTRY_ARG_OFF := 80.
Definition LINK_OFF := 88.

(** struct loom_coro_ctx, and the offsets coro_ctx.h asserts: the assembly's. *)
Definition ctx_fields : list Z := [8; 8; 8; 8; 8; 8; 8; 8; 4; 2; 8; 8; 8].
Definition ctx_offsets : list Z :=
  [PC_OFF; RSP_OFF; RBX_OFF; RBP_OFF; R12_OFF; R13_OFF; R14_OFF; R15_OFF; MXCSR_OFF; X87CW_OFF; ENTRY_FN_OFF; ENTRY_ARG_OFF; LINK_OFF].

Lemma x86_layout : offsets_from 0 ctx_fields = ctx_offsets /\ struct_size ctx_fields = 96.
Proof. done. Qed.

(** What get and swap save, with the address of resumption [lab]. *)
Definition save_code (lab : nat) : list instr :=
  [St RSP RSP_OFF RDI; St RBX RBX_OFF RDI; St RBP RBP_OFF RDI; St R12 R12_OFF RDI; St R13 R13_OFF RDI; St R14 R14_OFF RDI;
   St R15 R15_OFF RDI; Stmxcsr MXCSR_OFF RDI; Fnstcw X87CW_OFF RDI; Lea lab RAX; St RAX PC_OFF RDI].

Definition restore_code : list instr :=
  [Ld RSP_OFF RSI RSP; Ld RBX_OFF RSI RBX; Ld RBP_OFF RSI RBP; Ld R12_OFF RSI R12; Ld R13_OFF RSI R13; Ld R14_OFF RSI R14;
   Ld R15_OFF RSI R15; Ldmxcsr MXCSR_OFF RSI; Fldcw X87CW_OFF RSI; Zero RAX].

Definition lab_get : nat := 0.
Definition lab_after_ret : nat := 13.
Definition lab_swap : nat := 14.
Definition lab_after_swap : nat := 36.
Definition lab_to_link : nat := 37.
Definition lab_trampoline : nat := 39.
Definition lab_no_link : nat := 46.

Definition loom_coro_ctx_get : list instr := save_code lab_after_ret ++ [Zero RAX; Ret; Ret].
Definition loom_coro_ctx_swap : list instr := save_code lab_after_swap ++ restore_code ++ [JmpM PC_OFF RSI; Ret].
Definition loom_coro_ctx_swap_to_link : list instr := [Ld LINK_OFF RDI RSI; Jmp lab_swap].
Definition ctx_trampoline : list instr :=
  [Ld ENTRY_ARG_OFF R15 RDI; CallM ENTRY_FN_OFF R15; Ld LINK_OFF R15 RSI; Test RSI; Je lab_no_link; Mov R15 RDI; Jmp lab_swap;
   Zero RDI; CallExit; Hlt].

Definition prog : list instr := loom_coro_ctx_get ++ loom_coro_ctx_swap ++ loom_coro_ctx_swap_to_link ++ ctx_trampoline.

(** ** Execution *)

Section Text.
Context (text exit_fn : Z).
Implicit Types (s : cpu) (c : Z) (m : bytes).

Definition label (k : nat) : Z := text + Z.of_nat k.

(** Straight-line instructions. *)
Definition effect (i : instr) s : cpu :=
  match i with
  | St r off b => set_mem s (store 8 (ea s off b) (rg s r) (mem s))
  | Ld off b r => set_reg s r (load 8 (ea s off b) (mem s))
  | Mov a d => set_reg s d (rg s a)
  | Stmxcsr off b => set_mem s (store 4 (ea s off b) (mxcsr s) (mem s))
  | Fnstcw off b => set_mem s (store 2 (ea s off b) (x87cw s) (mem s))
  | Ldmxcsr off b => mk_cpu (rg s) (load 4 (ea s off b) (mem s)) (x87cw s) (zf s) (pc s) (mem s)
  | Fldcw off b => mk_cpu (rg s) (mxcsr s) (load 2 (ea s off b) (mem s)) (zf s) (pc s) (mem s)
  | Lea k r => set_reg s r (label k)
  | Zero r => set_zf (set_reg s r 0) true
  | Test r => set_zf s (rg s r =? 0)
  | _ => s
  end.

Definition straight (i : instr) : bool :=
  match i with Ret | JmpM _ _ | Jmp _ | Je _ | CallM _ _ | CallExit | Hlt => false | _ => true end.

Definition push s (v : Z) : cpu :=
  let sp := u64 (rg s RSP - 8) in set_mem (set_reg s RSP sp) (store 8 sp v (mem s)).

Definition exec (i : instr) s : option cpu :=
  match i with
  | Ret => Some (goto (set_reg s RSP (u64 (rg s RSP + 8))) (load 8 (rg s RSP) (mem s)))
  | JmpM off b => Some (goto s (load 8 (ea s off b) (mem s)))
  | Jmp k => Some (goto s (label k))
  | Je k => Some (goto s (if zf s then label k else pc s + 1))
  | CallM off b => Some (goto (push s (pc s + 1)) (load 8 (ea s off b) (mem s)))
  | CallExit => Some (goto (push s (pc s + 1)) exit_fn)
  | Hlt => None
  | _ => Some (goto (effect i s) (pc s + 1))
  end.

Definition fetch (p : Z) : option instr := if text <=? p then prog !! Z.to_nat (p - text) else None.

Lemma x86_fetch_label k : fetch (label k) = prog !! k.
Proof.
  unfold fetch, label. rewrite (proj2 (Z.leb_le _ _)) by lia. by replace (Z.to_nat (text + Z.of_nat k - text)) with k by lia.
Qed.

Lemma x86_exec_straight i s k : straight i = true -> pc s = label k -> exec i s = Some (goto (effect i s) (label (S k))).
Proof. intros Hi Hp. replace (label (S k)) with (pc s + 1) by (rewrite Hp; unfold label; lia). by destruct i. Qed.

#[local] Instance x86_isa : Isa cpu instr.
Proof.
  refine {| isa_pc := pc; isa_goto := goto; isa_label := label; isa_prog := prog; isa_fetch := fetch; isa_effect := effect;
            isa_straight := straight; isa_exec := exec; fetch_label := x86_fetch_label; exec_straight := x86_exec_straight |}.
  - by intros [].
  - done.
  - done.
  - by intros [].
Defined.

#[local] Abbreviation run := (asm_run (Isa0 := x86_isa)).
#[local] Abbreviation run_step := (Asm.run_step (Isa0 := x86_isa)).
#[local] Abbreviation run_straight := (Asm.run_straight (Isa0 := x86_isa)).
#[local] Abbreviation effects := (Asm.effects (Isa0 := x86_isa)).

(** ** What a context holds *)

Record frame := mk_frame {
  f_pc : Z; f_rsp : Z; f_rbx : Z; f_rbp : Z; f_r12 : Z; f_r13 : Z; f_r14 : Z; f_r15 : Z; f_mxcsr : Z; f_x87cw : Z;
}.

Definition frame_of s (p : Z) : frame :=
  mk_frame p (rg s RSP) (rg s RBX) (rg s RBP) (rg s R12) (rg s R13) (rg s R14) (rg s R15) (mxcsr s) (x87cw s).

(** The saved part of the context at [c]. *)
Definition saved m c : frame :=
  mk_frame (load 8 (slot c PC_OFF) m) (load 8 (slot c RSP_OFF) m) (load 8 (slot c RBX_OFF) m) (load 8 (slot c RBP_OFF) m)
    (load 8 (slot c R12_OFF) m) (load 8 (slot c R13_OFF) m) (load 8 (slot c R14_OFF) m) (load 8 (slot c R15_OFF) m)
    (load 4 (slot c MXCSR_OFF) m) (load 2 (slot c X87CW_OFF) m).

Definition save_mem (f : frame) c m : bytes :=
  let w n off v m := store n (slot c off) v m in
  w 8%nat PC_OFF (f_pc f) (w 2%nat X87CW_OFF (f_x87cw f) (w 4%nat MXCSR_OFF (f_mxcsr f) (w 8%nat R15_OFF (f_r15 f)
    (w 8%nat R14_OFF (f_r14 f) (w 8%nat R13_OFF (f_r13 f) (w 8%nat R12_OFF (f_r12 f) (w 8%nat RBP_OFF (f_rbp f)
    (w 8%nat RBX_OFF (f_rbx f) (w 8%nat RSP_OFF (f_rsp f) m))))))))).

(** The 96 bytes at [c] are in the address space. *)
Definition placed c : Prop := 0 <= c /\ c + 96 <= 2 ^ 64.

Definition frame_wf (f : frame) : Prop :=
  word (f_pc f) /\ word (f_rsp f) /\ word (f_rbx f) /\ word (f_rbp f) /\ word (f_r12 f) /\ word (f_r13 f) /\ word (f_r14 f) /\
  word (f_r15 f) /\ 0 <= f_mxcsr f < 2 ^ 32 /\ 0 <= f_x87cw f < 2 ^ 16.
Definition cpu_wf s : Prop := (forall r, word (rg s r)) /\ 0 <= mxcsr s < 2 ^ 32 /\ 0 <= x87cw s < 2 ^ 16.

Lemma slot_placed c off : placed c -> 0 <= off < 96 -> slot c off = c + off.
Proof. intros [H1 H2] Ho. unfold slot. apply u64_small. lia. Qed.

Ltac offsets := unfold PC_OFF, RSP_OFF, RBX_OFF, RBP_OFF, R12_OFF, R13_OFF, R14_OFF, R15_OFF, MXCSR_OFF, X87CW_OFF, ENTRY_FN_OFF,
  ENTRY_ARG_OFF, LINK_OFF in *.

Lemma saved_save f c m : placed c -> frame_wf f -> saved (save_mem f c m) c = f.
Proof.
  intros Hc (H1 & H2 & H3 & H4 & H5 & H6 & H7 & H8 & H9 & H10). unfold saved, save_mem. cbv beta zeta. offsets.
  rewrite !slot_placed by (done || lia). unfold word in *. destruct f. cbn [f_pc f_rsp f_rbx f_rbp f_r12 f_r13 f_r14 f_r15 f_mxcsr f_x87cw] in *.
  f_equal; by fields.
Qed.

(** A save writes the first 70 bytes of the context only. *)
Lemma save_out f c m b : placed c -> b < c \/ c + 70 <= b -> save_mem f c m b = m b.
Proof.
  intros Hc Hb. unfold save_mem. cbv beta zeta. offsets. rewrite !slot_placed by (done || lia).
  by rewrite !store_out by lia.
Qed.

Lemma load_save n a f c m : placed c -> apart a (Z.of_nat n) c 70 -> load n a (save_mem f c m) = load n a m.
Proof. intros Hc Ha. apply load_ext. intros b Hb. apply save_out; [done|]. unfold apart in Ha. lia. Qed.

Lemma saved_ext m m' c : placed c -> (forall b, c <= b < c + 70 -> m b = m' b) -> saved m c = saved m' c.
Proof.
  intros Hc H. unfold saved. offsets. rewrite !slot_placed by (done || lia).
  f_equal; apply load_ext; intros b Hb; apply H; lia.
Qed.

Lemma saved_other f c m c' : placed c -> placed c' -> apart c 70 c' 70 -> saved (save_mem f c m) c' = saved m c'.
Proof. intros Hc Hc' Ha. apply saved_ext; [done|]. intros b Hb. apply save_out; [done|]. unfold apart in Ha. lia. Qed.

(** ** The two halves of a switch *)

Lemma save_effect lab s :
  let s' := effects (save_code lab) s in
  (forall r, r <> RAX -> rg s' r = rg s r) /\ mxcsr s' = mxcsr s /\ x87cw s' = x87cw s /\
  mem s' = save_mem (frame_of s (label lab)) (rg s RDI) (mem s).
Proof. intros s'. split_and!; [|done|done|done]. intros r Hr. subst s'. cbn. by destruct (decide (r = RAX)). Qed.

(** The registers and control words a function must preserve. *)
Definition kept s : list Z := [rg s RSP; rg s RBX; rg s RBP; rg s R12; rg s R13; rg s R14; rg s R15; mxcsr s; x87cw s].
Definition kept_in (f : frame) : list Z :=
  [f_rsp f; f_rbx f; f_rbp f; f_r12 f; f_r13 f; f_r14 f; f_r15 f; f_mxcsr f; f_x87cw f].

Lemma restore_effect s :
  let s' := effects restore_code s in
  kept s' = kept_in (saved (mem s) (rg s RSI)) /\ rg s' RAX = 0 /\ rg s' RSI = rg s RSI /\ rg s' RDI = rg s RDI /\ mem s' = mem s.
Proof. by split_and!. Qed.

#[local] Opaque Asm.effects save_mem load store.

Lemma mem_goto s p : mem (goto s p) = mem s.
Proof. done. Qed.
Lemma rg_goto s p r : rg (goto s p) r = rg s r.
Proof. done. Qed.

Lemma jmpm_run n s k off b : pc s = label k -> prog !! k = Some (JmpM off b) ->
  run (S n) s = run n (goto s (load 8 (ea s off b) (mem s))).
Proof. intros Hp Hk. exact (run_step n s k _ _ Hp Hk eq_refl). Qed.

Lemma jmp_run n s k k' : pc s = label k -> prog !! k = Some (Jmp k') -> run (S n) s = run n (goto s (label k')).
Proof. intros Hp Hk. exact (run_step n s k _ _ Hp Hk eq_refl). Qed.

Lemma je_run n s k k' : pc s = label k -> prog !! k = Some (Je k') ->
  run (S n) s = run n (goto s (label (if zf s then k' else S k))).
Proof.
  intros Hp Hk. rewrite (run_step n s k _ _ Hp Hk eq_refl), Hp. f_equal. f_equal. unfold label. destruct (zf s); lia.
Qed.

Lemma ret_run n s k : pc s = label k -> prog !! k = Some Ret ->
  run (S n) s = run n (goto (set_reg s RSP (u64 (rg s RSP + 8))) (load 8 (rg s RSP) (mem s))).
Proof. intros Hp Hk. exact (run_step n s k _ _ Hp Hk eq_refl). Qed.

Lemma callm_run n s k off b : pc s = label k -> prog !! k = Some (CallM off b) ->
  run (S n) s = run n (goto (push s (label (S k))) (load 8 (ea s off b) (mem s))).
Proof.
  intros Hp Hk. rewrite (run_step n s k _ _ Hp Hk eq_refl), Hp. f_equal. f_equal. f_equal. unfold label. lia.
Qed.

(** What is restored from the context at [c]. *)
Definition resumed (f : frame) m s : Prop := pc s = f_pc f /\ kept s = kept_in f /\ rg s RAX = 0 /\ mem s = m.

Lemma restore_run n s :
  pc s = label 25 -> exists s', run (11 + n) s = run n s' /\ resumed (saved (mem s) (rg s RSI)) (mem s) s'.
Proof.
  intros Hp. change (11 + n)%nat with (length restore_code + (1 + n))%nat.
  rewrite (run_straight restore_code _ s 25 Hp eq_refl eq_refl).
  destruct (restore_effect s) as (F1 & F2 & F3 & _ & F5). revert F1 F2 F3 F5. generalize (effects restore_code s). intros s2 F1 F2 F3 F5.
  exists (goto s2 (load 8 (ea s2 PC_OFF RSI) (mem s2))). split; [by apply (jmpm_run n (goto s2 _) 35)|].
  split_and!; [|exact F1|exact F2|exact F5]. cbn [goto pc]. unfold ea. by rewrite F3, F5.
Qed.

(** loom_coro_ctx_swap up to the jump. *)
Lemma swap_run n s :
  pc s = label lab_swap -> let m := save_mem (frame_of s (label lab_after_swap)) (rg s RDI) (mem s) in
  exists s', run (22 + n) s = run n s' /\ resumed (saved m (rg s RSI)) m s'.
Proof.
  intros Hp m. change (22 + n)%nat with (length (save_code lab_after_swap) + (11 + n))%nat.
  rewrite (run_straight (save_code lab_after_swap) _ s lab_swap Hp eq_refl eq_refl).
  destruct (save_effect lab_after_swap s) as (E1 & _ & _ & E4). fold m in E4. specialize (E1 RSI ltac:(done)).
  revert E1 E4. generalize (effects (save_code lab_after_swap) s). intros s1 E1 E4.
  destruct (restore_run n (goto s1 (label (lab_swap + length (save_code lab_after_swap)))) eq_refl) as (s' & Hr & H).
  cbn [goto mem rg] in H. rewrite E4, E1 in H. by exists s'.
Qed.

(** ** The C side (src/coro_ctx.h) *)

Definition loom_coro_ctx_set_stack c (sp size : Z) m : bytes := store 8 (slot c RSP_OFF) (u64 (sp + size)) m.
Definition loom_coro_ctx_set_link c (target : Z) m : bytes := store 8 (slot c LINK_OFF) target m.
Definition loom_coro_ctx_has_link c m : bool := negb (load 8 (slot c LINK_OFF) m =? 0).
Definition loom_coro_ctx_make c (fn arg : Z) m : bytes :=
  let m := store 8 (slot c ENTRY_FN_OFF) fn m in
  let m := store 8 (slot c ENTRY_ARG_OFF) arg m in
  let m := store 8 (slot c RSP_OFF) (align16 (load 8 (slot c RSP_OFF) m)) m in
  let m := store 8 (slot c R15_OFF) c m in
  let m := store 4 (slot c MXCSR_OFF) 0x1F80 m in
  let m := store 2 (slot c X87CW_OFF) 0x037F m in
  store 8 (slot c PC_OFF) (label lab_trampoline) m.

(** ** The backend *)

(** Where the code is about to switch from, and the instructions up to
    .Lswap_core. *)
Definition lab_ended : nat := 41.
Definition prefix s : nat := if pc s =? label lab_ended then 5 else if pc s =? label lab_to_link then 2 else 0.

Inductive switching s : Z -> Z -> Prop :=
  | In_swap : pc s = label lab_swap -> switching s (rg s RDI) (rg s RSI)
  | In_link : pc s = label lab_to_link -> switching s (rg s RDI) (load 8 (slot (rg s RDI) LINK_OFF) (mem s))
  | In_end : pc s = label lab_ended -> load 8 (slot (rg s R15) LINK_OFF) (mem s) <> 0 ->
      switching s (rg s R15) (load 8 (slot (rg s R15) LINK_OFF) (mem s)).

(** A suspended caller: its frame and its return address, on top of its stack. *)
Definition caller s : kont (frame * Z) :=
  if pc s =? label lab_ended then Done else Paused (frame_of s (label lab_after_swap), load 8 (rg s RSP) (mem s)).

Definition context_bytes c (k : kont (frame * Z)) (b : Z) : Prop :=
  c <= b < c + 70 \/
  match k with
  | Paused (f, _) => f_rsp f <= b < f_rsp f + 8
  | Armed sp _ _ => c + 72 <= b < c + 88 \/ sp - 8 <= b < sp
  | Done => False
  end.

Definition context_holds m c (k : kont (frame * Z)) : Prop :=
  match k with
  | Paused (f, ra) => placed c /\ saved m c = f /\ f_pc f = label lab_after_swap /\ load 8 (f_rsp f) m = ra
  | Armed sp fn arg =>
      placed c /\ f_pc (saved m c) = label lab_trampoline /\ f_rsp (saved m c) = sp /\ f_r15 (saved m c) = c /\
      f_mxcsr (saved m c) = 0x1F80 /\ f_x87cw (saved m c) = 0x037F /\ load 8 (slot c ENTRY_FN_OFF) m = fn /\
      load 8 (slot c ENTRY_ARG_OFF) m = arg /\ sp mod 16 = 0 /\ 16 <= sp < 2 ^ 64
  | Done => True
  end.

Definition switch_ready s (from to : Z) : Prop :=
  switching s from to /\ cpu_wf s /\ placed from /\ (caller s = Done \/ apart from 70 (rg s RSP) 8).

(** Where control is after the switch: swap returns 0 to its caller with the
    registers of the call; an armed context calls its entry function with the
    alignment the ABI wants and the trampoline below it on the stack. *)
Definition delivered c (k : kont (frame * Z)) s : Prop :=
  match k with
  | Paused (f, ra) => pc s = ra /\ rg s RSP = u64 (f_rsp f + 8) /\ tail (kept s) = tail (kept_in f) /\ rg s RAX = 0
  | Armed sp fn arg =>
      pc s = fn /\ rg s RDI = arg /\ rg s R15 = c /\ rg s RSP = sp - 8 /\ (rg s RSP + 8) mod 16 = 0 /\
      load 8 (rg s RSP) (mem s) = label lab_ended /\ mxcsr s = 0x1F80 /\ x87cw s = 0x037F
  | Done => False
  end.

(** Memory once the caller is saved. *)
Definition caller_saved s from : bytes := save_mem (frame_of s (label lab_after_swap)) from (mem s).

Definition switch_cost s (k : kont (frame * Z)) : nat :=
  prefix s + 22 + match k with Paused _ => 1 | Armed _ _ _ => 2 | Done => 0 end.

Lemma context_holds_ext m m' c k :
  (forall b, context_bytes c k b -> m b = m' b) -> context_holds m c k -> context_holds m' c k.
Proof.
  intros H. destruct k as [[f ra]|sp fn arg|]; cbn [context_holds context_bytes] in *; [| |done].
  - intros (H1 & H2 & H3 & H4). rewrite <- (saved_ext m m'); [|done|intros b Hb; apply H; by left].
    split_and!; [done..|]. rewrite <- H4. symmetry. apply load_ext. intros b Hb. apply H. right. lia.
  - intros (H1 & H2). rewrite <- (saved_ext m m'); [|done|intros b Hb; apply H; by left].
    split; [done|]. offsets. rewrite !slot_placed in * by (done || lia).
    rewrite <- (load_ext 8 (c + 72) m m'), <- (load_ext 8 (c + 80) m m'); [done|..]; intros b Hb; apply H; right; left; lia.
Qed.

Lemma label_eqb k k' : (label k =? label k') = (k =? k')%nat.
Proof. unfold label. destruct (Nat.eqb_spec k k'); [subst; apply Z.eqb_refl|apply Z.eqb_neq; lia]. Qed.

Lemma prefix_run n s from to : switching s from to ->
  exists s', run (prefix s + n) s = run n s' /\ pc s' = label lab_swap /\ rg s' RDI = from /\ rg s' RSI = to /\ mem s' = mem s /\
    forall p, frame_of s' p = frame_of s p.
Proof.
  intros [Hp|Hp|Hp Hl]; unfold prefix; rewrite Hp, !label_eqb; cbn [Nat.eqb lab_swap lab_ended lab_to_link Nat.add].
  - by exists s.
  - rewrite (run_straight [Ld LINK_OFF RDI RSI] _ s lab_to_link Hp eq_refl eq_refl).
    exists (goto (effects [Ld LINK_OFF RDI RSI] s) (label lab_swap)). split_and!; [by erewrite (jmp_run n _ 38)|done..].
  - change (S (S (S (S (S n))))) with (length [Ld LINK_OFF R15 RSI; Test RSI] + S (length [Mov R15 RDI] + S n))%nat.
    rewrite (run_straight [Ld LINK_OFF R15 RSI; Test RSI] _ s lab_ended Hp eq_refl eq_refl).
    rewrite (je_run _ _ 43 lab_no_link) by done.
    assert (Hz : forall p, zf (goto (effects [Ld LINK_OFF R15 RSI; Test RSI] s) p) = false) by (intros p; by apply Z.eqb_neq).
    rewrite Hz, (run_straight [Mov R15 RDI] _ _ 44) by done.
    exists (goto (effects [Ld LINK_OFF R15 RSI; Test RSI; Mov R15 RDI] s) (label lab_swap)).
    split_and!; [by erewrite (jmp_run n _ 45)|done..].
Qed.

Context (Htext : 0 <= text /\ text + 64 <= 2 ^ 64).

Lemma frame_of_wf s k : cpu_wf s -> (k < 64)%nat -> frame_wf (frame_of s (label k)).
Proof. intros (H1 & H2 & H3) Hk. unfold frame_wf. simpl. split_and!; try apply H1; try lia; unfold word, label; lia. Qed.

Lemma caller_holds s from to : switch_ready s from to -> context_holds (caller_saved s from) from (caller s).
Proof.
  intros (_ & Hw & Hp & Hr). unfold caller in *. destruct (pc s =? label lab_ended); [done|]. destruct Hr as [?|Hr]; [done|].
  cbn [context_holds]. unfold caller_saved. split_and!; [done|apply saved_save; [done|by apply frame_of_wf; [|unfold lab_after_swap; lia]]|done|].
  apply load_save; [done|]. cbn. unfold apart in *. lia.
Qed.

Lemma caller_frame s from to b :
  switch_ready s from to -> ~ context_bytes from (caller s) b -> caller_saved s from b = mem s b.
Proof. intros (_ & _ & Hp & _) Hb. apply save_out; [done|]. unfold context_bytes in Hb. lia. Qed.

(** Up to the jump, whatever the entry. *)
Lemma switch_run n s from to : switching s from to ->
  exists s', run (prefix s + 22 + n) s = run n s' /\ resumed (saved (caller_saved s from) to) (caller_saved s from) s'.
Proof.
  intros Hs. destruct (prefix_run (22 + n) s from to Hs) as (s1 & Hr & Hpc & Hd & Hsi & Hm & Hf).
  destruct (swap_run n s1 Hpc) as (s2 & Hr2 & Hres). rewrite Hf, Hd, Hsi, Hm in Hres.
  exists s2. split; [|done]. by rewrite <- Hr2, <- Hr, Nat.add_assoc.
Qed.

Lemma paused_run s f m : resumed f m s -> f_pc f = label lab_after_swap ->
  let s' := run 1 s in pc s' = load 8 (f_rsp f) m /\ rg s' RSP = u64 (f_rsp f + 8) /\ tail (kept s') = tail (kept_in f) /\ rg s' RAX = 0 /\ mem s' = m.
Proof.
  intros (H1 & H2 & H3 & H4) Hf s'. subst s'. rewrite (ret_run 0 s lab_after_swap) by (by rewrite ?H1). cbn [asm_run].
  unfold kept, kept_in in *. injection H2 as E1 E2 E3 E4 E5 E6 E7 E8 E9. cbn. by rewrite E1, E2, E3, E4, E5, E6, E7, E8, E9, H3, H4.
Qed.

Lemma armed_run s f m c : resumed f m s -> f_pc f = label lab_trampoline -> f_r15 f = c ->
  let s' := run 2 s in let sp := u64 (f_rsp f - 8) in
  pc s' = load 8 (slot c ENTRY_FN_OFF) m /\ rg s' RDI = load 8 (slot c ENTRY_ARG_OFF) m /\ rg s' R15 = c /\ rg s' RSP = sp /\
  mxcsr s' = f_mxcsr f /\ x87cw s' = f_x87cw f /\ mem s' = store 8 sp (label lab_ended) m.
Proof.
  intros (H1 & H2 & H3 & H4) Hf Hc s' sp. subst s' sp. rewrite Hf in H1.
  rewrite (run_straight [Ld ENTRY_ARG_OFF R15 RDI] 1 s lab_trampoline H1 eq_refl eq_refl : run 2 s = _).
  rewrite (callm_run 0 _ 40 ENTRY_FN_OFF R15) by done. cbn [asm_run].
  unfold kept, kept_in in H2. injection H2 as E1 _ _ _ _ _ E7 E8 E9. rewrite Hc in E7. with_strategy transparent [Asm.effects] cbn. unfold ea.
  cbn. by rewrite E1, E7, E8, E9, H4.
Qed.

Lemma switch_delivers_to s from to k :
  switch_ready s from to -> context_holds (caller_saved s from) to k -> k <> Done ->
  let s' := run (switch_cost s k) s in
  delivered to k s' /\ forall b, ~ context_bytes to k b -> mem s' b = caller_saved s from b.
Proof.
  intros (Hs & _) Hh Hd. unfold switch_cost. set (m := caller_saved s from) in *. destruct k as [[f ra]|sp fn arg|]; [| |done].
  - destruct (switch_run 1 s from to Hs) as (s1 & -> & Hres). fold m in Hres. cbn [context_holds] in Hh. destruct Hh as (_ & <- & Hf & <-).
    destruct (paused_run s1 _ _ Hres Hf) as (P1 & P2 & P3 & P4 & P5). cbv zeta. rewrite P5. by split_and!.
  - destruct (switch_run 2 s from to Hs) as (s1 & -> & Hres). fold m in Hres. cbn [context_holds] in Hh.
    destruct Hh as (_ & Hf & Hsp & Hc & Hx & Hw & He & Ha & Hal & Hr).
    destruct (armed_run s1 _ _ to Hres Hf Hc) as (P1 & P2 & P3 & P4 & P5 & P6 & P7). cbv zeta.
    rewrite Hsp, u64_small in * by lia. cbn [delivered]. rewrite P1, P2, P4, P5, P6, P7, He, Ha.
    rewrite load8_same by (unfold label, lab_ended; lia). split; [split_and!; try done; by rewrite Z.sub_add|].
    intros b Hb. apply store_out. unfold context_bytes in Hb. lia.
Qed.

(** ** Arming *)

Definition ctx_arm c (base size fn arg : Z) m : bytes := loom_coro_ctx_make c fn arg (loom_coro_ctx_set_stack c base size m).
Definition stack_top (base size : Z) : Z := align16 (u64 (base + size)).
Definition ctx_arm_ok c (base size fn arg : Z) : Prop :=
  placed c /\ 0 <= base /\ 32 <= size /\ base + size < 2 ^ 64 /\ word fn /\ word arg.

Lemma make_holds c fn arg m t :
  placed c -> word fn -> word arg -> load 8 (slot c RSP_OFF) m = t -> 16 <= t < 2 ^ 64 ->
  context_holds (loom_coro_ctx_make c fn arg m) c (Armed (align16 t) fn arg).
Proof.
  intros Hc Hf Ha Hl Ht. pose proof (align16_spec t ltac:(unfold word; lia)) as Hal.
  assert (Hr : 16 <= align16 t < 2 ^ 64) by (pose proof (Z.div_mod t 16); pose proof (Z.mod_pos_bound t 16); lia).
  cbn [context_holds]. unfold loom_coro_ctx_make, saved. cbv zeta. cbn [f_pc f_rsp f_r15 f_mxcsr f_x87cw]. offsets.
  rewrite !slot_placed in * by (done || lia). unfold word, placed in *. split; [done|]. unfold label, lab_trampoline in *.
  assert (Hin : load 8 (c + 8) (store 8 (c + 80) arg (store 8 (c + 72) fn m)) = t) by by fields.
  rewrite Hin. split_and!; try (by fields); try lia. rewrite Hal. apply Z_mod_mult.
Qed.

Lemma set_stack_rsp c base size m : placed c -> 0 <= base + size < 2 ^ 64 ->
  load 8 (slot c RSP_OFF) (loom_coro_ctx_set_stack c base size m) = base + size.
Proof. intros Hc Hs. unfold loom_coro_ctx_set_stack. by rewrite u64_small, load8_same. Qed.

Lemma ctx_arm_holds c base size fn arg m :
  ctx_arm_ok c base size fn arg -> context_holds (ctx_arm c base size fn arg m) c (Armed (stack_top base size) fn arg).
Proof.
  intros (Hc & Hb & Hz & Ht & Hf & Ha). unfold stack_top, ctx_arm. rewrite u64_small by lia.
  apply (make_holds _ _ _ _ (base + size) Hc Hf Ha); [apply set_stack_rsp; [done|lia]|lia].
Qed.

Lemma ctx_arm_frame c base size fn arg m b :
  ctx_arm_ok c base size fn arg -> ~ context_bytes c (Armed (stack_top base size) fn arg) b -> ctx_arm c base size fn arg m b = m b.
Proof.
  intros (Hc & _) Hb. unfold context_bytes in Hb. unfold ctx_arm, loom_coro_ctx_make, loom_coro_ctx_set_stack. cbv zeta. offsets.
  rewrite !slot_placed by (done || lia). by rewrite !store_out by lia.
Qed.

#[local] Instance x86_backend : Backend cpu (frame * Z) := {|
  bmem := mem; owns := context_bytes; holds := context_holds; at_swap := switch_ready; suspends := caller;
  saved_mem := caller_saved; arm := ctx_arm; arm_ok := ctx_arm_ok; top := stack_top; cost := switch_cost;
  delivers := delivered; brun := run;
  holds_ext := context_holds_ext; swap_saves := caller_holds; swap_frame := caller_frame;
  swap_delivers := switch_delivers_to; arm_holds := ctx_arm_holds; arm_frame := ctx_arm_frame;
|}.

(** ** Theorems *)

(** C20. On x86-64, in every run in which contexts are armed, switched between
    (by swap, by swap_to_link and by entry functions that return), overwritten
    nowhere while they wait and destroyed in any order, every switch delivers:
    a suspended caller sees its swap return 0 at its return address with the
    stack pointer, rbx, rbp, r12 to r15, mxcsr and the x87 control word of the
    call, and an armed context enters its entry function with its argument, a
    stack aligned as the ABI wants, default control words and the trampoline as
    the return address. *)
Theorem x86_switch_delivers s0 susp s to k susp' s' :
  reachable s0 (susp, s) -> world_step (susp, s) (Some (to, k)) (susp', s') -> delivered to k s'.
Proof. intros Hr Hs. exact (switch_delivers s0 (susp, s) to k (susp', s') Hr Hs). Qed.

Lemma get_run s : pc s = label lab_get -> let s' := run 13 s in
  pc s' = load 8 (rg s RSP) (save_mem (frame_of s (label lab_after_ret)) (rg s RDI) (mem s)) /\ rg s' RAX = 0 /\
  rg s' RSP = u64 (rg s RSP + 8) /\ tail (kept s') = tail (kept s) /\
  mem s' = save_mem (frame_of s (label lab_after_ret)) (rg s RDI) (mem s).
Proof.
  intros Hp. cbv zeta. rewrite (run_straight (save_code lab_after_ret ++ [Zero RAX]) 1 s lab_get Hp eq_refl eq_refl : run 13 s = _).
  rewrite (ret_run 0 _ 12) by done. with_strategy transparent [Asm.effects] by split_and!.
Qed.

Lemma exit_run s : pc s = label lab_ended -> load 8 (slot (rg s R15) LINK_OFF) (mem s) = 0 -> let s' := run 5 s in
  pc s' = exit_fn /\ rg s' RDI = 0 /\ rg s' RSP = u64 (rg s RSP - 8).
Proof.
  intros Hp Hl. change 5%nat with (length [Ld LINK_OFF R15 RSI; Test RSI] + S (length [Zero RDI] + 1))%nat.
  rewrite (run_straight [Ld LINK_OFF R15 RSI; Test RSI] _ s lab_ended Hp eq_refl eq_refl).
  rewrite (je_run _ _ 43 lab_no_link) by done.
  assert (Hz : forall p, zf (goto (effects [Ld LINK_OFF R15 RSI; Test RSI] s) p) = true) by (intros p; by apply Z.eqb_eq).
  cbv zeta. rewrite Hz, (run_straight [Zero RDI] _ _ lab_no_link) by done.
  erewrite (run_step 0 _ 47 CallExit) by done. done.
Qed.

(** On x86-64 the two paths that do not switch: loom_coro_ctx_get saves the
    caller's frame, with its own ret as the address of resumption, and returns
    0 with every callee-saved register and control word as it was; and an entry
    function that returns in a context without a link (has_link is false) ends
    in a call of exit(0) on an aligned stack. *)
Theorem x86_get_and_exit s :
  cpu_wf s ->
  (pc s = label lab_get -> placed (rg s RDI) -> apart (rg s RDI) 70 (rg s RSP) 8 -> let s' := run 13 s in
     pc s' = load 8 (rg s RSP) (mem s) /\ rg s' RAX = 0 /\ rg s' RSP = u64 (rg s RSP + 8) /\ tail (kept s') = tail (kept s) /\
     saved (mem s') (rg s RDI) = frame_of s (label lab_after_ret) /\
     forall b, b < rg s RDI \/ rg s RDI + 70 <= b -> mem s' b = mem s b) /\
  (pc s = label lab_ended -> loom_coro_ctx_has_link (rg s R15) (mem s) = false -> rg s RSP mod 16 = 0 -> 16 <= rg s RSP ->
     let s' := run 5 s in pc s' = exit_fn /\ rg s' RDI = 0 /\ (rg s' RSP + 8) mod 16 = 0).
Proof.
  intros Hw. split.
  - intros Hp Hc Ha. destruct (get_run s Hp) as (G1 & G2 & G3 & G4 & G5). cbv zeta. rewrite G1, G5.
    split_and!; try done; [|apply saved_save; [done|by apply frame_of_wf; [|unfold lab_after_ret; lia]]|intros b; by apply save_out].
    apply load_save; [done|]. unfold apart in *. lia.
  - intros Hp Hl Hm Hb. apply negb_false_iff, Z.eqb_eq in Hl. destruct (exit_run s Hp Hl) as (E1 & E2 & E3). cbv zeta.
    rewrite E1, E2, E3. destruct Hw as [Hw _]. specialize (Hw RSP). unfold word in Hw. rewrite u64_small by lia. by rewrite Z.sub_add.
Qed.
End Text.

(** A caller with its context at 12288 starts a coroutine at 8192, which stores
    a link and switches back through it. *)
Module Example.
Abbreviation ex_run := (asm_run (Isa0 := x86_isa 4096 1000)).
Definition base_regs (r : reg) : Z :=
  match r with RDI => 12288 | RSI => 8192 | RSP => 20480 | RBX => 11 | R12 => 12 | R15 => 15 | _ => 0 end.
Definition ex_begin : cpu := mk_cpu base_regs 0x1F80 0x037F false 0 (store 8 20480 3000 (fun _ => 0)).
Definition ex_call : cpu :=
  mk_cpu base_regs 0x1FA0 0x027F false (label 4096 lab_swap) (ctx_arm 4096 8192 65536 4096 5000 7 (store 8 20480 3000 (fun _ => 0))).
Definition ex_wait : kont (frame * Z) := caller 4096 ex_call.
Definition ex_in : cpu := ex_run (switch_cost 4096 ex_call (Armed 69632 5000 7)) ex_call.
Definition ex_back : cpu :=
  mk_cpu (fun r => if decide (r = RDI) then 8192 else if decide (r = RBX) then 77 else rg ex_in r) 0x1F80 0x037F true
    (label 4096 lab_to_link) (loom_coro_ctx_set_link 8192 12288 (mem ex_in)).

Lemma ex_text : 0 <= 4096 /\ 4096 + 64 <= 2 ^ 64.
Proof. lia. Qed.

Lemma ex_wf s l : (forall r, rg s r ∈ l) -> forallb (fun v => (0 <=? v) && (v <? 2 ^ 64)) l = true ->
  0 <= mxcsr s < 2 ^ 32 -> 0 <= x87cw s < 2 ^ 16 -> cpu_wf s.
Proof.
  intros H Hl Hm Hx. rewrite forallb_forall in Hl. split; [|done]. intros r.
  specialize (Hl (rg s r) (proj1 (list_elem_of_In _ _) (H r))). unfold word. lia.
Qed.

#[local] Existing Instance x86_backend.
Abbreviation X := (x86_backend 4096 1000 ex_text).

Lemma ex_wait_bytes b : context_bytes 12288 (caller 4096 ex_call) b -> 12288 <= b < 12358 \/ 20480 <= b < 20488.
Proof.
  unfold context_bytes, caller. replace (pc ex_call =? label 4096 lab_ended) with false by done. cbn [f_rsp frame_of ex_call rg base_regs]. lia.
Qed.

#[local] Opaque asm_run switch_cost caller ctx_arm stack_top.

Lemma ex_reached : @reachable _ _ X ex_begin (delete 8192 (<[12288 := ex_wait]> {[8192 := Armed 69632 5000 7]}), ex_in).
Proof.
  apply (R_step _ ({[8192 := Armed 69632 5000 7]}, ex_call) (Some (8192, Armed 69632 5000 7))).
  - apply (R_step _ (∅, ex_begin) None); [constructor|]. apply (@W_make _ _ X ∅ ex_begin ex_call 8192 65536 4096 5000 7); [|done..].
    unfold arm_ok. cbn. unfold ctx_arm_ok, placed, word. lia.
  - apply (@W_swap _ _ X _ ex_call 12288 8192); [|by rewrite lookup_singleton_ne| |by rewrite lookup_insert_ne, lookup_singleton_eq|done].
    + change (switch_ready 4096 ex_call 12288 8192). unfold switch_ready.
      split_and!; [by apply (In_swap 4096 ex_call)| | |]; [|unfold placed; lia|right; unfold apart; cbn; lia].
      apply (ex_wf _ [0; 12288; 8192; 20480; 11; 12; 15]); [|done..]. intros r. apply list_elem_of_In. destruct r; cbn; tauto.
    + intros c k b Hc _ Hb. apply lookup_singleton_Some in Hc as [<- <-]. apply ex_wait_bytes in Hb. unfold owns, X, context_bytes. lia.
Qed.

Definition ex_susp : gmap Z (kont (frame * Z)) := delete 8192 (<[12288 := ex_wait]> {[8192 := Armed 69632 5000 7]}).

Lemma ex_susp_Some c k : ex_susp !! c = Some k -> c = 12288 /\ k = ex_wait.
Proof.
  unfold ex_susp. rewrite lookup_delete_Some, lookup_insert_Some. intros [H1 [[<- <-]|[H2 H3]]]; [done|].
  by apply lookup_singleton_Some in H3 as [<- _].
Qed.

Lemma ex_back_reached : @reachable _ _ X ex_begin (ex_susp, ex_back).
Proof.
  apply (R_step _ (ex_susp, ex_in) None); [apply ex_reached|]. apply (@W_outside _ _ X). intros c k b Hc Hb.
  apply ex_susp_Some in Hc as [-> ->]. apply ex_wait_bytes in Hb. unfold bmem, X, ex_back, loom_coro_ctx_set_link. cbn [mem].
  change (slot 8192 LINK_OFF) with 8280. by rewrite store_out by lia.
Qed.

Lemma ex_back_regs r : (0 <=? rg ex_back r) && (rg ex_back r <? 2 ^ 64) = true.
Proof. destruct r; vm_compute; reflexivity. Qed.
Lemma ex_back_rsp : rg ex_back RSP = 69624.
Proof. vm_compute. reflexivity. Qed.
Lemma ex_back_link : load 8 (slot (rg ex_back RDI) LINK_OFF) (mem ex_back) = 12288.
Proof. vm_compute. reflexivity. Qed.
Lemma ex_back_caller : caller 4096 ex_back = Paused (frame_of ex_back (label 4096 lab_after_swap), load 8 (rg ex_back RSP) (mem ex_back)).
Proof. reflexivity. Qed.
Lemma ex_wait_value : ex_wait = Paused (mk_frame (label 4096 lab_after_swap) 20480 11 0 12 0 0 15 0x1FA0 0x027F, 3000).
Proof. vm_compute. reflexivity. Qed.

Lemma ex_ready : switch_ready 4096 ex_back 8192 12288.
Proof.
  split_and!; [|split; [|done]|unfold placed; lia|right; rewrite ex_back_rsp; unfold apart; lia].
  - rewrite <- ex_back_link. by apply (In_link 4096 ex_back).
  - intros r. pose proof (ex_back_regs r). unfold word. lia.
Qed.

Lemma ex_fresh : @fresh _ _ X ex_susp 8192 (caller 4096 ex_back).
Proof.
  intros c k b Hc _ Hb Hb'. apply ex_susp_Some in Hc as [-> ->]. apply ex_wait_bytes in Hb'.
  revert Hb. unfold owns, X, context_bytes. rewrite ex_back_caller. cbn [f_rsp frame_of]. rewrite ex_back_rsp. lia.
Qed.

Lemma ex_step : @world_step _ _ X (ex_susp, ex_back) (Some (12288, ex_wait))
  (delete 12288 (<[8192 := caller 4096 ex_back]> ex_susp), ex_run (switch_cost 4096 ex_back ex_wait) ex_back).
Proof.
  apply (@W_swap _ _ X _ ex_back 8192 12288); [apply ex_ready|apply lookup_delete_eq|apply ex_fresh| |by rewrite ex_wait_value].
  rewrite lookup_insert_ne by done. unfold ex_susp. rewrite lookup_delete_ne by done. apply lookup_insert_eq.
Qed.
End Example.
Import Example.

(** The coroutine's swap_to_link is the return of its caller's swap. *)
Lemma x86_switch_delivers_witness :
  delivered 4096 12288 (Paused (mk_frame (label 4096 lab_after_swap) 20480 11 0 12 0 0 15 0x1FA0 0x027F, 3000))
    (ex_run (switch_cost 4096 ex_back ex_wait) ex_back).
Proof.
  rewrite <- ex_wait_value. exact (x86_switch_delivers 4096 1000 ex_text ex_begin ex_susp ex_back 12288 ex_wait _ _ ex_back_reached ex_step).
Defined.

Lemma x86_get_and_exit_witness : exists s, pc s = label 4096 lab_get /\ let s' := ex_run 13 s in
  pc s' = 3000 /\ rg s' RAX = 0 /\ saved (mem s') 12288 = frame_of s (label 4096 lab_after_ret).
Proof.
  exists (goto ex_begin (label 4096 lab_get)). split; [done|].
  assert (Hw : cpu_wf (goto ex_begin (label 4096 lab_get))).
  { split; [|done]. intros r. unfold word. destruct r; simpl; lia. }
  destruct (x86_get_and_exit 4096 1000 ex_text _ Hw) as [H _].
  destruct (H eq_refl ltac:(unfold placed; simpl; lia) ltac:(unfold apart; simpl; lia)) as (H1 & H2 & _ & _ & H5 & _).
  split_and!; [rewrite H1; vm_compute; reflexivity|exact H2|exact H5].
Defined.
