(* ===== verification/CtxArm.v ===== *)
(** * The context switch on aarch64 (src/ctx_aarch64.S, src/coro_ctx.h).

    The second instance of [Backend]: the assembly runs on a machine with the
    31 general registers, the stack pointer, the floating-point control and
    status registers and the vector registers' low halves d0 to d31.  An
    instruction takes four bytes from [text] on; [exit_fn] is the C library's
    exit.  The return address of a call is in x30, so a suspended context needs
    no byte of its stack.  The code treats every vector register as
    caller-saved; the last theorem shows what that does to a caller that follows
    the procedure call standard, in which d8 to d15 are callee-saved. *)
From S2P Require Import Prelude Asm ByteMem CtxSwitch.

(** ** Machine *)

Record cpu := mk_cpu {
  x : nat -> Z;
  sp : Z;
  fpcr : Z;
  fpsr : Z;
  vd : nat -> Z;
  pc : Z;
  mem : bytes;
}.

Inductive instr :=
  | MovSp (d : nat)                        (* mov xd, sp *)
  | SetSp (s : nat)                        (* mov sp, xs *)
  | Mov (d s : nat)
  | MovZ (d : nat)                         (* mov wd, wzr; mov wd, #0 *)
  | Str (r : nat) (off : Z) (b : nat)      (* str xr, [xb, #off] *)
  | StrW (r : nat) (off : Z) (b : nat)     (* str wr, [xb, #off] *)
  | Stp (r r' : nat) (off : Z) (b : nat)
  | Ldr (r : nat) (off : Z) (b : nat)
  | LdrW (r : nat) (off : Z) (b : nat)
  | Ldp (r r' : nat) (off : Z) (b : nat)
  | MrsFpcr (d : nat)
  | MrsFpsr (d : nat)
  | MsrFpcr (s : nat)
  | MsrFpsr (s : nat)
  | Adr (d : nat) (lab : nat)
  | Ret
  | Br (r : nat)
  | Blr (r : nat)
  | B (lab : nat)
  | Cbz (r lab : nat)
  | BlExit.

Definition set_x (s : cpu) (r : nat) (v : Z) : cpu :=
  mk_cpu (fun i => if (i =? r)%nat then v else x s i) (sp s) (fpcr s) (fpsr s) (vd s) (pc s) (mem s).
Definition set_mem (s : cpu) (m : bytes) : cpu := mk_cpu (x s) (sp s) (fpcr s) (fpsr s) (vd s) (pc s) m.
Definition goto (s : cpu) (p : Z) : cpu := mk_cpu (x s) (sp s) (fpcr s) (fpsr s) (vd s) p (mem s).

Definition slot (c off : Z) : Z := u64 (c + off).

(** ** The text *)

Definition PC_OFF := 0.
Definition SP_OFF := 8.
Definition REGS_OFF := 16.
Definition FPCR_OFF := 112.
Definition FPSR_OFF := 116.
Definition ENTRY_FN_OFF := 120.
Definition ENTRY_ARG_OFF := 128.
Definition LINK_OFF := 136.

(** struct loom_coro_ctx, and the offsets coro_ctx.h asserts: the assembly's. *)
Definition ctx_fields : list Z := [8; 8] ++ repeat 8 12 ++ [4; 4; 8; 8; 8].
Definition ctx_offsets : list Z :=
  [PC_OFF; SP_OFF] ++ map (fun i => REGS_OFF + 8 * Z.of_nat i) (seq 0 12) ++ [FPCR_OFF; FPSR_OFF; ENTRY_FN_OFF; ENTRY_ARG_OFF; LINK_OFF].

Lemma arm_layout : offsets_from 0 ctx_fields = ctx_offsets /\ struct_size ctx_fields = 144.
Proof. split; vm_compute; reflexivity. Qed.

Definition save_code (lab : nat) : list instr :=
  [MovSp 9; Str 9 SP_OFF 0; Stp 19 20 REGS_OFF 0; Stp 21 22 (REGS_OFF + 16) 0; Stp 23 24 (REGS_OFF + 32) 0;
   Stp 25 26 (REGS_OFF + 48) 0; Stp 27 28 (REGS_OFF + 64) 0; Stp 29 30 (REGS_OFF + 80) 0;
   MrsFpcr 9; StrW 9 FPCR_OFF 0; MrsFpsr 9; StrW 9 FPSR_OFF 0; Adr 9 lab; Str 9 PC_OFF 0].

Definition restore_code : list instr :=
  [Ldr 9 SP_OFF 1; SetSp 9; Ldp 19 20 REGS_OFF 1; Ldp 21 22 (REGS_OFF + 16) 1; Ldp 23 24 (REGS_OFF + 32) 1;
   Ldp 25 26 (REGS_OFF + 48) 1; Ldp 27 28 (REGS_OFF + 64) 1; Ldp 29 30 (REGS_OFF + 80) 1;
   LdrW 9 FPCR_OFF 1; MsrFpcr 9; LdrW 9 FPSR_OFF 1; MsrFpsr 9; MovZ 0; Ldr 9 PC_OFF 1].

Definition lab_get : nat := 0.
Definition lab_after_ret : nat := 16.
Definition lab_swap : nat := 17.
Definition lab_after_swap : nat := 46.
Definition lab_to_link : nat := 47.
Definition lab_trampoline : nat := 49.
Definition lab_ended : nat := 52.
Definition lab_no_link : nat := 57.

Definition loom_coro_ctx_get : list instr := save_code lab_after_ret ++ [MovZ 0; Ret; Ret].
Definition loom_coro_ctx_swap : list instr := save_code lab_after_swap ++ restore_code ++ [Br 9; Ret].
Definition loom_coro_ctx_swap_to_link : list instr := [Ldr 1 LINK_OFF 0; B lab_swap].
Definition ctx_trampoline : list instr :=
  [Ldr 0 ENTRY_ARG_OFF 19; Ldr 9 ENTRY_FN_OFF 19; Blr 9; Ldr 9 LINK_OFF 19; Cbz 9 lab_no_link; Mov 0 19; Mov 1 9; B lab_swap;
   MovZ 0; BlExit].

Definition prog : list instr := loom_coro_ctx_get ++ loom_coro_ctx_swap ++ loom_coro_ctx_swap_to_link ++ ctx_trampoline.

(** ** Execution *)

Section Text.
Context (text exit_fn : Z).
Implicit Types (s : cpu) (c : Z) (m : bytes).

Definition label (k : nat) : Z := text + 4 * Z.of_nat k.
Definition ea s (off : Z) (b : nat) : Z := slot (x s b) off.

(** Straight-line instructions. *)
Definition effect (i : instr) s : cpu :=
  match i with
  | MovSp d => set_x s d (sp s)
  | SetSp r => mk_cpu (x s) (x s r) (fpcr s) (fpsr s) (vd s) (pc s) (mem s)
  | Mov d r => set_x s d (x s r)
  | MovZ d => set_x s d 0
  | Str r off b => set_mem s (store 8 (ea s off b) (x s r) (mem s))
  | StrW r off b => set_mem s (store 4 (ea s off b) (x s r) (mem s))
  | Stp r r' off b => set_mem s (store 8 (ea s (off + 8) b) (x s r') (store 8 (ea s off b) (x s r) (mem s)))
  | Ldr r off b => set_x s r (load 8 (ea s off b) (mem s))
  | LdrW r off b => set_x s r (load 4 (ea s off b) (mem s))
  | Ldp r r' off b => set_x (set_x s r (load 8 (ea s off b) (mem s))) r' (load 8 (ea s (off + 8) b) (mem s))
  | MrsFpcr d => set_x s d (fpcr s)
  | MrsFpsr d => set_x s d (fpsr s)
  | MsrFpcr r => mk_cpu (x s) (sp s) (x s r) (fpsr s) (vd s) (pc s) (mem s)
  | MsrFpsr r => mk_cpu (x s) (sp s) (fpcr s) (x s r) (vd s) (pc s) (mem s)
  | Adr d k => set_x s d (label k)
  | _ => s
  end.

Definition straight (i : instr) : bool :=
  match i with Ret | Br _ | Blr _ | B _ | Cbz _ _ | BlExit => false | _ => true end.

Definition next (i : instr) s : cpu :=
  match i with
  | Ret => goto s (x s 30)
  | Br r => goto s (x s r)
  | Blr r => goto (set_x s 30 (pc s + 4)) (x s r)
  | B k => goto s (label k)
  | Cbz r k => goto s (if x s r =? 0 then label k else pc s + 4)
  | BlExit => goto (set_x s 30 (pc s + 4)) exit_fn
  | _ => goto (effect i s) (pc s + 4)
  end.

Definition fetch (p : Z) : option instr :=
  if (text <=? p) && ((p - text) mod 4 =? 0) then prog !! Z.to_nat ((p - text) / 4) else None.

Lemma label_S k : label k + 4 = label (S k).
Proof. unfold label. lia. Qed.

Lemma arm_fetch_label k : fetch (label k) = prog !! k.
Proof.
  unfold fetch, label. replace (text + 4 * Z.of_nat k - text) with (Z.of_nat k * 4) by lia.
  by rewrite Z_mod_mult, Z.div_mul, Nat2Z.id, (proj2 (Z.leb_le _ _)) by lia.
Qed.

Lemma arm_exec_straight i s k : straight i = true -> pc s = label k -> Some (next i s) = Some (goto (effect i s) (label (S k))).
Proof. intros Hi Hp. rewrite <- label_S, <- Hp. by destruct i. Qed.

#[local] Instance arm_isa : Isa cpu instr.
Proof.
  refine {| isa_pc := pc; isa_goto := goto; isa_label := label; isa_prog := prog; isa_fetch := fetch; isa_effect := effect;
            isa_straight := straight; isa_exec i s := Some (next i s); fetch_label := arm_fetch_label; exec_straight := arm_exec_straight |}.
  - by intros [].
  - done.
  - done.
  - by intros [].
Defined.

#[local] Abbreviation run := (asm_run (Isa0 := arm_isa)).
#[local] Abbreviation run_straight := (Asm.run_straight (Isa0 := arm_isa)).
#[local] Abbreviation effects := (Asm.effects (Isa0 := arm_isa)).

Lemma arm_run_step n s k i : pc s = label k -> prog !! k = Some i -> run (S n) s = run n (next i s).
Proof. intros Hp Hk. exact (Asm.run_step (Isa0 := arm_isa) n s k i _ Hp Hk eq_refl). Qed.

(** ** What a context holds *)

(** x19 to x30, the last of them the return address. *)
Record frame := mk_frame { f_pc : Z; f_sp : Z; f_regs : list Z; f_fpcr : Z; f_fpsr : Z }.

Definition saved_regs : list nat := [19; 20; 21; 22; 23; 24; 25; 26; 27; 28; 29; 30]%nat.
Definition f_lr (f : frame) : Z := nth 11 (f_regs f) 0.
Definition frame_of s (p : Z) : frame := mk_frame p (sp s) (map (x s) saved_regs) (fpcr s) (fpsr s).

Definition reg_slots : list Z := [16; 24; 32; 40; 48; 56; 64; 72; 80; 88; 96; 104].
Definition saved m c : frame :=
  mk_frame (load 8 (slot c PC_OFF) m) (load 8 (slot c SP_OFF) m) (map (fun off => load 8 (slot c off) m) reg_slots)
    (load 4 (slot c FPCR_OFF) m) (load 4 (slot c FPSR_OFF) m).

(** The stores of the save, first to last. *)
Definition save_mem s (p : Z) c m : bytes :=
  let regs := foldl (fun m rw => store 8 (slot c rw.2) (x s rw.1) m) (store 8 (slot c SP_OFF) (sp s) m) (zip saved_regs reg_slots) in
  store 8 (slot c PC_OFF) p (store 4 (slot c FPSR_OFF) (fpsr s) (store 4 (slot c FPCR_OFF) (fpcr s) regs)).

(** The 144 bytes at [c] are in the address space. *)
Definition placed c : Prop := 0 <= c /\ c + 144 <= 2 ^ 64.
Definition cpu_wf s : Prop := (forall r, word (x s r)) /\ word (sp s) /\ 0 <= fpcr s < 2 ^ 32 /\ 0 <= fpsr s < 2 ^ 32.

Lemma arm_slot_placed c off : placed c -> 0 <= off < 144 -> slot c off = c + off.
Proof. intros [H1 H2] Ho. unfold slot. apply u64_small. lia. Qed.

Ltac offsets := unfold PC_OFF, SP_OFF, REGS_OFF, FPCR_OFF, FPSR_OFF, ENTRY_FN_OFF, ENTRY_ARG_OFF, LINK_OFF in *.

Lemma arm_saved_save s p c m : placed c -> cpu_wf s -> word p -> saved (save_mem s p c m) c = frame_of s p.
Proof.
  intros Hc (Hx & H1 & H2 & H3) Hp. unfold word in *.
  assert (Hw : forall r, 0 <= x s r < 2 ^ 64) by done. clear Hx.
  unfold saved, save_mem, frame_of. cbn [zip zip_with saved_regs reg_slots foldl fst snd map]. offsets.
  rewrite !arm_slot_placed by (done || lia).
  pose proof (Hw 19%nat); pose proof (Hw 20%nat); pose proof (Hw 21%nat); pose proof (Hw 22%nat); pose proof (Hw 23%nat);
  pose proof (Hw 24%nat); pose proof (Hw 25%nat); pose proof (Hw 26%nat); pose proof (Hw 27%nat); pose proof (Hw 28%nat);
  pose proof (Hw 29%nat); pose proof (Hw 30%nat).
  f_equal; [by fields|by fields| |by fields|by fields]. repeat f_equal; by fields.
Qed.

(** A save writes the first 120 bytes of the context only. *)
Lemma arm_save_out s p c m b : placed c -> b < c \/ c + 120 <= b -> save_mem s p c m b = m b.
Proof.
  intros Hc Hb. unfold save_mem. cbn [zip zip_with saved_regs reg_slots foldl fst snd]. offsets. rewrite !arm_slot_placed by (done || lia).
  by rewrite !store_out by lia.
Qed.

Lemma arm_saved_ext m m' c : placed c -> (forall b, c <= b < c + 120 -> m b = m' b) -> saved m c = saved m' c.
Proof.
  intros Hc H. unfold saved. cbn [map reg_slots]. offsets. rewrite !arm_slot_placed by (done || lia).
  assert (L : forall n off, 0 <= off -> off + Z.of_nat n <= 120 -> load n (c + off) m = load n (c + off) m')
    by (intros n off H1 H2; apply load_ext; intros b Hb; apply H; lia).
  by rewrite !(L 8%nat), !(L 4%nat) by lia.
Qed.

(** ** The two halves of a switch *)

Lemma arm_save_effect lab s : let s' := effects (save_code lab) s in
  (forall r, r <> 9%nat -> x s' r = x s r) /\ sp s' = sp s /\ fpcr s' = fpcr s /\ fpsr s' = fpsr s /\ vd s' = vd s /\
  mem s' = save_mem s (label lab) (x s 0%nat) (mem s).
Proof. intros s'. split_and!; [|done|done|done|done|done]. intros r Hr. subst s'. cbn. by destruct r as [|[|[|[|[|[|[|[|[|[|r]]]]]]]]]]. Qed.

Definition kept s : list Z := sp s :: fpcr s :: fpsr s :: map (x s) saved_regs.
Definition kept_in (f : frame) : list Z := f_sp f :: f_fpcr f :: f_fpsr f :: f_regs f.

Lemma arm_restore_effect s : let s' := effects restore_code s in let f := saved (mem s) (x s 1%nat) in
  kept s' = kept_in f /\ x s' 9%nat = f_pc f /\ x s' 0%nat = 0 /\ vd s' = vd s /\ mem s' = mem s.
Proof. by split_and!. Qed.

#[local] Opaque Asm.effects save_mem load store.

(** What is restored from a context. *)
Definition resumed (f : frame) m (v : nat -> Z) s : Prop := pc s = f_pc f /\ kept s = kept_in f /\ x s 0%nat = 0 /\ vd s = v /\ mem s = m.

Lemma arm_restore_run n s : pc s = label 31 ->
  exists s', run (15 + n) s = run n s' /\ resumed (saved (mem s) (x s 1%nat)) (mem s) (vd s) s'.
Proof.
  intros Hp. change (15 + n)%nat with (length restore_code + (1 + n))%nat.
  rewrite (run_straight restore_code _ s 31 Hp eq_refl eq_refl).
  destruct (arm_restore_effect s) as (F1 & F2 & F3 & F4 & F5). revert F1 F2 F3 F4 F5. generalize (effects restore_code s). intros s2 F1 F2 F3 F4 F5.
  exists (goto s2 (x s2 9%nat)). split; [by apply (arm_run_step n (goto s2 _) 45 (Br 9))|]. by split_and!.
Qed.

(** loom_coro_ctx_swap up to the jump. *)
Lemma arm_swap_run n s : pc s = label lab_swap ->
  let m := save_mem s (label lab_after_swap) (x s 0%nat) (mem s) in
  exists s', run (29 + n) s = run n s' /\ resumed (saved m (x s 1%nat)) m (vd s) s'.
Proof.
  intros Hp m. change (29 + n)%nat with (length (save_code lab_after_swap) + (15 + n))%nat.
  rewrite (run_straight (save_code lab_after_swap) _ s lab_swap Hp eq_refl eq_refl).
  destruct (arm_save_effect lab_after_swap s) as (E1 & _ & _ & _ & E3 & E4). fold m in E4. specialize (E1 1%nat ltac:(done)).
  revert E1 E3 E4. generalize (effects (save_code lab_after_swap) s). intros s1 E1 E3 E4.
  destruct (arm_restore_run n (goto s1 (label (lab_swap + length (save_code lab_after_swap)))) eq_refl) as (s' & Hr & H).
  cbn [goto mem x vd] in H. rewrite E4, E1, E3 in H. by exists s'.
Qed.

(** ** The C side (src/coro_ctx.h) *)

Definition loom_coro_ctx_set_stack c (base size : Z) m : bytes := store 8 (slot c SP_OFF) (u64 (base + size)) m.
Definition loom_coro_ctx_set_link c (target : Z) m : bytes := store 8 (slot c LINK_OFF) target m.
Definition loom_coro_ctx_has_link c m : bool := negb (load 8 (slot c LINK_OFF) m =? 0).
Definition loom_coro_ctx_make c (fn arg : Z) m : bytes :=
  let m := store 8 (slot c ENTRY_FN_OFF) fn m in
  let m := store 8 (slot c ENTRY_ARG_OFF) arg m in
  let m := store 8 (slot c SP_OFF) (align16 (load 8 (slot c SP_OFF) m)) m in
  let m := store 8 (slot c REGS_OFF) c m in
  let m := store 4 (slot c FPCR_OFF) 0 m in
  let m := store 4 (slot c FPSR_OFF) 0 m in
  store 8 (slot c PC_OFF) (label lab_trampoline) m.

(** ** The backend *)

Definition prefix s : nat := if pc s =? label lab_ended then 5 else if pc s =? label lab_to_link then 2 else 0.

Inductive switching s : Z -> Z -> Prop :=
  | In_swap : pc s = label lab_swap -> switching s (x s 0%nat) (x s 1%nat)
  | In_link : pc s = label lab_to_link -> switching s (x s 0%nat) (load 8 (slot (x s 0%nat) LINK_OFF) (mem s))
  | In_end : pc s = label lab_ended -> load 8 (slot (x s 19%nat) LINK_OFF) (mem s) <> 0 ->
      switching s (x s 19%nat) (load 8 (slot (x s 19%nat) LINK_OFF) (mem s)).

Definition caller s : kont frame := if pc s =? label lab_ended then Done else Paused (frame_of s (label lab_after_swap)).
Definition caller_saved s (from : Z) : bytes := save_mem s (label lab_after_swap) from (mem s).

Definition context_bytes c (k : kont frame) (b : Z) : Prop :=
  c <= b < c + 120 \/ match k with Armed _ _ _ => c + 120 <= b < c + 136 | _ => False end.

Definition context_holds m c (k : kont frame) : Prop :=
  match k with
  | Paused f => placed c /\ saved m c = f /\ f_pc f = label lab_after_swap
  | Armed t fn arg =>
      placed c /\ f_pc (saved m c) = label lab_trampoline /\ f_sp (saved m c) = t /\ nth 0 (f_regs (saved m c)) 0 = c /\
      f_fpcr (saved m c) = 0 /\ f_fpsr (saved m c) = 0 /\ load 8 (slot c ENTRY_FN_OFF) m = fn /\
      load 8 (slot c ENTRY_ARG_OFF) m = arg /\ t mod 16 = 0
  | Done => True
  end.

Definition switch_ready s (from to : Z) : Prop := switching s from to /\ cpu_wf s /\ placed from.

(** Where control is after the switch. *)
Definition delivered c (k : kont frame) s : Prop :=
  match k with
  | Paused f => pc s = f_lr f /\ kept s = kept_in f /\ x s 0%nat = 0
  | Armed t fn arg =>
      pc s = fn /\ x s 0%nat = arg /\ x s 19%nat = c /\ sp s = t /\ sp s mod 16 = 0 /\ x s 30%nat = label lab_ended /\
      fpcr s = 0 /\ fpsr s = 0
  | Done => False
  end.

Definition switch_cost s (k : kont frame) : nat :=
  prefix s + 29 + match k with Paused _ => 1 | Armed _ _ _ => 3 | Done => 0 end.

Lemma arm_label_eqb k k' : (label k =? label k') = (k =? k')%nat.
Proof. unfold label. destruct (Nat.eqb_spec k k'); [subst; apply Z.eqb_refl|apply Z.eqb_neq; lia]. Qed.

Lemma save_mem_frame s s' p c m : frame_of s p = frame_of s' p -> save_mem s p c m = save_mem s' p c m.
Proof.
  intros H. injection H as E1 E2 E3 E4 E5 E6 E7 E8 E9 E10 E11 E12 E13 E14 E15. with_strategy transparent [save_mem] unfold save_mem.
  cbn [zip zip_with saved_regs reg_slots foldl fst snd].
  by rewrite E1, E2, E3, E4, E5, E6, E7, E8, E9, E10, E11, E12, E13, E14, E15.
Qed.

Lemma arm_prefix_run n s from to : switching s from to ->
  exists s', run (prefix s + n) s = run n s' /\ pc s' = label lab_swap /\ x s' 0%nat = from /\ x s' 1%nat = to /\ mem s' = mem s /\
    vd s' = vd s /\ forall p, frame_of s' p = frame_of s p.
Proof.
  intros [Hp|Hp|Hp Hl]; unfold prefix; rewrite Hp, !arm_label_eqb; cbn [Nat.eqb lab_swap lab_ended lab_to_link Nat.add].
  - by exists s.
  - change (S (S n)) with (length [Ldr 1 LINK_OFF 0] + S n)%nat. rewrite (run_straight [Ldr 1 LINK_OFF 0] _ s lab_to_link Hp eq_refl eq_refl).
    exists (goto (effects [Ldr 1 LINK_OFF 0] s) (label lab_swap)). split_and!; [by rewrite (arm_run_step n _ 48 (B lab_swap))|done..].
  - change (S (S (S (S (S n))))) with (length [Ldr 9 LINK_OFF 19] + S (length [Mov 0 19; Mov 1 9] + S n))%nat.
    rewrite (run_straight [Ldr 9 LINK_OFF 19] _ s lab_ended Hp eq_refl eq_refl).
    rewrite (arm_run_step _ _ 53 (Cbz 9 lab_no_link)) by done. cbn [next].
    assert (Hz : forall p, (x (goto (effects [Ldr 9 LINK_OFF 19] s) p) 9%nat =? 0) = false) by (intros p; by apply Z.eqb_neq).
    rewrite Hz, (run_straight [Mov 0 19; Mov 1 9] _ _ 54) by (done || exact (label_S 53)).
    exists (goto (effects [Ldr 9 LINK_OFF 19; Mov 0 19; Mov 1 9] s) (label lab_swap)).
    split_and!; [by rewrite (arm_run_step n _ 56 (B lab_swap))|done..].
Qed.

Context (Htext : 0 <= text /\ text + 256 <= 2 ^ 64).

Lemma label_word k : (k < 64)%nat -> word (label k).
Proof. unfold word, label. lia. Qed.

Lemma arm_context_holds_ext m m' c k :
  (forall b, context_bytes c k b -> m b = m' b) -> context_holds m c k -> context_holds m' c k.
Proof.
  intros H. destruct k as [f|t fn arg|]; cbn [context_holds] in *; [| |done].
  - intros (H1 & H2). rewrite <- (arm_saved_ext m m'); [done|done|intros b Hb; apply H; by left].
  - intros (H1 & H2). rewrite <- (arm_saved_ext m m'); [|done|intros b Hb; apply H; by left].
    split; [done|]. offsets. rewrite !arm_slot_placed in * by (done || lia).
    rewrite <- (load_ext 8 (c + 120) m m'), <- (load_ext 8 (c + 128) m m'); [done|..]; intros b Hb; apply H; right; cbn; lia.
Qed.

Lemma arm_caller_holds s from to : switch_ready s from to -> context_holds (caller_saved s from) from (caller s).
Proof.
  intros (_ & Hw & Hp). unfold caller. destruct (pc s =? label lab_ended); [done|]. cbn [context_holds].
  split_and!; [done| |done]. apply arm_saved_save; [done|done|apply label_word; unfold lab_after_swap; lia].
Qed.

Lemma arm_caller_frame s from to b :
  switch_ready s from to -> ~ context_bytes from (caller s) b -> caller_saved s from b = mem s b.
Proof. intros (_ & _ & Hp) Hb. apply arm_save_out; [done|]. unfold context_bytes in Hb. lia. Qed.

(** Up to the jump, whatever the entry. *)
Lemma arm_switch_run n s from to : switching s from to ->
  exists s', run (prefix s + 29 + n) s = run n s' /\ resumed (saved (caller_saved s from) to) (caller_saved s from) (vd s) s'.
Proof.
  intros Hs. destruct (arm_prefix_run (29 + n) s from to Hs) as (s1 & Hr & Hpc & Hd & Hsi & Hm & Hv & Hf).
  destruct (arm_swap_run n s1 Hpc) as (s2 & Hr2 & Hres). rewrite Hd, Hsi, Hm, Hv, (save_mem_frame s1 s) in Hres by apply Hf.
  exists s2. split; [|done]. by rewrite <- Hr2, <- Hr, Nat.add_assoc.
Qed.

Lemma arm_paused_run s f m v : resumed f m v s -> f_pc f = label lab_after_swap ->
  run 1 s = goto s (x s 30%nat) /\ x s 30%nat = f_lr f.
Proof.
  intros (H1 & H2 & H3 & H4) Hf. split; [apply (arm_run_step 0 s lab_after_swap Ret); [by rewrite H1|done]|].
  unfold f_lr. injection H2 as _ _ _ H2. by rewrite <- H2.
Qed.

Lemma arm_armed_run s f m v c : resumed f m v s -> f_pc f = label lab_trampoline -> nth 0 (f_regs f) 0 = c ->
  let s' := run 3 s in
  pc s' = load 8 (slot c ENTRY_FN_OFF) m /\ x s' 0%nat = load 8 (slot c ENTRY_ARG_OFF) m /\ x s' 19%nat = c /\ sp s' = f_sp f /\
  x s' 30%nat = label lab_ended /\ fpcr s' = f_fpcr f /\ fpsr s' = f_fpsr f /\ vd s' = v /\ mem s' = m.
Proof.
  intros (H1 & H2 & H3 & H4 & H5) Hf Hc s'. subst s'. rewrite Hf in H1.
  rewrite (run_straight [Ldr 0 ENTRY_ARG_OFF 19; Ldr 9 ENTRY_FN_OFF 19] 1 s lab_trampoline H1 eq_refl eq_refl : run 3 s = _).
  rewrite (arm_run_step 0 _ 51 (Blr 9)) by done. cbn [asm_run next]. injection H2 as E1 E2 E3 E4. rewrite <- E4 in Hc. cbn in Hc.
  with_strategy transparent [Asm.effects] cbn. unfold ea. cbn. rewrite H5, Hc, E1, E2, E3, H4. split_and!; try done. apply label_S.
Qed.

(** The vector registers are the ones of the code that switches. *)
Lemma arm_switch_delivers_to s from to k :
  switch_ready s from to -> context_holds (caller_saved s from) to k -> k <> Done ->
  let s' := run (switch_cost s k) s in
  delivered to k s' /\ vd s' = vd s /\ mem s' = caller_saved s from.
Proof.
  intros (Hs & _) Hh Hd. unfold switch_cost. cbv zeta. set (m := caller_saved s from) in *. destruct k as [f|t fn arg|]; [| |done].
  - destruct (arm_switch_run 1 s from to Hs) as (s1 & -> & Hres). fold m in Hres. destruct Hh as (_ & <- & Hf).
    destruct (arm_paused_run s1 _ _ _ Hres Hf) as (P1 & P2). destruct Hres as (_ & R2 & R3 & R4 & R5). rewrite P1. by split_and!.
  - destruct (arm_switch_run 3 s from to Hs) as (s1 & -> & Hres). fold m in Hres.
    destruct Hh as (_ & Hf & Hsp & Hc & Hx & Hw & He & Ha & Hal).
    destruct (arm_armed_run s1 _ _ _ to Hres Hf Hc) as (P1 & P2 & P3 & P4 & P5 & P6 & P7 & P8 & P9).
    cbn [delivered]. by rewrite P1, P2, P3, P4, P5, P6, P7, P8, P9, Hsp, Hx, Hw, He, Ha.
Qed.

Definition ctx_arm c (base size fn arg : Z) m : bytes := loom_coro_ctx_make c fn arg (loom_coro_ctx_set_stack c base size m).
Definition stack_top (base size : Z) : Z := align16 (u64 (base + size)).
Definition ctx_arm_ok c (base size fn arg : Z) : Prop :=
  placed c /\ 0 <= base /\ 0 <= size /\ base + size < 2 ^ 64 /\ word fn /\ word arg.

Lemma arm_ctx_arm_holds c base size fn arg m :
  ctx_arm_ok c base size fn arg -> context_holds (ctx_arm c base size fn arg m) c (Armed (stack_top base size) fn arg).
Proof.
  intros (Hc & Hb & Hz & Ht & Hf & Ha). unfold stack_top. rewrite u64_small by lia.
  pose proof (align16_spec (base + size) ltac:(unfold word; lia)) as Hal.
  assert (Hr : 0 <= align16 (base + size) < 2 ^ 64) by (pose proof (Z.div_mod (base + size) 16); pose proof (Z.mod_pos_bound (base + size) 16); lia).
  cbn [context_holds]. unfold ctx_arm, loom_coro_ctx_make, loom_coro_ctx_set_stack, saved. cbv zeta. rewrite u64_small by lia.
  cbn [f_pc f_sp f_regs f_fpcr f_fpsr nth map reg_slots]. offsets. rewrite !arm_slot_placed by (done || lia). unfold word, placed in *.
  split; [done|]. unfold label, lab_trampoline in *.
  assert (Hin : load 8 (c + 8) (store 8 (c + 128) arg (store 8 (c + 120) fn (store 8 (c + 8) (base + size) m))) = base + size) by by fields.
  rewrite Hin. split_and!; try (by fields); try lia. rewrite Hal. apply Z_mod_mult.
Qed.

Lemma arm_ctx_arm_frame c base size fn arg m b :
  ctx_arm_ok c base size fn arg -> ~ context_bytes c (Armed (stack_top base size) fn arg) b -> ctx_arm c base size fn arg m b = m b.
Proof.
  intros (Hc & _) Hb. unfold context_bytes in Hb. unfold ctx_arm, loom_coro_ctx_make, loom_coro_ctx_set_stack. cbv zeta. offsets.
  rewrite !arm_slot_placed by (done || lia). by rewrite !store_out by lia.
Qed.

Lemma arm_swap_delivers s from to k :
  switch_ready s from to -> context_holds (caller_saved s from) to k -> k <> Done ->
  let s' := run (switch_cost s k) s in
  delivered to k s' /\ forall b, ~ context_bytes to k b -> mem s' b = caller_saved s from b.
Proof. intros H1 H2 H3. destruct (arm_switch_delivers_to s from to k H1 H2 H3) as (D1 & _ & D3). cbv zeta. split; [done|]. intros b _. by rewrite D3. Qed.

#[local] Instance arm_backend : Backend cpu frame := {|
  bmem := mem; owns := context_bytes; holds := context_holds; at_swap := switch_ready; suspends := caller;
  saved_mem := caller_saved; arm := ctx_arm; arm_ok := ctx_arm_ok; top := stack_top; cost := switch_cost;
  delivers := delivered; brun := run;
  holds_ext := arm_context_holds_ext; swap_saves := arm_caller_holds; swap_frame := arm_caller_frame;
  swap_delivers := arm_swap_delivers; arm_holds := arm_ctx_arm_holds; arm_frame := arm_ctx_arm_frame;
|}.

(** ** Theorems *)

(** C21. On aarch64, in every run in which contexts are armed, switched between
    (by swap, by swap_to_link and by entry functions that return), overwritten
    nowhere while they wait and destroyed in any order, every switch delivers:
    a suspended caller sees its swap return 0 to its return address with the
    stack pointer, x19 to x30, fpcr and fpsr of the call, and an armed context
    enters its entry function with its argument, a quadword-aligned stack, zero
    control words and the trampoline in the link register. *)
Theorem arm_switch_delivers s0 susp s to k susp' s' :
  reachable s0 (susp, s) -> world_step (susp, s) (Some (to, k)) (susp', s') -> delivered to k s'.
Proof. intros Hr Hs. exact (switch_delivers s0 (susp, s) to k (susp', s') Hr Hs). Qed.

(** The two paths that do not switch: loom_coro_ctx_get, and the return of an
    entry function without a link. *)
Lemma arm_get_run s : pc s = label lab_get -> let s' := run 16 s in
  pc s' = x s 30%nat /\ x s' 0%nat = 0 /\ kept s' = kept s /\ mem s' = save_mem s (label lab_after_ret) (x s 0%nat) (mem s).
Proof.
  intros Hp. cbv zeta. rewrite (run_straight (save_code lab_after_ret ++ [MovZ 0]) 1 s lab_get Hp eq_refl eq_refl : run 16 s = _).
  rewrite (arm_run_step 0 _ 15 Ret) by done. with_strategy transparent [Asm.effects save_mem] by split_and!.
Qed.

Lemma arm_exit_run s : pc s = label lab_ended -> loom_coro_ctx_has_link (x s 19%nat) (mem s) = false -> let s' := run 4 s in
  pc s' = exit_fn /\ x s' 0%nat = 0 /\ sp s' = sp s.
Proof.
  intros Hp Hl. apply negb_false_iff, Z.eqb_eq in Hl.
  change 4%nat with (length [Ldr 9 LINK_OFF 19] + S (length [MovZ 0] + 1))%nat.
  rewrite (run_straight [Ldr 9 LINK_OFF 19] _ s lab_ended Hp eq_refl eq_refl).
  rewrite (arm_run_step _ _ 53 (Cbz 9 lab_no_link)) by done. cbn [next].
  assert (Hz : forall p, (x (goto (effects [Ldr 9 LINK_OFF 19] s) p) 9%nat =? 0) = true) by (intros p; by apply Z.eqb_eq).
  cbv zeta. rewrite Hz, (run_straight [MovZ 0] _ _ lab_no_link) by done. by rewrite (arm_run_step 0 _ 58 BlExit).
Qed.

(** Nothing in the text touches a vector register. *)
Lemma run_vd n s : vd (run n s) = vd s.
Proof.
  revert s. induction n as [|n IH]; intros s; [done|]. cbn [asm_run]. unfold asm_step.
  destruct (isa_fetch (isa_pc s)) as [i|]; [|done]. cbn. rewrite IH. by destruct i.
Qed.
End Text.

(** A caller with its context at 12288 starts a coroutine at 8192, which stores
    a link and switches back through it. *)
Module Example.
Abbreviation ex_run := (asm_run (Isa0 := arm_isa 4096 1000)).
Section Vectors.
Context (v1 v2 : nat -> Z).
Definition base_x (r : nat) : Z := nth r [12288; 8192] (if (r =? 30)%nat then 3000 else Z.of_nat (r mod 32)).
Definition ex_begin : cpu := mk_cpu base_x 20480 0 0 v1 0 (fun _ => 0).
Definition ex_call : cpu := mk_cpu base_x 20480 0x1000000 16 v1 (label 4096 lab_swap) (ctx_arm 4096 8192 65536 4096 5000 7 (fun _ => 0)).
Definition ex_armed : kont frame := Armed 69632 5000 7.
Definition ex_wait : kont frame := caller 4096 ex_call.
Definition ex_in : cpu := ex_run (switch_cost 4096 ex_call ex_armed) ex_call.
Definition ex_susp : gmap Z (kont frame) := delete 8192 (<[12288 := ex_wait]> {[8192 := ex_armed]}).
(* the coroutine calls swap_to_link with its own vector registers *)
Definition ex_back : cpu :=
  mk_cpu (fun r => nth r [8192] (if (r =? 19)%nat then 77 else Z.of_nat (r mod 32))) 69632 0 0 v2 (label 4096 lab_to_link)
    (loom_coro_ctx_set_link 8192 12288 (mem ex_in)).
Definition ex_end : cpu := ex_run (switch_cost 4096 ex_back ex_wait) ex_back.

Lemma arm_ex_text : 0 <= 4096 /\ 4096 + 256 <= 2 ^ 64.
Proof. lia. Qed.

Abbreviation A := (arm_backend 4096 1000 arm_ex_text).

Lemma ex_regs l d r : Forall word l -> (forall r, word (d r)) -> word (nth r l (d r)).
Proof. intros Hl Hd. revert r d Hd. induction Hl as [|v l Hv _ IH]; intros [|r] d Hd; try apply Hd; [done|]. apply (IH r (fun _ => d (S r))). done. Qed.

Lemma ex_call_ready : switch_ready 4096 ex_call 12288 8192.
Proof.
  split_and!; [by apply (In_swap 4096 ex_call)|split_and!|unfold placed; lia]; try (unfold word; simpl; lia).
  intros r. apply (ex_regs _ (fun r => if (r =? 30)%nat then 3000 else Z.of_nat (r mod 32))).
  - repeat constructor; lia.
  - intros i. unfold word. pose proof (Nat.mod_upper_bound i 32). case_match; lia.
Qed.

Lemma ex_armed_eq : ex_armed = Armed (stack_top 65536 4096) 5000 7.
Proof. reflexivity. Qed.
Lemma arm_ex_wait_value : ex_wait =
  Paused (mk_frame (label 4096 lab_after_swap) 20480 [19; 20; 21; 22; 23; 24; 25; 26; 27; 28; 29; 3000] 0x1000000 16).
Proof. reflexivity. Qed.

#[local] Opaque asm_run switch_cost caller ctx_arm stack_top.

Lemma ex_begin_step : @world_step _ _ A (∅, ex_begin) None ({[8192 := ex_armed]}, ex_call).
Proof.
  rewrite ex_armed_eq. apply (@W_make _ _ A ∅ ex_begin ex_call 8192 65536 4096 5000 7); [|done..].
  unfold arm_ok. cbn. unfold ctx_arm_ok, placed, word. lia.
Qed.

Lemma ex_call_step : @world_step _ _ A ({[8192 := ex_armed]}, ex_call) (Some (8192, ex_armed)) (ex_susp, ex_in).
Proof.
  apply (@W_swap _ _ A _ ex_call 12288 8192);
    [apply ex_call_ready|by rewrite lookup_singleton_ne| |by rewrite lookup_insert_ne, lookup_singleton_eq|done].
  intros c k b Hc _ Hb. apply lookup_singleton_Some in Hc as [<- <-]. change (@suspends _ _ A ex_call) with ex_wait in Hb.
  rewrite arm_ex_wait_value in Hb. revert Hb. unfold owns, A, context_bytes, ex_armed. lia.
Qed.

Lemma arm_ex_susp_Some c k : ex_susp !! c = Some k -> c = 12288 /\ k = ex_wait.
Proof.
  unfold ex_susp. rewrite lookup_delete_Some, lookup_insert_Some. intros [H1 [[<- <-]|[H2 H3]]]; [done|].
  by apply lookup_singleton_Some in H3 as [<- _].
Qed.

Lemma ex_in_step : @world_step _ _ A (ex_susp, ex_in) None (ex_susp, ex_back).
Proof.
  apply (@W_outside _ _ A). intros c k b Hc Hb. apply arm_ex_susp_Some in Hc as [-> ->]. rewrite arm_ex_wait_value in Hb.
  unfold bmem, A, ex_back, loom_coro_ctx_set_link. cbn [mem]. change (slot 8192 LINK_OFF) with 8328.
  revert Hb. unfold owns, A, context_bytes. intros Hb. by rewrite store_out by lia.
Qed.

Lemma ex_back_ready : switch_ready 4096 ex_back 8192 12288.
Proof.
  split_and!; [|split_and!|unfold placed; lia]; try (unfold word; simpl; lia).
  - replace 12288 with (load 8 (slot (x ex_back 0%nat) LINK_OFF) (mem ex_back)); [by apply (In_link 4096 ex_back)|].
    unfold ex_back, loom_coro_ctx_set_link. cbn [x mem nth]. by rewrite load8_same by lia.
  - intros r. apply (ex_regs _ (fun r => if (r =? 19)%nat then 77 else Z.of_nat (r mod 32))).
    + repeat constructor; lia.
    + intros i. unfold word. pose proof (Nat.mod_upper_bound i 32). case_match; lia.
Qed.

Lemma ex_back_step : @world_step _ _ A (ex_susp, ex_back) (Some (12288, ex_wait))
  (delete 12288 (<[8192 := caller 4096 ex_back]> ex_susp), ex_end).
Proof.
  apply (@W_swap _ _ A _ ex_back 8192 12288); [apply ex_back_ready|apply lookup_delete_eq| | |by rewrite arm_ex_wait_value].
  - intros c k b Hc _ Hb Hb'. apply arm_ex_susp_Some in Hc as [-> ->]. rewrite arm_ex_wait_value in Hb'.
    replace (@suspends _ _ A ex_back) with (Paused (frame_of ex_back (label 4096 lab_after_swap))) in Hb
      by (with_strategy transparent [caller] reflexivity).
    revert Hb Hb'. unfold owns, A, context_bytes. lia.
  - rewrite lookup_insert_ne by done. unfold ex_susp. rewrite lookup_delete_ne by done. apply lookup_insert_eq.
Qed.

Lemma arm_ex_back_reached : @reachable _ _ A ex_begin (ex_susp, ex_back).
Proof.
  eapply R_step; [|apply ex_in_step]. eapply R_step; [|apply ex_call_step]. eapply R_step; [constructor|apply ex_begin_step].
Qed.

Lemma ex_end_delivered : delivered 4096 12288 (caller 4096 ex_call) ex_end.
Proof.
  change (@delivers _ _ A 12288 ex_wait (delete 12288 (<[8192 := caller 4096 ex_back]> ex_susp), ex_end).2).
  exact (@switch_delivers _ _ A _ _ _ _ _ arm_ex_back_reached ex_back_step).
Qed.
End Vectors.
End Example.
Import Example.

(** The coroutine's swap_to_link is the return of its caller's swap. *)
Lemma arm_switch_delivers_witness :
  delivered 4096 12288
    (Paused (mk_frame (label 4096 lab_after_swap) 20480 [19; 20; 21; 22; 23; 24; 25; 26; 27; 28; 29; 3000] 0x1000000 16))
    (ex_end (fun _ => 1) (fun _ => 2)).
Proof.
  rewrite <- (arm_ex_wait_value (fun _ => 1)).
  exact (arm_switch_delivers 4096 1000 arm_ex_text (ex_begin _) (ex_susp _) _ 12288 (ex_wait _) _ _ (arm_ex_back_reached _ _) (ex_back_step _ _)).
Defined.

(** On aarch64 a swap does not preserve d8 to d15, which the procedure call
    standard makes callee-saved (the file's comment calls all vector registers
    caller-saved): for any contents v1 and v2 there is a run in which a caller
    swaps with v1 in its vector registers, a coroutine puts v2 into them and
    switches back, and the caller's swap returns with v2, its general registers
    and control words restored. *)
Theorem arm_swap_loses_vector_registers (v1 v2 : nat -> Z) :
  let B := arm_backend 4096 1000 arm_ex_text in
  exists s0 susp1 s1 co k susp2 s2 s2' c susp3 s3,
    @reachable _ _ B s0 (susp1, s1) /\ vd s1 = v1 /\ @world_step _ _ B (susp1, s1) (Some (co, k)) (susp2, s2) /\
    @world_step _ _ B (susp2, s2) None (susp2, s2') /\
    @world_step _ _ B (susp2, s2') (Some (c, caller 4096 s1)) (susp3, s3) /\ delivered 4096 c (caller 4096 s1) s3 /\ vd s3 = v2.
Proof.
  intros B. exists (ex_begin v1), {[8192 := ex_armed]}, (ex_call v1), 8192, ex_armed, (ex_susp v1), (ex_in v1), (ex_back v1 v2), 12288.
  exists (delete 12288 (<[8192 := caller 4096 (ex_back v1 v2)]> (ex_susp v1))), (ex_end v1 v2). split_and!.
  - eapply R_step; [constructor|apply ex_begin_step].
  - done.
  - apply ex_call_step.
  - apply ex_in_step.
  - apply ex_back_step.
  - apply ex_end_delivered.
  - unfold ex_end. by rewrite run_vd.
Qed.
