(* ===== verification/CoroBoot.v ===== *)
(** * The first resume of a coroutine (loom_coro_resume of src/coroutine.c on
    the x86-64 backend).

    Where the coroutine layer meets the context switch: the first resume saves
    a context, points it at the usable part of the mapping allocate_stack laid
    out, links it to the thread's scheduler, arms it and swaps to it.  The
    theorem follows control from that swap into the coroutine's entry function,
    on its own stack, and back out of the swap. *)
From S2P Require Import Prelude Types Coroutine Asm ByteMem CtxSwitch CtxX86.

Section Boot.
Context (text exit_fn : Z) (Htext : 0 <= text /\ text + 64 <= 2 ^ 64).
Implicit Types (s : cpu) (c : Z) (m : bytes).
#[local] Abbreviation run := (asm_run (Isa0 := x86_isa text exit_fn)).

(** The branch for LOOMWORKS_CORO_NEW: [mp] is the coroutine's mapping, [sched]
    the address of g_scheduler and [g] the processor at the call of get. *)
Definition bind_context (mp : mapping) (g : cpu) c (sched entry coro : Z) m : bytes :=
  let m := save_mem (frame_of g (label text lab_after_ret)) c m in
  let m := loom_coro_ctx_set_stack c (stack_start mp) (u64 (stack_end mp - stack_start mp)) m in
  let m := loom_coro_ctx_set_link c sched m in
  loom_coro_ctx_make text c entry coro m.

Lemma bind_rest c fn arg m n b : placed c -> 0 <= b -> c + 88 <= b -> load n b (loom_coro_ctx_make text c fn arg m) = load n b m.
Proof.
  intros Hc H0 Hb. apply load_ext. intros a Ha. unfold loom_coro_ctx_make. cbv zeta.
  unfold PC_OFF, X87CW_OFF, MXCSR_OFF, R15_OFF, RSP_OFF, ENTRY_ARG_OFF, ENTRY_FN_OFF. rewrite !slot_placed by (done || lia).
  by rewrite !store_out by lia.
Qed.

Lemma bind_context_holds psl sz mp g c sched entry coro m :
  mapping_ok psl (sz, mp) -> 0 <= mmap_base mp -> mmap_base mp + mmap_size mp < 2 ^ 64 -> 32 <= sz ->
  placed c -> word entry -> word coro -> word sched ->
  let m' := bind_context mp g c sched entry coro m in
  context_holds text m' c (Armed (align16 (stack_end mp)) entry coro) /\ load 8 (slot c LINK_OFF) m' = sched.
Proof.
  intros [Hsz Hlay] Hb Ht Hs Hc He Hco Hsc m'. simpl in Hsz, Hlay.
  assert (Hend : 16 <= stack_end mp - stack_start mp /\ stack_start mp >= 0 /\ stack_end mp = mmap_base mp + mmap_size mp).
  { pose proof (usable_bounds _ _ (page_size_pos psl) Hsz). pose proof (page_size_pos psl). rewrite Hlay. simpl.
    unfold guard_pages, LOOMWORKS_CORO_GUARD_PAGES_EACH. lia. }
  unfold m', bind_context. cbv zeta. rewrite u64_small by lia. split.
  - apply (make_holds text Htext _ _ _ _ (stack_end mp) Hc He Hco); [|lia]. unfold loom_coro_ctx_set_link. unfold LINK_OFF, RSP_OFF. rewrite !slot_placed by (done || lia).
    rewrite load_store_other by (unfold ByteMem.apart; lia). rewrite <- (slot_placed c 8) by (done || lia).
    rewrite (set_stack_rsp c); [lia|done|lia].
  - unfold LINK_OFF. rewrite slot_placed by (done || lia). rewrite bind_rest by (unfold placed in Hc; lia || done).
    unfold loom_coro_ctx_set_link, LINK_OFF. rewrite slot_placed by (done || lia). by apply load8_same.
Qed.

(** The memory the switch touches: the two contexts, the top word of the
    resuming thread's stack [sp] and the coroutine's mapping do not overlap. *)
Definition separate (mp : mapping) c (sched sp : Z) : Prop :=
  ByteMem.apart c 96 sched 96 /\ ByteMem.apart sched 96 sp 8 /\ ByteMem.apart c 96 sp 8 /\
  ByteMem.apart (mmap_base mp) (mmap_size mp) sched 96 /\ ByteMem.apart (mmap_base mp) (mmap_size mp) c 96 /\
  ByteMem.apart (mmap_base mp) (mmap_size mp) sp 8.

(** loom_coro_resume at its swap, after the binding. *)
Record at_first_resume (psl sz : Z) (mp : mapping) c (sched entry coro : Z) s : Prop := {
  fr_map : mapping_ok psl (sz, mp);
  fr_addr : 0 <= mmap_base mp /\ mmap_base mp + mmap_size mp < 2 ^ 64;
  fr_size : 32 <= sz;
  fr_words : word entry /\ word coro;
  fr_placed : placed c /\ placed sched;
  fr_pc : pc s = label text lab_swap;
  fr_args : rg s RDI = sched /\ rg s RSI = c;
  fr_wf : cpu_wf s;
  fr_mem : exists g m, mem s = bind_context mp g c sched entry coro m;
  fr_separate : separate mp c sched (rg s RSP);
}.

Lemma stack_end_ok psl sz mp : mapping_ok psl (sz, mp) -> 0 <= mmap_base mp -> mmap_base mp + mmap_size mp < 2 ^ 64 -> 32 <= sz ->
  mmap_base mp <= stack_start mp /\ stack_start mp + 32 <= stack_end mp /\ stack_end mp = mmap_base mp + mmap_size mp.
Proof.
  intros [Hsz Hlay] Hb Ht Hs. simpl in Hsz, Hlay. pose proof (usable_bounds _ _ (page_size_pos psl) Hsz).
  pose proof (page_size_pos psl). rewrite Hlay. simpl. unfold guard_pages, LOOMWORKS_CORO_GUARD_PAGES_EACH. lia.
Qed.

Section Resume.
Context (psl sz : Z) (mp : mapping) (c sched entry coro : Z) (s : cpu).
Context (H : at_first_resume psl sz mp c sched entry coro s).
#[local] Abbreviation armed := (Armed (align16 (stack_end mp)) entry coro).
#[local] Abbreviation s1 := (run 24 s).

(** The entry frame is the top word of the coroutine's stack, rounded down. *)
Lemma top_bounds : stack_start mp + 17 <= align16 (stack_end mp) <= stack_end mp /\ stack_end mp <= align16 (stack_end mp) + 15 /\
  align16 (stack_end mp) mod 16 = 0.
Proof.
  destruct H as [Hm [Ha1 Ha2] Hs _ _ _ _ _ _ _]. destruct (stack_end_ok _ _ _ Hm Ha1 Ha2 Hs) as (E1 & E2 & E3).
  rewrite align16_spec by (unfold word; lia). pose proof (Z.div_mod (stack_end mp) 16). pose proof (Z.mod_pos_bound (stack_end mp) 16).
  split_and!; try lia. apply Z_mod_mult.
Qed.

Lemma resume_ready : switch_ready text s sched c /\ caller text s = Paused (frame_of s (label text lab_after_swap), load 8 (rg s RSP) (mem s)) /\
  switch_cost text s armed = 24%nat.
Proof.
  destruct H as [_ _ _ _ [_ Hps] Hpc [<- <-] Hw _ Hsep]. destruct Hsep as (_ & S2 & _).
  assert (Hne : (pc s =? label text lab_ended) = false) by (rewrite Hpc, label_eqb; done).
  assert (Hne' : (pc s =? label text lab_to_link) = false) by (rewrite Hpc, label_eqb; done).
  split_and!.
  - split_and!; [by apply In_swap|done|done|]. right. unfold ByteMem.apart in *. lia.
  - unfold caller. by rewrite Hne.
  - unfold switch_cost, prefix. by rewrite Hne, Hne'.
Qed.

(** Where the entry frame and the new context are, nothing else is. *)
Lemma armed_apart b : context_bytes c armed b ->
  (b < sched \/ sched + 96 <= b) /\ (b < rg s RSP \/ rg s RSP + 8 <= b) /\ (b < c + 88 \/ c + 96 <= b).
Proof.
  intros Hb. destruct top_bounds as (T1 & T2 & _). destruct H as [Hm [Ha1 Ha2] Hs _ _ _ _ _ _ Hsep].
  destruct (stack_end_ok _ _ _ Hm Ha1 Ha2 Hs) as (E1 & E2 & E3). destruct Hsep as (S1 & S2 & S3 & S4 & S5 & S6).
  unfold context_bytes in Hb. unfold ByteMem.apart in *. lia.
Qed.

Lemma resume_delivers : delivered text c armed s1 /\
  (forall b, ~ context_bytes c armed b -> mem s1 b = caller_saved text s sched b) /\ context_holds text (mem s1) sched (caller text s) /\
  load 8 (slot c LINK_OFF) (mem s1) = sched.
Proof.
  destruct resume_ready as (Hr & Hc & Hk). pose proof H as [Hm [Ha1 Ha2] Hs [We Wc] [Hpc Hps] _ _ Hw (g & m & Hmem) Hsep].
  assert (Hws : word sched) by (unfold placed, word in *; lia).
  destruct (bind_context_holds psl sz mp g c sched entry coro m Hm Ha1 Ha2 Hs Hpc We Wc Hws) as [B1 B2]. rewrite <- Hmem in B1, B2.
  assert (Hsave : forall b, b < sched \/ sched + 96 <= b -> caller_saved text s sched b = mem s b)
    by (intros b Hb; apply save_out; [done|lia]).
  assert (Hh : context_holds text (caller_saved text s sched) c armed).
  { apply (context_holds_ext text (mem s)); [|done]. intros b Hb. symmetry. apply Hsave. by apply armed_apart. }
  destruct (switch_delivers_to text exit_fn Htext s sched c armed Hr Hh ltac:(done)) as [D1 D2]. rewrite Hk in D1, D2.
  split_and!; [exact D1|exact D2| |].
  - apply (context_holds_ext text (caller_saved text s sched)); [|by eapply caller_holds]. intros b Hb. symmetry. apply D2. intros Hb'.
    destruct (armed_apart b Hb') as (P1 & P2 & _). rewrite Hc in Hb. unfold context_bytes in Hb. cbn [f_rsp frame_of] in Hb. lia.
  - transitivity (load 8 (slot c LINK_OFF) (mem s)); [|exact B2]. unfold LINK_OFF. rewrite slot_placed by (done || lia). apply load_ext. intros b Hb.
    rewrite D2; [apply Hsave|]; [|intros Hb'; destruct (armed_apart b Hb') as (_ & _ & P3); lia].
    destruct Hsep as (S1 & _). unfold ByteMem.apart in S1. lia.
Qed.
End Resume.

(** C22. The first resume of a coroutine, down to the registers (x86-64): the
    swap of loom_coro_resume enters the entry function with the coroutine as its
    argument, with a stack pointer aligned as the ABI wants, inside the usable
    stack of its mapping and outside the guard band; and when the coroutine
    switches back through its link, by swap_to_link or by returning, and has
    left the scheduler's context, the thread's stack word and its own link
    alone, the swap of loom_coro_resume returns 0 to its caller with the stack
    pointer popped and every callee-saved register and control word as at the
    call. *)
Theorem coro_first_resume psl sz mp c sched entry coro s :
  at_first_resume psl sz mp c sched entry coro s -> sched <> 0 ->
  let s1 := run 24 s in
  (pc s1 = entry /\ rg s1 RDI = coro /\ (rg s1 RSP + 8) mod 16 = 0 /\ stack_start mp <= rg s1 RSP /\ rg s1 RSP + 8 <= stack_end mp /\
   in_guard_band mp (rg s1 RSP) = false /\ loom_coro_ctx_has_link c (mem s1) = true) /\
  forall s2, pc s2 = label text lab_to_link /\ rg s2 RDI = c \/ pc s2 = label text lab_ended /\ rg s2 R15 = c ->
    cpu_wf s2 -> ByteMem.apart c 70 (rg s2 RSP) 8 ->
    (forall b, sched <= b < sched + 70 \/ rg s RSP <= b < rg s RSP + 8 \/ c + 88 <= b < c + 96 -> mem s2 b = mem s1 b) ->
    exists n, let s3 := run n s2 in
      pc s3 = load 8 (rg s RSP) (mem s) /\ rg s3 RSP = u64 (rg s RSP + 8) /\ tail (kept s3) = tail (kept s) /\ rg s3 RAX = 0.
Proof.
  intros H Hnz s1. destruct (resume_delivers _ _ _ _ _ _ _ _ H) as (D1 & _ & D3 & D4). destruct (resume_ready _ _ _ _ _ _ _ _ H) as (_ & Hc & _).
  destruct (top_bounds _ _ _ _ _ _ _ _ H) as (T1 & T2 & T3). pose proof H as [_ _ _ _ [Pc Ps] _ _ _ _ (S1 & S2 & S3 & _)].
  fold s1 in D1, D3, D4. split.
  - cbn [delivered] in D1. destruct D1 as (E1 & E2 & _ & E4 & E5 & _). unfold in_guard_band, loom_coro_ctx_has_link. rewrite D4.
    split_and!; try done; try lia.
  - intros s2 Hp Hw Ha Hm.
    assert (Hl : load 8 (slot c LINK_OFF) (mem s2) = sched).
    { rewrite <- D4. unfold LINK_OFF. rewrite slot_placed by (done || lia). apply load_ext. intros b Hb. apply Hm. lia. }
    assert (Hr : switch_ready text s2 c sched).
    { split; [|split_and!; [done|done|by right]]. destruct Hp as [[Hp <-]|[Hp <-]]; rewrite <- Hl; [by apply In_link|].
      apply In_end; [done|by rewrite Hl]. }
    assert (Hh : context_holds text (caller_saved text s2 c) sched (caller text s)).
    { apply (context_holds_ext text (mem s1)); [|done]. intros b Hb. rewrite Hc in Hb. unfold context_bytes in Hb. cbn [f_rsp frame_of] in Hb.
      unfold caller_saved. rewrite save_out; [symmetry; apply Hm; lia|done|]. unfold ByteMem.apart in *. lia. }
    destruct (switch_delivers_to text exit_fn Htext s2 c sched (caller text s) Hr Hh) as [D _]; [by rewrite Hc|].
    exists (switch_cost text s2 (caller text s)). rewrite Hc in D |- *. exact D.
Qed.
End Boot.

(** A default stack at 1000000, the coroutine's context at 8192, g_scheduler at
    12288; the coroutine calls swap_to_link at once. *)
Definition boot_map : mapping := lay_out 4096 65536 1000000.
Definition boot_regs (r : reg) : Z := match r with RDI => 12288 | RSI => 8192 | RSP => 20480 | RBX => 11 | R12 => 12 | _ => 0 end.
Definition boot_cpu : cpu := mk_cpu boot_regs 0x1F80 0x037F false 0 (store 8 20480 3000 (fun _ => 0)).
Definition boot_call : cpu :=
  mk_cpu boot_regs 0x1F80 0x037F false (label 4096 lab_swap) (bind_context 4096 boot_map boot_cpu 8192 12288 5000 7 (mem boot_cpu)).

Lemma boot_map_eq : boot_map = mk_mapping 1000000 73728 1008192 1073728.
Proof. reflexivity. Qed.

Lemma boot_ok : at_first_resume 4096 4096 65536 boot_map 8192 12288 5000 7 boot_call.
Proof.
  constructor.
  - split; reflexivity.
  - rewrite boot_map_eq. cbn [mmap_base mmap_size]. lia.
  - lia.
  - unfold word. lia.
  - unfold placed. lia.
  - reflexivity.
  - split; reflexivity.
  - split; [|split; cbn [mxcsr x87cw boot_call]; lia]. intros r. unfold word. destruct r; cbn [rg boot_call boot_regs]; lia.
  - by exists boot_cpu, (mem boot_cpu).
  - rewrite boot_map_eq. unfold separate, ByteMem.apart. cbn [rg boot_call boot_regs mmap_base mmap_size]. lia.
Qed.

Lemma coro_first_resume_witness :
  let run := asm_run (Isa0 := x86_isa 4096 1000) in let s1 := run 24%nat boot_call in
  pc s1 = 5000 /\ rg s1 RDI = 7 /\ in_guard_band boot_map (rg s1 RSP) = false /\
  exists n, pc (run n (mk_cpu (fun r => match r with RDI => 8192 | RSP => 1060000 | _ => 1 end) 0x1F80 0x037F false (label 4096 lab_to_link) (mem s1))) = 3000.
Proof.
  destruct (coro_first_resume 4096 1000 ltac:(lia) 4096 65536 boot_map 8192 12288 5000 7 boot_call boot_ok ltac:(done))
    as ((E1 & E2 & _ & _ & _ & E6 & _) & R). cbv zeta. revert E1 E2 E6 R.
  generalize (asm_run (Isa0 := x86_isa 4096 1000) 24 boot_call). intros s1 E1 E2 E6 R. split_and!; [done..|].
  destruct (R (mk_cpu (fun r => match r with RDI => 8192 | RSP => 1060000 | _ => 1 end) 0x1F80 0x037F false (label 4096 lab_to_link)
    (mem s1))) as (n & P & _).
  - left. split; reflexivity.
  - split; [|split; cbn [mxcsr x87cw]; lia]. intros r. unfold word. destruct r; cbn [rg]; lia.
  - unfold ByteMem.apart. cbn [rg]. lia.
  - intros b _. reflexivity.
  - exists n. rewrite P. vm_compute. reflexivity.
Defined.
