(* ===== verification/Viewer.v ===== *)
(** * The metrics viewer (examples/loom_metrics.c) and its region.

    The command-line tool that reads the shared-memory counters a runtime
    publishes: its option loop (getopt as POSIX defines it: the tool asks for
    the POSIX interfaces only, so parsing stops at the first operand), the
    lookup of the region, the two output formats and the watch loop.  Strings
    are lists of character codes.  The object store of shm_open is a map from
    paths to a size and bytes; the counters are bytes in it, written through
    the layout of loom_metrics_shm_t and read through the tool's copy of that
    struct.  strtod, the comparisons of its result with 0 (two of them, for the
    sake of a NaN) and the printf of a double are parameters.  What goes to
    standard error is not modelled. *)
From stdpp Require Import strings gmap.
From S2P Require Import Prelude Types Metrics Numa ByteMem.
#[local] Open Scope Z_scope.

Fixpoint codes (s : string) : list Z :=
  match s with
  | EmptyString => []
  | String.String c s => Z.of_N (Ascii.N_of_ascii c) :: codes s
  end.

(** ** The region *)

(** The fields of loom_metrics_shm_t, and of metrics_shm_t, in order. *)
Definition region_put (c : counters) (m : bytes) : bytes :=
  store 8 48 (latency_max_ns c) (store 8 40 (latency_sum_ns c) (store 8 32 (m_failed c) (store 8 24 (m_cancelled c)
    (store 8 16 (completed c) (store 8 8 (started c) (store 8 0 (submitted c) m)))))).
Definition metrics_shm_t (m : bytes) : counters :=
  mk_counters (load 8 0 m) (load 8 8 m) (load 8 16 m) (load 8 24 m) (load 8 32 m) (load 8 40 m) (load 8 48 m).

(** loom_metrics_shm_write on the mapped bytes: fetch-and-add on a field. *)
Definition fetch_add (off : Z) (m : bytes) : bytes := store 8 off (u64 (load 8 off m + 1)) m.
Definition region_write (e : loom_metric_event_t) (m : bytes) : bytes :=
  match e with
  | LOOMWORKS_METRIC_SUBMITTED => fetch_add 0 m
  | LOOMWORKS_METRIC_STARTED => fetch_add 8 m
  | LOOMWORKS_METRIC_COMPLETED => fetch_add 16 m
  | LOOMWORKS_METRIC_CANCELLED => fetch_add 24 m
  | LOOMWORKS_METRIC_FAILED => fetch_add 32 m
  end.

(** st_size and the contents of each object. *)
Abbreviation shm_store := (gmap (list Z) (Z * bytes)).

Definition region_path (name : string) : list Z := codes (LOOMWORKS_SHM_PREFIX +:+ name).

(** loom_metrics_shm_create and loom_metrics_shm_destroy on the store. *)
Definition shm_publish (fs : shm_store) (name : string) : option shm_store :=
  match loom_metrics_shm_create name true true true with
  | Some (path, c) => Some (<[codes path := (56, region_put c (fun _ => 0))]> fs)
  | None => None
  end.
Definition loom_metrics_shm_destroy (fs : shm_store) (name : string) (munmap_ok : bool) : shm_store :=
  if negb munmap_ok then fs
  else match build_path 256 name with
       | Some path => delete (codes path) fs
       | None => fs
       end.

(** ** Output *)

Definition print_u64 (n : Z) : list Z := dec_digits 20 n [].
Definition pad (w : nat) (s : list Z) : list Z := s ++ repeat 32 (w - length s).
Definition avg_ns (c : counters) : Z := if completed c >? 0 then latency_sum_ns c / completed c else 0.

(** A JSON member: two blanks, the quoted key, a colon and blanks. *)
Definition key (k : string) (blanks : nat) : list Z := [32; 32; 34] ++ codes k ++ [34; 58] ++ repeat 32 blanks.
Definition json_head (name : list Z) : list Z := [123; 10] ++ key "name" 1 ++ [34] ++ name ++ [34; 44; 10].

Definition json_fields (c : counters) : list (list Z * Z) :=
  [(key "submitted" 6, submitted c); (key "started" 8, started c); (key "completed" 6, completed c);
   (key "cancelled" 6, m_cancelled c); (key "failed" 9, m_failed c); (key "avg_latency_ns" 1, avg_ns c);
   (key "max_latency_ns" 1, latency_max_ns c)].

Fixpoint json_members (l : list (list Z * Z)) : list Z :=
  match l with
  | [] => []
  | [(k, v)] => k ++ print_u64 v ++ [10]
  | (k, v) :: l => k ++ print_u64 v ++ [44; 10] ++ json_members l
  end.

Definition print_json (name : list Z) (m : bytes) : list Z :=
  json_head name ++ json_members (json_fields (metrics_shm_t m)) ++ [125; 10].

Section Tool.
Context {D : Type} (strtod : list Z -> D) (le0 gt0 : D -> bool) (us2 : Z -> list Z) (secs1 : D -> list Z).

Definition print_text (name : list Z) (m : bytes) : list Z :=
  let c := metrics_shm_t m in
  let line k v := codes k ++ pad 12 (print_u64 v) ++ [10] in
  codes "name:           " ++ name ++ [10] ++ line "submitted:      " (submitted c) ++ line "started:        " (started c) ++
  line "completed:      " (completed c) ++ line "cancelled:      " (m_cancelled c) ++ line "failed:         " (m_failed c) ++
  codes "avg_latency:    " ++ us2 (avg_ns c) ++ codes " us" ++ [10] ++
  codes "max_latency:    " ++ us2 (latency_max_ns c) ++ codes " us" ++ [10].

(** ** Options *)

Record options := mk_options { g_name : list Z; g_watch_interval : option D; g_json : bool }.
Definition defaults : options := mk_options (codes "default") None false.

Inductive group_result := GExit (status : Z) | GNext (o : options) (took_next : bool).

(** The options of one argument, after its '-'; [next] is the argument after
    it.  An unknown option and a missing argument give '?', which the switch
    treats as -h. *)
Fixpoint option_group (s : list Z) (next : option (list Z)) (o : options) : group_result :=
  match s with
  | [] => GNext o false
  | c :: s' =>
      if (c =? 110) || (c =? 119) then
        match (match s' with [] => next | _ => Some s' end) with
        | None => GExit 0
        | Some optarg =>
            let took := match s' with [] => true | _ => false end in
            if c =? 110 then GNext (mk_options optarg (g_watch_interval o) (g_json o)) took
            else if le0 (strtod optarg) then GExit 1
            else GNext (mk_options (g_name o) (Some (strtod optarg)) (g_json o)) took
        end
      else if c =? 106 then option_group s' next (mk_options (g_name o) (g_watch_interval o) true)
      else GExit 0
  end.

Inductive parse_result := PExit (status : Z) | PDone (o : options) (operands : list (list Z)).

Fixpoint parse_options (argv : list (list Z)) (o : options) : parse_result :=
  match argv with
  | [] => PDone o []
  | a :: rest =>
      match a with
      | d :: c :: s =>
          if negb (d =? 45) then PDone o argv
          else if (c =? 45) && (match s with [] => true | _ => false end) then PDone o rest
          else match option_group (c :: s) (head rest) o with
               | GExit r => PExit r
               | GNext o' false => parse_options rest o'
               | GNext o' true => match rest with _ :: rest' => parse_options rest' o' | [] => PDone o' [] end
               end
      | _ => PDone o argv
      end
  end.

(** ** Reading *)

Definition open_shm (fs : shm_store) (mmap_ok : bool) (name : list Z) : option bytes :=
  let path := codes "/loomworks_" ++ name in
  if (256 <=? length path)%nat then None
  else match fs !! path with
       | Some (size, m) => if size =? 0 then None else if mmap_ok then Some m else None
       | None => None
       end.

Definition show (o : options) (m : bytes) : list Z := if g_json o then print_json (g_name o) m else print_text (g_name o) m.

(** A turn of the watch loop; nothing is printed without a region. *)
Definition poll (o : options) (fs : shm_store) (mmap_ok : bool) : list Z :=
  match open_shm fs mmap_ok (g_name o) with Some m => show o m | None => [] end.

(** The exit status and the standard output; [polls] are the stores the turns
    of the loop see until a signal clears g_running. *)
Definition main (argv : list (list Z)) (fs : shm_store) (mmap_ok : bool) (polls : list (shm_store * bool)) : Z * list Z :=
  match parse_options (drop 1 argv) defaults with
  | PExit r => (r, [])
  | PDone o operands =>
      let o := match operands with n :: _ => mk_options n (g_watch_interval o) (g_json o) | [] => o end in
      match (match g_watch_interval o with Some d => if gt0 d then Some d else None | None => None end) with
      | Some d =>
          (0, codes "watching /loomworks_" ++ g_name o ++ codes " every " ++ secs1 d ++ codes " s  (Ctrl+C to stop)" ++ [10] ++
              concat ((fun p => poll o p.1 p.2) <$> polls) ++ [10] ++ codes "stopped." ++ [10])
      | None =>
          match open_shm fs mmap_ok (g_name o) with
          | None => (1, [])
          | Some m => (0, show o m)
          end
      end
  end.
End Tool.

(** ** Reading the output back *)

Fixpoint strip (p s : list Z) : option (list Z) :=
  match p, s with
  | [], _ => Some s
  | a :: p, b :: s => if a =? b then strip p s else None
  | _, [] => None
  end.

Fixpoint read_members (ks : list (list Z)) (s : list Z) : option (list Z * list Z) :=
  match ks with
  | [] => Some ([], s)
  | k :: ks =>
      s ← strip k s;
      let '(v, s) := digits_value 0 s in
      s ← strip (match ks with [] => [10] | _ => [44; 10] end) s;
      '(vs, s) ← read_members ks s;
      Some (v :: vs, s)
  end.

(** The numbers of a report about [name]. *)
Definition read_json (name s : list Z) : option (list Z) :=
  s ← strip (json_head name) s;
  '(vs, s) ← read_members (map fst (json_fields counters_zero)) s;
  if decide (s = [125; 10]) then Some vs else None.

Lemma strip_app p s : strip p (p ++ s) = Some s.
Proof. induction p as [|a p IH]; [by destruct s|]. simpl. by rewrite Z.eqb_refl. Qed.

Lemma digits_print n c s : 0 <= n < 2 ^ 64 -> isdigit c = false -> digits_value 0 (print_u64 n ++ c :: s) = (n, c :: s).
Proof.
  intros Hn Hc. destruct (dec_digits_spec 20 n [] ltac:(simpl; lia) ltac:(lia)) as (d & ds & E & Hd & Hv).
  unfold print_u64. rewrite E, app_nil_r. rewrite digits_value_app by done. by rewrite Hv.
Qed.

#[local] Opaque print_u64.

Lemma read_members_print l s : Forall (fun kv => 0 <= kv.2 < 2 ^ 64) l ->
  read_members (map fst l) (json_members l ++ s) = Some (map snd l, s).
Proof.
  induction 1 as [|[k v] l Hv _ IH]; [done|]. destruct l as [|kv l].
  - cbn [json_members read_members map fst snd]. rewrite <- !app_assoc, strip_app. simpl. by rewrite digits_print.
  - change (json_members ((k, v) :: kv :: l)) with (k ++ print_u64 v ++ [44; 10] ++ json_members (kv :: l)).
    cbn [map fst snd] in *. cbn [read_members] in *. rewrite <- !app_assoc, strip_app. cbn [mbind option_bind].
    rewrite (digits_print v 44 (10 :: json_members (kv :: l) ++ s) Hv eq_refl : digits_value 0 (print_u64 v ++ [44; 10] ++ _) = _).
    rewrite (strip_app [44; 10] (json_members (kv :: l) ++ s) : strip [44; 10] (44 :: 10 :: _) = _). cbn [mbind option_bind].
    by rewrite IH.
Qed.

(** ** The region holds the counts *)

Lemma region_get_put c m :
  0 <= submitted c < 2 ^ 64 -> 0 <= started c < 2 ^ 64 -> 0 <= completed c < 2 ^ 64 -> 0 <= m_cancelled c < 2 ^ 64 ->
  0 <= m_failed c < 2 ^ 64 -> 0 <= latency_sum_ns c < 2 ^ 64 -> 0 <= latency_max_ns c < 2 ^ 64 ->
  metrics_shm_t (region_put c m) = c.
Proof. intros. unfold metrics_shm_t, region_put. destruct c as [x1 x2 x3 x4 x5 x6 x7]. cbn [submitted started completed m_cancelled m_failed latency_sum_ns latency_max_ns] in *. f_equal; by fields. Qed.

Lemma region_write_bump e m : metrics_shm_t (region_write e m) = bump e (metrics_shm_t m).
Proof.
  unfold metrics_shm_t, bump. destruct e; unfold region_write, fetch_add; f_equal;
    first [rewrite load8_same by apply u64_range | rewrite load_store_other by (unfold apart; lia)]; done.
Qed.

Definition region_after (es : list loom_metric_event_t) : bytes := foldl (fun m e => region_write e m) (region_put counters_zero (fun _ => 0)) es.

Lemma region_counts es : metrics_shm_t (region_after es) = counted counters_zero es.
Proof.
  unfold region_after. induction es as [|e es IH] using rev_ind; [apply (region_get_put counters_zero); simpl; lia|].
  by rewrite foldl_app, <- counted_snoc, <- IH, <- region_write_bump.
Qed.

Definition count (e : loom_metric_event_t) (es : list loom_metric_event_t) : Z := u64 (occ e es).

(** The report about a region that has seen [es]. *)
Lemma read_report name es : read_json name (print_json name (region_after es)) =
  Some [count LOOMWORKS_METRIC_SUBMITTED es; count LOOMWORKS_METRIC_STARTED es; count LOOMWORKS_METRIC_COMPLETED es;
        count LOOMWORKS_METRIC_CANCELLED es; count LOOMWORKS_METRIC_FAILED es; 0; 0].
Proof.
  unfold read_json, print_json. rewrite strip_app, region_counts. cbn [mbind option_bind].
  change (map fst (json_fields counters_zero)) with (map fst (json_fields (counted counters_zero es))).
  assert (Ha : avg_ns (counted counters_zero es) = 0) by (unfold avg_ns, counted; simpl; by case_match).
  rewrite read_members_print.
  - cbn [mbind option_bind]. rewrite decide_True by done. unfold json_fields. by rewrite Ha.
  - unfold json_fields. rewrite Ha. repeat constructor; simpl; try apply u64_range; lia.
Qed.

(** ** Names and options *)

Lemma codes_app s1 s2 : codes (s1 +:+ s2) = codes s1 ++ codes s2.
Proof. induction s1 as [|c s1 IH]; simpl; [done|]. by rewrite IH. Qed.

Lemma codes_length s : length (codes s) = String.length s.
Proof. induction s as [|c s IH]; simpl; [done|]. by rewrite IH. Qed.

Lemma name_char_not_dash c : name_char c = true -> Z.of_N (Ascii.N_of_ascii c) <> 45.
Proof. unfold name_char. intros H E. rewrite E in H. done. Qed.

(** A published name: its path fits both buffers, and it is not an option. *)
Lemma publish_name fs name fs1 : shm_publish fs name = Some fs1 ->
  build_path 256 name = Some (LOOMWORKS_SHM_PREFIX +:+ name)%string /\ (length (region_path name) < 256)%nat /\
  exists c s, codes name = c :: s /\ c <> 45.
Proof.
  unfold shm_publish. destruct (loom_metrics_shm_create name true true true) as [[path r]|] eqn:E; [|done]. intros _.
  revert E. unfold loom_metrics_shm_create, validate_name. destruct ((String.length name =? 0)%nat || _) eqn:El; [done|].
  destruct (all_chars name) eqn:Ea; [|done]. intros _. apply orb_false_iff in El as [E1 E2].
  apply Nat.eqb_neq in E1. apply Nat.ltb_ge in E2. unfold LOOMWORKS_SHM_NAME_MAX in E2.
  assert (Hl : String.length (LOOMWORKS_SHM_PREFIX +:+ name) = (11 + String.length name)%nat) by apply length_append.
  split_and!.
  - unfold build_path. rewrite Hl, (proj2 (Nat.leb_gt _ _)) by lia. done.
  - unfold region_path. rewrite codes_length, Hl. lia.
  - destruct name as [|c s]; [done|]. exists (Z.of_N (Ascii.N_of_ascii c)), (codes s). split; [done|].
    simpl in Ea. apply andb_prop in Ea as [Ea _]. by apply name_char_not_dash.
Qed.

Section ToolFacts.
Context {D : Type} (strtod : list Z -> D) (le0 gt0 : D -> bool) (us2 : Z -> list Z) (secs1 : D -> list Z).
#[local] Abbreviation tool := (main strtod le0 gt0 us2 secs1).

(** The ways to ask for a JSON report about [name]. *)
Definition json_args (name : list Z) : list (list (list Z)) :=
  [[codes "-j"; codes "-n"; name]; [codes "-n"; name; codes "-j"]; [codes "-jn"; name]; [codes "-jn" ++ name]; [codes "-j"; name]].

Lemma json_args_main prog name args fs :
  (exists c s, name = c :: s /\ c <> 45) -> args ∈ json_args name ->
  tool (prog :: args) fs true [] =
  match open_shm fs true name with None => (1, []) | Some m => (0, print_json name m) end.
Proof.
  intros (c & s & -> & Hc) Ha. apply list_elem_of_In in Ha. apply Z.eqb_neq in Hc.
  destruct Ha as [<-|[<-|[<-|[<-|[<-|[]]]]]]; unfold main; simpl; try done.
  destruct s; simpl; rewrite ?Hc; done.
Qed.

(** Long options and a zero interval, as the usage text has them. *)
Lemma long_option_exits prog c s rest fs ok polls : tool (prog :: (45 :: 45 :: c :: s) :: rest) fs ok polls = (0, []).
Proof. done. Qed.

Lemma bad_interval_exits prog a rest fs ok polls :
  le0 (strtod a) = true -> tool (prog :: codes "-w" :: a :: rest) fs ok polls = (1, []).
Proof. intros H. unfold main. simpl. by rewrite H. Qed.
End ToolFacts.

Lemma region_path_eq name : region_path name = codes "/loomworks_" ++ codes name.
Proof. apply codes_app. Qed.

Lemma open_published fs name fs1 sz m : shm_publish fs name = Some fs1 -> sz <> 0 ->
  open_shm (<[region_path name := (sz, m)]> fs1) true (codes name) = Some m.
Proof.
  intros Hp Hsz. destruct (publish_name fs name fs1 Hp) as (_ & Hl & _). unfold open_shm. cbv zeta. rewrite <- region_path_eq.
  rewrite (proj2 (Nat.leb_gt _ _)), lookup_insert_eq by done. by rewrite (proj2 (Z.eqb_neq _ _)).
Qed.

Lemma open_destroyed fs name fs1 fs2 : shm_publish fs name = Some fs1 ->
  open_shm (loom_metrics_shm_destroy fs2 name true) true (codes name) = None.
Proof.
  intros Hp. destruct (publish_name fs name fs1 Hp) as (Hb & _). unfold loom_metrics_shm_destroy. cbn [negb]. rewrite Hb.
  unfold open_shm. cbv zeta. rewrite <- region_path_eq. destruct (256 <=? _)%nat; [done|]. by rewrite lookup_delete_eq.
Qed.


Definition demo_events : list loom_metric_event_t :=
  [LOOMWORKS_METRIC_SUBMITTED; LOOMWORKS_METRIC_SUBMITTED; LOOMWORKS_METRIC_STARTED; LOOMWORKS_METRIC_COMPLETED].

