(* ===== verification/CoroEnv.v ===== *)
(** * The process-wide side of coroutines (src/coroutine.c: ensure_scheduler,
    loom_coro_exit, free_all_scheduler_stacks, coro_atexit, guard_handler,
    loom_coro_install_guard_handler, loom_coro_uninstall_guard_handler).

    Every thread that drives coroutines gets a scheduler stack, kept in a list
    so that the process can free the stacks left at its end.  A step is one of
    these calls by one thread; the list is changed under g_scheduler_lock.
    Freeing a stack that is not live sets [fault].

    The second part is the guard handler: the two signal dispositions with the
    saved ones, and the handler's decision, in which the recursion counter is
    shared by all threads. *)
From stdpp Require Import functions strings.
From S2P Require Import Prelude Types Coroutine.

(** ** Scheduler stacks *)

Record sched_thread := mk_sthread {
  scheduler_stack : option nat;      (* g_scheduler_stack *)
  scheduler_inited : bool;           (* g_scheduler_inited *)
}.

Record scheds := mk_scheds {
  threads : nat -> sched_thread;
  scheduler_stacks : list nat;       (* g_scheduler_stacks, front first *)
  live : list nat;                   (* stacks allocated and not freed *)
  next_stack : nat;
  untracked : list nat;              (* stacks for which no list node could be had *)
  fault : bool;
}.

Definition set_thread (s : scheds) (w : nat) (x : sched_thread) : scheds :=
  mk_scheds (<[w := x]> (threads s)) (scheduler_stacks s) (live s) (next_stack s) (untracked s) (fault s).

Definition free_stack (s : scheds) (b : nat) : scheds :=
  mk_scheds (threads s) (scheduler_stacks s) (filter (fun x => x <> b) (live s)) (next_stack s) (untracked s)
    (fault s || bool_decide (b ∉ live s)).

(** ensure_scheduler; the three inputs are the outcomes of its malloc of the
    stack, of loom_coro_ctx_get and of the malloc of the list node. *)
Definition ensure_scheduler (s : scheds) (w : nat) (stack_ok ctx_ok node_ok : bool) : bool * scheds :=
  if scheduler_inited (threads s w) then (true, s)
  else if negb stack_ok then (false, set_thread s w (mk_sthread None false))
  else
    let b := next_stack s in
    let s1 := mk_scheds (threads s) (scheduler_stacks s) (b :: live s) (S b) (untracked s) (fault s) in
    if negb ctx_ok then (false, set_thread (free_stack s1 b) w (mk_sthread None false))
    else
      let s2 := set_thread s1 w (mk_sthread (Some b) true) in
      (true,
       if node_ok then mk_scheds (threads s2) (b :: scheduler_stacks s2) (live s2) (next_stack s2) (untracked s2) (fault s2)
       else mk_scheds (threads s2) (scheduler_stacks s2) (live s2) (next_stack s2) (b :: untracked s2) (fault s2)).

(** The unlinking loop of loom_coro_exit: the first node with the stack. *)
Fixpoint unlink_stack (b : nat) (l : list nat) : list nat :=
  match l with [] => [] | x :: l => if (x =? b)%nat then l else x :: unlink_stack b l end.

Definition loom_coro_exit (s : scheds) (w : nat) : scheds :=
  match scheduler_stack (threads s w) with
  | None => s
  | Some b =>
      let s1 := set_thread s w (mk_sthread None (scheduler_inited (threads s w))) in
      free_stack (mk_scheds (threads s1) (unlink_stack b (scheduler_stacks s1)) (live s1) (next_stack s1) (untracked s1) (fault s1)) b
  end.

(** free_all_scheduler_stacks, once every other thread was joined. *)
Definition free_all_scheduler_stacks (s : scheds) : scheds :=
  foldl free_stack (mk_scheds (threads s) [] (live s) (next_stack s) (untracked s) (fault s)) (scheduler_stacks s).

Inductive senv :=
  | SEnsure (w : nat) (stack_ok ctx_ok node_ok : bool)   (* a resume on thread [w] *)
  | SExit (w : nat).

Definition senv_step (s : scheds) (ev : senv) : scheds :=
  match ev with SEnsure w a b c => (ensure_scheduler s w a b c).2 | SExit w => loom_coro_exit s w end.

Definition scheds_start : scheds := mk_scheds (fun _ => mk_sthread None false) [] [] 0 [] false.

(** *** Invariant *)

Record stack_inv (s : scheds) : Prop := {
  si_live : NoDup (live s) /\ forall b, b ∈ live s -> (b < next_stack s)%nat;
  si_list : NoDup (scheduler_stacks s) /\ forall b, b ∈ scheduler_stacks s -> b ∈ live s;
  si_own : forall w b, scheduler_stack (threads s w) = Some b -> b ∈ live s;
  si_one : forall w w' b, scheduler_stack (threads s w) = Some b -> scheduler_stack (threads s w') = Some b -> w = w';
  si_lost : forall b, b ∈ live s -> b ∈ scheduler_stacks s \/ b ∈ untracked s;
  si_fault : fault s = false;
}.

Lemma unlink_stack_elem b l : NoDup l -> forall x, x ∈ unlink_stack b l <-> x ∈ l /\ x <> b.
Proof.
  induction 1 as [|y l Hy Hnd IH]; intros x; simpl; [by split; [intros ?%not_elem_of_nil|intros [?%not_elem_of_nil _]]|].
  destruct (Nat.eqb_spec y b) as [->|Hyb].
  - rewrite elem_of_cons. split; [intros Hx; split; [by right|by intros ->]|]. by intros [[->|?] ?].
  - rewrite !elem_of_cons, IH. split; [intros [->|[? ?]]; auto|]. by intros [[->|?] ?]; auto.
Qed.

Lemma unlink_stack_nodup b l : NoDup l -> NoDup (unlink_stack b l).
Proof.
  induction 1 as [|y l Hy Hnd IH]; simpl; [constructor|]. destruct (y =? b)%nat; [done|]. constructor; [|done].
  rewrite unlink_stack_elem by done. tauto.
Qed.

(** What a thread's entry says after an update. *)
Lemma thread_upd (f : nat -> sched_thread) w v w' b :
  scheduler_stack ((<[w := v]> f : nat -> sched_thread) w') = Some b ->
  (w' = w /\ scheduler_stack v = Some b) \/ (w' <> w /\ scheduler_stack (f w') = Some b).
Proof.
  intros H. destruct (decide (w' = w)) as [->|Hn]; [rewrite fn_lookup_insert in H; by left|].
  rewrite fn_lookup_insert_ne in H by done. by right.
Qed.

(** A registered stack is freed and leaves the list. *)
Lemma stack_inv_exit s w : stack_inv s -> stack_inv (loom_coro_exit s w).
Proof.
  intros Hi. unfold loom_coro_exit. destruct (scheduler_stack (threads s w)) as [b|] eqn:Hb; [|done].
  destruct Hi as [[H1 H1'] [H2 H2'] H3 H4 H5 H6]. pose proof (H3 w b Hb) as Hl. split; simpl.
  - split; [by apply NoDup_filter|]. intros x [_ Hx]%list_elem_of_filter. by apply H1'.
  - split; [by apply unlink_stack_nodup|]. intros x. rewrite unlink_stack_elem by done. intros [Hx Hn]. apply list_elem_of_filter. auto.
  - intros w' x [[_ ?]|[Hn Hx]]%thread_upd; [done|]. apply list_elem_of_filter. split; [|by eapply H3].
    intros ->. by apply Hn, (H4 w' w b).
  - intros w1 w2 x [[_ ?]|[_ Hx1]]%thread_upd [[_ ?]|[_ Hx2]]%thread_upd; try done. by eapply H4.
  - intros x [Hn Hx]%list_elem_of_filter. rewrite unlink_stack_elem by done. destruct (H5 x Hx); auto.
  - rewrite H6, bool_decide_false by naive_solver. done.
Qed.

(** A thread without a stack, and an id spent. *)
Lemma stack_inv_clear s w i n :
  stack_inv s -> (next_stack s <= n)%nat ->
  stack_inv (mk_scheds (<[w := mk_sthread None i]> (threads s)) (scheduler_stacks s) (live s) n (untracked s) (fault s)).
Proof.
  intros [[H1 H1'] H2 H3 H4 H5 H6] Hn. split; simpl; [split; [done|]|done| | |done|done].
  - intros b Hb%H1'. lia.
  - intros w' b [[_ ?]|[_ Hb]]%thread_upd; [done|by eapply H3].
  - intros w1 w2 b [[_ ?]|[_ Hb1]]%thread_upd [[_ ?]|[_ Hb2]]%thread_upd; try done. by eapply H4.
Qed.

(** A new stack, in the list or not. *)
Lemma stack_inv_new s w L U :
  stack_inv s -> let b := next_stack s in
  (L = b :: scheduler_stacks s /\ U = untracked s) \/ (L = scheduler_stacks s /\ U = b :: untracked s) ->
  stack_inv (mk_scheds (<[w := mk_sthread (Some b) true]> (threads s)) L (b :: live s) (S b) U (fault s)).
Proof.
  intros [[H1 H1'] [H2 H2'] H3 H4 H5 H6] b HLU. assert (Hnew : b ∉ live s) by (intros Hx%H1'; lia). split; simpl.
  - split; [by constructor|]. intros x [->|Hx]%elem_of_cons; [lia|apply H1' in Hx; lia].
  - destruct HLU as [[-> _]|[-> _]]; [split; [constructor; [by intros ?%H2'|done]|]|split; [done|]]; set_solver.
  - intros w' x [[_ [= ->]]|[_ Hx]]%thread_upd; [by left|right; by eapply H3].
  - intros w1 w2 x [[-> Hx1]|[_ Hx1]]%thread_upd [[-> Hx2]|[_ Hx2]]%thread_upd; [done| | |by eapply H4]; simplify_eq/=; exfalso; by eapply Hnew, H3.
  - intros x [->|Hx]%elem_of_cons; [destruct HLU as [[-> _]|[_ ->]]; [left|right]; left|].
    destruct (H5 x Hx), HLU as [[-> ->]|[-> ->]]; rewrite ?elem_of_cons; auto.
  - done.
Qed.

Lemma stack_inv_ensure s w a b c : stack_inv s -> stack_inv (ensure_scheduler s w a b c).2.
Proof.
  intros Hi. unfold ensure_scheduler. destruct (scheduler_inited (threads s w)) eqn:Hin; [done|].
  destruct a; simpl; [|by apply stack_inv_clear].
  destruct b; simpl; [destruct c; (apply stack_inv_new; [done|]); [by left|by right]|].
  pose proof Hi as [[_ H1'] _ _ _ _ _]. assert (Hnew : next_stack s ∉ live s) by (intros Hx%H1'; lia).
  pose proof (stack_inv_clear s w false (S (next_stack s)) Hi ltac:(lia)) as Hc. unfold set_thread, free_stack. simpl.
  rewrite filter_cons_False by (intros H; by apply H). rewrite filter_all by (apply Forall_forall; by intros x Hx ->).
  rewrite bool_decide_false by (intros H; apply H; left). by rewrite orb_false_r.
Qed.

Lemma stack_inv_run evs : forall s, stack_inv s -> stack_inv (foldl senv_step s evs).
Proof. induction evs as [|[w a b c|w] evs IH]; intros s Hi; simpl; [done| |]; apply IH; [by apply stack_inv_ensure|by apply stack_inv_exit]. Qed.

Lemma stack_inv_start : stack_inv scheds_start.
Proof. split; simpl; [split; [constructor|set_solver]|split; [constructor|set_solver]|done|done|set_solver|done]. Qed.

(** Freeing a list of distinct live stacks. *)
Lemma free_list l : forall s, NoDup l -> (forall b, b ∈ l -> b ∈ live s) -> fault s = false ->
  fault (foldl free_stack s l) = false /\ forall b, b ∈ live (foldl free_stack s l) <-> b ∈ live s /\ (b ∉ l).
Proof.
  induction l as [|x l IH]; intros s Hnd Hl Hf; simpl; [split; [done|set_solver]|]. apply NoDup_cons in Hnd as [Hx Hnd].
  destruct (IH (free_stack s x) Hnd) as [H1 H2].
  - intros b Hb. simpl. apply list_elem_of_filter. split; [by intros ->|apply Hl; by right].
  - simpl. rewrite Hf, bool_decide_false; [done|]. intros H. apply H, Hl. left.
  - split; [done|]. intros b. rewrite H2. simpl. rewrite list_elem_of_filter, elem_of_cons. tauto.
Qed.

(** Scheduler stacks are freed exactly once: in every sequence of resumes and
    exits by any number of threads, with any allocation failing, no stack is
    freed twice or used by two threads, and at the end of the process exactly
    the stacks whose list node could not be had, and whose thread did not call
    loom_coro_exit, are left over. *)
Theorem scheduler_stacks_freed_once evs :
  let s := foldl senv_step scheds_start evs in
  fault s = false /\ fault (free_all_scheduler_stacks s) = false /\
  (forall w w' b, scheduler_stack (threads s w) = Some b -> scheduler_stack (threads s w') = Some b -> w = w') /\
  (forall w b, scheduler_stack (threads s w) = Some b -> b ∈ live s) /\
  (forall b, b ∈ live (free_all_scheduler_stacks s) -> b ∈ untracked s /\ (b ∉ scheduler_stacks s)).
Proof.
  intros s. pose proof (stack_inv_run evs _ stack_inv_start) as Hi. fold s in Hi. destruct Hi as [[H1 _] [H2 H2'] H3 H4 H5 H6].
  destruct (free_list (scheduler_stacks s) (mk_scheds (threads s) [] (live s) (next_stack s) (untracked s) (fault s)) H2 H2' H6) as [F1 F2].
  split_and!; [done|done|done|done|]. intros b Hb. apply F2 in Hb as [Hb Hn]. simpl in Hb. split; [|done]. by destruct (H5 b Hb).
Qed.

(** loom_coro_exit leaves g_scheduler_inited set: a thread that called it never
    gets a scheduler stack again, although ensure_scheduler reports success. *)
Lemma no_stack_after_exit s w evs :
  stack_inv s -> scheduler_inited (threads s w) = true ->
  scheduler_stack (threads (foldl senv_step (loom_coro_exit s w) evs) w) = None.
Proof.
  intros _ Hin.
  assert (H : scheduler_stack (threads (loom_coro_exit s w) w) = None /\ scheduler_inited (threads (loom_coro_exit s w) w) = true).
  { unfold loom_coro_exit. destruct (scheduler_stack (threads s w)) eqn:E; simpl; [by rewrite fn_lookup_insert|done]. }
  revert H. generalize (loom_coro_exit s w). clear. induction evs as [|ev evs IH]; intros s [Hs Hi]; [done|]. simpl. apply IH.
  destruct ev as [w' a b c|w']; simpl.
  - unfold ensure_scheduler. destruct (decide (w' = w)) as [->|Hn]; [by rewrite Hi|].
    destruct (scheduler_inited (threads s w')), a, b, c; simpl; rewrite ?fn_lookup_insert_ne by done; done.
  - unfold loom_coro_exit. destruct (decide (w' = w)) as [->|Hn]; [by rewrite Hs|].
    destruct (scheduler_stack (threads s w')); simpl; rewrite ?fn_lookup_insert_ne by done; done.
Qed.

(** ** The guard handler *)

Inductive disposition := HDefault | HGuard | HOther (h : nat).

#[export] Instance disposition_eq_dec : EqDecision disposition. Proof. solve_decision. Defined.

Record guard := mk_guard {
  segv : disposition;                (* the process's dispositions *)
  bus : disposition;
  prev_segv : disposition;           (* g_prev_segv, g_prev_bus *)
  prev_bus : disposition;
  guard_installed : bool;
}.

(** loom_coro_install_guard_handler; the inputs are the outcomes of the two
    sigaction calls, the second of which is made only after the first. *)
Definition loom_coro_install_guard_handler (g : guard) (segv_ok bus_ok : bool) : guard :=
  if guard_installed g then g
  else if negb segv_ok then g
  else
    let g1 := mk_guard HGuard (bus g) (segv g) (prev_bus g) false in
    if negb bus_ok then g1 else mk_guard HGuard HGuard (prev_segv g1) (bus g1) true.

Definition loom_coro_uninstall_guard_handler (g : guard) : guard :=
  if guard_installed g then mk_guard (prev_segv g) (prev_bus g) (prev_segv g) (prev_bus g) false else g.

(** What guard_handler does for a fault at [addr] on a thread whose g_current
    has the mapping [cur]; [depth] is the value fetch_add returned. *)
Inductive verdict := Jump | Die.

Definition guard_handler (depth : Z) (cur : option mapping) (addr : Z) : verdict :=
  if 0 <? depth then Die
  else match cur with Some m => if in_guard_band m addr then Jump else Die | None => Die end.

(** Installing is idempotent, and uninstalling restores the dispositions the
    first install found, when the sigaction calls succeed. *)
Lemma install_uninstall g n :
  guard_installed g = false ->
  let g' := Nat.iter (S n) (fun g => loom_coro_install_guard_handler g true true) g in
  segv g' = HGuard /\ bus g' = HGuard /\
  segv (loom_coro_uninstall_guard_handler g') = segv g /\ bus (loom_coro_uninstall_guard_handler g') = bus g.
Proof.
  intros Hg. assert (H : Nat.iter (S n) (fun g => loom_coro_install_guard_handler g true true) g = mk_guard HGuard HGuard (segv g) (bus g) true).
  { induction n as [|n IH]; [simpl; unfold loom_coro_install_guard_handler; by rewrite Hg|]. rewrite Nat.iter_succ, IH. done. }
  cbv zeta. by rewrite H.
Qed.

(** When the second sigaction of an install fails, the first stays in force;
    the next install saves the guard handler itself as the previous SIGSEGV
    disposition, and uninstalling leaves it in place. *)
Theorem partial_install_loses_disposition g :
  guard_installed g = false ->
  let g1 := loom_coro_install_guard_handler g true false in
  let g2 := loom_coro_install_guard_handler g1 true true in
  segv g1 = HGuard /\ guard_installed g1 = false /\ segv (loom_coro_uninstall_guard_handler g2) = HGuard.
Proof. intros Hg. unfold loom_coro_install_guard_handler. by rewrite Hg. Qed.

(** The recursion counter is one for the process: two threads that overflow
    their coroutine stacks at the same time both add to it before either
    decides, and the second ends the process although its fault is in its own
    guard band. *)
Theorem concurrent_faults_kill m m' addr addr' :
  in_guard_band m addr = true -> in_guard_band m' addr' = true ->
  guard_handler 0 (Some m) addr = Jump /\ guard_handler 1 (Some m') addr' = Die.
Proof. intros H H'. unfold guard_handler. simpl. by rewrite H. Qed.

(** ** The end of the process *)

Record process := mk_process { p_guard : guard; p_scheds : scheds; p_stacks : stacks }.

Definition coro_atexit (p : process) : process :=
  mk_process (loom_coro_uninstall_guard_handler (p_guard p)) (free_all_scheduler_stacks (p_scheds p)) (free_all_pooled_stacks (p_stacks p)).

(** The destructor puts the dispositions back that an install found, frees no
    scheduler stack twice and leaves only untracked ones, and empties the pool
    of coroutine stacks without touching the live ones. *)
Lemma atexit_releases g n evs psl st :
  guard_installed g = false -> stacks_inv psl st ->
  let g' := Nat.iter (S n) (fun g => loom_coro_install_guard_handler g true true) g in
  let p := coro_atexit (mk_process g' (foldl senv_step scheds_start evs) st) in
  segv (p_guard p) = segv g /\ bus (p_guard p) = bus g /\
  fault (p_scheds p) = false /\ (forall b, b ∈ live (p_scheds p) -> b ∈ untracked (foldl senv_step scheds_start evs)) /\
  stack_pool (p_stacks p) = [] /\ live_stacks (p_stacks p) = live_stacks st /\ stacks_inv psl (p_stacks p).
Proof.
  intros Hg Hs g' p. destruct (install_uninstall g n Hg) as (_ & _ & G1 & G2).
  pose proof (stack_inv_run evs _ stack_inv_start) as [_ [H2 H2'] _ _ H5 H6].
  destruct (free_list (scheduler_stacks (foldl senv_step scheds_start evs)) (mk_scheds (threads (foldl senv_step scheds_start evs)) []
    (live (foldl senv_step scheds_start evs)) (next_stack (foldl senv_step scheds_start evs)) (untracked (foldl senv_step scheds_start evs))
    (fault (foldl senv_step scheds_start evs))) H2 H2' H6) as [F1 F2].
  split_and!; [done|done|done| |done|done|by apply free_pooled_inv].
  intros b Hb. apply F2 in Hb as [Hb Hn]. by destruct (H5 b Hb).
Qed.

Definition loom_coro_result_str (r : loom_coro_result_t) : string :=
  match r with
  | LOOMWORKS_CORO_OK => "OK"
  | LOOMWORKS_CORO_ERR_ALLOC => "Allocation failed"
  | LOOMWORKS_CORO_ERR_CONTEXT => "Context error"
  | LOOMWORKS_CORO_ERR_MPROTECT => "mprotect error"
  | LOOMWORKS_CORO_ERR_INVALID => "Invalid argument"
  | LOOMWORKS_CORO_ERR_GUARD => "Guard page violation"
  | LOOMWORKS_CORO_ERR_RUNNING => "Invalid state"
  | LOOMWORKS_CORO_ERR_TIMER => "Timer registration failed"
  | LOOMWORKS_CORO_ERR_TIMEOUT => "Execution timeout exceeded"
  | LOOMWORKS_CORO_ERR_FAILED => "Coroutine reported failure"
  end.

#[export] Instance result_str_inj : Inj (=) (=) loom_coro_result_str.
Proof. intros a b. by destruct a, b. Qed.
