(* ===== verification/CoroExec.v ===== *)
(** * Running coroutines (src/coroutine.c: loom_coro_resume, loom_coro_yield,
    loom_coro_sleep_until, loom_coro_sleep, loom_coro_terminate,
    loom_coro_fail, loom_coro_destroy, guard_handler, coro_entry).

    The coroutines of one thread.  The body of a coroutine is the sequence of
    library calls it makes, with the clock readings it gets and whether the
    pool's sleep hook accepts its registration; [rest] is what is left of it
    when it is switched out.  Bodies do not resume other coroutines.  g_current
    is the thread-local variable of that name: it is written where the code
    writes it, in coro_entry and when a body ends, fails or terminates itself,
    and not in loom_coro_resume. *)
From S2P Require Import Prelude Types Coroutine.

(** One call made by a body. *)
Inductive call :=
  | CYield (now : Z)
  | CSleepUntil (deadline : Z) (reg_ok : bool)
  | CSleep (duration now : Z) (reg_ok : bool)
  | CFail (err : Z)
  | CTerminate                       (* loom_coro_terminate on itself *)
  | COverflow.                       (* a fault in its own guard band *)

#[export] Instance call_eq_dec : EqDecision call. Proof. solve_decision. Defined.

Record coroutine := mk_coroutine {
  state : loom_coro_state_t;
  rest : list call;
  owner : nat;                       (* thread *)
  pooled : bool;                     (* sleep_reg != NULL *)
  wake_deadline_ns : Z;
  execution_start_ns : Z;
  max_execution_ns : Z;
  exit_code : Z;
  exit_failed : bool;
}.

(** A thread: its g_current and the coroutines, by handle. *)
Record thread := mk_thread { self : nat; g_current : option nat; coros : gmap nat coroutine }.

Inductive result := Returned (rc : loom_coro_result_t) (th : thread) | Exited (code : Z).

Definition set_state (s : loom_coro_state_t) (c : coroutine) : coroutine :=
  mk_coroutine s (rest c) (owner c) (pooled c) (wake_deadline_ns c) (execution_start_ns c) (max_execution_ns c) (exit_code c) (exit_failed c).
Definition park (s : loom_coro_state_t) (k : list call) (c : coroutine) : coroutine :=
  mk_coroutine s k (owner c) (pooled c) (wake_deadline_ns c) (execution_start_ns c) (max_execution_ns c) (exit_code c) (exit_failed c).
Definition set_deadline (d : Z) (c : coroutine) : coroutine :=
  mk_coroutine (state c) (rest c) (owner c) (pooled c) d (execution_start_ns c) (max_execution_ns c) (exit_code c) (exit_failed c).
Definition set_failed (err : Z) (c : coroutine) : coroutine :=
  mk_coroutine LOOMWORKS_CORO_ERROR (rest c) (owner c) (pooled c) (wake_deadline_ns c) (execution_start_ns c) (max_execution_ns c) err true.

Definition update (th : thread) (id : nat) (f : coroutine -> coroutine) : thread := mk_thread (self th) (g_current th) (alter f id (coros th)).
Definition with_current (th : thread) (cur : option nat) : thread := mk_thread (self th) cur (coros th).

Definition state_of (th : thread) (id : nat) : option loom_coro_state_t := state <$> coros th !! id.
Definition running (th : thread) (id : nat) : bool := bool_decide (state_of th id = Some LOOMWORKS_CORO_RUNNING).

(** check_coro_timeout. *)
Definition timed_out (c : coroutine) (now : Z) : bool :=
  (0 <? max_execution_ns c) && (max_execution_ns c <? now - execution_start_ns c).

(** The state a yielding coroutine is left in. *)
Definition yield_state (c : coroutine) (now : Z) : loom_coro_state_t :=
  if timed_out c now then LOOMWORKS_CORO_TIMEOUT else LOOMWORKS_CORO_SUSPENDED.

(** loom_coro_sleep_until once it is committed: parked until the deadline, or
    in ERROR when the pool's timer refused it. *)
Definition sleep_park (d : Z) (reg_ok : bool) (k : list call) (c : coroutine) : coroutine :=
  set_deadline d (park (if pooled c && negb reg_ok then LOOMWORKS_CORO_ERROR else LOOMWORKS_CORO_SLEEPING) k c).

Definition caller (th : thread) : option (nat * coroutine) :=
  match g_current th with
  | Some cur => match coros th !! cur with Some c => Some (cur, c) | None => None end
  | None => None
  end.

(** The body of coroutine [id] from the point it is at, up to the switch back
    into loom_coro_resume. *)
Fixpoint run_body (id : nat) (k : list call) (th : thread) : result :=
  match k with
  | [] => Returned LOOMWORKS_CORO_OK (with_current (update th id (park LOOMWORKS_CORO_DONE [])) None)
  | CYield now :: k =>
      match caller th with
      | Some (cur, c) =>
          if running th cur then Returned LOOMWORKS_CORO_OK (update th cur (park (yield_state c now) k)) else run_body id k th
      | None => run_body id k th
      end
  | CSleepUntil d ok :: k =>
      match caller th with
      | Some (cur, c) => if running th cur then Returned LOOMWORKS_CORO_OK (update th cur (sleep_park d ok k)) else run_body id k th
      | None => run_body id k th
      end
  | CSleep dur now ok :: k =>
      if dur <? 0 then run_body id k th
      else match caller th with
           | Some (cur, c) => if running th cur then Returned LOOMWORKS_CORO_OK (update th cur (sleep_park (now + dur) ok k)) else run_body id k th
           | None => run_body id k th
           end
  | CFail err :: k =>
      match caller th with
      | Some (cur, c) =>
          let th' := with_current (update th cur (set_failed err)) None in
          Returned (if default false (exit_failed <$> coros th' !! id) then LOOMWORKS_CORO_ERR_FAILED else LOOMWORKS_CORO_ERR_GUARD) th'
      | None => run_body id k th
      end
  | CTerminate :: k =>
      if bool_decide (g_current th = Some id) && running th id
      then Returned LOOMWORKS_CORO_OK (with_current (update th id (park LOOMWORKS_CORO_DONE k)) None)
      else run_body id k (update th id (set_state LOOMWORKS_CORO_DONE))
  | COverflow :: k =>
      (* guard_handler: the fault is in the guard band of [id] *)
      if bool_decide (g_current th = Some id)
      then let th' := with_current (update th id (set_state LOOMWORKS_CORO_ERROR)) None in
           Returned (if default false (exit_failed <$> coros th' !! id) then LOOMWORKS_CORO_ERR_FAILED else LOOMWORKS_CORO_ERR_GUARD) th'
      else Exited (128 + 11)
  end.

Definition final (s : loom_coro_state_t) : bool := match s with LOOMWORKS_CORO_DONE | LOOMWORKS_CORO_ERROR => true | _ => false end.

(** loom_coro_resume after its state test: first-run set-up, deadline test,
    switch into the coroutine; coro_entry runs only the first time. *)
Definition switch_in (th : thread) (id : nat) (c : coroutine) (now : Z) (ctx_ok swap_ok : bool) : result :=
  let is_new := bool_decide (state c = LOOMWORKS_CORO_NEW) in
  let sleeping := bool_decide (state c = LOOMWORKS_CORO_SLEEPING) in
  if is_new && negb ctx_ok then Returned LOOMWORKS_CORO_ERR_CONTEXT th
  else if sleeping && (now <? wake_deadline_ns c) then Returned LOOMWORKS_CORO_ERR_RUNNING th
  else
    let th1 := if sleeping then update th id (set_deadline 0) else th in
    let th2 := update th1 id (set_state LOOMWORKS_CORO_RUNNING) in
    if negb swap_ok then Returned LOOMWORKS_CORO_ERR_CONTEXT (update th2 id (set_state LOOMWORKS_CORO_ERROR))
    else run_body id (rest c) (if is_new then with_current th2 (Some id) else th2).

(** loom_coro_resume by this thread at time [now]; [sched_ok]: ensure_scheduler,
    [ctx_ok]: loom_coro_ctx_get, [swap_ok]: the switch into the coroutine. *)
Definition loom_coro_resume (th : thread) (id : nat) (now : Z) (sched_ok ctx_ok swap_ok : bool) : result :=
  match coros th !! id with
  | None => Returned LOOMWORKS_CORO_ERR_INVALID th
  | Some c =>
      if negb (owner c =? self th)%nat then Returned LOOMWORKS_CORO_ERR_INVALID th
      else if negb sched_ok then Returned LOOMWORKS_CORO_ERR_CONTEXT th
      else if final (state c) then Returned LOOMWORKS_CORO_ERR_RUNNING th
      else switch_in th id c now ctx_ok swap_ok
  end.

(** loom_coro_terminate from outside any coroutine body. *)
Definition loom_coro_terminate (th : thread) (id : nat) : loom_coro_result_t * thread :=
  match coros th !! id with
  | None => (LOOMWORKS_CORO_ERR_INVALID, th)
  | Some c =>
      if negb (owner c =? self th)%nat then (LOOMWORKS_CORO_ERR_INVALID, th)
      else if final (state c) then (LOOMWORKS_CORO_OK, th)
      else (LOOMWORKS_CORO_OK, update th id (set_state LOOMWORKS_CORO_DONE))
  end.

Definition loom_coro_destroy (th : thread) (id : nat) : loom_coro_result_t * thread :=
  match coros th !! id with
  | None => (LOOMWORKS_CORO_ERR_INVALID, th)
  | Some c =>
      match state c with
      | LOOMWORKS_CORO_RUNNING | LOOMWORKS_CORO_SUSPENDED | LOOMWORKS_CORO_SLEEPING => (LOOMWORKS_CORO_ERR_INVALID, th)
      | _ => (LOOMWORKS_CORO_OK,
              mk_thread (self th) (if bool_decide (g_current th = Some id) then None else g_current th) (delete id (coros th)))
      end
  end.

(** The new coroutine of loom_coro_create, once its stack is mapped. *)
Definition new_coroutine (th : thread) (body : list call) : coroutine :=
  mk_coroutine LOOMWORKS_CORO_NEW body (self th) false 0 0 0 0 false.

(** loom_coro_exit_status, as the integer it returns. *)
Definition loom_coro_exit_status (c : option coroutine) : Z :=
  match c with
  | None => result_code LOOMWORKS_ERR_INVALID
  | Some c =>
      match state c with
      | LOOMWORKS_CORO_DONE => result_code LOOMWORKS_OK
      | LOOMWORKS_CORO_ERROR => if exit_failed c then exit_code c else result_code LOOMWORKS_ERR_FAILED
      | _ => result_code LOOMWORKS_ERR_INVALID
      end
  end.

Definition loom_coro_state (c : option coroutine) : loom_coro_state_t :=
  match c with Some c => state c | None => LOOMWORKS_CORO_ERROR end.


(** ** Histories *)

Inductive op :=
  | OpCreate (id : nat) (body : list call)
  | OpResume (id : nat) (now : Z) (sched_ok ctx_ok swap_ok : bool)
  | OpTerminate (id : nat)
  | OpDestroy (id : nat).

(** [None]: the process exited. *)
Definition do_op (th : thread) (o : op) : option (loom_coro_result_t * thread) :=
  match o with
  | OpCreate id body =>
      match coros th !! id with
      | Some _ => None
      | None => Some (LOOMWORKS_CORO_OK, mk_thread (self th) (g_current th) (<[id := new_coroutine th body]> (coros th)))
      end
  | OpResume id now a b c => match loom_coro_resume th id now a b c with Returned rc th' => Some (rc, th') | Exited _ => None end
  | OpTerminate id => Some (loom_coro_terminate th id)
  | OpDestroy id => Some (loom_coro_destroy th id)
  end.

(** The codes returned by a history and the thread at its end. *)
Fixpoint do_ops (th : thread) (os : list op) : option (list loom_coro_result_t * thread) :=
  match os with
  | [] => Some ([], th)
  | o :: os =>
      match do_op th o with
      | Some (rc, th') => match do_ops th' os with Some (rcs, th'') => Some (rc :: rcs, th'') | None => None end
      | None => None
      end
  end.

Definition idle_thread (t : nat) : thread := mk_thread t None ∅.

(** Resuming one coroutine again and again, with everything in order. *)
Definition resume (id : nat) : op := OpResume id 0 true true true.

(** *** Finished coroutines stay finished *)

Definition finished (th : thread) (id : nat) : Prop := exists s, state_of th id = Some s /\ final s = true.

Lemma state_update th id j f : state_of (update th j f) id = if decide (j = id) then state <$> (f <$> coros th !! id) else state_of th id.
Proof.
  unfold state_of, update. simpl. case_decide; [subst; by rewrite lookup_alter_eq|by rewrite lookup_alter_ne].
Qed.

Lemma finished_other th id j f : j <> id -> finished th id -> finished (update th j f) id.
Proof. intros Hne (s & Hs & Hf). exists s. by rewrite state_update, decide_False. Qed.

Lemma finished_current th id cur : finished th id -> finished (with_current th cur) id.
Proof. done. Qed.

Lemma finished_not_running th id : finished th id -> running th id = false.
Proof. intros (s & Hs & Hf). unfold running. rewrite Hs. apply bool_decide_eq_false. intros [= ->]. done. Qed.

Lemma caller_lookup th cur c : caller th = Some (cur, c) -> g_current th = Some cur /\ coros th !! cur = Some c.
Proof. unfold caller. destruct (g_current th) as [x|]; [|done]. destruct (coros th !! x) eqn:E; intros; by simplify_eq. Qed.

Lemma finished_fail th id cur err : finished th id -> finished (update th cur (set_failed err)) id.
Proof.
  intros H. destruct (decide (cur = id)) as [-> |Hne]; [|by apply finished_other]. destruct H as (s & Hs & _).
  exists LOOMWORKS_CORO_ERROR. split; [|done]. rewrite state_update, decide_True by done. unfold state_of in Hs.
  by destruct (coros th !! id).
Qed.

Lemma run_body_finished id j k th rc th' : j <> id -> finished th id -> run_body j k th = Returned rc th' -> finished th' id.
Proof.
  intros Hne. revert th. induction k as [|[now|d ok|dur now ok|err| |] k IH]; intros th Hf Hr; simpl in Hr.
  - injection Hr as <- <-. by apply finished_current, finished_other.
  - destruct (caller th) as [[cur c]|]; [|by eapply IH]. destruct (running th cur) eqn:E; [|by eapply IH].
    injection Hr as <- <-. apply finished_other; [|done]. intros ->. by rewrite finished_not_running in E.
  - destruct (caller th) as [[cur c]|]; [|by eapply IH]. destruct (running th cur) eqn:E; [|by eapply IH].
    injection Hr as <- <-. apply finished_other; [|done]. intros ->. by rewrite finished_not_running in E.
  - destruct (dur <? 0); [by eapply IH|]. destruct (caller th) as [[cur c]|]; [|by eapply IH].
    destruct (running th cur) eqn:E; [|by eapply IH].
    injection Hr as <- <-. apply finished_other; [|done]. intros ->. by rewrite finished_not_running in E.
  - destruct (caller th) as [[cur c]|]; [|by eapply IH]. injection Hr as <- <-. by apply finished_current, finished_fail.
  - destruct (_ && _); [injection Hr as <- <-; by apply finished_current, finished_other|]. eapply IH; [|exact Hr]. by apply finished_other.
  - destruct (bool_decide _); [|done]. injection Hr as <- <-. by apply finished_current, finished_other.
Qed.

Lemma resume_finished th id now a b c : finished th id -> exists rc, loom_coro_resume th id now a b c = Returned rc th /\ rc <> LOOMWORKS_CORO_OK.
Proof.
  intros (s & Hs & Hf). unfold loom_coro_resume, state_of in *. destruct (coros th !! id) as [co|]; [|done]. simpl in Hs. injection Hs as Hs.
  destruct (owner co =? self th)%nat, a; simpl; try by eexists. rewrite Hs, Hf. by eexists.
Qed.

Lemma switch_in_finished th id j c now a b rc th' :
  j <> id -> finished th id -> switch_in th j c now a b = Returned rc th' -> finished th' id.
Proof.
  intros Hne Hf. unfold switch_in. destruct (_ && negb a); [by intros [= _ <-]|]. destruct (_ && _); [by intros [= _ <-]|]. cbv zeta.
  set (t1 := if bool_decide (state c = LOOMWORKS_CORO_SLEEPING) then update th j (set_deadline 0) else th).
  assert (H1 : finished t1 id) by (unfold t1; case_if; [by apply finished_other|done]).
  destruct (negb b); [intros [= _ <-]; apply finished_other; [done|]; by apply finished_other|].
  apply run_body_finished; [done|]. case_if; [apply finished_current|]; by apply finished_other.
Qed.


(** *** Yielding *)

Definition yields (ts : list Z) : list call := CYield <$> ts.

(** Coroutine [id] can run its next calls: it has not started, or it is
    suspended and the thread's g_current still names it. *)
Definition ready_to_run (th : thread) (id : nat) (k : list call) (c : coroutine) : Prop :=
  coros th !! id = Some c /\ rest c = k /\ owner c = self th /\ max_execution_ns c = 0 /\
  (state c = LOOMWORKS_CORO_NEW \/ state c = LOOMWORKS_CORO_SUSPENDED /\ g_current th = Some id).

Definition suspended_at (th : thread) (id : nat) (k : list call) : Prop :=
  exists c, ready_to_run th id k c /\ state c = LOOMWORKS_CORO_SUSPENDED.

Lemma run_entry th id k c :
  ready_to_run th id k c ->
  exists th1 c1, loom_coro_resume th id 0 true true true = run_body id k th1 /\ g_current th1 = Some id /\
    coros th1 = <[id := c1]> (coros th) /\ state c1 = LOOMWORKS_CORO_RUNNING /\ owner c1 = self th1 /\ self th1 = self th /\ max_execution_ns c1 = 0.
Proof.
  intros (Hc & Hk & Ho & Hm & Hs). unfold loom_coro_resume. rewrite Hc, Ho, Nat.eqb_refl. simpl.
  assert (Hu : coros (update th id (set_state LOOMWORKS_CORO_RUNNING)) = <[id := set_state LOOMWORKS_CORO_RUNNING c]> (coros th)).
  { by apply alter_as_insert. }
  destruct Hs as [Hs|[Hs Hg]]; rewrite Hs; simpl; unfold switch_in; rewrite Hs; simpl; rewrite Hk; eexists _, (set_state LOOMWORKS_CORO_RUNNING c);
    (split; [reflexivity|]); split_and!; done.
Qed.

(** One turn of a body that yields, and the last one. *)
Lemma resume_yield th id y k c :
  ready_to_run th id (CYield y :: k) c ->
  exists th' c', do_op th (resume id) = Some (LOOMWORKS_CORO_OK, th') /\ ready_to_run th' id k c' /\ state c' = LOOMWORKS_CORO_SUSPENDED /\
    g_current th' = Some id /\ self th' = self th /\ forall j, j <> id -> coros th' !! j = coros th !! j.
Proof.
  intros H. destruct (run_entry th id _ c H) as (th1 & c1 & E & Hg & Hco & Hst & Ho & Hself & Hm).
  assert (Hl : coros th1 !! id = Some c1) by (by rewrite Hco, lookup_insert_eq).
  unfold do_op, resume. rewrite E. cbn [run_body]. unfold caller. rewrite Hg, Hl.
  assert (Hrun : running th1 id = true) by (unfold running, state_of; rewrite Hl; simpl; by rewrite Hst).
  rewrite Hrun. eexists _, (park (yield_state c1 y) k c1). split; [reflexivity|].
  assert (Hy : yield_state c1 y = LOOMWORKS_CORO_SUSPENDED) by (unfold yield_state, timed_out; by rewrite Hm).
  unfold ready_to_run. cbn [coros update]. rewrite (alter_as_insert _ _ _ _ Hl), lookup_insert_eq. simpl. rewrite Hy.
  split_and!; auto. intros j Hj. by rewrite Hco, !lookup_insert_ne.
Qed.

Lemma resume_last th id c :
  ready_to_run th id [] c ->
  exists th', do_op th (resume id) = Some (LOOMWORKS_CORO_OK, th') /\ finished th' id /\ state_of th' id = Some LOOMWORKS_CORO_DONE /\ g_current th' = None /\
    self th' = self th /\ (forall j, j <> id -> coros th' !! j = coros th !! j) /\
    do_op th' (resume id) = Some (LOOMWORKS_CORO_ERR_RUNNING, th').
Proof.
  intros H. destruct (run_entry th id _ c H) as (th1 & c1 & E & Hg & Hco & Hst & Ho & Hself & Hm).
  assert (Hl : coros th1 !! id = Some c1) by (by rewrite Hco, lookup_insert_eq).
  unfold do_op at 1, resume at 1. rewrite E. cbn [run_body]. eexists. split; [reflexivity|].
  assert (Hd : state_of (with_current (update th1 id (park LOOMWORKS_CORO_DONE [])) None) id = Some LOOMWORKS_CORO_DONE).
  { unfold state_of. cbn [coros with_current update]. by rewrite (alter_as_insert _ _ _ _ Hl), lookup_insert_eq. }
  split; [by eexists|]. split; [done|]. split; [done|]. split; [done|]. split.
  - intros j Hj. cbn [coros with_current update]. rewrite (alter_as_insert _ _ _ _ Hl), lookup_insert_ne, Hco, lookup_insert_ne by done. done.
  - unfold do_op, resume, loom_coro_resume. cbn [coros with_current update self].
    rewrite (alter_as_insert _ _ _ _ Hl), lookup_insert_eq. simpl. by rewrite Ho, Nat.eqb_refl.
Qed.

Lemma create_ready th id k :
  coros th !! id = None ->
  exists th' c, do_op th (OpCreate id k) = Some (LOOMWORKS_CORO_OK, th') /\ ready_to_run th' id k c /\ g_current th' = g_current th /\ self th' = self th /\
    state c = LOOMWORKS_CORO_NEW /\ forall j, j <> id -> coros th' !! j = coros th !! j.
Proof.
  intros Hn. simpl. rewrite Hn. eexists _, (new_coroutine th k). split; [reflexivity|]. unfold ready_to_run. simpl.
  rewrite lookup_insert_eq. split_and!; auto. intros j Hj. by rewrite lookup_insert_ne.
Qed.

Lemma do_ops_app th os os' :
  do_ops th (os ++ os') =
    match do_ops th os with
    | Some (r, th1) => match do_ops th1 os' with Some (r', th2) => Some (r ++ r', th2) | None => None end
    | None => None
    end.
Proof.
  revert th. induction os as [|o os IH]; intros th; [simpl; by destruct (do_ops th os') as [[? ?]|]|]. simpl.
  destruct (do_op th o) as [[rc th1]|]; [|done]. rewrite IH. destruct (do_ops th1 os) as [[r th2]|]; [|done].
  by destruct (do_ops th2 os') as [[r' th3]|].
Qed.

Lemma resume_all th id ts c :
  ready_to_run th id (yields ts) c ->
  exists th' c', do_ops th (replicate (length ts) (resume id)) = Some (replicate (length ts) LOOMWORKS_CORO_OK, th') /\
    ready_to_run th' id [] c' /\ (ts <> [] -> state c' = LOOMWORKS_CORO_SUSPENDED).
Proof.
  revert th c. induction ts as [|t ts IH]; intros th c H; [by exists th, c|].
  destruct (resume_yield th id t (yields ts) c H) as (th1 & c1 & E1 & H1 & Hs & _).
  destruct (IH th1 c1 H1) as (th2 & c2 & E2 & H2 & Hs2). exists th2, c2. cbn [length replicate do_ops]. rewrite E1, E2.
  split; [done|]. split; [done|]. intros _. destruct ts; [|by apply Hs2]. simpl in E2. by simplify_eq; destruct H1 as (L1 & _), H2 as (L2 & _); simplify_eq.
Qed.

(** A coroutine resumed on its own runs from one yield to the next: with
    a body of n yields, each of the first n resumes returns LOOMWORKS_CORO_OK
    and leaves it SUSPENDED, the next one runs it to its end and leaves it
    DONE, and every later one is refused with LOOMWORKS_CORO_ERR_RUNNING. *)
Theorem coro_one_yield_per_resume th id ts :
  coros th !! id = None ->
  exists th1 th2,
    do_ops th (OpCreate id (yields ts) :: replicate (length ts) (resume id)) = Some (replicate (S (length ts)) LOOMWORKS_CORO_OK, th1) /\
    (ts <> [] -> state_of th1 id = Some LOOMWORKS_CORO_SUSPENDED) /\
    do_op th1 (resume id) = Some (LOOMWORKS_CORO_OK, th2) /\ state_of th2 id = Some LOOMWORKS_CORO_DONE /\
    do_op th2 (resume id) = Some (LOOMWORKS_CORO_ERR_RUNNING, th2).
Proof.
  intros Hn. destruct (create_ready th id (yields ts) Hn) as (th0 & c0 & E0 & H0 & _).
  destruct (resume_all th0 id ts c0 H0) as (th1 & c1 & E1 & H1 & Hs1).
  destruct (resume_last th1 id c1 H1) as (th2 & E2 & Hf & Hd & _ & _ & _ & E3). exists th1, th2. split_and!; try done.
  - change (do_ops th (?o :: ?os)) with (match do_op th o with Some (rc, th') => match do_ops th' os with Some (rcs, th'') => Some (rc :: rcs, th'') | None => None end | None => None end).
    by rewrite E0, E1.
  - intros Hne. unfold state_of. rewrite (proj1 H1). simpl. by rewrite Hs1.
Qed.

Lemma coro_one_yield_per_resume_witness :
  exists th1 th2, do_ops (idle_thread 0) (OpCreate 7 (yields [1; 2]) :: replicate 2 (resume 7)) = Some (replicate 3 LOOMWORKS_CORO_OK, th1) /\
    do_op th1 (resume 7) = Some (LOOMWORKS_CORO_OK, th2) /\ state_of th2 7 = Some LOOMWORKS_CORO_DONE.
Proof.
  destruct (coro_one_yield_per_resume (idle_thread 0) 7 [1; 2] ltac:(reflexivity)) as (th1 & th2 & H1 & _ & H2 & H3 & _).
  exists th1, th2. exact (conj H1 (conj H2 H3)).
Defined.


(** A coroutine the thread's g_current does not name runs through all the
    yields it has left. *)
Lemma run_deaf id ts th :
  (match g_current th with Some cur => running th cur = false | None => True end) ->
  run_body id (yields ts) th = run_body id [] th.
Proof.
  intros Hg. induction ts as [|t ts IH]; [done|]. cbn [yields fmap list_fmap run_body]. unfold caller.
  destruct (g_current th) as [cur|]; [|done]. destruct (coros th !! cur); [|done]. by rewrite Hg.
Qed.

(** Resuming a suspended coroutine while g_current names another one, or none. *)
Lemma resume_deaf th id ts c :
  coros th !! id = Some c -> rest c = yields ts -> owner c = self th -> state c = LOOMWORKS_CORO_SUSPENDED ->
  (forall cur, g_current th = Some cur -> cur <> id /\ running th cur = false) ->
  exists th', do_op th (resume id) = Some (LOOMWORKS_CORO_OK, th') /\ state_of th' id = Some LOOMWORKS_CORO_DONE /\ g_current th' = None /\
    self th' = self th /\ forall j, j <> id -> coros th' !! j = coros th !! j.
Proof.
  intros Hc Hk Ho Hs Hg. unfold do_op, resume, loom_coro_resume. rewrite Hc, Ho, Nat.eqb_refl. simpl. rewrite Hs. simpl.
  unfold switch_in. rewrite Hs, Hk. simpl. rewrite run_deaf.
  - eexists. split; [reflexivity|]. unfold state_of. cbn [coros with_current update g_current self].
    rewrite (alter_as_insert _ _ _ _ Hc). rewrite (alter_as_insert _ (<[id:=_]> _) _ _ (lookup_insert_eq _ _ _)).
    split; [by rewrite lookup_insert_eq|]. split; [done|]. split; [done|]. intros j Hj. by rewrite !lookup_insert_ne.
  - simpl. destruct (g_current th) as [cur|] eqn:Ec; [|done]. destruct (Hg cur eq_refl) as [Hne Hr].
    unfold running, state_of in *. cbn [coros update]. by rewrite lookup_alter_ne.
Qed.

(** Two coroutines interleaved on one thread lose their yields: after
    each has started and yielded once, the next resume of either one runs it to
    its end, however many yields its body still has, because loom_coro_resume
    does not set g_current and loom_coro_yield then finds another coroutine (or
    none) there and returns at once. *)
Theorem interleaved_yields_ignored th a b xs ys x y :
  a <> b -> coros th !! a = None -> coros th !! b = None ->
  exists th', do_ops th [OpCreate a (yields (x :: xs)); OpCreate b (yields (y :: ys)); resume a; resume b; resume a; resume b] =
      Some (replicate 6 LOOMWORKS_CORO_OK, th') /\
    state_of th' a = Some LOOMWORKS_CORO_DONE /\ state_of th' b = Some LOOMWORKS_CORO_DONE.
Proof.
  intros Hab Ha Hb. destruct (create_ready th a (yields (x :: xs)) Ha) as (t1 & ca & E1 & Ra & _ & S1 & _ & K1).
  destruct (create_ready t1 b (yields (y :: ys)) ltac:(by rewrite K1)) as (t2 & cb & E2 & Rb & _ & S2 & Nb & K2).
  assert (Ra2 : ready_to_run t2 a (CYield x :: yields xs) ca).
  { destruct Ra as (L & R1 & R2 & R3 & R4). split; [by rewrite K2|]. split; [done|]. split; [by rewrite S2|]. split; [done|].
    destruct R4 as [R4|[R4 _]]; [by left|]. simpl in E1. rewrite Ha in E1. simplify_eq. simpl in L. rewrite lookup_insert_eq in L. by simplify_eq. }
  destruct (resume_yield t2 a x (yields xs) ca Ra2) as (t3 & ca3 & E3 & R3 & Sa & G3 & S3 & K3).
  assert (Rb3 : ready_to_run t3 b (CYield y :: yields ys) cb).
  { destruct Rb as (L & P1 & P2 & P3 & P4). split; [by rewrite K3|]. split; [done|]. split; [by rewrite S3|]. split; [done|by left]. }
  destruct (resume_yield t3 b y (yields ys) cb Rb3) as (t4 & cb4 & E4 & R4 & Sb & G4 & S4 & K4).
  destruct (resume_deaf t4 a xs ca3) as (t5 & E5 & D5 & G5 & S5 & K5).
  { rewrite K4 by done. apply R3. } { apply R3. } { rewrite S4. apply R3. } { done. }
  { intros cur Hc. rewrite G4 in Hc. injection Hc as <-. split; [done|]. unfold running, state_of. rewrite (proj1 R4). simpl. by rewrite Sb. }
  destruct (resume_deaf t5 b ys cb4) as (t6 & E6 & D6 & _ & _ & K6).
  { rewrite K5 by done. apply R4. } { apply R4. } { rewrite S5. apply R4. } { done. } { intros cur Hc. congruence. }
  exists t6. cbn [do_ops]. rewrite E1, E2, E3, E4, E5, E6. split_and!; try done.
  unfold state_of in *. by rewrite K6.
Qed.

Lemma interleaved_yields_ignored_witness :
  exists th', do_ops (idle_thread 0) [OpCreate 7 (yields [1; 2; 3]); OpCreate 8 (yields [1; 2; 3]); resume 7; resume 8; resume 7; resume 8] =
      Some (replicate 6 LOOMWORKS_CORO_OK, th') /\
    state_of th' 7 = Some LOOMWORKS_CORO_DONE /\ state_of th' 8 = Some LOOMWORKS_CORO_DONE.
Proof. exact (interleaved_yields_ignored (idle_thread 0) 7 8 [2; 3] [2; 3] 1 1 ltac:(discriminate) ltac:(reflexivity) ltac:(reflexivity)). Defined.
