(* ===== verification/CoroSched.v ===== *)
(** * Coroutine tasks on the pool (src/thread_pool.c: timer_thread_fn,
    ensure_timer_thread, coro_sleep_reg_hook, Step C0, the coroutine start and
    the two exits of worker_entry, the timer branches of loom_pool_cancel and
    loom_pool_cancel_by_id).

    A coroutine task belongs to the worker that started it.  While it is not
    being resumed it is in that worker's ready FIFO or in the timer heap; the
    heap appears through the behaviour Timer.v proves, a multiset whose due
    entries come out in deadline order.  Resuming a coroutine is one step; what
    the body did until it switched back (CoroExec.v) is part of the event. *)
From S2P Require Import Prelude Types.

(** What a resume came back with, and the state it left. *)
Inductive resumed :=
  | RSuspended                       (* OK, SUSPENDED *)
  | RSleeping (deadline : Z)         (* OK, SLEEPING, entry in the heap *)
  | RDone                            (* OK, DONE *)
  | RLimit                           (* OK, TIMEOUT; or ERROR after a refused registration *)
  | RFailed.                         (* any other code than OK and ERR_RUNNING *)

(** What the rest of the program sees. *)
Inductive note :=
  | Started (t : nat) | Completed (t : nat) | Failed (t : nat) | CancelNote (t : nat)   (* metric events *)
  | Resolved (t : nat) (rc : loom_result_t)                                            (* completion future *)
  | Torn (t : nat)                                                                     (* task_destroy *)
  | Leaked (t : nat).                (* coroutine object whose destroy was refused *)

#[export] Instance resumed_eq_dec : EqDecision resumed. Proof. solve_decision. Defined.
#[export] Instance note_eq_dec : EqDecision note. Proof. solve_decision. Defined.

(** A worker as far as coroutines are concerned. *)
Inductive cworker :=
  | CwLoop
  | CwLeaving                        (* displaced: ready FIFO torn down, heap scan to come *)
  | CwGone.

#[export] Instance cworker_eq_dec : EqDecision cworker. Proof. solve_decision. Defined.
#[export] Instance cworker_inhabited : Inhabited cworker := populate CwGone.

Record entry := mk_entry { e_deadline : Z; e_task : nat; e_worker : nat }.
#[export] Instance entry_eq_dec : EqDecision entry. Proof. solve_decision. Defined.

Record sched := mk_sched {
  ready : list (list nat);           (* coro_ready, per worker, head first *)
  heap : list entry;                 (* timer heap contents *)
  cworkers : list cworker;
  worker_count : nat;
  s_shutdown : bool;
  started : gset nat;                (* coroutine tasks a worker began *)
  owner_of : gmap nat nat;
  pending : gset nat;                (* tasks whose completion pointer is set *)
  marked : gset nat;                 (* tasks whose cancelled flag is set *)
  lost : list nat;                   (* in no queue any more, not torn down *)
  notes : list note;                 (* newest first *)
}.

Inductive sevent :=
  | SvStart (w t : nat) (future : bool) (create_ok node_ok : bool) (r : resumed)
  | SvResume (w : nat) (r : resumed)           (* Step C0 *)
  | SvTimer (now : Z) (i : nat) (calloc_ok push_ok : bool)  (* one turn of the drain loop; [i]: the root entry *)
  | SvCancel (t : nat) (calloc_ok : bool)      (* loom_pool_cancel_by_id, task in the heap *)
  | SvCancelData (d : ptr) (coro_of : nat -> ptr)   (* loom_pool_cancel; [coro_of]: user_data of a started coroutine task *)
  | SvShrink (n : nat)                         (* loom_pool_resize lowers worker_count *)
  | SvLeave (w : nat)                          (* displaced worker: its ready FIFO *)
  | SvLeaveHeap (w : nat)                      (* displaced worker: its heap entries, exit *)
  | SvShutdown
  | SvExit (w : nat).                          (* exit check of a shutting-down worker *)

Definition say (s : sched) (l : list note) : sched :=
  mk_sched (ready s) (heap s) (cworkers s) (worker_count s) (s_shutdown s) (started s) (owner_of s) (pending s) (marked s) (lost s) (l ++ notes s).
Definition set_ready (s : sched) (w : nat) (l : list nat) : sched :=
  mk_sched (<[w := l]> (ready s)) (heap s) (cworkers s) (worker_count s) (s_shutdown s) (started s) (owner_of s) (pending s) (marked s) (lost s) (notes s).
Definition set_heap (s : sched) (h : list entry) : sched :=
  mk_sched (ready s) h (cworkers s) (worker_count s) (s_shutdown s) (started s) (owner_of s) (pending s) (marked s) (lost s) (notes s).
Definition set_cworker (s : sched) (w : nat) (x : cworker) : sched :=
  mk_sched (ready s) (heap s) (<[w := x]> (cworkers s)) (worker_count s) (s_shutdown s) (started s) (owner_of s) (pending s) (marked s) (lost s) (notes s).
Definition set_lost (s : sched) (t : nat) : sched :=
  mk_sched (ready s) (heap s) (cworkers s) (worker_count s) (s_shutdown s) (started s) (owner_of s) (pending s) (marked s) (t :: lost s) (notes s).
Definition mark (s : sched) (t : nat) : sched :=
  mk_sched (ready s) (heap s) (cworkers s) (worker_count s) (s_shutdown s) (started s) (owner_of s) (pending s ∖ {[t]}) (marked s ∪ {[t]}) (lost s) (notes s).
Definition no_completion (s : sched) (ts : gset nat) : sched :=
  mk_sched (ready s) (heap s) (cworkers s) (worker_count s) (s_shutdown s) (started s) (owner_of s) (pending s ∖ ts) (marked s) (lost s) (notes s).

(** The end of the tail walk: append to worker [w]'s FIFO. *)
Definition push_ready (s : sched) (w t : nat) : sched := set_ready s w ((ready s !!! w) ++ [t]).

(** coro_future_mark_cancelled on a set completion pointer. *)
Definition cancel_future (s : sched) (t : nat) : list note := if bool_decide (t ∈ pending s) then [Resolved t LOOMWORKS_ERR_CANCELLED] else [].
Definition complete (s : sched) (t : nat) (rc : loom_result_t) : list note := if bool_decide (t ∈ pending s) then [Resolved t rc] else [].

(** A cancelled or abandoned coroutine: terminate, metric, future, destroy. *)
Definition teardown (s : sched) (t : nat) : sched := no_completion (say s (Torn t :: cancel_future s t ++ [CancelNote t])) {[t]}.

(** The coroutine part of worker_entry's dispatch. *)
Definition start_coro (s : sched) (w t : nat) (future create_ok node_ok : bool) (r : resumed) : sched :=
  let s0 := mk_sched (ready s) (heap s) (cworkers s) (worker_count s) (s_shutdown s) (started s ∪ {[t]}) (<[t := w]> (owner_of s))
              (if future then pending s ∪ {[t]} else pending s) (marked s) (lost s) (Started t :: notes s) in
  if negb create_ok then say s0 [Torn t]
  else match r with
       | RSuspended =>
           if node_ok then push_ready s0 w t
           else no_completion (say s0 (Torn t :: Leaked t :: complete s0 t LOOMWORKS_ERR_FAILED)) {[t]}
       | RSleeping d => set_heap s0 (mk_entry d t w :: heap s0)
       | RDone => no_completion (say s0 (Torn t :: complete s0 t LOOMWORKS_OK ++ [Completed t])) {[t]}
       | RLimit => say s0 [Torn t]
       | RFailed => no_completion (say s0 (Torn t :: complete s0 t LOOMWORKS_ERR_FAILED ++ [Failed t])) {[t]}
       end.

(** Step C0 on the head [t] of the FIFO, already unlinked. *)
Definition step_c0 (s : sched) (w t : nat) (r : resumed) : sched :=
  if bool_decide (t ∈ marked s) then teardown s t
  else match r with
       | RSuspended => push_ready s w t
       | RSleeping d => set_heap s (mk_entry d t w :: heap s)
       | RDone => say s [Torn t; Completed t]
       | RLimit => say s [Torn t]
       | RFailed => say s [Torn t; Failed t]
       end.

(** One turn of timer_thread_fn's drain loop on the root [e] of the heap. *)
Definition drain_turn (s : sched) (i : nat) (e : entry) (calloc_ok push_ok : bool) : sched :=
  let s1 := set_heap s (delete i (heap s)) in
  if negb calloc_ok then if push_ok then set_heap s1 (e :: heap s1) else set_lost s1 (e_task e)
  else if (e_worker e <? length (ready s))%nat then push_ready s1 (e_worker e) (e_task e) else set_lost s1 (e_task e).

(** The timer branch of loom_pool_cancel_by_id. *)
Definition cancel_sleeping (s : sched) (i : nat) (e : entry) (calloc_ok : bool) : sched :=
  let s1 := say (mark (set_heap s (delete i (heap s))) (e_task e)) (CancelNote (e_task e) :: cancel_future s (e_task e)) in
  if calloc_ok then push_ready s1 (e_worker e) (e_task e) else set_lost s1 (e_task e).

(** The timer branch of loom_pool_cancel: the entry stays in the heap until its
    deadline. *)
Definition cancel_sleeping_data (s : sched) (e : entry) : sched :=
  say (mark s (e_task e)) (CancelNote (e_task e) :: cancel_future s (e_task e)).

Definition sstep (s : sched) (ev : sevent) : option sched :=
  match ev with
  | SvStart w t future create_ok node_ok r =>
      if bool_decide (cworkers s !! w = Some CwLoop) && bool_decide (t ∉ started s)
      then Some (start_coro s w t future create_ok node_ok r) else None
  | SvResume w r =>
      match cworkers s !! w, ready s !!! w with
      | Some CwLoop, t :: l => Some (step_c0 (set_ready s w l) w t r)
      | _, _ => None
      end
  | SvTimer now i calloc_ok push_ok =>
      match heap s !! i with
      | Some e =>
          if (e_deadline e <=? now) && forallb (fun e' => e_deadline e <=? e_deadline e') (heap s)
          then Some (drain_turn s i e calloc_ok push_ok) else None
      | None => None
      end
  | SvCancel t calloc_ok =>
      if s_shutdown s then None
      else match list_find (fun e => e_task e = t) (heap s) with
           | Some (i, e) => Some (cancel_sleeping s i e calloc_ok)
           | None => None
           end
  | SvCancelData d coro_of =>
      if s_shutdown s then None
      else match list_find (fun e => coro_of (e_task e) = d) (heap s) with
           | Some (_, e) => Some (cancel_sleeping_data s e)
           | None => None
           end
  | SvShrink n => if s_shutdown s then None else Some (mk_sched (ready s) (heap s) (cworkers s) n (s_shutdown s) (started s) (owner_of s) (pending s) (marked s) (lost s) (notes s))
  | SvLeave w =>
      if bool_decide (cworkers s !! w = Some CwLoop) && (worker_count s <=? w)%nat && negb (s_shutdown s)
      then Some (set_cworker (foldl teardown (set_ready s w []) (ready s !!! w)) w CwLeaving) else None
  | SvLeaveHeap w =>
      if bool_decide (cworkers s !! w = Some CwLeaving)
      then Some (set_cworker (foldl teardown (set_heap s (filter (fun e => e_worker e <> w) (heap s)))
                   (e_task <$> filter (fun e => e_worker e = w) (heap s))) w CwGone)
      else None
  | SvShutdown => Some (mk_sched (ready s) (heap s) (cworkers s) (worker_count s) true (started s) (owner_of s) (pending s) (marked s) (lost s) (notes s))
  | SvExit w =>
      if bool_decide (cworkers s !! w = Some CwLoop) && s_shutdown s && bool_decide (heap s = []) && bool_decide (ready s !!! w = [])
      then Some (set_cworker s w CwGone) else None
  end.

Fixpoint srun (s : sched) (evs : list sevent) : option sched :=
  match evs with
  | [] => Some s
  | ev :: evs => match sstep s ev with Some s' => srun s' evs | None => None end
  end.

Definition sched_start (n : nat) : sched := mk_sched (replicate n []) [] (replicate n CwLoop) n false ∅ ∅ ∅ ∅ [] [].

(** ** Where the coroutine tasks are *)

Definition torn_of (x : note) : list nat := match x with Torn t => [t] | _ => [] end.
Definition torn (l : list note) : list nat := concat (torn_of <$> l).

(** Every coroutine task a worker began, by where it is now. *)
Definition places (s : sched) : list nat := concat (ready s) ++ (e_task <$> heap s) ++ lost s ++ torn (notes s).

Record sinv (s : sched) : Prop := {
  si_ready : length (ready s) = length (cworkers s);
  si_nodup : NoDup (places s);
  si_all : forall t, t ∈ started s <-> t ∈ places s;
  si_own : forall w t, t ∈ ready s !!! w -> owner_of s !! t = Some w;
  si_heap : forall e, e ∈ heap s -> owner_of s !! e_task e = Some (e_worker e) /\ (e_worker e < length (ready s))%nat;
}.

Lemma torn_app l l' : torn (l ++ l') = torn l ++ torn l'.
Proof. unfold torn. by rewrite fmap_app, concat_app. Qed.

Lemma torn_cons x l : torn (x :: l) = torn_of x ++ torn l.
Proof. done. Qed.

Lemma torn_cancel_future s t : torn (cancel_future s t) = [].
Proof. unfold cancel_future. by case_bool_decide. Qed.
Lemma torn_complete s t rc : torn (complete s t rc) = [].
Proof. unfold complete. by case_bool_decide. Qed.

(** The fields the placement depends on. *)
Definition same_queues (s s' : sched) : Prop :=
  ready s' = ready s /\ heap s' = heap s /\ lost s' = lost s /\ started s' = started s /\ owner_of s' = owner_of s /\
  length (cworkers s') = length (cworkers s).

Lemma sinv_intro s s' :
  sinv s -> length (ready s') = length (cworkers s') -> places s' ≡ₚ places s -> started s' = started s ->
  (forall w t, t ∈ ready s' !!! w -> owner_of s' !! t = Some w) ->
  (forall e, e ∈ heap s' -> owner_of s' !! e_task e = Some (e_worker e) /\ (e_worker e < length (ready s'))%nat) -> sinv s'.
Proof. intros [H1 H2 H3 H4 H5] L P St O He. split; auto; [by rewrite P|]. intros t. by rewrite St, P. Qed.

Lemma ready_push (R : list (list nat)) w l : (w < length R)%nat -> concat (<[w := (R !!! w) ++ l]> R) ≡ₚ l ++ concat R.
Proof.
  intros Hw. destruct (lookup_lt_is_Some_2 R w Hw) as [x Hx]. rewrite (list_lookup_total_correct _ _ _ Hx).
  pose proof (concat_insert R w x (x ++ l) Hx) as P. rewrite <- app_assoc in P. by apply Permutation_app_inv_l in P.
Qed.

Lemma ready_take (R : list (list nat)) w l l' : (w < length R)%nat -> R !!! w = l ++ l' -> concat R ≡ₚ l ++ concat (<[w := l']> R).
Proof.
  intros Hw E. destruct (lookup_lt_is_Some_2 R w Hw) as [x Hx]. rewrite (list_lookup_total_correct _ _ _ Hx) in E. subst.
  pose proof (concat_insert R w _ l' Hx) as P. pcount.
Qed.

Lemma elem_ready_insert (R : list (list nat)) w l w' t : t ∈ (<[w := l]> R) !!! w' -> w' = w /\ t ∈ l \/ t ∈ R !!! w'.
Proof.
  destruct (decide (w' = w)) as [-> |Hne]; [|rewrite array_read_insert_ne by done; by right].
  destruct (decide (w < length R)%nat); [rewrite array_read_insert_eq by done; by left|rewrite list_insert_ge by lia; by right].
Qed.

(** Teardowns only move tasks into the log. *)
Lemma teardown_frame s t : same_queues s (teardown s t) /\ places (teardown s t) ≡ₚ t :: places s.
Proof.
  split; [done|]. unfold teardown, places. simpl.
  rewrite torn_cons, !torn_app, torn_cancel_future. simpl. pcount.
Qed.

Lemma teardown_all ts s : same_queues s (foldl teardown s ts) /\ places (foldl teardown s ts) ≡ₚ ts ++ places s.
Proof.
  revert s. induction ts as [|t ts IH]; intros s; [done|]. simpl. destruct (IH (teardown s t)) as [(E1 & E2 & E3 & E4 & E5 & E6) P].
  destruct (teardown_frame s t) as [(F1 & F2 & F3 & F4 & F5 & F6) Q]. split.
  - repeat split; congruence.
  - rewrite P, Q. by rewrite <- Permutation_middle.
Qed.

Lemma same_lengths s s' : same_queues s s' -> length (ready s) = length (cworkers s) -> length (ready s') = length (cworkers s').
Proof. intros (-> & _ & _ & _ & _ & ->). done. Qed.

(** A task leaves the queues for the log, or moves between the queues. *)
Lemma push_ready_inv s0 s w t :
  sinv s0 -> (w < length (ready s))%nat -> t :: places s ≡ₚ places s0 -> started s = started s0 -> length (ready s) = length (cworkers s) ->
  (forall w t, t ∈ ready s !!! w -> owner_of s !! t = Some w) ->
  (forall e, e ∈ heap s -> owner_of s !! e_task e = Some (e_worker e) /\ (e_worker e < length (ready s))%nat) ->
  owner_of s !! t = Some w -> sinv (push_ready s w t).
Proof.
  intros H Hw P St L O He Ho. apply (sinv_intro s0); simpl; auto.
  - by rewrite length_insert.
  - rewrite <- P. unfold places. simpl. pose proof (ready_push (ready s) w [t] Hw). pcount.
  - intros w' u Hu. apply elem_ready_insert in Hu as [[-> Hu]|Hu]; [|by apply O].
    apply elem_of_app in Hu as [Hu| ->%list_elem_of_singleton]; [by apply O|done].
  - intros e Hin. rewrite length_insert. by apply He.
Qed.

Lemma push_heap_inv s0 s w t d :
  sinv s0 -> (w < length (ready s))%nat -> t :: places s ≡ₚ places s0 -> started s = started s0 -> length (ready s) = length (cworkers s) ->
  (forall w t, t ∈ ready s !!! w -> owner_of s !! t = Some w) ->
  (forall e, e ∈ heap s -> owner_of s !! e_task e = Some (e_worker e) /\ (e_worker e < length (ready s))%nat) ->
  owner_of s !! t = Some w -> sinv (set_heap s (mk_entry d t w :: heap s)).
Proof.
  intros H Hw P St L O He Ho. apply (sinv_intro s0); simpl; auto.
  - rewrite <- P. unfold places. csimpl. pcount.
  - intros e [-> |Hin]%elem_of_cons; [done|by apply He].
Qed.

Lemma log_inv s0 s l t :
  sinv s0 -> t :: places s ≡ₚ places s0 -> started s = started s0 -> length (ready s) = length (cworkers s) ->
  (forall w t, t ∈ ready s !!! w -> owner_of s !! t = Some w) ->
  (forall e, e ∈ heap s -> owner_of s !! e_task e = Some (e_worker e) /\ (e_worker e < length (ready s))%nat) ->
  torn l = [t] -> sinv (say s l).
Proof.
  intros H P St L O He Ht. apply (sinv_intro s0); simpl; auto. rewrite <- P. unfold places. simpl. rewrite torn_app, Ht. pcount.
Qed.

(** A task taken out of the queues of [s0] into the hands of the worker. *)
Record hands (s0 s : sched) (t : nat) : Prop := {
  h_inv : sinv s0;
  h_places : t :: places s ≡ₚ places s0;
  h_started : started s = started s0;
  h_len : length (ready s) = length (cworkers s);
  h_own : forall w t, t ∈ ready s !!! w -> owner_of s !! t = Some w;
  h_heap : forall e, e ∈ heap s -> owner_of s !! e_task e = Some (e_worker e) /\ (e_worker e < length (ready s))%nat;
}.

Lemma hands_ready s0 s t w : hands s0 s t -> (w < length (ready s))%nat -> owner_of s !! t = Some w -> sinv (push_ready s w t).
Proof. intros [] ? ?. by eapply push_ready_inv. Qed.
Lemma hands_heap s0 s t w d : hands s0 s t -> (w < length (ready s))%nat -> owner_of s !! t = Some w -> sinv (set_heap s (mk_entry d t w :: heap s)).
Proof. intros [] ? ?. by eapply push_heap_inv. Qed.
Lemma hands_log s0 s t l : hands s0 s t -> torn l = [t] -> sinv (say s l).
Proof. intros [] ?. by eapply log_inv. Qed.
Lemma hands_lost s0 s t : hands s0 s t -> sinv (set_lost s t).
Proof.
  intros [H P St L O He]. apply (sinv_intro s0); simpl; auto. rewrite <- P. unfold places. simpl. pcount.
Qed.
Lemma sinv_no_completion s ts : sinv s -> sinv (no_completion s ts).
Proof. intros [H1 H2 H3 H4 H5]. by split. Qed.

(** What is neither in a queue nor in the log does not matter. *)
Lemma hands_frame s0 s s' t :
  hands s0 s t -> ready s' = ready s -> heap s' = heap s -> lost s' = lost s -> torn (notes s') = torn (notes s) ->
  started s' = started s -> owner_of s' = owner_of s -> cworkers s' = cworkers s -> hands s0 s' t.
Proof.
  intros [H P St L O He] E1 E2 E3 E4 E5 E6 E7. split; rewrite ?E1, ?E2, ?E5, ?E6, ?E7; auto.
  unfold places in *. by rewrite E1, E2, E3, E4.
Qed.

Lemma hands_pop s w t l :
  sinv s -> (w < length (ready s))%nat -> ready s !!! w = t :: l -> hands s (set_ready s w l) t /\ owner_of s !! t = Some w.
Proof.
  intros H Hw E. pose proof H as [H1 H2 H3 H4 H5]. split; [|apply H4; rewrite E; by left].
  split; simpl; auto.
  - unfold places. simpl. pose proof (ready_take (ready s) w [t] l Hw E). pcount.
  - by rewrite length_insert.
  - intros w' u Hu. apply elem_ready_insert in Hu as [[-> Hu]|Hu]; [apply H4; rewrite E; by right|by apply H4].
  - intros e He. rewrite length_insert. by apply H5.
Qed.

Lemma hands_unheap s i e : sinv s -> heap s !! i = Some e -> hands s (set_heap s (delete i (heap s))) (e_task e).
Proof.
  intros H Hi. pose proof H as [H1 H2 H3 H4 H5]. pose proof (delete_Permutation _ _ _ Hi) as Hp. split; simpl; auto.
  - unfold places. simpl. assert (Hf : e_task <$> heap s ≡ₚ e_task e :: (e_task <$> delete i (heap s))) by (by rewrite Hp at 1). pcount.
  - intros x Hx. apply H5. rewrite Hp. by right.
Qed.

Lemma start_inv s w t future c n r :
  sinv s -> (w < length (ready s))%nat -> (t ∉ started s) -> sinv (start_coro s w t future c n r).
Proof.
  intros H Hw Hn. pose proof H as [H1 H2 H3 H4 H5]. unfold start_coro. cbv zeta.
  set (s0 := mk_sched (ready s) (heap s) (cworkers s) (worker_count s) (s_shutdown s) (started s ∪ {[t]}) (<[t := w]> (owner_of s))
              (if future then pending s ∪ {[t]} else pending s) (marked s) (lost s) (Started t :: notes s)).
  assert (Hnp : t ∉ places s) by (by rewrite <- H3).
  assert (Hold : forall u, u ∈ places s -> <[t := w]> (owner_of s) !! u = owner_of s !! u) by (intros u Hu; rewrite lookup_insert_ne; [done|by intros ->]).
  assert (Hro : forall w' u, u ∈ ready s !!! w' -> u ∈ places s).
  { intros w' u Hu. unfold places. apply elem_of_app. left. destruct (decide (w' < length (ready s))%nat) as [Hl|Hl].
    - destruct (lookup_lt_is_Some_2 _ _ Hl) as [x Hx]. rewrite (list_lookup_total_correct _ _ _ Hx) in Hu.
      apply list_elem_of_In, in_concat. exists x. split; apply list_elem_of_In; [by eapply list_elem_of_lookup_2|done].
    - rewrite list_lookup_total_alt, lookup_ge_None_2 in Hu by lia. by apply not_elem_of_nil in Hu. }
  (* as if the task had been in a queue *)
  set (sv := mk_sched (ready s) (heap s) (cworkers s) (worker_count s) (s_shutdown s) (started s ∪ {[t]}) (<[t := w]> (owner_of s))
              (pending s) (marked s) (t :: lost s) (notes s)).
  assert (Hsv : sinv sv).
  { assert (P : places sv ≡ₚ t :: places s) by (unfold places; simpl; pcount).
    split; simpl; auto.
    - rewrite P. by apply NoDup_cons.
    - intros u. rewrite P, elem_of_union, elem_of_singleton, elem_of_cons, H3. tauto.
    - intros w' u Hu. rewrite Hold by (by eapply Hro). by apply H4.
    - intros e He. rewrite Hold; [by apply H5|]. unfold places. rewrite !elem_of_app. right; left. by apply list_elem_of_fmap_2. }
  assert (Hh : hands sv s0 t).
  { split; simpl; auto; [|apply Hsv..]. unfold places. simpl. rewrite torn_cons. simpl. pcount. }
  assert (Ho : owner_of s0 !! t = Some w) by (simpl; by rewrite lookup_insert_eq).
  destruct c; simpl; [|by eapply hands_log]. destruct r.
  - destruct n; [by eapply hands_ready|]. apply sinv_no_completion. eapply hands_log; [done|]. by rewrite !torn_cons, torn_complete.
  - exact (hands_heap sv s0 t w _ Hh Hw Ho).
  - apply sinv_no_completion. eapply hands_log; [done|]. by rewrite torn_cons, torn_app, torn_complete.
  - by eapply hands_log.
  - apply sinv_no_completion. eapply hands_log; [done|]. by rewrite torn_cons, torn_app, torn_complete.
Qed.

Lemma c0_inv s0 s w t r :
  hands s0 s t -> (w < length (ready s))%nat -> owner_of s !! t = Some w -> sinv (step_c0 s w t r).
Proof.
  intros Hh Hw Ho. unfold step_c0. case_bool_decide.
  - unfold teardown. apply sinv_no_completion. eapply hands_log; [done|]. by rewrite torn_cons, torn_app, torn_cancel_future.
  - destruct r; [by eapply hands_ready|by eapply hands_heap|by eapply hands_log..].
Qed.

Lemma set_cworker_inv s w x : sinv s -> sinv (set_cworker s w x).
Proof. intros H. pose proof H as [H1 H2 H3 H4 H5]. apply (sinv_intro s); auto. simpl. by rewrite length_insert. Qed.

(** Tasks taken out of the queues and torn down, one after the other. *)
Lemma teardown_inv s0 s ts :
  sinv s0 -> ts ++ places s ≡ₚ places s0 -> started s = started s0 -> length (ready s) = length (cworkers s) ->
  (forall w t, t ∈ ready s !!! w -> owner_of s !! t = Some w) ->
  (forall e, e ∈ heap s -> owner_of s !! e_task e = Some (e_worker e) /\ (e_worker e < length (ready s))%nat) ->
  sinv (foldl teardown s ts).
Proof.
  intros H P St L O He. destruct (teardown_all ts s) as [Hsq Q]. pose proof (same_lengths _ _ Hsq L) as L'.
  destruct Hsq as (E1 & E2 & E3 & E4 & E5 & E6). apply (sinv_intro s0); auto.
  - by rewrite Q.
  - congruence.
  - by rewrite E1, E5.
  - by rewrite E1, E2, E5.
Qed.

Lemma sinv_step s ev s' : sinv s -> sstep s ev = Some s' -> sinv s'.
Proof.
  intros H Hs. pose proof H as [H1 H2 H3 H4 H5]. destruct ev; simpl in Hs.
  - destruct (_ && _) eqn:E; simplify_eq. apply andb_prop in E as [Ew Et]. apply bool_decide_eq_true in Ew. apply bool_decide_eq_true in Et.
    apply start_inv; auto. rewrite H1. by eapply lookup_lt_Some.
  - destruct (cworkers s !! w) as [[]|] eqn:Ew; try done. destruct (ready s !!! w) as [|t l] eqn:Er; simplify_eq.
    assert (Hw : (w < length (ready s))%nat) by (rewrite H1; by eapply lookup_lt_Some).
    destruct (hands_pop s w t l H Hw Er) as [Hh Ho]. eapply c0_inv; [done| |done]. simpl. by rewrite length_insert.
  - destruct (heap s !! i) as [e|] eqn:Ei; [|done]. destruct (_ && _); simplify_eq.
    pose proof (hands_unheap s i e H Ei) as Hh. destruct (H5 e) as [Ho Hb]; [by eapply list_elem_of_lookup_2|].
    unfold drain_turn. cbv zeta. destruct calloc_ok; simpl.
    + destruct (Nat.ltb_spec (e_worker e) (length (ready s))); [|lia]. by eapply hands_ready.
    + destruct push_ok; [|by eapply hands_lost]. destruct e. by eapply (hands_heap s (set_heap s (delete i (heap s)))).
  - destruct (s_shutdown s); [done|]. destruct (list_find _ _) as [[i e]|] eqn:Ef; simplify_eq.
    apply list_find_Some in Ef as (Ei & <- & _). pose proof (hands_unheap s i e H Ei) as Hh.
    destruct (H5 e) as [Ho Hb]; [by eapply list_elem_of_lookup_2|].
    unfold cancel_sleeping. cbv zeta. set (s1 := say _ _).
    assert (Hh1 : hands s s1 (e_task e)).
    { eapply hands_frame; [exact Hh|..]; try done. unfold s1. simpl. rewrite torn_cons, torn_app, torn_cancel_future. done. }
    destruct calloc_ok; [by eapply hands_ready|by eapply hands_lost].
  - destruct (s_shutdown s); [done|]. destruct (list_find _ _) as [[i e]|]; simplify_eq. apply (sinv_intro s); auto.
    unfold places, cancel_sleeping_data. simpl. rewrite torn_cons, torn_app, torn_cancel_future. done.
  - destruct (s_shutdown s); simplify_eq. by apply (sinv_intro s).
  - destruct (_ && _) eqn:E; simplify_eq. apply andb_prop in E as [E _]. apply andb_prop in E as [Ew _]. apply bool_decide_eq_true in Ew.
    assert (Hw : (w < length (ready s))%nat) by (rewrite H1; by eapply lookup_lt_Some).
    apply set_cworker_inv, (teardown_inv s); simpl; auto.
    + unfold places. simpl. pose proof (ready_take (ready s) w (ready s !!! w) [] Hw ltac:(by rewrite app_nil_r)). pcount.
    + by rewrite length_insert.
    + intros w' u Hu. apply elem_ready_insert in Hu as [[_ Hu]|Hu]; [by apply not_elem_of_nil in Hu|by apply H4].
    + intros e He. rewrite length_insert. by apply H5.
  - destruct (bool_decide _); simplify_eq. apply set_cworker_inv, (teardown_inv s); simpl; auto.
    + unfold places. simpl.
      assert (Hf : e_task <$> heap s ≡ₚ (e_task <$> filter (fun e => e_worker e = w) (heap s)) ++ (e_task <$> filter (fun e => e_worker e <> w) (heap s))).
      { rewrite <- fmap_app. apply fmap_Permutation. symmetry. apply filter_app_complement. }
      pcount.
    + intros e He. apply list_elem_of_filter in He as [_ He]. by apply H5.
  - simplify_eq. by apply (sinv_intro s).
  - destruct (_ && _); simplify_eq. by apply set_cworker_inv.
Qed.

Lemma srun_ind (P : sched -> Prop) (ok : sevent -> Prop) :
  (forall s ev s', P s -> ok ev -> sstep s ev = Some s' -> P s') ->
  forall evs s s', P s -> Forall ok evs -> srun s evs = Some s' -> P s'.
Proof.
  intros Hstep evs s s' H Hok. revert s H. induction Hok as [|ev evs Hev _ IH]; intros s H Hr; simpl in Hr; [by simplify_eq|].
  destruct (sstep s ev) eqn:Es; [|done]. eapply IH; [|exact Hr]. by eapply Hstep.
Qed.

Lemma ready_start n w : replicate n ([] : list nat) !!! w = [].
Proof.
  destruct (decide (w < n)%nat); [by apply lookup_total_replicate_2|]. rewrite list_lookup_total_alt, lookup_ge_None_2; [done|]. rewrite length_replicate. lia.
Qed.

Lemma sinv_start n : sinv (sched_start n).
Proof.
  assert (Hc : concat (replicate n ([] : list nat)) = []) by (by induction n).
  split; simpl; unfold places; simpl; rewrite ?Hc.
  - by rewrite !length_replicate.
  - constructor.
  - intros t. simpl. rewrite elem_of_empty, elem_of_nil. done.
  - intros w t Ht. rewrite ready_start in Ht. by apply not_elem_of_nil in Ht.
  - intros e He. by apply not_elem_of_nil in He.
Qed.

Lemma sinv_run n evs s : srun (sched_start n) evs = Some s -> sinv s.
Proof.
  intros Hr. eapply (srun_ind sinv (fun _ => True)); [|apply sinv_start|by apply Forall_true|exact Hr]. intros; by eapply sinv_step.
Qed.

Lemma occ_one (l : list nat) t : NoDup l -> t ∈ l -> occ t l = 1%nat.
Proof. intros Hn Ht. apply NoDup_ListNoDup in Hn. apply list_elem_of_In in Ht. by apply NoDup_count_occ'. Qed.


Definition coro_demo : list sevent :=
  [SvStart 0 7 true true true RSuspended; SvStart 1 8 true true true (RSleeping 50); SvResume 0 (RSleeping 20); SvTimer 30 0 true true].


(** ** Shutdown *)

(** Events of a run in which no worker is displaced and memory suffices. *)
Definition steady (ev : sevent) : Prop :=
  match ev with SvLeave _ => False | SvTimer _ _ calloc_ok _ | SvCancel _ calloc_ok => calloc_ok = true | _ => True end.

Definition left_clean (s : sched) : Prop :=
  lost s = [] /\ forall w, cworkers s !! w <> Some CwLeaving /\
  (cworkers s !! w = Some CwGone -> ready s !!! w = [] /\ forall e, e ∈ heap s -> e_worker e <> w).

Lemma clean_push s w t :
  lost s = [] -> (forall w, cworkers s !! w <> Some CwLeaving /\ (cworkers s !! w = Some CwGone -> ready s !!! w = [] /\ forall e, e ∈ heap s -> e_worker e <> w)) ->
  cworkers s !! w <> Some CwGone -> left_clean (push_ready s w t).
Proof.
  intros Hl Hc Hw. split; [done|]. intros v. destruct (Hc v) as [Hc1 Hc2]. split; [done|]. simpl. intros Hg. destruct (Hc2 Hg) as [Hr He].
  split; [|done]. rewrite array_read_insert_ne; [done|]. by intros ->.
Qed.

Lemma left_clean_step s ev s' : sinv s -> left_clean s -> steady ev -> sstep s ev = Some s' -> left_clean s'.
Proof.
  intros Hi Hc Hev Hs. pose proof Hc as [Hl Hw]. pose proof Hi as [H1 _ _ _ H5]. destruct ev; simpl in Hs, Hev; try done.
  - destruct (_ && _) eqn:E; simplify_eq. apply andb_prop in E as [Ew _]. apply bool_decide_eq_true in Ew. unfold start_coro. cbv zeta.
    destruct create_ok; simpl; [|done]. destruct r; try done.
    + destruct node_ok; [|done]. apply clean_push; simpl; auto. congruence.
    + split; [done|]. intros v. destruct (Hw v) as [Hc1 Hc2]. split; [done|]. simpl. intros Hg. destruct (Hc2 Hg) as [Hr He].
      split; [done|]. intros e [-> |Hin]%elem_of_cons; [simpl; congruence|by apply He].
  - destruct (cworkers s !! w) as [[]|] eqn:Ew; try done. destruct (ready s !!! w) as [|t l] eqn:Er; simplify_eq.
    assert (Hc' : left_clean (set_ready s w l)).
    { split; [done|]. intros v. destruct (Hw v) as [Hc1 Hc2]. split; [done|]. simpl. intros Hg. destruct (Hc2 Hg) as [Hr He]. split; [|done].
      rewrite array_read_insert_ne; [done|]. congruence. }
    unfold step_c0. case_bool_decide; [done|]. destruct r; try done.
    + destruct Hc' as [Ha Hb]. apply clean_push; auto. simpl. congruence.
    + destruct Hc' as [Ha Hb]. split; [done|]. intros v. destruct (Hb v) as [Hc1 Hc2]. split; [done|]. simpl in *. intros Hg. destruct (Hc2 Hg) as [Hr He].
      split; [done|]. intros e [-> |Hin]%elem_of_cons; [simpl; congruence|by apply He].
  - destruct (heap s !! i) as [e|] eqn:Ei; [|done]. destruct (_ && _); simplify_eq. pose proof (list_elem_of_lookup_2 _ _ _ Ei) as Hin.
    unfold drain_turn. simpl. destruct (H5 e Hin) as [_ Hb]. destruct (Nat.ltb_spec (e_worker e) (length (ready s))); [|lia].
    apply clean_push; simpl; auto.
    + intros v. destruct (Hw v) as [Hc1 Hc2]. split; [done|]. intros Hg. destruct (Hc2 Hg) as [Hr He]. split; [done|].
      intros e' He'. apply He. rewrite (delete_Permutation _ _ _ Ei). by right.
    + intros Hg. destruct (Hw (e_worker e)) as [_ Hc2]. by apply (proj2 (Hc2 Hg) e).
  - destruct (s_shutdown s); [done|]. destruct (list_find _ _) as [[i e]|] eqn:Ef; simplify_eq.
    apply list_find_Some in Ef as (Ei & <- & _). pose proof (list_elem_of_lookup_2 _ _ _ Ei) as Hin.
    unfold cancel_sleeping. apply clean_push; simpl; auto.
    + intros v. destruct (Hw v) as [Hc1 Hc2]. split; [done|]. intros Hg. destruct (Hc2 Hg) as [Hr He]. split; [done|].
      intros e' He'. apply He. rewrite (delete_Permutation _ _ _ Ei). by right.
    + intros Hg. destruct (Hw (e_worker e)) as [_ Hc2]. by apply (proj2 (Hc2 Hg) e).
  - destruct (s_shutdown s); [done|]. by destruct (list_find _ _) as [[i e]|]; simplify_eq.
  - destruct (s_shutdown s); simplify_eq. done.
  - destruct (bool_decide _) eqn:E; simplify_eq. apply bool_decide_eq_true in E. by destruct (Hw w).
  - by simplify_eq.
  - destruct (_ && _) eqn:E; simplify_eq. apply andb_prop in E as [E E4]. apply andb_prop in E as [E E3]. apply andb_prop in E as [E1 E2].
    apply bool_decide_eq_true in E1. apply bool_decide_eq_true in E3. apply bool_decide_eq_true in E4.
    split; [done|]. intros v. simpl. destruct (decide (v = w)) as [-> |Hne].
    + rewrite list_lookup_insert_eq by (by eapply lookup_lt_Some). split; [done|]. intros _. split; [done|]. rewrite E3. intros e He. by apply not_elem_of_nil in He.
    + rewrite list_lookup_insert_ne by done. apply Hw.
Qed.

(** C35. Shutdown leaves no coroutine behind: when no worker is displaced and
    no allocation fails, a worker that left has neither ready nor sleeping
    coroutines, and once all have left, every coroutine task that was ever begun
    has been torn down. *)
Theorem coro_shutdown_drains n evs s :
  srun (sched_start n) evs = Some s -> Forall steady evs ->
  (forall w, cworkers s !! w = Some CwGone -> ready s !!! w = [] /\ forall e, e ∈ heap s -> e_worker e <> w) /\
  ((forall w, (w < length (cworkers s))%nat -> cworkers s !! w = Some CwGone) -> forall t, t ∈ started s -> Torn t ∈ notes s).
Proof.
  intros Hr Hok.
  assert (H : sinv s /\ left_clean s).
  { refine (srun_ind (fun s => sinv s /\ left_clean s) steady _ evs _ s _ Hok Hr).
    - intros s0 ev s1 (Hi & Hc) Hev Hs. split; [by eapply sinv_step|by eapply left_clean_step].
    - split; [apply sinv_start|]. split; [done|]. intros w. simpl.
      split; intros E; apply lookup_replicate in E as [E _]; discriminate. }
  destruct H as (Hi & Hl & Hc). split; [intros w; apply Hc|]. intros Hall t Ht. apply (si_all s Hi) in Ht.
  assert (Hrd : concat (ready s) = []).
  { apply concat_nil_Forall, Forall_lookup. intros w l Hlk. pose proof (lookup_lt_Some _ _ _ Hlk) as Hw. rewrite (si_ready s Hi) in Hw.
    destruct (proj2 (Hc w) (Hall w Hw)) as [E _]. by rewrite (list_lookup_total_correct _ _ _ Hlk) in E. }
  assert (Hh : heap s = []).
  { destruct (heap s) as [|e h] eqn:E; [done|exfalso]. assert (He : e ∈ heap s) by (rewrite E; by left).
    destruct (si_heap s Hi e He) as [_ Hb]. rewrite (si_ready s Hi) in Hb. by destruct (proj2 (Hc _) (Hall _ Hb)) as [_ Hx]; apply (Hx e); rewrite <- ?E. }
  unfold places in Ht. rewrite Hrd, Hh, Hl in Ht. simpl in Ht. unfold torn in Ht. clear -Ht.
  induction (notes s) as [|x l IH]; [by apply not_elem_of_nil in Ht|]. cbn [fmap list_fmap concat] in Ht.
  apply elem_of_app in Ht as [Ht|Ht]; [|right; by apply IH]. destruct x; simpl in Ht; try (by apply not_elem_of_nil in Ht).
  apply list_elem_of_singleton in Ht as ->. by left.
Qed.

Definition drain_demo : list sevent :=
  coro_demo ++ [SvShutdown; SvResume 0 RDone; SvTimer 60 0 true true; SvResume 1 RSuspended; SvExit 0; SvResume 1 RDone; SvExit 1].

Lemma coro_shutdown_drains_witness :
  exists s, srun (sched_start 2) drain_demo = Some s /\ cworkers s = [CwGone; CwGone] /\ Torn 7 ∈ notes s /\ Torn 8 ∈ notes s.
Proof.
  destruct (srun (sched_start 2) drain_demo) as [s|] eqn:E; [|vm_compute in E; discriminate E].
  assert (H : (fun s => (cworkers s, bool_decide (7%nat ∈ started s /\ 8%nat ∈ started s))) <$> srun (sched_start 2) drain_demo = Some ([CwGone; CwGone], true))
    by (vm_compute; reflexivity).
  rewrite E in H. cbn in H. injection H as H1 H2. apply bool_decide_eq_true in H2 as [H2 H3].
  destruct (coro_shutdown_drains 2 drain_demo s E ltac:(repeat constructor)) as [_ Hd].
  assert (Hall : forall w, (w < length (cworkers s))%nat -> cworkers s !! w = Some CwGone).
  { rewrite H1. intros [|[|w]] Hw; [reflexivity..|cbn in Hw; lia]. }
  exists s. split; [reflexivity|]. split; [exact H1|]. split; [exact (Hd Hall 7%nat H2)|exact (Hd Hall 8%nat H3)].
Defined.

(** ** Where the code falls short *)

(** Starting or resuming task [t] resolves no other task's future. *)
Lemma start_notes s w t future c n r :
  exists l, notes (start_coro s w t future c n r) = l ++ Started t :: notes s /\ forall u rc, Resolved u rc ∈ l -> u = t.
Proof.
  assert (Hc : forall s0 rc u rc', Resolved u rc' ∈ complete s0 t rc -> u = t).
  { intros s0 rc u rc'. unfold complete. case_bool_decide; [intros [= -> _]%list_elem_of_singleton; done|intros Hx; by apply not_elem_of_nil in Hx]. }
  unfold start_coro. cbv zeta. set (s0 := mk_sched _ _ _ _ _ _ _ _ _ _ (Started t :: notes s)).
  destruct c; [|exists [Torn t]; split; [done|]; by intros u rc ?%list_elem_of_singleton]. destruct r; [destruct n| | | |]; simpl.
  - exists []. split; [done|]. intros u rc Hx. by apply not_elem_of_nil in Hx.
  - exists (Torn t :: Leaked t :: complete s0 t LOOMWORKS_ERR_FAILED). split; [done|]. intros u rc. rewrite !elem_of_cons. intros [?|[?|?]]; [done..|by eapply Hc].
  - exists []. split; [done|]. intros u rc Hx. by apply not_elem_of_nil in Hx.
  - exists (Torn t :: complete s0 t LOOMWORKS_OK ++ [Completed t]). split; [done|]. intros u rc. rewrite elem_of_cons, elem_of_app, list_elem_of_singleton.
    intros [?|[?|?]]; [done|by eapply Hc|done].
  - exists [Torn t]. split; [done|]. by intros u rc ?%list_elem_of_singleton.
  - exists (Torn t :: complete s0 t LOOMWORKS_ERR_FAILED ++ [Failed t]). split; [done|]. intros u rc. rewrite elem_of_cons, elem_of_app, list_elem_of_singleton.
    intros [?|[?|?]]; [done|by eapply Hc|done].
Qed.

Lemma c0_notes s w t r :
  (t ∉ marked s) -> exists l, notes (step_c0 s w t r) = l ++ notes s /\ forall u rc, Resolved u rc ∉ l.
Proof.
  intros Hm. unfold step_c0. rewrite bool_decide_eq_false_2 by done. destruct r; simpl.
  1,2: exists []; split; [done|]; intros u rc Hx; by apply not_elem_of_nil in Hx.
  - exists [Torn t; Completed t]. split; [done|]. intros u rc. rewrite !elem_of_cons, elem_of_nil. intuition congruence.
  - exists [Torn t]. split; [done|]. intros u rc. rewrite !elem_of_cons, elem_of_nil. intuition congruence.
  - exists [Torn t; Failed t]. split; [done|]. intros u rc. rewrite !elem_of_cons, elem_of_nil. intuition congruence.
Qed.

(** The completion future of a coroutine that ever yielded or slept is
    not completed: once its task has been begun without resolving it, the only
    way the future is ever resolved is by a cancellation. Step C0 resumes the
    coroutine to its end and destroys the task without touching the completion,
    so a waiter on the future waits for ever. *)
Theorem coro_completion_never_resolved n evs s evs' s' t rc :
  srun (sched_start n) evs = Some s -> t ∈ started s -> (forall rc, Resolved t rc ∉ notes s) ->
  srun s evs' = Some s' -> Resolved t rc ∈ notes s' -> rc = LOOMWORKS_ERR_CANCELLED.
Proof.
  intros Hr Ht Hno Hr' Hin.
  assert (Hcf : forall s0 u rc0, Resolved t rc0 ∈ cancel_future s0 u -> rc0 = LOOMWORKS_ERR_CANCELLED).
  { intros s0 u rc0. unfold cancel_future. case_bool_decide; [intros [= _ ->]%list_elem_of_singleton; done|intros Hx; by apply not_elem_of_nil in Hx]. }
  set (Q := fun s0 => t ∈ started s0 /\ forall rc0, Resolved t rc0 ∈ notes s0 -> rc0 = LOOMWORKS_ERR_CANCELLED).
  assert (Htd : forall ts s0, Q s0 -> Q (foldl teardown s0 ts)).
  { induction ts as [|u ts IH]; intros s0 HQ; [done|]. simpl. apply IH. destruct HQ as [Q1 Q2]. split; [done|]. intros rc0. simpl.
    rewrite elem_of_cons, !elem_of_app, list_elem_of_singleton. intros [?|[[Hc|?]|?]]; [done|by eapply Hcf|done|by apply Q2]. }
  assert (HQ : Q s').
  { refine (srun_ind Q (fun _ => True) _ evs' s s' _ _ Hr'); [|split; [done|]; intros rc0 Hx; by destruct (Hno rc0)|by apply Forall_true].
    intros s0 ev s1 HQ _ Hs. pose proof HQ as [Q1 Q2]. destruct ev; simpl in Hs.
    - destruct (_ && _) eqn:E; simplify_eq. apply andb_prop in E as [_ E]. apply bool_decide_eq_true in E.
      assert (Hne : t <> t0) by (by intros ->). destruct (start_notes s0 w t0 future create_ok node_ok r) as (l & El & Hl).
      split; [unfold start_coro; cbv zeta; destruct create_ok; [destruct r; try destruct node_ok|]; simpl; set_solver|].
      intros rc0. rewrite El, elem_of_app, elem_of_cons. intros [Hx|[?|?]]; [by destruct (Hne (Hl _ _ Hx))|done|by apply Q2].
    - destruct (cworkers s0 !! w) as [[]|]; try done. destruct (ready s0 !!! w) as [|u l]; simplify_eq.
      destruct (decide (u ∈ marked s0)) as [Hm|Hm].
      + unfold step_c0. rewrite bool_decide_eq_true_2 by done. by apply (Htd [u] (set_ready s0 w l)).
      + destruct (c0_notes (set_ready s0 w l) w u r Hm) as (dl & El & Hl). split; [unfold step_c0; rewrite bool_decide_eq_false_2 by done; by destruct r|].
        intros rc0. rewrite El, elem_of_app. intros [Hx|?]; [by destruct (Hl _ _ Hx)|by apply Q2].
    - destruct (heap s0 !! i) as [e|]; [|done]. destruct (_ && _); simplify_eq. unfold drain_turn. simpl. by repeat case_if.
    - destruct (s_shutdown s0); [done|]. destruct (list_find _ _) as [[i e]|]; simplify_eq. unfold cancel_sleeping.
      split; [by destruct calloc_ok|]. intros rc0 Hx.
      assert (Hx' : Resolved t rc0 ∈ CancelNote (e_task e) :: cancel_future s0 (e_task e) ++ notes s0) by (by destruct calloc_ok).
      apply elem_of_cons in Hx' as [?|Hx']; [done|]. apply elem_of_app in Hx' as [Hx'|Hx']; [by eapply Hcf|by apply Q2].
    - destruct (s_shutdown s0); [done|]. destruct (list_find _ _) as [[i e]|]; simplify_eq. split; [done|].
      intros rc0 [?|[Hx|?]%elem_of_app]%elem_of_cons; [done|by eapply Hcf|by apply Q2].
    - destruct (s_shutdown s0); by simplify_eq.
    - destruct (_ && _); simplify_eq. by apply Htd.
    - destruct (bool_decide _); simplify_eq. by apply Htd.
    - by simplify_eq.
    - destruct (_ && _); by simplify_eq. }
  by apply HQ.
Qed.

Lemma coro_completion_never_resolved_witness :
  exists s s', srun (sched_start 1) [SvStart 0 7 true true true RSuspended] = Some s /\ srun s [SvResume 0 RDone] = Some s' /\
    notes s' = [Torn 7; Completed 7; Started 7] /\ bool_decide (7%nat ∈ CoroSched.pending s') = true /\
    (forall rc, Resolved 7 rc ∈ notes s' -> rc = LOOMWORKS_ERR_CANCELLED).
Proof.
  destruct (srun (sched_start 1) [SvStart 0 7 true true true RSuspended]) as [s|] eqn:E; [|vm_compute in E; discriminate E].
  destruct (srun s [SvResume 0 RDone]) as [s'|] eqn:E'; [|vm_compute in E; injection E as <-; vm_compute in E'; discriminate E'].
  assert (H : notes s = [Started 7] /\ bool_decide (7%nat ∈ started s) = true) by (vm_compute in E; injection E as <-; split; vm_compute; reflexivity).
  assert (H' : notes s' = [Torn 7; Completed 7; Started 7] /\ bool_decide (7%nat ∈ CoroSched.pending s') = true)
    by (vm_compute in E; injection E as <-; vm_compute in E'; injection E' as <-; split; vm_compute; reflexivity).
  destruct H as [Hn Hs]. apply bool_decide_eq_true in Hs.
  exists s, s'. split; [reflexivity|]. split; [exact E'|]. split; [exact (proj1 H')|]. split; [exact (proj2 H')|].
  intros rc. apply (coro_completion_never_resolved 1 _ s [SvResume 0 RDone] s' 7 rc E Hs); [|exact E'].
  intros rc0. rewrite Hn. intros Hx. apply list_elem_of_singleton in Hx. discriminate Hx.
Defined.

(** A worker that left never takes its ready FIFO up again. *)
Lemma gone_keeps s ev s' w t : cworkers s !! w = Some CwGone -> t ∈ ready s !!! w -> (w < length (ready s))%nat ->
  sstep s ev = Some s' -> cworkers s' !! w = Some CwGone /\ t ∈ ready s' !!! w /\ (w < length (ready s'))%nat.
Proof.
  intros Hg Ht Hl Hs.
  assert (Hpush : forall s0 v u, ready s0 = ready s -> cworkers s0 = cworkers s ->
    cworkers (push_ready s0 v u) !! w = Some CwGone /\ t ∈ ready (push_ready s0 v u) !!! w /\ (w < length (ready (push_ready s0 v u)))%nat).
  { intros s0 v u E1 E2. simpl. rewrite E1, E2, length_insert. split_and!; auto. destruct (decide (v = w)) as [-> |Hne].
    - rewrite array_read_insert_eq by done. apply elem_of_app. by left.
    - by rewrite array_read_insert_ne. }
  assert (Htd : forall ts s0, ready (foldl teardown s0 ts) = ready s0 /\ cworkers (foldl teardown s0 ts) = cworkers s0).
  { induction ts as [|u ts IH]; intros s0; [done|]. simpl. destruct (IH (teardown s0 u)) as [-> ->]. done. }
  destruct ev; simpl in Hs.
  - destruct (_ && _); simplify_eq. unfold start_coro. cbv zeta. destruct create_ok; simpl; [|done]. destruct r; try done.
    destruct node_ok; [|done]. by apply Hpush.
  - destruct (cworkers s !! w0) as [[]|] eqn:Ew; try done. destruct (ready s !!! w0) as [|u l] eqn:Er; simplify_eq.
    assert (Hne : w0 <> w) by congruence.
    assert (H1 : cworkers (set_ready s w0 l) !! w = Some CwGone /\ t ∈ ready (set_ready s w0 l) !!! w /\ (w < length (ready (set_ready s w0 l)))%nat).
    { simpl. rewrite array_read_insert_ne, length_insert by done. done. }
    destruct H1 as (A & B & C). unfold step_c0. case_bool_decide; [done|]. destruct r; try done.
    simpl in *. rewrite !array_read_insert_ne, length_insert by done. rewrite array_read_insert_ne in B by done. done.
  - destruct (heap s !! i) as [e|]; [|done]. destruct (_ && _); simplify_eq. unfold drain_turn. simpl.
    destruct calloc_ok; simpl; [case_if; [by apply (Hpush (set_heap s (delete i (heap s))))|done]|by case_if].
  - destruct (s_shutdown s); [done|]. destruct (list_find _ _) as [[i e]|]; simplify_eq. unfold cancel_sleeping.
    destruct calloc_ok; [by apply Hpush|done].
  - destruct (s_shutdown s); [done|]. by destruct (list_find _ _) as [[i e]|]; simplify_eq.
  - destruct (s_shutdown s); by simplify_eq.
  - destruct (_ && _) eqn:E; simplify_eq. apply andb_prop in E as [E _]. apply andb_prop in E as [E _]. apply bool_decide_eq_true in E.
    assert (Hne : w0 <> w) by congruence. simpl. destruct (Htd (ready s !!! w0) (set_ready s w0 [])) as [-> ->].
    simpl. by rewrite list_lookup_insert_ne, array_read_insert_ne, length_insert.
  - destruct (bool_decide _) eqn:E; simplify_eq. apply bool_decide_eq_true in E. assert (Hne : w0 <> w) by congruence. simpl.
    destruct (Htd (e_task <$> filter (fun e => e_worker e = w0) (heap s)) (set_heap s (filter (fun e => e_worker e <> w0) (heap s)))) as [-> ->].
    simpl. by rewrite list_lookup_insert_ne.
  - by simplify_eq.
  - destruct (_ && _) eqn:E; simplify_eq. apply andb_prop in E as [E _]. apply andb_prop in E as [E _]. apply andb_prop in E as [E _]. apply bool_decide_eq_true in E.
    assert (Hne : w0 <> w) by congruence. simpl. by rewrite list_lookup_insert_ne.
Qed.

(** A worker is displaced while its coroutine sleeps, and the deadline falls
    between the two halves of its clean-up. *)
Definition shrink_race : list sevent :=
  [SvStart 1 7 true true true (RSleeping 20); SvShrink 1; SvLeave 1; SvTimer 30 0 true true; SvLeaveHeap 1].

(** A shrink can strand a coroutine: the displaced worker empties its
    ready FIFO before it scans the timer heap, and between the two the timer
    thread may move a due entry from the heap to that FIFO; the worker then
    exits, and in every continuation the task stays in the FIFO of a worker
    that is gone: never resumed, never torn down. *)
Theorem shrink_strands_coroutine evs s :
  srun (sched_start 2) (shrink_race ++ evs) = Some s -> 7%nat ∈ ready s !!! 1%nat /\ cworkers s !! 1%nat = Some CwGone /\ (Torn 7 ∉ notes s).
Proof.
  intros Hr. assert (Happ : forall s0 a b, srun s0 (a ++ b) = match srun s0 a with Some s1 => srun s1 b | None => None end).
  { intros s0 a. revert s0. induction a as [|ev a IH]; intros s0 b; [done|]. simpl. destruct (sstep s0 ev); [apply IH|done]. }
  pose proof (sinv_run 2 _ s Hr) as Hi. rewrite Happ in Hr. destruct (srun (sched_start 2) shrink_race) as [s0|] eqn:E0; [|done].
  assert (H0 : cworkers s0 !! 1%nat = Some CwGone /\ 7%nat ∈ ready s0 !!! 1%nat /\ (1 < length (ready s0))%nat).
  { vm_compute in E0. injection E0 as <-. simpl. split_and!; [done|by left|lia]. }
  assert (H : cworkers s !! 1%nat = Some CwGone /\ 7%nat ∈ ready s !!! 1%nat /\ (1 < length (ready s))%nat).
  { refine (srun_ind (fun s => cworkers s !! 1%nat = Some CwGone /\ 7%nat ∈ ready s !!! 1%nat /\ (1 < length (ready s))%nat) (fun _ => True) _ evs s0 s H0 _ Hr);
      [|by apply Forall_true]. intros a ev b (A & B & C) _ Hs. by eapply gone_keeps. }
  destruct H as (A & B & C). split_and!; [done..|]. intros Ht.
  pose proof (si_nodup s Hi) as Hn. unfold places in Hn. rewrite NoDup_app in Hn. destruct Hn as (_ & Hd & _). apply (Hd 7%nat).
  - destruct (lookup_lt_is_Some_2 _ _ C) as [x Hx]. rewrite (list_lookup_total_correct _ _ _ Hx) in B.
    apply list_elem_of_In, in_concat. exists x. split; apply list_elem_of_In; [by eapply list_elem_of_lookup_2|done].
  - rewrite !elem_of_app. right. right. unfold torn. apply list_elem_of_In, in_concat. exists [7%nat]. split; [|by left].
    apply list_elem_of_In. by apply (list_elem_of_fmap_2 torn_of _ (Torn 7)).
Qed.

Lemma shrink_strands_coroutine_witness :
  exists s, srun (sched_start 2) (shrink_race ++ [SvShutdown; SvExit 0]) = Some s /\ cworkers s = [CwGone; CwGone] /\ 7%nat ∈ ready s !!! 1%nat /\ (Torn 7 ∉ notes s).
Proof.
  destruct (srun (sched_start 2) (shrink_race ++ [SvShutdown; SvExit 0])) as [s|] eqn:E; [|vm_compute in E; discriminate E].
  assert (H : cworkers <$> srun (sched_start 2) (shrink_race ++ [SvShutdown; SvExit 0]) = Some [CwGone; CwGone]) by (vm_compute; reflexivity).
  rewrite E in H. cbn in H. injection H as H. destruct (shrink_strands_coroutine _ s E) as (A & _ & B).
  exists s. split; [reflexivity|]. exact (conj H (conj A B)).
Defined.

(** A sleeping coroutine that is cancelled by id is reported CANCELLED twice:
    once by the canceller and once by the worker that tears it down. *)
Theorem sleeping_cancel_reported_twice :
  exists s, srun (sched_start 1) [SvStart 0 7 true true true (RSleeping 20); SvCancel 7 true; SvResume 0 RDone] = Some s /\
    notes s = [Torn 7; CancelNote 7; CancelNote 7; Resolved 7 LOOMWORKS_ERR_CANCELLED; Started 7].
Proof. eexists. by split; [vm_compute; reflexivity|]. Qed.

(** Cancelled by its data pointer it stays asleep, may be cancelled again, each
    time with success, and is torn down after its deadline only. *)
Theorem sleeping_cancel_by_data_repeats :
  exists s, srun (sched_start 1) [SvStart 0 7 true true true (RSleeping 20); SvCancelData 70 (fun _ => 70); SvCancelData 70 (fun _ => 70);
      SvTimer 20 0 true true; SvResume 0 RDone] = Some s /\
    notes s = [Torn 7; CancelNote 7; CancelNote 7; CancelNote 7; Resolved 7 LOOMWORKS_ERR_CANCELLED; Started 7].
Proof. eexists. by split; [vm_compute; reflexivity|]. Qed.
