(* ===== verification/PoolLife.v ===== *)
(** * Creating, growing and destroying a pool (src/thread_pool.c: pool_init,
    pool_destroy_internal, loom_pool_create, loom_pool_destroy and the
    allocation ladder of loom_pool_resize).

    What the file follows is who owns which resource: every malloc, calloc,
    posix_memalign and every initialised lock, condition variable or semaphore
    is a block that is live from its acquisition to its release, and releasing
    a block that is not live is a fault.  The pool's pointer fields say which
    blocks the pool still refers to and how many elements each array has.  An
    input [ok] says which acquisitions succeed; the names of a block and of the
    call that acquires it are the same. *)
From stdpp Require Import functions.
From S2P Require Import Ring.
From S2P Require Import Prelude Types CancelIndex Numa.

(** ** Resources *)

Inductive block :=
  | BPool | BLock | BDrainCond | BWorkSem | BSpaceCond
  | BRing | BCancelSlots | BNodePool | BNodeFreeNext
  | BRecoveryAttempts | BWorkerReclaim
  | BDeques | BSlots (i : nat)
  | BCoroReady | BCoroLock | BTimerLock | BTimerSem | BTimerHeap
  | BThreads | BThreadAlive | BThreadCleanExit
  | BNumaTopo | BWorkerDomainIds | BWorkerCpuIds
  | BWorkerArg (i : nat).

#[export] Instance block_eq_dec : EqDecision block.
Proof. solve_decision. Defined.

(** The parts of struct loom_thread_pool that own memory.  [field b] is the
    pointer to block [b], with its element count ([None] = NULL);
    [field (BSlots i)] is deques[i].slots. *)
Record mem := mk_mem {
  live : list block;                 (* acquired and not released *)
  field : block -> option Z;
  worker_count : nat;
  max_worker_count : nat;
  running : list nat;                (* worker threads created and not joined *)
  shutdown : bool;
}.

Inductive outcome := Go (m : mem) | Stop (rc : loom_result_t) (m : mem) | Fault.

Definition and_then (o : outcome) (k : mem -> outcome) : outcome := match o with Go m => k m | _ => o end.

Notation "'let*' m ':=' o 'in' k" := (and_then o (fun m => k)) (at level 10, m name, k at level 200) : loom_scope.

Definition set_live (l : list block) (m : mem) : mem := mk_mem l (field m) (worker_count m) (max_worker_count m) (running m) (shutdown m).
Definition set_field (b : block) (v : option Z) (m : mem) : mem :=
  mk_mem (live m) (<[b := v]> (field m)) (worker_count m) (max_worker_count m) (running m) (shutdown m).
Definition set_worker_count (n : nat) (m : mem) : mem := mk_mem (live m) (field m) n (max_worker_count m) (running m) (shutdown m).
Definition set_max (n : nat) (m : mem) : mem := mk_mem (live m) (field m) (worker_count m) n (running m) (shutdown m).
Definition set_running (l : list nat) (m : mem) : mem := mk_mem (live m) (field m) (worker_count m) (max_worker_count m) l (shutdown m).
Definition set_shutdown (m : mem) : mem := mk_mem (live m) (field m) (worker_count m) (max_worker_count m) (running m) true.

Definition held (b : block) (m : mem) : mem := set_live (b :: live m) m.

Fixpoint drop_block (b : block) (l : list block) : option (list block) :=
  match l with
  | [] => None
  | x :: l => if decide (x = b) then Some l else cons x <$> drop_block b l
  end.

Fixpoint release (bs : list block) (m : mem) : outcome :=
  match bs with
  | [] => Go m
  | b :: bs => match drop_block b (live m) with Some l => release bs (set_live l m) | None => Fault end
  end.

(** A successful calloc of [n] elements stored in the field of [b], and the
    free of a field (a NULL pointer is ignored). *)
Definition calloc (b : block) (n : Z) (m : mem) : mem := set_field b (Some n) (held b m).
Definition free (b : block) (m : mem) : outcome :=
  match field m b with Some _ => let* m := release [b] m in Go (set_field b None m) | None => Go m end.

Definition non_null (m : mem) (b : block) : bool := match field m b with Some _ => true | None => false end.
Definition ptrs (m : mem) (bs : list block) : list block := filter (fun b => non_null m b = true) bs.
Definition slots (n : nat) (m : mem) : list block := ptrs m (BSlots <$> seq 0 n).

(** A successful realloc: the block keeps its name; of NULL it is a malloc. *)
Definition realloc (b : block) (n : Z) (m : mem) : mem := if non_null m b then set_field b (Some n) m else calloc b n m.

(** ** pool_destroy_internal *)

(** The blocks it releases, in its order; [n] is max_worker_count. *)
Definition owned (n : nat) (m : mem) : list block :=
  ptrs m [BCancelSlots; BRing; BNodePool; BNodeFreeNext]
  ++ (if non_null m BDeques then slots n m ++ [BDeques] else [])
  ++ (if non_null m BCoroReady then [BCoroReady; BCoroLock; BTimerLock; BTimerSem] else [])
  ++ ptrs m [BTimerHeap]
  ++ [BDrainCond; BSpaceCond; BWorkSem; BLock]
  ++ ptrs m [BThreads; BThreadAlive; BThreadCleanExit; BRecoveryAttempts; BWorkerReclaim; BNumaTopo; BWorkerDomainIds; BWorkerCpuIds]
  ++ [BPool].

(** Freeing the pool under a running worker is a fault as well. *)
Definition pool_destroy_internal (m : mem) : outcome :=
  if bool_decide (running m = []) then release (owned (max_worker_count m) m) m else Fault.

Definition loom_pool_destroy (m : mem) : outcome :=
  if shutdown m then let* m := pool_destroy_internal m in Stop LOOMWORKS_OK m else Stop LOOMWORKS_ERR_INVALID m.

(** ** pool_init *)

Record loom_pool_config := mk_config {
  cfg_worker_count : nat;
  cfg_queue_capacity : Z;
  cfg_numa_mode : loom_numa_mode_t;
}.

(** The inputs of one call: which acquisitions succeed, which threads
    pthread_create can start, the number of online cpus, and what the topology
    constructor of the configured mode returned. *)
Record env := mk_env {
  ok : block -> bool;
  spawn_ok : nat -> bool;
  nproc : Z;
  topology : loom_result_t * option loom_numa_topology;
}.

Section Init.
Context (e : env).

Definition default_workers (n : nat) : nat :=
  if (n =? 0)%nat then (Z.to_nat (Z.min (Z.max (nproc e) 1) 64) * 2)%nat else n.

Definition pool_init_locks (m : mem) : outcome :=
  if negb (ok e BLock) then Stop LOOMWORKS_ERR_ALLOC m
  else let m := held BLock m in
  if negb (ok e BDrainCond) then let* m := release [BLock] m in Stop LOOMWORKS_ERR_ALLOC m
  else let m := held BDrainCond m in
  if negb (ok e BWorkSem) then let* m := release [BLock; BDrainCond] m in Stop LOOMWORKS_ERR_ALLOC m
  else let m := held BWorkSem m in
  if negb (ok e BSpaceCond) then let* m := release [BWorkSem; BLock; BDrainCond] m in Stop LOOMWORKS_ERR_ALLOC m
  else Go (held BSpaceCond m).

(** The ring and the cancel index: both or neither. *)
Definition pool_init_ring (capacity : Z) (m : mem) : outcome :=
  if negb (ok e BRing) then Go m
  else
    let size := ring_size_for capacity in
    let m := calloc BRing size m in
    if ok e BCancelSlots
    then Go (calloc BCancelSlots (cancel_cap_for (size + Z.of_nat (worker_count m) * LOOMWORKS_DEQUE_CAPACITY)) m)
    else free BRing m.

Definition pool_init_nodes (m : mem) : outcome :=
  let m := if ok e BNodePool then calloc BNodePool LOOMWORKS_NODE_POOL_CAP m else m in
  let m := if ok e BNodeFreeNext then calloc BNodeFreeNext LOOMWORKS_NODE_POOL_CAP m else m in
  if non_null m BNodePool && non_null m BNodeFreeNext then Go m
  else let* m := free BNodePool m in free BNodeFreeNext m.

(** An early return of pool_init after its first stage. *)
Definition abandon (rc : loom_result_t) (m : mem) : outcome := let* m := pool_destroy_internal m in Stop rc m.

Definition required (b : block) (m : mem) : outcome :=
  if ok e b then Go (calloc b (Z.of_nat (max_worker_count m)) m) else abandon LOOMWORKS_ERR_ALLOC m.

(** The slot arrays of the deques in order; the index of the first that
    could not be allocated. *)
Fixpoint alloc_slots (idx : list nat) (m : mem) : option nat * mem :=
  match idx with
  | [] => (None, m)
  | i :: idx => if ok e (BSlots i) then alloc_slots idx (calloc (BSlots i) LOOMWORKS_DEQUE_CAPACITY m) else (Some i, m)
  end.

Fixpoint free_slots (idx : list nat) (m : mem) : outcome :=
  match idx with [] => Go m | i :: idx => let* m := free (BSlots i) m in free_slots idx m end.

Definition pool_init_deques (m : mem) : outcome :=
  if negb (ok e BDeques) then Go m
  else
    let m := calloc BDeques (Z.of_nat (max_worker_count m)) m in
    match alloc_slots (seq 0 (max_worker_count m)) m with
    | (None, m) => Go m
    | (Some j, m) => let* m := free_slots (seq 0 j) m in free BDeques m
    end.

(** A failure of the three locks, with [undo] the ones already initialised. *)
Definition coro_rollback (undo : list block) (m : mem) : outcome :=
  let* m := release undo m in let* m := free BCoroReady m in abandon LOOMWORKS_ERR_ALLOC m.

Definition pool_init_coro (m : mem) : outcome :=
  let* m := required BCoroReady m in
  if negb (ok e BCoroLock) then coro_rollback [] m
  else let m := held BCoroLock m in
  if negb (ok e BTimerLock) then coro_rollback [BCoroLock] m
  else let m := held BTimerLock m in
  if negb (ok e BTimerSem) then coro_rollback [BCoroLock; BTimerLock] m
  else Go (held BTimerSem m).

Definition pool_init_numa (mode : loom_numa_mode_t) (m : mem) : outcome :=
  let* m :=
    match mode with
    | LOOM_NUMA_DISABLED => Go m
    | _ => match topology e with
           | (LOOMWORKS_OK, _) => Go (calloc BNumaTopo 1 m)
           | (rc, _) => abandon rc m
           end
    end in
  if non_null m BNumaTopo then
    let n := Z.of_nat (max_worker_count m) in
    let m := if ok e BWorkerDomainIds then calloc BWorkerDomainIds n m else m in
    let m := if ok e BWorkerCpuIds then calloc BWorkerCpuIds n m else m in
    if non_null m BWorkerDomainIds && non_null m BWorkerCpuIds then Go m else abandon LOOMWORKS_ERR_ALLOC m
  else Go m.

Definition pool_init (cfg : loom_pool_config) (m : mem) : outcome :=
  let m := set_worker_count (default_workers (cfg_worker_count cfg)) m in
  let* m := pool_init_locks m in
  let* m := pool_init_ring (clamp_capacity (cfg_queue_capacity cfg)) m in
  let* m := pool_init_nodes m in
  let m := set_max (worker_count m) m in
  let* m := required BRecoveryAttempts m in
  let* m := required BWorkerReclaim m in
  let* m := pool_init_deques m in
  let* m := pool_init_coro m in
  let* m := required BThreads m in
  let* m := required BThreadAlive m in
  let* m := required BThreadCleanExit m in
  pool_init_numa (cfg_numa_mode cfg) m.

(** ** loom_pool_create *)

(** Shut down and join the threads started so far, then free the pool. *)
Definition unwind (rc : loom_result_t) (m : mem) : outcome :=
  let* m := pool_destroy_internal (set_running [] (set_shutdown m)) in Stop rc m.

(** A started worker frees its argument block first thing. *)
Fixpoint start_workers (idx : list nat) (m : mem) : outcome :=
  match idx with
  | [] => Go m
  | i :: idx =>
      if negb (ok e (BWorkerArg i)) then unwind LOOMWORKS_ERR_ALLOC m
      else
        let m := held (BWorkerArg i) m in
        if negb (spawn_ok e i) then unwind LOOMWORKS_ERR_THREAD m
        else let* m := release [BWorkerArg i] m in start_workers idx (set_running (running m ++ [i]) m)
  end.

Definition no_mem : mem := mk_mem [] (fun _ => None) 0 0 [] false.

Definition loom_pool_create (cfg : loom_pool_config) : outcome :=
  if negb (ok e BPool) then Stop LOOMWORKS_ERR_ALLOC no_mem
  else match pool_init cfg (held BPool no_mem) with
       | Go m => start_workers (seq 0 (worker_count m)) m
       | Stop rc m => let* m := release [BPool] m in Stop rc m
       | Fault => Fault
       end.
End Init.

(** ** loom_pool_resize *)

Section Resize.
Context (e : env).

Definition rollback_deques_tail (from to : nat) (m : mem) : outcome :=
  if non_null m BDeques then free_slots (seq from (to - from)) m else Go m.

(** The slots pointers of a fresh deques array into which the first [n]
    entries of the old one were copied. *)
Definition copy_deques (n : nat) (m : mem) : mem :=
  mk_mem (live m) (fun b => match b with BSlots i => if (i <? n)%nat then field m b else None | _ => field m b end)
    (worker_count m) (max_worker_count m) (running m) (shutdown m).

Definition grow_deques (count : nat) (m : mem) : outcome :=
  if negb (non_null m BDeques) then Go m
  else if negb (ok e BDeques) then Stop LOOMWORKS_ERR_ALLOC m
  else
    let old_max := max_worker_count m in
    let* m := release [BDeques] (held BDeques (copy_deques old_max m)) in
    let m := set_field BDeques (Some (Z.of_nat count)) m in
    match alloc_slots e (seq old_max (count - old_max)) m with
    | (None, m) => Go m
    | (Some _, m) => let* m := free_slots (seq 0 count) m in free BDeques m
    end.

Definition grow_array (b : block) (count : nat) (m : mem) : outcome :=
  if ok e b then Go (realloc b (Z.of_nat count) m)
  else let* m := rollback_deques_tail (max_worker_count m) count m in Stop LOOMWORKS_ERR_ALLOC m.

Definition grow_coro_ready (count : nat) (m : mem) : outcome :=
  if negb (non_null m BCoroReady) then Go m
  else if ok e BCoroReady then
    let* m := release [BCoroReady] (held BCoroReady m) in Go (set_field BCoroReady (Some (Z.of_nat count)) m)
  else let* m := rollback_deques_tail (max_worker_count m) count m in Stop LOOMWORKS_ERR_ALLOC m.

Definition grow_numa (count : nat) (m : mem) : mem :=
  if non_null m BNumaTopo then
    let m := if ok e BWorkerDomainIds then realloc BWorkerDomainIds (Z.of_nat count) m else m in
    if ok e BWorkerCpuIds then realloc BWorkerCpuIds (Z.of_nat count) m else m
  else m.

Definition grow_arrays (count : nat) (m : mem) : outcome :=
  let* m := grow_deques count m in
  let* m := grow_array BThreads count m in
  let* m := grow_array BThreadAlive count m in
  let* m := grow_array BThreadCleanExit count m in
  let* m := grow_array BRecoveryAttempts count m in
  let* m := grow_array BWorkerReclaim count m in
  let* m := grow_coro_ready count m in
  Go (set_max count (grow_numa count m)).

(** A failed start: the workers of this call are woken, joined, and the old
    count restored. *)
Definition resize_rollback (old i : nat) (rc : loom_result_t) (m : mem) : outcome :=
  Stop rc (set_running (filter (fun j => ~ (old <= j < i)%nat) (running m)) (set_worker_count old m)).

Fixpoint spawn_workers (old : nat) (idx : list nat) (m : mem) : outcome :=
  match idx with
  | [] => Go m
  | i :: idx =>
      if bool_decide (i ∈ running m) then spawn_workers old idx m
      else if negb (ok e (BWorkerArg i)) then resize_rollback old i LOOMWORKS_ERR_ALLOC m
      else if negb (spawn_ok e i) then
        let* m := release [BWorkerArg i] (held (BWorkerArg i) m) in resize_rollback old i LOOMWORKS_ERR_THREAD m
      else let* m := release [BWorkerArg i] (held (BWorkerArg i) m) in spawn_workers old idx (set_running (running m ++ [i]) m)
  end.

Definition loom_pool_resize (count : nat) (m : mem) : outcome :=
  if (count =? 0)%nat then Stop LOOMWORKS_ERR_INVALID m
  else if (count =? worker_count m)%nat then Stop LOOMWORKS_OK m
  else if shutdown m then Stop LOOMWORKS_ERR_SHUTDOWN m
  else
    let* m := if (max_worker_count m <? count)%nat then grow_arrays count m else Go m in
    let old := worker_count m in
    let* m := spawn_workers old (seq old (count - old)) (set_worker_count count m) in
    Stop LOOMWORKS_OK (set_running (filter (fun j => ~ (count <= j < old)%nat) (running m)) m).
End Resize.

(** ** The life of a pool *)

Inductive life_op :=
  | LResize (e : env) (count : nat)
  | LTimerHeap (n : Z) (realloc_ok : bool)          (* the timer heap's array grows (loom_timer_push) *)
  | LShutdown.

Definition grow_timer_heap (n : Z) (realloc_ok : bool) (m : mem) : mem :=
  if realloc_ok then realloc BTimerHeap n m else m.

(** loom_pool_shutdown joins every thread. *)
Definition shut_and_join (m : mem) : mem := set_running [] (set_shutdown m).

(** The state after an operation; [None] is a fault. *)
Definition life_step (m : mem) (o : life_op) : option mem :=
  match o with
  | LResize e count => match loom_pool_resize e count m with Go m | Stop _ m => Some m | Fault => None end
  | LTimerHeap n r => Some (grow_timer_heap n r m)
  | LShutdown => Some (shut_and_join m)
  end.

Fixpoint life_run (m : mem) (os : list life_op) : option mem :=
  match os with
  | [] => Some m
  | o :: os => match life_step m o with Some m => life_run m os | None => None end
  end.

(** ** Releasing what is owned *)

Lemma drop_block_perm b l r : l ≡ₚ b :: r -> exists l', drop_block b l = Some l' /\ l' ≡ₚ r.
Proof.
  revert r. induction l as [|x l IH]; intros r Hp; [by apply Permutation_nil_cons in Hp|]. simpl.
  case_decide as Hx; [subst; exists l; split; [done|by apply Permutation_cons_inv in Hp]|].
  assert (Hin : b ∈ l). { assert (H : b ∈ x :: l) by (rewrite Hp; by left). apply elem_of_cons in H as [->|]; done. }
  apply elem_of_Permutation in Hin as [k Hk]. destruct (IH k Hk) as (l' & -> & Hl'). exists (x :: l'). split; [done|].
  rewrite Hl'. apply (Permutation_cons_inv (a := b)). rewrite perm_swap, <- Hk. done.
Qed.

Lemma release_perm bs m r : live m ≡ₚ bs ++ r -> exists l, release bs m = Go (set_live l m) /\ l ≡ₚ r.
Proof.
  revert m. induction bs as [|b bs IH]; intros m Hp; simpl in *.
  - exists (live m). split; [by destruct m|done].
  - destruct (drop_block_perm _ _ _ Hp) as (l & -> & Hl). destruct (IH (set_live l m) Hl) as (l' & -> & Hl'). by exists l'.
Qed.

(** Only the pointer of [b] differs: NULL in [m], not in [m']. *)
Definition gains (b : block) (m m' : mem) : Prop :=
  non_null m b = false /\ non_null m' b = true /\ forall x, x <> b -> non_null m' x = non_null m x.

Lemma set_field_eq b v m : field (set_field b v m) b = v.
Proof. apply fn_lookup_insert. Qed.

Lemma set_field_ne b x v m : b <> x -> field (set_field b v m) x = field m x.
Proof. apply fn_lookup_insert_ne. Qed.

Lemma gains_set b v m : non_null m b = false -> gains b m (set_field b (Some v) m).
Proof.
  intros Hb. unfold gains, non_null in *. simpl. rewrite fn_lookup_insert. split_and!; [done..|].
  intros x Hx. by rewrite fn_lookup_insert_ne.
Qed.

Lemma gains_clear b m : non_null m b = true -> gains b (set_field b None m) m.
Proof.
  intros Hb. unfold gains, non_null in *. simpl. rewrite fn_lookup_insert. split_and!; [done..|].
  intros x Hx. by rewrite fn_lookup_insert_ne.
Qed.

Lemma ptrs_ext m m' l : (forall x, x ∈ l -> non_null m' x = non_null m x) -> ptrs m' l = ptrs m l.
Proof. intros H. apply list_filter_iff'. intros x Hx. by rewrite H. Qed.

Lemma ptrs_cons m x l : ptrs m (x :: l) = if non_null m x then x :: ptrs m l else ptrs m l.
Proof. unfold ptrs. rewrite filter_cons. by destruct (non_null m x). Qed.

Lemma ptrs_gain b m m' l : gains b m m' -> NoDup l -> b ∈ l -> ptrs m' l ≡ₚ b :: ptrs m l.
Proof.
  intros (H1 & H2 & H3) Hnd Hb. induction Hnd as [|x l Hx Hnd IH]; [by apply not_elem_of_nil in Hb|].
  rewrite !ptrs_cons. destruct (decide (x = b)) as [-> |Hne].
  - rewrite H1, H2, (ptrs_ext m m'); [done|]. intros y Hy. apply H3. by intros ->.
  - apply elem_of_cons in Hb as [->|Hb]; [done|]. rewrite (H3 x Hne).
    destruct (non_null m x); rewrite (IH Hb); [apply perm_swap|done].
Qed.

(** The plain pointer fields, those that own nothing but their block. *)
Definition plain : list block :=
  [BCancelSlots; BRing; BNodePool; BNodeFreeNext; BTimerHeap; BThreads; BThreadAlive; BThreadCleanExit; BRecoveryAttempts;
   BWorkerReclaim; BNumaTopo; BWorkerDomainIds; BWorkerCpuIds].

Definition deque_blocks (n : nat) (m : mem) : list block := if non_null m BDeques then BDeques :: slots n m else [].
Definition coro_blocks (m : mem) : list block := if non_null m BCoroReady then [BCoroReady; BCoroLock; BTimerLock; BTimerSem] else [].
Definition fixed : list block := [BDrainCond; BSpaceCond; BWorkSem; BLock; BPool].

Lemma ptrs_app m l l' : ptrs m (l ++ l') = ptrs m l ++ ptrs m l'.
Proof. apply list.filter_app. Qed.

Lemma owned_split n m : owned n m ≡ₚ deque_blocks n m ++ coro_blocks m ++ ptrs m plain ++ fixed.
Proof.
  unfold owned, plain. fold (coro_blocks m).
  change [BCancelSlots; BRing; BNodePool; BNodeFreeNext; BTimerHeap; BThreads; BThreadAlive; BThreadCleanExit; BRecoveryAttempts;
   BWorkerReclaim; BNumaTopo; BWorkerDomainIds; BWorkerCpuIds] with
   ([BCancelSlots; BRing; BNodePool; BNodeFreeNext] ++ [BTimerHeap] ++ [BThreads; BThreadAlive; BThreadCleanExit; BRecoveryAttempts;
   BWorkerReclaim; BNumaTopo; BWorkerDomainIds; BWorkerCpuIds]).
  change fixed with ([BDrainCond; BSpaceCond; BWorkSem; BLock] ++ [BPool]).
  rewrite !ptrs_app.
  assert (E : (if non_null m BDeques then slots n m ++ [BDeques] else []) ≡ₚ deque_blocks n m).
  { unfold deque_blocks. destruct (non_null m BDeques); [|done]. by rewrite (Permutation_app_comm (slots n m)). }
  rewrite E. generalize (deque_blocks n m) as D, (coro_blocks m) as C. intros D C.
  generalize (ptrs m [BCancelSlots; BRing; BNodePool; BNodeFreeNext]) as P1, (ptrs m [BTimerHeap]) as P2.
  generalize (ptrs m [BThreads; BThreadAlive; BThreadCleanExit; BRecoveryAttempts; BWorkerReclaim; BNumaTopo; BWorkerDomainIds; BWorkerCpuIds]) as P3.
  generalize [BDrainCond; BSpaceCond; BWorkSem; BLock] as F. intros F P3 P1 P2.
  rewrite <- !app_assoc. rewrite (Permutation_app_swap_app P1 D). apply Permutation_app_head.
  rewrite (Permutation_app_swap_app P1 C). do 3 apply Permutation_app_head. apply Permutation_app_swap_app.
Qed.

Lemma plain_nodup : NoDup plain.
Proof. by apply (bool_decide_unpack (NoDup plain)). Qed.

(** Everything the pool owns depends on its pointers only. *)
Lemma owned_ext n m m' : (forall x, non_null m' x = non_null m x) -> owned n m' = owned n m.
Proof. intros H. unfold owned, slots. rewrite !H. by rewrite !(ptrs_ext m m'). Qed.

Lemma slots_ext n m m' : (forall i, (i < n)%nat -> non_null m' (BSlots i) = non_null m (BSlots i)) -> slots n m' = slots n m.
Proof.
  intros H. apply ptrs_ext. intros x Hx. apply list_elem_of_fmap in Hx as (i & -> & Hi%elem_of_seq). apply H. lia.
Qed.

Lemma owned_plain n b m m' : gains b m m' -> b ∈ plain -> owned n m' ≡ₚ b :: owned n m.
Proof.
  intros Hg Hb. rewrite !owned_split. pose proof (ptrs_gain _ _ _ _ Hg plain_nodup Hb) as Hp. destruct Hg as (_ & _ & H3).
  assert (Hne : forall x, x ∉ plain -> non_null m' x = non_null m x) by (intros x Hx; apply H3; by intros ->).
  assert (Hd : deque_blocks n m' = deque_blocks n m).
  { unfold deque_blocks. rewrite (Hne BDeques), (slots_ext n m m'); [done| |by apply (bool_decide_unpack _)].
    intros i _. apply Hne. clear. set_solver. }
  assert (Hc : coro_blocks m' = coro_blocks m) by (unfold coro_blocks; rewrite (Hne BCoroReady); [done|by apply (bool_decide_unpack _)]).
  rewrite Hd, Hc, Hp. simpl. rewrite !(Permutation_middle _ _ b). by rewrite <- !Permutation_middle.
Qed.

Lemma ptrs_plain_ext m m' : (forall x, x ∈ plain -> non_null m' x = non_null m x) -> ptrs m' plain = ptrs m plain.
Proof. apply ptrs_ext. Qed.

Lemma owned_slot_gain n i m m' : gains (BSlots i) m m' -> (i < n)%nat -> non_null m BDeques = true -> owned n m' ≡ₚ BSlots i :: owned n m.
Proof.
  intros Hg Hi Hd. rewrite !owned_split. unfold deque_blocks, slots.
  assert (Hp : ptrs m' (BSlots <$> seq 0 n) ≡ₚ BSlots i :: ptrs m (BSlots <$> seq 0 n)).
  { apply ptrs_gain; [done| |].
    - apply NoDup_fmap_2, NoDup_seq. by intros ? ? [= ->].
    - apply list_elem_of_fmap_2, elem_of_seq. lia. }
  destruct Hg as (_ & _ & H3). rewrite (H3 BDeques), Hd by done. unfold coro_blocks. rewrite (H3 BCoroReady) by done.
  rewrite (ptrs_plain_ext m m') by (intros x Hx; apply H3; intros ->; revert Hx; clear; set_solver).
  rewrite Hp. simpl. apply perm_swap.
Qed.

Lemma slots_null n m : (forall i, (i < n)%nat -> non_null m (BSlots i) = false) -> slots n m = [].
Proof.
  intros H. unfold slots, ptrs. apply filter_none. apply Forall_fmap, Forall_seq. intros i Hi. simpl. rewrite H by lia. done.
Qed.

Lemma owned_deques n m m' :
  gains BDeques m m' -> (forall i, (i < n)%nat -> non_null m (BSlots i) = false) -> owned n m' ≡ₚ BDeques :: owned n m.
Proof.
  intros (H1 & H2 & H3) Hs. rewrite !owned_split. unfold deque_blocks, coro_blocks. rewrite H1, H2, (H3 BCoroReady) by done.
  rewrite (slots_null n m') by (intros i Hi; rewrite H3 by done; by apply Hs).
  rewrite (ptrs_plain_ext m m') by (intros x Hx; apply H3; intros ->; revert Hx; clear; set_solver). done.
Qed.

Lemma owned_coro n m m' :
  gains BCoroReady m m' -> owned n m' ≡ₚ [BCoroReady; BCoroLock; BTimerLock; BTimerSem] ++ owned n m.
Proof.
  intros (H1 & H2 & H3). rewrite !owned_split. unfold deque_blocks, coro_blocks. rewrite H1, H2, (H3 BDeques) by done.
  rewrite (slots_ext n m m') by (intros; by apply H3).
  rewrite (ptrs_plain_ext m m') by (intros x Hx; apply H3; intros ->; revert Hx; clear; set_solver).
  rewrite app_nil_l. apply Permutation_app_swap_app.
Qed.

(** The slot bound only matters where there are slots. *)
Lemma owned_bound n n' m :
  (n <= n')%nat -> (non_null m BDeques = true -> forall i, (n <= i < n')%nat -> non_null m (BSlots i) = false) -> owned n m = owned n' m.
Proof.
  intros Hn Hs. unfold owned. destruct (non_null m BDeques); [|done]. do 3 f_equal. unfold slots.
  replace n' with (n + (n' - n))%nat by lia. rewrite seq_app, fmap_app, ptrs_app.
  assert (E : ptrs m (BSlots <$> seq (0 + n) (n' - n)) = []); [|by rewrite E, app_nil_r].
  apply filter_none. apply Forall_fmap, Forall_seq. intros i Hi. simpl. rewrite Hs by (done || lia). done.
Qed.

(** ** Creation *)

(** The order in which pool_init fills the pointer fields. *)
Definition stage_of (b : block) : nat :=
  match b with
  | BRing => 1 | BCancelSlots => 2 | BNodePool => 3 | BNodeFreeNext => 4 | BRecoveryAttempts => 5 | BWorkerReclaim => 6
  | BDeques | BSlots _ => 7 | BCoroReady => 8 | BThreads => 9 | BThreadAlive => 10 | BThreadCleanExit => 11
  | BNumaTopo => 12 | BWorkerDomainIds => 13 | BWorkerCpuIds => 14 | _ => 15
  end.

(** The arrays a worker indexes with its own number. *)
Definition worker_arrays : list block :=
  [BRecoveryAttempts; BWorkerReclaim; BCoroReady; BThreads; BThreadAlive; BThreadCleanExit].

Definition deques_ok (m : mem) : Prop :=
  forall n, field m BDeques = Some n -> Z.of_nat (max_worker_count m) <= n /\ forall i, non_null m (BSlots i) = (i <? max_worker_count m)%nat.

(** The state after stage [k] of pool_init. *)
Record ready (k : nat) (m : mem) : Prop := {
  r_bal : live m ≡ₚ owned (max_worker_count m) m;
  r_run : running m = [];
  r_fresh : forall b, (k < stage_of b)%nat -> non_null m b = false;
  r_arrays : forall b, b ∈ worker_arrays -> (stage_of b <= k)%nat -> field m b = Some (Z.of_nat (max_worker_count m));
  r_deques : deques_ok m;
  r_count : (5 <= k)%nat -> worker_count m = max_worker_count m;
  r_shut : shutdown m = false;
}.

(** A stage either goes on, exactly when [need] holds, or has released
    everything. *)
Definition good (need : bool) (k : nat) (o : outcome) : Prop :=
  match o with
  | Go m => need = true /\ ready k m
  | Stop rc m => need = false /\ live m = [] /\ running m = []
  | Fault => False
  end.

Lemma good_bind n1 n2 k1 k2 o f :
  good n1 k1 o -> (forall m, ready k1 m -> good n2 k2 (f m)) -> good (n1 && n2) k2 (and_then o f).
Proof. intros H1 H2. destruct o as [m|rc m|]; simpl in *; [|naive_solver..]. destruct H1 as [-> H1]. by apply H2. Qed.

Lemma destroy_balanced m :
  live m ≡ₚ owned (max_worker_count m) m -> running m = [] -> pool_destroy_internal m = Go (set_live [] m).
Proof.
  intros Hb Hr. unfold pool_destroy_internal. rewrite bool_decide_eq_true_2 by done.
  destruct (release_perm (owned (max_worker_count m) m) m []) as (l & -> & Hl); [by rewrite app_nil_r|]. by apply Permutation_nil_r in Hl as ->.
Qed.

Lemma abandon_good need k rc m :
  live m ≡ₚ owned (max_worker_count m) m -> running m = [] -> need = false -> good need k (abandon rc m).
Proof. intros Hb Hr ->. unfold abandon. by rewrite destroy_balanced. Qed.

Lemma calloc_live n b v m :
  live m ≡ₚ owned n m -> non_null m b = false -> b ∈ plain -> live (calloc b v m) ≡ₚ owned n (calloc b v m).
Proof.
  intros Hb Hn Hp. rewrite (owned_plain n b m (calloc b v m)); [by simpl; rewrite Hb| |done]. by apply (gains_set b v m).
Qed.

Lemma free_plain n b m :
  live m ≡ₚ owned n m -> b ∈ plain -> exists m', free b m = Go m' /\ live m' ≡ₚ owned n m' /\ field m' b = None /\
    (forall x, x <> b -> field m' x = field m x) /\ worker_count m' = worker_count m /\ max_worker_count m' = max_worker_count m /\
    running m' = running m /\ shutdown m' = shutdown m.
Proof.
  intros Hb Hp. unfold free. destruct (field m b) as [v|] eqn:Ef.
  - assert (Hn : non_null m b = true) by (unfold non_null; by rewrite Ef).
    pose proof (owned_plain n _ _ _ (gains_clear b m Hn) Hp) as Ho.
    destruct (release_perm [b] m (owned n (set_field b None m))) as (l & -> & Hl); [by rewrite Hb|].
    eexists. split; [reflexivity|]. simpl. split_and!; [|by rewrite fn_lookup_insert| |done..].
    + by rewrite (owned_ext n (set_field b None m) _).
    + intros x Hx. by rewrite fn_lookup_insert_ne.
  - exists m. by split_and!.
Qed.

Lemma non_null_set_ne b x v m : x <> b -> non_null (set_field b v m) x = non_null m x.
Proof. intros H. unfold non_null. simpl. by rewrite fn_lookup_insert_ne. Qed.

(** Filling the plain field [b] of the next stage. *)
Lemma ready_calloc k b v m :
  ready k m -> stage_of b = S k -> b ∈ plain -> (b ∈ worker_arrays -> v = Z.of_nat (max_worker_count m)) ->
  (forall x, x ∈ worker_arrays -> stage_of x = S k -> x = b) -> (S k = 5 -> worker_count m = max_worker_count m)%nat ->
  ready (S k) (calloc b v m).
Proof.
  intros [H1 H2 H3 H4 H5 H6 H7] Hs Hp Hv Hx Hc. assert (Hn : non_null m b = false) by (apply H3; lia).
  split; [by apply calloc_live|done| | | | |done]; unfold calloc.
  - intros x Hl. rewrite (non_null_set_ne b x (Some v) (held b m)); [apply H3; lia|]. intros ->. lia.
  - intros x Hin Hl. simpl. destruct (decide (x = b)) as [-> |Hne]; [by rewrite fn_lookup_insert, Hv|].
    rewrite fn_lookup_insert_ne by done. apply H4; [done|]. destruct (decide (stage_of x = S k)); [by destruct Hne; apply Hx|lia].
  - assert (Hb : b <> BDeques) by (intros ->; revert Hp; clear; set_solver).
    intros n. simpl. rewrite fn_lookup_insert_ne by done. intros [Hd1 Hd2]%H5. split; [done|]. intros i.
    rewrite <- (Hd2 i). apply (non_null_set_ne b _ (Some v) (held b m)). intros <-. revert Hp. clear. set_solver.
  - intros Hl. simpl. destruct (decide (S k = 5)%nat); [by apply Hc|]. apply H6. lia.
Qed.

Lemma ready_skip k m : ready k m -> (forall x, x ∈ worker_arrays -> stage_of x <> S k) -> ready (S k) m.
Proof.
  intros [H1 H2 H3 H4 H5 H6 H7] Hx. split; [done..| | |done| |done].
  - intros b Hb. apply H3. lia.
  - intros b Hb Hl. apply H4; [done|]. pose proof (Hx b Hb). lia.
  - intros Hl. destruct (decide (S k = 5)%nat) as [E|]; [|apply H6; lia]. exfalso. apply (Hx BRecoveryAttempts); [by left|done].
Qed.

Lemma ready_free k b m : ready k m -> b ∈ plain -> (b ∉ worker_arrays) -> exists m', free b m = Go m' /\ ready k m' /\ worker_count m' = worker_count m.
Proof.
  intros [H1 H2 H3 H4 H5 H6 H7] Hp Ha. destruct (free_plain _ b m H1 Hp) as (m' & -> & Hl & Hn & Hf & Hw & Hm & Hr & Hsh).
  exists m'. split; [done|]. split; [|done].
  assert (Hb : b <> BDeques) by (intros ->; revert Hp; clear; set_solver).
  split; [by rewrite Hm|congruence| | | |by rewrite Hw, Hm|congruence].
  - intros x Hx. unfold non_null. destruct (decide (x = b)) as [-> |Hne]; [by rewrite Hn|]. rewrite Hf by done. by apply H3.
  - intros x Hx Hk. rewrite Hf, Hm; [by apply H4|]. by intros ->.
  - intros n. rewrite Hf, Hm by done. intros [Hd1 Hd2]%H5. split; [done|]. intros i. rewrite <- (Hd2 i). unfold non_null.
    rewrite Hf; [done|]. intros <-. revert Hp. clear. set_solver.
Qed.

Ltac in_list := by apply (bool_decide_unpack _).

Section Creation.
Context (e : env).

Definition locks_ok : bool := ok e BLock && ok e BDrainCond && ok e BWorkSem && ok e BSpaceCond.

Lemma init_locks_good n :
  match pool_init_locks e (set_worker_count n (held BPool no_mem)) with
  | Go m => locks_ok = true /\ ready 0 m
  | Stop rc m => locks_ok = false /\ live m = [BPool] /\ running m = []
  | Fault => False
  end.
Proof.
  unfold pool_init_locks, locks_ok. destruct (ok e BLock); [|done]. destruct (ok e BDrainCond); [|done].
  destruct (ok e BWorkSem); [|done]. destruct (ok e BSpaceCond); [|done]. split; [done|]. split; simpl; try done.
  - apply NoDup_Permutation; [in_list..|]. clear. set_solver.
  - intros b Hb Hs. exfalso. revert b Hb Hs. clear. intros b Hb. unfold worker_arrays in Hb. 
    repeat (apply elem_of_cons in Hb as [-> |Hb]; [simpl; lia|]). by apply not_elem_of_nil in Hb.
  - lia.
Qed.

Lemma ready_calloc_any k b v m :
  ready k m -> stage_of b = S k -> b ∈ plain -> (forall x, x ∈ worker_arrays -> stage_of x <> S k) -> ready (S k) (calloc b v m).
Proof.
  intros Hr Hs Hp Hx. apply ready_calloc; [done..| | |].
  - intros Hb. by destruct (Hx b Hb).
  - intros x Hb He. by destruct (Hx x Hb).
  - intros E. exfalso. rewrite E in Hx. by apply (Hx BRecoveryAttempts); [left|].
Qed.

(** No worker array is filled at this stage. *)
Ltac no_array :=
  let x := fresh "x" in let Hx := fresh "Hx" in
  intros x Hx; unfold worker_arrays in Hx; repeat (apply elem_of_cons in Hx as [-> |Hx]; [done|]); by apply not_elem_of_nil in Hx.

Lemma init_ring_good cap m : ready 0 m -> good true 2 (pool_init_ring e cap m).
Proof.
  intros Hr. unfold pool_init_ring. destruct (ok e BRing); simpl.
  - pose proof (ready_calloc_any 0 BRing (ring_size_for cap) m Hr eq_refl ltac:(in_list) ltac:(no_array)) as Hr1.
    destruct (ok e BCancelSlots).
    + split; [done|]. apply ready_calloc_any; [done|done|in_list|no_array].
    + destruct (ready_free 1 BRing _ Hr1) as (m' & -> & Hr' & _); [in_list..|]. split; [done|]. apply ready_skip; [done|no_array].
  - split; [done|]. do 2 (apply ready_skip; [|no_array]). done.
Qed.

Lemma init_nodes_good m : ready 2 m -> good true 4 (pool_init_nodes e m).
Proof.
  intros Hr. unfold pool_init_nodes. cbv zeta.
  assert (H3 : ready 3 (if ok e BNodePool then calloc BNodePool LOOMWORKS_NODE_POOL_CAP m else m)).
  { destruct (ok e BNodePool); [apply ready_calloc_any|apply ready_skip]; first [done|in_list|no_array]. }
  revert H3. generalize (if ok e BNodePool then calloc BNodePool LOOMWORKS_NODE_POOL_CAP m else m). intros m1 H3.
  assert (H4 : ready 4 (if ok e BNodeFreeNext then calloc BNodeFreeNext LOOMWORKS_NODE_POOL_CAP m1 else m1)).
  { destruct (ok e BNodeFreeNext); [apply ready_calloc_any|apply ready_skip]; first [done|in_list|no_array]. }
  revert H4. generalize (if ok e BNodeFreeNext then calloc BNodeFreeNext LOOMWORKS_NODE_POOL_CAP m1 else m1). intros m2 H4.
  case_if; [done|]. destruct (ready_free 4 BNodePool m2 H4) as (m3 & -> & H5 & _); [in_list..|]. simpl.
  by destruct (ready_free 4 BNodeFreeNext m3 H5) as (m4 & -> & H6 & _); [in_list..|].
Qed.

Lemma required_good k b m :
  ready k m -> stage_of b = S k -> b ∈ plain -> (forall x, x ∈ worker_arrays -> stage_of x = S k -> x = b) ->
  (S k = 5 -> worker_count m = max_worker_count m)%nat -> good (ok e b) (S k) (required e b m).
Proof.
  intros Hr Hs Hp Hx Hc. unfold required. destruct (ok e b).
  - split; [done|]. by apply ready_calloc.
  - destruct Hr. by apply abandon_good.
Qed.

(** *** Deques *)

Lemma alloc_slots_spec n idx m :
  live m ≡ₚ owned n m -> non_null m BDeques = true -> (forall i, i ∈ idx -> (i < n)%nat /\ non_null m (BSlots i) = false) -> NoDup idx ->
  exists r m', alloc_slots e idx m = (r, m') /\ live m' ≡ₚ owned n m' /\
    (forall b, (forall i, i ∈ idx -> b <> BSlots i) -> field m' b = field m b) /\
    worker_count m' = worker_count m /\ max_worker_count m' = max_worker_count m /\ running m' = running m /\ shutdown m' = shutdown m /\
    match r with
    | None => forall i, i ∈ idx -> non_null m' (BSlots i) = true
    | Some j => exists l1 l2, idx = l1 ++ j :: l2 /\ forall i, i ∈ j :: l2 -> non_null m' (BSlots i) = false
    end.
Proof.
  revert m. induction idx as [|i idx IH]; intros m Hb Hd Hi Hnd; simpl.
  { exists None, m. split_and!; try done. intros j Hj. by apply not_elem_of_nil in Hj. }
  apply NoDup_cons in Hnd as [Hni Hnd]. destruct (Hi i ltac:(by left)) as [Hlt Hnull]. destruct (ok e (BSlots i)).
  - set (m1 := calloc (BSlots i) LOOMWORKS_DEQUE_CAPACITY m).
    assert (Hg : gains (BSlots i) m m1) by (by apply (gains_set (BSlots i) LOOMWORKS_DEQUE_CAPACITY m)).
    destruct (IH m1) as (r & m' & -> & H1 & H2 & H3 & H4 & H5 & H6 & H7).
    + rewrite (owned_slot_gain n i m m1 Hg Hlt Hd). unfold m1. simpl. by rewrite Hb.
    + destruct Hg as (_ & _ & Hg). by rewrite Hg.
    + intros j Hj. destruct (Hi j ltac:(by right)) as [? ?]. split; [done|]. destruct Hg as (_ & _ & Hg). rewrite Hg; [done|].
      intros [= ->]. done.
    + done.
    + exists r, m'. split; [done|]. split; [done|]. split.
      { intros b Hbn. rewrite H2 by (intros j Hj; apply Hbn; by right). unfold m1. simpl. rewrite fn_lookup_insert_ne; [done|].
        intros <-. by apply (Hbn i); [left|]. }
      split_and!; [done..|]. destruct r as [j|].
      * destruct H7 as (l1 & l2 & -> & H7). by exists (i :: l1), l2.
      * intros j [-> |Hj]%elem_of_cons; [|by apply H7]. unfold non_null. rewrite H2.
        { unfold m1. simpl. by rewrite fn_lookup_insert. }
        intros x Hx [= ->]. done.
  - exists (Some i), m. split_and!; try done. exists [], idx. split; [done|]. intros j Hj. by apply Hi.
Qed.

Lemma free_slots_spec n idx m :
  live m ≡ₚ owned n m -> non_null m BDeques = true -> (forall i, i ∈ idx -> (i < n)%nat) ->
  exists m', free_slots idx m = Go m' /\ live m' ≡ₚ owned n m' /\
    (forall b, (forall i, i ∈ idx -> b <> BSlots i) -> field m' b = field m b) /\
    (forall i, i ∈ idx \/ non_null m (BSlots i) = false -> non_null m' (BSlots i) = false) /\
    worker_count m' = worker_count m /\ max_worker_count m' = max_worker_count m /\ running m' = running m /\ shutdown m' = shutdown m.
Proof.
  revert m. induction idx as [|i idx IH]; intros m Hb Hd Hi; simpl.
  { exists m. split_and!; try done. intros i [Hx|]; [by apply not_elem_of_nil in Hx|done]. }
  assert (H : exists m1, free (BSlots i) m = Go m1 /\ live m1 ≡ₚ owned n m1 /\ field m1 (BSlots i) = None /\
    (forall b, b <> BSlots i -> field m1 b = field m b) /\ worker_count m1 = worker_count m /\ max_worker_count m1 = max_worker_count m /\
    running m1 = running m /\ shutdown m1 = shutdown m).
  { unfold free. destruct (field m (BSlots i)) as [v|] eqn:Ef; [|by exists m].
    assert (Hn : non_null m (BSlots i) = true) by (unfold non_null; by rewrite Ef).
    pose proof (gains_clear (BSlots i) m Hn) as Hg.
    assert (Ho : owned n m ≡ₚ BSlots i :: owned n (set_field (BSlots i) None m)).
    { apply owned_slot_gain; [done|apply Hi; by left|]. by rewrite non_null_set_ne. }
    destruct (release_perm [BSlots i] m (owned n (set_field (BSlots i) None m))) as (l & -> & Hl); [by rewrite Hb|].
    eexists. split; [reflexivity|]. simpl. split_and!; [|by rewrite fn_lookup_insert| |done..].
    - by rewrite (owned_ext n (set_field (BSlots i) None m) _).
    - intros x Hx. by rewrite fn_lookup_insert_ne. }
  destruct H as (m1 & -> & H1 & H2 & H3 & H4 & H5 & H6 & H7). simpl.
  destruct (IH m1 H1) as (m' & -> & G1 & G2 & G3 & G4 & G5 & G6 & G7).
  - unfold non_null. by rewrite H3.
  - intros j Hj. apply Hi. by right.
  - exists m'. split_and!; [done|done| | |congruence..].
    + intros b Hbn. rewrite G2 by (intros j Hj; apply Hbn; by right). apply H3. apply Hbn. by left.
    + intros j Hj. apply G3. destruct (decide (j = i)) as [-> |Hne]; [right; unfold non_null; by rewrite H2|].
      unfold non_null. rewrite H3 by (by intros [= ->]). fold (non_null m (BSlots j)).
      destruct Hj as [[-> |Hj]%elem_of_cons|Hj]; [done|by left|by right].
Qed.

(** Freeing the deques array once all its slots are free. *)
Lemma free_deques n m :
  live m ≡ₚ owned n m -> (forall i, (i < n)%nat -> non_null m (BSlots i) = false) ->
  exists m', free BDeques m = Go m' /\ live m' ≡ₚ owned n m' /\ field m' BDeques = None /\ (forall b, b <> BDeques -> field m' b = field m b) /\
    worker_count m' = worker_count m /\ max_worker_count m' = max_worker_count m /\ running m' = running m /\ shutdown m' = shutdown m.
Proof.
  intros Hb Hs. unfold free. destruct (field m BDeques) as [v|] eqn:Ef; [|by exists m].
  assert (Hn : non_null m BDeques = true) by (unfold non_null; by rewrite Ef).
  assert (Ho : owned n m ≡ₚ BDeques :: owned n (set_field BDeques None m)).
  { apply owned_deques; [by apply gains_clear|]. intros i Hi. rewrite non_null_set_ne by done. by apply Hs. }
  destruct (release_perm [BDeques] m (owned n (set_field BDeques None m))) as (l & -> & Hl); [by rewrite Hb|].
  eexists. split; [reflexivity|]. simpl. split_and!; [|by rewrite fn_lookup_insert| |done..].
  - by rewrite (owned_ext n (set_field BDeques None m) _).
  - intros x Hx. by rewrite fn_lookup_insert_ne.
Qed.

Lemma seq_prefix n l1 j l2 : seq 0 n = l1 ++ j :: l2 -> (j < n)%nat /\ l1 = seq 0 j.
Proof.
  intros Hs. pose proof (f_equal length Hs) as Hlen. rewrite length_seq, length_app in Hlen. simpl in Hlen.
  assert (j = length l1) as ->.
  { pose proof (f_equal (lookup (length l1)) Hs) as Hx. rewrite lookup_seq_lt, list_lookup_middle in Hx by lia. simpl in Hx. congruence. }
  split; [lia|]. pose proof (f_equal (take (length l1)) Hs) as Hx. by rewrite take_app_length, take_seq, Nat.min_l in Hx by lia.
Qed.

Lemma init_deques_good m : ready 6 m -> good true 7 (pool_init_deques e m).
Proof.
  intros Hr. unfold pool_init_deques. destruct (ok e BDeques); simpl; [|split; [done|]; apply ready_skip; [done|no_array]].
  pose proof Hr as [H1 H2 H3 H4 H5 H6 H7]. set (n := max_worker_count m) in *. set (m1 := calloc BDeques (Z.of_nat n) m).
  assert (Hnull : forall i, non_null m (BSlots i) = false) by (intros i; apply H3; simpl; lia).
  assert (Hg : gains BDeques m m1) by (apply (gains_set BDeques (Z.of_nat n) m), H3; simpl; lia).
  assert (Hb : live m1 ≡ₚ owned n m1) by (rewrite (owned_deques n m m1 Hg) by auto; unfold m1; simpl; by rewrite H1).
  assert (Hother : forall b, b <> BDeques -> field m1 b = field m b) by (intros b ?; by apply fn_lookup_insert_ne).
  destruct (alloc_slots_spec n (seq 0 n) m1 Hb) as (r & m2 & E & G1 & G2 & G3 & G4 & G5 & Gs & G6).
  { apply Hg. }
  { intros i Hi%elem_of_seq. split; [lia|]. unfold non_null. rewrite Hother by done. apply Hnull. }
  { apply NoDup_seq. }
  change (max_worker_count m1) with n. rewrite E.
  assert (Hslot : forall b, (forall i, b <> BSlots i) -> field m2 b = field m1 b) by (intros b ?; apply G2; auto).
  change (max_worker_count m1) with n in G4. change (running m1) with (running m) in G5. change (worker_count m1) with (worker_count m) in G3.
  destruct r as [j|]; cycle 1.
  - split; [done|]. split; rewrite ?G4; [done|congruence| | | | |by rewrite Gs].
    + intros b Hb'. unfold non_null. rewrite G2 by (intros i _ ->; simpl in Hb'; lia).
      rewrite Hother by (intros ->; simpl in Hb'; lia). apply H3. lia.
    + intros b Ha Hs. rewrite Hslot, Hother; [apply H4; [done|]| |].
      * revert Ha Hs. clear. intros Ha. unfold worker_arrays in Ha. repeat (apply elem_of_cons in Ha as [-> |Ha]; [simpl; lia|]). by apply not_elem_of_nil in Ha.
      * intros ->. revert Ha. clear. set_solver.
      * intros i ->. revert Ha. clear. set_solver.
    + intros k Hk. rewrite G4. rewrite Hslot in Hk by done. unfold m1 in Hk. simpl in Hk. rewrite fn_lookup_insert in Hk. injection Hk as <-.
      split; [done|]. intros i. simpl. destruct (Nat.ltb_spec i n).
      * apply G6, elem_of_seq. lia.
      * unfold non_null. rewrite G2, Hother by (done || (intros j Hj%elem_of_seq [= ->]; lia)). apply Hnull.
    + intros _. rewrite G3. apply H6. lia.
  - destruct G6 as (l1 & l2 & Hsplit & G6).
    destruct (seq_prefix _ _ _ _ Hsplit) as [Hj ->].
    destruct (free_slots_spec n (seq 0 j) m2 G1) as (m3 & -> & F1 & F2 & F3 & F4 & F5 & F6 & Fs).
    { unfold non_null. rewrite Hslot by done. apply Hg. }
    { intros i Hi%elem_of_seq. lia. }
    simpl. assert (Hs3 : forall i, non_null m3 (BSlots i) = false).
    { intros i. apply F3. destruct (decide (i < j)%nat); [left; apply elem_of_seq; lia|right].
      destruct (decide (i < n)%nat).
      - apply G6. assert (Hin : i ∈ seq 0 j ++ j :: l2) by (rewrite <- Hsplit; apply elem_of_seq; lia).
        apply elem_of_app in Hin as [Hin%elem_of_seq|]; [lia|done].
      - unfold non_null. rewrite G2, Hother by (done || (intros x Hx%elem_of_seq [= ->]; lia)). apply Hnull. }
    destruct (free_deques n m3 F1) as (m4 & -> & D1 & D2 & D3 & D4 & D5 & D6 & Ds); [by intros; apply Hs3|].
    assert (Hall : forall b, (forall i, b <> BSlots i) -> b <> BDeques -> field m4 b = field m b).
    { intros b Hx Hy. rewrite D3, F2, Hslot, Hother; auto. }
    split; [done|]. apply ready_skip; [|no_array]. split; rewrite ?D5, ?F5, ?G4; [done|congruence| | | | |by rewrite Ds, Fs, Gs].
    + intros b Hb'. destruct b; simpl in Hb'; try lia; unfold non_null; try (rewrite Hall by done; apply H3; simpl; lia); [by rewrite D2|].
      rewrite D3 by done. apply Hs3.
    + intros b Ha Hs. rewrite Hall; [by apply H4| |]; intros; intros ->; revert Ha; clear; set_solver.
    + intros k. by rewrite D2.
    + intros _. rewrite D4, F4, G3. apply H6. lia.
Qed.

(** *** Coroutine FIFOs, threads and topology *)

(** Undoing the coroutine stage: the locks [undo] and the FIFO array go, then
    the pool. *)
Lemma coro_rollback_good undo m m0 :
  ready 7 m0 -> gains BCoroReady m0 m -> running m = [] -> max_worker_count m = max_worker_count m0 ->
  live m ≡ₚ undo ++ BCoroReady :: owned (max_worker_count m0) m0 -> good false 8 (coro_rollback undo m).
Proof.
  intros Hr (G1 & G2 & G3) Hrun Hmax Hl. unfold coro_rollback. destruct (release_perm _ _ _ Hl) as (l & -> & Hl1). simpl. unfold free.
  change (field (set_live l m) BCoroReady) with (field m BCoroReady). unfold non_null in G2. destruct (field m BCoroReady) as [v|]; [|done].
  destruct (release_perm [BCoroReady] (set_live l m) (owned (max_worker_count m0) m0) Hl1) as (l' & -> & Hl2). simpl.
  apply abandon_good; [|done|done]. simpl. rewrite Hmax, (owned_ext _ m0); [done|]. intros x.
  unfold non_null. simpl. destruct (decide (x = BCoroReady)) as [-> |Hne].
  - rewrite fn_lookup_insert. symmetry. apply G1.
  - rewrite fn_lookup_insert_ne by done. by apply G3.
Qed.

Lemma init_coro_good m :
  ready 7 m -> good (ok e BCoroReady && (ok e BCoroLock && (ok e BTimerLock && ok e BTimerSem))) 8 (pool_init_coro e m).
Proof.
  intros Hr. pose proof Hr as [H1 H2 H3 H4 H5 H6 H7]. unfold pool_init_coro, required. destruct (ok e BCoroReady); simpl; [|unfold abandon; by rewrite destroy_balanced].
  set (n := max_worker_count m) in *. set (m1 := calloc BCoroReady (Z.of_nat n) m).
  assert (Hg : gains BCoroReady m m1) by (apply (gains_set BCoroReady (Z.of_nat n) m), H3; simpl; lia).
  assert (Hl : live m1 ≡ₚ BCoroReady :: owned n m) by (unfold m1; simpl; by rewrite H1).
  destruct (ok e BCoroLock); simpl; [|by eapply coro_rollback_good].
  destruct (ok e BTimerLock); simpl; [|eapply coro_rollback_good; [done|exact Hg|done|done|simpl; by rewrite H1]].
  destruct (ok e BTimerSem); simpl; cycle 1.
  { eapply coro_rollback_good; [done|exact Hg|done|done|]. simpl. rewrite H1. apply perm_swap. }
  split; [done|]. split; simpl; [|done| | | |intros _; apply H6; lia|done].
  - change (BTimerSem :: BTimerLock :: BCoroLock :: BCoroReady :: live m ≡ₚ owned n m1). rewrite (owned_coro n m m1 Hg), H1.
    apply (Permutation_app_tail (owned n m) (l := [_; _; _; _])). apply NoDup_Permutation; [in_list..|]. clear. set_solver.
  - intros b Hb. destruct Hg as (_ & _ & Hg). transitivity (non_null m1 b); [done|]. rewrite Hg by (intros ->; simpl in Hb; lia). apply H3. lia.
  - intros b Ha Hs. destruct (decide (b = BCoroReady)) as [-> |Hne]; [by rewrite fn_lookup_insert|].
    rewrite fn_lookup_insert_ne by done. apply H4; [done|].
    revert Ha Hs Hne. clear. intros Ha. unfold worker_arrays in Ha. repeat (apply elem_of_cons in Ha as [-> |Ha]; [simpl; (lia || done)|]). by apply not_elem_of_nil in Ha.
  - intros k. simpl. rewrite fn_lookup_insert_ne by done. intros [Hd1 Hd2]%H5. split; [done|]. intros i. rewrite <- (Hd2 i).
    destruct Hg as (_ & _ & Hg). by apply (Hg (BSlots i)).
Qed.

Definition numa_ok (mode : loom_numa_mode_t) : bool :=
  match mode with
  | LOOM_NUMA_DISABLED => true
  | _ => bool_decide ((topology e).1 = LOOMWORKS_OK) && (ok e BWorkerDomainIds && ok e BWorkerCpuIds)
  end.

(** An optional array of the next stage. *)
Lemma ready_optional k b v m :
  ready k m -> stage_of b = S k -> b ∈ plain -> (forall x, x ∈ worker_arrays -> stage_of x <> S k) ->
  let m' := if ok e b then calloc b v m else m in
  ready (S k) m' /\ non_null m' b = ok e b /\ forall x, x <> b -> non_null m' x = non_null m x.
Proof.
  intros Hr Hs Hp Hx. cbv zeta. pose proof (r_fresh _ _ Hr b ltac:(lia)) as Hn. destruct (ok e b).
  - split; [by apply ready_calloc_any|]. by destruct (gains_set b v m Hn) as (_ & ? & ?).
  - split; [by apply ready_skip|done].
Qed.

Lemma init_numa_good mode m : ready 11 m -> good (numa_ok mode) 14 (pool_init_numa e mode m).
Proof.
  intros Hr. unfold pool_init_numa.
  assert (Hd : good true 14 (if non_null m BNumaTopo then Fault else Go m)).
  { rewrite (r_fresh _ _ Hr) by (simpl; lia). split; [done|]. do 3 (apply ready_skip; [|no_array]). done. }
  destruct (topology e) as [rc topo] eqn:Et.
  assert (Ht : mode <> LOOM_NUMA_DISABLED -> numa_ok mode = bool_decide (rc = LOOMWORKS_OK) && (ok e BWorkerDomainIds && ok e BWorkerCpuIds)).
  { unfold numa_ok. rewrite Et. by destruct mode. }
  assert (Hrest : good (ok e BWorkerDomainIds && ok e BWorkerCpuIds) 14
    (let m := calloc BNumaTopo 1 m in let n := Z.of_nat (max_worker_count m) in
     let m := if ok e BWorkerDomainIds then calloc BWorkerDomainIds n m else m in
     let m := if ok e BWorkerCpuIds then calloc BWorkerCpuIds n m else m in
     if non_null m BWorkerDomainIds && non_null m BWorkerCpuIds then Go m else abandon LOOMWORKS_ERR_ALLOC m)).
  { cbv zeta. pose proof (ready_calloc_any 11 BNumaTopo 1 m Hr eq_refl ltac:(in_list) ltac:(no_array)) as H12.
    set (n := Z.of_nat _). destruct (ready_optional 12 BWorkerDomainIds n _ H12 eq_refl ltac:(in_list) ltac:(no_array)) as (H13 & Hdom & _).
    destruct (ready_optional 13 BWorkerCpuIds n _ H13 eq_refl ltac:(in_list) ltac:(no_array)) as (H14 & Hcpu & Hoth).
    rewrite Hcpu, Hoth, Hdom by done. destruct (ok e BWorkerDomainIds && ok e BWorkerCpuIds); [done|].
    destruct H14. by apply abandon_good. }
  destruct mode; [|rewrite Ht by done..].
  - simpl. revert Hd. by destruct (non_null m BNumaTopo).
  - destruct rc; simpl; try (destruct Hr; unfold abandon; by rewrite destroy_balanced). exact Hrest.
  - destruct rc; simpl; try (destruct Hr; unfold abandon; by rewrite destroy_balanced). exact Hrest.
Qed.

Lemma ready_set_max n m : ready 4 m -> ready 4 (set_max n m).
Proof.
  intros [H1 H2 H3 H4 H5 H6 H7]. assert (Hd : non_null m BDeques = false) by (apply H3; simpl; lia). split; simpl; [|done..| | |lia|done].
  - rewrite H1. rewrite (owned_ext n m (set_max n m)) by done. unfold owned. by rewrite Hd.
  - intros b Ha Hs. exfalso. revert Ha Hs. clear. intros Ha. unfold worker_arrays in Ha.
    repeat (apply elem_of_cons in Ha as [-> |Ha]; [simpl; lia|]). by apply not_elem_of_nil in Ha.
  - intros k. simpl. unfold non_null in Hd. by destruct (field m BDeques).
Qed.

(** Everything pool_init cannot do without. *)
Definition essentials (mode : loom_numa_mode_t) : bool :=
  ok e BRecoveryAttempts && (ok e BWorkerReclaim && (true &&
    ((ok e BCoroReady && (ok e BCoroLock && (ok e BTimerLock && ok e BTimerSem))) &&
      (ok e BThreads && (ok e BThreadAlive && (ok e BThreadCleanExit && numa_ok mode)))))).

(** The field filled at this stage is the only worker array of the stage. *)
Ltac only_array :=
  let x := fresh "x" in let Hx := fresh "Hx" in
  intros x Hx; unfold worker_arrays in Hx; repeat (apply elem_of_cons in Hx as [-> |Hx]; [done|]); by apply not_elem_of_nil in Hx.

Lemma pool_init_good cfg :
  match pool_init e cfg (held BPool no_mem) with
  | Go m => locks_ok = true /\ essentials (cfg_numa_mode cfg) = true /\ ready 14 m
  | Stop rc m => running m = [] /\ (if locks_ok then essentials (cfg_numa_mode cfg) = false /\ live m = [] else live m = [BPool])
  | Fault => False
  end.
Proof.
  unfold pool_init. cbv zeta. pose proof (init_locks_good (default_workers e (cfg_worker_count cfg))) as Hl.
  destruct (pool_init_locks e _) as [m|rc m|]; simpl; [|by destruct Hl as (-> & -> & ->)|done]. destruct Hl as [Hl Hr]. rewrite Hl.
  assert (G : good (true && (true && essentials (cfg_numa_mode cfg))) 14
    (let* m := pool_init_ring e (clamp_capacity (cfg_queue_capacity cfg)) m in let* m := pool_init_nodes e m in
     let m := set_max (worker_count m) m in
     let* m := required e BRecoveryAttempts m in let* m := required e BWorkerReclaim m in let* m := pool_init_deques e m in
     let* m := pool_init_coro e m in let* m := required e BThreads m in let* m := required e BThreadAlive m in
     let* m := required e BThreadCleanExit m in pool_init_numa e (cfg_numa_mode cfg) m)).
  { unfold essentials. eapply good_bind; [by apply init_ring_good|]. intros m1 H1. eapply good_bind; [by apply init_nodes_good|].
    intros m2 H2. cbv zeta. eapply good_bind.
    { apply (required_good 4); [by apply ready_set_max|done|in_list|only_array|done]. }
    intros m3 H3. eapply good_bind; [apply (required_good 5); [done|done|in_list|only_array|done]|].
    intros m4 H4. eapply good_bind; [by apply init_deques_good|]. intros m5 H5. eapply good_bind; [by apply init_coro_good|].
    intros m6 H6. eapply good_bind; [apply (required_good 8); [done|done|in_list|only_array|done]|].
    intros m7 H7. eapply good_bind; [apply (required_good 9); [done|done|in_list|only_array|done]|].
    intros m8 H8. eapply good_bind; [apply (required_good 10); [done|done|in_list|only_array|done]|].
    intros m9 H9. by apply init_numa_good. }
  revert G. cbv zeta. destruct (and_then _ _) as [m'|rc m'|]; simpl; naive_solver.
Qed.
End Creation.

(** ** The invariant of a living pool *)

(** The arrays are being grown to [count] elements, those in [grown] already
    have been; the deques are grown first. *)
Record growing (count : nat) (grown : list block) (m : mem) : Prop := {
  g_bal : live m ≡ₚ owned count m;
  g_arrays : forall b, b ∈ worker_arrays -> exists n, field m b = Some n /\ Z.of_nat (max_worker_count m) <= n /\ (b ∈ grown -> Z.of_nat count <= n);
  g_deques : forall n, field m BDeques = Some n -> Z.of_nat count <= n /\ forall i, non_null m (BSlots i) = (i <? count)%nat;
  g_run : Forall (fun i => (i < max_worker_count m)%nat) (running m);
  g_count : (worker_count m <= max_worker_count m)%nat;
  g_max : (max_worker_count m <= count)%nat;
}.

Definition sound (m : mem) : Prop := growing (max_worker_count m) [] m.

Lemma ready_sound m : ready 14 m -> sound m.
Proof.
  intros [H1 H2 H3 H4 H5 H6 H7]. split; [done| |done| | |done].
  - intros b Hb. exists (Z.of_nat (max_worker_count m)). split_and!; [|lia..]. apply H4; [done|].
    revert Hb. clear. intros Ha. unfold worker_arrays in Ha. repeat (apply elem_of_cons in Ha as [-> |Ha]; [simpl; lia|]). by apply not_elem_of_nil in Ha.
  - rewrite H2. by constructor.
  - rewrite H6 by lia. done.
Qed.

Lemma growing_weaken count grown grown' m : (grown' ⊆ grown) -> growing count grown m -> growing count grown' m.
Proof.
  intros Hs [H1 H2 H3 H4 H5 H6]. split; try done. intros b Hb. destruct (H2 b Hb) as (n & ? & ? & ?). exists n. split_and!; [done..|]. intros Hx. auto.
Qed.

Lemma realloc_field b v m : field (realloc b v m) = <[b := Some v]> (field m).
Proof. unfold realloc. by destruct (non_null m b). Qed.

Lemma realloc_live n b v m : live m ≡ₚ owned n m -> b ∈ plain -> live (realloc b v m) ≡ₚ owned n (realloc b v m).
Proof.
  intros Hb Hp. unfold realloc. destruct (non_null m b) eqn:E; [|by apply calloc_live].
  rewrite (owned_ext n m); [done|]. intros x. unfold non_null in *. simpl. destruct (decide (b = x)) as [-> |Hne].
  - rewrite fn_lookup_insert. by destruct (field m x).
  - by rewrite fn_lookup_insert_ne.
Qed.

Lemma growing_realloc count grown b v m :
  growing count grown m -> b ∈ plain -> (b ∈ worker_arrays -> Z.of_nat count <= v) -> growing count (b :: grown) (realloc b v m).
Proof.
  intros [H1 H2 H3 H4 H5 H6] Hp Hv.
  assert (E : max_worker_count (realloc b v m) = max_worker_count m /\ worker_count (realloc b v m) = worker_count m /\ running (realloc b v m) = running m).
  { unfold realloc. by destruct (non_null m b). }
  destruct E as (E1 & E2 & E3). split; rewrite ?E1, ?E2, ?E3; try done; [by apply realloc_live| |].
  - intros x Hx. rewrite realloc_field. destruct (decide (b = x)) as [-> |Hne].
    + rewrite fn_lookup_insert. exists v. specialize (Hv Hx). split_and!; [done|lia|done].
    + rewrite fn_lookup_insert_ne by done. destruct (H2 x Hx) as (n & ? & ? & Hn). exists n. split_and!; [done..|].
      intros [-> |Hin]%elem_of_cons; [done|auto].
  - intros n. unfold non_null. rewrite realloc_field, fn_lookup_insert_ne by (intros ->; revert Hp; clear; set_solver).
    intros [Hd1 Hd2]%H3. split; [done|]. intros i. rewrite fn_lookup_insert_ne; [apply Hd2|]. intros ->. revert Hp. clear. set_solver.
Qed.

Lemma growing_sound count grown m : growing count grown m -> worker_arrays ⊆ grown -> sound (set_max count m).
Proof.
  intros [H1 H2 H3 H4 H5 H6] Hs. split; simpl; try done.
  - intros b Hb. destruct (H2 b Hb) as (n & ? & ? & Hn). exists n. split_and!; [done| |by intros ?%not_elem_of_nil]. auto.
  - eapply Forall_impl; [exact H4|]. simpl. lia.
  - lia.
Qed.

(** The rollback frees exactly the slot arrays this call added. *)
Lemma rollback_sound count grown m :
  growing count grown m -> exists m', rollback_deques_tail (max_worker_count m) count m = Go m' /\ sound m'.
Proof.
  intros [H1 H2 H3 H4 H5 H6]. unfold rollback_deques_tail. destruct (non_null m BDeques) eqn:Ed.
  - destruct (free_slots_spec count (seq (max_worker_count m) (count - max_worker_count m)) m H1 Ed) as (m' & -> & G1 & G2 & G3 & G4 & G5 & G6 & _).
    { intros i Hi%elem_of_seq. lia. }
    exists m'. split; [done|].
    assert (Hf : forall b, (forall i, b <> BSlots i) -> field m' b = field m b) by (intros b Hb; apply G2; auto).
    assert (Hsl : field m BDeques <> None -> forall i, non_null m' (BSlots i) = (i <? max_worker_count m)%nat).
    { intros Hn i. destruct (field m BDeques) as [n|] eqn:En; [|done]. destruct (H3 n eq_refl) as [_ Hd]. destruct (Nat.ltb_spec i (max_worker_count m)).
      - unfold non_null. rewrite G2 by (intros j Hj%elem_of_seq [= ->]; lia). fold (non_null m (BSlots i)). rewrite Hd. apply Nat.ltb_lt. lia.
      - apply G3. destruct (decide (i < count)%nat); [left; apply elem_of_seq; lia|right]. rewrite Hd. apply Nat.ltb_ge. lia. }
    assert (Hne : field m BDeques <> None) by (unfold non_null in Ed; by destruct (field m BDeques)).
    split; rewrite ?G4, ?G5, ?G6; try done.
    + rewrite G1. rewrite (owned_bound (max_worker_count m) count m') by (done || intros _ i Hi; rewrite (Hsl Hne); apply Nat.ltb_ge; lia). done.
    + intros b Hb. rewrite Hf by (intros i ->; revert Hb; clear; set_solver). destruct (H2 b Hb) as (n & ? & ? & _). exists n. split_and!; [done..|by intros ?%not_elem_of_nil].
    + intros n. rewrite Hf by done. intros Hn. split; [|by apply Hsl]. destruct (H3 n Hn). lia.
  - exists m. split; [done|]. split; try done.
    + rewrite H1. rewrite (owned_bound (max_worker_count m) count m) by (done || congruence). done.
    + intros b Hb. destruct (H2 b Hb) as (n & ? & ? & _). exists n. split_and!; [done..|by intros ?%not_elem_of_nil].
    + intros n Hn. unfold non_null in Ed. by rewrite Hn in Ed.
Qed.

(** An operation of a living pool, wherever it stops. *)
Definition keeps (P : mem -> Prop) (o : outcome) : Prop :=
  match o with Go m => P m | Stop _ m => sound m | Fault => False end.

Lemma keeps_bind P Q o f : keeps P o -> (forall m, P m -> keeps Q (f m)) -> keeps Q (and_then o f).
Proof. intros H1 H2. destruct o; simpl in *; auto. Qed.

Lemma rollback_keeps P rc count grown m :
  growing count grown m -> keeps P (let* m := rollback_deques_tail (max_worker_count m) count m in Stop rc m).
Proof. intros Hg. by destruct (rollback_sound _ _ _ Hg) as (m' & -> & ?). Qed.

Section Growth.
Context (e : env).

(** Replacing a block by a fresh one of the same name. *)
Lemma swap_block b m : exists l, release [b] (held b m) = Go (set_live l m) /\ l ≡ₚ live m.
Proof. apply (release_perm [b] (held b m) (live m)). done. Qed.

Lemma grow_deques_keeps count m : sound m -> (max_worker_count m < count)%nat -> keeps (growing count []) (grow_deques e count m).
Proof.
  intros Hs Hc. pose proof Hs as [H1 H2 H3 H4 H5 H6]. unfold grow_deques. destruct (non_null m BDeques) eqn:Ed; cbn [negb]; cycle 1.
  { assert (Hn : field m BDeques = None) by (unfold non_null in Ed; by destruct (field m BDeques)). split; try done; [| |by rewrite Hn|lia].
    - rewrite H1. rewrite (owned_bound (max_worker_count m) count m) by (lia || congruence). done.
    - intros b Hb. destruct (H2 b Hb) as (n & ? & ? & _). exists n. split_and!; [done..|by intros ?%not_elem_of_nil]. }
  destruct (ok e BDeques); cbn [negb]; [|done]. assert (Hd0 : exists n, field m BDeques = Some n) by (unfold non_null in Ed; destruct (field m BDeques) as [n0|]; [by exists n0|done]).
  destruct Hd0 as [n0 Hn0]. destruct (H3 n0 Hn0) as [_ Hsl]. set (old := max_worker_count m) in *.
  destruct (swap_block BDeques (copy_deques old m)) as (l & -> & Hl). simpl. set (m1 := set_field BDeques (Some (Z.of_nat count)) (set_live l (copy_deques old m))).
  assert (Hnn : forall b, non_null m1 b = non_null m b).
  { intros b. unfold m1, non_null. destruct (decide (b = BDeques)) as [-> |Hne]; [by rewrite set_field_eq, Hn0|].
    rewrite set_field_ne by done. simpl. destruct b; try done. specialize (Hsl i). unfold non_null in Hsl. rewrite Hsl.
    by destruct (i <? old)%nat eqn:E; [rewrite Hsl|]. }
  assert (Hf : forall b, (forall i, b <> BSlots i) -> b <> BDeques -> field m1 b = field m b).
  { intros b Hb Hne. unfold m1. rewrite set_field_ne by done. simpl. destruct b; try done. by destruct (Hb i). }
  assert (Hb1 : live m1 ≡ₚ owned count m1).
  { rewrite (owned_ext count m m1 Hnn), <- (owned_bound old count m), <- H1; [done|lia|]. intros _ i Hi. rewrite Hsl. apply Nat.ltb_ge. lia. }
  destruct (alloc_slots_spec e count (seq old (count - old)) m1 Hb1) as (r & m2 & -> & G1 & G2 & G3 & G4 & G5 & _ & G6).
  { by rewrite Hnn. }
  { intros i Hi%elem_of_seq. split; [lia|]. rewrite Hnn, Hsl. apply Nat.ltb_ge. lia. }
  { apply NoDup_seq. }
  assert (Hf2 : forall b, (forall i, b <> BSlots i) -> field m2 b = field m1 b) by (intros b Hb; apply G2; auto).
  change (max_worker_count m1) with old in G4. change (running m1) with (running m) in G5. change (worker_count m1) with (worker_count m) in G3.
  destruct r as [j|]; simpl.
  - destruct (free_slots_spec count (seq 0 count) m2 G1) as (m3 & -> & F1 & F2 & F3 & F4 & F5 & F6 & _).
    { unfold non_null. rewrite Hf2 by done. apply Ed || (fold (non_null m1 BDeques); by rewrite Hnn). }
    { intros i Hi%elem_of_seq. lia. }
    simpl. destruct (free_deques count m3 F1) as (m4 & -> & D1 & D2 & D3 & D4 & D5 & D6 & _).
    { intros i Hi. apply F3. left. apply elem_of_seq. lia. }
    split; rewrite ?D4, ?D5, ?D6, ?F4, ?F5, ?F6, ?G3, ?G4, ?G5; try done; [|by rewrite D2|lia].
    intros b Hb. assert (Hx : (forall i, b <> BSlots i) /\ b <> BDeques) by (split; intros; intros ->; revert Hb; clear; set_solver).
    destruct Hx as [Hx Hy]. rewrite D3, F2, Hf2, Hf by auto. destruct (H2 b Hb) as (n & ? & ? & _). exists n. split_and!; [done..|by intros ?%not_elem_of_nil].
  - split; rewrite ?G3, ?G4, ?G5; try done; [| |lia].
    + intros b Hb. assert (Hx : (forall i, b <> BSlots i) /\ b <> BDeques) by (split; intros; intros ->; revert Hb; clear; set_solver).
      destruct Hx as [Hx Hy]. rewrite Hf2, Hf by auto. destruct (H2 b Hb) as (n & ? & ? & _). exists n. split_and!; [done..|by intros ?%not_elem_of_nil].
    + intros n. rewrite Hf2 by done. unfold m1. rewrite set_field_eq. intros [= <-]. split; [done|]. intros i.
      destruct (decide (old <= i < count)%nat).
      * rewrite G6 by (apply elem_of_seq; lia). symmetry. apply Nat.ltb_lt. lia.
      * unfold non_null. rewrite G2 by (intros x Hx%elem_of_seq [= ->]; lia). fold (non_null m1 (BSlots i)). rewrite Hnn, Hsl.
        destruct (Nat.ltb_spec i old), (Nat.ltb_spec i count); lia.
Qed.

Lemma grow_array_keeps b count grown m :
  growing count grown m -> b ∈ plain -> keeps (growing count (b :: grown)) (grow_array e b count m).
Proof. intros Hg Hp. unfold grow_array. destruct (ok e b); [by apply growing_realloc|by eapply rollback_keeps]. Qed.

Lemma grow_coro_keeps count grown m : growing count grown m -> keeps (growing count (BCoroReady :: grown)) (grow_coro_ready e count m).
Proof.
  intros Hg. pose proof Hg as [H1 H2 H3 H4 H5 H6]. destruct (H2 BCoroReady) as (n & Hn & _); [in_list|]. unfold grow_coro_ready.
  assert (Hnn : non_null m BCoroReady = true) by (unfold non_null; by rewrite Hn). rewrite Hnn. cbn [negb].
  destruct (ok e BCoroReady); [|by eapply rollback_keeps]. destruct (swap_block BCoroReady m) as (l & -> & Hl). simpl.
  set (m1 := set_field BCoroReady _ _).
  assert (Hf : forall b, b <> BCoroReady -> field m1 b = field m b) by (intros b Hb; by apply fn_lookup_insert_ne).
  split; try done.
  - rewrite (owned_ext count m m1); [by simpl; rewrite Hl|]. intros x. unfold non_null. destruct (decide (x = BCoroReady)) as [-> |Hne].
    + unfold m1. by rewrite set_field_eq, Hn.
    + by rewrite Hf.
  - intros b Hb. destruct (decide (b = BCoroReady)) as [-> |Hne].
    + exists (Z.of_nat count). unfold m1. rewrite set_field_eq. split_and!; [done|simpl; lia|done].
    + rewrite Hf by done. destruct (H2 b Hb) as (k & ? & ? & Hk). exists k. split_and!; [done..|]. intros [-> |Hx]%elem_of_cons; [done|auto].
Qed.

Lemma grow_numa_growing count grown m : growing count grown m -> growing count grown (grow_numa e count m).
Proof.
  intros Hg. assert (Hs : forall x, grown ⊆ x :: grown) by (intros x y Hy; by right).
  unfold grow_numa. destruct (non_null m BNumaTopo); [|done]. cbv zeta.
  assert (H1 : growing count grown (if ok e BWorkerDomainIds then realloc BWorkerDomainIds (Z.of_nat count) m else m)).
  { destruct (ok e BWorkerDomainIds); [|done]. eapply growing_weaken; [apply Hs|]. by apply growing_realloc; [|in_list|]. }
  destruct (ok e BWorkerCpuIds); [|done]. eapply growing_weaken; [apply Hs|]. by apply growing_realloc; [|in_list|].
Qed.

Lemma grow_arrays_keeps count m : sound m -> (max_worker_count m < count)%nat -> keeps sound (grow_arrays e count m).
Proof.
  intros Hs Hc. unfold grow_arrays. eapply keeps_bind; [by apply grow_deques_keeps|]. intros m1 H1.
  eapply keeps_bind; [apply grow_array_keeps; [done|in_list]|]. intros m2 H2. eapply keeps_bind; [apply grow_array_keeps; [done|in_list]|]. intros m3 H3.
  eapply keeps_bind; [apply grow_array_keeps; [done|in_list]|]. intros m4 H4. eapply keeps_bind; [apply grow_array_keeps; [done|in_list]|]. intros m5 H5.
  eapply keeps_bind; [apply grow_array_keeps; [done|in_list]|]. intros m6 H6. eapply keeps_bind; [by apply grow_coro_keeps|]. intros m7 H7. simpl.
  eapply growing_sound; [by apply grow_numa_growing|]. clear. set_solver.
Qed.

Lemma Forall_filtered {A} (P Q : A -> Prop) `{!forall x, Decision (Q x)} (l : list A) : Forall P l -> Forall P (filter Q l).
Proof. induction 1; [constructor|]. rewrite filter_cons. case_decide; [by constructor|done]. Qed.

Lemma sound_running m l : sound m -> Forall (fun i => (i < max_worker_count m)%nat) l -> sound (set_running l m).
Proof. intros [H1 H2 H3 H4 H5 H6] Hl. by split. Qed.

Lemma sound_count m n : sound m -> (n <= max_worker_count m)%nat -> sound (set_worker_count n m).
Proof. intros [H1 H2 H3 H4 H5 H6] Hl. by split. Qed.

Lemma sound_live m l : sound m -> l ≡ₚ live m -> sound (set_live l m).
Proof. intros [H1 H2 H3 H4 H5 H6] Hl. split; try done. exact (Permutation_trans Hl H1). Qed.

(** A worker was started: its argument block came and went. *)
Lemma started_sound i m l :
  sound m -> l ≡ₚ live m -> (i < max_worker_count m)%nat -> sound (set_running (running m ++ [i]) (set_live l m)).
Proof.
  intros Hs Hl Hi. pose proof (g_run _ _ _ Hs) as Hr. apply (sound_running (set_live l m)); [by apply sound_live|].
  simpl. apply Forall_app. split; [done|]. by constructor.
Qed.

Lemma start_workers_spec idx m :
  sound m -> Forall (fun i => (i < max_worker_count m)%nat) idx ->
  match start_workers e idx m with
  | Go m' => sound m' /\ shutdown m' = shutdown m
  | Stop rc m' => running m' = [] /\ (live m' = [] \/ rc = LOOMWORKS_ERR_THREAD /\ exists i, live m' = [BWorkerArg i])
  | Fault => False
  end.
Proof.
  revert m. induction idx as [|i idx IH]; intros m Hs Hi; simpl; [done|]. apply Forall_cons in Hi as [Hi Hidx].
  destruct (ok e (BWorkerArg i)); cbn [negb]; cycle 1.
  { unfold unwind. rewrite destroy_balanced; [by simpl; auto|apply Hs|done]. }
  destruct (spawn_ok e i); cbn [negb].
  - rewrite decide_True by done. apply (IH (set_running (running m ++ [i]) (set_live (live m) m))); [by apply started_sound|done].
  - unfold unwind, pool_destroy_internal. cbn [running set_running set_shutdown held set_live]. rewrite bool_decide_eq_true_2 by done.
    match goal with |- context [release ?bs ?x] => destruct (release_perm bs x [BWorkerArg i]) as (l & -> & Hl) end.
    { simpl. rewrite (Permutation_app_comm (owned _ _)). simpl. apply perm_skip, Hs. }
    simpl. apply Permutation_singleton_r in Hl as ->. split; [done|]. right. split; [done|]. by exists i.
Qed.

Lemma spawn_workers_keeps old idx m :
  sound m -> Forall (fun i => (i < max_worker_count m)%nat) idx -> (old <= max_worker_count m)%nat ->
  keeps (fun m' => sound m' /\ worker_count m' = worker_count m) (spawn_workers e old idx m).
Proof.
  revert m. induction idx as [|i idx IH]; intros m Hs Hi Ho; simpl; [done|]. apply Forall_cons in Hi as [Hi Hidx].
  assert (Hback : forall m, sound m -> (old <= max_worker_count m)%nat ->
    sound (set_running (filter (fun j => ~ (old <= j < i)%nat) (running m)) (set_worker_count old m))).
  { intros m0 Hs0 Ho0. apply sound_running; [by apply sound_count|]. simpl. apply Forall_filtered, Hs0. }
  case_bool_decide; [by apply IH|]. destruct (ok e (BWorkerArg i)); cbn [negb]; [|by apply Hback].
  rewrite decide_True by done. simpl. destruct (spawn_ok e i); cbn [negb and_then].
  - apply (IH (set_running (running m ++ [i]) (set_live (live m) m))); [by apply started_sound|done|done].
  - apply (Hback (set_live (live m) m)); [by apply sound_live|done].
Qed.

Lemma resize_keeps count m : sound m -> keeps sound (loom_pool_resize e count m).
Proof.
  intros Hs. unfold loom_pool_resize. destruct (count =? 0)%nat; [done|]. destruct (count =? worker_count m)%nat; [done|].
  destruct (shutdown m); [done|].
  assert (Hg : keeps (fun m' => sound m' /\ (count <= max_worker_count m')%nat) (if (max_worker_count m <? count)%nat then grow_arrays e count m else Go m)).
  { destruct (Nat.ltb_spec (max_worker_count m) count); [|done]. pose proof (grow_arrays_keeps count m Hs ltac:(done)) as Hk.
    assert (Hmax : forall m', grow_arrays e count m = Go m' -> max_worker_count m' = count).
    { intros m' E. unfold grow_arrays in E. repeat (match type of E with and_then ?o _ = _ => destruct o; simpl in E; [|discriminate|discriminate] end).
      by injection E as <-. }
    destruct (grow_arrays e count m) as [m'|rc m'|]; simpl in *; [|done..]. split; [done|]. by rewrite (Hmax m' eq_refl). }
  eapply keeps_bind; [exact Hg|]. clear dependent m. intros m [Hs Hc]. cbv zeta.
  eapply keeps_bind; [apply spawn_workers_keeps|].
  - by apply sound_count.
  - apply Forall_seq. simpl. lia.
  - apply Hs.
  - intros m' [Hs' _]. simpl. apply sound_running; [done|]. apply Forall_filtered, Hs'.
Qed.
End Growth.

Lemma life_step_sound m o : sound m -> exists m', life_step m o = Some m' /\ sound m'.
Proof.
  intros Hs. destruct o as [e count|n r|]; simpl.
  - pose proof (resize_keeps e count m Hs) as Hk. destruct (loom_pool_resize e count m) as [m'|rc m'|]; [by exists m'..|done].
  - eexists. split; [done|]. unfold grow_timer_heap. destruct r; [|done].
    assert (E : max_worker_count (realloc BTimerHeap n m) = max_worker_count m) by (unfold realloc; by destruct (non_null _ _)).
    unfold sound. rewrite E. eapply growing_weaken; [|apply (growing_realloc _ [] BTimerHeap n m Hs)]; [apply list_subseteq_nil|in_list|].
    clear. intros H. exfalso. revert H. set_solver.
  - eexists. split; [done|]. destruct Hs as [H1 H2 H3 H4 H5 H6]. by split.
Qed.

Lemma life_run_sound os m : sound m -> exists m', life_run m os = Some m' /\ sound m'.
Proof.
  revert m. induction os as [|o os IH]; intros m Hs; simpl; [by exists m|]. destruct (life_step_sound m o Hs) as (m' & -> & Hs'). by apply IH.
Qed.

(** ** Theorems *)

Lemma create_sound e cfg m0 : loom_pool_create e cfg = Go m0 -> sound m0 /\ shutdown m0 = false.
Proof.
  intros Hc. unfold loom_pool_create in Hc. destruct (ok e BPool); [|done]. pose proof (pool_init_good e cfg) as Hi.
  cbn [negb] in Hc. destruct (pool_init e cfg _) as [m|rc m|]; [|by destruct (release [BPool] m)|done].
  destruct Hi as (_ & _ & Hr). pose proof (start_workers_spec e (seq 0 (worker_count m)) m (ready_sound m Hr)) as Hw. rewrite Hc in Hw.
  rewrite (r_shut _ _ Hr) in Hw. apply Hw, Forall_seq. rewrite (r_count _ _ Hr) by lia. lia.
Qed.

Lemma sound_destroyed m : sound m -> exists m', loom_pool_destroy (shut_and_join m) = Stop LOOMWORKS_OK m' /\ live m' = [].
Proof.
  intros [H1 H2 H3 H4 H5 H6]. exists (set_live [] (shut_and_join m)). split; [|done]. unfold loom_pool_destroy. simpl. by rewrite destroy_balanced.
Qed.

(** How loom_pool_create can fail. *)
Definition fails_late (e : env) (cfg : loom_pool_config) : bool := ok e BPool && locks_ok e && negb (essentials e (cfg_numa_mode cfg)).

Lemma create_outcome e cfg :
  match loom_pool_create e cfg with
  | Go m => fails_late e cfg = false /\ running m = seq 0 (worker_count m)
  | Stop rc m => fails_late e cfg = false /\ running m = [] /\ (live m = [] \/ rc = LOOMWORKS_ERR_THREAD /\ exists i, live m = [BWorkerArg i])
  | Fault => fails_late e cfg = true
  end.
Proof.
  unfold fails_late, loom_pool_create. destruct (ok e BPool); cbn [negb andb]; [|by split_and!; [| |left]].
  pose proof (pool_init_good e cfg) as Hi. destruct (pool_init e cfg _) as [m|rc m|]; [|clear -Hi|done].
  - destruct Hi as (-> & -> & Hr). pose proof (start_workers_spec e (seq 0 (worker_count m)) m (ready_sound m Hr)) as Hw.
    assert (Hall : forall idx m1 m2, start_workers e idx m1 = Go m2 -> running m2 = running m1 ++ idx /\ worker_count m2 = worker_count m1).
    { induction idx as [|i idx IH]; intros m1 m2 E; simpl in E; [injection E as <-; by rewrite app_nil_r|].
      destruct (ok e (BWorkerArg i)); cbn [negb] in E; [|unfold unwind in E; by destruct (pool_destroy_internal _)].
      destruct (spawn_ok e i); cbn [negb] in E; [|unfold unwind in E; by destruct (pool_destroy_internal _)].
      rewrite decide_True in E by done. apply IH in E as [E1 E2]. simpl in E1, E2. by rewrite E1, <- app_assoc. }
    destruct (start_workers e _ m) as [m'|rc m'|] eqn:E; [| |].
    + destruct (Hall _ _ _ E) as [-> ->]. by rewrite (r_run _ _ Hr).
    + split; [done|]. apply Hw, Forall_seq. rewrite (r_count _ _ Hr) by lia. lia.
    + exfalso. apply Hw, Forall_seq. rewrite (r_count _ _ Hr) by lia. lia.
  - destruct Hi as [Hr Hi]. destruct (locks_ok e).
    + destruct Hi as [-> Hl]. simpl. by rewrite Hl.
    + simpl. rewrite Hi. simpl. split_and!; [done|done|by left].
Qed.


(** C39. A failed loom_pool_create leaves nothing behind except in two
    cases: when pthread_create fails, the argument block of the thread that
    could not be started is leaked; and when pool_init fails after its locks
    are ready (recovery tables, coroutine FIFOs and their locks, thread tables
    or topology), pool_destroy_internal has freed the pool and loom_pool_create
    frees it again, a double free, exactly in those cases. *)
Theorem pool_create_failure e cfg :
  (loom_pool_create e cfg = Fault <-> ok e BPool && locks_ok e && negb (essentials e (cfg_numa_mode cfg)) = true) /\
  (forall m, loom_pool_create e cfg = Go m -> running m = seq 0 (worker_count m)) /\
  (forall rc m, loom_pool_create e cfg = Stop rc m ->
     running m = [] /\ (live m = [] \/ rc = LOOMWORKS_ERR_THREAD /\ exists i, live m = [BWorkerArg i])).
Proof.
  fold (fails_late e cfg). pose proof (create_outcome e cfg) as H. destruct (loom_pool_create e cfg) as [m|rc m|].
  - destruct H as [-> H]. by split_and!; [| |]; [|intros ? [= <-]|].
  - destruct H as [-> H]. split_and!; [done|done|]. by intros ? ? [= <- <-].
  - by rewrite H.
Qed.

(** *** Runs *)

Definition all_ok : env := mk_env (fun _ => true) (fun _ => true) 4 (create_single_domain_fallback 4 alloc_ok).
Definition failing (b : block) : env :=
  mk_env (fun x => negb (bool_decide (x = b))) (fun _ => true) 4 (create_single_domain_fallback 4 alloc_ok).
Definition two_workers (mode : loom_numa_mode_t) : loom_pool_config := mk_config 2 64 mode.

(** Two workers; a grow to 4 that fails half way and is rolled back, one that
    loses the deques, a shrink. *)
Definition rough_life : list life_op :=
  [LResize (failing BThreadAlive) 4; LTimerHeap 16 true; LResize (failing (BSlots 3)) 4; LResize all_ok 1].


(** A pool whose thread table cannot be allocated is freed twice; a thread
    that cannot be started leaks its argument. *)
Example create_double_free : loom_pool_create (failing BThreads) (two_workers LOOM_NUMA_DISABLED) = Fault.
Proof. vm_compute. reflexivity. Qed.

Example create_leaks_argument :
  match loom_pool_create (mk_env (fun _ => true) (fun i => (i <? 1)%nat) 4 (LOOMWORKS_OK, None)) (two_workers LOOM_NUMA_DISABLED) with
  | Stop LOOMWORKS_ERR_THREAD m => live m = [BWorkerArg 1]
  | _ => False
  end.
Proof. vm_compute. reflexivity. Qed.

(** A grow of a pool with a topology goes on when the placement arrays cannot
    be grown: max_worker_count passes their length, and a new worker reads
    worker_cpu_ids outside the array. *)
Theorem resize_numa_out_of_bounds :
  exists m0 m n, loom_pool_create all_ok (two_workers LOOM_NUMA_AUTO) = Go m0 /\
    life_run m0 [LResize (failing BWorkerCpuIds) 4] = Some m /\
    3%nat ∈ running m /\ field m BWorkerCpuIds = Some n /\ n <= 3.
Proof.
  eexists _, _, 2. split; [vm_compute; reflexivity|]. split; [vm_compute; reflexivity|].
  split; [apply (bool_decide_unpack _); vm_compute; exact I|]. split; [vm_compute; reflexivity|lia].
Qed.
