(* ===== verification/Recovery.v ===== *)
(** * Worker crashes: reclaim slots, the recovery scan and the shutdown joins
    (src/thread_pool.c: the dispatch at the end of worker_entry,
    check_and_recover_workers, the join loop of loom_pool_shutdown).

    A worker that dies inside a task function (pthread_exit, thread
    cancellation) cannot clean up after itself.  Around the call it publishes
    in worker_reclaim[i] what it owes, a future context or the plain marker;
    whoever finds the thread terminated claims the slot with an atomic
    exchange.  A step is one access to shared state: the worker's increment,
    publication, clearing and final decrement, the scan's treatment of one
    slot (under the pool lock), and the beginning and the end of one
    pthread_join of the shutdown loop, which holds no lock. *)
From S2P Require Import Prelude Types.

(** What a reclaim slot names: a context (by number) or &g_plain_task_marker. *)
Inductive reclaim := Plain | Ctx (c : nat).

Inductive wphase :=
  | WkIdle                      (* in the worker loop, no task *)
  | WkCounted (k : reclaim)     (* active_workers incremented *)
  | WkBusy (k : reclaim)        (* slot published; callbacks and task function *)
  | WkCleared (k : reclaim)     (* slot cleared, context and count still owed *)
  | WkLeft                      (* returned from worker_entry, not joined *)
  | WkCrashed                   (* terminated without the clean flag, not joined *)
  | WkGone.                     (* no thread *)

(** One index of the per-worker arrays. *)
Record slot := mk_slot {
  ph : wphase;
  worker_reclaim : option reclaim;
  thread_alive : bool;
  thread_clean_exit : bool;
  recovery_attempts : Z;
  handle : nat;                 (* threads[i]: which thread of this slot *)
}.

Record crew := mk_crew {
  slots : list slot;
  active_workers : Z;           (* uint32_t *)
  abnormal_total : Z;           (* uint32_t *)
  shutdown : bool;
  joining : option (nat * nat); (* the shutdown thread is in pthread_join of this slot and handle *)
  next_ctx : nat;
  freed : list nat;             (* contexts freed *)
  cancelled : list nat;         (* contexts whose future was marked cancelled *)
  failed : nat;                 (* FAILED events fired *)
  crashes : list (option nat);  (* crashes so far, with the context of the task *)
  stale : nat;                  (* joins that found their thread already reaped *)
}.

Definition set_slot (s : crew) (i : nat) (x : slot) : crew :=
  mk_crew (<[i := x]> (slots s)) (active_workers s) (abnormal_total s) (shutdown s) (joining s) (next_ctx s) (freed s) (cancelled s)
    (failed s) (crashes s) (stale s).
Definition set_active (s : crew) (n : Z) : crew :=
  mk_crew (slots s) n (abnormal_total s) (shutdown s) (joining s) (next_ctx s) (freed s) (cancelled s) (failed s) (crashes s) (stale s).
Definition set_joining (s : crew) (j : option (nat * nat)) : crew :=
  mk_crew (slots s) (active_workers s) (abnormal_total s) (shutdown s) j (next_ctx s) (freed s) (cancelled s) (failed s) (crashes s) (stale s).

Definition with_phase (x : slot) (p : wphase) (r : option reclaim) : slot :=
  mk_slot p r (thread_alive x) (thread_clean_exit x) (recovery_attempts x) (handle x).

Definition ctx_of (k : reclaim) : list nat := match k with Plain => [] | Ctx c => [c] end.

(** ** The worker *)

(** Taking a task: the context of a future task is new. *)
Definition dispatch (s : crew) (i : nat) (x : slot) (future : bool) : crew :=
  let k := if future then Ctx (next_ctx s) else Plain in
  let s1 := set_slot s i (with_phase x (WkCounted k) (worker_reclaim x)) in
  mk_crew (slots s1) (active_workers s1 +32 1) (abnormal_total s1) (shutdown s1) (joining s1) (if future then S (next_ctx s1) else next_ctx s1)
    (freed s1) (cancelled s1) (failed s1) (crashes s1) (stale s1).

(** The end of a task: the context is freed and the count given back. *)
Definition retire (s : crew) (i : nat) (x : slot) (k : reclaim) : crew :=
  let s1 := set_slot s i (with_phase x WkIdle (worker_reclaim x)) in
  mk_crew (slots s1) (active_workers s1 -32 1) (abnormal_total s1) (shutdown s1) (joining s1) (next_ctx s1) (ctx_of k ++ freed s1)
    (cancelled s1) (failed s1) (crashes s1) (stale s1).

Definition crash (s : crew) (i : nat) (x : slot) : crew :=
  let s1 := set_slot s i (with_phase x WkCrashed (worker_reclaim x)) in
  mk_crew (slots s1) (active_workers s1) (abnormal_total s1) (shutdown s1) (joining s1) (next_ctx s1) (freed s1) (cancelled s1) (failed s1)
    (match worker_reclaim x with Some (Ctx c) => Some c | _ => None end :: crashes s1) (stale s1).

(** ** Claiming the slot of a crashed worker *)

(** The exchange of worker_reclaim[i] with NULL and what follows it; the
    slot's other fields become those of [x']. *)
Definition reclaim_slot (s : crew) (i : nat) (x x' : slot) : crew :=
  let s1 := set_slot s i (mk_slot (ph x') None (thread_alive x') (thread_clean_exit x') (recovery_attempts x') (handle x')) in
  match worker_reclaim x with
  | None => s1
  | Some k =>
      mk_crew (slots s1) (active_workers s1 -32 1) (abnormal_total s1) (shutdown s1) (joining s1) (next_ctx s1) (ctx_of k ++ freed s1)
        (ctx_of k ++ cancelled s1) (failed s1) (crashes s1) (stale s1)
  end.

Definition count_abnormal (s : crew) (fired : nat) : crew :=
  mk_crew (slots s) (active_workers s) (abnormal_total s +32 1) (shutdown s) (joining s) (next_ctx s) (freed s) (cancelled s)
    (failed s + fired) (crashes s) (stale s).

Section Crew.
Context (worker_recovery_timeout_ns : Z) (max_recovery_attempts : Z) (worker_count : nat).

(** The treatment of slot [i] by check_and_recover_workers; [restart] = the
    argument block and the new thread could be had.  FAILED is fired once per
    crash in a task. *)
Definition recover_slot (s : crew) (i : nat) (x : slot) (restart : bool) : crew :=
  if worker_recovery_timeout_ns <=? 0 then s
  else if negb (i <? worker_count)%nat then s
  else if negb (thread_alive x && negb (thread_clean_exit x)) then s
  else if max_recovery_attempts <=? recovery_attempts x then s
  else
    match ph x with
    | WkCrashed =>
        count_abnormal
          (reclaim_slot s i x
             (if restart
              then mk_slot WkIdle None true (thread_clean_exit x) (recovery_attempts x + 1) (S (handle x))
              else mk_slot WkGone None false (thread_clean_exit x) (recovery_attempts x) (handle x)))
          (match worker_reclaim x with Some _ => 1 | None => 0 end)
    | _ => s                      (* tryjoin: the thread is still running *)
    end.

(** pthread_join of the shutdown loop returned for slot [i]; [jrc_ok] = 0. *)
Definition join_done (s : crew) (i : nat) (x : slot) (jrc_ok : bool) : crew :=
  let x' := mk_slot (if jrc_ok then WkGone else ph x) None false (thread_clean_exit x) (recovery_attempts x) (handle x) in
  let s1 := set_joining s None in
  if negb jrc_ok || negb (thread_clean_exit x) then count_abnormal (reclaim_slot s1 i x x') 1
  else set_slot s1 i (mk_slot (ph x') (worker_reclaim x) false (thread_clean_exit x) (recovery_attempts x) (handle x)).

Definition count_stale (s : crew) : crew :=
  mk_crew (slots s) (active_workers s) (abnormal_total s) (shutdown s) (joining s) (next_ctx s) (freed s) (cancelled s) (failed s)
    (crashes s) (S (stale s)).

Inductive cevent :=
  | CDispatch (i : nat) (future : bool)
  | CPublish (i : nat)
  | CClear (i : nat)
  | CRetire (i : nat)
  | CCrash (i : nat)
  | CExit (i : nat)                     (* the worker's clean exit *)
  | CRecover (i : nat) (restart : bool)
  | CShutdown
  | CJoinBegin (i : nat)
  | CJoinEnd.

Definition cstep (s : crew) (ev : cevent) : option crew :=
  match ev with
  | CDispatch i future => match slots s !! i with Some x => match ph x with WkIdle => Some (dispatch s i x future) | _ => None end | None => None end
  | CPublish i =>
      match slots s !! i with
      | Some x => match ph x with WkCounted k => Some (set_slot s i (with_phase x (WkBusy k) (Some k))) | _ => None end
      | None => None
      end
  | CClear i =>
      match slots s !! i with
      | Some x => match ph x with WkBusy k => Some (set_slot s i (with_phase x (WkCleared k) None)) | _ => None end
      | None => None
      end
  | CRetire i => match slots s !! i with Some x => match ph x with WkCleared k => Some (retire s i x k) | _ => None end | None => None end
  | CCrash i =>
      match slots s !! i with
      | Some x => match ph x with WkIdle | WkBusy _ => Some (crash s i x) | _ => None end
      | None => None
      end
  | CExit i =>
      match slots s !! i with
      | Some x => match ph x with
                  | WkIdle => Some (set_slot s i (mk_slot WkLeft (worker_reclaim x) (thread_alive x) true (recovery_attempts x) (handle x)))
                  | _ => None
                  end
      | None => None
      end
  | CRecover i restart => match slots s !! i with Some x => Some (recover_slot s i x restart) | None => None end
  | CShutdown =>
      Some (mk_crew (slots s) (active_workers s) (abnormal_total s) true (joining s) (next_ctx s) (freed s) (cancelled s) (failed s) (crashes s) (stale s))
  | CJoinBegin i =>
      match slots s !! i, joining s with
      | Some x, None => if shutdown s && thread_alive x then Some (set_joining s (Some (i, handle x))) else None
      | _, _ => None
      end
  | CJoinEnd =>
      match joining s with
      | Some (i, h) =>
          match slots s !! i with
          | Some x =>
              if (handle x =? h)%nat then
                match ph x with
                | WkLeft | WkCrashed => Some (join_done s i x true)
                | WkGone => Some (count_stale (join_done s i x false))
                | _ => None
                end
              else Some (count_stale (join_done s i x false))
          | None => None
          end
      | None => None
      end
  end.

Fixpoint crun (s : crew) (evs : list cevent) : option crew :=
  match evs with
  | [] => Some s
  | ev :: evs => match cstep s ev with Some s' => crun s' evs | None => None end
  end.
End Crew.

Definition crew_start (n : nat) : crew := mk_crew (replicate n (mk_slot WkIdle None true false 0 0)) 0 0 false None 0 [] [] 0 [] 0.

(** ** Invariant *)

Definition slot_ok (x : slot) : Prop :=
  match ph x with
  | WkBusy k => worker_reclaim x = Some k /\ thread_clean_exit x = false
  | WkCrashed => thread_clean_exit x = false
  | WkLeft => worker_reclaim x = None /\ thread_clean_exit x = true
  | WkGone => worker_reclaim x = None
  | _ => worker_reclaim x = None /\ thread_clean_exit x = false
  end.

(** The contexts a slot is responsible for, the units of active_workers it
    holds, and the crashes nobody has seen yet. *)
Definition slot_ctx (x : slot) : list nat :=
  match ph x with WkCounted k | WkCleared k => ctx_of k | _ => match worker_reclaim x with Some k => ctx_of k | None => [] end end.
Definition slot_units (x : slot) : nat :=
  match ph x with WkCounted _ | WkCleared _ => 1 | _ => match worker_reclaim x with Some _ => 1 | None => 0 end end.
Definition slot_unseen (x : slot) : nat := match ph x with WkCrashed => 1 | _ => 0 end.
Definition slot_owed (x : slot) : list nat :=
  match ph x with WkCrashed => match worker_reclaim x with Some k => ctx_of k | None => [] end | _ => [] end.

Definition crash_ctx (o : option nat) : list nat := match o with Some c => [c] | None => [] end.

Record crew_inv (s : crew) : Prop := {
  ci_slots : Forall slot_ok (slots s);
  ci_ctx : concat (slot_ctx <$> slots s) ++ freed s ≡ₚ seq 0 (next_ctx s);
  ci_active : active_workers s = u32 (Z.of_nat (sum_list_with slot_units (slots s)));
  ci_abnormal : abnormal_total s = u32 (Z.of_nat (length (crashes s)) - Z.of_nat (sum_list_with slot_unseen (slots s)));
  ci_cancelled : concat (slot_owed <$> slots s) ++ cancelled s ≡ₚ concat (crash_ctx <$> crashes s);
}.

(** Writing one slot: what the invariant needs of the new value. *)
Lemma slots_write (L : list slot) i x x' (f : slot -> list nat) :
  L !! i = Some x -> f x ++ concat (f <$> <[i := x']> L) ≡ₚ f x' ++ concat (f <$> L).
Proof. intros Hi. rewrite list_fmap_insert. apply concat_insert. by rewrite list_lookup_fmap, Hi. Qed.

Lemma units_write (L : list slot) i x x' (f : slot -> nat) :
  L !! i = Some x -> (f x + sum_list_with f (<[i := x']> L) = f x' + sum_list_with f L)%nat.
Proof. apply sum_insert. Qed.

(** A step that writes slot [i] and moves the ledgers by what the slot lost. *)
Lemma crew_inv_write s s' i x x' da db :
  crew_inv s -> slots s !! i = Some x -> slots s' = <[i := x']> (slots s) -> slot_ok x' ->
  slot_ctx x' ++ freed s' ++ seq 0 (next_ctx s) ≡ₚ slot_ctx x ++ freed s ++ seq 0 (next_ctx s') ->
  active_workers s' = u32 (active_workers s + da) -> da = Z.of_nat (slot_units x') - Z.of_nat (slot_units x) ->
  abnormal_total s' = u32 (abnormal_total s + db) ->
  db = Z.of_nat (length (crashes s')) - Z.of_nat (length (crashes s)) - (Z.of_nat (slot_unseen x') - Z.of_nat (slot_unseen x)) ->
  slot_owed x' ++ cancelled s' ++ concat (crash_ctx <$> crashes s) ≡ₚ slot_owed x ++ cancelled s ++ concat (crash_ctx <$> crashes s') ->
  crew_inv s'.
Proof.
  intros [H1 H2 H3 H4 H5] Hi Hs Hok Hc Ha Hda Hb Hdb Ho. split; rewrite ?Hs.
  - by apply Forall_write.
  - pose proof (slots_write (slots s) i x x' slot_ctx Hi) as Hw. revert Hc Hw H2. clear.
    generalize (concat (slot_ctx <$> <[i:=x']> (slots s))) as A, (concat (slot_ctx <$> slots s)) as B, (seq 0 (next_ctx s)) as S1, (seq 0 (next_ctx s')) as S2.
    intros A B S1 S2 Hc Hw H2. pcount.
  - pose proof (units_write (slots s) i x x' slot_units Hi). rewrite Ha, H3, u32_add_l. f_equal. lia.
  - pose proof (units_write (slots s) i x x' slot_unseen Hi). rewrite Hb, H4, u32_add_l. f_equal. lia.
  - pose proof (slots_write (slots s) i x x' slot_owed Hi) as Hw. revert Ho Hw H5. clear.
    generalize (concat (slot_owed <$> <[i:=x']> (slots s))) as A, (concat (slot_owed <$> slots s)) as B, (concat (crash_ctx <$> crashes s)) as S1, (concat (crash_ctx <$> crashes s')) as S2.
    intros A B S1 S2 Hc Hw H5. pcount.
Qed.

Lemma inv_still s : crew_inv s -> active_workers s = u32 (active_workers s + 0) /\ abnormal_total s = u32 (abnormal_total s + 0).
Proof. intros [_ _ H3 H4 _]. rewrite H3, H4, !u32_add_l, !Z.add_0_r. done. Qed.

(** Closes the side conditions of [crew_inv_write] for a slot in a known
    phase; permutations are left. *)
Ltac ledger :=
  unfold slot_ok, slot_ctx, slot_units, slot_unseen, slot_owed, with_phase in *;
  cbn [ph worker_reclaim thread_alive thread_clean_exit recovery_attempts handle] in *; destruct_and?; subst; cbn in *; auto; try lia.

Lemma reclaim_slot_inv s i x x' n :
  crew_inv s -> slots s !! i = Some x -> ph x = WkCrashed -> (ph x' = WkIdle /\ thread_clean_exit x' = false \/ ph x' = WkGone) ->
  crew_inv (count_abnormal (reclaim_slot s i x x') n).
Proof.
  intros Hinv Hi Hp Hx'. destruct (inv_still s Hinv) as [Ha0 Hb0].
  set (y := mk_slot (ph x') None (thread_alive x') (thread_clean_exit x') (recovery_attempts x') (handle x')).
  assert (Hy : slot_ok y /\ slot_ctx y = [] /\ slot_units y = 0%nat /\ slot_unseen y = 0%nat /\ slot_owed y = []).
  { unfold slot_ok, slot_ctx, slot_units, slot_unseen, slot_owed, y. simpl. by destruct Hx' as [[-> ->]| ->]. }
  destruct Hy as (Y1 & Y2 & Y3 & Y4 & Y5).
  assert (Hx : slot_ctx x = match worker_reclaim x with Some k => ctx_of k | None => [] end /\ slot_owed x = slot_ctx x /\ slot_unseen x = 1%nat /\
    slot_units x = match worker_reclaim x with Some _ => 1 | None => 0 end%nat).
  { unfold slot_ctx, slot_owed, slot_unseen, slot_units. by rewrite Hp. }
  destruct Hx as (X1 & X2 & X3 & X4). unfold reclaim_slot. fold y.
  destruct (worker_reclaim x) as [k|] eqn:Ek.
  - apply (crew_inv_write s _ i x y (-1) 1); simpl; try done; rewrite ?X2, ?Y2, ?Y5, ?X1; try lia; cbn [app].
    + generalize (seq 0 (next_ctx s)) as S1. intros S1. pcount.
    + generalize (concat (crash_ctx <$> crashes s)) as S1. intros S1. pcount.
  - apply (crew_inv_write s _ i x y 0 1); simpl; try done; rewrite ?X2, ?Y2, ?Y5, ?X1; try lia; done.
Qed.

Lemma cstep_inv tmo att wc s ev s' :
  crew_inv s -> cstep tmo att wc s ev = Some s' -> stale s' = 0%nat -> crew_inv s'.
Proof.
  intros Hinv Hs Hst. pose proof Hinv as [Hok _ _ _ _].
  assert (Hslot : forall i x, slots s !! i = Some x -> slot_ok x) by (intros i x Hi; by eapply Forall_lookup_1).
  destruct (inv_still _ Hinv) as [Ha0 Hb0].
  destruct ev as [i fu|i|i|i|i|i|i r| |i|]; simpl in Hs;
    try (destruct (slots s !! i) as [x|] eqn:Hi; [specialize (Hslot _ _ Hi)|done]).
  - destruct x as [p rr al cl att0 h]. destruct p; simplify_eq/=.
    apply (crew_inv_write s _ i _ (mk_slot (WkCounted (if fu then Ctx (next_ctx s) else Plain)) rr al cl att0 h) 1 0 Hinv Hi); ledger.
    destruct fu; [|done]. rewrite (seq_S (next_ctx s)). cbn [ctx_of app plus]. generalize (seq 0 (next_ctx s)) as S1. intros S1. pcount.
  - destruct x as [p rr al cl att0 h]. destruct p; simplify_eq/=.
    apply (crew_inv_write s _ i _ (mk_slot (WkBusy k) (Some k) al cl att0 h) 0 0 Hinv Hi); ledger.
  - destruct x as [p rr al cl att0 h]. destruct p; simplify_eq/=.
    apply (crew_inv_write s _ i _ (mk_slot (WkCleared k) None al cl att0 h) 0 0 Hinv Hi); ledger.
  - destruct x as [p rr al cl att0 h]. destruct p; simplify_eq/=.
    apply (crew_inv_write s _ i _ (mk_slot WkIdle rr al cl att0 h) (-1) 0 Hinv Hi); ledger.
    generalize (seq 0 (next_ctx s)) as S1. intros S1. pcount.
  - destruct x as [p rr al cl att0 h]. destruct p; simplify_eq/=;
      apply (crew_inv_write s _ i _ (mk_slot WkCrashed rr al cl att0 h) 0 0 Hinv Hi); ledger.
    destruct k; cbn; [done|]. generalize (concat (crash_ctx <$> crashes s)) as S1. intros S1. pcount.
  - destruct x as [p rr al cl att0 h]. destruct p; simplify_eq/=.
    apply (crew_inv_write s _ i _ (mk_slot WkLeft rr al true att0 h) 0 0 Hinv Hi); ledger.
  - simplify_eq. unfold recover_slot. destruct (tmo <=? 0); [done|]. destruct (negb (i <? wc)%nat); [done|]. destruct (negb _); [done|].
    destruct (att <=? _); [done|]. destruct (ph x) eqn:Hp; try done.
    apply reclaim_slot_inv; [done..|]. unfold slot_ok in Hslot. rewrite Hp in Hslot. destruct r; simpl; [by left|by right].
  - simplify_eq. by destruct Hinv.
  - destruct (joining s); [done|]. destruct (shutdown s && thread_alive x); simplify_eq. by destruct Hinv.
  - destruct (joining s) as [[i h]|]; [|done]. destruct (slots s !! i) as [x|] eqn:Hi; [|done]. specialize (Hslot _ _ Hi).
    destruct (handle x =? h)%nat; [|by simplify_eq]. destruct (ph x) eqn:Hp; simplify_eq; try done; unfold join_done; unfold slot_ok in Hslot; rewrite Hp in Hslot.
    + destruct Hslot as [Hr Hcl]. rewrite Hcl. simpl. destruct x as [p rr al cl att0 h']. simplify_eq/=.
      apply (crew_inv_write s _ i _ (mk_slot WkGone None false true att0 h') 0 0 Hinv Hi); ledger.
    + rewrite Hslot. simpl. apply (reclaim_slot_inv (set_joining s None)); [by destruct Hinv|done|done|by right].
Qed.

Lemma cstep_stale tmo att wc s ev s' : cstep tmo att wc s ev = Some s' -> (stale s <= stale s')%nat.
Proof.
  assert (Hr : forall s i x y, stale (reclaim_slot s i x y) = stale s) by (intros ? ? x ? ; unfold reclaim_slot; by destruct (worker_reclaim x)).
  assert (Hj : forall s i x b, stale (join_done s i x b) = stale s).
  { intros s0 i x b. unfold join_done. destruct (_ || _); [|done]. unfold count_abnormal. cbn [stale]. by rewrite Hr. }
  assert (Hc : forall s i x b, stale (recover_slot tmo att wc s i x b) = stale s).
  { intros s0 i x b. unfold recover_slot. repeat (case_match; try done); unfold count_abnormal; cbn [stale]; by rewrite Hr. }
  destruct ev as [i fu|i|i|i|i|i|i r| |i|]; simpl; intros H; repeat case_match; simplify_eq; try done; unfold count_stale; cbn [stale]; rewrite ?Hj, ?Hc; lia.
Qed.

Lemma crun_inv tmo att wc evs s s' : crew_inv s -> crun tmo att wc s evs = Some s' -> stale s' = 0%nat -> crew_inv s'.
Proof.
  revert s. induction evs as [|ev evs IH]; intros s Hinv Hr Hst; simpl in Hr; [by simplify_eq|].
  destruct (cstep tmo att wc s ev) as [s1|] eqn:Es; [|done]. apply (IH s1); [|done|done]. eapply cstep_inv; [done|exact Es|].
  assert (Hm : forall evs s, crun tmo att wc s evs = Some s' -> (stale s <= stale s')%nat).
  { clear. induction evs as [|ev evs IH]; intros s Hr; simpl in Hr; [by simplify_eq|].
    destruct (cstep tmo att wc s ev) as [s1|] eqn:Es; [|done]. pose proof (cstep_stale _ _ _ _ _ _ Es). specialize (IH _ Hr). lia. }
  specialize (Hm _ _ Hr). lia.
Qed.

Lemma crew_start_inv n : crew_inv (crew_start n).
Proof.
  assert (H : forall {A} (f : slot -> list A) k, f (mk_slot WkIdle None true false 0 0) = [] -> concat (f <$> replicate k (mk_slot WkIdle None true false 0 0)) = []).
  { intros A f k Hf. induction k as [|k IH]; [done|]. cbn [replicate fmap list_fmap concat]. by rewrite Hf. }
  assert (H' : forall (f : slot -> nat) k, f (mk_slot WkIdle None true false 0 0) = 0%nat -> sum_list_with f (replicate k (mk_slot WkIdle None true false 0 0)) = 0%nat).
  { intros f k Hf. induction k as [|k IH]; [done|]. simpl. by rewrite Hf, IH. }
  split; simpl; rewrite ?H, ?H' by done; try done. by apply Forall_replicate.
Qed.


(** Two workers, the first dies in a future task and is replaced, its
    replacement runs a future task to its end; everybody is joined. *)
Definition crash_demo : list cevent :=
  [CDispatch 0 true; CPublish 0; CDispatch 1 false; CCrash 0; CRecover 0 true; CPublish 1; CDispatch 0 true; CPublish 0; CClear 0; CRetire 0;
   CClear 1; CRetire 1; CShutdown; CExit 0; CExit 1; CJoinBegin 0; CJoinEnd; CJoinBegin 1; CJoinEnd].


(** The condition is needed: the shutdown loop reads thread_alive and the
    handle and joins without the pool lock, while the recovery scan of the
    timer thread, still running, may reap the crashed worker and start a new
    one.  The join then fails, the loop counts the crash a second time and
    claims the slot of the new worker: the context of a running task is freed
    and its worker frees it again, and the new worker is never joined. *)
Definition reap_race : list cevent :=
  [CCrash 0; CShutdown; CJoinBegin 0; CRecover 0 true; CDispatch 0 true; CPublish 0; CJoinEnd; CClear 0; CRetire 0].

Theorem recovery_races_shutdown :
  exists s, crun 1000 3 1 (crew_start 1) reap_race = Some s /\ freed s = [0; 0]%nat /\ length (crashes s) = 1%nat /\ abnormal_total s = 2 /\
    (fun x => (ph x, thread_alive x)) <$> slots s = [(WkIdle, false)].
Proof. eexists. split; [vm_compute; reflexivity|]. vm_compute. done. Qed.
