(* ===== verification/Monitor.v ===== *)
(** * Monitoring and throttling (src/thread_pool.c: backpressure callbacks,
    loom_pool_broadcast, the health sample and the counting queries).

    Clock readings are inputs, in nanoseconds (pairs of seconds and
    nanoseconds for loom_pool_broadcast, which compares the two parts). *)
From S2P Require Import Prelude Types.

(** ** Backpressure *)

Inductive loom_backpressure_event_t := LOOM_BACKPRESSURE_QUEUE_HIGH | LOOM_BACKPRESSURE_QUEUE_BLOCKED.

(** [bp_warn] is the conversion of a capacity to the warning depth,
    (uint64_t)((double)capacity * ratio), or [None] for a ratio that is not
    positive. *)
Record monitor := mk_monitor {
  bp_queue_timeout_ns : Z;
  bp_warn : option (Z -> Z);
  bp_callback : ptr;
  bp_callback_ctx : ptr;
  bp_last_fire_ns : Z;
  fired : list (Z * ptr * ptr * loom_backpressure_event_t);     (* newest first: time, callback, context, event *)
}.

Definition loom_pool_set_backpressure_config (m : monitor) (cfg : option (Z * option (Z -> Z))) : monitor :=
  match cfg with
  | Some (timeout, warn) => mk_monitor timeout warn (bp_callback m) (bp_callback_ctx m) (bp_last_fire_ns m) (fired m)
  | None => mk_monitor 60000000000 (Some (fun cap => cap * 8 / 10)) (bp_callback m) (bp_callback_ctx m) (bp_last_fire_ns m) (fired m)
  end.

Definition loom_pool_set_backpressure_callback (m : monitor) (cb ctx : ptr) : monitor :=
  mk_monitor (bp_queue_timeout_ns m) (bp_warn m) cb ctx 0 (fired m).

Definition window (m : monitor) : Z := if 0 <? bp_queue_timeout_ns m then bp_queue_timeout_ns m else 60000000000.

Definition fire_backpressure (m : monitor) (event : loom_backpressure_event_t) (now : Z) : monitor :=
  if bp_callback m =? NULL then m
  else if negb (bp_last_fire_ns m =? 0) && (now - bp_last_fire_ns m <? window m) then m
  else mk_monitor (bp_queue_timeout_ns m) (bp_warn m) (bp_callback m) (bp_callback_ctx m) now
         ((now, bp_callback m, bp_callback_ctx m, event) :: fired m).

(** The hint of enqueue_task once it has passed the capacity check. *)
Definition warn_submit (m : monitor) (queue_capacity queue_len now : Z) : monitor :=
  match bp_warn m with
  | Some warn =>
      if negb (bp_callback m =? NULL) && negb (queue_capacity =? 0) && (warn queue_capacity <=? queue_len)
      then fire_backpressure m LOOM_BACKPRESSURE_QUEUE_HIGH now else m
  | None => m
  end.

(** What a submit call does to the monitor: a blocking one that finds the
    queue full reports that first. *)
Definition submit_hints (m : monitor) (queue_capacity len_before len_after : Z) (block : bool) (now1 now2 : Z) : monitor :=
  if negb (queue_capacity =? 0) && (queue_capacity <=? len_before) then
    if block then warn_submit (fire_backpressure m LOOM_BACKPRESSURE_QUEUE_BLOCKED now1) queue_capacity len_after now2 else m
  else warn_submit m queue_capacity len_after now2.

Inductive bp_op :=
  | BpFire (event : loom_backpressure_event_t) (now : Z)
  | BpSubmit (queue_capacity len_before len_after : Z) (block : bool) (now1 now2 : Z).

Definition bp_step (m : monitor) (o : bp_op) : monitor :=
  match o with
  | BpFire ev now => fire_backpressure m ev now
  | BpSubmit c l1 l2 b now1 now2 => submit_hints m c l1 l2 b now1 now2
  end.

(** The clock readings of an operation, in order. *)
Definition op_times (o : bp_op) : list Z := match o with BpFire _ now => [now] | BpSubmit _ _ _ _ now1 now2 => [now1; now2] end.

Definition fire_time (x : Z * ptr * ptr * loom_backpressure_event_t) : Z := x.1.1.1.

(** Newest first, any two calls at least [w] apart. *)
Definition spaced (w : Z) (l : list Z) : Prop := Sorted (fun later earlier => w <= later - earlier) l.

(** *** Throttling *)

(** What stays true: the settings, the spacing, and the time of the last call. *)
Record throttled (m0 m : monitor) : Prop := {
  th_same : window m = window m0 /\ bp_callback m = bp_callback m0;
  th_spaced : spaced (window m0) (fire_time <$> fired m);
  th_last : bp_last_fire_ns m = match fired m with x :: _ => fire_time x | [] => 0 end;
  th_pos : Forall (fun x => 0 < fire_time x) (fired m);
}.

Lemma fire_throttled m0 m ev now : throttled m0 m -> 0 < now -> throttled m0 (fire_backpressure m ev now).
Proof.
  intros [[H1 H1'] H2 H3 H4] Hn. unfold fire_backpressure. destruct (_ =? NULL); [by split|]. case_if; [by split|].
  split; [done| |done|by constructor].
  cbn [fired fmap list_fmap]. constructor; [done|]. destruct (fired m) as [|x l]; [constructor|]. cbn [fmap list_fmap]. constructor.
  apply andb_false_iff in Heqb. rewrite H3, H1 in Heqb. apply Forall_cons in H4 as [Hx _]. unfold fire_time at 1. simpl.
  destruct Heqb as [He|He]; [|by apply Z.ltb_ge in He]. apply negb_false_iff, Z.eqb_eq in He. lia.
Qed.

Lemma warn_throttled m0 m c l now : throttled m0 m -> 0 < now -> throttled m0 (warn_submit m c l now).
Proof. intros. unfold warn_submit. destruct (bp_warn m); [|done]. case_if; [by apply fire_throttled|done]. Qed.

Lemma bp_step_throttled m0 m o : throttled m0 m -> Forall (fun t => 0 < t) (op_times o) -> throttled m0 (bp_step m o).
Proof.
  intros H Ht. destruct o as [ev now|c l1 l2 b n1 n2]; cbn [op_times] in Ht; simpl.
  - apply Forall_cons in Ht as [? _]. by apply fire_throttled.
  - apply Forall_cons in Ht as [? Ht]. apply Forall_cons in Ht as [? _]. unfold submit_hints. case_if; [destruct b; [|done]|];
      apply warn_throttled; auto using fire_throttled.
Qed.

(** Backpressure callbacks are throttled: from the moment a callback is
    installed, for any sequence of submit calls and queue states, two calls of
    the callback are at least one window apart (the configured timeout, 60 s
    when that is not positive), whichever of the two events they report. *)
Theorem backpressure_throttled m cb ctx ops :
  Forall (fun t => 0 < t) (concat (op_times <$> ops)) -> fired m = [] ->
  let m0 := loom_pool_set_backpressure_callback m cb ctx in
  let m' := foldl bp_step m0 ops in
  spaced (window m) (fire_time <$> fired m') /\ Forall (fun x => x.1.1.2 = cb) (fired m').
Proof.
  intros Ht Hf. cbv zeta. set (m0 := loom_pool_set_backpressure_callback m cb ctx).
  assert (H0 : throttled m0 m0) by (split; simpl; rewrite ?Hf; [done|constructor|done|constructor]).
  assert (G : forall m1, throttled m0 m1 -> Forall (fun x => x.1.1.2 = cb) (fired m1) ->
    throttled m0 (foldl bp_step m1 ops) /\ Forall (fun x => x.1.1.2 = cb) (fired (foldl bp_step m1 ops))).
  { clear H0. revert Ht. induction ops as [|o ops IH]; intros Ht m1 H1 H2; [done|]. cbn [fmap list_fmap concat] in Ht. apply Forall_app in Ht as [Ho Ht]. simpl.
    apply IH; [done|by apply bp_step_throttled|].
    assert (Hfire : forall m2 ev now, throttled m0 m2 -> Forall (fun x => x.1.1.2 = cb) (fired m2) -> Forall (fun x => x.1.1.2 = cb) (fired (fire_backpressure m2 ev now))).
    { intros m2 ev now [[_ Hc] _ _ _] H. unfold fire_backpressure. destruct (_ =? NULL); [done|]. case_if; [done|]. constructor; [exact Hc|done]. }
    assert (Hwarn : forall m2 c l now, throttled m0 m2 -> Forall (fun x => x.1.1.2 = cb) (fired m2) -> Forall (fun x => x.1.1.2 = cb) (fired (warn_submit m2 c l now))).
    { intros m2 c l now Hm H. unfold warn_submit. destruct (bp_warn m2); [|done]. case_if; [by apply Hfire|done]. }
    destruct o as [ev now|c l1 l2 b n1 n2]; simpl; [by apply Hfire|]. cbn [op_times] in Ho. apply Forall_cons in Ho as [? Ho].
    unfold submit_hints. case_if; [destruct b; [|done]|]; apply Hwarn; auto using fire_throttled. }
  destruct (G m0 H0) as [[_ H2 _ _] H3]; [simpl; rewrite Hf; constructor|]. split; [exact H2|exact H3].
Qed.

(** Two submits below and above the warning depth, a blocked one in the same
    window and one after it. *)
Definition bp_demo : list bp_op :=
  [BpSubmit 10 3 4 false 0 5; BpSubmit 10 8 9 false 6 7; BpSubmit 10 10 8 true 20 30; BpFire LOOM_BACKPRESSURE_QUEUE_BLOCKED 200].

Definition bp_demo_monitor : monitor := mk_monitor 100 (Some (fun cap => cap * 8 / 10)) NULL NULL 0 [].

Lemma backpressure_throttled_witness :
  Forall (fun t => 0 < t) (concat (op_times <$> drop 1 bp_demo)) /\
  spaced 100 (fire_time <$> fired (foldl bp_step (loom_pool_set_backpressure_callback bp_demo_monitor 9 1) (drop 1 bp_demo))) /\
  fire_time <$> fired (foldl bp_step (loom_pool_set_backpressure_callback bp_demo_monitor 9 1) (drop 1 bp_demo)) = [200; 7].
Proof.
  assert (H : Forall (fun t => 0 < t) (concat (op_times <$> drop 1 bp_demo))) by (repeat (constructor; [lia|]); constructor).
  split; [exact H|]. split; [exact (proj1 (backpressure_throttled bp_demo_monitor 9 1 (drop 1 bp_demo) H eq_refl))|vm_compute; reflexivity].
Defined.

(** ** loom_pool_broadcast *)

(** s_last_broadcast, and the tokens posted with the time they were posted at
    (newest first). *)
Record bcast := mk_bcast { last_sec : Z; last_nsec : Z; posted : list (Z * Z * nat) }.

Definition loom_pool_broadcast (b : bcast) (worker_count : nat) (sec nsec : Z) : bcast :=
  if (sec =? last_sec b) && (nsec <? last_nsec b + 1000) then b
  else if last_sec b <? sec then mk_bcast sec nsec ((sec, nsec, worker_count) :: posted b)
  else mk_bcast (last_sec b) nsec ((sec, nsec, worker_count) :: posted b).

Definition bcast_start : bcast := mk_bcast 0 0 [].

Definition broadcasts (wc : nat) (ts : list (Z * Z)) : bcast := foldl (fun b t => loom_pool_broadcast b wc t.1 t.2) bcast_start ts.

(** Not later, for readings of a monotonic clock. *)
Definition not_later (a b : Z * Z) : Prop := a.1 < b.1 \/ a.1 = b.1 /\ a.2 <= b.2.

Definition rate_ok (later earlier : Z * Z * nat) : Prop :=
  earlier.1.1 < later.1.1 \/ later.1.1 = earlier.1.1 /\ earlier.1.2 + 1000 <= later.1.2.

(** The last broadcast is the newest entry and not later than [now]. *)
Definition bcast_inv (b : bcast) (now : Z * Z) : Prop :=
  Sorted rate_ok (posted b) /\ not_later (last_sec b, last_nsec b) now /\
  match posted b with [] => last_sec b < now.1 \/ posted b = [] /\ now = (0, 0) | x :: _ => x.1 = (last_sec b, last_nsec b) end.

Lemma broadcast_inv b wc now t : bcast_inv b now -> not_later now t -> 0 < t.1 -> bcast_inv (loom_pool_broadcast b wc t.1 t.2) t.
Proof.
  intros (H1 & H2 & H3) Ht Hp. unfold bcast_inv, loom_pool_broadcast, not_later in *. cbn [fst snd] in *.
  destruct (Z.eqb_spec t.1 (last_sec b)) as [E1|E1], (Z.ltb_spec t.2 (last_nsec b + 1000)) as [E2|E2]; cbn [andb].
  1: { split_and!; [done|lia|]. destruct (posted b); [|done]. left. destruct H3 as [H3|[_ ->]]; simpl in *; lia. }
  all: destruct (Z.ltb_spec (last_sec b) t.1) as [E3|E3]; simpl; split_and!; try lia; try (by destruct t as [a c]; simpl in *; f_equal; lia).
  all: constructor; [done|]. all: destruct (posted b) as [|x l]; constructor; unfold rate_ok; rewrite H3; simpl; lia.
Qed.

(** loom_pool_broadcast is rate limited: for any readings of a monotonic
    clock, two broadcasts that posted tokens in the same second are at least
    1000 ns apart (the test compares the nanosecond parts of one second only),
    and each of them posted one token per worker. *)
Theorem broadcast_rate_limited wc ts :
  Sorted not_later ((0, 0) :: ts) -> Forall (fun t => 0 < t.1) ts ->
  Sorted rate_ok (posted (broadcasts wc ts)) /\ Forall (fun x => x.2 = wc) (posted (broadcasts wc ts)).
Proof.
  intros Hs Hp. unfold broadcasts.
  assert (G : forall b now, bcast_inv b now -> Forall (fun x => x.2 = wc) (posted b) -> Sorted not_later (now :: ts) ->
    let b' := foldl (fun b t => loom_pool_broadcast b wc t.1 t.2) b ts in Sorted rate_ok (posted b') /\ Forall (fun x => x.2 = wc) (posted b')).
  { clear Hs. induction Hp as [|t ts Ht Hp IH]; intros b now Hb Hw Hs; [by destruct Hb|]. simpl.
    apply Sorted_inv in Hs as [Hs Hh]. apply HdRel_inv in Hh. apply (IH _ t); [by eapply broadcast_inv| |done].
    unfold loom_pool_broadcast. repeat case_match; [done|by constructor..]. }
  apply (G bcast_start (0, 0)); [|constructor|done]. split_and!; [constructor|by right|by right].
Qed.

Lemma broadcast_rate_limited_witness :
  Sorted rate_ok (posted (broadcasts 2 [(5, 10); (5, 900); (5, 1010); (6, 0)])) /\
  posted (broadcasts 2 [(5, 10); (5, 900); (5, 1010); (6, 0)]) = [(6, 0, 2%nat); (5, 1010, 2%nat); (5, 10, 2%nat)].
Proof.
  split; [|vm_compute; reflexivity].
  refine (proj1 (broadcast_rate_limited 2 [(5, 10); (5, 900); (5, 1010); (6, 0)] _ _)).
  - repeat (constructor; [|constructor; unfold not_later; simpl; lia]). repeat constructor.
  - repeat (constructor; [simpl; lia|]). constructor.
Defined.

(** The limit does not reach across a second: two calls 1 ns apart both post. *)
Example broadcast_across_seconds : length (posted (broadcasts 1 [(5, 999999999); (6, 0)])) = 2%nat.
Proof. vm_compute. reflexivity. Qed.

(** ** Queries *)

Definition loom_pool_idle_count (worker_count active : Z) : Z := if worker_count <=? active then 0 else worker_count -32 active.

(** The fields of loom_health_status_t; the utilisation as the quotient of two
    counts. *)
Record loom_health_status_t := mk_health {
  h_worker_count : Z; h_active_count : Z; h_pending_count : Z; h_abnormal_workers : Z; h_uptime_ns : Z; h_utilization : Z * Z;
}.

Definition loom_pool_health_sample (worker_count active_workers queue_len abnormal_total created_ns now : Z) : loom_health_status_t :=
  mk_health worker_count active_workers queue_len abnormal_total (now - created_ns)
    (if 0 <? worker_count then (active_workers, worker_count) else (0, 1)).

(** A sample taken while at most worker_count tasks run has a utilisation
    between 0 and 1, and busy and idle workers add up. *)
Lemma health_sample_consistent wc ac pc ab t0 t :
  0 <= ac <= wc -> wc < 2 ^ 32 -> t0 <= t ->
  let h := loom_pool_health_sample wc ac pc ab t0 t in
  0 <= (h_utilization h).1 <= (h_utilization h).2 /\ 0 < (h_utilization h).2 /\ 0 <= h_uptime_ns h /\
  h_active_count h + loom_pool_idle_count wc ac = h_worker_count h.
Proof.
  intros Ha Hw Ht. cbv zeta. unfold loom_pool_health_sample, loom_pool_idle_count. simpl.
  destruct (Z.ltb_spec 0 wc), (Z.leb_spec wc ac); simpl; split_and!; rewrite ?u32_small; lia.
Qed.
