(* ===== verification/Runtime.v ===== *)
(** * The runtime façade (src/runtime.c): one pool and, when a name is
    configured, one shared-memory metrics region.

    Creation and destruction are composed from the pool's (PoolLife.v) and the
    region's (Metrics.v); the submit functions only choose the pool operation. *)
From stdpp Require Import strings.
From S2P Require Import Metrics.
From S2P Require Import PoolLife.
From S2P Require Import Prelude Types Pool.

(** ** The name buffer *)

(** Reading rt->shm_name as a string after the copy of at most 128 bytes: the
    terminator is copied only when the name is shorter than the buffer. *)
Definition SHM_NAME_SIZE : nat := 128.
Definition copy_shm_name (name : string) : option string :=
  if (String.length name <? SHM_NAME_SIZE)%nat then Some name else None.

(** ** Life cycle *)

Record loom_runtime := mk_runtime {
  rt_pool : mem;
  rt_shm : option (string * counters);    (* path and contents of the region *)
}.

(** [RLeft rc m]: an error code is returned, [m] is what the pool still holds;
    the code is that of the enumeration, or -1 cast to it. *)
Inductive rt_outcome := RCreated (r : loom_runtime) | RLeft (rc : Z) (m : mem) | RFault.

(** The system calls of the region. *)
Record shm_env := mk_shm_env { shm_open_ok : bool; ftruncate_ok : bool; mmap_ok : bool }.

Definition loom_runtime_create (calloc_ok : bool) (e : env) (cfg : loom_pool_config) (shm_name : option string) (se : shm_env) : rt_outcome :=
  if negb calloc_ok then RLeft (result_code LOOMWORKS_ERR_ALLOC) no_mem
  else match PoolLife.loom_pool_create e cfg with
       | Stop rc m => RLeft (result_code rc) m
       | Fault => RFault
       | Go m =>
           match shm_name with
           | None => RCreated (mk_runtime m None)
           | Some name =>
               match copy_shm_name name with
               | None => RFault
               | Some EmptyString => RCreated (mk_runtime m None)
               | Some s =>
                   match loom_metrics_shm_create s (shm_open_ok se) (ftruncate_ok se) (mmap_ok se) with
                   | Some r => RCreated (mk_runtime m (Some r))
                   | None =>
                       match PoolLife.loom_pool_destroy m with
                       | Go m | Stop _ m => RLeft (-1) m
                       | Fault => RFault
                       end
                   end
               end
           end
       end.

(** The pool is shut down and destroyed, the region unmapped and unlinked;
    what is left of either, [None] for a fault. *)
Definition loom_runtime_destroy (r : loom_runtime) (munmap_ok : bool) : option (mem * option (string * counters)) :=
  match PoolLife.loom_pool_destroy (shut_and_join (rt_pool r)) with
  | Go m | Stop _ m => Some (m, if munmap_ok then None else rt_shm r)
  | Fault => None
  end.

(** ** Submitting *)

Inductive loom_submit_flag_t := LOOM_SUBMIT_THREAD | LOOM_SUBMIT_CORO.

(** The pool call made by producer [k]; [inr] is an error returned at once. *)
Definition loom_runtime_submit (k : nat) (f data : ptr) (flag : loom_submit_flag_t) (priority : Z) (timer_ok : bool) : pevent :=
  match flag with
  | LOOM_SUBMIT_CORO => EvSubmitCoro k (mk_request f data LOOMWORKS_PRIORITY_NORMAL false false true) timer_ok
  | LOOM_SUBMIT_THREAD => EvSubmit k (mk_request f data priority false false false) false
  end.

Definition loom_runtime_submit_blocking (k : nat) (f data : ptr) (flag : loom_submit_flag_t) (priority : Z) : pevent + loom_result_t :=
  match flag with
  | LOOM_SUBMIT_THREAD => inl (EvSubmit k (mk_request f data LOOMWORKS_PRIORITY_NORMAL false false false) true)
  | LOOM_SUBMIT_CORO => inr LOOMWORKS_ERR_INVALID
  end.

Definition loom_runtime_resize (count : nat) : pevent + loom_result_t :=
  if (count =? 0)%nat then inr LOOMWORKS_ERR_INVALID else inl (EvResize count).

(** ** Theorems *)

(** A runtime that was created gives everything back: whatever resizes,
    coroutine sleeps and failures its pool went through, loom_runtime_destroy
    releases every block of the pool and the region.  The creation returns an
    error that leaves nothing behind, with two exceptions: a leaked thread
    argument, and a region that cannot be created (an invalid name or a failing
    system call), where loom_pool_destroy refuses the pool that is still
    running, so every block and every worker of it stays.  A name of 128
    characters or more is read past the end of its buffer. *)
Theorem runtime_lifecycle c e cfg name se os :
  match loom_runtime_create c e cfg name se with
  | RCreated r =>
      exists m, life_run (rt_pool r) os = Some m /\
      exists m', loom_runtime_destroy (mk_runtime m (rt_shm r)) true = Some (m', None) /\ live m' = []
  | RLeft rc m =>
      running m = [] /\ (live m = [] \/ exists i, live m = [BWorkerArg i]) \/
      rc = -1 /\ PoolLife.loom_pool_create e cfg = Go m
  | RFault => PoolLife.loom_pool_create e cfg = Fault \/ exists s, name = Some s /\ (128 <= String.length s)%nat
  end.
Proof.
  unfold loom_runtime_create. destruct c; cbn [negb]; [|by left; split; [|left]].
  pose proof (create_outcome e cfg) as Hf.
  destruct (PoolLife.loom_pool_create e cfg) as [m|rc m|] eqn:Ec; [|left; naive_solver|by left].
  destruct (create_sound e cfg m Ec) as [Hs Hsh].
  assert (Hlife : forall s, exists m1, life_run m os = Some m1 /\ exists m2, loom_runtime_destroy (mk_runtime m1 s) true = Some (m2, None) /\ live m2 = []).
  { intros s. destruct (life_run_sound os m Hs) as (m1 & H1 & Hs1). destruct (sound_destroyed m1 Hs1) as (m2 & H2 & H3). exists m1. split; [done|]. exists m2.
    split; [|done]. unfold loom_runtime_destroy. simpl. by rewrite H2. }
  destruct name as [name|]; [|apply Hlife]. unfold copy_shm_name, SHM_NAME_SIZE. destruct (Nat.ltb_spec (String.length name) 128).
  - destruct name as [|ch name]; [apply Hlife|]. destruct (loom_metrics_shm_create _ _ _ _); [apply Hlife|].
    unfold PoolLife.loom_pool_destroy. rewrite Hsh. by right.
  - right. by exists name.
Qed.

(** An invalid region name leaves a running pool behind. *)
Example runtime_invalid_name_leaks :
  match loom_runtime_create true all_ok (two_workers LOOM_NUMA_DISABLED) (Some "a-b"%string) (mk_shm_env true true true) with
  | RLeft rc m => rc = -1 /\ running m = [0; 1]%nat
  | _ => False
  end.
Proof. vm_compute. done. Qed.
