(* ===== verification/Facade.v ===== *)
(** * The public entry points (src/thread_pool.c, src/runtime.c, src/metrics.c):
    the submit functions that guard their arguments and choose the operation
    of the pool, the runtime's delegating calls, and the queries.

    A handle is [None] when it is NULL.  An entry point either returns a code
    at once or performs one event of Pool.v, whose later steps belong to the
    pool. *)
From S2P Require Import Metrics Recovery.
From S2P Require Import Numa Runtime ResultTask.
From S2P Require Import Prelude Types Pool.

(** ** Submitting *)

Definition entry : Type := pevent + loom_result_t.

Definition plain (f data : ptr) (prio : Z) : request := mk_request f data prio false false false.

Definition loom_pool_submit (k : nat) (f data : ptr) : entry :=
  if f =? NULL then inr LOOMWORKS_ERR_INVALID else inl (EvSubmit k (plain f data LOOMWORKS_PRIORITY_NORMAL) false).

Definition loom_pool_submit_blocking (k : nat) (f data : ptr) : entry :=
  if f =? NULL then inr LOOMWORKS_ERR_INVALID else inl (EvSubmit k (plain f data LOOMWORKS_PRIORITY_NORMAL) true).

Definition loom_pool_submit_priority (k : nat) (f data : ptr) (prio : Z) : entry :=
  if f =? NULL then inr LOOMWORKS_ERR_INVALID else inl (EvSubmit k (plain f data prio) false).

(** The hook of the DAG engine. *)
Definition loom_pool_submit_internal (k : nat) (f user : ptr) (prio : Z) : entry :=
  if f =? NULL then inr LOOMWORKS_ERR_INVALID else inl (EvSubmit k (plain f user prio) false).

(** loom_pool_submit_coroutine_ex up to the pool lock: the code, OK when the
    locked part follows, and the live objects of the completion future.
    [want] = the caller passed a place for the future. *)
Definition loom_pool_submit_coroutine_ex (f : ptr) (want stopping : bool) (ok : fblock -> bool) (timer : loom_result_t)
  : loom_result_t * list fblock :=
  if f =? NULL then (LOOMWORKS_ERR_INVALID, [])
  else if stopping then (LOOMWORKS_ERR_SHUTDOWN, [])
  else
    let made :=
      if negb want then inl []
      else if negb (ok FFut) then inr []
      else if negb (ok FMutex) then inr (drop_blocks [FFut] [FFut])
      else if negb (ok FCond) then inr (drop_blocks [FMutex; FFut] [FMutex; FFut])
      else inl [FCond; FMutex; FFut] in
    match made with
    | inr live => (LOOMWORKS_ERR_ALLOC, live)
    | inl live =>
        match timer with
        | LOOMWORKS_OK => (LOOMWORKS_OK, live)
        | rc => (rc, drop_blocks [FCond; FMutex; FFut] live)
        end
    end.

(** The locked part returned [rc]: the future stays only with the task. *)
Definition submit_coroutine_end (live : list fblock) (rc : loom_result_t) : list fblock :=
  match rc with LOOMWORKS_OK => live | _ => drop_blocks [FCond; FMutex; FFut] live end.

(** The completion future exists in full exactly when the call succeeded and
    the caller asked for it. *)
Lemma submit_coroutine_all_or_nothing f want stopping ok timer rc :
  let '(rc1, live) := loom_pool_submit_coroutine_ex f want stopping ok timer in
  (rc1 <> LOOMWORKS_OK -> live = []) /\
  (rc1 = LOOMWORKS_OK ->
     submit_coroutine_end live rc = if want && bool_decide (rc = LOOMWORKS_OK) then [FCond; FMutex; FFut] else []).
Proof.
  unfold loom_pool_submit_coroutine_ex. destruct (f =? NULL), stopping, want; cbn [negb]; try done;
    destruct (ok FFut), (ok FMutex), (ok FCond), timer; cbn [negb]; try done; by destruct rc.
Qed.

(** ** The runtime *)

Inductive rt_call :=
  | RtSubmit (k : nat) (f data : ptr) (flag : loom_submit_flag_t) (prio : Z) (timer_ok : bool)
  | RtSubmitCoroutineEx (k : nat) (f arg : ptr) (timer_ok : bool)
  | RtSubmitFuture (k : nat) (f ctx : ptr) (future_null : bool)
  | RtSubmitBlocking (k : nat) (f data : ptr) (flag : loom_submit_flag_t) (prio : Z)
  | RtCancel (t : nat)
  | RtCancelAll
  | RtResize (n : nat)
  | RtShutdown
  | RtPool (ev : pevent).            (* a later step of a call, or of a worker *)

(** The entry point of the pool each call delegates to; [ctx] of a result task
    is the context loom_pool_submit_future allocated. *)
Definition runtime_entry (c : rt_call) : entry :=
  match c with
  | RtSubmit k f data flag prio timer_ok => inl (loom_runtime_submit k f data flag prio timer_ok)
  | RtSubmitCoroutineEx k f arg timer_ok =>
      if f =? NULL then inr LOOMWORKS_ERR_INVALID else inl (EvSubmitCoro k (plain f arg LOOMWORKS_PRIORITY_NORMAL) timer_ok)
  | RtSubmitFuture k f ctx future_null =>
      if (f =? NULL) || future_null then inr LOOMWORKS_ERR_INVALID
      else inl (EvSubmit k (mk_request f ctx LOOMWORKS_PRIORITY_NORMAL true true false) false)
  | RtSubmitBlocking k f data flag prio => loom_runtime_submit_blocking k f data flag prio
  | RtCancel t => inl (EvCancelId t)
  | RtCancelAll => inl EvCancelAll
  | RtResize n => loom_runtime_resize n
  | RtShutdown => inl EvShutdown
  | RtPool ev => inl ev
  end.

(** The value a call that reaches the pool's critical section returns at once. *)
Definition runtime_value (p : pool) (c : rt_call) : option loom_result_t :=
  match c with
  | RtCancel t => Some (loom_pool_cancel_by_id p t).1
  | RtResize n => Some (loom_pool_resize p n).1
  | _ => None
  end.

(** One call on a handle that may be NULL. *)
Definition runtime_step (rt : option pool) (c : rt_call) : option (option loom_result_t * option pool) :=
  match rt with
  | None => Some (Some LOOMWORKS_ERR_INVALID, None)
  | Some p =>
      match runtime_entry c with
      | inr rc => Some (Some rc, Some p)
      | inl ev => match pstep p ev with Some p' => Some (runtime_value p c, Some p') | None => None end
      end
  end.

Fixpoint runtime_run (rt : option pool) (cs : list rt_call) : option (option pool) :=
  match cs with
  | [] => Some rt
  | c :: cs => match runtime_step rt c with Some (_, rt') => runtime_run rt' cs | None => None end
  end.

(** The pool events of a list of calls. *)
Definition pool_events (cs : list rt_call) : list pevent :=
  omap (fun c => match runtime_entry c with inl ev => Some ev | inr _ => None end) cs.

Lemma runtime_refines_pool cs : forall p rt, runtime_run (Some p) cs = Some rt -> exists p', rt = Some p' /\ prun p (pool_events cs) = Some p'.
Proof.
  induction cs as [|c cs IH]; intros p rt Hr; simpl in *; [simplify_eq; by exists p|].
  destruct (runtime_entry c) as [ev|rc]; simpl; [|by apply IH].
  destruct (pstep p ev) as [p1|]; [|done]. by apply IH.
Qed.

(** A NULL runtime is rejected by every call and stays NULL. *)
Lemma runtime_null cs : runtime_run None cs = Some None.
Proof. induction cs; [done|]. done. Qed.

(** ** Queries *)

Definition loom_pool_worker_count (p : option pool) : Z := match p with Some p => Z.of_nat (worker_count p) | None => 0 end.
Definition loom_pool_pending_count (p : option pool) : Z := match p with Some p => qlen (qs p) | None => 0 end.
Definition loom_pool_active_count (c : option crew) : Z := match c with Some c => active_workers c | None => 0 end.
Definition loom_pool_abnormal_worker_count (c : option crew) : Z := match c with Some c => abnormal_total c | None => 0 end.

(** The quotient active / worker_count, as numerator and denominator. *)
Definition loom_pool_utilization (worker_count active : Z) : Z * Z := if worker_count =? 0 then (0, 1) else (active, worker_count).

Definition loom_runtime_worker_count := loom_pool_worker_count.
Definition loom_runtime_pending_count := loom_pool_pending_count.
Definition loom_runtime_active_count := loom_pool_active_count.

Definition loom_pool_numa_domain_count (t : option loom_numa_topology) : Z :=
  match t with Some t => if 0 <? domain_count t then domain_count t else 1 | None => 1 end.

Definition loom_pool_worker_domain (t : option loom_numa_topology) (worker_domain_ids : option (list Z)) (wc i : nat) : option Z :=
  match t, worker_domain_ids with
  | Some _, Some l => if (wc <=? i)%nat then Some 0 else l !! i
  | _, _ => Some 0
  end.

Definition loom_pool_worker_cpu (t : option loom_numa_topology) (worker_cpu_ids : option (list Z)) (wc i : nat) : option Z :=
  match t, worker_cpu_ids with
  | Some _, Some l => if (wc <=? i)%nat then Some UINT32_MAX else l !! i
  | _, _ => Some UINT32_MAX
  end.

(** The collector's getters: each reads one counter of a collector, 0 for NULL. *)
Definition read_counter (f : counters -> Z) (m : option counters) : Z := match m with Some c => f c | None => 0 end.
Definition loom_metrics_submitted := read_counter Metrics.submitted.
Definition loom_metrics_started := read_counter Metrics.started.
Definition loom_metrics_completed := read_counter Metrics.completed.
Definition loom_metrics_cancelled := read_counter Metrics.m_cancelled.
Definition loom_metrics_failed := read_counter Metrics.m_failed.
Definition loom_metrics_latency_sum_ns := read_counter latency_sum_ns.
Definition loom_metrics_latency_max_ns := read_counter latency_max_ns.

(** loom_metrics_shm_snapshot and loom_runtime_metrics_snapshot. *)
Definition loom_metrics_shm_snapshot (shm : option counters) (out_null : bool) : Z * option counters :=
  match shm with Some c => if out_null then (-1, None) else (0, Some c) | None => (-1, None) end.

Definition loom_runtime_metrics_snapshot (shm : option counters) (out_null : bool) : loom_result_t * option counters :=
  match shm with Some c => if out_null then (LOOMWORKS_ERR_INVALID, None) else (LOOMWORKS_OK, Some c) | None => (LOOMWORKS_ERR_INVALID, None) end.

(** ** Fault injection *)

(** test_alloc_fail_next: the value of g_test_alloc_fail_at before and after. *)
Definition test_alloc_fail_next (v : Z) : bool * Z := if v <? 0 then (false, v) else if v =? 0 then (true, -1) else (false, v - 1).

(** The answers of the next [n] checks. *)
Fixpoint alloc_checks (n : nat) (v : Z) : list bool :=
  match n with O => [] | S n => let '(b, v') := test_alloc_fail_next v in b :: alloc_checks n v' end.

(** Armed with [n], exactly the check number [n] (from 0) fires. *)
Lemma armed_fires_once n k i : (i < k)%nat -> alloc_checks k (Z.of_nat n) !! i = Some (i =? n)%nat.
Proof.
  assert (Hoff : forall k i, (i < k)%nat -> alloc_checks k (-1) !! i = Some false).
  { induction k0 as [|k0 IH]; intros j Hj; [lia|]. simpl. destruct j as [|j]; [done|]. apply IH. lia. }
  revert n i. induction k as [|k IH]; intros n i Hi; [lia|]. simpl. unfold test_alloc_fail_next.
  destruct (Z.ltb_spec (Z.of_nat n) 0); [lia|]. destruct (Z.eqb_spec (Z.of_nat n) 0) as [Hn|Hn].
  - assert (n = 0%nat) as -> by lia. destruct i as [|i]; [done|]. apply Hoff. lia.
  - destruct n as [|n]; [done|]. destruct i as [|i]; [done|]. rewrite Nat2Z.inj_succ. unfold Z.succ. rewrite Z.add_simpl_r.
    simpl. rewrite IH by lia. done.
Qed.

(** ** What a user of the runtime can rely on *)


(** Two tasks through the runtime, one of them cancelled, and rejected calls
    in between. *)
Definition runtime_demo : list rt_call :=
  let submit := RtSubmit 0 7 70 LOOM_SUBMIT_THREAD LOOMWORKS_PRIORITY_NORMAL true ::
                (RtPool <$> [EvCreate 0 true; EvClaim 0 true true; EvPublish 0; EvCount 0; EvPost 0]) in
  submit ++ [RtResize 0; RtSubmitBlocking 0 7 70 LOOM_SUBMIT_CORO 5] ++ submit ++
  [RtCancel 2; RtPool (EvPass 0 true); RtPool (EvFinish 0); RtPool (EvPass 0 true)].

